(* ===== verification/_CoqProject ===== *)
-Q . S2P
Prelude.v
GoStrings.v
Errors.v
Aggregate.v
Retry.v
KeyedMutex.v
CronSchedule.v
HttpTransport.v
HttpWaits.v
Base64.v
Crypter.v
NoncePool.v
Yaml.v
WorkPool.v
WaitGroup.v
Net.v
Addresses.v
HttpClient.v
Collections.v
ListConcurrent.v
Sha256.v
Strings.v
Rendering.v
Migrater.v
MigraterReplicas.v
CronScheduler.v
CronClock.v
CronDrain.v
