(* ===== verification/Prelude.v ===== *)
(** * go-kit: a verification development

    This library models the Go module go-kit (the sources under src/) in Rocq
    and proves what makes its parts correct.  Every definition that stands for
    code keeps the name the code gives it where Rocq allows; each file says
    which source files it translates.

    ** The files and what they model

    - Prelude.v (this file): notations, Go's [int] (unbounded [Z] with an
      explicit [wrap64], or [wrap32], where the code can overflow), results of
      fallible code ([Ok], [Err], [Panic]), the monad [Comp] of stateful code with a trace of
      observable events, [cmp.Ordered] and sorting, slices indexed with panics,
      counts over populations of goroutines ([cnt]) and weighted sums over them
      ([total]).
    - GoStrings.v: byte strings and what the sources use of strings, strconv
      and unicode/utf8; the numerals of [Atoi] as a grammar of their own.
    - Errors.v (errors.go): error values as trees, [errors.Is] and [errors.As],
      [AggregateError], [ErrorResponse], [IsContextError].
    - Aggregate.v (errors.go): [AggregateError] in memory, a slice header over a
      backing array that [append] writes in place or copies; [Join], one turn of
      its loop at a time, and [Unwrap] as steps.
    - Retry.v (retry/retry.go, retry/options.go): [DoCtx] over an arbitrary
      world that answers what the context, the timer select, the random source
      and the caller's function do; the specification [legal] of its histories,
      in which every look at the context's error is an event, and [answered],
      which ties a history to the answers of the world.
    - KeyedMutex.v (mutex.go): [Lock] and [Unlock] by any number of goroutines,
      each holding any number of keys, as a step function over a shared state with
      a heap of [keyMutex] objects; programs of such calls.
    - CronSchedule.v (crontab/schedule.go): the parser of five-field schedules,
      with index panics and the wrap-around of its loop counter, and [match]; a
      grammar of schedules ([spec_spells]) that uses no part of the parser.
    - CronScheduler.v (crontab/crontab.go): the dispatching goroutine, the
      goroutines of fired jobs and the callers of [AddJob] and [Shutdown] as
      steps of a shared state; a tick is the minute it brings.
    - CronClock.v (crontab/crontab.go): [New] with its options, and the goroutine
      [run] with its timer, its ticker, a monotonic and a wall clock, which
      drives the scheduler of CronScheduler.v.
    - CronDrain.v (crontab/crontab.go): the steps of the scheduler that nobody
      asks for, their measure and what they come to.
    - HttpTransport.v (httpclient/retry_transport.go, httpclient/classify.go):
      [RoundTrip] over [Retry.DoCtx]; attempt contexts and response bodies are
      heap objects, so leaks and double closes are visible; the network, the
      clock, the caller's context, the budget and the hook are interfaces.
    - HttpWaits.v: the transport and the retrier seen from the network, as a
      history of requests and waits.
    - Base64.v, Crypter.v (crypter/crypter.go): base64url as Go decodes it, and
      [Encrypt]/[Decrypt] over an AEAD given as a type class with its laws, a
      random source and the pool of nonce buffers.
    - NoncePool.v (crypter/crypter.go): [Encrypt] called by any number of
      goroutines, as steps over one heap of pooled buffers.
    - Yaml.v (crypter/yaml/yaml.go): the encrypting and the decrypting walk over
      a tree of yaml.v3 nodes; the crypter is a type class, of which the
      [Crypter] of Crypter.v is an instance.
    - WorkPool.v (workpool/workpool.go): callers of [Do], the caller of [Run]
      and the workers as steps over a channel, a [WaitGroup] and the atomics.
    - WaitGroup.v (waitgroup.go): the owner of a group and the goroutines that
      [Do] launches, which may call [Do] and [Wait] themselves or panic, as steps.
    - Net.v: what the sources use of net: address and CIDR parsers, predicates,
      masks, the printer, [SplitHostPort] and [JoinHostPort].
    - Addresses.v (ip.go, httpclient/dialguard.go): [AnonymizeIP], [IsValidIP],
      the table of disallowed networks and [dialGuard].
    - HttpClient.v (httpclient/options.go, httpclient/httpclient.go): options of
      both kinds as functions on a configuration and as data, presets,
      constructors, the transport and the retrier they build, and what a built
      client does.
    - Collections.v (slices.go, maps.go, list.go): finite maps whose iteration
      order is an arbitrary permutation, slice headers for [Chunk], in-place
      [Reverse], and [List] as a sequence of operations.
    - ListConcurrent.v (list.go, maps.go): the accesses of many goroutines to a
      [List]; [Slice] iterates without the lock, a key per step, and the runtime
      may abort it when a writer is next to it.
    - Sha256.v, Migrater.v (migrater/migrater.go, migrater/options.go): [Run]
      over a database and a file system given as interfaces; transactions,
      statements and log calls are its events.
    - MigraterReplicas.v: runs of the migrater interleaved over one database.
    - Strings.v (strings.go, stringsbuilder.go, version.go, utils.go, and the
      Matrix errors of errors.go): text helpers, a builder that knows its
      address, the version of a module, constant-time equality, [IsNil].
    - Rendering.v (template/template.go, format/markdown.go): rendering over an
      arbitrary template engine and Markdown converter, and the transformer of
      links over an arbitrary syntax tree.

    CronScheduler.v dispatches on what CronSchedule.v parses and matches, and
    every step of CronClock.v is one of its steps or none.  Aggregate.v refines
    the bag of Errors.v, and NoncePool.v the [Encrypt] of Crypter.v.
    HttpTransport.v is the client of Retry.v (its [once] is the function the
    retry loop calls, its errors carry the hint [nextDelay] honours) and both
    use the error trees of Errors.v; CronSchedule.v and Migrater.v use the
    number parser of GoStrings.v.  Yaml.v is proved against the class [Crypter]
    and its laws, which Crypter.v's theorems discharge ([kit_crypter_laws]).
    HttpClient.v assembles the transport of HttpTransport.v with a retrier of
    Retry.v, and installs the guard of Addresses.v in the dialer; its theorems
    about a client at work ([client_sends], [client_recovers]) go through all of
    them.

    ** What the theorems show

    - Safety of concurrent code: at most one holder per key, reference counts
      that are exactly the users of an entry (KeyedMutex.v, by induction on
      reachable states); no nonce buffer is used by two calls, and concurrent
      calls of [Encrypt] return what each returns alone (NoncePool.v); no job overlaps itself,
      fires twice in a minute or outlives a shutdown that drained
      (CronScheduler.v, CronClock.v); what [Unwrap] handed out is never written
      (Aggregate.v); the calls of [Add], [Remove] and [Len] on a [List] happen in
      one order, and [Slice] answers with every item that is there all along and
      none that never is, which need not be a state of the list
      ([List_histories], [Slice_mixes]); only [Len] and [Slice] can race
      (ListConcurrent.v); a pool runs every
      accepted task exactly once, does not panic under its rule, and comes to
      rest (WorkPool.v); [Wait] returns only after every launched goroutine
      (WaitGroup.v).  The last two files are proved with invariants that count what is
      owed to a counter, and a measure that every step decreases.
    - Security: a guarded client connects to no reserved address, however it is
      spelled or pinned, and uses no proxy (HttpClient.v, Addresses.v); the
      guard is equivalent to a list of numeric ranges; an anonymised address
      depends on its network only.
    - Refinement: every run of [DoCtx] is a history of the abstract retrier, in
      which no call is made without a look at a live context, and nothing but the
      context's error follows a wait the context won; every [RoundTrip] a history of numbered attempts, every [Run] of the
      migrater a history of transactions (committed ones in order, then at most
      one that failed and was rolled back, or, when the driver panicked, is left
      open); replicas that run at once and die anywhere apply every
      migration at most once, in order, and all of them once one of them succeeds
      (MigraterReplicas.v).
    - Termination: the steps of a shutdown run out, are never stuck before every
      call has returned, and lead every call without a deadline to nil
      (CronDrain.v); pools come to rest (WorkPool.v), and so do groups none of whose
      functions waits for its own group or panics (WaitGroup.v; [Example]s show
      what happens otherwise); programs of keyed locks that take their keys in an
      order run to their end in every interleaving and leave an empty map
      ([mutex_quiesces], from a measure and [no_waiter]; crossed keys and a key
      locked twice deadlock, which are [Example]s).
    - Liveness: no minute that is due is missed by a goroutine that is prompt
      under a steady wall clock (CronClock.v: the accounts [dinv] of the
      dispatcher and [pinv] of the ticker); a client whose network fails transiently
      and recovers in time returns the answer (HttpClient.v, over [loop_recovers] of Retry.v and
      [RoundTrip_through] of HttpTransport.v).
    - A pause the server asks for is kept: the delay goes from the header through
      the error and the retrier to the timer, and no request is sent before it is
      over (HttpWaits.v, over the loop rule [failure_rule] of Retry.v).
    - Resources: [RoundTrip] cancels every context and closes every body once,
      save those of the response it returns.
    - Documents: an encrypted document is the input with exactly its secrets
      sealed, a second encryption changes nothing, decryption undoes it, and
      leaves no ciphertext behind or fails (Yaml.v).  The relations [rewritten],
      [sealed] and [opened] are the specification of the walks.
    - Types: options of one kind never reach the other layer, so [New] is
      [Wrap] around [NewTransport] (HttpClient.v).
    - Round trips of text: [StringToSlice] after [SliceToString], [SplitHostPort]
      after [JoinHostPort]; [Truncate] on code points (Strings.v, Net.v).
    - Functional correctness: the parser accepts the schedules of the grammar and
      no other ([parse_accepts]); a parsed schedule matches a time exactly when
      the Vixie rule holds of the fields as written; [Decrypt] succeeds exactly
      on sealed texts and undoes [Encrypt]; the collection functions; the order
      of migrations; the retry classifier as a statement on error chains.
    - Bounds: the number of attempts, requests and budget questions, for a client
      in terms of the options it was built with; the sum of all waits; delays and
      the cap on Retry-After without wrap-around, with the inputs for which
      wrap-around does happen stated as theorems of their own.
    - Errors and panics: which inputs each parser refuses, what every failure
      of [Decrypt] means, when the schedule parser panics.

    ** Fuel

    Structural recursion where possible.  [segs_fuel] (GoStrings.v) gets the
    length of the string, each rune having at least one byte; [fill]
    (CronSchedule.v) gets [hi - lo + 2] turns, since the counter grows every
    turn until it passes [hi] or leaves the table; the retry loop gets the
    number of attempts; [chunk_loop] and [reverse_loop] (Collections.v) get
    the length of the slice; [blocks] (Sha256.v) the number of words;
    [truncate_loop] (Strings.v) the length of the string.  The theorems about
    each prove that this is enough.  [parseIPv6_loop] (Net.v) gets the eight
    turns the code's own counter allows, one per group.  [IsNil] (Strings.v) is given its fuel by the caller: the theorem
    says how much is enough without a cycle of pointers, and that with a cycle no
    amount is.

    ** Not modelled

    Standard-library and third-party code the sources only call enters as
    parameters with its documented contract (AEAD laws, database laws, random
    numbers in range, [http.ParseTime], [path.Join]).  The timers of retry and
    httpclient are punctual with respect to the clock of the environment; those
    of crontab never fire early, and how late they are is a parameter where it
    matters.  A time zone is a function from absolute minutes to broken-down
    times.  yaml.v3, [html/template],
    Goldmark, [net.Dialer], [strconv.Unquote] and [debug.ReadBuildInfo] are
    arguments, and so is Goldmark's tree walk.  The functions that only print
    (default loggers, the default panic handler of crontab) and the choice of
    Goldmark's extensions are left out.  A YAML tree has no sharing: the pointer of
    an alias node to its anchor is not followed by the code either.  A task of
    the pool does not call the pool; the job functions of crontab return or panic,
    so none calls [Shutdown] of its own scheduler.  [Unlock] by a goroutine that
    does not hold the key is a step of KeyedMutex.v, about which
    [foreign_unlock_succeeds] speaks; the other theorems there are about
    goroutines that unlock what they hold.  The replicas of MigraterReplicas.v are built from the same
    directory, on a database whose transactions are atomic and whose state table
    has its primary key; memory is sequentially consistent in all models of
    goroutines, so a data race is stated ([race] of ListConcurrent.v) and not
    given a meaning. *)
From Stdlib Require Import Ascii String.
From Stdlib Require Export ZArith Lia.
From stdpp Require Export sorting prelude gmap strings option list.

(** ** Notations *)

Declare Scope go_scope.
Delimit Scope go_scope with go.

(** A Go [string] or [[]byte] is a finite sequence of bytes.  [str] turns a
    literal into such a sequence. *)
Abbreviation gostring := (list ascii).
Definition str (s : string) : gostring := String.list_ascii_of_string s.
Definition code (c : ascii) : Z := Z.of_N (N_of_ascii c).
Definition chr (z : Z) : ascii := ascii_of_N (Z.to_N z).
Arguments code !_ /.

(** ** 64-bit signed integers ([int] and [time.Duration])

    The values are unbounded [Z]; [wrap64] is the two's complement
    wrap-around that Go's [+], [-] and [*] perform on [int64]. *)
Definition MaxInt64 : Z := 9223372036854775807.
Definition MinInt64 : Z := -9223372036854775808.
Definition wrap64 (x : Z) : Z := (x + 2 ^ 63) `mod` 2 ^ 64 - 2 ^ 63.
(** The same on [int32]. *)
Definition wrap32 (x : Z) : Z := (x + 2 ^ 31) `mod` 2 ^ 32 - 2 ^ 31.
Definition in_int64 (x : Z) : Prop := (MinInt64 ≤ x ≤ MaxInt64)%Z.
Notation "x +! y" := (wrap64 (x + y)%Z) (at level 50, left associativity) : go_scope.
Notation "x *! y" := (wrap64 (x * y)%Z) (at level 40, left associativity) : go_scope.

#[export] Instance in_int64_dec x : Decision (in_int64 x).
Proof. unfold in_int64. apply _. Defined.

Lemma wrap64_id x : in_int64 x → wrap64 x = x.
Proof.
  unfold in_int64, MinInt64, MaxInt64, wrap64. intros Hx.
  rewrite Z.mod_small; lia.
Qed.

Lemma wrap64_range x : in_int64 (wrap64 x).
Proof.
  unfold in_int64, wrap64, MinInt64, MaxInt64.
  pose proof (Z.mod_pos_bound (x + 2 ^ 63) (2 ^ 64)). lia.
Qed.

Lemma wrap64_add_l x y : (wrap64 (wrap64 x + y) = wrap64 (x + y))%Z.
Proof.
  unfold wrap64. f_equal.
  replace ((x + 2 ^ 63) `mod` 2 ^ 64 - 2 ^ 63 + y + 2 ^ 63)%Z
    with ((x + 2 ^ 63) `mod` 2 ^ 64 + y)%Z by lia.
  rewrite Zplus_mod_idemp_l. f_equal. lia.
Qed.

(** A sum that leaves the range by at most one full turn wraps to a negative
    number: the shape of every overflow the sources can run into. *)
Lemma wrap64_over x : (MaxInt64 < x ≤ MaxInt64 + 2 ^ 63)%Z → wrap64 x = (x - 2 ^ 64)%Z.
Proof.
  unfold MaxInt64, wrap64. intros Hx.
  replace (x + 2 ^ 63)%Z with ((x - 2 ^ 63) + 1 * 2 ^ 64)%Z by lia.
  rewrite Z.mod_add, Z.mod_small; lia.
Qed.

Create HintDb int64 discriminated.
#[export] Hint Resolve wrap64_range : int64.

Lemma wrap32_add_l x y : wrap32 (wrap32 x + y)%Z = wrap32 (x + y)%Z.
Proof.
  unfold wrap32. f_equal.
  replace ((x + 2 ^ 31) `mod` 2 ^ 32 - 2 ^ 31 + y + 2 ^ 31)%Z
    with ((x + 2 ^ 31) `mod` 2 ^ 32 + y)%Z by lia.
  rewrite Zplus_mod_idemp_l. f_equal. lia.
Qed.

Lemma wrap32_id x : (- 2 ^ 31 ≤ x < 2 ^ 31)%Z → wrap32 x = x.
Proof. intros Hx. unfold wrap32. rewrite Z.mod_small; lia. Qed.

(** [int64] arithmetic goals: unfold the bounds, then [lia]. *)
Ltac int64_lia := unfold in_int64, MinInt64, MaxInt64 in *; lia.

(** ** Results of fallible Go code

    [Ok a] is a value with a nil error, [Err e] a non-nil error and
    [Panic m] a run-time panic (index out of range, explicit [panic]). *)
Inductive result (E A : Type) : Type :=
  | Ok (a : A)
  | Err (e : E)
  | Panic (msg : string).
Arguments Ok {_ _} _.
Arguments Err {_ _} _.
Arguments Panic {_ _} _.

#[export] Instance result_ret {E} : MRet (result E) := λ A a, Ok a.
#[export] Instance result_bind {E} : MBind (result E) := λ A B f m,
  match m with Ok a => f a | Err e => Err e | Panic s => Panic s end.
#[export] Instance result_fmap {E} : FMap (result E) := λ A B f m,
  match m with Ok a => Ok (f a) | Err e => Err e | Panic s => Panic s end.

#[export] Instance result_eq_dec {E A} `{EqDecision E, EqDecision A} :
  EqDecision (result E A).
Proof. solve_decision. Defined.

Definition is_Ok {E A} (r : result E A) : bool :=
  match r with Ok _ => true | _ => false end.
Definition is_Panic {E A} (r : result E A) : bool :=
  match r with Panic _ => true | _ => false end.

Section result_lemmas.
Context {E A B : Type}.
Implicit Types (m : result E A) (f : A → result E B).

Lemma bind_Ok_inv m f b : m ≫= f = Ok b → ∃ a, m = Ok a ∧ f a = Ok b.
Proof. destruct m; naive_solver. Qed.

Lemma bind_Err_inv m f e :
  m ≫= f = Err e → m = Err e ∨ ∃ a, m = Ok a ∧ f a = Err e.
Proof. destruct m; naive_solver. Qed.

Lemma bind_Panic_inv m f s :
  m ≫= f = Panic s → m = Panic s ∨ ∃ a, m = Ok a ∧ f a = Panic s.
Proof. destruct m; naive_solver. Qed.

Lemma bind_no_panic m f :
  is_Panic m = false → (∀ a, m = Ok a → is_Panic (f a) = false) →
  is_Panic (m ≫= f) = false.
Proof. destruct m; naive_solver. Qed.
End result_lemmas.

(** Inverts a chain of binds that returned [Ok]. *)
Ltac inv_ok :=
  repeat match goal with
  | H : _ ≫= _ = Ok _ |- _ =>
      apply bind_Ok_inv in H; destruct H as (? & ? & H)
  | H : Ok _ = Ok _ |- _ => injection H as H
  | H : Err _ = Ok _ |- _ => discriminate H
  | H : Panic _ = Ok _ |- _ => discriminate H
  | H : (if ?b then _ else _) = Ok _ |- _ => destruct b eqn:?
  end; simplify_eq/=.

(** ** Stateful code with a trace of observable events

    A computation over a world [W] returns its value, the events it performed
    in order, and the new world. *)
Definition Comp (Ev W A : Type) : Type := W → A * list Ev * W.

#[export] Instance comp_ret {Ev W} : MRet (Comp Ev W) := λ A a w, (a, [], w).
#[export] Instance comp_bind {Ev W} : MBind (Comp Ev W) := λ A B f m w,
  let '(a, t1, w1) := m w in
  let '(b, t2, w2) := f a w1 in
  (b, t1 ++ t2, w2).

Section comp.
Context {Ev W : Type}.
Definition tell (e : Ev) : Comp Ev W () := λ w, ((), [e], w).
Definition get : Comp Ev W W := λ w, (w, [], w).
Definition put (w : W) : Comp Ev W () := λ _, ((), [], w).
Definition modify (f : W → W) : Comp Ev W () := λ w, ((), [], f w).
Definition val {A} (r : A * list Ev * W) : A := r.1.1.
Definition trace {A} (r : A * list Ev * W) : list Ev := r.1.2.
Definition world {A} (r : A * list Ev * W) : W := r.2.

Lemma comp_bind_unfold {A B} (m : Comp Ev W A) (f : A → Comp Ev W B) w a t w1 :
  m w = (a, t, w1) →
  (m ≫= f) w = (val (f a w1), t ++ trace (f a w1), world (f a w1)).
Proof.
  intros Hm. unfold mbind, comp_bind. rewrite Hm.
  by destruct (f a w1) as [[??]?].
Qed.
End comp.

(** Fallible stateful code: [try] runs the rest after success only, [on_err]
    intercepts an error; a panic passes through both. *)
Section fallible.
Context {Ev W E A B : Type}.
Definition try (m : Comp Ev W (result E A)) (f : A → Comp Ev W (result E B))
    : Comp Ev W (result E B) :=
  r ← m;
  match r with Ok a => f a | Err e => mret (Err e) | Panic s => mret (Panic s) end.
Definition on_err (m : Comp Ev W (result E A)) (h : E → Comp Ev W (result E A))
    : Comp Ev W (result E A) :=
  r ← m;
  match r with Err e => h e | r => mret r end.
End fallible.

(** ** [cmp.Ordered]: keys with a decidable total order *)
Class Ordered (A : Type) := {
  ord_le : relation A;
  ord_le_dec :: ∀ x y, Decision (ord_le x y);
  ord_le_trans :: Transitive ord_le;
  ord_le_antisymm :: AntiSymm (=) ord_le;
  ord_le_total :: Total ord_le;
}.

(** [slices.Sort] and [sort.Strings]: which algorithm runs is irrelevant, a
    total order has one sorted permutation ([sort_unique]). *)
Definition sort {A} `{Ordered A} (l : list A) : list A := merge_sort ord_le l.

Section sort.
Context {A : Type} `{Ordered A}.
Implicit Types l : list A.

Lemma sort_Permutation l : sort l ≡ₚ l.
Proof. apply merge_sort_Permutation. Qed.

Lemma sort_sorted l : StronglySorted ord_le (sort l).
Proof. apply (StronglySorted_merge_sort _). Qed.

Lemma sort_unique l l' : StronglySorted ord_le l' → l' ≡ₚ l → l' = sort l.
Proof.
  intros Hs Hp. apply (StronglySorted_unique ord_le); [done|apply sort_sorted|].
  by rewrite sort_Permutation.
Qed.

Lemma sort_proper l l' : l ≡ₚ l' → sort l = sort l'.
Proof.
  intros Hp. apply sort_unique; [apply sort_sorted|].
  by rewrite sort_Permutation.
Qed.

Lemma elem_of_sort x l : x ∈ sort l ↔ x ∈ l.
Proof. by rewrite sort_Permutation. Qed.

Lemma NoDup_sort l : NoDup (sort l) ↔ NoDup l.
Proof. by rewrite sort_Permutation. Qed.

#[export] Instance sort_Permutation_proper : Proper ((≡ₚ) ==> (=)) (sort (A:=A)).
Proof. intros l l'. apply sort_proper. Qed.
End sort.

#[export] Instance Z_ordered : Ordered Z := {| ord_le := Z.le |}.

(** Go compares strings byte by byte. *)
Fixpoint bytes_leb (s t : gostring) : bool :=
  match s, t with
  | [], _ => true
  | _ :: _, [] => false
  | a :: s, b :: t =>
      (code a <? code b)%Z || ((code a =? code b)%Z && bytes_leb s t)
  end.

Lemma code_inj a b : code a = code b → a = b.
Proof.
  unfold code. intros H%N2Z.inj%(f_equal ascii_of_N).
  by rewrite !ascii_N_embedding in H.
Qed.
#[export] Instance code_Inj : Inj (=) (=) code := code_inj.

Lemma code_range a : (0 ≤ code a < 256)%Z.
Proof.
  unfold code. pose proof (N_ascii_bounded a). lia.
Qed.

Lemma code_chr z : (0 ≤ z < 256)%Z → code (chr z) = z.
Proof.
  intros Hz. unfold code, chr. rewrite N_ascii_embedding by lia. lia.
Qed.

Lemma chr_code a : chr (code a) = a.
Proof. unfold code, chr. rewrite N2Z.id. apply ascii_N_embedding. Qed.

Lemma bytes_leb_trans s t u : bytes_leb s t → bytes_leb t u → bytes_leb s u.
Proof.
  revert t u. induction s as [|a s IH]; intros [|b t] [|c u]; simpl; try done.
  rewrite !Is_true_true, !orb_true_iff, !andb_true_iff, !Z.ltb_lt, !Z.eqb_eq.
  rewrite <-!Is_true_true. intros [?|[? ?]] [?|[? ?]]; [left; lia..|].
  right. split; [lia|]. by eapply IH.
Qed.

Lemma bytes_leb_antisymm s t : bytes_leb s t → bytes_leb t s → s = t.
Proof.
  revert t. induction s as [|a s IH]; intros [|b t]; simpl; try done.
  rewrite !Is_true_true, !orb_true_iff, !andb_true_iff, !Z.ltb_lt, !Z.eqb_eq.
  rewrite <-!Is_true_true. intros [?|[Hab ?]] [?|[? ?]]; [lia..|].
  apply code_inj in Hab as ->. f_equal. by apply IH.
Qed.

Lemma bytes_leb_total s t : bytes_leb s t ∨ bytes_leb t s.
Proof.
  revert t. induction s as [|a s IH]; intros [|b t]; simpl; auto.
  rewrite !Is_true_true, !orb_true_iff, !andb_true_iff, !Z.ltb_lt, !Z.eqb_eq.
  rewrite <-!Is_true_true.
  destruct (Z.lt_total (code a) (code b)) as [?|[?|?]]; [auto| |auto].
  destruct (IH t); auto.
Qed.

#[export] Program Instance gostring_ordered : Ordered gostring :=
  {| ord_le s t := bytes_leb s t |}.
Next Obligation. intros s t u. apply bytes_leb_trans. Qed.
Next Obligation. intros s t. apply bytes_leb_antisymm. Qed.
Next Obligation. intros s t. apply bytes_leb_total. Qed.

(** Pairs, lexicographically. *)
Definition lex_le {A B} `{Ordered A, Ordered B} (x y : A * B) : Prop :=
  (ord_le x.1 y.1 ∧ ¬ ord_le y.1 x.1) ∨ (ord_le x.1 y.1 ∧ ord_le y.1 x.1 ∧ ord_le x.2 y.2).

Section lex.
Context {A B : Type} `{Ordered A, Ordered B}.
Implicit Types x y z : A * B.

#[export] Instance lex_le_dec x y : Decision (lex_le x y).
Proof. unfold lex_le. apply _. Defined.

#[export] Instance lex_le_trans : Transitive (lex_le (A:=A) (B:=B)).
Proof.
  intros x y z. unfold lex_le.
  intros [[H1 H2]|(H1 & H2 & H3)] [[H4 H5]|(H4 & H5 & H6)];
    [left|left|left|right]; split_and?; try (by etrans); intros Hz;
    first [apply H2; by etrans|apply H5; by etrans].
Qed.

#[export] Instance lex_le_antisymm : AntiSymm (=) (lex_le (A:=A) (B:=B)).
Proof.
  intros [a b] [a' b'] [[H1 H2]|(H1 & H2 & H3)] [[H4 H5]|(H4 & H5 & H6)];
    simpl in *; try done. f_equal; by apply (anti_symm ord_le).
Qed.

#[export] Instance lex_le_total : Total (lex_le (A:=A) (B:=B)).
Proof.
  intros [a b] [a' b']. unfold lex_le. simpl.
  destruct (ord_le_total a a'), (ord_le_total b b');
    destruct (decide (ord_le a a')), (decide (ord_le a' a)); tauto.
Qed.

#[export] Instance prod_ordered : Ordered (A * B) := {| ord_le := lex_le |}.
End lex.

(** ** Lists *)
Section list_lemmas.
Context {A : Type}.
Implicit Types l : list A.

(** Go's [s[i] = v] on a slice: panics out of range. *)
Definition set_index {E} (l : list A) (i : Z) (v : A) : result E (list A) :=
  if decide (0 ≤ i < Z.of_nat (length l))%Z
  then Ok (<[Z.to_nat i := v]> l)
  else Panic "index out of range".

(** Go's [s[i]]. *)
Definition get_index {E} (l : list A) (i : Z) : result E A :=
  if decide (0 ≤ i)%Z then
    match l !! Z.to_nat i with
    | Some x => Ok x
    | None => Panic "index out of range"
    end
  else Panic "index out of range".

Lemma get_index_Ok {E} l i :
  (0 ≤ i < Z.of_nat (length l))%Z →
  ∃ x, get_index (E:=E) l i = Ok x ∧ l !! Z.to_nat i = Some x.
Proof.
  intros Hi. unfold get_index. rewrite decide_True by lia.
  destruct (lookup_lt_is_Some_2 l (Z.to_nat i)) as [x Hx]; [lia|].
  exists x. by rewrite Hx.
Qed.
End list_lemmas.

(** *** Counting the elements of a list that satisfy a test

    Used for populations of goroutines: [cnt] moves by at most one when one of
    them takes a step. *)
Definition cnt {A} (f : A → bool) (l : list A) : Z :=
  foldr (λ x n, (Z.b2z (f x) + n)%Z) 0%Z l.

Section cnt.
Context {A : Type}.
Implicit Types (f : A → bool) (l : list A).
Local Open Scope Z_scope.

Lemma cnt_nonneg f l : 0 ≤ cnt f l.
Proof. induction l as [|x l IH]; simpl; [lia|]. destruct (f x); simpl; lia. Qed.

Lemma cnt_le_length f l : cnt f l ≤ Z.of_nat (length l).
Proof. induction l as [|x l IH]; simpl; [lia|]. destruct (f x); simpl; lia. Qed.

Lemma cnt_snoc f l x : cnt f (l ++ [x]) = cnt f l + Z.b2z (f x).
Proof. induction l as [|y l IH]; simpl; lia. Qed.

Lemma cnt_insert f l i x y :
  l !! i = Some x → cnt f (<[i := y]> l) = cnt f l - Z.b2z (f x) + Z.b2z (f y).
Proof.
  revert i. induction l as [|z l IH]; intros [|i] Hi; simplify_eq/=; [lia|].
  rewrite (IH i Hi). lia.
Qed.

Lemma cnt_insert_same f l i x y :
  l !! i = Some x → f y = f x → cnt f (<[i := y]> l) = cnt f l.
Proof. intros Hi Hf. rewrite (cnt_insert _ _ _ _ _ Hi), Hf. lia. Qed.

Lemma cnt_ge_1 f l i x : l !! i = Some x → f x = true → 1 ≤ cnt f l.
Proof.
  revert i. induction l as [|z l IH]; intros [|i] Hi Hx; simplify_eq/=.
  - rewrite Hx. pose proof (cnt_nonneg f l). simpl. lia.
  - specialize (IH _ Hi Hx). destruct (f z); simpl; lia.
Qed.

(** Two different positions count twice. *)
Lemma cnt_ge_2 f l i j x y :
  l !! i = Some x → l !! j = Some y → f x = true → f y = true → i ≠ j → 2 ≤ cnt f l.
Proof.
  revert i j. induction l as [|z l IH]; intros [|i] [|j] Hi Hj Hx Hy Hij; simplify_eq/=.
  - rewrite Hx. pose proof (cnt_ge_1 f l j y Hj Hy). simpl. lia.
  - rewrite Hy. pose proof (cnt_ge_1 f l i x Hi Hx). simpl. lia.
  - specialize (IH i j Hi Hj Hx Hy ltac:(lia)). destruct (f z); simpl; lia.
Qed.

Lemma cnt_pos_inv f l : 0 < cnt f l → ∃ i x, l !! i = Some x ∧ f x = true.
Proof.
  induction l as [|z l IH]; simpl; [lia|]. intros Hpos.
  destruct (f z) eqn:Hz; [by exists 0%nat, z|].
  destruct IH as (i & x & ? & ?); [simpl in Hpos; lia|]. by exists (S i), x.
Qed.

Lemma cnt_zero f l : (∀ i x, l !! i = Some x → f x = false) → cnt f l = 0.
Proof.
  intros Hf. pose proof (cnt_nonneg f l).
  destruct (decide (cnt f l = 0)) as [|Hne]; [done|].
  destruct (cnt_pos_inv f l) as (i & x & Hx & Hfx); [lia|].
  by rewrite (Hf _ _ Hx) in Hfx.
Qed.

Lemma cnt_zero_inv f l i x : cnt f l = 0 → l !! i = Some x → f x = false.
Proof.
  intros Hc Hx. destruct (f x) eqn:Hf; [|done].
  pose proof (cnt_ge_1 _ _ _ _ Hx Hf). lia.
Qed.

Lemma cnt_elem f l x : x ∈ l → f x = true → 1 ≤ cnt f l.
Proof. intros [i Hi]%list_elem_of_lookup. by apply cnt_ge_1 with i. Qed.

Lemma cnt_pos_elem f l : 0 < cnt f l → ∃ x, x ∈ l ∧ f x = true.
Proof.
  intros (i & x & Hi & Hx)%cnt_pos_inv. exists x. split; [|done].
  apply list_elem_of_lookup. eauto.
Qed.

#[export] Instance cnt_Permutation f : Proper ((≡ₚ) ==> (=)) (cnt f).
Proof. induction 1; simpl; lia. Qed.
End cnt.

(** *** The sum of integer weights over a list

    For populations whose members can count more than once. *)
Definition total {A} (f : A → Z) (l : list A) : Z := foldr (λ x n, (f x + n)%Z) 0%Z l.

Section total.
Context {A : Type} (f : A → Z).
Implicit Types (l : list A).
Local Open Scope Z_scope.

Lemma total_insert l i x y :
  l !! i = Some x → total f (<[i := y]> l) = total f l - f x + f y.
Proof.
  revert i. induction l as [|z l IH]; intros [|i] Hi; simplify_eq/=; [lia|].
  rewrite (IH i Hi). lia.
Qed.

Lemma total_insert_same l i x y :
  l !! i = Some x → f y = f x → total f (<[i := y]> l) = total f l.
Proof. intros Hi Hf. rewrite (total_insert _ _ _ _ Hi), Hf. lia. Qed.

Context (Hf : ∀ x, 0 ≤ f x).

Lemma total_nonneg l : 0 ≤ total f l.
Proof using Hf. induction l as [|x l IH]; simpl; [lia|]. pose proof (Hf x). lia. Qed.

Lemma total_ge l i x : l !! i = Some x → f x ≤ total f l.
Proof using Hf.
  revert i. induction l as [|z l IH]; intros [|i] Hi; simplify_eq/=.
  - pose proof (total_nonneg l). lia.
  - specialize (IH _ Hi). pose proof (Hf z). lia.
Qed.

Lemma total_ge_2 l i j x y :
  l !! i = Some x → l !! j = Some y → i ≠ j → f x + f y ≤ total f l.
Proof using Hf.
  revert i j. induction l as [|z l IH]; intros [|i] [|j] Hi Hj Hij; simplify_eq/=.
  - pose proof (total_ge l j y Hj). lia.
  - pose proof (total_ge l i x Hi). lia.
  - specialize (IH i j Hi Hj ltac:(lia)). pose proof (Hf z). lia.
Qed.

Lemma total_pos_inv l : 0 < total f l → ∃ i x, l !! i = Some x ∧ 0 < f x.
Proof using Hf.
  induction l as [|z l IH]; simpl; [lia|]. intros Hpos.
  destruct (decide (0 < f z)) as [Hz|Hz]; [by exists 0%nat, z|].
  destruct IH as (i & x & ? & ?); [lia|]. by exists (S i), x.
Qed.

Lemma total_zero l : (∀ i x, l !! i = Some x → f x = 0) → total f l = 0.
Proof using Type.
  induction l as [|z l IH]; simpl; intros H; [done|].
  rewrite (H 0%nat z eq_refl), IH; [done|]. intros i x Hi. exact (H (S i) x Hi).
Qed.

Lemma total_le g l :
  (∀ i x, l !! i = Some x → f x ≤ g x) → total f l ≤ total g l.
Proof using Type.
  induction l as [|z l IH]; simpl; intros H; [done|].
  pose proof (H 0%nat z eq_refl). specialize (IH (λ i x, H (S i) x)). lia.
Qed.
End total.

Lemma total_plus {A} (f g : A → Z) l :
  total (λ x, f x + g x)%Z l = (total f l + total g l)%Z.
Proof. induction l as [|x l IH]; simpl; lia. Qed.

Lemma total_const {A} (c : Z) (l : list A) :
  total (λ _, c) l = (c * Z.of_nat (length l))%Z.
Proof. induction l as [|x l IH]; simpl; lia. Qed.

(** A sum of weights moves with the one element that changes. *)
Lemma sum_list_with_insert {A} (f : A → nat) l k x y :
  l !! k = Some x → (sum_list_with f (<[k := y]> l) + f x = sum_list_with f l + f y)%nat.
Proof.
  revert k. induction l as [|z l IH]; intros [|k] H; simplify_eq/=; [lia|].
  specialize (IH k H). lia.
Qed.
