(* ===== verification/GoStrings.v ===== *)
(** * Byte strings: what the sources use of [strings], [strconv] and
    [unicode/utf8]

    Go strings are byte sequences; the [unicode/utf8] decoder below follows
    the accept ranges of the standard library (surrogates, overlong forms and
    values past U+10FFFF decode to [RuneError] of width one). *)
From Stdlib Require Import Ascii String.
From S2P Require Export Prelude.
Local Open Scope Z_scope.

(** ** [unicode/utf8] *)

Definition RuneError : Z := 65533.
Definition cont (b : Z) : bool := (128 <=? b) && (b <=? 191).

(** [utf8.DecodeRuneInString]: the first rune and its width in bytes. *)
Definition decode_rune (s : gostring) : Z * nat :=
  match map code s with
  | [] => (RuneError, 0%nat)
  | b0 :: rest =>
    if b0 <? 128 then (b0, 1%nat) else
    if b0 <? 194 then (RuneError, 1%nat) else
    if b0 <? 224 then
      match rest with
      | b1 :: _ => if cont b1 then ((b0 - 192) * 64 + (b1 - 128), 2%nat)
                   else (RuneError, 1%nat)
      | _ => (RuneError, 1%nat)
      end else
    if b0 <? 240 then
      match rest with
      | b1 :: b2 :: _ =>
        let lo := if b0 =? 224 then 160 else 128 in
        let hi := if b0 =? 237 then 159 else 191 in
        if (lo <=? b1) && (b1 <=? hi) && cont b2
        then ((b0 - 224) * 4096 + (b1 - 128) * 64 + (b2 - 128), 3%nat)
        else (RuneError, 1%nat)
      | _ => (RuneError, 1%nat)
      end else
    if b0 <? 245 then
      match rest with
      | b1 :: b2 :: b3 :: _ =>
        let lo := if b0 =? 240 then 144 else 128 in
        let hi := if b0 =? 244 then 143 else 191 in
        if (lo <=? b1) && (b1 <=? hi) && cont b2 && cont b3
        then ((b0 - 240) * 262144 + (b1 - 128) * 4096 + (b2 - 128) * 64 + (b3 - 128), 4%nat)
        else (RuneError, 1%nat)
      | _ => (RuneError, 1%nat)
      end
    else (RuneError, 1%nat)
  end.

(** A Unicode scalar value: what [utf8.ValidRune] accepts. *)
Definition valid_rune (r : Z) : bool :=
  ((0 <=? r) && (r <? 55296)) || ((57343 <? r) && (r <=? 1114111)).

(** [utf8.AppendRune]: invalid runes are written as [RuneError]. *)
Definition encode_rune (r : Z) : gostring :=
  let r := if valid_rune r then r else RuneError in
  map chr
    (if r <? 128 then [r]
     else if r <? 2048 then [192 + r / 64; 128 + r mod 64]
     else if r <? 65536 then [224 + r / 4096; 128 + (r / 64) mod 64; 128 + r mod 64]
     else [240 + r / 262144; 128 + (r / 4096) mod 64; 128 + (r / 64) mod 64; 128 + r mod 64]).

(** The runes of a string with the bytes each was decoded from: the iteration
    of [for _, r := range s].  The width of a rune of a non-empty string is at
    least one, so [length s] is enough fuel. *)
Fixpoint segs_fuel (n : nat) (s : gostring) : list (Z * gostring) :=
  match n, s with
  | S n, _ :: _ =>
      let '(r, w) := decode_rune s in (r, take w s) :: segs_fuel n (drop w s)
  | _, _ => []
  end.
Definition segs (s : gostring) : list (Z * gostring) := segs_fuel (length s) s.
Definition RuneCountInString (s : gostring) : nat := length (segs s).

(** [unicode.IsSpace] *)
Definition is_space (r : Z) : bool :=
  existsb (Z.eqb r) [9; 10; 11; 12; 13; 32; 133; 160; 5760; 8232; 8233; 8239; 8287; 12288]
  || ((8192 <=? r) && (r <=? 8202)).

(** ** [strings] *)

Definition unsegs (l : list (Z * gostring)) : gostring := concat (map snd l).

Fixpoint drop_spaces (l : list (Z * gostring)) : list (Z * gostring) :=
  match l with
  | (r, b) :: l' => if is_space r then drop_spaces l' else l
  | [] => []
  end.

(** [strings.TrimSpace].  A space rune is either one ASCII byte or a complete
    encoding that starts at a lead byte, so trimming backwards rune by rune
    sees the same trailing spaces as the forward segmentation. *)
Definition TrimSpace (s : gostring) : gostring :=
  unsegs (reverse (drop_spaces (reverse (drop_spaces (segs s))))).

(** [strings.Fields]: the maximal runs of non-space runes. *)
Fixpoint fields_aux (cur : gostring) (l : list (Z * gostring)) : list gostring :=
  match l with
  | [] => if decide (cur = []) then [] else [cur]
  | (r, b) :: l =>
      if is_space r
      then if decide (cur = []) then fields_aux [] l else cur :: fields_aux [] l
      else fields_aux (cur ++ b) l
  end.
Definition Fields (s : gostring) : list gostring := fields_aux [] (segs s).

(** [strings.HasPrefix] and [strings.HasSuffix] *)
Definition HasPrefix (s p : gostring) : bool := bool_decide (take (length p) s = p).
Definition HasSuffix (s p : gostring) : bool :=
  bool_decide ((length p ≤ length s)%nat ∧ drop (length s - length p) s = p).

(** [strings.Cut] around the first [sep]: what precedes it and, when it
    occurs, what follows it. *)
Fixpoint Cut (s sep : gostring) : gostring * option gostring :=
  if HasPrefix s sep then ([], Some (drop (length sep) s))
  else match s with
       | [] => ([], None)
       | c :: s => let '(b, a) := Cut s sep in (c :: b, a)
       end.

Definition Contains (s sub : gostring) : bool :=
  match Cut s sub with (_, Some _) => true | (_, None) => false end.

(** [strings.Split] (and [strings.SplitSeq]) on a separator of one byte, the
    only separators the sources use. *)
Fixpoint Split1 (s : gostring) (sep : ascii) : list gostring :=
  match s with
  | [] => [[]]
  | c :: s =>
      if decide (c = sep) then [] :: Split1 s sep
      else match Split1 s sep with
           | x :: l => (c :: x) :: l
           | [] => [[c]]
           end
  end.

(** [strings.Join] *)
Fixpoint Join (l : list gostring) (sep : gostring) : gostring :=
  match l with
  | [] => []
  | [x] => x
  | x :: l => x ++ sep ++ Join l sep
  end.

(** [strings.ToLower], for comparisons with ASCII text: besides the ASCII
    capitals, the only runes whose lower case is ASCII are U+0130 (dotted
    capital I) and U+212A (the Kelvin sign).  The other runes are kept as they
    are here; in Go they map to runes that are not ASCII either. *)
Definition lower_rune (r : Z) : Z :=
  if (65 <=? r) && (r <=? 90) then r + 32
  else if r =? 304 then 105 else if r =? 8490 then 107 else r.
Definition ToLower (s : gostring) : gostring :=
  concat (map (λ '(r, _), encode_rune (lower_rune r)) (segs s)).

(** ** [strconv.Atoi] *)

Inductive num_error := ErrSyntax | ErrRange.
#[export] Instance num_error_eq_dec : EqDecision num_error.
Proof. solve_decision. Defined.

Definition is_digit (c : ascii) : bool := (48 <=? code c) && (code c <=? 57).
Definition MaxUint64 : Z := 18446744073709551615.

(** The digit loop of [strconv.ParseUint] in base 10. *)
Fixpoint parse_uint (acc : Z) (s : gostring) : result num_error Z :=
  match s with
  | [] => Ok acc
  | c :: s =>
      if is_digit c then
        let n := acc * 10 + (code c - 48) in
        if MaxUint64 <? n then Err ErrRange else parse_uint n s
      else Err ErrSyntax
  end.

Definition Atoi (s : gostring) : result num_error Z :=
  let '(neg, ds) :=
    match s with
    | c :: s' =>
        if code c =? 45 then (true, s') else if code c =? 43 then (false, s') else (false, s)
    | [] => (false, s)
    end in
  if decide (ds = []) then Err ErrSyntax else
  un ← parse_uint 0 ds;
  if neg then (if 2 ^ 63 <? un then Err ErrRange else Ok (- un))
  else (if 2 ^ 63 <=? un then Err ErrRange else Ok un).

(** ** Facts *)

(** The decoder consumes at least one byte and never more than there are. *)
Lemma decode_rune_width s :
  s ≠ [] → (1 ≤ (decode_rune s).2 ≤ length s)%nat.
Proof.
  destruct s as [|c s]; [done|]. intros _. unfold decode_rune. simpl.
  repeat case_match; simpl in *; try lia;
    repeat match goal with
    | H : map code ?l = _ :: _ |- _ => destruct l; simplify_eq/=
    end; lia.
Qed.

Lemma segs_fuel_length n s : (length (segs_fuel n s) ≤ length s)%nat.
Proof.
  revert s. induction n as [|n IH]; intros [|c s]; simpl; try lia.
  pose proof (decode_rune_width (c :: s)) as Hw.
  destruct (decode_rune (c :: s)) as [r w]. simpl in *.
  specialize (IH (drop w (c :: s))). rewrite length_drop in IH.
  simpl in *. specialize (Hw ltac:(done)). lia.
Qed.

(** More fuel than bytes changes nothing. *)
Lemma segs_fuel_ge n s : (length s ≤ n)%nat → segs_fuel n s = segs s.
Proof.
  unfold segs. revert s.
  assert (∀ k n s, (length s ≤ k)%nat → (length s ≤ n)%nat →
                   segs_fuel n s = segs_fuel k s) as Hgen.
  { induction k as [|k IH]; intros m [|c s] Hk Hn; simpl in *; try lia; [by destruct m..|].
    destruct m as [|m]; simpl in *; [lia|].
    pose proof (decode_rune_width (c :: s) ltac:(done)) as Hw.
    destruct (decode_rune (c :: s)) as [r w]. simpl in Hw. f_equal.
    apply IH; rewrite length_drop; simpl; lia. }
  intros s Hn. by apply Hgen.
Qed.

Lemma segs_cons s r w :
  s ≠ [] → decode_rune s = (r, w) → segs s = (r, take w s) :: segs (drop w s).
Proof.
  intros Hs Hd. pose proof (decode_rune_width s Hs) as Hw. rewrite Hd in Hw.
  unfold segs at 1. destruct s as [|c s]; [done|]. simpl length.
  cbn [segs_fuel]. rewrite Hd. f_equal. apply segs_fuel_ge.
  rewrite length_drop. simpl in *. lia.
Qed.

(** The segments partition the string. *)

Lemma unsegs_segs s : unsegs (segs s) = s.
Proof.
  remember (length s) as n eqn:Hn. revert s Hn.
  induction (lt_wf n) as [n _ IH]. intros s ->.
  destruct (decide (s = [])) as [->|Hs]; [done|].
  pose proof (decode_rune_width s Hs) as Hw.
  destruct (decode_rune s) as [r w] eqn:Hd. simpl in Hw.
  rewrite (segs_cons s r w Hs Hd). unfold unsegs in *. simpl.
  rewrite (IH (length (drop w s))); [apply take_drop|rewrite length_drop; lia|done].
Qed.

(** Decoding what [AppendRune] wrote gives the rune back, whatever follows. *)
Lemma map_code_chr l :
  Forall (λ z, 0 ≤ z < 256) l → map code (map chr l) = l.
Proof.
  induction 1 as [|z l Hz _ IH]; [done|]. simpl. by rewrite code_chr, IH.
Qed.

Lemma decode_encode_valid r t :
  valid_rune r = true →
  decode_rune (encode_rune r ++ t) = (r, length (encode_rune r)).
Proof.
  intros Hv. unfold encode_rune. rewrite Hv. unfold valid_rune in Hv.
  unfold decode_rune. rewrite List.map_app.
  rewrite map_code_chr.
  2:{ repeat case_match; repeat constructor; Z.div_mod_to_equations; lia. }
  repeat case_match; simpl in *; simplify_eq;
    try (f_equal; Z.div_mod_to_equations; lia);
    exfalso; unfold cont in *; Z.div_mod_to_equations; lia.
Qed.

Lemma encode_rune_length r : (1 ≤ length (encode_rune r) ≤ 4)%nat.
Proof. unfold encode_rune. repeat case_match; simpl; lia. Qed.

(** What is written is always a valid rune: invalid ones become [RuneError]. *)
Definition written_rune (r : Z) : Z := if valid_rune r then r else RuneError.

Lemma decode_encode r t :
  decode_rune (encode_rune r ++ t) = (written_rune r, length (encode_rune r)).
Proof.
  unfold written_rune. destruct (valid_rune r) eqn:Hv; [by apply decode_encode_valid|].
  replace (encode_rune r) with (encode_rune RuneError).
  - by apply decode_encode_valid.
  - unfold encode_rune. by rewrite Hv.
Qed.

Lemma segs_encode r t :
  segs (encode_rune r ++ t) = (written_rune r, encode_rune r) :: segs t.
Proof.
  pose proof (encode_rune_length r).
  rewrite (segs_cons _ (written_rune r) (length (encode_rune r))).
  - by rewrite take_app_length, drop_app_length.
  - intros [Hn _]%app_eq_nil. rewrite Hn in H. simpl in H. lia.
  - apply decode_encode.
Qed.

Lemma segs_nil_inv s : segs s = [] → s = [].
Proof.
  destruct s as [|c s]; [done|]. unfold segs. simpl.
  by destruct (decode_rune (c :: s)).
Qed.

Lemma parse_uint_bound acc s n :
  0 ≤ acc ≤ MaxUint64 → parse_uint acc s = Ok n → 0 ≤ n ≤ MaxUint64.
Proof.
  revert acc. induction s as [|c s IH]; intros acc Hacc; simpl; [intros [= <-]; done|].
  unfold is_digit. repeat case_match; try done.
  intros Hn. eapply IH; [|exact Hn]. lia.
Qed.

(** A parsed number fits in an [int]. *)
Lemma Atoi_range s n : Atoi s = Ok n → in_int64 n.
Proof.
  unfold Atoi. destruct (match s with [] => _ | _ => _ end) as [neg ds].
  case_decide; [done|]. intros Hn. inv_ok;
  match goal with H : parse_uint _ _ = Ok _ |- _ =>
    apply parse_uint_bound in H; [int64_lia|unfold MaxUint64; lia] end.
Qed.

Example Atoi_max : Atoi (str "9223372036854775807") = Ok MaxInt64.
Proof. reflexivity. Qed.
Example Atoi_over : Atoi (str "9223372036854775808") = Err ErrRange.
Proof. reflexivity. Qed.

(** *** Numerals *)

(** The decimal value of a string of digits. *)
Definition decimal (ds : gostring) : Z := foldl (λ n c, n * 10 + (code c - 48)) 0 ds.
Definition digits (ds : gostring) : Prop := ds ≠ [] ∧ Forall (λ c, is_digit c = true) ds.

(** The decimal spellings of an [int]: digits behind an optional sign. *)
Inductive numeral : gostring → Z → Prop :=
  | numeral_unsigned ds : digits ds → decimal ds ≤ MaxInt64 → numeral ds (decimal ds)
  | numeral_plus ds : digits ds → decimal ds ≤ MaxInt64 → numeral (str "+" ++ ds) (decimal ds)
  | numeral_minus ds :
      digits ds → MinInt64 ≤ - decimal ds → numeral (str "-" ++ ds) (- decimal ds).

Lemma decimal_ge acc ds :
  0 ≤ acc → Forall (λ c, is_digit c = true) ds →
  acc ≤ foldl (λ n c, n * 10 + (code c - 48)) acc ds.
Proof.
  intros Hacc H. revert acc Hacc. induction H as [|c ds Hc _ IH]; intros acc Hacc; simpl; [done|].
  unfold is_digit in Hc. etrans; [|apply IH]; lia.
Qed.

(** The digit loop reads the digits and checks the value on the way. *)
Lemma parse_uint_digits acc ds n :
  0 ≤ acc ≤ MaxUint64 →
  parse_uint acc ds = Ok n ↔
  Forall (λ c, is_digit c = true) ds
  ∧ n = foldl (λ n c, n * 10 + (code c - 48)) acc ds ∧ n ≤ MaxUint64.
Proof.
  revert acc. induction ds as [|c ds IH]; intros acc Hacc; simpl.
  - split; [intros [= <-]; split_and!; [done|done|lia]|by intros (_ & -> & _)].
  - destruct (is_digit c) eqn:Hc; [|split; [done|intros ([? _]%Forall_cons & _); congruence]].
    assert (0 ≤ acc * 10 + (code c - 48)) by (unfold is_digit in Hc; lia).
    destruct (Z.ltb_spec MaxUint64 (acc * 10 + (code c - 48))) as [Hlt|Hle].
    + split; [done|]. intros ([_ Hds]%Forall_cons & -> & Hn).
      pose proof (decimal_ge _ _ H Hds). lia.
    + rewrite IH by lia. rewrite Forall_cons. naive_solver.
Qed.

Lemma digit_not_sign c ds : digits (c :: ds) → code c ≠ 45 ∧ code c ≠ 43.
Proof. intros [_ [Hc _]%Forall_cons]. unfold is_digit in Hc. lia. Qed.

(** [Atoi] reads exactly the numerals. *)
Lemma Atoi_numeral s n : Atoi s = Ok n ↔ numeral s n.
Proof.
  assert (∀ neg ds n, (if decide (ds = []) then Err ErrSyntax else
      un ← parse_uint 0 ds;
      if neg : bool then (if 2 ^ 63 <? un then Err ErrRange else Ok (- un))
      else (if 2 ^ 63 <=? un then Err ErrRange else Ok un)) = Ok n ↔
      digits ds ∧ if neg then n = - decimal ds ∧ MinInt64 ≤ n
                  else n = decimal ds ∧ n ≤ MaxInt64) as Hread.
  { clear. intros neg ds n. unfold digits. case_decide as Hds; [naive_solver|].
    pose proof (λ m, parse_uint_digits 0 ds m ltac:(unfold MaxUint64; lia)) as Hp.
    split.
    - intros (un & Hu & H)%bind_Ok_inv. apply Hp in Hu as (Hd & Hu & _).
      split; [done|]. unfold decimal. rewrite <-Hu.
      destruct neg; case_match; simplify_eq; split; (done || int64_lia).
    - intros ([_ Hd] & H).
      assert (parse_uint 0 ds = Ok (decimal ds)) as ->.
      { apply Hp. split_and!; [done..|]. unfold MaxUint64, decimal in *.
        destruct neg; destruct H; int64_lia. }
      cbn [mbind result_bind]. destruct neg, H as [-> H]; case_match; first [done|int64_lia]. }
  unfold Atoi. split.
  - destruct s as [|c s]; [done|].
    destruct (Z.eqb_spec (code c) 45) as [Hc|Hc]; [|destruct (Z.eqb_spec (code c) 43) as [Hc'|Hc']];
      intros H.
    + apply (Hread true s n) in H as (Hd & -> & Hn).
      rewrite (code_inj c "-") by done. by apply (numeral_minus s).
    + apply (Hread false s n) in H as (Hd & -> & Hn).
      rewrite (code_inj c "+") by done. by apply (numeral_plus s).
    + apply (Hread false (c :: s) n) in H as (Hd & -> & Hn). by apply numeral_unsigned.
  - intros [ds Hd Hn|ds Hd Hn|ds Hd Hn]; [|by apply (Hread false ds (decimal ds))|by apply (Hread true ds (- decimal ds))].
    destruct ds as [|c ds]; [by destruct Hd|].
    destruct (digit_not_sign _ _ Hd) as [H1 H2].
    rewrite (proj2 (Z.eqb_neq _ _)), (proj2 (Z.eqb_neq _ _)) by done. by apply (Hread false (c :: ds) (decimal (c :: ds))).
Qed.

(** *** [Cut] at a separator of one byte *)

Lemma HasPrefix_single c d s : HasPrefix (d :: s) [c] = bool_decide (d = c).
Proof.
  unfold HasPrefix. simpl. rewrite take_0. apply bool_decide_ext. naive_solver.
Qed.

Lemma Cut_single s c :
  match Cut s [c] with
  | (b, Some a) => s = b ++ c :: a ∧ c ∉ b
  | (b, None) => s = b ∧ c ∉ b
  end.
Proof.
  induction s as [|d s IH]; [split; [done|apply not_elem_of_nil]|].
  cbn [Cut]. rewrite HasPrefix_single. case_bool_decide as Hd; [subst; split; [done|apply not_elem_of_nil]|].
  destruct (Cut s [c]) as [b [a|]]; destruct IH as [-> Hb];
    (split; [done|]; intros [->|?]%elem_of_cons; congruence).
Qed.

Lemma Cut_found b c a : c ∉ b → Cut (b ++ c :: a) [c] = (b, Some a).
Proof.
  induction b as [|d b IH]; intros Hb; cbn [app Cut]; rewrite HasPrefix_single.
  - by rewrite bool_decide_true.
  - apply not_elem_of_cons in Hb as [Hd Hb]. rewrite bool_decide_false by done. by rewrite IH.
Qed.

Lemma Cut_absent s c : c ∉ s → Cut s [c] = (s, None).
Proof.
  induction s as [|d s IH]; intros Hs; [done|]. cbn [Cut]. rewrite HasPrefix_single.
  apply not_elem_of_cons in Hs as [Hd Hs]. rewrite bool_decide_false by done. by rewrite IH.
Qed.
