(* ===== verification/Errors.v ===== *)
(** * Go error values, and errors.go

    An error is a tree: the value's dynamic type and data ([kind]) over what
    its [Unwrap] method returns.  [errors_is] and [errors_as] are the walks of
    the standard [errors] package, which call back into the [Is] and [As]
    methods of [kit.AggregateError] (errors.go). *)
From Stdlib Require Import Ascii String.
From S2P Require Export Prelude GoStrings.
Set Warnings "-register-all".

(** ** Error trees *)

(** Pointer-typed errors are compared by identity, so they carry one: the name
    of the package variable for [errors.New], an allocation number otherwise.
    Value-typed errors are compared by their fields. *)
Inductive kind : Type :=
  | KNew (name : string)                          (* errors.New *)
  | KDeadlineExceeded                             (* context.DeadlineExceeded *)
  | KErrno (n : Z)                                (* syscall.Errno *)
  | KNet (id : nat) (timeout : bool)              (* a net.Error: *net.OpError, ... *)
  | KErrorf (id : nat) (msg : string)             (* fmt.Errorf *)
  | KHint (delay : Z)                             (* retry.hintError *)
  | KStatus (status delay : Z)                    (* httpclient.retryableStatusError *)
  | KAggregate (id : nat)                         (* *kit.AggregateError *)
  | KResponse (id : nat) (code : Z) (msg : gostring) (* *kit.ErrorResponse *)
  | KUser (id : nat) (hint : option Z).           (* a caller's type, with or
                                                     without SuggestedRetryDelay *)
#[export] Instance kind_eq_dec : EqDecision kind.
Proof. solve_decision. Defined.

Inductive error : Type := Node (k : kind) (wrapped : list error).
Definition ekind (e : error) : kind := let 'Node k _ := e in k.
Definition wrapped (e : error) : list error := let 'Node _ es := e in es.

(** Induction that reaches the errors inside the [Unwrap] list. *)
Fixpoint error_ind' (P : error → Prop)
    (H : ∀ k es, Forall P es → P (Node k es)) (e : error) : P e :=
  match e with
  | Node k es => H k es
      ((fix go l : Forall P l :=
          match l with
          | [] => Forall_nil_2 P
          | x :: l => Forall_cons_2 P x l (error_ind' P H x) (go l)
          end) es)
  end.

Definition errors_new (name : string) : error := Node (KNew name) [].
Definition Canceled : error := errors_new "context.Canceled".
Definition DeadlineExceeded : error := Node KDeadlineExceeded [].
Definition ECONNREFUSED : error := Node (KErrno 111) [].
Definition ECONNRESET : error := Node (KErrno 104) [].
Definition ETIMEDOUT : error := Node (KErrno 110) [].
(** [fmt.Errorf] with one or several [%w] verbs. *)
Definition Errorf (id : nat) (msg : string) (es : list error) : error :=
  Node (KErrorf id msg) es.

(** [err == target] on interface values. *)
Definition go_eq (e target : error) : bool := bool_decide (ekind e = ekind target).

(** [syscall.Errno.Is] on Linux. *)
Definition errno_is (n : Z) (target : error) : bool :=
  match ekind target with
  | KNew "oserror.ErrPermission" => bool_decide (n = 13 ∨ n = 1)%Z
  | KNew "oserror.ErrExist" => bool_decide (n = 17 ∨ n = 39)%Z
  | KNew "oserror.ErrNotExist" => bool_decide (n = 2)%Z
  | KNew "errors.ErrUnsupported" => bool_decide (n = 38 ∨ n = 95)%Z
  | _ => false
  end.

(** [errors.Is]: the value itself, its [Is] method, then what it unwraps to.
    The [Is] method of an aggregate is [AggregateError_Is] below. *)
Fixpoint errors_is (e target : error) : bool :=
  let 'Node k es := e in
  go_eq e target
  || match k with
     | KAggregate _ => existsb (λ err, errors_is err target) es
     | KErrno n => errno_is n target
     | _ => false
     end
  || existsb (λ err, errors_is err target) es.

(** The first [Some] that [f] yields along a list. *)
Fixpoint first_some {A B} (f : A → option B) (l : list A) : option B :=
  match l with
  | [] => None
  | x :: l => match f x with Some y => Some y | None => first_some f l end
  end.

(** [errors.As]: [p] tells whether an error is assignable to the target type,
    and what the assignment stores. *)
Section errors_as.
Context {T : Type} (p : error → option T).
Fixpoint errors_as (e : error) : option T :=
  let 'Node k es := e in
  match p e with
  | Some x => Some x
  | None =>
      match (match k with KAggregate _ => first_some errors_as es | _ => None end) with
      | Some x => Some x
      | None => first_some errors_as es
      end
  end.
End errors_as.

(** The errors of a tree in the order the walks visit them. *)
Fixpoint chain (e : error) : list error :=
  let 'Node k es := e in e :: concat (map chain es).

(** ** [kit.AggregateError] *)

(** The [Errors] field: [None] is the nil slice. *)
Definition AggregateError : Type := option (list error).

Definition AggregateError_errs (a : AggregateError) : list error := default [] a.

Definition AggregateError_Unwrap (a : AggregateError) : option (list error) :=
  if decide (AggregateError_errs a = []) then None else a.

Definition AggregateError_Is (a : AggregateError) (target : error) : bool :=
  existsb (λ err, errors_is err target) (AggregateError_errs a).

Definition AggregateError_As {T} (p : error → option T) (a : AggregateError) : option T :=
  first_some (errors_as p) (AggregateError_errs a).

(** [Join] updates the receiver and returns it, or nil when it is empty. *)
Definition AggregateError_Join (a : AggregateError) (errs : list (option error))
    : AggregateError * option AggregateError :=
  let a := match a with None => Some [] | Some _ => a end in
  let a := foldl (λ a err,
    match err with Some e => Some (AggregateError_errs a ++ [e]) | None => a end) a errs in
  if decide (AggregateError_errs a = []) then (a, None) else (a, Some a).

Definition NewAggregateError (errs : list (option error)) : option AggregateError :=
  (AggregateError_Join None errs).2.

(** An aggregate as an error value. *)
Definition aggregate (id : nat) (a : AggregateError) : error :=
  Node (KAggregate id) (AggregateError_errs a).

(** [Error]: the messages joined with a semicolon.  The message of the other
    error types is an argument. *)
Definition AggregateError_Error (Error : error → gostring) (a : AggregateError) : gostring :=
  match AggregateError_errs a with
  | [] => []
  | es => Join (map Error es) (str "; ")
  end.

(** ** [kit.IsContextError] *)
Definition IsContextError (e : error) : bool :=
  errors_is e Canceled || errors_is e DeadlineExceeded.

(** ** [kit.ErrorResponse] *)
Record ErrorResponse := {
  er_StatusCode : Z;
  er_Err : gostring;
  er_err : option error;
}.
Definition StatusBadRequest : Z := 400.
Definition ErrUnknown : error := errors_new "kit.ErrUnknown".

Definition NewErrorResponse (Error : error → gostring) (err : option error)
    (optionalStatusCode : list Z) : ErrorResponse :=
  let statusCode :=
    match optionalStatusCode with
    | c :: _ => if decide (0 < c)%Z then c else StatusBadRequest
    | [] => StatusBadRequest
    end in
  match err with
  | None => {| er_StatusCode := statusCode; er_Err := Error ErrUnknown; er_err := None |}
  | Some e => {| er_StatusCode := statusCode; er_Err := Error e; er_err := Some e |}
  end.

Definition ErrorResponse_Error (r : ErrorResponse) : gostring := er_Err r.
Definition ErrorResponse_Unwrap (r : ErrorResponse) : option error := er_err r.

(** The response as an error value (it is used through a pointer). *)
Definition response_error (id : nat) (r : ErrorResponse) : error :=
  Node (KResponse id (er_StatusCode r) (er_Err r)) (option_list (er_err r)).

(** ** The walks are a search of the chain *)

Lemma existsb_elem {A} (f : A → bool) (l : list A) :
  existsb f l = true ↔ ∃ x, x ∈ l ∧ f x = true.
Proof. rewrite existsb_exists. by setoid_rewrite list_elem_of_In. Qed.

Lemma first_some_app {A B} (f : A → option B) l1 l2 :
  first_some f (l1 ++ l2) = match first_some f l1 with Some y => Some y | None => first_some f l2 end.
Proof. induction l1 as [|x l1 IH]; simpl; [done|]. by destruct (f x). Qed.

Lemma first_some_None {A B} (f : A → option B) l :
  first_some f l = None ↔ Forall (λ x, f x = None) l.
Proof.
  induction l as [|x l IH]; simpl; [by split; auto|].
  rewrite Forall_cons_iff, <-IH. by destruct (f x); split; [|intros []| |intros []].
Qed.

(** What makes [errors.Is] stop at a node of the chain. *)
Definition matches (target x : error) : bool :=
  go_eq x target || match ekind x with KErrno n => errno_is n target | _ => false end.

Lemma errors_is_existsb e target :
  errors_is e target = existsb (matches target) (chain e).
Proof.
  induction e as [k es IH] using error_ind'.
  assert (existsb (λ err, errors_is err target) es
          = existsb (matches target) (concat (map chain es))) as Hes.
  { induction IH as [|x l Hx _ IHl]; [done|]. simpl. by rewrite existsb_app, Hx, IHl. }
  cbn [errors_is chain existsb]. rewrite Hes. unfold matches at 3. cbn [ekind].
  destruct k; simpl; rewrite ?orb_false_r; try done.
  by rewrite <-orb_assoc, orb_diag.
Qed.

Lemma errors_as_first {T} (p : error → option T) e :
  errors_as p e = first_some p (chain e).
Proof.
  induction e as [k es IH] using error_ind'.
  assert (first_some (errors_as p) es = first_some p (concat (map chain es))) as Hes.
  { induction IH as [|x l Hx _ IHl]; [done|]. simpl.
    by rewrite first_some_app, <-Hx, IHl. }
  cbn [errors_as chain first_some]. rewrite Hes.
  destruct (p _); [done|]. destruct k; try done. by case_match.
Qed.

Lemma errors_is_spec e target :
  errors_is e target = true ↔ ∃ x, x ∈ chain e ∧ matches target x = true.
Proof. by rewrite errors_is_existsb, existsb_elem. Qed.

(** Targets no [Is] method recognises are found by comparison alone. *)
Lemma errors_is_kind e target :
  (∀ n, errno_is n target = false) →
  errors_is e target = true ↔ ∃ x, x ∈ chain e ∧ ekind x = ekind target.
Proof.
  intros Hno. rewrite errors_is_spec. apply exist_proper. intros x.
  unfold matches, go_eq. rewrite orb_true_iff, bool_decide_eq_true.
  destruct (ekind x); rewrite ?Hno; intuition done.
Qed.

Lemma first_some_is_Some {A B} (f : A → option B) l :
  is_Some (first_some f l) ↔ ∃ x, x ∈ l ∧ is_Some (f x).
Proof.
  induction l as [|x l IH]; simpl; [by split; [intros []|intros (?&?%elem_of_nil&?)]|].
  destruct (f x) as [y|] eqn:Hf.
  - split; [|by eauto]. intros _. exists x. rewrite Hf. split; [left|by eauto].
  - rewrite IH. split; intros (z & Hz & Hs); exists z; (split; [|done]).
    + by right.
    + apply elem_of_cons in Hz as [->|]; [|done]. rewrite Hf in Hs. by destruct Hs.
Qed.

Lemma chain_self e : e ∈ chain e.
Proof. destruct e. left. Qed.

Lemma chain_wrapped k es e x : e ∈ es → x ∈ chain e → x ∈ chain (Node k es).
Proof.
  intros He Hx. simpl. right. apply list_elem_of_In, in_concat.
  exists (chain e). split; [apply (in_map chain); by apply list_elem_of_In|by apply list_elem_of_In].
Qed.

Lemma chain_inv k es x :
  x ∈ chain (Node k es) → x = Node k es ∨ ∃ e, e ∈ es ∧ x ∈ chain e.
Proof.
  simpl. intros [->|Hx]%elem_of_cons; [by left|right].
  apply list_elem_of_In, in_concat in Hx as (l & Hl & Hx).
  apply in_map_iff in Hl as (e & <- & He). exists e.
  split; by apply list_elem_of_In.
Qed.

(** [Join] appends the non-nil errors in the order given. *)
Lemma AggregateError_Join_errs a errs :
  AggregateError_errs (AggregateError_Join a errs).1
  = AggregateError_errs a ++ omap id errs.
Proof.
  unfold AggregateError_Join.
  set (step := λ a err, match err with Some e => _ | None => a end).
  assert (∀ a, AggregateError_errs (foldl step a errs)
               = AggregateError_errs a ++ omap id errs) as Hfold.
  { clear a. induction errs as [|[e|] errs IH]; intros a; simpl;
      [by rewrite app_nil_r| |apply IH].
    rewrite IH. unfold step, AggregateError_errs. simpl. by rewrite <-app_assoc. }
  case_decide; simpl; rewrite Hfold; by destruct a.
Qed.

(** ... and returns nil when the bag is empty then. *)
Lemma AggregateError_Join_nil a errs :
  (AggregateError_Join a errs).2 = None ↔ AggregateError_errs (AggregateError_Join a errs).1 = [].
Proof. unfold AggregateError_Join. by case_decide. Qed.

(** *** Properties *)

(** [errors.Is] on a joined aggregate, although it visits every collected
    error twice (through the [Is] method and through [Unwrap]), answers exactly
    whether the target is the aggregate itself or [errors.Is] holds of one of
    the collected errors; this is what [AggregateError.Is] computes. *)
Theorem errors_is_aggregate id a target :
  errors_is (aggregate id a) target
  = go_eq (aggregate id a) target || AggregateError_Is a target.
Proof.
  unfold aggregate, AggregateError_Is. cbn [errors_is].
  by rewrite <-orb_assoc, orb_diag.
Qed.

(** [errors.As] through an aggregate finds, in the order of collection, the
    first collected error with a match in its chain: the [As] method and the
    [Unwrap] walk never disagree. *)
Theorem errors_as_aggregate {T} (p : error → option T) id a :
  errors_as p (aggregate id a)
  = match p (aggregate id a) with
    | Some x => Some x
    | None => AggregateError_As p a
    end.
Proof.
  unfold aggregate, AggregateError_As. cbn [errors_as].
  by repeat case_match; simplify_eq.
Qed.

(** [Join] collects the non-nil errors in order, after what the bag
    already held, and returns nil exactly when the bag is still empty: an empty
    aggregate never escapes as a non-nil error. *)
Theorem AggregateError_Join_spec a errs :
  let '(a', ret) := AggregateError_Join a errs in
  AggregateError_errs a' = AggregateError_errs a ++ omap id errs
  ∧ (ret = None ↔ AggregateError_errs a = [] ∧ Forall (λ e, e = None) errs)
  ∧ (∀ r, ret = Some r → r = a' ∧ AggregateError_Unwrap r ≠ None).
Proof.
  pose proof (AggregateError_Join_errs a errs) as Herrs.
  destruct (AggregateError_Join a errs) as [a' ret] eqn:HJ. simpl in Herrs.
  assert (omap id errs = [] ↔ Forall (λ e, e = None) errs) as Hnil.
  { clear. induction errs as [|[e|] errs IH]; simpl; [by split; auto|..];
      rewrite Forall_cons_iff; naive_solver. }
  revert HJ. unfold AggregateError_Join. case_decide as Hd; intros [= <- <-].
  - split_and!; [done| |done]. rewrite <-Hnil, <-app_nil. by rewrite <-Herrs, Hd.
  - split_and!; [done| |].
    + split; [done|]. rewrite <-Hnil. intros [Ha He]. by rewrite Ha, He in Herrs.
    + intros r [= <-]. split; [done|]. unfold AggregateError_Unwrap.
      rewrite decide_False by done. unfold AggregateError_errs in Hd.
      by destruct (foldl _ _ _).
Qed.
