(* ===== verification/Aggregate.v ===== *)
(** * kit.AggregateError in memory: the slice that Unwrap hands out (errors.go)

    Errors.v treats the bag as a list.  Here it is what it is in Go: a slice
    header over a backing array that [append] writes in place or copies, that
    [Join] fills one error at a time under the write lock, and that callers of
    [Unwrap] go on reading without any lock. *)
From Stdlib Require Import Ascii String.
From S2P Require Export Prelude Errors.

(** ** Slices of errors *)

(** A header: a backing array, a length and a capacity.  All slices here start
    at the first cell. *)
Record slice := { arr : nat; len : nat; cap : nat }.
(** The backing arrays; a fresh cell holds the nil error. *)
Abbreviation memory := (list (list (option error))).

Definition read (h : memory) (s : slice) : list (option error) :=
  take (len s) (default [] (h !! arr s)).
Definition write (h : memory) (a i : nat) (x : option error) : memory := alter <[i := x]> a h.

Record state := {
  store : memory;
  Errors : option slice;                  (* the field; [None] is the nil slice *)
  lock : option (list (option error));    (* a writer: the errors [Join] has still to look at *)
  handed : list (slice * list error);     (* what [Unwrap] returned, and what it held then *)
  calls : list (list (option error));     (* the arguments of the [Join] calls begun *)
  returned : list bool;                   (* of those that returned: a nil aggregate? *)
}.

Section aggregate.
(** [append] picks the capacity of the array it moves to. *)
Variable grow : nat → nat → nat.

(** [append(s, e)]: the header, the memory, and the cell written. *)
Definition append (h : memory) (s : slice) (e : option error) : slice * memory * (nat * nat) :=
  if decide (len s < cap s)
  then ({| arr := arr s; len := S (len s); cap := cap s |}, write h (arr s) (len s) e, (arr s, len s))
  else
    let c := grow (cap s) (S (len s)) in
    ({| arr := length h; len := S (len s); cap := c |},
     h ++ [read h s ++ [e] ++ replicate (c - S (len s)) None], (length h, len s)).

Inductive action :=
  | JoinLock (errs : list (option error))   (* a.mu.Lock(), if a.Errors == nil { ... } *)
  | JoinNext                                (* one turn of the loop *)
  | JoinReturn                              (* the nil-when-empty return, a.mu.Unlock() *)
  | Unwrap.

Definition exec (a : action) (s : state) : option state :=
  match a, lock s with
  | JoinLock errs, None =>
      let '(s0, h) := match Errors s with
        | Some s0 => (s0, store s)
        | None => ({| arr := length (store s); len := 0; cap := 0 |}, store s ++ [[]])
        end in
      Some {| store := h; Errors := Some s0; lock := Some errs; handed := handed s;
              calls := calls s ++ [errs]; returned := returned s |}
  | JoinNext, Some (None :: errs) =>
      Some {| store := store s; Errors := Errors s; lock := Some errs; handed := handed s;
              calls := calls s; returned := returned s |}
  | JoinNext, Some (Some e :: errs) =>
      s0 ← Errors s;
      let '(s1, h, _) := append (store s) s0 (Some e) in
      Some {| store := h; Errors := Some s1; lock := Some errs; handed := handed s;
              calls := calls s; returned := returned s |}
  | JoinReturn, Some [] =>
      s0 ← Errors s;
      Some {| store := store s; Errors := Errors s; lock := None; handed := handed s;
              calls := calls s; returned := returned s ++ [bool_decide (len s0 = 0)] |}
  | Unwrap, None =>
      Some {| store := store s; Errors := Errors s; lock := None;
              handed := match Errors s with
                | Some s0 => if decide (len s0 = 0) then handed s
                             else handed s ++ [(s0, omap id (read (store s) s0))]
                | None => handed s
                end;
              calls := calls s; returned := returned s |}
  | _, _ => None
  end.

(** The zero value. *)
Definition init : state :=
  {| store := []; Errors := None; lock := None; handed := []; calls := []; returned := [] |}.
Definition step (s s' : state) : Prop := ∃ a, exec a s = Some s'.

(** The cell a step writes. *)
Definition written (a : action) (s : state) : option (nat * nat) :=
  match a, lock s, Errors s with
  | JoinNext, Some (Some e :: _), Some s0 => Some (append (store s) s0 (Some e)).2
  | _, _, _ => None
  end.

(** The bag of Errors.v that the calls so far make, but for the errors the
    writer has not looked at yet. *)
Definition abstract (calls : list (list (option error))) : AggregateError :=
  foldl (λ a errs, (AggregateError_Join a errs).1) None calls.

(** ** Invariant *)

Hypothesis grow_enough : ∀ c n, n ≤ grow c n.

(** A header that holds [es]. *)
Definition holds (h : memory) (s : slice) (es : list error) : Prop :=
  ∃ cells, h !! arr s = Some cells ∧ length cells = cap s ∧ len s = length es ∧ len s ≤ cap s
           ∧ take (len s) cells = map Some es.

Record inv (s : state) : Prop := {
  inv_bag : match Errors s with
    | Some s0 => calls s ≠ [] ∧ ∃ es, holds (store s) s0 es
        ∧ AggregateError_errs (abstract (calls s)) = es ++ omap id (default [] (lock s))
        ∧ ∀ hd snap, (hd, snap) ∈ handed s →
            holds (store s) hd snap ∧ snap `prefix_of` es ∧ snap ≠ []
            ∧ (arr hd = arr s0 → len hd ≤ len s0)
    | None => calls s = [] ∧ lock s = None ∧ handed s = []
    end;
}.

Lemma holds_read h s es : holds h s es → read h s = map Some es.
Proof using Type. intros (cells & Hc & _ & _ & _ & Ht). unfold read. by rewrite Hc. Qed.

Lemma holds_grown h c s es : holds h s es → holds (h ++ [c]) s es.
Proof using Type.
  intros (cells & Hc & ?). exists cells. split; [|done]. by apply lookup_app_l_Some.
Qed.

Lemma append_holds h s es e s' h' c :
  holds h s es → append h s (Some e) = (s', h', c) → holds h' s' (es ++ [e]) ∧ len s' = S (len s).
Proof using grow_enough.
  intros (cells & Hc & Hcap & Hlen & Hle & Ht). unfold append. case_decide as Hd; intros [= <- <- <-];
    (split; [|done]).
  - exists (<[len s := Some e]> cells). cbn [arr len cap]. unfold write.
    rewrite list_lookup_alter, Hc, decide_True by done. rewrite length_insert, length_app. simpl.
    split_and!; [done|done|lia|lia|].
    rewrite (take_S_r _ _ (Some e)) by (apply list_lookup_insert_eq; lia).
    rewrite take_insert_ge by lia. by rewrite Ht, map_app.
  - exists (read h s ++ [Some e] ++ replicate (grow (cap s) (S (len s)) - S (len s)) None).
    cbn [arr len cap]. unfold read. rewrite lookup_app_r, Nat.sub_diag, Hc by done. cbn [from_option id].
    rewrite Ht. pose proof (grow_enough (cap s) (S (len s))).
    split_and!; [done|rewrite !length_app, length_map, length_replicate; simpl; lia
                |rewrite length_app; simpl; lia|done|].
    rewrite app_assoc, take_app_length' by (rewrite length_app, length_map; simpl; lia).
    by rewrite map_app.
Qed.

(** The cells of another header survive an append. *)
Lemma append_keeps h s e s' h' c hd snap :
  append h s e = (s', h', c) → holds h hd snap → (arr hd = arr s → len hd ≤ len s) →
  (∃ cells, h !! arr s = Some cells) →
  holds h' hd snap ∧ (arr hd = arr s' → len hd ≤ len s')
  ∧ (c.1 = arr hd → len hd ≤ c.2).
Proof using Type.
  intros Ha Hh Hlen [cells0 H0]. revert Ha. unfold append. case_decide as Hd; intros [= <- <- <-]; cbn [arr len].
  - split; [|split; [intros ?%Hlen; lia|cbn [fst snd]; intros Heq; apply Hlen; congruence]].
    destruct Hh as (cells & Hc & Hcap & Hl & Hle & Ht). unfold holds, write.
    rewrite list_lookup_alter, ?Hc. case_decide as Heq; [rewrite Heq, Hc|by exists cells].
    eexists. split; [done|]. rewrite length_insert. split_and!; [done..|].
    rewrite take_insert_ge; [done|]. apply Hlen. congruence.
  - assert (arr hd < length h) as Hlt by (destruct Hh as (? & ?%lookup_lt_Some & _); lia).
    split; [by apply holds_grown|]. cbn [fst snd]. split; lia.
Qed.

Lemma bag_inv_init : inv init.
Proof using Type. by split. Qed.

Lemma abstract_snoc calls errs :
  AggregateError_errs (abstract (calls ++ [errs])) = AggregateError_errs (abstract calls) ++ omap id errs.
Proof using Type. unfold abstract. rewrite foldl_app. apply AggregateError_Join_errs. Qed.

Lemma omap_id_map (es : list error) : omap id (map Some es) = es.
Proof using Type. induction es as [|e es IH]; [done|]. exact (f_equal (cons e) IH). Qed.

Lemma bag_inv_step a s s' : inv s → exec a s = Some s' → inv s'.
Proof using grow_enough.
  intros [Hb] Hs. destruct a as [errs| | |], (lock s) as [l|] eqn:Hl; try done;
    cbn [exec] in Hs; rewrite Hl in Hs; try done.
  - destruct (Errors s) as [s0|] eqn:He; injection Hs as <-; split; cbn [Errors store lock handed calls];
      rewrite abstract_snoc; cbn [default from_option id].
    + destruct Hb as (_ & es & Hh & Ha & Hhd). split; [by destruct (calls s)|]. exists es. rewrite Ha. simpl. by rewrite app_nil_r.
    + destruct Hb as (Hc & _ & Hhd). split; [by destruct (calls s)|]. exists []. rewrite Hc, Hhd. split_and!; [|done|by intros ?? ?%elem_of_nil].
      exists []. cbn [arr len cap]. by rewrite lookup_app_r, Nat.sub_diag by done.
  - destruct l as [|[e|] errs]; [done| |].
    + apply bind_Some in Hs as (s0 & He & Hs). rewrite He in Hb. destruct Hb as (Hne0 & es & Hh & Ha & Hhd).
      destruct (append (store s) s0 (Some e)) as [[s1 h] c] eqn:Happ. injection Hs as <-.
      destruct (append_holds _ _ _ _ _ _ _ Hh Happ) as [Hh' _].
      split; cbn [Errors store lock handed calls]. split; [done|]. exists (es ++ [e]). split; [done|].
      split; [rewrite Ha; simpl; by rewrite <-app_assoc|]. intros hd snap Hin.
      destruct (Hhd hd snap Hin) as (Hsh & Hpre & Hne & Hlen).
      destruct (append_keeps _ _ _ _ _ _ _ _ Happ Hsh Hlen) as (? & ? & _); [by destruct Hh as (cells & ? & _); eauto|].
      split_and!; [done|by apply prefix_app_r|done|done].
    + injection Hs as <-. split; cbn [Errors store lock handed calls].
      destruct (Errors s) as [s0|]; [exact Hb|by destruct Hb as (_ & ? & _)].
  - destruct l; [|done]. apply bind_Some in Hs as (s0 & He & [= <-]).
    split; cbn [Errors store lock handed calls]. rewrite He in *. exact Hb.
  - injection Hs as <-. split; cbn [Errors store lock handed calls].
    destruct (Errors s) as [s0|] eqn:He; [|exact Hb]. destruct Hb as (? & es & Hh & Ha & Hhd).
    split; [done|]. exists es. split_and!; [done|done|]. case_decide as H0; [exact Hhd|].
    intros hd snap [Hin|[= -> ->]%list_elem_of_singleton]%elem_of_app; [by apply Hhd|].
    rewrite (holds_read _ _ _ Hh), omap_id_map. split_and!; [done|done| |done].
    intros ->. destruct Hh as (_ & _ & _ & Hlen & _). by rewrite Hlen in H0.
Qed.

Lemma bag_inv_reachable s : rtc step init s → inv s.
Proof using grow_enough.
  intros Hr. assert (∀ x, inv x → rtc step x s → inv s) as Hgen; [|exact (Hgen init bag_inv_init Hr)].
  clear Hr. intros x Hx Hr. revert Hx. induction Hr as [|x y z [a Ha] _ IH]; [done|].
  intros Hx. by eapply IH, bag_inv_step.
Qed.

(** ** Theorems *)

(** ** Theorems *)

(** C29: Refinement.  At every moment the slice in memory, with the errors that
    the writer under way has still to append, is the bag that the [Join] calls
    so far make of the list model; and each [Join] returns what it returns
    there: nil exactly when the bag is empty. *)
Theorem Join_in_memory s :
  rtc step init s →
  match Errors s with
  | Some s0 => read (store s) s0 ++ map Some (omap id (default [] (lock s)))
               = map Some (AggregateError_errs (abstract (calls s)))
  | None => calls s = []
  end ∧
  ∀ s', exec JoinReturn s = Some s' → ∃ cs errs, calls s' = cs ++ [errs] ∧
    returned s' = returned s ++ [bool_decide ((AggregateError_Join (abstract cs) errs).2 = None)].
Proof using grow_enough.
  intros [Hb]%bag_inv_reachable. split.
  - destruct (Errors s) as [s0|]; [|apply Hb]. destruct Hb as (_ & es & Hh & Ha & _).
    by rewrite (holds_read _ _ _ Hh), Ha, map_app.
  - intros s' Hs. cbn [exec] in Hs. destruct (lock s) as [[]|]; [|done..].
    apply bind_Some in Hs as (s0 & He & [= <-]). rewrite He in Hb. destruct Hb as (Hne & es & Hh & Ha & _).
    cbn [calls returned]. destruct (calls s) as [|errs cs _] using rev_ind; [done|].
    exists cs, errs. split; [done|]. do 2 f_equal. apply bool_decide_ext.
    rewrite AggregateError_Join_nil. unfold abstract in Ha. rewrite foldl_app in Ha. simpl in Ha.
    unfold abstract. rewrite Ha, app_nil_r. destruct Hh as (_ & _ & _ & -> & _).
    split; [by intros ?%nil_length_inv|by intros ->].
Qed.

(** C21: What [Unwrap] handed out stays put.  A slice returned by [Unwrap] and
    only read holds, at every later moment and in the middle of a [Join] too,
    exactly the errors it held when it was returned; they are the first ones
    the bag holds; and no step writes a cell that it covers. *)
Theorem unwrapped_stable s hd snap :
  rtc step init s → (hd, snap) ∈ handed s →
  read (store s) hd = map Some snap ∧ snap ≠ []
  ∧ snap `prefix_of` AggregateError_errs (abstract (calls s))
  ∧ ∀ a c, written a s = Some c → c.1 = arr hd → len hd ≤ c.2.
Proof using grow_enough.
  intros [Hb]%bag_inv_reachable Hin. destruct (Errors s) as [s0|] eqn:He.
  2:{ destruct Hb as (_ & _ & Hhd). rewrite Hhd in Hin. by apply elem_of_nil in Hin. }
  destruct Hb as (_ & es & Hh & Ha & Hhd). destruct (Hhd hd snap Hin) as (Hs & Hpre & Hne & Hlen).
  split_and!; [by apply holds_read|done|rewrite Ha; by apply prefix_app_r|].
  intros a c Hw. unfold written in Hw. rewrite He in Hw.
  destruct a; try done. destruct (lock s) as [[|[e|] l]|]; try done. injection Hw as <-.
  destruct (append (store s) s0 (Some e)) as [[s1 h] c] eqn:Happ.
  eapply append_keeps; [exact Happ|exact Hs|exact Hlen|]. destruct Hh as (cells & ? & _). eauto.
Qed.
End aggregate.

(** ** A run, and what a caller who writes to the slice runs into *)

Definition double (c n : nat) : nat := max n (2 * c).
Fixpoint replay (acts : list action) (s : state) : option state :=
  match acts with
  | [] => Some s
  | a :: acts => s' ← exec double a s; replay acts s'
  end.
Lemma bag_replay_steps acts s s' : replay acts s = Some s' → rtc (step double) s s'.
Proof.
  revert s. induction acts as [|a acts IH]; simpl; intros s; [intros [= ->]; apply rtc_refl|].
  intros (s1 & Hs & Hr)%bind_Some. eapply rtc_l; [by exists a|by apply IH].
Qed.

Definition demo_e (n : nat) : error := Errorf n "e" [].
Definition demo_joined : state := default init (replay
  [JoinLock [Some (demo_e 1); None; Some (demo_e 2); Some (demo_e 3)];
   JoinNext; JoinNext; JoinNext; JoinNext; JoinReturn; Unwrap] init).
Definition demo_joining : state := default init (replay
  [JoinLock [Some (demo_e 4)]; JoinNext] demo_joined).

Lemma double_enough c n : n ≤ double c n.
Proof. unfold double. lia. Qed.
Lemma demo_joined_reachable : rtc (step double) init demo_joined.
Proof.
  apply (bag_replay_steps [JoinLock [Some (demo_e 1); None; Some (demo_e 2); Some (demo_e 3)];
    JoinNext; JoinNext; JoinNext; JoinNext; JoinReturn; Unwrap]). vm_compute. reflexivity.
Qed.
Lemma demo_joining_reachable : rtc (step double) init demo_joining.
Proof.
  transitivity demo_joined; [exact demo_joined_reachable|].
  apply (bag_replay_steps [JoinLock [Some (demo_e 4)]; JoinNext]). vm_compute. reflexivity.
Qed.

Lemma Join_in_memory_witness :
  match Errors demo_joining with
  | Some s0 => read (store demo_joining) s0
  | None => []
  end = map Some (map demo_e [1; 2; 3; 4]).
Proof.
  destruct (Join_in_memory double double_enough demo_joining demo_joining_reachable) as [Hr _].
  change (Errors demo_joining) with (Some {| arr := 3; len := 4; cap := 4 |}) in *.
  change (lock demo_joining) with (Some ([] : list (option error))) in Hr.
  cbn [default from_option id omap list_omap map app] in Hr. rewrite app_nil_r in Hr. exact Hr.
Defined.

Lemma unwrapped_stable_witness :
  match handed demo_joining with
  | (hd, snap) :: _ => read (store demo_joining) hd = map Some (map demo_e [1; 2; 3])
  | [] => False
  end.
Proof.
  exact (proj1 (unwrapped_stable double double_enough demo_joining {| arr := 3; len := 3; cap := 4 |}
    (map demo_e [1; 2; 3]) demo_joining_reachable (list_elem_of_here _ _))).
Defined.

(** The caller of [Unwrap] appends to the slice; the next [Join] writes the
    same cell, and the caller's error is gone. *)
Example append_by_caller :
  let hd := {| arr := 3; len := 3; cap := 4 |} in
  let '(mine, h, _) := append double (store demo_joined) hd (Some (demo_e 9)) in
  let s := {| store := h; Errors := Errors demo_joined; lock := None; handed := []; calls := []; returned := [] |} in
  read h mine = map Some (map demo_e [1; 2; 3; 9]) ∧
  match replay [JoinLock [Some (demo_e 4)]; JoinNext] s with
  | Some s' => read (store s') mine = map Some (map demo_e [1; 2; 3; 4])
  | None => False
  end.
Proof. vm_compute. by split. Qed.
