(* ===== verification/Retry.v ===== *)
(** * retry: linear backoff with jitter and server-suggested delays
    (retry/retry.go, retry/options.go)

    [DoCtx] is translated as a computation over an arbitrary world: the world
    answers what [ctx.Err()], the caller's function, the [select] of [sleep]
    and the random source do.  The calls, the waits and every look at
    [ctx.Err()] are its events. *)
From Stdlib Require Import String.
From S2P Require Export Prelude Errors.
Local Open Scope Z_scope.

(** ** Configuration (options.go, [New]) *)

Record Retry := {
  maxRetries : Z;
  delayStep : Z;
  retryIf : option (error → bool);
  jitter : bool;
}.

Definition Second : Z := 1000000000.
Definition DefaultMaxRetries : Z := 3.
Definition DefaultDelayStep : Z := 1 * Second.
Definition DefaultJitter : bool := true.

Definition Option := Retry → Retry.

Definition WithMaxRetries (n : Z) : Option := λ r,
  {| maxRetries := n; delayStep := delayStep r; retryIf := retryIf r; jitter := jitter r |}.
Definition WithDelayStep (d : Z) : Option := λ r,
  {| maxRetries := maxRetries r; delayStep := d; retryIf := retryIf r; jitter := jitter r |}.
Definition WithJitter (j : bool) : Option := λ r,
  {| maxRetries := maxRetries r; delayStep := delayStep r; retryIf := retryIf r; jitter := j |}.
Definition WithRetryIf (predicate : option (error → bool)) : Option := λ r,
  match predicate with
  | Some p => {| maxRetries := maxRetries r; delayStep := delayStep r;
                 retryIf := Some p; jitter := jitter r |}
  | None => r
  end.

(** The predicate of [New] is [err != nil]; it is only asked about errors. *)
Definition New (options : list (option Option)) : Retry :=
  let r := {| maxRetries := DefaultMaxRetries; delayStep := DefaultDelayStep;
              retryIf := Some (λ _, true); jitter := DefaultJitter |} in
  let r := foldl (λ r opt, match opt with Some f => f r | None => r end) r options in
  if decide (maxRetries r < 1) then WithMaxRetries 1 r else r.

(** ** Errors *)

Definition ErrNilRetry : error := errors_new "retry.ErrNilRetry".
Definition ErrNilContext : error := errors_new "retry.ErrNilContext".
Definition ErrNilFn : error := errors_new "retry.ErrNilFn".

Definition After (d : Z) : error := Node (KHint d) [].

(** Assignability to [DelayHinter], with what [SuggestedRetryDelay] returns. *)
Definition DelayHinter (e : error) : option Z :=
  match ekind e with
  | KHint d => Some d
  | KStatus _ d => Some d
  | KUser _ hint => hint
  | _ => None
  end.

Definition shouldRetry (r : Retry) (err : error) : bool :=
  match retryIf r with None => true | Some p => p err end.

(** ** The retry loop *)

Inductive event :=
  | Look (err : option error)         (* ctx.Err() was asked and said [err] *)
  | Call (res : option error)          (* fn ran and returned [res] *)
  | Wait (delay : Z) (done : bool).    (* slept; [done]: ctx.Done() won *)

Definition is_call (e : event) : bool := match e with Call _ => true | _ => false end.
Definition is_wait (e : event) : bool := match e with Wait _ _ => true | _ => false end.

Section DoCtx.
Context {W : Type}.
(** [ctx.Err()], as observed in a world. *)
Variable ctx_Err : W → option error.
(** [select] between [time.After(delay)] and [ctx.Done()]: whether the
    context won, and the world afterwards. *)
Variable select_done : Z → W → bool * W.
(** [rand.Int64N] *)
Variable Int64N : Z → W → Z * W.
Variable fn : W → option error * W.

Definition look : Comp event W (option error) := λ w, (ctx_Err w, [Look (ctx_Err w)], w).

Definition call : Comp event W (option error) := λ w,
  let '(res, w) := fn w in (res, [Call res], w).

Definition sleep (delay : Z) : Comp event W (option error) := λ w,
  let '(done, w) := select_done delay w in
  if done then (ctx_Err w, [Wait delay true; Look (ctx_Err w)], w)
  else (None, [Wait delay false], w).

Definition calculateJitter (delay : Z) : Comp event W Z := λ w,
  if decide (delay ≤ 0) then (0, [], w)
  else let '(n, w) := Int64N delay w in (n, [], w).

Definition nextDelay (r : Retry) (i : Z) (err : error) : Comp event W Z :=
  let linear :=
    let delay := (delayStep r *! (i +! 1))%go in
    if jitter r then calculateJitter delay else mret delay in
  match errors_as DelayHinter err with
  | Some hint =>
      if decide (0 < hint) then
        if jitter r then
          j ← calculateJitter (hint `quot` 10); mret (hint +! j)%go
        else mret hint
      else linear
  | None => linear
  end.

(** [for i := range maxRetries]: [n] iterations left, [i] the index. *)
Fixpoint loop (r : Retry) (max : Z) (n : nat) (i : Z) (err : option error)
    : Comp event W (option error) :=
  match n with
  | O => mret err
  | S n =>
      dead ← look;
      match dead with
      | Some ctxErr => mret (Some ctxErr)
      | None =>
          res ← call;
          match res with
          | None => mret None
          | Some err =>
              if negb (shouldRetry r err) then mret (Some err) else
              if decide (i = max - 1) then mret (Some err) else
              delay ← nextDelay r i err;
              slept ← sleep delay;
              match slept with
              | Some e => mret (Some e)
              | None => loop r max n (i + 1) (Some err)
              end
          end
      end
  end.
End DoCtx.

(** [DoCtx] on a receiver, context and function that may be nil. *)
Definition validate {W} (r : option Retry) (ctx : option (W → option error))
    (fn : option (W → option error * W)) : option error :=
  match r, ctx, fn with
  | None, _, _ => Some ErrNilRetry
  | _, None, _ => Some ErrNilContext
  | _, _, None => Some ErrNilFn
  | Some _, Some _, Some _ => None
  end.

Definition DoCtx {W} (select_done : Z → W → bool * W) (Int64N : Z → W → Z * W)
    (r : option Retry) (ctx : option (W → option error))
    (fn : option (W → option error * W)) : Comp event W (option error) :=
  match validate r ctx fn with
  | Some err => mret (Some err)
  | None =>
      match r, ctx, fn with
      | Some r, Some ctx_Err, Some fn =>
          let max := Z.max (maxRetries r) 1 in
          loop ctx_Err select_done Int64N fn r max (Z.to_nat max) 0 None
      | _, _, _ => mret None
      end
  end.

(** [Do] runs under [context.Background()], whose [Err] is always nil. *)
Definition Do {W} (select_done : Z → W → bool * W) (Int64N : Z → W → Z * W)
    (r : option Retry) (fn : option (W → option error * W)) : Comp event W (option error) :=
  DoCtx select_done Int64N r (Some (λ _, None)) fn.

(** ** Specification *)

(** [delay_ok r i err d]: [d] is an admissible wait after attempt [i] (from
    0) failed with [err]. *)
Definition jittered (base d : Z) : Prop := 0 ≤ d ∧ (d < base ∨ d = 0).

Definition delay_ok (r : Retry) (i : Z) (err : error) (d : Z) : Prop :=
  let linear :=
    let base := (delayStep r *! (i +! 1))%go in
    if jitter r then jittered base d else d = base in
  match errors_as DelayHinter err with
  | Some hint =>
      if decide (0 < hint) then
        if jitter r then ∃ j, jittered (hint `quot` 10) j ∧ d = (hint +! j)%go
        else d = hint
      else linear
  | None => linear
  end.

(** The histories a retrier allowed [max] attempts may produce from attempt
    [i] on: every attempt is directly preceded by a look at the context that
    found it alive, a look that finds it dead is the last event and its error
    the result, and a wait the context cut short is followed by a look. *)
Inductive legal (r : Retry) (max : Z) : Z → list event → option error → Prop :=
  | legal_dead i e :                        (* the context was dead *)
      legal r max i [Look (Some e)] (Some e)
  | legal_ok i :                            (* the function succeeded *)
      legal r max i [Look None; Call None] None
  | legal_stop i e :                        (* not worth another attempt *)
      shouldRetry r e = false →
      legal r max i [Look None; Call (Some e)] (Some e)
  | legal_last i e :                        (* no attempts left *)
      i = max - 1 →
      legal r max i [Look None; Call (Some e)] (Some e)
  | legal_cancel i e d e' :                 (* the context died in the wait *)
      shouldRetry r e = true → i < max - 1 → delay_ok r i e d →
      legal r max i [Look None; Call (Some e); Wait d true; Look (Some e')] (Some e')
  | legal_retry i e d woken t res :         (* the wait is over, or the context *)
      shouldRetry r e = true → i < max - 1 → delay_ok r i e d → (* ended it but *)
      woken = [Wait d false] ∨ woken = [Wait d true; Look None] → (* is alive *)
      legal r max (i + 1) t res →
      legal r max i ([Look None; Call (Some e)] ++ woken ++ t) res.

(** The history [t], begun in world [w] and ended in [w'], is made of what the
    world answered: each look shows what [ctx.Err()] was then, each call what the
    function returned, and each wait ended the way the [select] for that delay
    did, before which at most one random number was drawn. *)
Section answered.
Context {W : Type}.
Variable ctx_Err : W → option error.
Variable select_done : Z → W → bool * W.
Variable Int64N : Z → W → Z * W.
Variable fn : W → option error * W.

Definition drawn (w w' : W) : Prop := w' = w ∨ ∃ n, 0 < n ∧ w' = (Int64N n w).2.

Fixpoint answered (t : list event) (w w' : W) : Prop :=
  match t with
  | [] => w' = w
  | Look e :: t => e = ctx_Err w ∧ answered t w w'
  | Call res :: t => res = (fn w).1 ∧ answered t (fn w).2 w'
  | Wait d done :: t =>
      ∃ w0, drawn w w0 ∧ done = (select_done d w0).1 ∧ answered t (select_done d w0).2 w'
  end.
End answered.

Definition count (p : event → bool) (t : list event) : nat := length (List.filter p t).

Section facts.
Context {W : Type}.
Variable ctx_Err : W → option error.
Variable select_done : Z → W → bool * W.
Variable Int64N : Z → W → Z * W.
Hypothesis Int64N_range : ∀ n w, 0 < n → 0 ≤ (Int64N n w).1 < n.
Variable fn : W → option error * W.

Lemma calculateJitter_spec base w :
  ∃ d w', calculateJitter Int64N base w = (d, [], w') ∧ jittered base d.
Proof using Int64N_range.
  unfold calculateJitter, jittered. case_decide; [eexists _, _; split; [done|lia]|].
  pose proof (Int64N_range base w). destruct (Int64N base w) as [d w'].
  simpl in *. eexists _, _. split; [done|lia].
Qed.

Lemma nextDelay_spec r i err w :
  ∃ d w', nextDelay Int64N r i err w = (d, [], w') ∧ delay_ok r i err d.
Proof using Int64N_range.
  unfold nextDelay, delay_ok. set (base := (_ *! _)%go).
  assert (∃ d w', (if jitter r then calculateJitter Int64N base else mret base) w = (d, [], w')
                  ∧ if jitter r then jittered base d else d = base) as Hlin.
  { destruct (jitter r); [apply calculateJitter_spec|by eexists _, _]. }
  destruct (errors_as DelayHinter err) as [h|]; [|done].
  case_decide; [|done]. destruct (jitter r); [|by eexists _, _].
  destruct (calculateJitter_spec (h `quot` 10) w) as (j & w' & Hj & Hr).
  exists (h +! j)%go, w'. rewrite (comp_bind_unfold _ _ _ _ _ _ Hj). eauto.
Qed.

(** One unfolding of the loop, case by case. *)
Lemma loop_legal r max n i err w :
  Z.of_nat n = max - i → (0 < n)%nat →
  legal r max i (trace (loop ctx_Err select_done Int64N fn r max n i err w))
                (val (loop ctx_Err select_done Int64N fn r max n i err w)).
Proof using Int64N_range.
  revert i err w. induction n as [|n IH]; intros i err w Hn Hpos; [lia|].
  cbn [loop]. unfold mbind, comp_bind, look, mret, comp_ret, call. cbn.
  destruct (ctx_Err w) as [e|]; cbn; [constructor|].
  destruct (fn w) as [[e|] w1]; cbn; [|constructor].
  destruct (shouldRetry r e) eqn:Hs; cbn; [|by constructor].
  case_decide as Hi; cbn; [by apply legal_last|].
  destruct (nextDelay_spec r i e w1) as (d & w2 & -> & Hd). cbn.
  unfold sleep. destruct (select_done d w2) as [[] w3]; cbn;
    [destruct (ctx_Err w3) as [e'|]; cbn; [apply legal_cancel; auto; lia|]|];
    specialize (IH (i + 1) (Some e) w3 ltac:(lia) ltac:(lia));
    destruct (loop _ _ _ _ _ _ _ _ _ _) as [[v t] w4]; cbn in *.
  - apply (legal_retry r max i e d [Wait d true; Look None]); auto; lia.
  - apply (legal_retry r max i e d [Wait d false]); auto; lia.
Qed.

Lemma nextDelay_drawn r i err w :
  ∃ d w', nextDelay Int64N r i err w = (d, [], w') ∧ drawn Int64N w w'.
Proof using Type.
  unfold nextDelay, calculateJitter, mbind, comp_bind, mret, comp_ret, drawn.
  repeat case_match; simplify_eq/=; eexists _, _; (split; [done|]); try (by left);
    right; match goal with H : Int64N ?n ?w = _ |- _ => exists n; rewrite H; split; [lia|done] end.
Qed.

Lemma loop_answered r max n i err w :
  let out := loop ctx_Err select_done Int64N fn r max n i err w in
  answered ctx_Err select_done Int64N fn (trace out) w (world out).
Proof using Type.
  revert i err w. induction n as [|n IH]; intros i err w; [done|].
  cbn [loop]. unfold mbind, comp_bind, look, mret, comp_ret, call. cbn.
  destruct (ctx_Err w) as [e|] eqn:He; cbn; [by rewrite He|].
  destruct (fn w) as [[e|] w1] eqn:Hf; cbn; [|by rewrite He, Hf].
  destruct (shouldRetry r e); cbn; [|by rewrite He, Hf].
  case_decide; cbn; [by rewrite He, Hf|].
  destruct (nextDelay_drawn r i e w1) as (d & w2 & -> & Hd). cbn.
  unfold sleep. destruct (select_done d w2) as [[] w3] eqn:Hs; cbn;
    [destruct (ctx_Err w3) as [e'|] eqn:He'; cbn|];
    try (specialize (IH (i + 1) (Some e) w3);
         destruct (loop _ _ _ _ _ _ _ _ _ _) as [[v t] w4]; cbn in *);
    rewrite He, Hf; cbn; (split_and!; [done..|]); exists w2; rewrite Hs; cbn; by rewrite ?He'.
Qed.

(** With a context that has an error once its [Done] channel is closed, a wait
    the context wins ends the run with the context's error. *)
Lemma loop_woken r max n i err w t1 d t2 :
  (∀ d w, (select_done d w).1 = true → is_Some (ctx_Err (select_done d w).2)) →
  trace (loop ctx_Err select_done Int64N fn r max n i err w) = t1 ++ Wait d true :: t2 →
  ∃ e, t2 = [Look (Some e)]
       ∧ val (loop ctx_Err select_done Int64N fn r max n i err w) = Some e.
Proof using Int64N_range.
  intros Hdone. revert i err w t1. induction n as [|n IH]; intros i err w t1;
    cbn [loop]; unfold mbind, comp_bind, look, mret, comp_ret, call; cbn;
    [by destruct t1|].
  destruct (ctx_Err w) as [e|]; cbn; [by destruct t1 as [|? []]|].
  destruct (fn w) as [[e|] w1]; cbn; [|by destruct t1 as [|? [|? []]]].
  destruct (shouldRetry r e); cbn; [|by destruct t1 as [|? [|? []]]].
  case_decide; cbn; [by destruct t1 as [|? [|? []]]|].
  destruct (nextDelay_spec r i e w1) as (d' & w2 & -> & _). cbn.
  unfold sleep. pose proof (Hdone d' w2) as Hd.
  destruct (select_done d' w2) as [[] w3]; cbn in *.
  - destruct (Hd eq_refl) as [e' ->]. cbn. intros Ht.
    destruct t1 as [|? [|? [|? [|? []]]]]; simplify_eq/=. by exists e'.
  - specialize (IH (i + 1) (Some e) w3).
    destruct (loop _ _ _ _ _ _ _ _ _ _) as [[v t] w4]; cbn in *. intros Ht.
    destruct t1 as [|? [|? [|? t1]]]; simplify_eq/=. by eapply IH.
Qed.

Lemma nextDelay_quiet r i err w : ∃ d w', nextDelay Int64N r i err w = (d, [], w').
Proof using Type.
  unfold nextDelay, calculateJitter, mbind, comp_bind, mret, comp_ret.
  repeat case_match; simplify_eq/=; by eexists _, _.
Qed.

Lemma nextDelay_world (P : W → Prop) r i err w :
  (∀ n w, P w → P (Int64N n w).2) → P w → P (world (nextDelay Int64N r i err w)).
Proof using Type.
  intros Hr H. unfold nextDelay, calculateJitter, mbind, comp_bind, mret, comp_ret.
  repeat case_match; simplify_eq/=; try done;
    match goal with H : Int64N ?n ?w = _ |- _ =>
      specialize (Hr n w); rewrite H in Hr; auto end.
Qed.

(** The loop rule: an assertion [Inv i] that holds before attempt [i], from
    which a failing call leads to [Failed i e], and the wait chosen for [e] back
    to [Inv (i + 1)], gives [Post] wherever the loop can stop. *)
Section failure_rule.
Variable (r : Retry) (max : Z).
Variable Inv : Z → W → Prop.
Variable Failed : Z → error → W → Prop.
Variable Post : option error → W → Prop.
Hypothesis Post_dead : ∀ i w e, i ≤ max → Inv i w → ctx_Err w = Some e → Post (Some e) w.
Hypothesis Post_call : ∀ i w, 0 ≤ i < max → Inv i w →
  match fn w with
  | (None, w') => Post None w'
  | (Some e, w') => Failed i e w' ∧ Post (Some e) w'
  end.
Hypothesis Failed_wait : ∀ i e w, 0 ≤ i < max - 1 → Failed i e w →
  let '(d, _, w1) := nextDelay Int64N r i e w in
  let '(done, w2) := select_done d w1 in
  match (if done then ctx_Err w2 else None) with
  | Some e' => Post (Some e') w2
  | None => Inv (i + 1) w2
  end.

Lemma failure_rule n i err w :
  0 ≤ i → Z.of_nat n = max - i → (0 < n)%nat → Inv i w →
  Post (val (loop ctx_Err select_done Int64N fn r max n i err w))
       (world (loop ctx_Err select_done Int64N fn r max n i err w)).
Proof using Post_dead Post_call Failed_wait.
  revert i err w. induction n as [|n IH]; intros i err w Hi Hn Hpos Hinv; [lia|].
  cbn [loop]. unfold mbind, comp_bind, look, mret, comp_ret, call. cbn.
  destruct (ctx_Err w) as [e|] eqn:He; cbn; [eapply Post_dead; [|done..]; lia|].
  pose proof (Post_call i w ltac:(lia) Hinv) as Hc.
  destruct (fn w) as [[e|] w1]; cbn; [|done]. destruct Hc as [Hf Hpost].
  destruct (shouldRetry r e); cbn; [|done]. case_decide as Hlast; cbn; [done|].
  pose proof (Failed_wait i e w1 ltac:(lia) Hf) as Hw.
  destruct (nextDelay Int64N r i e w1) as [[d t] w2]. cbn in *.
  unfold sleep. destruct (select_done d w2) as [[] w3]; cbn in *;
    [destruct (ctx_Err w3) as [e'|]; cbn; [done|]|];
    specialize (IH (i + 1) (Some e) w3 ltac:(lia) ltac:(lia) ltac:(lia) Hw);
    by destruct (loop _ _ _ _ _ _ _ _ _ _) as [[v t'] w4].
Qed.
End failure_rule.

(** The rule for an assertion that waiting and drawing random numbers cannot
    disturb. *)
Section loop_rule.
Variable (r : Retry) (max : Z).
Variable Inv : Z → W → Prop.
Variable Post : option error → W → Prop.
Hypothesis Inv_select : ∀ i d w, Inv i w → Inv i (select_done d w).2.
Hypothesis Inv_random : ∀ i n w, Inv i w → Inv i (Int64N n w).2.
Hypothesis Post_dead : ∀ i w e, i ≤ max → Inv i w → ctx_Err w = Some e → Post (Some e) w.
Hypothesis Post_call : ∀ i w, 0 ≤ i < max → Inv i w →
  match fn w with
  | (None, w') => Post None w'
  | (Some e, w') => Inv (i + 1) w' ∧ Post (Some e) w'
  end.

Lemma loop_rule n i err w :
  0 ≤ i → Z.of_nat n = max - i → (0 < n)%nat → Inv i w →
  Post (val (loop ctx_Err select_done Int64N fn r max n i err w))
       (world (loop ctx_Err select_done Int64N fn r max n i err w)).
Proof using Inv_select Inv_random Post_dead Post_call.
  apply (failure_rule r max Inv (λ i _ w, Inv (i + 1) w) Post Post_dead Post_call).
  clear i w. intros i e w Hi Hw.
  pose proof (nextDelay_world (Inv (i + 1)) r i e w (Inv_random (i + 1)) Hw) as Hd.
  destruct (nextDelay Int64N r i e w) as [[d t] w1]. cbn in Hd.
  apply (Inv_select _ d) in Hd. destruct (select_done d w1) as [[] w2]; [|done]. cbn in *.
  destruct (ctx_Err w2) eqn:He; [|done]. eapply Post_dead; [|done..]. lia.
Qed.
End loop_rule.

Lemma loop_exhausts r max n i err w :
  (∀ w, ctx_Err w = None) →
  (∀ d w, (select_done d w).1 = false) →
  (∀ w, ∃ e, (fn w).1 = Some e ∧ shouldRetry r e = true) →
  Z.of_nat n = max - i → (0 < n)%nat →
  let out := loop ctx_Err select_done Int64N fn r max n i err w in
  Z.of_nat (count is_call (trace out)) = max - i
  ∧ Z.of_nat (count is_wait (trace out)) = max - i - 1
  ∧ ∃ e, val out = Some e ∧ last (trace out) = Some (Call (Some e)).
Proof using Type.
  intros Hctx Hsel Hfn. revert i err w.
  induction n as [|n IH]; intros i err w Hn Hpos; [lia|].
  cbn [loop]. unfold mbind, comp_bind, look, mret, comp_ret, call. cbn.
  rewrite Hctx. destruct (Hfn w) as (e & He & Hs). destruct (fn w) as [res w1].
  simpl in He. subst res. cbn. rewrite Hs. cbn.
  case_decide as Hi; cbn.
  - unfold count. simpl. split_and!; [lia..|by eexists].
  - destruct (nextDelay_quiet r i e w1) as (d & w2 & ->). cbn.
    unfold sleep. specialize (Hsel d w2). destruct (select_done d w2) as [done w3].
    simpl in Hsel. subst done. cbn.
    destruct (IH (i + 1) (Some e) w3) as (Hc & Hw & e' & He & Hl); [lia..|].
    destruct (loop _ _ _ _ _ _ _ _ _ _) as [[v t] w4]. unfold count in *. cbn in *.
    split_and!; [lia..|]. exists e'. split; [done|]. by destruct t.
Qed.

(** The loop gets through: while the context lives and waiting does no harm,
    [k] attempts that fail retryably and one that succeeds end in success. *)
Section recovery.
Variable (r : Retry) (max k : Z).
Variable Good : Z → W → Prop.
Variable Post : W → Prop.
Hypothesis alive : ∀ w, ctx_Err w = None.
Hypothesis patient : ∀ i d w, Good i w → (select_done d w).1 = false ∧ Good i (select_done d w).2.
Hypothesis Good_random : ∀ i n w, Good i w → Good i (Int64N n w).2.
Hypothesis fails : ∀ i w, 0 ≤ i < k → Good i w →
  ∃ e, (fn w).1 = Some e ∧ shouldRetry r e = true ∧ Good (i + 1) (fn w).2.
Hypothesis succeeds : ∀ w, Good k w → (fn w).1 = None ∧ Post (fn w).2.

Lemma loop_recovers n i err w :
  Z.of_nat n = max - i → 0 ≤ i ≤ k → k < max → Good i w →
  let out := loop ctx_Err select_done Int64N fn r max n i err w in
  val out = None ∧ Post (world out) ∧ Z.of_nat (count is_call (trace out)) = k - i + 1
  ∧ Z.of_nat (count is_wait (trace out)) = k - i.
Proof using alive patient Good_random fails succeeds.
  revert i err w. induction n as [|n IH]; intros i err w Hn Hi Hk Hg; [lia|].
  cbn [loop]. unfold mbind, comp_bind, look, mret, comp_ret, call. cbn. rewrite alive.
  destruct (decide (i = k)) as [->|Hne].
  { destruct (succeeds w Hg) as [Hf Hp]. destruct (fn w) as [res w1]. simpl in Hf. subst res.
    cbn. unfold count. simpl. split_and!; [done|done|lia..]. }
  destruct (fails i w ltac:(lia) Hg) as (e & He & Hs & Hg1).
  destruct (fn w) as [res w1]. simpl in He, Hg1. subst res. cbn. rewrite Hs. cbn.
  rewrite decide_False by lia. cbn.
  pose proof (nextDelay_world (Good (i + 1)) r i e w1 (Good_random (i + 1)) Hg1) as Hg2.
  destruct (nextDelay_quiet r i e w1) as (d & w2 & Hd). rewrite Hd in *. cbn in *.
  destruct (patient (i + 1) d w2 Hg2) as [Hsel Hg3]. unfold sleep.
  destruct (select_done d w2) as [done w3]. simpl in Hsel, Hg3. subst done. cbn.
  destruct (IH (i + 1) (Some e) w3) as (Hv & Hp & Hc & Hw); [lia..|done|].
  destruct (loop _ _ _ _ _ _ _ _ _ _) as [[v t] w4]. unfold count in *. cbn in *.
  split_and!; [done|done|lia..].
Qed.
End recovery.
End facts.

Lemma legal_bounds r max i t res :
  legal r max i t res → i < max →
  Z.of_nat (count is_call t) ≤ max - i ∧ Z.of_nat (count is_wait t) ≤ max - i - 1.
Proof.
  unfold count. induction 1 as [| | | | |i e d woken t res _ Hi _ [-> | ->] _ IH]; simpl in *; lia.
Qed.

Lemma legal_success r max i t res :
  legal r max i t res → (res = None ↔ last t = Some (Call None)).
Proof.
  induction 1 as [| | | | |i e d woken t res _ _ _ Hw H IH]; simpl; [by split..|].
  rewrite IH. destruct t as [|ev t]; [by inversion H|]. by destruct Hw as [-> | ->].
Qed.

(** The delays an admissible wait can have when nothing overflows. *)
Lemma delay_ok_hint r i err h d :
  errors_as DelayHinter err = Some h → 0 < h → h + h `quot` 10 ≤ MaxInt64 →
  delay_ok r i err d → h ≤ d ≤ h + h `quot` 10.
Proof.
  unfold delay_ok. intros -> Hh Hmax. rewrite decide_True by done.
  assert (0 ≤ h `quot` 10) by (apply Z.quot_pos; lia).
  destruct (jitter r); [|lia]. unfold jittered. intros (j & Hj & ->).
  rewrite wrap64_id; [lia|int64_lia].
Qed.

(** The time a history spends waiting, if no wait is cut short. *)
Definition total_wait (t : list event) : Z :=
  foldr (λ ev acc, match ev with Wait d _ => d + acc | _ => acc end) 0 t.

(** No error of the history suggests a wait longer than [H]. *)
Definition hints_below (H : Z) (t : list event) : Prop :=
  ∀ e h, Call (Some e) ∈ t → errors_as DelayHinter e = Some h → h ≤ H.

Lemma delay_ok_bounds r i err d H :
  0 ≤ delayStep r → 0 ≤ i → in_int64 (delayStep r * (i + 1)) → i < MaxInt64 →
  0 ≤ H → H + H `quot` 10 ≤ MaxInt64 →
  (∀ h, errors_as DelayHinter err = Some h → h ≤ H) →
  delay_ok r i err d → 0 ≤ d ≤ delayStep r * (i + 1) + (H + H `quot` 10).
Proof.
  intros Hst Hi Hr Hi' HH Hmax Hh Hd. assert (0 ≤ H `quot` 10) by (apply Z.quot_pos; lia).
  assert (0 ≤ delayStep r * (i + 1)) as Hb by nia.
  destruct (errors_as DelayHinter err) as [h|] eqn:He; [destruct (decide (0 < h)) as [Hpos|Hneg]|].
  { specialize (Hh h eq_refl).
    assert (h `quot` 10 ≤ H `quot` 10) by (apply Z.quot_le_mono; lia).
    assert (h + h `quot` 10 ≤ MaxInt64) as Hm by lia. pose proof (delay_ok_hint _ _ _ _ _ He Hpos Hm Hd). clear Hr. lia. }
  all: unfold delay_ok in Hd; rewrite He, ?(decide_False _ _ Hneg) in Hd;
    rewrite (wrap64_id (i + 1)), (wrap64_id _ Hr) in Hd by int64_lia;
    destruct (jitter r); unfold jittered in Hd; lia.
Qed.

Lemma legal_total_wait r max H i t res :
  0 ≤ delayStep r → delayStep r * max ≤ MaxInt64 → max ≤ MaxInt64 →
  0 ≤ H → H + H `quot` 10 ≤ MaxInt64 →
  legal r max i t res → 0 ≤ i < max → hints_below H t →
  0 ≤ total_wait t
  ∧ 2 * total_wait t ≤ delayStep r * (max * (max - 1) - i * (i + 1)) + 2 * (max - 1 - i) * (H + H `quot` 10).
Proof.
  intros Hst Hov Hmax HH HHm Hl. assert (0 ≤ H `quot` 10) by (apply Z.quot_pos; lia).
  set (B := H + H `quot` 10) in *.
  assert (∀ i e d, i < max - 1 → 0 ≤ i → delay_ok r i e d →
            (∀ h, errors_as DelayHinter e = Some h → h ≤ H) → 0 ≤ d ≤ delayStep r * (i + 1) + B) as Hd.
  { intros i' e d Hi' Hi0 Hd Hh. apply (delay_ok_bounds _ _ e); try done; [|lia].
    split; [unfold MinInt64; nia|nia]. }
  assert (∀ i, 0 ≤ i < max → 0 ≤ delayStep r * (max * (max - 1) - i * (i + 1)) + 2 * (max - 1 - i) * B)
    as Hroom.
  { intros j Hj. replace (max * (max - 1) - j * (j + 1)) with ((max - 1 - j) * (max + j)) by lia.
    apply Z.add_nonneg_nonneg; repeat apply Z.mul_nonneg_nonneg; lia. }
  clearbody B. induction Hl as [| | | |i e d e' Hs Hi Hdo|i e d woken t res Hs Hi Hdo Hw Hl IH];
    intros Hr Hh; [cbn [total_wait foldr] in *; specialize (Hroom _ Hr); lia..| |].
  - destruct (Hd i e d) as [? Hd']; [lia|lia|done|intros h; apply Hh; right; left|].
    cbn [total_wait foldr]. specialize (Hroom (i + 1) ltac:(lia)). lia.
  - destruct (Hd i e d) as [? Hd']; [lia|lia|done|intros h; apply Hh; right; left|].
    destruct IH as [? IH]; [lia|intros e0 h Hin; apply Hh; rewrite !elem_of_app; auto|].
    assert (total_wait ([Look None; Call (Some e)] ++ woken ++ t) = d + total_wait t) as ->
      by (by destruct Hw as [-> | ->]). lia.
Qed.

(** ** Properties *)
Section properties.
Context {W : Type}.
Variable ctx_Err : W → option error.
Variable select_done : Z → W → bool * W.
Variable Int64N : Z → W → Z * W.
Variable fn : W → option error * W.
Variable r : Retry.
#[local] Abbreviation max := (Z.max (maxRetries r) 1).

(** C4: refinement.  With a random source that honours its contract, every
    run of [DoCtx] is a history the specification allows: it looks at the
    context before every attempt and calls the function only when the context
    is alive, stops with the context's error when it is dead, stops on
    success, on an error the predicate rejects and after the last attempt, and
    otherwise waits an admissible delay before the next attempt.  What the
    history says is what the world answered: the looks are the context's errors,
    and a wait is over when the [select] between its delay and the context says
    so.  With a context that has an error once its [Done] channel is closed, a wait
    the context cuts short is followed by nothing but the look that fetches the
    error, which is the result. *)
Theorem DoCtx_legal w :
  (∀ n w, 0 < n → 0 ≤ (Int64N n w).1 < n) →
  let out := DoCtx select_done Int64N (Some r) (Some ctx_Err) (Some fn) w in
  legal r max 0 (trace out) (val out)
  ∧ answered ctx_Err select_done Int64N fn (trace out) w (world out)
  ∧ ((∀ d w, (select_done d w).1 = true → is_Some (ctx_Err (select_done d w).2)) →
     ∀ t1 d t2, trace out = t1 ++ Wait d true :: t2 →
       ∃ e, t2 = [Look (Some e)] ∧ val out = Some e).
Proof using Type.
  intros HI out. unfold out, DoCtx. cbn. split_and!; [apply loop_legal; [done|lia..]|apply loop_answered|].
  intros Hdone t1 d t2. by apply loop_woken.
Qed.

(** the function is called at most [maxRetries] times (once when that is
    below one) and there is a wait between attempts only, never after the
    last, whatever the function does. *)
Theorem DoCtx_attempts w :
  (∀ n w, 0 < n → 0 ≤ (Int64N n w).1 < n) →
  let out := DoCtx select_done Int64N (Some r) (Some ctx_Err) (Some fn) w in
  Z.of_nat (count is_call (trace out)) ≤ max
  ∧ Z.of_nat (count is_wait (trace out)) ≤ max - 1.
Proof using Type.
  intros HI out. unfold out, DoCtx. cbn.
  pose proof (loop_legal ctx_Err select_done Int64N HI fn r max (Z.to_nat max) 0 None w
    ltac:(lia) ltac:(lia)) as Hl%legal_bounds; lia.
Qed.

(** [DoCtx] returns nil exactly when the last thing it did was a call of
    the function that returned nil. *)
Theorem DoCtx_success w :
  (∀ n w, 0 < n → 0 ≤ (Int64N n w).1 < n) →
  let out := DoCtx select_done Int64N (Some r) (Some ctx_Err) (Some fn) w in
  val out = None ↔ last (trace out) = Some (Call None).
Proof using Type.
  intros HI out. unfold out, DoCtx. cbn.
  eapply legal_success, loop_legal; [done|lia..].
Qed.

(** exhaustion.  When the context stays alive and every call fails with
    a retryable error, the function is called exactly [maxRetries] times and
    the error of the last call is returned. *)
Theorem DoCtx_exhausts w :
  (∀ w, ctx_Err w = None) →
  (∀ d w, (select_done d w).1 = false) →
  (∀ w, ∃ e, (fn w).1 = Some e ∧ shouldRetry r e = true) →
  let out := DoCtx select_done Int64N (Some r) (Some ctx_Err) (Some fn) w in
  Z.of_nat (count is_call (trace out)) = max
  ∧ Z.of_nat (count is_wait (trace out)) = max - 1
  ∧ ∃ e, val out = Some e ∧ last (trace out) = Some (Call (Some e)).
Proof using Type.
  intros Hctx Hsel Hfn out. unfold out, DoCtx. cbn.
  destruct (loop_exhausts ctx_Err select_done Int64N fn r max (Z.to_nat max) 0 None w
    Hctx Hsel Hfn ltac:(lia) ltac:(lia)) as (? & ? & ?). split_and!; [lia..|done].
Qed.

(** C30: The waiting is bounded.  When the linear schedule does not overflow and
    no error suggests a wait longer than [H], a whole [DoCtx] waits at most
    [step * max * (max - 1) / 2] and, for each of the [max - 1] retries, a
    suggestion with its jitter. *)
Theorem DoCtx_total_wait w H :
  (∀ n w, 0 < n → 0 ≤ (Int64N n w).1 < n) →
  0 ≤ delayStep r → delayStep r * max ≤ MaxInt64 → max ≤ MaxInt64 →
  0 ≤ H → H + H `quot` 10 ≤ MaxInt64 →
  let out := DoCtx select_done Int64N (Some r) (Some ctx_Err) (Some fn) w in
  hints_below H (trace out) →
  0 ≤ total_wait (trace out)
  ∧ 2 * total_wait (trace out) ≤ delayStep r * (max * (max - 1)) + 2 * (max - 1) * (H + H `quot` 10).
Proof using Type.
  intros HI Hst Hov Hmax HH HHm out Hh. unfold out, DoCtx in *. cbn in *.
  pose proof (loop_legal ctx_Err select_done Int64N HI fn r max (Z.to_nat max) 0 None w
    ltac:(lia) ltac:(lia)) as Hl.
  destruct (legal_total_wait _ _ H _ _ _ Hst Hov Hmax HH HHm Hl ltac:(lia) Hh) as [? Hw].
  by rewrite Z.mul_0_l, !Z.sub_0_r in Hw.
Qed.

(** Recovery.  If the context stays alive, the first [k] calls fail with
    errors worth a retry and the next one succeeds, with [k] below the allowed
    attempts, then [DoCtx] returns nil after [k + 1] calls with a wait between
    each two.  [calls] is how many calls the world has seen. *)
Theorem DoCtx_recovers (calls : W → Z) k w :
  (∀ w, ctx_Err w = None) →
  (∀ d w, (select_done d w).1 = false ∧ calls (select_done d w).2 = calls w) →
  (∀ n w, calls (Int64N n w).2 = calls w) →
  (∀ w, calls (fn w).2 = calls w + 1) →
  (∀ w, if decide (calls w < k) then ∃ e, (fn w).1 = Some e ∧ shouldRetry r e = true
        else (fn w).1 = None) →
  calls w = 0 → 0 ≤ k < max →
  let out := DoCtx select_done Int64N (Some r) (Some ctx_Err) (Some fn) w in
  val out = None ∧ Z.of_nat (count is_call (trace out)) = k + 1
  ∧ Z.of_nat (count is_wait (trace out)) = k.
Proof using Type.
  intros Hctx Hsel Hrand Hcount Hfn H0 Hk out. unfold out, DoCtx. cbn.
  destruct (loop_recovers ctx_Err select_done Int64N fn r max k (λ i w, calls w = i) (λ _, True)
    Hctx) with (n := Z.to_nat max) (i := 0) (err := None : option error) (w := w)
    as (? & _ & ? & ?); [..|split_and!; [done|lia..]]; try lia.
  - intros i d w' <-. apply Hsel.
  - intros i n w' <-. apply Hrand.
  - intros i w' Hi <-. specialize (Hfn w'). rewrite decide_True in Hfn by lia.
    destruct Hfn as (e & ? & ?). eauto.
  - intros w' Hw. specialize (Hfn w'). by rewrite decide_False in Hfn by lia.
Qed.

(** a context that is already dead means no call at all and its error is
    returned; nil receivers, contexts and functions are refused without
    touching the world. *)
Theorem DoCtx_refused w e :
  ctx_Err w = Some e →
  DoCtx select_done Int64N (Some r) (Some ctx_Err) (Some fn) w = (Some e, [Look (Some e)], w)
  ∧ DoCtx select_done Int64N None (Some ctx_Err) (Some fn) w = (Some ErrNilRetry, [], w)
  ∧ DoCtx select_done Int64N (Some r) None (Some fn) w = (Some ErrNilContext, [], w)
  ∧ DoCtx select_done Int64N (Some r) (Some ctx_Err) None w = (Some ErrNilFn, [], w).
Proof using Type.
  intros He. split_and!; [|done..]. unfold DoCtx. cbn.
  destruct (Z.to_nat max) eqn:Hn; [lia|]. cbn [loop].
  unfold mbind, comp_bind, look. by rewrite He.
Qed.

(** a suggested delay is a floor, with at most ten percent on top, as
    long as the sum fits in a [Duration]. *)
Theorem nextDelay_hint_floor i err h w :
  (∀ n w, 0 < n → 0 ≤ (Int64N n w).1 < n) →
  errors_as DelayHinter err = Some h → 0 < h → h + h `quot` 10 ≤ MaxInt64 →
  h ≤ val (nextDelay Int64N r i err w) ≤ h + h `quot` 10.
Proof using Type.
  intros HI Hh Hpos Hmax.
  destruct (nextDelay_spec _ HI r i err w) as (d & w' & -> & Hd).
  by eapply delay_ok_hint.
Qed.

(** without a usable hint the wait is the linear step, or a jittered
    fraction of it: in [[0, step*(i+1))], and zero when the step is not
    positive. *)
Theorem nextDelay_linear i err w :
  (∀ n w, 0 < n → 0 ≤ (Int64N n w).1 < n) →
  (∀ h, errors_as DelayHinter err = Some h → h ≤ 0) →
  0 ≤ i < MaxInt64 → in_int64 (delayStep r * (i + 1)) →
  let base := delayStep r * (i + 1) in
  let d := val (nextDelay Int64N r i err w) in
  if jitter r then 0 ≤ d ∧ (d < base ∨ base ≤ 0 ∧ d = 0 ∨ d = 0) else d = base.
Proof using Type.
  intros HI Hh Hi Hb base.
  destruct (nextDelay_spec _ HI r i err w) as (d & w' & -> & Hd). cbn.
  unfold delay_ok in Hd. rewrite (wrap64_id (i + 1)), (wrap64_id _ Hb) in Hd by int64_lia.
  fold base in Hd. destruct (errors_as DelayHinter err) as [h|];
    [specialize (Hh h eq_refl); rewrite decide_False in Hd by lia|];
    destruct (jitter r); unfold jittered in Hd; lia.
Qed.
End properties.

(** construction.  Whatever the options, at least one attempt is allowed;
    the last [WithMaxRetries] decides, clamped to one; nil options and nil
    predicates change nothing. *)
Theorem New_options opts n :
  1 ≤ maxRetries (New opts)
  ∧ maxRetries (New (opts ++ [Some (WithMaxRetries n)])) = Z.max n 1
  ∧ New (opts ++ [None]) = New opts
  ∧ New (opts ++ [Some (WithRetryIf None)]) = New opts.
Proof.
  unfold New. rewrite !foldl_app. cbn [foldl].
  split_and!; [case_decide; simpl; lia| |done..].
  case_decide; simpl in *; lia.
Qed.

(** the floor of a suggested delay is lost when adding the jitter leaves
    the range of a [Duration]: the sum wraps to a negative wait, that is no
    wait at all. *)
Theorem nextDelay_hint_wraps {W} (Int64N : Z → W → Z * W) r i err h w :
  jitter r = true → errors_as DelayHinter err = Some h →
  0 < h ≤ MaxInt64 → 0 < h `quot` 10 →
  0 ≤ (Int64N (h `quot` 10) w).1 < h `quot` 10 →
  MaxInt64 < h + (Int64N (h `quot` 10) w).1 →
  val (nextDelay Int64N r i err w) < 0.
Proof.
  intros Hj He Hh Hq Hr Hover. unfold nextDelay. rewrite He, decide_True, Hj by lia.
  unfold mbind, comp_bind, calculateJitter. rewrite decide_False by lia.
  destruct (Int64N _ w) as [j w']. cbn in *.
  assert (h `quot` 10 ≤ h) by (apply Z.quot_le_upper_bound; lia).
  rewrite wrap64_over; int64_lia.
Qed.

(** ** Concrete runs: a function that fails until its [k]-th call. *)
Definition demo_fn (k : nat) (w : nat) : option error * nat :=
  (if (w <? k)%nat then Some ErrUnknown else None, S w).
Definition demo_select (_ : Z) (w : nat) : bool * nat := (false, w).
Definition demo_roll (n : Z) (w : nat) : Z * nat := (n - 1, w).
Definition demo_ctx (_ : nat) : option error := None.

Lemma demo_roll_range : ∀ n w, 0 < n → 0 ≤ (demo_roll n w).1 < n.
Proof. unfold demo_roll. simpl. lia. Qed.

Example DoCtx_two_failures :
  DoCtx demo_select demo_roll (Some (New [])) (Some demo_ctx) (Some (demo_fn 2)) 0%nat
  = (None, [Look None; Call (Some ErrUnknown); Wait 999999999 false;
            Look None; Call (Some ErrUnknown); Wait 1999999999 false;
            Look None; Call None], 3%nat).
Proof. vm_compute. reflexivity. Qed.

Definition demo_history : list event :=
  [Look None; Call (Some ErrUnknown); Wait 999999999 false; Look None; Call None].

(** A context that is cancelled during the first wait. *)
Definition demo_cut (_ : Z) (w : nat) : bool * nat := (true, (w + 10)%nat).
Definition demo_dying (w : nat) : option error := if (w <? 10)%nat then None else Some Canceled.

Lemma demo_cut_dead d w : (demo_cut d w).1 = true → is_Some (demo_dying (demo_cut d w).2).
Proof.
  intros _. unfold demo_dying. simpl. rewrite (proj2 (Nat.ltb_ge _ _)) by lia. by eexists.
Qed.

Lemma DoCtx_legal_witness :
  legal (New []) 3 0 demo_history None
  ∧ ∃ e, [Look (Some Canceled)] = [Look (Some e)] ∧ Some Canceled = Some e.
Proof.
  split.
  - exact (proj1 (DoCtx_legal demo_ctx demo_select demo_roll (demo_fn 1) (New []) 0%nat demo_roll_range)).
  - apply (proj2 (proj2 (DoCtx_legal demo_dying demo_cut demo_roll (demo_fn 5) (New []) 0%nat demo_roll_range))
      demo_cut_dead [Look None; Call (Some ErrUnknown)] 999999999).
    vm_compute. reflexivity.
Defined.

Lemma DoCtx_attempts_witness :
  Z.of_nat (count is_call demo_history) ≤ 3
  ∧ Z.of_nat (count is_wait demo_history) ≤ 2.
Proof.
  exact (DoCtx_attempts demo_ctx demo_select demo_roll (demo_fn 1) (New []) 0%nat demo_roll_range).
Defined.

Lemma DoCtx_success_witness :
  (None : option error) = None ↔
  last demo_history = Some (Call None).
Proof.
  exact (DoCtx_success demo_ctx demo_select demo_roll (demo_fn 1) (New []) 0%nat demo_roll_range).
Defined.

Lemma DoCtx_exhausts_witness :
  let out := DoCtx demo_select demo_roll (Some (New [])) (Some demo_ctx)
               (Some (λ w, (Some ErrUnknown, S w))) 0%nat in
  Z.of_nat (count is_call (trace out)) = 3
  ∧ Z.of_nat (count is_wait (trace out)) = 3 - 1
  ∧ ∃ e, val out = Some e ∧ last (trace out) = Some (Call (Some e)).
Proof.
  apply (DoCtx_exhausts demo_ctx demo_select demo_roll _ (New []) 0%nat);
    [reflexivity|reflexivity|intros w; exists ErrUnknown; split; reflexivity].
Defined.

Lemma DoCtx_total_wait_witness :
  0 ≤ total_wait demo_history
  ∧ 2 * total_wait demo_history
    ≤ 1000000000 * (3 * (3 - 1)) + 2 * (3 - 1) * (0 + 0 `quot` 10).
Proof.
  apply (DoCtx_total_wait demo_ctx demo_select demo_roll (demo_fn 1) (New []) 0%nat 0 demo_roll_range);
    try (vm_compute; congruence).
  intros e h He. change (Call (Some e) ∈ demo_history) in He. unfold demo_history in He. rewrite !elem_of_cons in He.
  destruct He as [[=]|[[= ->]|[[=]|[[=]|[[=]|[]%elem_of_nil]]]]]; discriminate.
Defined.

Lemma DoCtx_recovers_witness :
  let out := DoCtx demo_select demo_roll (Some (New [])) (Some demo_ctx) (Some (demo_fn 2)) 0%nat in
  val out = None ∧ Z.of_nat (count is_call (trace out)) = 2 + 1
  ∧ Z.of_nat (count is_wait (trace out)) = 2.
Proof.
  apply (DoCtx_recovers demo_ctx demo_select demo_roll (demo_fn 2) (New []) Z.of_nat 2 0%nat);
    [done|done|done|intros w; unfold demo_fn; simpl; lia| |done|done].
  intros w. unfold demo_fn. simpl. case_decide; destruct (w <? 2)%nat eqn:Hw; eauto;
    rewrite ?Nat.ltb_lt, ?Nat.ltb_ge in Hw; lia.
Defined.

Lemma DoCtx_refused_witness :
  DoCtx demo_select demo_roll (Some (New [])) (Some (λ _, Some Canceled)) (Some (demo_fn 0)) 0%nat
  = (Some Canceled, [Look (Some Canceled)], 0%nat).
Proof.
  exact (proj1 (DoCtx_refused (λ _, Some Canceled) demo_select demo_roll (demo_fn 0) (New []) 0%nat
    Canceled eq_refl)).
Defined.

Lemma nextDelay_hint_floor_witness :
  2000000000 ≤ val (nextDelay demo_roll (New []) 0 (Errorf 0 "rate limited" [After 2000000000]) 0%nat)
             ≤ 2200000000.
Proof.
  apply (nextDelay_hint_floor demo_roll (New []) 0
    (Errorf 0 "rate limited" [After 2000000000]) 2000000000 0%nat demo_roll_range);
    [reflexivity|reflexivity|vm_compute; discriminate].
Defined.

Lemma nextDelay_linear_witness :
  let d := val (nextDelay demo_roll (New []) 1 ErrUnknown 0%nat) in
  0 ≤ d ∧ (d < 2000000000 ∨ 2000000000 ≤ 0 ∧ d = 0 ∨ d = 0).
Proof.
  apply (nextDelay_linear demo_roll (New []) 1 ErrUnknown 0%nat demo_roll_range);
    [discriminate|split; [discriminate|reflexivity]|split; vm_compute; discriminate].
Defined.

Lemma nextDelay_hint_wraps_witness :
  val (nextDelay demo_roll (New []) 0 (After MaxInt64) 0%nat) < 0.
Proof.
  apply (nextDelay_hint_wraps demo_roll (New []) 0 (After MaxInt64) MaxInt64 0%nat);
    [reflexivity|reflexivity|split; [reflexivity|discriminate]|reflexivity
    |split; [discriminate|reflexivity]|reflexivity].
Defined.
