(* ===== verification/KeyedMutex.v ===== *)
(** * kit.Mutex: the reference-counted keyed mutex (mutex.go)

    Any number of goroutines call [Lock] and [Unlock] concurrently, and one
    goroutine may hold any number of keys and lock further ones.  Each
    lock-protected section of the two methods is one transition of a shared
    state with an explicit heap of [keyMutex] objects, so that a goroutine that
    kept the pointer [m] after leaving the global section aliases the object
    even once its map entry is gone. *)
From S2P Require Export Prelude.
Local Open Scope Z_scope.

(** ** Data *)

(** [mu] tells whether the per-key [sync.Mutex] is locked. *)
Record keyMutex := { mu : bool; refcount : Z }.

(** [heap] holds every [keyMutex] ever allocated, a pointer is an index. *)
Record Mutex := {
  km_mu : bool;
  locks : gmap gostring nat;
  heap : list keyMutex;
}.

Definition NewMutex : Mutex := {| km_mu := false; locks := ∅; heap := [] |}.

Definition set_km_mu (b : bool) (m : Mutex) : Mutex :=
  {| km_mu := b; locks := locks m; heap := heap m |}.
Definition set_mu (b : bool) (o : keyMutex) : keyMutex :=
  {| mu := b; refcount := refcount o |}.
Definition add_refcount (d : Z) (o : keyMutex) : keyMutex :=
  {| mu := mu o; refcount := refcount o + d |}.
Definition upd (f : keyMutex → keyMutex) (p : nat) (m : Mutex) : Mutex :=
  {| km_mu := km_mu m; locks := locks m; heap := alter f p (heap m) |}.

(** ** The bodies of the two methods under [km.mu] *)

(** [Lock] between [km.mu.Lock()] and [km.mu.Unlock()]. *)
Definition lock_body (key : gostring) (m : Mutex) : nat * Mutex :=
  let '(p, m) :=
    match locks m !! key with
    | Some p => (p, m)
    | None =>
        let p := length (heap m) in
        (p, {| km_mu := km_mu m; locks := <[key := p]> (locks m);
               heap := heap m ++ [{| mu := false; refcount := 0 |}] |})
    end in
  (p, upd (add_refcount 1) p m).

(** [Unlock] between [km.mu.Lock()] and [km.mu.Unlock()]; [None] is the early
    return for a key with no entry. *)
Definition unlock_body (key : gostring) (m : Mutex) : option nat * Mutex :=
  match locks m !! key with
  | None => (None, m)
  | Some p =>
      let m := upd (add_refcount (-1)) p m in
      match heap m !! p with
      | Some o =>
          if decide (refcount o = 0)
          then (Some p, {| km_mu := km_mu m; locks := delete key (locks m); heap := heap m |})
          else (Some p, m)
      | None => (Some p, m)
      end
  end.

(** ** Goroutines *)

(** Where a goroutine is: in its own code, or at a program point of one of the
    two methods.  The pointer carried by [UlEnter] and [UlBody] is what the
    caller acquired: the code does not use it, the proofs do; [None] is a
    caller of [Unlock] that does not hold the key. *)
Inductive pc : Type :=
  | Running
  | LkEnter (key : gostring)
  | LkBody (key : gostring)
  | LkExit (key : gostring) (p : nat)
  | LkWait (key : gostring) (p : nat)
  | UlEnter (key : gostring) (own : option nat)
  | UlBody (key : gostring) (own : option nat)
  | UlMiss (key : gostring)
  | UlExit (key : gostring) (p : nat)
  | UlRelease (key : gostring) (p : nat).
#[export] Instance pc_eq_dec : EqDecision pc.
Proof. solve_decision. Defined.

(** [held]: the keys for which [Lock] returned and [Unlock] was not called
    yet, each with the object [Lock] locked.  The code keeps no such list; the
    discipline of the callers is about it. *)
Record goroutine := { at_pc : pc; held : list (gostring * nat) }.
#[export] Instance goroutine_eq_dec : EqDecision goroutine.
Proof. solve_decision. Defined.

Definition go (c : pc) (g : goroutine) : goroutine := {| at_pc := c; held := held g |}.
Definition idle : goroutine := {| at_pc := Running; held := [] |}.

(** The object of a held key and the other holdings. *)
Fixpoint take_held (key : gostring) (l : list (gostring * nat))
    : option (nat * list (gostring * nat)) :=
  match l with
  | [] => None
  | (k, p) :: l =>
      if decide (k = key) then Some (p, l)
      else '(q, l') ← take_held key l; Some (q, (k, p) :: l')
  end.

Inductive action : Type :=
  | CallLock (key : gostring)        (* whatever the goroutine holds already *)
  | CallUnlock (key : gostring)        (* of a key the goroutine holds *)
  | CallUnlockForeign (key : gostring) (* of a key it does not hold *)
  | Tau.                               (* the next step of the method *)

Definition foreign (a : action) : bool :=
  match a with CallUnlockForeign _ => true | _ => false end.

(** One step of one goroutine; [None] when it is blocked (or the action does
    not apply).  [m.mu.Unlock()] of an unlocked mutex is a fatal error, see
    [crashes]. *)
Definition exec (a : action) (g : goroutine) (m : Mutex) : option (goroutine * Mutex) :=
  match a, at_pc g with
  | CallLock key, Running => Some (go (LkEnter key) g, m)
  | CallUnlock key, Running =>
      '(p, l) ← take_held key (held g);
      Some ({| at_pc := UlEnter key (Some p); held := l |}, m)
  | CallUnlockForeign key, Running =>
      if decide (key ∈ (held g).*1) then None else Some (go (UlEnter key None) g, m)
  | Tau, LkEnter key => if km_mu m then None else Some (go (LkBody key) g, set_km_mu true m)
  | Tau, LkBody key => let '(p, m) := lock_body key m in Some (go (LkExit key p) g, m)
  | Tau, LkExit key p => Some (go (LkWait key p) g, set_km_mu false m)
  | Tau, LkWait key p =>
      match heap m !! p with
      | Some o =>
          if mu o then None
          else Some ({| at_pc := Running; held := (key, p) :: held g |}, upd (set_mu true) p m)
      | None => None
      end
  | Tau, UlEnter key own =>
      if km_mu m then None else Some (go (UlBody key own) g, set_km_mu true m)
  | Tau, UlBody key _ =>
      match unlock_body key m with
      | (Some p, m) => Some (go (UlExit key p) g, m)
      | (None, m) => Some (go (UlMiss key) g, m)
      end
  | Tau, UlMiss _ => Some (go Running g, set_km_mu false m)
  | Tau, UlExit key p => Some (go (UlRelease key p) g, set_km_mu false m)
  | Tau, UlRelease _ p =>
      match heap m !! p with
      | Some o => if mu o then Some (go Running g, upd (set_mu false) p m) else None
      | None => None
      end
  | _, _ => None
  end.

Record state := { mx : Mutex; procs : list goroutine }.

Definition exec_proc (i : nat) (a : action) (s : state) : option state :=
  g ← procs s !! i;
  '(g, m) ← exec a g (mx s);
  Some {| mx := m; procs := <[i := g]> (procs s) |}.

(** A schedule: which goroutine does what next. *)
Fixpoint run (sched : list (nat * action)) (s : state) : option state :=
  match sched with
  | [] => Some s
  | (i, a) :: sched => exec_proc i a s ≫= run sched
  end.

Definition init (n : nat) : state := {| mx := NewMutex; procs := replicate n idle |}.

(** Disciplined steps: a goroutine calls [Unlock] for keys it holds. *)
Definition step (s s' : state) : Prop :=
  ∃ i a, foreign a = false ∧ exec_proc i a s = Some s'.
Definition reachable (n : nat) (s : state) : Prop := rtc step (init n) s.

(** The runtime aborts the process ("unlock of unlocked mutex"). *)
Definition crashes (s : state) : Prop :=
  ∃ i g key p o, procs s !! i = Some g ∧ at_pc g = UlRelease key p
                 ∧ heap (mx s) !! p = Some o ∧ mu o = false.

(** ** The invariant *)

(** Inside a section protected by [km.mu]. *)
Definition crit (g : goroutine) : bool :=
  match at_pc g with
  | LkBody _ | LkExit _ _ | UlBody _ _ | UlMiss _ | UlExit _ _ => true
  | _ => false
  end.

(** The entries a goroutine waits for or holds: what [refcount] counts. *)
Definition uses_ref (c : pc) : option (gostring * nat) :=
  match c with
  | LkExit k p | LkWait k p | UlEnter k (Some p) | UlBody k (Some p) => Some (k, p)
  | _ => None
  end.
Definition uses_refs (g : goroutine) : list (gostring * nat) :=
  option_list (uses_ref (at_pc g)) ++ held g.

(** The objects whose [mu] a goroutine has locked. *)
Definition owns_ref (c : pc) : option (gostring * nat) :=
  match c with
  | UlEnter k (Some p) | UlBody k (Some p) | UlExit k p | UlRelease k p => Some (k, p)
  | _ => None
  end.
Definition owns_refs (g : goroutine) : list (gostring * nat) :=
  option_list (owns_ref (at_pc g)) ++ held g.

(** How often an object occurs among references. *)
Definition points (p : nat) (l : list (gostring * nat)) : Z :=
  cnt (λ r, bool_decide (r.2 = p)) l.
#[local] Arguments points : simpl never.
Definition uses (p : nat) (g : goroutine) : Z := points p (uses_refs g).
Definition owns (p : nat) (g : goroutine) : Z := points p (owns_refs g).

Definition disciplined (g : goroutine) : bool :=
  match at_pc g with UlEnter _ None | UlBody _ None | UlMiss _ => false | _ => true end.

Record inv (m : Mutex) (ps : list goroutine) : Prop := {
  inv_crit : cnt crit ps = Z.b2z (km_mu m);
  (** an entry's reference count is the number of its users, and positive *)
  inv_refs k p : locks m !! k = Some p →
    ∃ o, heap m !! p = Some o ∧ refcount o = total (uses p) ps ∧ 0 < refcount o;
  (** a user's pointer is the current entry of its key *)
  inv_uses i g k p : ps !! i = Some g → (k, p) ∈ uses_refs g → locks m !! k = Some p;
  (** a per-key mutex is locked exactly when somebody owns it *)
  inv_owns p :
    total (owns p) ps = match heap m !! p with Some o => Z.b2z (mu o) | None => 0 end;
  (** an owner's object serves no other key *)
  inv_key i g k p k' :
    ps !! i = Some g → (k, p) ∈ owns_refs g → locks m !! k' = Some p → k' = k;
  inv_inj k k' p : locks m !! k = Some p → locks m !! k' = Some p → k = k';
  inv_disc i g : ps !! i = Some g → disciplined g = true;
}.

(** *** Counting references *)

Lemma points_cons p k q l : points p ((k, q) :: l) = (if decide (q = p) then 1 else 0) + points p l.
Proof. unfold points. simpl. by case_bool_decide; case_decide. Qed.

Lemma points_nonneg p l : 0 ≤ points p l.
Proof. apply cnt_nonneg. Qed.

Lemma uses_nonneg p g : 0 ≤ uses p g.
Proof. apply points_nonneg. Qed.

Lemma owns_nonneg p g : 0 ≤ owns p g.
Proof. apply points_nonneg. Qed.
#[local] Hint Resolve uses_nonneg owns_nonneg : core.

Lemma uses_points p g l : uses_refs g = l → uses p g = points p l.
Proof. by intros <-. Qed.

Lemma points_elem k p l : (k, p) ∈ l → 1 ≤ points p l.
Proof. intros H. eapply cnt_elem; [exact H|]. by apply bool_decide_true. Qed.

Lemma points_pos p l : 0 < points p l → ∃ k, (k, p) ∈ l.
Proof. intros ([k q] & Hk & <-%bool_decide_eq_true)%cnt_pos_elem. by exists k. Qed.

#[export] Instance points_Permutation p : Proper ((≡ₚ) ==> (=)) (points p).
Proof. apply cnt_Permutation. Qed.

Lemma take_held_perm key l p l' : take_held key l = Some (p, l') → l ≡ₚ (key, p) :: l'.
Proof.
  revert p l'. induction l as [|[k q] l IH]; intros p l' H; simplify_eq/=.
  case_decide as Hk; simplify_eq; [done|].
  destruct (take_held key l) as [[q' l2]|]; simplify_eq/=.
  rewrite (IH _ _ eq_refl). apply Permutation_swap.
Qed.

Lemma take_held_elem key l : key ∈ l.*1 → is_Some (take_held key l).
Proof.
  induction l as [|[k q] l IH]; simpl; [by intros ?%not_elem_of_nil|].
  case_decide as Hk; [eauto|]. intros [->|H]%elem_of_cons; [done|].
  destruct (IH H) as [[q' l'] ->]. eauto.
Qed.

Lemma inv_init n : inv NewMutex (replicate n idle).
Proof.
  assert (∀ i c, replicate n idle !! i = Some c → c = idle) as Hidle.
  { intros i c [-> _]%lookup_replicate. done. }
  split; simpl.
  - apply cnt_zero. by intros i c ->%Hidle.
  - done.
  - by intros i c k p ->%Hidle ?%not_elem_of_nil.
  - intros [|p]; apply total_zero; by intros i c ->%Hidle.
  - by intros i c k p k' ->%Hidle.
  - done.
  - by intros i c ->%Hidle.
Qed.

(** *** Preservation *)

(** A goroutine other than the one that moved is where it was. *)
Ltac proc_cases H :=
  apply list_lookup_insert_Some in H as [(<- & <- & _)|(? & H)].

Section preservation.
Context (m : Mutex) (ps : list goroutine) (i : nat) (Hinv : inv m ps).

Lemma uses_insert_same g g' p :
  ps !! i = Some g → uses_refs g' ≡ₚ uses_refs g → total (uses p) (<[i := g']> ps) = total (uses p) ps.
Proof using Type.
  intros Hi Hu. eapply total_insert_same; [done|]. unfold uses. by rewrite Hu.
Qed.

Lemma owns_insert_same g g' p :
  ps !! i = Some g → owns_refs g' ≡ₚ owns_refs g → total (owns p) (<[i := g']> ps) = total (owns p) ps.
Proof using Type.
  intros Hi Hu. eapply total_insert_same; [done|]. unfold owns. by rewrite Hu.
Qed.

(** Steps that only move control: no entry, object or reference changes. *)
Lemma inv_control g g' b :
  ps !! i = Some g → uses_refs g' ≡ₚ uses_refs g → owns_refs g' ≡ₚ owns_refs g →
  disciplined g' = true →
  Z.b2z b - Z.b2z (km_mu m) = Z.b2z (crit g') - Z.b2z (crit g) →
  inv (set_km_mu b m) (<[i := g']> ps).
Proof using Hinv.
  intros Hi Hu Ho Hd Hb. destruct Hinv. split; simpl.
  - rewrite (cnt_insert _ _ _ _ _ Hi), inv_crit0. lia.
  - intros k p Hk. rewrite (uses_insert_same _ _ _ Hi Hu). eauto.
  - intros j d k p Hj Hd'. proc_cases Hj; [rewrite Hu in Hd'|]; eauto.
  - intros p. by rewrite (owns_insert_same _ _ _ Hi Ho).
  - intros j d k p k' Hj Hd' Hk'. proc_cases Hj; [rewrite Ho in Hd'|]; eauto.
  - eauto.
  - intros j d Hj. proc_cases Hj; eauto.
Qed.

(** [m.mu.Lock()] and [m.mu.Unlock()]: the mutex of one object changes with
    its owner. *)
Lemma inv_set_mu b g g' p o :
  ps !! i = Some g → heap m !! p = Some o →
  uses_refs g' ≡ₚ uses_refs g → crit g' = crit g → disciplined g' = true →
  (∀ q, owns q g' - owns q g = if decide (p = q) then Z.b2z b - Z.b2z (mu o) else 0) →
  (∀ k q k', (k, q) ∈ owns_refs g' → locks m !! k' = Some q → k' = k) →
  inv (upd (set_mu b) p m) (<[i := g']> ps).
Proof using Hinv.
  intros Hi Hp Hu Hc Hd Hown Hkey. destruct Hinv. split; simpl.
  - by rewrite (cnt_insert_same _ _ _ _ _ Hi).
  - intros k' q Hk. rewrite (uses_insert_same _ _ _ Hi Hu).
    destruct (inv_refs0 _ _ Hk) as (o' & Ho' & Hr & Hpos).
    rewrite list_lookup_alter. case_decide; [subst q|eauto].
    rewrite Ho'. by eexists.
  - intros j d k' q Hj Hd'. proc_cases Hj; [rewrite Hu in Hd'|]; eauto.
  - intros q. specialize (Hown q).
    rewrite (total_insert _ _ _ _ _ Hi), inv_owns0, list_lookup_alter.
    case_decide; [subst q; rewrite Hp in *; simpl|]; lia.
  - intros j d k1 q k' Hj Hd' Hk'. proc_cases Hj; eauto.
  - eauto.
  - intros j d Hj. proc_cases Hj; eauto.
Qed.

Lemma inv_acquire g k p o :
  ps !! i = Some g → at_pc g = LkWait k p → heap m !! p = Some o → mu o = false →
  inv (upd (set_mu true) p m) (<[i := {| at_pc := Running; held := (k, p) :: held g |}]> ps).
Proof using Hinv.
  intros Hi Hat Hp Hmu. eapply (inv_set_mu _ g); try done.
  - unfold uses_refs. by rewrite Hat.
  - unfold crit. by rewrite Hat.
  - intros q. rewrite Hmu. unfold owns, owns_refs. rewrite Hat. simpl. rewrite points_cons.
    case_decide; simpl; lia.
  - intros k1 q k' Hq Hk'. destruct Hinv. eapply inv_inj0; [exact Hk'|].
    eapply (inv_uses0 _ _ _ _ Hi). unfold uses_refs. by rewrite Hat.
Qed.

Lemma inv_release g k p o :
  ps !! i = Some g → at_pc g = UlRelease k p → heap m !! p = Some o → mu o = true →
  inv (upd (set_mu false) p m) (<[i := go Running g]> ps).
Proof using Hinv.
  intros Hi Hat Hp Hmu. eapply (inv_set_mu _ g); try done.
  - unfold uses_refs. by rewrite Hat.
  - unfold crit. by rewrite Hat.
  - intros q. rewrite Hmu. unfold owns, owns_refs. rewrite Hat. simpl. rewrite points_cons.
    case_decide; simpl; lia.
  - intros k1 q k' Hq Hk'. destruct Hinv. eapply (inv_key0 _ _ _ _ _ Hi); [|exact Hk'].
    unfold owns_refs. rewrite Hat. by apply elem_of_cons; right.
Qed.

(** [m.refcount += d] by a goroutine that starts ([d = 1]) or stops
    ([d = -1]) using the object, with owners unchanged. *)
Lemma inv_refcount d g g' k p :
  ps !! i = Some g → locks m !! k = Some p →
  owns_refs g' ≡ₚ owns_refs g → crit g' = crit g → disciplined g' = true →
  (∀ q, uses q g' - uses q g = if decide (p = q) then d else 0) →
  (∀ k' q, (k', q) ∈ uses_refs g' → locks m !! k' = Some q) →
  0 < total (uses p) (<[i := g']> ps) →
  inv (upd (add_refcount d) p m) (<[i := g']> ps).
Proof using Hinv.
  intros Hi Hk Ho Hc Hd Huse Hcur Hpos. destruct Hinv. split; simpl.
  - by rewrite (cnt_insert_same _ _ _ _ _ Hi).
  - intros k' q Hk'. destruct (inv_refs0 _ _ Hk') as (o & Ho' & Hr & Hpos').
    specialize (Huse q). rewrite (total_insert _ _ _ _ _ Hi), list_lookup_alter.
    rewrite (total_insert _ _ _ _ _ Hi) in Hpos.
    case_decide; [subst q; rewrite Ho'; eexists; split; [done|simpl; lia]|].
    exists o. split_and!; [done|lia..].
  - intros j e k' q Hj He. proc_cases Hj; eauto.
  - intros q. rewrite (owns_insert_same _ _ _ Hi Ho), inv_owns0, list_lookup_alter.
    case_decide; [subst q|done]. by destruct (heap m !! p).
  - intros j e k1 q k' Hj He Hk'. proc_cases Hj; [rewrite Ho in He|]; eauto.
  - eauto.
  - intros j e Hj. proc_cases Hj; eauto.
Qed.

(** [Lock] of a key without an entry: a fresh object with one user. *)
Lemma inv_alloc g k :
  ps !! i = Some g → at_pc g = LkBody k → locks m !! k = None →
  let p := length (heap m) in
  inv (upd (add_refcount 1) p
         {| km_mu := km_mu m; locks := <[k := p]> (locks m);
            heap := heap m ++ [{| mu := false; refcount := 0 |}] |})
      (<[i := go (LkExit k p) g]> ps).
Proof using Hinv.
  intros Hi Hat Hk p. destruct Hinv.
  assert (heap m !! p = None) as Hp by (by apply lookup_ge_None).
  assert (∀ k', locks m !! k' ≠ Some p) as Hfresh.
  { intros k' Hk'. destruct (inv_refs0 _ _ Hk') as (o & Ho & _). by rewrite Hp in Ho. }
  assert (total (uses p) ps = 0) as Hnouse.
  { apply total_zero. intros j d Hj. destruct (decide (uses p d = 0)) as [|Hne]; [done|].
    destruct (points_pos p (uses_refs d)) as [k' Hk']; [pose proof (uses_nonneg p d); unfold uses in *; lia|].
    by edestruct Hfresh; eapply inv_uses0. }
  assert (alter (add_refcount 1) p (heap m ++ [{| mu := false; refcount := 0 |}])
          = heap m ++ [{| mu := false; refcount := 1 |}]) as Hheap.
  { unfold p. rewrite alter_app_r_alt, Nat.sub_diag by done. done. }
  assert (uses_refs (go (LkExit k p) g) = (k, p) :: held g) as Hu' by done.
  assert (uses_refs g = held g) as Hu by (unfold uses_refs; by rewrite Hat).
  assert (owns_refs (go (LkExit k p) g) ≡ₚ owns_refs g) as Ho by (unfold owns_refs; by rewrite Hat).
  unfold upd; simpl. rewrite Hheap. split; simpl.
  - rewrite (cnt_insert_same _ _ _ _ _ Hi); [done|]. unfold crit. by rewrite Hat.
  - intros k' q. rewrite lookup_insert_Some, (total_insert _ _ _ _ _ Hi).
    rewrite (uses_points _ _ _ Hu'), (uses_points _ _ _ Hu), points_cons. intros [[<- <-]|[Hne Hk']].
    + rewrite decide_True, Hnouse, lookup_app_r, Nat.sub_diag by done.
      eexists. split; [done|]. simpl. lia.
    + destruct (inv_refs0 _ _ Hk') as (o & Ho' & Hr & Hpos).
      rewrite decide_False by congruence. rewrite lookup_app_l by (by eapply lookup_lt_Some).
      exists o. simpl. split_and!; [done|lia..].
  - assert (∀ k' q, locks m !! k' = Some q → <[k:=p]> (locks m) !! k' = Some q) as Hmono.
    { intros k' q Hq. rewrite lookup_insert_ne; [done|congruence]. }
    intros j d k' q Hj Hd. proc_cases Hj; [|by eauto].
    rewrite Hu' in Hd. apply elem_of_cons in Hd as [[= -> ->]|Hd]; [apply lookup_insert_eq|].
    apply Hmono, (inv_uses0 _ _ _ _ Hi). by rewrite Hu.
  - intros q. rewrite (owns_insert_same _ _ _ Hi Ho), inv_owns0 by done.
    destruct (decide (q < length (heap m))%nat); [by rewrite lookup_app_l|].
    rewrite (lookup_ge_None_2 (heap m)), lookup_app_r by lia.
    by destruct (q - length (heap m))%nat as [|[|?]].
  - assert (∀ d k1, d ∈ ps → (k1, p) ∉ owns_refs d) as Hnoown.
    { intros d k1 [j Hj]%list_elem_of_lookup H%points_elem.
      pose proof (total_ge (owns p) (owns_nonneg p) _ _ _ Hj) as H2. unfold owns at 1 in H2.
      rewrite inv_owns0, Hp in H2. lia. }
    intros j d k1 q k' Hj Hd. rewrite lookup_insert_Some.
    proc_cases Hj; [rewrite Ho in Hd|]; (intros [[<- <-]|[_ Hk']]; [|by eauto]);
      (exfalso; eapply Hnoown; [|exact Hd]; apply list_elem_of_lookup; eauto).
  - intros k1 k2 q. rewrite !lookup_insert_Some.
    intros [[<- <-]|[? ?]] [[<- ?]|[? ?]]; naive_solver.
  - intros j d Hj. proc_cases Hj; eauto.
Qed.

(** [Unlock] by the last user: the entry goes. *)
Lemma inv_delete g k p o :
  ps !! i = Some g → at_pc g = UlBody k (Some p) → locks m !! k = Some p →
  heap m !! p = Some o →
  total (uses p) (<[i := go (UlExit k p) g]> ps) = 0 →
  inv {| km_mu := km_mu m; locks := delete k (locks m);
         heap := alter (add_refcount (-1)) p (heap m) |} (<[i := go (UlExit k p) g]> ps).
Proof using Hinv.
  intros Hi Hat Hk Ho Hcnt. destruct Hinv.
  assert (uses_refs g = (k, p) :: held g) as Hu by (unfold uses_refs; by rewrite Hat).
  assert (owns_refs (go (UlExit k p) g) ≡ₚ owns_refs g) as Hown by (unfold owns_refs; by rewrite Hat).
  assert (∀ j d q, <[i := go (UlExit k p) g]> ps !! j = Some d → (k, q) ∈ uses_refs d →
            locks m !! k ≠ Some q) as Hgone.
  { intros j d q Hj Hd Hq. rewrite Hk in Hq. injection Hq as <-. apply points_elem in Hd.
    pose proof (total_ge (uses p) (uses_nonneg p) _ _ _ Hj). unfold uses in *. lia. }
  split; simpl.
  - rewrite (cnt_insert_same _ _ _ _ _ Hi); [done|]. unfold crit. by rewrite Hat.
  - intros k' q [Hne Hk']%lookup_delete_Some.
    destruct (inv_refs0 _ _ Hk') as (o' & Ho' & Hr & Hpos).
    assert (p ≠ q) by (intros ->; eauto).
    rewrite list_lookup_alter_ne by done. rewrite (total_insert_same _ _ _ _ _ Hi); [by eauto|].
    unfold uses. rewrite Hu, points_cons, decide_False by done. done.
  - intros j d k' q Hj Hd. rewrite lookup_delete_Some.
    assert (locks m !! k' = Some q) as Hq.
    { assert (Hj' := Hj). proc_cases Hj; [|by eauto].
      apply (inv_uses0 _ _ _ _ Hi). rewrite Hu. by apply elem_of_cons; right. }
    split; [|done]. intros ->. by eapply Hgone.
  - intros q. rewrite (owns_insert_same _ _ _ Hi Hown), inv_owns0, list_lookup_alter.
    case_decide; [subst q|done]. by destruct (heap m !! p).
  - intros j d k1 q k' Hj Hd [_ Hk']%lookup_delete_Some.
    proc_cases Hj; [rewrite Hown in Hd|]; eauto.
  - intros k1 k2 q [_ H1]%lookup_delete_Some [_ H2]%lookup_delete_Some. eauto.
  - intros j d Hj. proc_cases Hj; eauto.
Qed.

Lemma inv_lock_body g k p m' :
  ps !! i = Some g → at_pc g = LkBody k → lock_body k m = (p, m') →
  inv m' (<[i := go (LkExit k p) g]> ps).
Proof using Hinv.
  intros Hi Hat. unfold lock_body.
  destruct (locks m !! k) as [q|] eqn:Hk; intros [= <- <-]; [|by apply inv_alloc].
  assert (uses_refs g = held g) as Hu by (unfold uses_refs; by rewrite Hat).
  apply (inv_refcount 1 g _ k q); try done.
  - unfold owns_refs. by rewrite Hat.
  - unfold crit. by rewrite Hat.
  - intros q'. unfold uses. rewrite Hu. unfold uses_refs. simpl. rewrite points_cons.
    case_decide; lia.
  - intros k' q' [[= -> ->]|Hq]%elem_of_cons; [done|].
    apply (inv_uses _ _ Hinv _ _ _ _ Hi). by rewrite Hu.
  - rewrite (total_insert _ _ _ _ _ Hi), (uses_points _ _ _ Hu).
    rewrite (uses_points q _ ((k, q) :: held g)), points_cons, decide_True by done.
    pose proof (total_nonneg (uses q) (uses_nonneg q) ps). lia.
Qed.

Lemma inv_unlock_body g k p own m' :
  ps !! i = Some g → at_pc g = UlBody k own → unlock_body k m = (Some p, m') →
  inv m' (<[i := go (UlExit k p) g]> ps).
Proof using Hinv.
  intros Hi Hat. unfold unlock_body.
  destruct (locks m !! k) as [q|] eqn:Hk; [|done].
  pose proof (inv_disc _ _ Hinv _ _ Hi) as Hd. unfold disciplined in Hd. rewrite Hat in Hd.
  destruct own as [q'|]; [clear Hd|done].
  assert (uses_refs g = (k, q') :: held g) as Hu by (unfold uses_refs; by rewrite Hat).
  assert (∀ k' r, (k', r) ∈ (k, q') :: held g → locks m !! k' = Some r) as Huses.
  { intros k' r Hr. apply (inv_uses _ _ Hinv _ _ _ _ Hi). by rewrite Hu. }
  pose proof (Huses k q' ltac:(by left)) as Hk'.
  rewrite Hk in Hk'. injection Hk' as <-.
  destruct (inv_refs _ _ Hinv _ _ Hk) as (o & Ho & Hr & Hpos).
  simpl heap. rewrite list_lookup_alter_eq, Ho. simpl.
  assert (∀ r, uses r (go (UlExit k q) g) - uses r g = if decide (q = r) then -1 else 0) as Hd.
  { intros r. unfold uses. rewrite Hu, points_cons. unfold uses_refs. simpl. case_decide; lia. }
  assert (total (uses q) (<[i := go (UlExit k q) g]> ps) = refcount o - 1) as Hcnt.
  { specialize (Hd q). rewrite decide_True in Hd by done.
    rewrite (total_insert _ _ _ _ _ Hi). lia. }
  case_decide as Hz; intros [= <- <-].
  - apply (inv_delete g k q o); try done. lia.
  - apply (inv_refcount (-1) g _ k q); try done; [| | |lia].
    + unfold owns_refs. by rewrite Hat.
    + unfold crit. by rewrite Hat.
    + intros k' r Hk'. apply Huses. by apply elem_of_cons; right.
Qed.
End preservation.

Lemma crit_locked m ps i g :
  inv m ps → ps !! i = Some g → crit g = true → km_mu m = true.
Proof.
  intros Hinv Hi Hc. pose proof (cnt_ge_1 _ _ _ _ Hi Hc) as H.
  rewrite (inv_crit _ _ Hinv) in H. by destruct (km_mu m).
Qed.

(** The steps that touch neither the map nor an object. *)
Ltac control Hinv Hi :=
  apply (inv_control _ _ _ Hinv _ _ _ Hi); try done.

Lemma inv_exec m ps i a g g' m' :
  inv m ps → foreign a = false → ps !! i = Some g → exec a g m = Some (g', m') →
  inv m' (<[i := g']> ps).
Proof.
  intros Hinv Ha Hi Hexec. destruct g as [c hs].
  assert (Hd := inv_disc _ _ Hinv _ _ Hi).
  assert (∀ g', uses_refs g' ≡ₚ uses_refs {| at_pc := c; held := hs |} →
    owns_refs g' ≡ₚ owns_refs {| at_pc := c; held := hs |} → disciplined g' = true →
    crit g' = crit {| at_pc := c; held := hs |} → inv m (<[i := g']> ps)) as Hquiet.
  { intros d Hu Ho Hdd Hc. destruct m as [b ls h]. control Hinv Hi. simpl. rewrite Hc. lia. }
  destruct a, c; try discriminate; simpl in Hexec.
  - injection Hexec as <- <-. by apply Hquiet.
  - destruct (take_held key hs) as [[p l]|] eqn:Hl; simplify_eq/=.
    apply take_held_perm in Hl. by apply Hquiet.
  - destruct (km_mu m) eqn:Hm; [done|]. injection Hexec as <- <-.
    control Hinv Hi. by rewrite Hm.
  - destruct (lock_body key m) as [p m1] eqn:Hb. injection Hexec as <- <-.
    by eapply inv_lock_body.
  - injection Hexec as <- <-. control Hinv Hi. by rewrite (crit_locked _ _ _ _ Hinv Hi eq_refl).
  - destruct (heap m !! p) as [o|] eqn:Hp; [|done]. destruct (mu o) eqn:Hmu; [done|].
    injection Hexec as <- <-. by eapply (inv_acquire _ _ _ Hinv _ _ _ _ Hi).
  - destruct (km_mu m) eqn:Hm; [done|]. injection Hexec as <- <-.
    control Hinv Hi; [by destruct own..|by rewrite Hm].
  - destruct (unlock_body key m) as [[p|] m1] eqn:Hb; injection Hexec as <- <-.
    + by eapply inv_unlock_body.
    + destruct own as [p|]; [|done]. unfold unlock_body in Hb.
      rewrite (inv_uses _ _ Hinv _ _ key p Hi ltac:(by left)) in Hb. by repeat case_match.
  - injection Hexec as <- <-. control Hinv Hi. by rewrite (crit_locked _ _ _ _ Hinv Hi eq_refl).
  - destruct (heap m !! p) as [o|] eqn:Hp; [|done]. destruct (mu o) eqn:Hmu; [|done].
    injection Hexec as <- <-. by eapply (inv_release _ _ _ Hinv _ _ _ _ Hi).
Qed.

Lemma reachable_ind n (P : state → Prop) :
  P (init n) →
  (∀ s s' i a, P s → foreign a = false → exec_proc i a s = Some s' → P s') →
  ∀ s, reachable n s → P s.
Proof.
  intros H0 Hstep s Hr. unfold reachable in Hr. revert s Hr.
  apply rtc_ind_r; [done|]. intros s s' _ (i & a & Ha & He) IH. by eapply Hstep.
Qed.

Lemma reachable_inv n s : reachable n s → inv (mx s) (procs s).
Proof.
  apply (reachable_ind n (λ s, inv (mx s) (procs s))); [apply inv_init|].
  clear s. intros s s' i a Hinv Ha Hstep. unfold exec_proc in Hstep.
  destruct (procs s !! i) as [c|] eqn:Hi; [|done]. cbn in Hstep.
  destruct (exec a c (mx s)) as [[c' m']|] eqn:He; [|done]. injection Hstep as <-.
  by eapply inv_exec.
Qed.

Lemma reachable_length n s : reachable n s → length (procs s) = n.
Proof.
  apply (reachable_ind n (λ s, length (procs s) = n)); [apply length_replicate|].
  clear s. intros s s' i a IH _ Hstep. unfold exec_proc in Hstep. apply bind_Some in Hstep as (c & _ & Hstep).
  apply bind_Some in Hstep as ([c' m'] & _ & [= <-]). simpl. by rewrite length_insert.
Qed.

Lemma exec_proc_Some i a c c' m' s :
  procs s !! i = Some c → exec a c (mx s) = Some (c', m') →
  exec_proc i a s = Some {| mx := m'; procs := <[i := c']> (procs s) |}.
Proof. intros Hi He. unfold exec_proc. rewrite Hi. cbn. by rewrite He. Qed.

(** An owned object exists and is locked. *)
Lemma owned_locked m ps i g k p :
  inv m ps → ps !! i = Some g → (k, p) ∈ owns_refs g →
  ∃ o, heap m !! p = Some o ∧ mu o = true.
Proof.
  intros Hinv Hi Ho%points_elem.
  pose proof (total_ge (owns p) (owns_nonneg p) _ _ _ Hi) as H1. unfold owns at 1 in H1.
  rewrite (inv_owns _ _ Hinv) in H1.
  destruct (heap m !! p) as [o|]; [|lia]. exists o. destruct (mu o); [done|simpl in H1; lia].
Qed.

Lemma locked_owned m ps p o :
  inv m ps → heap m !! p = Some o → mu o = true →
  ∃ j g k, ps !! j = Some g ∧ (k, p) ∈ owns_refs g.
Proof.
  intros Hinv Hp Hmu. pose proof (inv_owns _ _ Hinv p) as Hc. rewrite Hp, Hmu in Hc.
  destruct (total_pos_inv (owns p) (owns_nonneg p) ps) as (j & g & Hj & Ho); [simpl in Hc; lia|].
  apply points_pos in Ho as [k Hk]. by exists j, g, k.
Qed.

(** One object has one owner, which owns it once. *)
Lemma owned_once m ps i j gi gj k p :
  inv m ps → ps !! i = Some gi → ps !! j = Some gj →
  (k, p) ∈ owns_refs gi → (k, p) ∈ owns_refs gj → i = j.
Proof.
  intros Hinv Hi Hj H1%points_elem H2%points_elem.
  destruct (decide (i = j)) as [|Hij]; [done|].
  pose proof (total_ge_2 (owns p) (owns_nonneg p) _ _ _ _ _ Hi Hj Hij) as H.
  unfold owns at 1 2 in H. rewrite (inv_owns _ _ Hinv) in H.
  destruct (heap m !! p) as [o|]; [destruct (mu o)|]; simpl in H; lia.
Qed.

Lemma owns_le_1 m ps i g p : inv m ps → ps !! i = Some g → points p (owns_refs g) ≤ 1.
Proof.
  intros Hinv Hi. pose proof (total_ge (owns p) (owns_nonneg p) _ _ _ Hi) as H1.
  unfold owns at 1 in H1. rewrite (inv_owns _ _ Hinv) in H1.
  destruct (heap m !! p) as [o|]; [destruct (mu o)|]; simpl in H1; lia.
Qed.

(** References that agree with the map and occur once have distinct keys. *)
Lemma refs_NoDup (ls : gmap gostring nat) l :
  (∀ k p, (k, p) ∈ l → ls !! k = Some p) → (∀ p, points p l ≤ 1) → NoDup l.*1.
Proof.
  induction l as [|[k p] l IH]; intros Hl Hp; simpl; constructor.
  - intros ([k' q] & -> & Hq)%list_elem_of_fmap. simpl in *.
    pose proof (Hl k' p ltac:(by left)). pose proof (Hl k' q ltac:(by right)).
    assert (q = p) as -> by congruence. specialize (Hp p). rewrite points_cons, decide_True in Hp by done.
    apply points_elem in Hq. lia.
  - apply IH; [intros k' q Hq; apply Hl; by right|].
    intros q. specialize (Hp q). rewrite points_cons in Hp. case_decide; lia.
Qed.

(** One goroutine running alone. *)
Fixpoint solo (acts : list action) (c : goroutine) (m : Mutex) : option (goroutine * Mutex) :=
  match acts with
  | [] => Some (c, m)
  | a :: acts => '(c, m) ← exec a c m; solo acts c m
  end.

Lemma run_solo i acts s c c' m' :
  procs s !! i = Some c → solo acts c (mx s) = Some (c', m') →
  run (map (i,.) acts) s = Some {| mx := m'; procs := <[i := c']> (procs s) |}.
Proof.
  revert s c. induction acts as [|a acts IH]; intros s c Hi Hsolo; cbn in *.
  - injection Hsolo as <- <-. rewrite list_insert_id by done. by destruct s.
  - apply bind_Some in Hsolo as ([d m] & Hd & Hsolo).
    rewrite (exec_proc_Some _ _ _ _ _ _ Hi Hd). cbn. erewrite IH; [|cbn|exact Hsolo].
    + cbn. by rewrite list_insert_insert_eq.
    + apply list_lookup_insert_eq. by eapply lookup_lt_Some.
Qed.

(** A goroutine inside a method is stuck only in a [Lock] of the standard
    library's mutex. *)
Lemma stuck_shape m ps i g :
  inv m ps → ps !! i = Some g → at_pc g ≠ Running → exec Tau g m = None →
  (km_mu m = true ∧ crit g = false ∧ ∀ k p, at_pc g ≠ LkWait k p)
  ∨ (∃ k p o, at_pc g = LkWait k p ∧ heap m !! p = Some o ∧ mu o = true).
Proof.
  intros Hinv Hi Hne He. destruct g as [c hs]; destruct c; simpl in He; try done.
  - destruct (km_mu m); [by left|done].
  - by destruct (lock_body key m).
  - right. destruct (inv_refs _ _ Hinv key p) as (o & Ho & _).
    { apply (inv_uses _ _ Hinv _ _ _ _ Hi). by left. }
    rewrite Ho in He. destruct (mu o) eqn:Hmu; [|done]. by eexists _, _, _.
  - destruct (km_mu m); [by left|done].
  - destruct (unlock_body key m) as [[?|] ?]; done.
  - destruct (owned_locked _ _ _ _ key p Hinv Hi ltac:(by left)) as (o & Ho & Hmu).
    by rewrite Ho, Hmu in He.
Qed.

(** Every entry has a user. *)
Lemma entry_user m ps k p :
  inv m ps → locks m !! k = Some p →
  ∃ i g q, ps !! i = Some g ∧ (k, q) ∈ uses_refs g.
Proof.
  intros Hinv Hk. destruct (inv_refs _ _ Hinv _ _ Hk) as (o & _ & Hc & Hpos).
  destruct (total_pos_inv (uses p) (uses_nonneg p) ps) as (i & g & Hi & Hu); [lia|].
  apply points_pos in Hu as [k' Hk']. exists i, g, p. split; [done|].
  replace k with k'; [done|].
  eapply (inv_inj _ _ Hinv); [by eapply inv_uses|done].
Qed.

Lemma idle_empty m ps :
  inv m ps → (∀ i g, ps !! i = Some g → g = idle) → locks m = ∅.
Proof.
  intros Hinv Hidle. apply map_eq. intros k. rewrite lookup_empty.
  apply eq_None_not_Some. intros [p Hk].
  destruct (entry_user _ _ _ _ Hinv Hk) as (i & g & q & Hi & Hu).
  rewrite (Hidle _ _ Hi) in Hu. by apply elem_of_nil in Hu.
Qed.

(** A goroutine counts twice for an object only when it waits for a key it
    holds. *)
Lemma uses_le_held p g : uses p g ≤ points p (held g) + 1.
Proof.
  unfold uses, uses_refs. destruct (uses_ref (at_pc g)) as [[k q]|]; simpl;
    [rewrite points_cons; case_decide|]; lia.
Qed.

Lemma held_le_owns p g : points p (held g) ≤ owns p g.
Proof.
  unfold owns, owns_refs. destruct (owns_ref (at_pc g)) as [[k q]|]; simpl;
    [rewrite points_cons; case_decide|]; lia.
Qed.

Lemma users_bound m ps p : inv m ps → total (uses p) ps ≤ Z.of_nat (length ps) + 1.
Proof.
  intros Hinv.
  assert (total (uses p) ps ≤ total (λ g, owns p g + 1) ps) as H.
  { apply total_le. intros i g _. pose proof (uses_le_held p g). pose proof (held_le_owns p g). lia. }
  rewrite total_plus, total_const, (inv_owns _ _ Hinv) in H.
  destruct (heap m !! p) as [o|]; [destruct (mu o)|]; simpl in H; lia.
Qed.

(** Waiting for a key one holds: [sync.Mutex] is not reentrant. *)
Definition relocks (g : goroutine) : bool :=
  match uses_ref (at_pc g) with
  | Some r => bool_decide (r ∈ held g)
  | None => false
  end.

Lemma users_bound_strict m ps p :
  inv m ps → (∀ i g, ps !! i = Some g → relocks g = false) →
  total (uses p) ps ≤ Z.of_nat (length ps).
Proof.
  intros Hinv Hre. replace (Z.of_nat (length ps)) with (total (λ _, 1) ps) by (rewrite total_const; lia).
  apply total_le. intros i g Hi. specialize (Hre _ _ Hi).
  pose proof (owns_le_1 _ _ _ _ p Hinv Hi) as H1. pose proof (held_le_owns p g) as H2.
  unfold relocks in Hre. unfold uses, owns, uses_refs in *.
  destruct (uses_ref (at_pc g)) as [[k q]|] eqn:Hu; simpl; [|lia].
  apply bool_decide_eq_false in Hre. rewrite points_cons. case_decide as Hq; [subst q|lia].
  destruct (decide (0 < points p (held g))) as [[k' Hk']%points_pos|]; [|lia].
  exfalso. apply Hre. replace k with k'; [done|]. eapply (inv_inj _ _ Hinv).
  - apply (inv_uses _ _ Hinv _ _ _ _ Hi). unfold uses_refs. rewrite Hu. by right.
  - apply (inv_uses _ _ Hinv _ _ _ _ Hi). unfold uses_refs. rewrite Hu. by left.
Qed.

(** If no goroutine inside a method can take a step, then every goroutine is
    in its own code or waits, in [Lock], for a key that some goroutine holds. *)
Lemma stuck_states m ps :
  inv m ps → (∀ i g, ps !! i = Some g → exec Tau g m = None) →
  ∀ i g, ps !! i = Some g →
    at_pc g = Running
    ∨ ∃ k p j gj, at_pc g = LkWait k p ∧ ps !! j = Some gj ∧ (k, p) ∈ held gj.
Proof.
  intros Hinv Hstuck.
  assert (km_mu m = false) as Hkm.
  { destruct (km_mu m) eqn:Hkm; [|done]. exfalso.
    pose proof (inv_crit _ _ Hinv) as Hc. rewrite Hkm in Hc.
    destruct (cnt_pos_inv crit ps) as (i & g & Hi & Hcrit); [simpl in Hc; lia|].
    destruct (stuck_shape _ _ _ _ Hinv Hi) as [(_ & ? & _)|(?&?&?&Hat&_)];
      [|by eapply Hstuck|congruence|]; [|unfold crit in Hcrit; by rewrite Hat in Hcrit].
    intros Hat. unfold crit in Hcrit. by rewrite Hat in Hcrit. }
  intros i g Hi. destruct (decide (at_pc g = Running)) as [|Hne]; [by left|right].
  destruct (stuck_shape _ _ _ _ Hinv Hi Hne (Hstuck _ _ Hi)) as [(? & _)|(k & p & o & Hat & Hp & Hmu)];
    [congruence|].
  destruct (locked_owned _ _ _ _ Hinv Hp Hmu) as (j & gj & k' & Hj & Hd).
  assert (locks m !! k = Some p) as Hk.
  { apply (inv_uses _ _ Hinv _ _ _ _ Hi). unfold uses_refs. rewrite Hat. by left. }
  pose proof (inv_key _ _ Hinv _ _ _ _ _ Hj Hd Hk) as <-.
  exists k, p, j, gj. split_and!; [done..|].
  unfold owns_refs in Hd. destruct (decide (at_pc gj = Running)) as [Hr|Hr].
  { by rewrite Hr in Hd. }
  destruct (stuck_shape _ _ _ _ Hinv Hj Hr (Hstuck _ _ Hj)) as [(? & _)|(? & ? & ? & Hw & _)];
    [congruence|]. by rewrite Hw in Hd.
Qed.

(** ** Programs

    The rest of what a goroutine does with the mutex: a list of calls, made in
    order, each from the goroutine's own code once the previous one returned. *)
Inductive op : Type :=
  | OpLock (key : gostring)
  | OpUnlock (key : gostring).

Definition call_of (o : op) : action :=
  match o with OpLock key => CallLock key | OpUnlock key => CallUnlock key end.

Record threads := { sys : state; progs : list (list op) }.

(** The next step of goroutine [i], if it has one and is not blocked. *)
Definition tstep (i : nat) (t : threads) : option threads :=
  g ← procs (sys t) !! i;
  prog ← progs t !! i;
  match at_pc g, prog with
  | Running, [] => None
  | Running, o :: prog =>
      s ← exec_proc i (call_of o) (sys t);
      Some {| sys := s; progs := <[i := prog]> (progs t) |}
  | _, _ =>
      s ← exec_proc i Tau (sys t);
      Some {| sys := s; progs := progs t |}
  end.

Fixpoint trun (sched : list nat) (t : threads) : option threads :=
  match sched with
  | [] => Some t
  | i :: sched => tstep i t ≫= trun sched
  end.

Definition tinit (ps : list (list op)) : threads :=
  {| sys := init (length ps); progs := ps |}.

(** Drops the most recent holding of a key. *)
Fixpoint drop_key (key : gostring) (hs : list gostring) : list gostring :=
  match hs with
  | [] => []
  | k :: hs => if decide (k = key) then hs else k :: drop_key key hs
  end.

(** The callers' discipline: a goroutine that holds [hs] locks only keys of a
    rank above the keys it holds, unlocks only keys it holds, and returns
    every key in the end. *)
Fixpoint ordered (rank : gostring → nat) (hs : list gostring) (prog : list op) : bool :=
  match prog with
  | [] => bool_decide (hs = [])
  | OpLock k :: prog =>
      forallb (λ h, bool_decide (rank h < rank k)%nat) hs && ordered rank (k :: hs) prog
  | OpUnlock k :: prog => bool_decide (k ∈ hs) && ordered rank (drop_key k hs) prog
  end.

(** The key a goroutine inside [Lock] is about to hold. *)
Definition locking (c : pc) : option gostring :=
  match c with
  | LkEnter k | LkBody k | LkExit k _ | LkWait k _ => Some k
  | _ => None
  end.

(** A call of [Lock] under way counts as not made yet. *)
Definition todo (g : goroutine) (prog : list op) : list op :=
  match locking (at_pc g) with Some k => OpLock k :: prog | None => prog end.

(** How many steps a call under way still takes. *)
Definition steps_left (c : pc) : nat :=
  match c with
  | Running => 0
  | LkWait _ _ | UlRelease _ _ | UlMiss _ => 1
  | LkExit _ _ | UlExit _ _ => 2
  | LkBody _ | UlBody _ _ => 3
  | LkEnter _ | UlEnter _ _ => 4
  end.
Definition work_left (t : threads) : nat :=
  sum_list_with (λ g, steps_left (at_pc g)) (procs (sys t))
  + sum_list_with (λ prog, 5 * length prog)%nat (progs t).

Record twf (rank : gostring → nat) (n : nat) (t : threads) : Prop := {
  twf_reach : reachable n (sys t);
  twf_length : length (progs t) = n;
  twf_ordered i g prog :
    procs (sys t) !! i = Some g → progs t !! i = Some prog →
    ordered rank (held g).*1 (todo g prog) = true;
}.

Lemma take_held_keys key l p l' : take_held key l = Some (p, l') → l'.*1 = drop_key key l.*1.
Proof.
  revert p l'. induction l as [|[k q] l IH]; intros p l' H; simplify_eq/=.
  case_decide; simplify_eq; [done|].
  destruct (take_held key l) as [[q' l2]|]; simplify_eq/=. f_equal. by eapply IH.
Qed.

(** A step of a method leaves what the goroutine has to do as it was, up to a
    [Lock] that returns. *)
Lemma exec_todo rank a g g' m m' prog prog' :
  exec a g m = Some (g', m') →
  (a = Tau ∧ at_pc g ≠ Running ∧ prog = prog')
  ∨ (at_pc g = Running ∧ ∃ o, a = call_of o ∧ prog = o :: prog') →
  ordered rank (held g).*1 (todo g prog) = true →
  ordered rank (held g').*1 (todo g' prog') = true
  ∧ (steps_left (at_pc g') + 5 * length prog' < steps_left (at_pc g) + 5 * length prog)%nat.
Proof.
  destruct g as [c hs]. intros He [(-> & Hne & ->)|(Hat & o & -> & ->)] Ho; simpl in *.
  - destruct c; try done; simpl in He; repeat case_match; simplify_eq;
      unfold todo in *; cbn in *; (split; [|lia]); try done.
    by apply andb_true_iff in Ho as [_ Ho].
  - subst c. destruct o as [k|k]; simpl in *; [by simplify_eq/=; split; [|lia]|].
    destruct (take_held k hs) as [[p l]|] eqn:Hl; simplify_eq/=.
    split; [|lia]. apply andb_true_iff in Ho as [_ Ho].
    unfold todo. simpl. by rewrite (take_held_keys _ _ _ _ Hl).
Qed.

Lemma exec_proc_inv i a s s' :
  exec_proc i a s = Some s' →
  ∃ g g' m, procs s !! i = Some g ∧ exec a g (mx s) = Some (g', m)
            ∧ s' = {| mx := m; procs := <[i := g']> (procs s) |}.
Proof.
  unfold exec_proc. intros (g & Hg & H)%bind_Some.
  apply bind_Some in H as ([g' m] & He & [= <-]). by exists g, g', m.
Qed.

(** A step of a goroutine: the call it makes or the next step of the one under
    way, with its program. *)
Lemma tstep_inv i t t' :
  tstep i t = Some t' →
  ∃ a g g' m prog prog',
    procs (sys t) !! i = Some g ∧ progs t !! i = Some prog
    ∧ exec a g (mx (sys t)) = Some (g', m)
    ∧ ((a = Tau ∧ at_pc g ≠ Running ∧ prog = prog')
       ∨ (at_pc g = Running ∧ ∃ o, a = call_of o ∧ prog = o :: prog'))
    ∧ sys t' = {| mx := m; procs := <[i := g']> (procs (sys t)) |}
    ∧ progs t' = <[i := prog']> (progs t) ∧ foreign a = false.
Proof.
  unfold tstep. intros (g & Hg & H)%bind_Some. apply bind_Some in H as (prog & Hp & H).
  destruct (decide (at_pc g = Running)) as [Hr|Hr].
  - rewrite Hr in H. destruct prog as [|o prog]; [done|].
    apply bind_Some in H as (s & Hs & [= <-]).
    destruct (exec_proc_inv _ _ _ _ Hs) as (g0 & g' & m & Hg0 & He & ->).
    rewrite Hg in Hg0. injection Hg0 as <-.
    exists (call_of o), g, g', m, (o :: prog), prog. split_and!; try done; [right; eauto|by destruct o].
  - assert (∃ s, exec_proc i Tau (sys t) = Some s ∧ t' = {| sys := s; progs := progs t |})
      as (s & Hs & ->).
    { destruct (at_pc g); try done; by apply bind_Some in H as (s & Hs & [= <-]); exists s. }
    destruct (exec_proc_inv _ _ _ _ Hs) as (g0 & g' & m & Hg0 & He & ->).
    rewrite Hg in Hg0. injection Hg0 as <-.
    exists Tau, g, g', m, prog, prog. split_and!; try done; [by left|].
    simpl. by rewrite list_insert_id.
Qed.

Lemma tstep_wf rank n i t t' :
  twf rank n t → tstep i t = Some t' → twf rank n t' ∧ (work_left t' < work_left t)%nat.
Proof.
  intros [Hr Hl Ho] (a & g & g' & m & prog & prog' & Hi & Hp & He & Ha & Hs & Hps & Hf)%tstep_inv.
  destruct (exec_todo rank _ _ _ _ _ _ _ He Ha (Ho _ _ _ Hi Hp)) as [Ho' Hlt].
  split.
  - split.
    + unfold reachable in *. eapply rtc_r; [exact Hr|]. exists i, a. split; [done|].
      by rewrite (exec_proc_Some _ _ _ _ _ _ Hi He), Hs.
    + rewrite Hps. by rewrite length_insert.
    + intros j d pr. rewrite Hs, Hps. simpl. destruct (decide (i = j)) as [<-|Hij].
      * rewrite !list_lookup_insert_eq by (by eapply lookup_lt_Some). by intros [= <-] [= <-].
      * rewrite !list_lookup_insert_ne by done. apply Ho.
  - unfold work_left. rewrite Hs, Hps. cbn [procs].
    pose proof (sum_list_with_insert (λ g, steps_left (at_pc g)) _ _ _ g' Hi).
    pose proof (sum_list_with_insert (λ prog : list op, 5 * length prog)%nat _ _ _ prog' Hp).
    cbv beta in *. lia.
Qed.

Lemma trun_wf rank n sched t t' :
  twf rank n t → trun sched t = Some t' →
  twf rank n t' ∧ (length sched + work_left t' ≤ work_left t)%nat.
Proof.
  revert t. induction sched as [|i sched IH]; intros t Hwf Hrun; cbn in *.
  - injection Hrun as <-. split; [done|lia].
  - apply bind_Some in Hrun as (t1 & H1 & Hrun).
    destruct (tstep_wf _ _ _ _ _ Hwf H1) as [Hwf1 Hlt].
    destruct (IH _ Hwf1 Hrun). split; [done|lia].
Qed.

Lemma tinit_wf rank ps :
  Forall (λ prog, ordered rank [] prog = true) ps → twf rank (length ps) (tinit ps).
Proof.
  intros Hps. split; [apply rtc_refl|done|].
  intros i g prog [-> _]%lookup_replicate Hp. exact (Forall_lookup_1 _ _ _ _ Hps Hp).
Qed.

Lemma work_init ps : work_left (tinit ps) = (5 * sum_list_with length ps)%nat.
Proof.
  unfold work_left, tinit. simpl.
  assert (sum_list_with (λ g, steps_left (at_pc g)) (replicate (length ps) idle) = 0%nat) as ->.
  { induction (length ps); simpl; lia. }
  induction ps as [|p ps IH]; simpl in *; lia.
Qed.

(** A goroutine in its own code with a program left can make its next call. *)
Lemma running_steps rank n t i g prog :
  twf rank n t → procs (sys t) !! i = Some g → progs t !! i = Some prog →
  at_pc g = Running → prog ≠ [] → is_Some (tstep i t).
Proof.
  intros Hwf Hi Hp Hat Hne. pose proof (twf_ordered _ _ _ Hwf _ _ _ Hi Hp) as Ho.
  unfold tstep, exec_proc, todo in *. rewrite Hi, Hp. cbn. rewrite Hat in *.
  destruct prog as [|[k|k] prog]; [done|eauto..|]; simpl in *; rewrite Hat; [eauto|].
  apply andb_true_iff in Ho as [Hk%bool_decide_eq_true _].
  destruct (take_held_elem _ _ Hk) as [[p l] ->]. cbn. eauto.
Qed.

(** What a goroutine that waits holds is of a lower rank than what it waits
    for. *)
Lemma waiting_rank rank n t i g prog k p h q :
  twf rank n t → procs (sys t) !! i = Some g → progs t !! i = Some prog →
  at_pc g = LkWait k p → (h, q) ∈ held g → (rank h < rank k)%nat.
Proof.
  intros Hwf Hi Hp Hat Hh. pose proof (twf_ordered _ _ _ Hwf _ _ _ Hi Hp) as Ho.
  unfold todo in Ho. rewrite Hat in Ho. simpl in Ho.
  apply andb_true_iff in Ho as [Ho _]. rewrite forallb_forall in Ho.
  eapply bool_decide_eq_true, Ho, list_elem_of_In, list_elem_of_fmap.
  by exists (h, q).
Qed.

Definition wait_rank (rank : gostring → nat) (g : goroutine) : nat :=
  match at_pc g with LkWait k _ => rank k | _ => 0%nat end.

(** Nobody waits in a state where nobody can move: the holder of what a waiter
    of the highest rank waits for would have to wait for a higher one. *)
Lemma no_waiter rank n t :
  twf rank n t → (∀ i, tstep i t = None) →
  ∀ i g, procs (sys t) !! i = Some g → g = idle ∧ progs t !! i = Some [].
Proof.
  intros Hwf Hno. pose proof (reachable_inv _ _ (twf_reach _ _ _ Hwf)) as Hinv.
  assert (∀ i g, procs (sys t) !! i = Some g → ∃ prog, progs t !! i = Some prog) as Hprog.
  { intros i g Hi%lookup_lt_Some. apply lookup_lt_is_Some_2.
    by rewrite (twf_length _ _ _ Hwf), <-(reachable_length _ _ (twf_reach _ _ _ Hwf)). }
  assert (∀ i g, procs (sys t) !! i = Some g → exec Tau g (mx (sys t)) = None) as Hstuck.
  { intros i g Hi. apply eq_None_not_Some. intros [[g' m'] He].
    destruct (Hprog _ _ Hi) as [prog Hp]. specialize (Hno i).
    unfold tstep in Hno. rewrite Hi, Hp in Hno. cbn in Hno.
    destruct (at_pc g) eqn:Hat; [by unfold exec in He; rewrite Hat in He|..];
      rewrite (exec_proc_Some _ _ _ _ _ _ Hi He) in Hno; by destruct prog. }
  pose proof (stuck_states _ _ Hinv Hstuck) as Hshape.
  assert (∀ i g, procs (sys t) !! i = Some g → at_pc g = Running → g = idle ∧ progs t !! i = Some [])
    as Hdone.
  { intros i g Hi Hat. destruct (Hprog _ _ Hi) as [prog Hp].
    destruct (decide (prog = [])) as [->|Hne].
    - pose proof (twf_ordered _ _ _ Hwf _ _ _ Hi Hp) as Ho. unfold todo in Ho. rewrite Hat in Ho.
      apply bool_decide_eq_true, fmap_nil_inv in Ho. split; [|done].
      destruct g as [c hs]; simpl in *. by subst.
    - destruct (running_steps _ _ _ _ _ _ Hwf Hi Hp Hat Hne) as [t' Ht']. by rewrite Hno in Ht'. }
  set (M := sum_list_with (wait_rank rank) (procs (sys t))).
  assert (∀ d i g k p, procs (sys t) !! i = Some g → at_pc g = LkWait k p → (M - rank k <= d)%nat → False)
    as Hwait.
  { induction d as [|d IH]; intros i g k p Hi Hat Hd;
      destruct (Hshape _ _ Hi) as [?|(k' & p' & j & gj & Hat' & Hj & Hh)]; try congruence;
      rewrite Hat in Hat'; injection Hat' as <- <-;
      (destruct (Hshape _ _ Hj) as [Hr|(k2 & p2 & _ & _ & Hw & _)];
        [destruct (Hdone _ _ Hj Hr) as [-> _]; by apply elem_of_nil in Hh|]);
      destruct (Hprog _ _ Hj) as [prog Hp];
      pose proof (waiting_rank _ _ _ _ _ _ _ _ _ _ Hwf Hj Hp Hw Hh) as Hlt;
      (assert (rank k2 ≤ M)%nat as HM;
        [pose proof (sum_list_with_in _ (wait_rank rank) _ (list_elem_of_lookup_2 _ _ _ Hj)) as HM;
         unfold wait_rank at 1 in HM; by rewrite Hw in HM|]); [lia|].
    eapply (IH j); [done..|lia]. }
  intros i g Hi. destruct (Hshape _ _ Hi) as [Hr|(k & p & _ & _ & Hat & _)]; [by apply Hdone|].
  by edestruct (Hwait (M - rank k)%nat i g k p).
Qed.

Lemma tstep_dec rank n t :
  twf rank n t → (∃ i t', tstep i t = Some t') ∨ ∀ i, tstep i t = None.
Proof.
  intros Hwf. destruct (decide (Exists (λ i, is_Some (tstep i t)) (seq 0 n))) as [Hex|Hno].
  - left. apply Exists_exists in Hex as (i & _ & [t' Ht']). eauto.
  - right. intros i. destruct (decide (i < n)%nat) as [Hi|Hi].
    + apply not_Exists_Forall in Hno; [|apply _].
      apply eq_None_not_Some. rewrite Forall_forall in Hno. apply Hno, elem_of_seq. lia.
    + unfold tstep. rewrite (lookup_ge_None_2 (procs (sys t))); [done|].
      rewrite (reachable_length _ _ (twf_reach _ _ _ Hwf)). lia.
Qed.

(** ** Properties *)

(** C1: mutual exclusion.  Let goroutines call [Unlock] only for keys they
    hold.  Then in every reachable state of any number of goroutines, each of
    which may hold many keys, at most one has returned from [Lock] of a given
    key without having called [Unlock], and it has done so once. *)
Theorem mutual_exclusion n s :
  reachable n s →
  (∀ i j gi gj k p q, procs s !! i = Some gi → procs s !! j = Some gj →
     (k, p) ∈ held gi → (k, q) ∈ held gj → i = j)
  ∧ ∀ i g, procs s !! i = Some g → NoDup (held g).*1.
Proof.
  intros Hinv%reachable_inv.
  assert (∀ i g k p, procs s !! i = Some g → (k, p) ∈ held g → locks (mx s) !! k = Some p) as Hcur.
  { intros i g k p Hi Hk. apply (inv_uses _ _ Hinv _ _ _ _ Hi), elem_of_app. by right. }
  split.
  - intros i j gi gj k p q Hi Hj Hp Hq.
    pose proof (Hcur _ _ _ _ Hi Hp). pose proof (Hcur _ _ _ _ Hj Hq).
    assert (q = p) as -> by congruence.
    eapply (owned_once _ _ _ _ _ _ k p Hinv Hi Hj); apply elem_of_app; by right.
  - intros i g Hi. apply (refs_NoDup (locks (mx s))); [by eauto|]. intros p.
    pose proof (owns_le_1 _ _ _ _ p Hinv Hi). pose proof (held_le_owns p g).
    unfold owns in *. lia.
Qed.

(** as long as only holders call [Unlock], the runtime never sees an
    unlock of an unlocked mutex: removing the entry before releasing the
    per-key mutex is safe. *)
Theorem never_crashes n s : reachable n s → ¬ crashes s.
Proof.
  intros Hinv%reachable_inv (i & g & k & p & o & Hi & Hat & Hp & Hmu).
  destruct (owned_locked _ _ _ _ k p Hinv Hi) as (o' & Ho' & Hmu'); [|congruence].
  unfold owns_refs. rewrite Hat. by left.
Qed.

(** C25: memory.  Let goroutines call [Unlock] only for keys they hold.  The
    map has an entry exactly for the keys some goroutine is waiting for or
    holding; its reference count is the number of these uses, at most one per
    goroutine unless somebody waits for a key it holds itself (and then one
    more); and the map is empty again once nobody is inside or holds a key. *)
Theorem entries_are_users n s :
  reachable n s →
  (∀ k, is_Some (locks (mx s) !! k) ↔
        ∃ i g p, procs s !! i = Some g ∧ (k, p) ∈ uses_refs g)
  ∧ (∀ k p, locks (mx s) !! k = Some p →
        ∃ o, heap (mx s) !! p = Some o ∧ refcount o = total (uses p) (procs s)
             ∧ refcount o ≤ Z.of_nat n + 1
             ∧ ((∀ i g, procs s !! i = Some g → relocks g = false) → refcount o ≤ Z.of_nat n))
  ∧ ((∀ i g, procs s !! i = Some g → g = idle) → locks (mx s) = ∅).
Proof.
  intros Hr. pose proof (reachable_inv _ _ Hr) as Hinv. split_and!.
  - intros k. split; [intros [p Hk]; by eapply entry_user|].
    intros (i & c & p & Hi & Hu). exists p. by eapply inv_uses.
  - intros k p Hk. destruct (inv_refs _ _ Hinv _ _ Hk) as (o & Ho & Hc & _).
    exists o. rewrite Hc, <-(reachable_length _ _ Hr). split_and!; [done..| |].
    + by eapply users_bound.
    + by apply (users_bound_strict (mx s)).
  - by eapply idle_empty.
Qed.

(** independence of keys.  A goroutine blocked on the mutex of a key is
    blocked by a goroutine that has acquired the same key and has not
    finished unlocking it; other keys never matter. *)
Theorem blocked_by_same_key n s i g k p :
  reachable n s → procs s !! i = Some g → at_pc g = LkWait k p → exec Tau g (mx s) = None →
  ∃ j gj, procs s !! j = Some gj ∧ (k, p) ∈ owns_refs gj.
Proof.
  intros Hinv%reachable_inv Hi Hat Hb.
  destruct (stuck_shape _ _ _ _ Hinv Hi ltac:(congruence) Hb)
    as [(_ & _ & Hw)|(k' & p' & o & Hat' & Hp & Hmu)]; [by edestruct Hw|].
  rewrite Hat in Hat'. injection Hat' as <- <-.
  destruct (locked_owned _ _ _ _ Hinv Hp Hmu) as (j & gj & k' & Hj & Hg).
  exists j, gj. split; [done|]. replace k with k'; [done|]. symmetry.
  apply (inv_key _ _ Hinv _ _ _ _ _ Hj Hg), (inv_uses _ _ Hinv _ _ _ _ Hi).
  unfold uses_refs. rewrite Hat. by left.
Qed.

(** C2: quiescence.  Any number of goroutines run programs of [Lock] and
    [Unlock] calls, nested in any way, that respect one order of the keys: a
    goroutine locks only keys of a rank above those it holds, unlocks only
    keys it holds, and returns all of them.  Then every interleaving is
    finite, at most five steps per call; it never deadlocks, that is some
    goroutine can move until all programs are finished; and at that point
    nobody holds a key and the map of keys is empty. *)
Theorem mutex_quiesces rank ps sched t :
  Forall (λ prog, ordered rank [] prog = true) ps →
  trun sched (tinit ps) = Some t →
  (length sched ≤ 5 * sum_list_with length ps)%nat
  ∧ ((∃ i t', tstep i t = Some t')
     ∨ (progs t = replicate (length ps) []
        ∧ procs (sys t) = replicate (length ps) idle ∧ locks (mx (sys t)) = ∅)).
Proof.
  intros Hps Hrun. destruct (trun_wf _ _ _ _ _ (tinit_wf _ _ Hps) Hrun) as [Hwf Hw].
  rewrite work_init in Hw. split; [lia|].
  destruct (tstep_dec _ _ _ Hwf) as [|Hno]; [by left|right].
  pose proof (no_waiter _ _ _ Hwf Hno) as Hend.
  pose proof (reachable_length _ _ (twf_reach _ _ _ Hwf)) as Hl.
  pose proof (reachable_inv _ _ (twf_reach _ _ _ Hwf)) as Hinv.
  split_and!.
  - symmetry. apply replicate_as_Forall. split; [exact (twf_length _ _ _ Hwf)|].
    apply Forall_lookup. intros i prog Hi.
    destruct (lookup_lt_is_Some_2 (procs (sys t)) i) as [g Hg].
    { apply lookup_lt_Some in Hi. by rewrite Hl, <-(twf_length _ _ _ Hwf). }
    destruct (Hend _ _ Hg). congruence.
  - symmetry. apply replicate_as_Forall. split; [done|].
    apply Forall_lookup. intros i g Hg. by destruct (Hend _ _ Hg).
  - eapply (idle_empty _ _ Hinv). intros i g Hg. by destruct (Hend _ _ Hg).
Qed.

(** a foreign [Unlock], that is one by a goroutine that does not hold the
    key, of a held key neither blocks nor panics: it completes and unlocks the
    mutex of the holder, which still believes it holds the key. *)
Theorem foreign_unlock_succeeds n s i j hs gj k p :
  reachable n s → procs s !! i = Some {| at_pc := Running; held := hs |} → k ∉ hs.*1 →
  procs s !! j = Some gj → (k, p) ∈ held gj → km_mu (mx s) = false →
  ∃ s', run [(i, CallUnlockForeign k); (i, Tau); (i, Tau); (i, Tau); (i, Tau)] s = Some s'
        ∧ procs s' !! i = Some {| at_pc := Running; held := hs |}
        ∧ procs s' !! j = Some gj
        ∧ ∃ o, heap (mx s') !! p = Some o ∧ mu o = false.
Proof.
  intros Hinv%reachable_inv Hi Hfor Hj Hjk Hkm.
  assert (i ≠ j) as Hij.
  { intros <-. rewrite Hi in Hj. injection Hj as <-. apply Hfor, list_elem_of_fmap. by exists (k, p). }
  assert (locks (mx s) !! k = Some p) as Hk.
  { apply (inv_uses _ _ Hinv _ _ _ _ Hj), elem_of_app. by right. }
  destruct (owned_locked _ _ _ _ k p Hinv Hj) as (o & Ho & Hmu); [apply elem_of_app; by right|].
  pose proof (lookup_lt_Some _ _ _ Hi) as Hlt.
  assert (∃ m', solo [CallUnlockForeign k; Tau; Tau; Tau; Tau]
                  {| at_pc := Running; held := hs |} (mx s)
                = Some ({| at_pc := Running; held := hs |}, m')
    ∧ ∃ o', heap m' !! p = Some o' ∧ mu o' = false) as (m' & Hsolo & Ho').
  { cbn [solo]. unfold exec at 1. cbn. rewrite decide_False by done.
    cbn. rewrite Hkm. cbn. unfold unlock_body. cbn. rewrite Hk.
    rewrite list_lookup_alter_eq, Ho. cbn.
    case_decide; cbn; rewrite list_lookup_alter_eq, Ho; cbn; rewrite Hmu; cbn;
      (eexists; split; [done|]); eexists; cbn;
      rewrite list_lookup_alter_eq, list_lookup_alter_eq, Ho; done. }
  eexists. split; [exact (run_solo i _ _ _ _ _ Hi Hsolo)|]. cbn. split_and!; [| |done].
  - by apply list_lookup_insert_eq.
  - by rewrite list_lookup_insert_ne.
Qed.

(** ** Concrete states *)

Lemma run_steps sched s s' :
  forallb (λ x, negb (foreign x.2)) sched = true → run sched s = Some s' → rtc step s s'.
Proof.
  revert s. induction sched as [|[i a] sched IH]; intros s Hf Hrun; cbn in *.
  - injection Hrun as <-. apply rtc_refl.
  - apply andb_true_iff in Hf as [Ha Hf]. apply bind_Some in Hrun as (s1 & H1 & Hrun).
    eapply rtc_l; [|by apply IH]. exists i, a. split; [by destruct (foreign a)|done].
Qed.

(** Goroutine 0 holds the keys a and b, goroutine 1 waits for a, 2 is idle. *)
Definition demo_sched : list (nat * action) :=
  [(0, CallLock (str "a")); (0, Tau); (0, Tau); (0, Tau); (0, Tau);
   (0, CallLock (str "b")); (0, Tau); (0, Tau); (0, Tau); (0, Tau);
   (1, CallLock (str "a")); (1, Tau); (1, Tau); (1, Tau)]%nat.
Definition demo : state := default (init 3) (run demo_sched (init 3)).

Lemma demo_reachable : reachable 3 demo.
Proof. apply (run_steps demo_sched); vm_compute; reflexivity. Qed.

Definition demo_holder : goroutine :=
  {| at_pc := Running; held := [(str "b", 1%nat); (str "a", 0%nat)] |}.
Definition demo_waiter : goroutine := {| at_pc := LkWait (str "a") 0; held := [] |}.

Lemma mutual_exclusion_witness :
  procs demo !! 0%nat = Some demo_holder ∧ 0%nat = 0%nat ∧ NoDup (held demo_holder).*1.
Proof.
  destruct (mutual_exclusion 3 demo demo_reachable) as [H1 H2].
  split; [vm_compute; reflexivity|]. split.
  - apply (H1 0%nat 0%nat demo_holder demo_holder (str "a") 0%nat 0%nat);
      [vm_compute; reflexivity..|right; left|right; left].
  - apply (H2 0%nat). vm_compute. reflexivity.
Defined.

Lemma never_crashes_witness : ¬ crashes demo.
Proof. exact (never_crashes 3 demo demo_reachable). Defined.

Lemma entries_are_users_witness : is_Some (locks (mx demo) !! str "b").
Proof.
  apply (proj1 (entries_are_users 3 demo demo_reachable)).
  exists 0%nat, demo_holder, 1%nat. split; [vm_compute; reflexivity|left].
Defined.

Lemma blocked_by_same_key_witness :
  ∃ j gj, procs demo !! j = Some gj ∧ (str "a", 0%nat) ∈ owns_refs gj.
Proof.
  apply (blocked_by_same_key 3 demo 1 demo_waiter (str "a") 0 demo_reachable);
    vm_compute; reflexivity.
Defined.

Lemma foreign_unlock_succeeds_witness :
  ∃ s', run [(2, CallUnlockForeign (str "a")); (2, Tau); (2, Tau); (2, Tau); (2, Tau)]%nat demo
        = Some s'
        ∧ procs s' !! 2%nat = Some idle
        ∧ procs s' !! 0%nat = Some demo_holder
        ∧ ∃ o, heap (mx s') !! 0%nat = Some o ∧ mu o = false.
Proof.
  apply (foreign_unlock_succeeds 3 demo 2 0 [] demo_holder (str "a") 0 demo_reachable);
    [vm_compute; reflexivity|by apply not_elem_of_nil|vm_compute; reflexivity|
     right; left|vm_compute; reflexivity].
Defined.

(** Two goroutines that lock a, then b inside it, and return both. *)
Definition nested : list op :=
  [OpLock (str "a"); OpLock (str "b"); OpUnlock (str "a"); OpUnlock (str "b")].
Definition demo_rank (k : gostring) : nat := if decide (k = str "a") then 0 else 1.

(** 0 takes a, 1 waits for it, 0 takes b and returns a, 1 takes a and waits
    for b, 0 returns b, 1 finishes. *)
Definition nested_sched : list nat :=
  (repeat 0 5 ++ repeat 1 4 ++ repeat 0 10 ++ repeat 1 5 ++ repeat 0 5 ++ repeat 1 11)%nat.

Lemma mutex_quiesces_witness :
  ∃ t, trun nested_sched (tinit [nested; nested]) = Some t
       ∧ procs (sys t) = [idle; idle] ∧ locks (mx (sys t)) = ∅
       ∧ (length nested_sched ≤ 40)%nat.
Proof.
  destruct (trun nested_sched (tinit [nested; nested])) as [t|] eqn:E;
    [|vm_compute in E; discriminate].
  destruct (mutex_quiesces demo_rank [nested; nested] nested_sched t) as [Hl [(i & t' & Ht)|H]].
  - repeat constructor; vm_compute; reflexivity.
  - exact E.
  - exfalso. vm_compute in E. injection E as <-.
    destruct i as [|[|i]]; discriminate Ht.
  - destruct H as (_ & Hp & Hm). exists t. split_and!; [done|exact Hp|exact Hm|exact Hl].
Defined.

(** Without the order two goroutines that nest the same keys the other way
    round deadlock, and so does one that locks a key it holds. *)
Example crossed_keys_deadlock :
  let crossed := [OpLock (str "b"); OpLock (str "a"); OpUnlock (str "a"); OpUnlock (str "b")] in
  ∃ t, trun (repeat 0 5 ++ repeat 1 5 ++ repeat 0 4 ++ repeat 1 4)%nat (tinit [nested; crossed])
       = Some t
       ∧ tstep 0 t = None ∧ tstep 1 t = None ∧ size (locks (mx (sys t))) = 2%nat.
Proof. eexists. split; [vm_compute; reflexivity|]. vm_compute. split_and!; reflexivity. Qed.

Example relock_deadlocks :
  ∃ t, trun (repeat 0 9)%nat (tinit [[OpLock (str "a"); OpLock (str "a")]]) = Some t
       ∧ tstep 0 t = None ∧ forallb relocks (procs (sys t)) = true.
Proof. eexists. split; [vm_compute; reflexivity|]. vm_compute. split_and!; reflexivity. Qed.
