(* ===== verification/CronSchedule.v ===== *)
(** * crontab: parsing and matching five-field schedules (crontab/schedule.go)

    Fields are lookup tables ([list bool]) indexed by the time value.  Slice
    accesses are checked: an index out of range is a [Panic], and the counter
    of the fill loop is a 64-bit [int] that wraps. *)
From Stdlib Require Import Ascii String.
From S2P Require Export Prelude GoStrings.
Local Open Scope Z_scope.

(** ** Data *)

Record schedule := {
  minute : list bool; hour : list bool; dom : list bool; month : list bool; dow : list bool;
  domStar : bool; dowStar : bool;
}.

(** The formatted errors of the parser, with the operands they print. *)
Inductive parse_error : Type :=
  | ExpectedFields (got : nat) (spec : gostring)
  | InvalidStep (name : string) (step : gostring)
  | ReversedRange (name : string) (part : gostring)
  | InvalidValue (name : string) (s : gostring)
  | OutOfRange (name : string) (v minVal maxVal : Z).

Abbreviation parsed := (result parse_error).

(** What [match] reads of a [time.Time]. *)
Record civil := { Minute : Z; Hour : Z; Day : Z; Month : Z; Weekday : Z }.

Definition civil_ok (t : civil) : Prop :=
  (0 ≤ Minute t ≤ 59) ∧ (0 ≤ Hour t ≤ 23) ∧ (1 ≤ Day t ≤ 31)
  ∧ (1 ≤ Month t ≤ 12) ∧ (0 ≤ Weekday t ≤ 6).

(** ** Parsing *)

Definition parseValue (s : gostring) (minVal maxVal : Z) (name : string) : parsed Z :=
  match Atoi s with
  | Ok v =>
      if (v <? minVal) || (maxVal <? v) then Err (OutOfRange name v minVal maxVal) else Ok v
  | _ => Err (InvalidValue name s)
  end.

Definition parseRange (part : gostring) (minVal maxVal : Z) (name : string) (hasStep : bool)
    : parsed (Z * Z) :=
  if decide (part = str "*") then Ok (minVal, maxVal) else
  match Cut part (str "-") with
  | (loStr, Some hiStr) =>
      lo ← parseValue loStr minVal maxVal name;
      hi ← parseValue hiStr minVal maxVal name;
      if hi <? lo then Err (ReversedRange name part) else Ok (lo, hi)
  | (_, None) =>
      v ← parseValue part minVal maxVal name;
      if hasStep then Ok (v, maxVal) else Ok (v, v)
  end.

(** [for v := lo; v <= hi; v += step { set[v] = true }].  [None]: the fuel ran
    out ([fill_fuel] below is always enough). *)
Fixpoint fill (fuel : nat) (v hi step : Z) (set : list bool) : option (parsed (list bool)) :=
  match fuel with
  | O => None
  | S fuel =>
      if v <=? hi then
        match set_index set v true with
        | Ok set => fill fuel (v +! step)%go hi step set
        | Err e => Some (Err e)
        | Panic m => Some (Panic m)
        end
      else Some (Ok set)
  end.
Definition fill_fuel (lo hi : Z) : nat := S (S (Z.to_nat (hi - lo))).

Definition parseStep (stepStr : option gostring) (name : string) : parsed Z :=
  match stepStr with
  | None => Ok 1
  | Some stepStr =>
      match Atoi stepStr with
      | Ok n => if n <=? 0 then Err (InvalidStep name stepStr) else Ok n
      | _ => Err (InvalidStep name stepStr)
      end
  end.

Definition parseTerm (term : gostring) (minVal maxVal : Z) (name : string) (set : list bool)
    : parsed (list bool) :=
  let '(rangePart, stepStr) := Cut term (str "/") in
  step ← parseStep stepStr name;
  '(lo, hi) ← parseRange rangePart minVal maxVal name (bool_decide (is_Some stepStr));
  match fill (fill_fuel lo hi) lo hi step set with
  | Some r => r
  | None => Panic "fuel"
  end.

Fixpoint parseTerms (terms : list gostring) (minVal maxVal : Z) (name : string)
    (set : list bool) : parsed (list bool) :=
  match terms with
  | [] => Ok set
  | term :: terms =>
      set ← parseTerm term minVal maxVal name set;
      parseTerms terms minVal maxVal name set
  end.

Definition comma : ascii := ascii_of_nat 44.

Definition parseField (spec : gostring) (minVal maxVal : Z) (name : string)
    : parsed (list bool) :=
  parseTerms (Split1 spec comma) minVal maxVal name
    (replicate (Z.to_nat (maxVal + 1)) false).

Definition parse (spec : gostring) : parsed schedule :=
  match Fields spec with
  | [f0; f1; f2; f3; f4] =>
      minute ← parseField f0 0 59 "minute";
      hour ← parseField f1 0 23 "hour";
      dom ← parseField f2 1 31 "day-of-month";
      month ← parseField f3 1 12 "month";
      dow ← parseField f4 0 7 "day-of-week";
      sunday ← get_index dow 7;
      dow ← (if sunday : bool then set_index dow 0 true else Ok dow);
      Ok {| minute := minute; hour := hour; dom := dom; month := month; dow := dow;
            domStar := bool_decide (f2 = str "*"); dowStar := bool_decide (f4 = str "*") |}
  | fields => Err (ExpectedFields (length fields) spec)
  end.

(** ** Matching *)

(** Short-circuit [||] and [&&] over expressions that can panic. *)
Definition orElse (a b : parsed bool) : parsed bool := x ← a; if x : bool then Ok true else b.
Definition andThen (a b : parsed bool) : parsed bool := x ← a; if x : bool then b else Ok false.

Definition match_ (s : schedule) (t : civil) : parsed bool :=
  miss ← orElse (negb <$> get_index (minute s) (Minute t))
           (orElse (negb <$> get_index (hour s) (Hour t))
                   (negb <$> get_index (month s) (Month t)));
  if miss : bool then Ok false else
  if negb (domStar s) && negb (dowStar s)
  then orElse (get_index (dom s) (Day t)) (get_index (dow s) (Weekday t))
  else andThen (get_index (dom s) (Day t)) (get_index (dow s) (Weekday t)).

(** ** Reference semantics *)

(** What a term denotes: every [step]-th value from [lo] to [hi]. *)
Record term := { t_lo : Z; t_hi : Z; t_step : Z }.
Definition denotes (t : term) (v : Z) : bool :=
  (t_lo t <=? v) && (v <=? t_hi t) && ((v - t_lo t) mod t_step t =? 0).

Definition read_term (s : gostring) (minVal maxVal : Z) (name : string) : parsed term :=
  let '(rangePart, stepStr) := Cut s (str "/") in
  step ← parseStep stepStr name;
  '(lo, hi) ← parseRange rangePart minVal maxVal name (bool_decide (is_Some stepStr));
  Ok {| t_lo := lo; t_hi := hi; t_step := step |}.

(** [v] belongs to a comma-separated field. *)
Definition in_field (spec : gostring) (minVal maxVal : Z) (name : string) (v : Z) : bool :=
  existsb (λ s, match read_term s minVal maxVal name with Ok t => denotes t v | _ => false end)
    (Split1 spec comma).

(** The Vixie rule on the five fields of a specification. *)
Definition fires (f0 f1 f2 f3 f4 : gostring) (t : civil) : bool :=
  let day := in_field f2 1 31 "day-of-month" (Day t) in
  let wday := in_field f4 0 7 "day-of-week" (Weekday t)
              || ((Weekday t =? 0) && in_field f4 0 7 "day-of-week" 7) in
  in_field f0 0 59 "minute" (Minute t) && in_field f1 0 23 "hour" (Hour t)
  && in_field f3 1 12 "month" (Month t)
  && (if negb (bool_decide (f2 = str "*")) && negb (bool_decide (f4 = str "*"))
      then day || wday else day && wday).

(** A term the parser can expand: it reads, and the increment after its first
    value still fits in an [int]. *)
Definition no_overflow (t : term) : bool := t_lo t + t_step t <=? MaxInt64.
Definition term_accepted (minVal maxVal : Z) (name : string) (s : gostring) : bool :=
  match read_term s minVal maxVal name with Ok t => no_overflow t | _ => false end.

(** *** The grammar of a specification

    Declared without the parser: what the documentation of [parseTerm] lists,
    with the bounds of each field written out in [spec_spells]. *)

Definition dash : ascii := ascii_of_nat 45.
Definition slash : ascii := ascii_of_nat 47.

(** ["*"], ["a-b"] and ["a"]; a value in front of a step is open to the right. *)
Inductive range_spells (minVal maxVal : Z) (open : bool) : gostring → Z → Z → Prop :=
  | spells_star : range_spells minVal maxVal open (str "*") minVal maxVal
  | spells_span a b lo hi :
      dash ∉ a → numeral a lo → numeral b hi → minVal ≤ lo → lo ≤ hi → hi ≤ maxVal →
      range_spells minVal maxVal open (a ++ dash :: b) lo hi
  | spells_value a v :
      dash ∉ a → numeral a v → minVal ≤ v → v ≤ maxVal →
      range_spells minVal maxVal open a v (if open then maxVal else v).

(** A range, or a range and a positive step. *)
Inductive term_spells (minVal maxVal : Z) : gostring → term → Prop :=
  | spells_range r lo hi :
      slash ∉ r → range_spells minVal maxVal false r lo hi →
      term_spells minVal maxVal r {| t_lo := lo; t_hi := hi; t_step := 1 |}
  | spells_step r n lo hi step :
      slash ∉ r → range_spells minVal maxVal true r lo hi → numeral n step → 0 < step →
      term_spells minVal maxVal (r ++ slash :: n) {| t_lo := lo; t_hi := hi; t_step := step |}.

(** A comma-separated list of terms, none of which steps past the largest
    [int] at once. *)
Definition field_spells (minVal maxVal : Z) (f : gostring) : Prop :=
  Forall (λ s, ∃ t, term_spells minVal maxVal s t ∧ t_lo t + t_step t ≤ MaxInt64)
    (Split1 f comma).

Definition spec_spells (fields : list gostring) : Prop :=
  ∃ mi ho dm mo dw, fields = [mi; ho; dm; mo; dw]
    ∧ field_spells 0 59 mi ∧ field_spells 0 23 ho ∧ field_spells 1 31 dm
    ∧ field_spells 1 12 mo ∧ field_spells 0 7 dw.

Example parse_daily :
  (parse (str "0 3 * * 1-5")) ≫= (λ s, match_ s {| Minute := 0; Hour := 3; Day := 8; Month := 7; Weekday := 2 |})
  = Ok true.
Proof. vm_compute. reflexivity. Qed.
Example parse_overflow :
  parse (str "0 0 1/9223372036854775807 * *") = Panic "index out of range".
Proof. vm_compute. reflexivity. Qed.

(** ** The fill loop *)

Definition mark (t : term) (set : list bool) : list bool :=
  imap (λ i b, b || denotes t (Z.of_nat i)) set.

Lemma mark_lookup t set i :
  mark t set !! i = (λ b, b || denotes t (Z.of_nat i)) <$> set !! i.
Proof. apply list_lookup_imap. Qed.

Lemma mark_length t set : length (mark t set) = length set.
Proof. apply length_imap. Qed.

Lemma denotes_step v hi step i :
  0 < step → v ≤ hi →
  denotes {| t_lo := v; t_hi := hi; t_step := step |} i
  = (i =? v) || denotes {| t_lo := v + step; t_hi := hi; t_step := step |} i.
Proof.
  intros Hs Hv. unfold denotes; simpl.
  replace (i - (v + step)) with (i - v + (-1) * step) by lia. rewrite Z.mod_add by lia.
  destruct (Z.eqb_spec i v) as [->|Hne]; simpl.
  - rewrite Z.sub_diag, Z.mod_0_l by lia. rewrite !(proj2 (Z.leb_le _ _)) by lia. done.
  - destruct (Z.eqb_spec ((i - v) mod step) 0) as [H0|]; [|by rewrite !andb_false_r].
    rewrite !andb_true_r. apply Z.mod_divide in H0 as [k Hk]; [|lia].
    destruct (Z.leb_spec v i), (Z.leb_spec (v + step) i); simpl; try done; [|nia].
    assert (k ≤ 0 ∨ 1 ≤ k) as [?|?] by lia; nia.
Qed.

Lemma denotes_empty v hi step i :
  hi < v → denotes {| t_lo := v; t_hi := hi; t_step := step |} i = false.
Proof.
  intros H. unfold denotes; simpl.
  destruct (Z.leb_spec v i), (Z.leb_spec i hi); simpl; try done. lia.
Qed.

Lemma mark_empty v hi step set :
  hi < v → mark {| t_lo := v; t_hi := hi; t_step := step |} set = set.
Proof.
  intros H. apply list_eq. intros i. rewrite mark_lookup.
  destruct (set !! i); simpl; [|done]. by rewrite denotes_empty, orb_false_r.
Qed.

Lemma mark_first v hi step set :
  0 < step → 0 ≤ v ≤ hi → hi < Z.of_nat (length set) →
  mark {| t_lo := v + step; t_hi := hi; t_step := step |} (<[Z.to_nat v := true]> set)
  = mark {| t_lo := v; t_hi := hi; t_step := step |} set.
Proof.
  intros Hs Hv Hlen. apply list_eq. intros i. rewrite !mark_lookup.
  rewrite (denotes_step v) by lia. rewrite list_lookup_insert. case_decide as Hi.
  - destruct Hi as [<- Hi]. rewrite Z2Nat.id, Z.eqb_refl by lia. simpl.
    destruct (lookup_lt_is_Some_2 set (Z.to_nat v)) as [b ->]; [lia|]. simpl.
    by rewrite orb_true_r.
  - rewrite (proj2 (Z.eqb_neq _ _)) by lia. done.
Qed.

(** Without overflow the loop sets exactly the denoted bits. *)
Lemma fill_marks fuel v hi step set :
  0 < step → 0 ≤ v → hi < Z.of_nat (length set) → hi ≤ 2 ^ 60 → step ≤ MaxInt64 →
  (v ≤ hi → v + step ≤ MaxInt64) → (Z.to_nat (hi + 1 - v) < fuel)%nat →
  fill fuel v hi step set
  = Some (Ok (mark {| t_lo := v; t_hi := hi; t_step := step |} set)).
Proof.
  intros Hs Hv Hlen Hhi Hst. revert v set Hv Hlen.
  induction fuel as [|fuel IH]; intros v set Hv Hlen Hno Hfuel; [lia|]. cbn [fill].
  destruct (Z.leb_spec v hi) as [Hle|Hgt]; [|by rewrite mark_empty].
  unfold set_index. rewrite decide_True by lia.
  rewrite wrap64_id by int64_lia. rewrite IH; [|lia|by rewrite length_insert| |lia].
  - by rewrite mark_first.
  - intros. int64_lia.
Qed.

(** When the first increment leaves the range of [int], the counter wraps to a
    negative value, the loop goes on and the assignment panics. *)
Lemma fill_overflows fuel lo hi step set :
  0 ≤ lo ≤ hi → hi < Z.of_nat (length set) → step ≤ MaxInt64 → lo ≤ MaxInt64 →
  MaxInt64 < lo + step → (2 ≤ fuel)%nat →
  fill fuel lo hi step set = Some (Panic "index out of range").
Proof.
  intros Hlo Hlen Hst Hl Hover Hfuel. destruct fuel as [|[|fuel]]; [lia..|]. cbn [fill].
  rewrite (proj2 (Z.leb_le lo hi)) by lia. unfold set_index at 1. rewrite decide_True by lia.
  rewrite wrap64_over by int64_lia. rewrite (proj2 (Z.leb_le _ hi)) by int64_lia.
  unfold set_index. by rewrite decide_False by int64_lia.
Qed.

(** ** Terms and fields *)

Lemma parseValue_range s minVal maxVal name v :
  parseValue s minVal maxVal name = Ok v → minVal ≤ v ≤ maxVal.
Proof.
  unfold parseValue. destruct (Atoi s); try done.
  destruct ((_ <? _) || _) eqn:Hb; [done|]. intros [= <-]. lia.
Qed.

Lemma parseRange_range part minVal maxVal name hasStep lo hi :
  minVal ≤ maxVal →
  parseRange part minVal maxVal name hasStep = Ok (lo, hi) → minVal ≤ lo ≤ hi ∧ hi ≤ maxVal.
Proof.
  unfold parseRange. intros Hm. case_decide; [intros [= <- <-]; lia|].
  destruct (Cut part _) as [loStr [hiStr|]]; intros HR; inv_ok;
    repeat match goal with
    | H : parseValue _ _ _ _ = Ok _ |- _ => apply parseValue_range in H
    end; lia.
Qed.

Lemma parseStep_range stepStr name n : parseStep stepStr name = Ok n → 1 ≤ n ≤ MaxInt64.
Proof.
  unfold parseStep. destruct stepStr as [s|]; [|intros [= <-]; int64_lia].
  destruct (Atoi s) as [m| |] eqn:Ha; try done. apply Atoi_range in Ha.
  destruct (m <=? 0) eqn:Hb; [done|]. intros [= <-]. int64_lia.
Qed.

Definition term_ok (minVal maxVal : Z) (t : term) : Prop :=
  minVal ≤ t_lo t ≤ t_hi t ∧ t_hi t ≤ maxVal ∧ 1 ≤ t_step t ≤ MaxInt64.

Lemma read_term_ok s minVal maxVal name t :
  minVal ≤ maxVal → read_term s minVal maxVal name = Ok t → term_ok minVal maxVal t.
Proof.
  unfold read_term. intros Hm. destruct (Cut s _) as [part stepStr]. intros H.
  apply bind_Ok_inv in H as (step & Hs%parseStep_range & H).
  apply bind_Ok_inv in H as ([lo hi] & Hr%parseRange_range & [= <-]); [|done].
  unfold term_ok; simpl. lia.
Qed.

Lemma parseValue_no_panic s minVal maxVal name m :
  parseValue s minVal maxVal name ≠ Panic m.
Proof. unfold parseValue. by repeat case_match. Qed.

Lemma read_term_no_panic s minVal maxVal name m : read_term s minVal maxVal name ≠ Panic m.
Proof.
  unfold read_term, parseStep, parseRange. destruct (Cut s _) as [part stepStr].
  intros H. apply bind_Panic_inv in H as [H|(step & _ & H)]; [by repeat case_match|].
  apply bind_Panic_inv in H as [H|([lo hi] & _ & H)]; [|done].
  case_decide; [done|]. destruct (Cut part _) as [loStr [hiStr|]].
  - apply bind_Panic_inv in H as [H|(? & _ & H)]; [by apply parseValue_no_panic in H|].
    apply bind_Panic_inv in H as [H|(? & _ & H)]; [by apply parseValue_no_panic in H|].
    by repeat case_match.
  - apply bind_Panic_inv in H as [H|(? & _ & H)]; [by apply parseValue_no_panic in H|].
    by repeat case_match.
Qed.

Section field.
Context (minVal maxVal : Z) (name : string).
Hypothesis Hbounds : 0 ≤ minVal ≤ maxVal ∧ maxVal ≤ 2 ^ 60.

Lemma parseTerm_eq s set :
  maxVal < Z.of_nat (length set) →
  parseTerm s minVal maxVal name set
  = t ← read_term s minVal maxVal name;
    if no_overflow t then Ok (mark t set) else Panic "index out of range".
Proof using Hbounds.
  intros Hlen. unfold parseTerm.
  pose proof (λ t, read_term_ok s minVal maxVal name t ltac:(lia)) as Hok.
  unfold read_term in *. destruct (Cut s _) as [part stepStr].
  destruct (parseStep stepStr name) as [step| |]; cbn -[fill] in *; [|done..].
  destruct (parseRange _ _ _ _ _) as [[lo hi]| |]; cbn -[fill] in *; [|done..].
  specialize (Hok _ eq_refl). unfold term_ok, no_overflow in *. cbn -[fill] in *.
  destruct (Z.leb_spec (lo + step) MaxInt64).
  - rewrite fill_marks by (unfold fill_fuel; lia). done.
  - rewrite fill_overflows by (unfold fill_fuel; int64_lia). done.
Qed.

(** The terms of a field, read in order up to the first bad one. *)
Lemma parseTerms_Ok terms set set' :
  maxVal < Z.of_nat (length set) →
  parseTerms terms minVal maxVal name set = Ok set' →
  ∃ ts, Forall2 (λ s t, read_term s minVal maxVal name = Ok t) terms ts
        ∧ length set' = length set
        ∧ ∀ i, set' !! i = (λ b, b || existsb (λ t, denotes t (Z.of_nat i)) ts) <$> set !! i.
Proof using Hbounds.
  revert set. induction terms as [|s terms IH]; intros set Hlen H; cbn [parseTerms] in H.
  - injection H as <-. exists []. split_and!; [constructor|done|].
    intros i. destruct (set !! i); simpl; [by rewrite orb_false_r|done].
  - apply bind_Ok_inv in H as (set1 & H1 & H). rewrite parseTerm_eq in H1 by done.
    apply bind_Ok_inv in H1 as (t & Ht & H1).
    destruct (no_overflow t); [injection H1 as <-|done].
    destruct (IH _ ltac:(by rewrite mark_length) H) as (ts & Hts & Hl & Hi).
    exists (t :: ts). split_and!; [by constructor|by rewrite Hl, mark_length|].
    intros i. rewrite Hi, mark_lookup. destruct (set !! i); simpl; [|done].
    by rewrite orb_assoc.
Qed.

Lemma parseTerms_Panic terms set msg :
  maxVal < Z.of_nat (length set) →
  parseTerms terms minVal maxVal name set = Panic msg →
  ∃ s t, s ∈ terms ∧ read_term s minVal maxVal name = Ok t ∧ no_overflow t = false.
Proof using Hbounds.
  revert set. induction terms as [|s terms IH]; intros set Hlen H; cbn [parseTerms] in H; [done|].
  apply bind_Panic_inv in H as [H|(set1 & H1 & H)].
  - rewrite parseTerm_eq in H by done. exists s.
    apply bind_Panic_inv in H as [H|(t & Ht & H)]; [by apply read_term_no_panic in H|].
    exists t. split_and!; [left|done|by destruct (no_overflow t)].
  - rewrite parseTerm_eq in H1 by done. apply bind_Ok_inv in H1 as (t & _ & H1).
    destruct (no_overflow t); [injection H1 as <-|done].
    destruct (IH (mark t set)) as (s' & t' & ? & ? & ?); [by rewrite mark_length|done|].
    exists s', t'. split_and!; [by right|done..].
Qed.

Lemma parseTerms_accepts terms set :
  maxVal < Z.of_nat (length set) →
  is_Ok (parseTerms terms minVal maxVal name set)
  = forallb (term_accepted minVal maxVal name) terms.
Proof using Hbounds.
  revert set. induction terms as [|s terms IH]; intros set Hlen; cbn; [done|].
  rewrite parseTerm_eq by done. unfold term_accepted at 1.
  destruct (read_term s _ _ _) as [t| |]; cbn; [|done..].
  destruct (no_overflow t); cbn; [|done]. rewrite IH; [done|by rewrite mark_length].
Qed.

Lemma parseField_length :
  maxVal < Z.of_nat (length (replicate (Z.to_nat (maxVal + 1)) false)).
Proof using Hbounds. rewrite length_replicate. lia. Qed.

Lemma parseField_Ok spec set :
  parseField spec minVal maxVal name = Ok set →
  length set = Z.to_nat (maxVal + 1)
  ∧ ∀ v, 0 ≤ v ≤ maxVal → get_index (E:=parse_error) set v = Ok (in_field spec minVal maxVal name v).
Proof using Hbounds.
  intros H. apply parseTerms_Ok in H as (ts & Hts & Hl & Hi); [|by apply parseField_length].
  rewrite length_replicate in Hl. split; [done|]. intros v Hv.
  unfold get_index. rewrite decide_True by lia.
  rewrite Hi, lookup_replicate_2 by lia. cbn. f_equal. rewrite Z2Nat.id by lia.
  unfold in_field. clear -Hts. induction Hts as [|s t ss ts Ht _ IH]; [done|].
  cbn. by rewrite Ht, IH.
Qed.

(** *** The parser reads the grammar *)

Lemma parseValue_numeral s v :
  parseValue s minVal maxVal name = Ok v ↔ numeral s v ∧ minVal ≤ v ∧ v ≤ maxVal.
Proof using Type.
  unfold parseValue. pose proof (Atoi_numeral s) as Hs. split.
  - destruct (Atoi s) as [n| |]; try done. case_match; [done|]. intros [= <-].
    split; [by apply Hs|lia].
  - intros (Hn & ?). apply Hs in Hn as ->. case_match; [lia|done].
Qed.

Lemma parseRange_spells part open lo hi :
  parseRange part minVal maxVal name open = Ok (lo, hi)
  ↔ range_spells minVal maxVal open part lo hi.
Proof using Hbounds.
  unfold parseRange. split.
  - case_decide as Hp; [intros [= <- <-]; subst; constructor|].
    pose proof (Cut_single part dash) as Hc. change (str "-") with [dash].
    destruct (Cut part [dash]) as [a [b|]]; destruct Hc as [Hpart Ha].
    + intros (l & [Hl Hlb]%parseValue_numeral & H)%bind_Ok_inv.
      apply bind_Ok_inv in H as (h & [Hh Hhb]%parseValue_numeral & H).
      destruct (Z.ltb_spec h l); [done|]. injection H as <- <-. subst part.
      apply spells_span; (done || lia).
    + intros (v & [Hv Hvb]%parseValue_numeral & H)%bind_Ok_inv.
      assert (lo = v ∧ hi = if open then maxVal else v) as [-> ->] by (by destruct open; simplify_eq).
      subst part. apply spells_value; (done || lia).
  - intros [|a b l h Ha Hl Hh ? ? ?|a v Ha Hv ? ?]; [done|..].
    + rewrite decide_False.
      2:{ intros Heq. destruct a as [|? [|? ?]]; discriminate Heq. }
      change (str "-") with [dash]. rewrite Cut_found by done.
      rewrite (proj2 (parseValue_numeral a l)) by (split; [done|lia]).
      cbn. rewrite (proj2 (parseValue_numeral b h)) by (split; [done|lia]).
      cbn. by rewrite (proj2 (Z.ltb_ge h l)).
    + rewrite decide_False by (intros ->; apply Atoi_numeral in Hv; discriminate Hv).
      change (str "-") with [dash]. rewrite Cut_absent by done.
      rewrite (proj2 (parseValue_numeral a v)) by (split; [done|lia]).
      by destruct open.
Qed.

Lemma read_term_spells s t :
  read_term s minVal maxVal name = Ok t ↔ term_spells minVal maxVal s t.
Proof using Hbounds.
  unfold read_term, parseStep. split.
  - pose proof (Cut_single s slash) as Hc. change (str "/") with [slash].
    destruct (Cut s [slash]) as [r [n|]]; destruct Hc as [-> Hr]; cbn.
    + pose proof (Atoi_numeral n) as Hn. destruct (Atoi n) as [m| |]; try done.
      destruct (Z.leb_spec m 0); [done|]. cbn.
      intros ([lo hi] & Hp%parseRange_spells & [= <-])%bind_Ok_inv.
      constructor; [done..|by apply Hn|done].
    + intros ([lo hi] & Hp%parseRange_spells & [= <-])%bind_Ok_inv. by constructor.
  - intros [r lo hi Hr Hp%parseRange_spells|r n lo hi m Hr Hp%parseRange_spells Hn Hm];
      change (str "/") with [slash].
    + rewrite Cut_absent by done. cbn. by rewrite Hp.
    + rewrite Cut_found by done. cbn. apply Atoi_numeral in Hn as ->.
      rewrite (proj2 (Z.leb_gt m 0)) by done. cbn. by rewrite Hp.
Qed.

Lemma term_accepted_spells s :
  term_accepted minVal maxVal name s = true
  ↔ ∃ t, term_spells minVal maxVal s t ∧ t_lo t + t_step t ≤ MaxInt64.
Proof using Hbounds.
  unfold term_accepted, no_overflow. setoid_rewrite <-read_term_spells.
  destruct (read_term s minVal maxVal name) as [t| |]; [|naive_solver..].
  rewrite Z.leb_le. naive_solver.
Qed.

Lemma parseField_spells spec :
  is_Ok (parseField spec minVal maxVal name) = true ↔ field_spells minVal maxVal spec.
Proof using Hbounds.
  unfold parseField, field_spells. rewrite parseTerms_accepts by (by apply parseField_length).
  rewrite forallb_forall, Forall_forall. setoid_rewrite list_elem_of_In.
  by setoid_rewrite term_accepted_spells.
Qed.

Lemma parseField_Panic spec msg :
  parseField spec minVal maxVal name = Panic msg →
  ∃ s t, s ∈ Split1 spec comma ∧ read_term s minVal maxVal name = Ok t ∧ no_overflow t = false.
Proof using Hbounds. apply parseTerms_Panic. by apply parseField_length. Qed.
End field.

(** ** Whole schedules *)

(** The normalisation of Sunday never panics on a table of eight entries. *)
Lemma sunday_ok (l : list bool) :
  length l = 8%nat →
  ∃ b l', get_index (E:=parse_error) l 7 = Ok b
    ∧ (if b then set_index l 0 true else Ok l) = Ok (E:=parse_error) l'
    ∧ length l' = 8%nat
    ∧ ∀ v, 0 ≤ v ≤ 6 → ∃ x, get_index (E:=parse_error) l v = Ok x
        ∧ get_index (E:=parse_error) l' v = Ok (x || ((v =? 0) && b)).
Proof.
  intros Hl. destruct (get_index_Ok (E:=parse_error) l 7) as (b & Hb & _); [lia|].
  exists b. destruct b.
  - exists (<[0%nat := true]> l). split_and!; [done| |by rewrite length_insert|].
    + unfold set_index. by rewrite decide_True by lia.
    + intros v Hv. destruct (get_index_Ok (E:=parse_error) l v) as (x & Hx & Hlx); [lia|].
      exists x. split; [done|]. unfold get_index. rewrite decide_True by lia.
      rewrite list_lookup_insert, Hlx. case_decide as Hd.
      * replace v with 0 by lia. simpl. by rewrite orb_true_r.
      * rewrite (proj2 (Z.eqb_neq v 0)) by lia. simpl. by rewrite orb_false_r.
  - exists l. split_and!; [done..|]. intros v Hv.
    destruct (get_index_Ok (E:=parse_error) l v) as (x & Hx & _); [lia|].
    exists x. by rewrite andb_false_r, orb_false_r.
Qed.

Lemma is_Ok_bind {E A B} (m : result E A) (f : A → result E B) :
  is_Ok (m ≫= f) = match m with Ok a => is_Ok (f a) | _ => false end.
Proof. by destruct m. Qed.

(** What a successful [parse] stored in each table. *)
Lemma parse_Ok_tables spec s :
  parse spec = Ok s →
  ∃ f0 f1 f2 f3 f4, Fields spec = [f0; f1; f2; f3; f4]
  ∧ (∀ v, 0 ≤ v ≤ 59 → get_index (E:=parse_error) (minute s) v = Ok (in_field f0 0 59 "minute" v))
  ∧ (∀ v, 0 ≤ v ≤ 23 → get_index (E:=parse_error) (hour s) v = Ok (in_field f1 0 23 "hour" v))
  ∧ (∀ v, 1 ≤ v ≤ 31 → get_index (E:=parse_error) (dom s) v = Ok (in_field f2 1 31 "day-of-month" v))
  ∧ (∀ v, 1 ≤ v ≤ 12 → get_index (E:=parse_error) (month s) v = Ok (in_field f3 1 12 "month" v))
  ∧ (∀ v, 0 ≤ v ≤ 6 → get_index (E:=parse_error) (dow s) v
        = Ok (in_field f4 0 7 "day-of-week" v || ((v =? 0) && in_field f4 0 7 "day-of-week" 7)))
  ∧ domStar s = bool_decide (f2 = str "*") ∧ dowStar s = bool_decide (f4 = str "*").
Proof.
  unfold parse. destruct (Fields spec) as [|f0 [|f1 [|f2 [|f3 [|f4 [|]]]]]]; try done.
  intros H.
  apply bind_Ok_inv in H as (mi & [_ Hmi]%parseField_Ok & H); [|lia].
  apply bind_Ok_inv in H as (ho & [_ Hho]%parseField_Ok & H); [|lia].
  apply bind_Ok_inv in H as (dm & [_ Hdm]%parseField_Ok & H); [|lia].
  apply bind_Ok_inv in H as (mo & [_ Hmo]%parseField_Ok & H); [|lia].
  apply bind_Ok_inv in H as (dw & [Hl Hdw]%parseField_Ok & H); [|lia].
  destruct (sunday_ok dw Hl) as (b & dw' & Hb & Hset & _ & Hv).
  rewrite Hb in H. cbn -[set_index] in H. rewrite Hset in H. injection H as <-.
  exists f0, f1, f2, f3, f4. cbn. split_and!; try done; [auto with lia..|].
  intros v Hr. destruct (Hv v Hr) as (x & Hx & ->).
  rewrite Hdw in Hb, Hx by lia. by simplify_eq.
Qed.

Lemma parse_Panic_field spec msg :
  parse spec = Panic msg →
  ∃ f minVal maxVal name s t,
    f ∈ Fields spec ∧ s ∈ Split1 f comma ∧ 0 ≤ minVal ≤ maxVal ∧ maxVal ≤ 59
    ∧ read_term s minVal maxVal name = Ok t ∧ no_overflow t = false.
Proof.
  unfold parse. destruct (Fields spec) as [|f0 [|f1 [|f2 [|f3 [|f4 [|]]]]]]; try done.
  intros H.
  do 5 (apply bind_Panic_inv in H as [H|(? & ?Hset & H)];
    [apply parseField_Panic in H as (s & t & ? & ? & ?); [|lia];
     eexists _, _, _, _, s, t; split_and!; [|eassumption|..|eassumption|eassumption];
     [set_solver|lia..]|]).
  match goal with Hd : parseField _ 0 7 _ = Ok ?l |- _ =>
    apply parseField_Ok in Hd as [Hl _]; [|lia];
    destruct (sunday_ok l Hl) as (b & dw' & Hb & Hs & _) end.
  rewrite Hb in H. cbn -[set_index] in H. by rewrite Hs in H.
Qed.

(** ** Properties *)

Lemma match_fires spec s t :
  parse spec = Ok s → civil_ok t →
  ∃ f0 f1 f2 f3 f4, Fields spec = [f0; f1; f2; f3; f4]
    ∧ match_ s t = Ok (fires f0 f1 f2 f3 f4 t).
Proof.
  intros (f0 & f1 & f2 & f3 & f4 & Hf & Hmi & Hho & Hdm & Hmo & Hdw & Hds & Hws)%parse_Ok_tables.
  intros (? & ? & ? & ? & ?). exists f0, f1, f2, f3, f4. split; [done|].
  unfold match_, fires. rewrite Hmi, Hho, Hmo, Hdm, Hdw, Hds, Hws by done.
  generalize (in_field f0 0 59 "minute" (Minute t)), (in_field f1 0 23 "hour" (Hour t)),
    (in_field f3 1 12 "month" (Month t)), (in_field f2 1 31 "day-of-month" (Day t)),
    (in_field f4 0 7 "day-of-week" (Weekday t)
     || ((Weekday t =? 0) && in_field f4 0 7 "day-of-week" 7)),
    (bool_decide (f2 = str "*")), (bool_decide (f4 = str "*")).
  by intros [] [] [] [] [] [] [].
Qed.

(** C5: a schedule the parser accepted matches a time exactly when the Vixie
    rule holds of the five fields as written: minute, hour and month must all
    belong to their field; when both day fields are restricted either one
    suffices, otherwise both must hold; and 7 means Sunday.  No table is read
    out of range. *)
Theorem match_parse spec s t :
  parse spec = Ok s → civil_ok t →
  ∃ f0 f1 f2 f3 f4, Fields spec = [f0; f1; f2; f3; f4]
    ∧ match_ s t = Ok (fires f0 f1 f2 f3 f4 t).
Proof. apply match_fires. Qed.

(** C36: [parse] accepts a specification exactly when it is spelled by the
    grammar: five whitespace-separated fields of comma-separated terms, each
    term ["*"], a number or an ascending span of numbers, with or without a
    positive step, the numbers between 0 and 59 for minutes, 0 and 23 for
    hours, 1 and 31 for days, 1 and 12 for months and 0 and 7 for weekdays, and
    the first increment of a step still an [int]. *)
Theorem parse_accepts spec : is_Ok (parse spec) = true ↔ spec_spells (Fields spec).
Proof.
  unfold parse, spec_spells.
  destruct (Fields spec) as [|f0 [|f1 [|f2 [|f3 [|f4 [|]]]]]]; 
    try (split; [done|by intros (? & ? & ? & ? & ? & [=] & _)]).
  transitivity (field_spells 0 59 f0 ∧ field_spells 0 23 f1 ∧ field_spells 1 31 f2
    ∧ field_spells 1 12 f3 ∧ field_spells 0 7 f4);
    [|split; [by exists f0, f1, f2, f3, f4|by intros (? & ? & ? & ? & ? & [= <- <- <- <- <-] & ?)]].
  rewrite <-(parseField_spells 0 59 "minute"), <-(parseField_spells 0 23 "hour"),
    <-(parseField_spells 1 31 "day-of-month"), <-(parseField_spells 1 12 "month"),
    <-(parseField_spells 0 7 "day-of-week") by lia.
  destruct (parseField f0 _ _ _); [|split; [done|intros H; by destruct_and! H]..].
  destruct (parseField f1 _ _ _); [|split; [done|intros H; by destruct_and! H]..].
  destruct (parseField f2 _ _ _); [|split; [done|intros H; by destruct_and! H]..].
  destruct (parseField f3 _ _ _); [|split; [done|intros H; by destruct_and! H]..].
  destruct (parseField f4 _ _ _) as [dw| |] eqn:Hd; [|split; [done|intros H; by destruct_and! H]..].
  apply parseField_Ok in Hd as [Hl _]; [|lia].
  destruct (sunday_ok dw Hl) as (b & dw' & Hb & Hs & _).
  cbn -[get_index set_index]. rewrite Hb. cbn -[get_index set_index]. rewrite Hs. cbn. tauto.
Qed.

(** the only way [parse] can panic is a step so large that the counter of
    the fill loop wraps: some term has [lo + step] above the largest [int]. *)
Theorem parse_panics_only_on_overflow spec msg :
  parse spec = Panic msg →
  ∃ f minVal maxVal name s t,
    f ∈ Fields spec ∧ s ∈ Split1 f comma
    ∧ read_term s minVal maxVal name = Ok t ∧ MaxInt64 < t_lo t + t_step t.
Proof.
  intros (f & a & b & n & s & t & ? & ? & _ & _ & ? & Ho)%parse_Panic_field.
  exists f, a, b, n, s, t. split_and!; [done..|]. unfold no_overflow in Ho. lia.
Qed.

(** and it does panic: the largest [int] as the step of the day-of-month
    field, behind any valid minute and hour, makes [parse] index out of range
    instead of returning a schedule or an error. *)
Theorem parse_step_panics f0 f1 f3 f4 spec m h :
  Fields spec = [f0; f1; str "*/9223372036854775807"; f3; f4] →
  parseField f0 0 59 "minute" = Ok m → parseField f1 0 23 "hour" = Ok h →
  parse spec = Panic "index out of range".
Proof. intros Hf Hm Hh. unfold parse. rewrite Hf, Hm, Hh. vm_compute. reflexivity. Qed.

(** the loop of [parseTerm] terminates and sets exactly the bits its term
    denotes, keeping those already set. *)
Theorem parseTerm_marks s minVal maxVal name set t :
  0 ≤ minVal ≤ maxVal → maxVal ≤ 2 ^ 60 → maxVal < Z.of_nat (length set) →
  read_term s minVal maxVal name = Ok t → t_lo t + t_step t ≤ MaxInt64 →
  ∃ set', parseTerm s minVal maxVal name set = Ok set' ∧ length set' = length set
    ∧ ∀ i, set' !! i = (λ b, b || denotes t (Z.of_nat i)) <$> set !! i.
Proof.
  intros ? ? Hlen Ht Ho. exists (mark t set).
  split_and!; [|apply mark_length|apply mark_lookup].
  rewrite parseTerm_eq by done. rewrite Ht. cbn. unfold no_overflow.
  by rewrite (proj2 (Z.leb_le _ _)).
Qed.

(** ** Concrete schedules *)

(** Half past three on the first of the month and on Mondays. *)
Definition demo_spec : gostring := str "30 3 1 * 1".
Definition demo_schedule : schedule :=
  match parse demo_spec with
  | Ok s => s
  | _ => {| minute := []; hour := []; dom := []; month := []; dow := [];
            domStar := false; dowStar := false |}
  end.
(** A Monday, the 13th of July. *)
Definition demo_time : civil :=
  {| Minute := 30; Hour := 3; Day := 13; Month := 7; Weekday := 1 |}.

Lemma match_parse_witness :
  match_ demo_schedule demo_time = Ok true
  ∧ ∃ f0 f1 f2 f3 f4, Fields demo_spec = [f0; f1; f2; f3; f4]
    ∧ match_ demo_schedule demo_time = Ok (fires f0 f1 f2 f3 f4 demo_time).
Proof.
  split; [vm_compute; reflexivity|].
  apply (match_parse demo_spec demo_schedule demo_time); [vm_compute; reflexivity|].
  unfold civil_ok; simpl; lia.
Defined.

Definition overflow_spec : gostring := str "0 0 1/9223372036854775807 * *".

Lemma parse_panics_only_on_overflow_witness :
  ∃ f minVal maxVal name s t,
    f ∈ Fields overflow_spec ∧ s ∈ Split1 f comma
    ∧ read_term s minVal maxVal name = Ok t ∧ MaxInt64 < t_lo t + t_step t.
Proof.
  apply (parse_panics_only_on_overflow overflow_spec "index out of range").
  vm_compute. reflexivity.
Defined.

Lemma parse_step_panics_witness :
  parse (str "0 0 */9223372036854775807 * *") = Panic "index out of range".
Proof.
  apply (parse_step_panics (str "0") (str "0") (str "*") (str "*") _
    (true :: replicate 59 false) (true :: replicate 23 false));
    vm_compute; reflexivity.
Defined.

Lemma parseTerm_marks_witness :
  ∃ set', parseTerm (str "1-10/3") 0 59 "minute" (replicate 60 false) = Ok set'
    ∧ length set' = 60%nat
    ∧ ∀ i, set' !! i = (λ b, b || denotes {| t_lo := 1; t_hi := 10; t_step := 3 |} (Z.of_nat i))
                       <$> replicate 60 false !! i.
Proof.
  apply (parseTerm_marks (str "1-10/3") 0 59 "minute" (replicate 60 false)
    {| t_lo := 1; t_hi := 10; t_step := 3 |});
    [lia|lia|rewrite length_replicate; lia|vm_compute; reflexivity|vm_compute; discriminate].
Defined.
