(* ===== verification/HttpTransport.v ===== *)
(** * httpclient: the retrying transport
    (httpclient/retry_transport.go, httpclient/classify.go)

    [RoundTrip] drives [once] through the retrier of [Retry].  The transport's
    own state is the [attemptLoop] together with the attempt contexts and the
    response bodies it creates or receives, which are heap objects here so
    that leaks and double closes are visible.  Everything outside (the
    network, the clock, the caller's context, the budget, the hook) is an
    arbitrary environment of type [O]. *)
From Stdlib Require Import Ascii String.
From S2P Require Export Prelude GoStrings Errors Retry.
Local Open Scope Z_scope.

(** ** Interfaces of the environment *)

(** [req.Context()]: its [Err] as time passes, its deadline if any. *)
Record Context O := {
  ctx_Err : O → option error;
  ctx_Deadline : option Z;
}.
Arguments ctx_Err {_}. Arguments ctx_Deadline {_}.

(** What a [base.RoundTrip] yields: an error, or a status and the
    [Retry-After] header (empty when absent) over an unread body. *)
Inductive outcome :=
  | Failed (err : error)
  | Responded (status : Z) (retry_after : gostring).

(** [http.RoundTripper].  It is told the attempt context's deadline and
    whether the body was rewound, and reports [GotConnInfo.Reused]. *)
Record RoundTripper O := {
  base_RoundTrip : option Z → bool → O → outcome * bool * O;
}.
Arguments base_RoundTrip {_}.

Record RetryBudget O := {
  Allow : O → bool * O;
  Record_ : bool → O → O;
}.
Arguments Allow {_}. Arguments Record_ {_}.

(** The clock, the timer [select] of the retrier and its random source. *)
Record Clock O := {
  now : O → Z;
  clock_select : Z → O → bool * O;
  clock_Int64N : Z → O → Z * O;
}.
Arguments now {_}. Arguments clock_select {_}. Arguments clock_Int64N {_}.

(** [noopBudget] *)
Definition noopBudget {O} : RetryBudget O :=
  {| Allow := λ o, (true, o); Record_ := λ _ o, o |}.

(** ** Data *)

Record AttemptInfo := {
  ai_Method : gostring;
  ai_Host : gostring;
  ai_Attempt : Z;
  ai_Status : Z;
  ai_Err : option error;
  ai_Elapsed : Z;
  ai_Retrying : bool;
  ai_Reused : bool;
}.

Record retryTransport O := {
  base : RoundTripper O;
  retrier : Retry;
  perAttempt : Z;
  nonIdem : bool;
  maxRetryAfter : Z;
  budget : RetryBudget O;
  onAttempt : option (AttemptInfo → O → O);
}.
Arguments base {_}. Arguments retrier {_}. Arguments perAttempt {_}. Arguments nonIdem {_}.
Arguments maxRetryAfter {_}. Arguments budget {_}. Arguments onAttempt {_}.

(** A request body: nil, [http.NoBody] or a reader. *)
Inductive reqbody := NilBody | NoBody | Reader.
#[export] Instance reqbody_eq_dec : EqDecision reqbody.
Proof. solve_decision. Defined.

Record Request O := {
  Method : gostring;
  Host : gostring;
  req_Body : reqbody;
  GetBody : option (O → option error * O);
  req_Context : Context O;
}.
Arguments Method {_}. Arguments Host {_}. Arguments req_Body {_}.
Arguments GetBody {_}. Arguments req_Context {_}.

(** A response body: what the base transport returned (an index in the heap
    of bodies), possibly inside a [cancelOnClose] over an attempt context (an
    index in the heap of contexts). *)
Inductive body :=
  | Raw (b : nat)
  | CancelOnClose (inner : body) (cancel : option nat).

Record Response := {
  StatusCode : Z;
  RetryAfter : gostring;
  Body : body;
}.

(** Heap objects: a body received from the base transport, and an attempt
    context: the timer it was given and the error it was cancelled with. *)
Record bodystate := { drained : bool; closes : nat }.
Record actx := { a_deadline : option Z; a_err : option error }.

(** The mutable fields of [attemptLoop], and the heaps. *)
Record attemptLoop := {
  resp : option Response;
  prev : option Response;
  prevCancel : option nat;
  attempt : Z;
  ctxs : list actx;
  bodies : list bodystate;
}.
Definition attemptLoop_init : attemptLoop :=
  {| resp := None; prev := None; prevCancel := None; attempt := 0; ctxs := []; bodies := [] |}.

(** What the outside observes of a [RoundTrip]. *)
Inductive tevent :=
  | ESend (attempt : Z) (rewound : bool)
  | EAllow (granted : bool)
  | ERecord (retried : bool)
  | EGetBody (err : option error)
  | EAttempt (info : AttemptInfo)
  | ENilCancel.                     (* a nil CancelFunc was called: a panic *)

(** ** classify.go *)

Definition errAttemptTimeout : error := errors_new "httpclient.errAttemptTimeout".
Definition errBudgetExhausted : error := errors_new "httpclient.errBudgetExhausted".
Definition ErrNonReplayableBody : error := errors_new "httpclient.ErrNonReplayableBody".

Definition StatusTooManyRequests : Z := 429.
Definition StatusServiceUnavailable : Z := 503.
Definition retryableStatuses : list Z :=
  [StatusTooManyRequests; 500; 502; StatusServiceUnavailable; 504].
Definition idempotentMethods : list gostring :=
  map str ["GET"; "HEAD"; "OPTIONS"; "PUT"; "DELETE"; "TRACE"]%string.

Definition isCallerCtxErr (err : error) : bool :=
  errors_is err Canceled || errors_is err DeadlineExceeded.

(** Assignability to [retryableStatusError]. *)
Definition as_retryableStatus (e : error) : option (Z * Z) :=
  match ekind e with KStatus status delay => Some (status, delay) | _ => None end.

(** Assignability to [net.Error], with what [Timeout] returns.  [syscall.Errno]
    and [context.DeadlineExceeded] implement the interface too. *)
Definition as_netError (e : error) : option bool :=
  match ekind e with
  | KNet _ timeout => Some timeout
  | KErrno n => Some (bool_decide (n = 11 ∨ n = 110))
  | KDeadlineExceeded => Some true
  | _ => None
  end.

Definition defaultRetryIf (err : option error) : bool :=
  match err with
  | None => false
  | Some err =>
      if isCallerCtxErr err then false
      else if errors_is err errAttemptTimeout then true
      else match errors_as as_retryableStatus err with
      | Some _ => true
      | None =>
          match errors_as as_netError err with
          | Some true => true
          | _ => errors_is err ECONNREFUSED || errors_is err ECONNRESET
          end
      end
  end.

(** ** retry_transport.go *)

(** [time.Time.Sub] saturates. *)
Definition sat64 (x : Z) : Z := Z.max MinInt64 (Z.min x MaxInt64).
Definition Until {O} (clk : Clock O) (t : Z) (o : O) : Z := sat64 (t - now clk o).

Section transport.
Context {O : Type}.
(** [http.ParseTime] *)
Variable ParseTime : gostring → option Z.
Variable clk : Clock O.

Definition W : Type := O * attemptLoop.
#[local] Abbreviation M := (Comp tevent W).

Definition env_step {A} (f : O → A * O) : M A := λ '(o, l),
  let '(a, o) := f o in (a, [], (o, l)).
Definition upd (f : attemptLoop → attemptLoop) : M () := modify (λ '(o, l), (o, f l)).

(** *** Attempt contexts *)

(** [attemptCtx.Err()]: its own cancellation, the parent's death, or its timer. *)
Definition actx_Err (parent : Context O) (c : actx) (o : O) : option error :=
  match a_err c with
  | Some e => Some e
  | None =>
      match ctx_Err parent o with
      | Some e => Some e
      | None =>
          match a_deadline c with
          | Some t => if t <=? now clk o then Some DeadlineExceeded else None
          | None => None
          end
      end
  end.

Definition set_ctxs (cs : list actx) (l : attemptLoop) : attemptLoop :=
  {| resp := resp l; prev := prev l; prevCancel := prevCancel l; attempt := attempt l;
     ctxs := cs; bodies := bodies l |}.
Definition set_bodies (bs : list bodystate) (l : attemptLoop) : attemptLoop :=
  {| resp := resp l; prev := prev l; prevCancel := prevCancel l; attempt := attempt l;
     ctxs := ctxs l; bodies := bs |}.
Definition set_prev (p : option Response) (c : option nat) (l : attemptLoop) : attemptLoop :=
  {| resp := resp l; prev := p; prevCancel := c; attempt := attempt l;
     ctxs := ctxs l; bodies := bodies l |}.
Definition set_resp (r : option Response) (l : attemptLoop) : attemptLoop :=
  {| resp := r; prev := prev l; prevCancel := prevCancel l; attempt := attempt l;
     ctxs := ctxs l; bodies := bodies l |}.
Definition incr_attempt (l : attemptLoop) : attemptLoop :=
  {| resp := resp l; prev := prev l; prevCancel := prevCancel l; attempt := attempt l + 1;
     ctxs := ctxs l; bodies := bodies l |}.

(** A [context.CancelFunc]: the first cause of death is kept. *)
Definition cancel (parent : Context O) (c : nat) : M () :=
  modify (λ '(o, l), (o, set_ctxs (alter (λ x,
    {| a_deadline := a_deadline x;
       a_err := Some (default Canceled (actx_Err parent x o)) |}) c (ctxs l)) l)).

(** A call through a [CancelFunc] variable that may be nil. *)
Definition call_cancel (parent : Context O) (c : option nat) : M () :=
  match c with Some c => cancel parent c | None => tell ENilCancel end.

(** [context.WithCancel] and [context.WithTimeout]: a new heap object. *)
Definition WithCancel : M nat := λ '(o, l),
  (length (ctxs l), [], (o, set_ctxs (ctxs l ++ [{| a_deadline := None; a_err := None |}]) l)).

Definition WithTimeout (parent : Context O) (d : Z) : M nat := λ '(o, l),
  let t := now clk o + d in
  let own := match ctx_Deadline parent with Some cur => negb (cur <? t) | None => true end in
  (length (ctxs l), [],
   (o, set_ctxs (ctxs l ++ [{| a_deadline := if own then Some t else None; a_err := None |}]) l)).

Definition attemptContext (rt : retryTransport O) (parent : Context O) : M nat :=
  if decide (perAttempt rt ≤ 0) then WithCancel else
  '(o, _) ← get;
  let d := perAttempt rt in
  let d := match ctx_Deadline parent with
           | Some dl => if Until clk dl o <? d then Until clk dl o else d
           | None => d
           end in
  WithTimeout parent d.

(** *** Bodies *)

(** [io.Copy(io.Discard, body)] *)
Fixpoint drain (b : body) : M () :=
  match b with
  | Raw i => upd (λ l, set_bodies (alter (λ s,
      {| drained := true; closes := closes s |}) i (bodies l)) l)
  | CancelOnClose b _ => drain b
  end.

Fixpoint Close (parent : Context O) (b : body) : M () :=
  match b with
  | Raw i => upd (λ l, set_bodies (alter (λ s,
      {| drained := drained s; closes := S (closes s) |}) i (bodies l)) l)
  | CancelOnClose b c => Close parent b;; call_cancel parent c
  end.

Definition wrapBodyCancel (r : Response) (c : option nat) : Response :=
  {| StatusCode := StatusCode r; RetryAfter := RetryAfter r; Body := CancelOnClose (Body r) c |}.

Definition drainClose (parent : Context O) (r : Response) (c : option nat) : M () :=
  drain (Body r);; Close parent (Body r);; call_cancel parent c.

(** *** Retry-After *)

Definition parseRetryAfter (rt : retryTransport O) (r : Response) (o : O) : Z :=
  if decide (StatusCode r ≠ StatusTooManyRequests ∧ StatusCode r ≠ StatusServiceUnavailable)
  then 0 else
  let v := RetryAfter r in
  let by_date :=
    match ParseTime v with
    | Some t => if decide (0 < Until clk t o) then Until clk t o else 0
    | None => 0
    end in
  match Atoi v with
  | Ok secs =>
      if decide (0 < secs) then
        if decide ((maxRetryAfter rt `quot` Second +! 1)%go < secs)
        then (maxRetryAfter rt +! Second)%go
        else (secs *! Second)%go
      else by_date
  | _ => by_date
  end.

Definition retryAfterDelay (rt : retryTransport O) (r : Response) (o : O) : Z * bool :=
  let delay := parseRetryAfter rt r o in
  if decide (maxRetryAfter rt < delay) then (0, false) else (delay, true).

(** *** One attempt *)
Section request.
Variable rt : retryTransport O.
Variable req : Request O.
#[local] Abbreviation parent := (req_Context req).

Definition emit (attempt status : Z) (err : option error) (elapsed : Z)
    (retrying reused : bool) : M () :=
  match onAttempt rt with
  | None => mret ()
  | Some hook =>
      let info := {| ai_Method := Method req; ai_Host := Host req; ai_Attempt := attempt;
                     ai_Status := status; ai_Err := err; ai_Elapsed := elapsed;
                     ai_Retrying := retrying; ai_Reused := reused |} in
      tell (EAttempt info);; modify (λ '(o, l), (hook info o, l))
  end.

Definition normalizeErr (c : nat) (rerr : error) : M error := λ '(o, l),
  (match ctx_Err parent o with
   | Some e => e
   | None =>
       match c' ← ctxs l !! c; actx_Err parent c' o with
       | Some _ => errAttemptTimeout
       | None => rerr
       end
   end, [], (o, l)).

Definition classify (retryable : bool) (r : Response) (c : nat) (elapsed : Z) (reused : bool)
    : M (option error) :=
  '(o, l) ← get;
  match (if retryable && bool_decide (StatusCode r ∈ retryableStatuses)
         then let '(delay, withinCap) := retryAfterDelay rt r o in
              if (withinCap : bool) then Some delay else None
         else None) with
  | Some delay =>
      upd (set_prev (Some r) (Some c));;
      emit (attempt l) (StatusCode r) None elapsed true reused;;
      mret (Some (Node (KStatus (StatusCode r) delay) []))
  | None =>
      upd (set_resp (Some (wrapBodyCancel r (Some c))));;
      emit (attempt l) (StatusCode r) None elapsed false reused;;
      mret None
  end.

(** [base.RoundTrip]: a response brings a fresh body. *)
Definition roundtrip (c : nat) (rewound : bool) : M (result error Response * bool) := λ '(o, l),
  let deadline := c' ← ctxs l !! c; a_deadline c' in
  let '(out, reused, o) := base_RoundTrip (base rt) deadline rewound o in
  match out with
  | Failed e => ((Err e, reused), [ESend (attempt l) rewound], (o, l))
  | Responded status ra =>
      let r := {| StatusCode := status; RetryAfter := ra; Body := Raw (length (bodies l)) |} in
      ((Ok r, reused), [ESend (attempt l) rewound],
       (o, set_bodies (bodies l ++ [{| drained := false; closes := 0 |}]) l))
  end.

(** [send] from [start := time.Now()] on. *)
Definition send_request (retryable : bool) (c : nat) (rewound : bool) : M (option error) :=
  '(o1, l) ← get;
  '(out, reused) ← roundtrip c rewound;
  '(o2, _) ← get;
  let elapsed := sat64 (now clk o2 - now clk o1) in
  match out with
  | Ok r => classify retryable r c elapsed reused
  | Err rerr =>
      cancel parent c;;
      normErr ← normalizeErr c rerr;
      emit (attempt l) 0 (Some normErr) elapsed (retryable && negb (isCallerCtxErr normErr)) reused;;
      mret (Some normErr)
  | Panic _ => mret None
  end.

Definition send (retryable : bool) : M (option error) :=
  c ← attemptContext rt parent;
  '(_, l) ← get;
  match GetBody req with
  | Some get_body =>
      if decide (1 < attempt l) then
        err ← env_step get_body;
        tell (EGetBody err);;
        match err with
        | Some e => cancel parent c;; mret (Some e)
        | None => send_request retryable c true
        end
      else send_request retryable c false
  | None => send_request retryable c false
  end.

Definition drainPrev : M () :=
  '(_, l) ← get;
  match prev l with
  | None => mret ()
  | Some r => drainClose parent r (prevCancel l);; upd (set_prev None None)
  end.

Definition once (retryable : bool) : M (option error) :=
  upd incr_attempt;;
  drainPrev;;
  '(_, l) ← get;
  if decide (1 < attempt l) then
    granted ← env_step (Allow (budget rt));
    tell (EAllow granted);;
    modify (λ '(o, l), (Record_ (budget rt) granted o, l));;
    tell (ERecord granted);;
    if (granted : bool) then send retryable else mret (Some errBudgetExhausted)
  else send retryable.

(** [result] *)
Definition finish (err : option error) : M (result error (option Response)) :=
  '(_, l) ← get;
  match resp l with
  | Some r => mret (Ok (Some r))
  | None =>
      match err ≫= errors_as as_retryableStatus, prev l with
      | Some _, Some r => mret (Ok (Some (wrapBodyCancel r (prevCancel l))))
      | _, p =>
          match p with Some r => drainClose parent r (prevCancel l) | None => mret () end;;
          mret (match err with Some e => Err e | None => Ok None end)
      end
  end.

(** The retrier sees the loop as its world; what the outside observes is
    collected on the side. *)
Definition as_fn {A} (m : M A) : W * list tevent → A * (W * list tevent) := λ '(w, log),
  let '(a, t, w) := m w in (a, (w, log ++ t)).

Definition lift_env {A} (f : O → A * O) : W * list tevent → A * (W * list tevent) :=
  λ '((o, l), log), let '(a, o) := f o in (a, ((o, l), log)).

Definition run_retrier (retryable : bool) : M (option error) := λ w,
  let '(err, _, (w, log)) :=
    DoCtx (λ d, lift_env (clock_select clk d)) (λ n, lift_env (clock_Int64N clk n))
      (Some (retrier rt)) (Some (λ '((o, _), _), ctx_Err parent o))
      (Some (as_fn (once retryable))) (w, []) in
  (err, log, w).

Definition isRetryable : bool := nonIdem rt || bool_decide (Method req ∈ idempotentMethods).

Definition RoundTrip : M (result error (option Response)) :=
  let retryable := isRetryable in
  if retryable && bool_decide (req_Body req = Reader) &&
     match GetBody req with None => true | Some _ => false end
  then mret (Err ErrNonReplayableBody)
  else if retryable then err ← run_retrier retryable; finish err
  else err ← once retryable; finish err.
End request.
End transport.

(** ** Specification *)

(** The resources of a [RoundTrip]: [lb] is the only body still open, every
    other received body was closed exactly once; [lc] is the only attempt
    context not cancelled. *)
Definition owned (lb lc : option nat) (l : attemptLoop) : Prop :=
  (∀ i s, bodies l !! i = Some s → closes s = if decide (lb = Some i) then 0%nat else 1%nat)
  ∧ (∀ i c, ctxs l !! i = Some c → a_err c = None ↔ lc = Some i)
  ∧ (∀ b, lb = Some b → (b < length (bodies l))%nat)
  ∧ (∀ c, lc = Some c → (c < length (ctxs l))%nat).

(** The log of attempt [k], with what it hands to the retrier: the budget is
    asked before every attempt but the first, a body is rewound before it is
    sent again, there is at most one request and one hook call. *)
Definition hook_log {O} (rt : retryTransport O) (info : AttemptInfo) : list tevent :=
  match onAttempt rt with Some _ => [EAttempt info] | None => [] end.

Inductive attempt_log {O} (rt : retryTransport O) (req : Request O) (retryable : bool) (k : Z)
    : list tevent → option error → Prop :=
  | log_denied :
      1 < k →
      attempt_log rt req retryable k [EAllow false; ERecord false] (Some errBudgetExhausted)
  | log_rewind e :
      1 < k →
      attempt_log rt req retryable k [EAllow true; ERecord true; EGetBody (Some e)] (Some e)
  | log_sent gate rewound rewinding info res :
      gate = (if decide (1 < k) then [EAllow true; ERecord true] else []) →
      rewound = bool_decide (1 < k ∧ is_Some (GetBody req)) →
      rewinding = (if rewound then [EGetBody None] else []) →
      ai_Method info = Method req → ai_Host info = Host req → ai_Attempt info = k →
      (ai_Retrying info = true → retryable = true ∧ res ≠ None) →
      (ai_Status info = 0 ∧ ai_Err info = res ∧ res ≠ None
       ∨ ai_Err info = None
         ∧ ∀ e, res = Some e → ∃ d, e = Node (KStatus (ai_Status info) d) []) →
      attempt_log rt req retryable k
        (gate ++ rewinding ++ [ESend k rewound] ++ hook_log rt info) res.

(** The log of a [RoundTrip]: the logs of its attempts, numbered from [1];
    another attempt follows only one that handed an error to the retrier.  The
    last index is what the last attempt handed on. *)
Inductive attempts_log {O} (rt : retryTransport O) (req : Request O) (retryable : bool)
    : Z → list tevent → option error → Prop :=
  | log_start e : attempts_log rt req retryable 0 [] (Some e)
  | log_next n log e t res :
      attempts_log rt req retryable n log (Some e) →
      attempt_log rt req retryable (n + 1) t res →
      attempts_log rt req retryable (n + 1) (log ++ t) res.

(** ** Facts *)

Section owned.
Implicit Types (l : attemptLoop).

Lemma owned_init : owned None None attemptLoop_init.
Proof. unfold owned; simpl. split_and!; intros; simplify_list_eq; done. Qed.

Lemma owned_alloc_ctx lb l d :
  owned lb None l →
  owned lb (Some (length (ctxs l)))
    (set_ctxs (ctxs l ++ [{| a_deadline := d; a_err := None |}]) l).
Proof.
  intros (Hb & Hc & Hlb & _). unfold owned; simpl. split_and!; [done| |done|].
  - intros i c [[? Hi]|[-> <-]]%lookup_snoc_Some; [|done].
    rewrite (Hc _ _ Hi). split; [done|]. intros [= ?]. lia.
  - intros c [= <-]. rewrite length_app. simpl. lia.
Qed.

Lemma owned_cancel lb c l f :
  (∀ x, a_err (f x) ≠ None) →
  owned lb (Some c) l → owned lb None (set_ctxs (alter f c (ctxs l)) l).
Proof.
  intros Hf (Hb & Hc & Hlb & _). unfold owned; simpl. split_and!; [done| |done|done].
  intros i x Hx. split; [|done]. intros Hn. exfalso.
  destruct (decide (i = c)) as [->|Hne].
  - rewrite list_lookup_alter_eq in Hx. apply fmap_Some in Hx as (y & _ & ->). by apply (Hf y).
  - rewrite list_lookup_alter_ne in Hx by done. apply (Hc _ _ Hx) in Hn. congruence.
Qed.

Lemma owned_alloc_body lc l :
  owned None lc l →
  owned (Some (length (bodies l))) lc
    (set_bodies (bodies l ++ [{| drained := false; closes := 0 |}]) l).
Proof.
  intros (Hb & Hc & _ & Hlc). unfold owned; simpl. split_and!; [|done| |done].
  - intros i s [[? Hi]|[-> <-]]%lookup_snoc_Some; [|by rewrite decide_True].
    rewrite (Hb _ _ Hi), decide_False, decide_False by (done || intros [= ?]; lia). done.
  - intros b [= <-]. rewrite length_app. simpl. lia.
Qed.

Lemma owned_drain b lb lc l :
  owned lb lc l →
  owned lb lc (set_bodies (alter (λ s, {| drained := true; closes := closes s |}) b (bodies l)) l).
Proof.
  intros (Hb & Hc & Hlb & Hlc). unfold owned; simpl. rewrite length_alter.
  split_and!; [|done..]. intros i s Hs.
  destruct (decide (i = b)) as [->|Hne].
  - rewrite list_lookup_alter_eq in Hs. apply fmap_Some in Hs as (y & Hy & ->).
    simpl. by apply Hb.
  - rewrite list_lookup_alter_ne in Hs by done. by apply Hb.
Qed.

Lemma owned_close b lc l :
  owned (Some b) lc l →
  owned None lc
    (set_bodies (alter (λ s, {| drained := drained s; closes := S (closes s) |}) b (bodies l)) l).
Proof.
  intros (Hb & Hc & Hlb & Hlc). unfold owned; simpl.
  split_and!; [|done|done|done]. intros i s Hs.
  destruct (decide (i = b)) as [->|Hne].
  - rewrite list_lookup_alter_eq in Hs. apply fmap_Some in Hs as (y & Hy & ->).
    simpl. rewrite (Hb _ _ Hy), decide_True; done.
  - rewrite list_lookup_alter_ne in Hs by done. by rewrite (Hb _ _ Hs), decide_False by congruence.
Qed.
End owned.

Lemma attempts_log_nonneg {O} (rt : retryTransport O) (req : Request O) ret n log res :
  attempts_log rt req ret n log res → 0 ≤ n.
Proof. induction 1; lia. Qed.

(** Between attempts: nothing live, or the held response and its context. *)
Definition held (l : attemptLoop) : Prop :=
  resp l = None ∧
  match prev l with
  | None => prevCancel l = None ∧ owned None None l
  | Some r => ∃ b c, Body r = Raw b ∧ prevCancel l = Some c ∧ owned (Some b) (Some c) l
  end.
Definition idle (l : attemptLoop) : Prop := held l ∧ prev l = None.

(** After an attempt that handed [res] to the retrier. *)
Definition after_attempt (res : option error) (l : attemptLoop) : Prop :=
  match res with
  | None => prev l = None ∧ ∃ r b c,
      resp l = Some r ∧ Body r = CancelOnClose (Raw b) (Some c) ∧ owned (Some b) (Some c) l
  | Some e => held l ∧ ∀ r, prev l = Some r → ∃ d, e = Node (KStatus (StatusCode r) d) []
  end.

Section facts.
Context {O : Type}.
Variable ParseTime : gostring → option Z.
Variable clk : Clock O.
Variable rt : retryTransport O.
Variable req : Request O.
#[local] Abbreviation parent := (req_Context req).
Implicit Types (o : O) (l : attemptLoop) (w : O * attemptLoop).

Lemma emit_spec k status err el retrying reused o l :
  ∃ o', emit rt req k status err el retrying reused (o, l)
        = ((), hook_log rt {| ai_Method := Method req; ai_Host := Host req; ai_Attempt := k;
                 ai_Status := status; ai_Err := err; ai_Elapsed := el;
                 ai_Retrying := retrying; ai_Reused := reused |}, (o', l)).
Proof. unfold emit, hook_log. destruct (onAttempt rt); by eexists. Qed.

Lemma attemptContext_spec o l :
  ∃ d, attemptContext clk rt parent (o, l)
       = (length (ctxs l), [], (o, set_ctxs (ctxs l ++ [{| a_deadline := d; a_err := None |}]) l)).
Proof. unfold attemptContext. case_decide; by eexists. Qed.

Lemma drainPrev_spec o l :
  held l → ∃ l', drainPrev clk req (o, l) = ((), [], (o, l')) ∧ idle l' ∧ attempt l' = attempt l.
Proof.
  intros [Hr Hp]. unfold drainPrev, mbind, comp_bind, get. cbn.
  destruct (prev l) as [r|] eqn:Hprev.
  - destruct Hp as (b & c & Hb & Hc & Ho). unfold drainClose. rewrite Hb, Hc.
    eexists. split; [reflexivity|]. unfold idle, held. cbn. split_and!; try done.
    apply (owned_drain b), owned_close in Ho. by apply (λ f Hf, owned_cancel None c _ f Hf Ho).
  - exists l. unfold idle, held. by rewrite Hprev.
Qed.

Lemma classify_spec retryable r b c el reused o l :
  resp l = None → prev l = None → Body r = Raw b → owned (Some b) (Some c) l →
  ∃ res info o' l',
    classify ParseTime clk rt req retryable r c el reused (o, l) = (res, hook_log rt info, (o', l'))
    ∧ after_attempt res l' ∧ attempt l' = attempt l
    ∧ ai_Method info = Method req ∧ ai_Host info = Host req ∧ ai_Attempt info = attempt l
    ∧ (ai_Retrying info = true → retryable = true ∧ res ≠ None)
    ∧ ai_Err info = None
    ∧ ∀ e, res = Some e → ∃ d, e = Node (KStatus (ai_Status info) d) [].
Proof.
  intros Hr Hp Hb Ho. unfold classify, mbind, comp_bind, get, mret, comp_ret. cbn.
  destruct (retryable && _) eqn:Hret; [destruct (retryAfterDelay _ _ _ _ _) as [d []]|];
    match goal with
    | |- context [emit rt req ?k ?s ?e ?el ?x ?y ?w] =>
        destruct (emit_spec k s e el x y w.1 w.2) as [o' He]; cbn in He; rewrite He
    end; cbn; rewrite app_nil_r; eexists _, _, o', _; (split; [reflexivity|]); cbn;
    split_and!; try done.
  - apply andb_prop in Hret as [-> _]. unfold held; cbn. eauto 10.
  - intros r' [= <-]. eauto.
  - intros _. by apply andb_prop in Hret as [-> _].
  - intros e [= <-]. eauto.
  - exists (wrapBodyCancel r (Some c)), b, c. cbn. by rewrite Hb.
  - exists (wrapBodyCancel r (Some c)), b, c. cbn. by rewrite Hb.
Qed.
(** What the hook is told of an attempt that handed on [res]. *)
Definition info_ok (retryable : bool) (k : Z) (info : AttemptInfo) (res : option error) : Prop :=
  ai_Method info = Method req ∧ ai_Host info = Host req ∧ ai_Attempt info = k
  ∧ (ai_Retrying info = true → retryable = true ∧ res ≠ None)
  ∧ (ai_Status info = 0 ∧ ai_Err info = res ∧ res ≠ None
     ∨ ai_Err info = None
       ∧ ∀ e, res = Some e → ∃ d, e = Node (KStatus (ai_Status info) d) []).

Lemma send_request_spec retryable c rewound o l :
  resp l = None → prev l = None → prevCancel l = None → owned None (Some c) l →
  ∃ res info o' l',
    send_request ParseTime clk rt req retryable c rewound (o, l)
    = (res, ESend (attempt l) rewound :: hook_log rt info, (o', l'))
    ∧ after_attempt res l' ∧ attempt l' = attempt l ∧ info_ok retryable (attempt l) info res.
Proof.
  intros Hr Hp Hpc Ho. unfold send_request, roundtrip, mbind, comp_bind, get. cbn.
  destruct (base_RoundTrip _ _ _ _) as [[[err|status ra] reused] o1]; cbn.
  - match goal with
    | |- context [emit rt req ?k ?s ?e ?el ?x ?y ?w] =>
        destruct (emit_spec k s e el x y w.1 w.2) as [o' He]; cbn in He; rewrite He
    end; cbn. rewrite app_nil_r. eexists _, _, o', _. split; [reflexivity|].
    unfold after_attempt, held, info_ok; cbn. rewrite Hp; cbn. split_and!; try done.
    + by apply (λ f Hf, owned_cancel None c _ f Hf Ho).
    + by intros [-> _]%andb_prop.
    + by left.
  - match goal with
    | |- context [classify ParseTime clk rt req retryable ?r c ?el reused (?o, ?l')] =>
        destruct (classify_spec retryable r (length (bodies l)) c el reused o l')
          as (res & info & o' & l'' & -> & Hpost & Hk & ?); [done..| |]
    end.
    { by apply owned_alloc_body. }
    cbn in *. eexists res, info, o', l''. split; [reflexivity|].
    unfold info_ok. intuition auto.
Qed.

Lemma send_spec retryable o l :
  idle l →
  ∃ res o' l' t, send ParseTime clk rt req retryable (o, l) = (res, t, (o', l'))
    ∧ after_attempt res l' ∧ attempt l' = attempt l
    ∧ (∀ gate, gate = (if decide (1 < attempt l) then [EAllow true; ERecord true] else []) →
         attempt_log rt req retryable (attempt l) (gate ++ t) res).
Proof.
  intros [[Hr Hp] Hprev]. rewrite Hprev in Hp. destruct Hp as [Hpc Ho].
  unfold send, mbind, comp_bind, get. cbn.
  destruct (attemptContext_spec o l) as [d ->]. cbn.
  set (l1 := set_ctxs _ l). apply (owned_alloc_ctx _ _ d) in Ho. fold l1 in Ho.
  assert (∀ o rewound, ∃ res info o' l',
    send_request ParseTime clk rt req retryable (length (ctxs l)) rewound (o, l1)
    = (res, ESend (attempt l) rewound :: hook_log rt info, (o', l'))
    ∧ after_attempt res l' ∧ attempt l' = attempt l ∧ info_ok retryable (attempt l) info res) as Hsend.
  { intros o0 rw. exact (send_request_spec retryable _ rw o0 l1 Hr Hprev Hpc Ho). }
  assert (∀ gate rewound info res,
    info_ok retryable (attempt l) info res →
    rewound = bool_decide (1 < attempt l ∧ is_Some (GetBody req)) →
    gate = (if decide (1 < attempt l) then [EAllow true; ERecord true] else []) →
    attempt_log rt req retryable (attempt l)
      (gate ++ (if rewound then [EGetBody None] else []) ++ [ESend (attempt l) rewound] ++ hook_log rt info) res)
    as Hlog.
  { intros gate rewound info res (?&?&?&?&?) -> ->. by eapply log_sent. }
  destruct (GetBody req) as [gb|] eqn:Hgb.
  - case_decide as Hk.
    + unfold env_step. destruct (gb o) as [[e|] o1]; cbn.
      * eexists _, _, _, _. split; [reflexivity|]. unfold after_attempt, held. cbn. rewrite Hprev; cbn.
        split_and!; try done.
        -- by apply (λ f Hf, owned_cancel None _ _ f Hf Ho).
        -- intros gate ->. simpl. by constructor.
      * destruct (Hsend o1 true) as (res & info & o' & l' & -> & ? & ? & Hi). cbn.
        eexists _, _, _, _. split; [reflexivity|]. split_and!; [done..|].
        intros gate ->. refine (Hlog _ true _ _ Hi _ _); [|done].
        symmetry. apply bool_decide_eq_true. eauto.
    + destruct (Hsend o false) as (res & info & o' & l' & -> & ? & ? & Hi). cbn.
      eexists _, _, _, _. split; [reflexivity|]. split_and!; [done..|].
      intros gate ->. refine (Hlog _ false _ _ Hi _ _); [|done].
      symmetry. apply bool_decide_eq_false. lia.
  - destruct (Hsend o false) as (res & info & o' & l' & -> & ? & ? & Hi). cbn.
    eexists _, _, _, _. split; [reflexivity|]. split_and!; [done..|].
    intros gate ->. refine (Hlog _ false _ _ Hi _ _); [|done].
    symmetry. apply bool_decide_eq_false. by intros [_ []].
Qed.

Lemma once_spec retryable o l :
  held l → 0 ≤ attempt l →
  ∃ res o' l' t, once ParseTime clk rt req retryable (o, l) = (res, t, (o', l'))
    ∧ after_attempt res l' ∧ attempt l' = attempt l + 1
    ∧ attempt_log rt req retryable (attempt l + 1) t res.
Proof.
  intros Hheld Hk. unfold once, mbind, comp_bind, get, upd, modify, tell. cbn.
  destruct (drainPrev_spec o (incr_attempt l) Hheld) as (l1 & -> & Hidle & Hk1).
  assert (attempt l1 = attempt l + 1) as Hk2 by apply Hk1. cbn. case_decide as H1.
  - unfold env_step. destruct (Allow (budget rt) o) as [[] o1]; cbn.
    + destruct (send_spec retryable (Record_ (budget rt) true o1) l1 Hidle)
        as (res & o' & l' & t & -> & ? & ? & Hlog). cbn.
      eexists _, _, _, _. split; [reflexivity|]. rewrite <-Hk2. split_and!; [done..|].
      apply (Hlog [_; _]). by rewrite decide_True.
    + eexists _, _, _, _. split; [reflexivity|]. rewrite <-Hk2.
      destruct Hidle as [Hh Hp]. split; [|split; [done|by constructor]].
      split; [exact Hh|]. intros r. by rewrite Hp.
  - destruct (send_spec retryable o l1 Hidle) as (res & o' & l' & t & -> & ? & ? & Hlog). cbn.
    eexists _, _, _, _. split; [reflexivity|]. rewrite <-Hk2. split_and!; [done..|].
    apply (Hlog []). by rewrite decide_False.
Qed.
(** *** Retry-After *)

Lemma parseRetryAfter_seconds r secs o :
  StatusCode r = StatusTooManyRequests ∨ StatusCode r = StatusServiceUnavailable →
  Atoi (RetryAfter r) = Ok secs → 0 < secs →
  parseRetryAfter ParseTime clk rt r o
  = if decide ((maxRetryAfter rt `quot` Second +! 1)%go < secs)
    then (maxRetryAfter rt +! Second)%go else (secs *! Second)%go.
Proof.
  intros Hst Ha Hs. unfold parseRetryAfter. rewrite decide_False by tauto.
  by rewrite Ha, decide_True.
Qed.

Lemma cap_seconds :
  0 ≤ maxRetryAfter rt ≤ MaxInt64 →
  (maxRetryAfter rt `quot` Second +! 1)%go = maxRetryAfter rt / Second + 1.
Proof.
  unfold Second. intros Hmax. rewrite Z.quot_div_nonneg by lia. apply wrap64_id.
  unfold in_int64, MinInt64, MaxInt64 in *. Z.div_mod_to_equations; lia.
Qed.

(** An environment in which every request gets some response. *)
Definition responsive : Prop :=
  (∀ o, ctx_Err parent o = None)
  ∧ (∀ d rewound o, ∃ s ra, (base_RoundTrip (base rt) d rewound o).1.1 = Responded s ra)
  ∧ (∀ o, (Allow (budget rt) o).1 = true)
  ∧ (∀ gb o, GetBody req = Some gb → (gb o).1 = None).

Lemma classify_responds retryable r c el reused w e :
  val (classify ParseTime clk rt req retryable r c el reused w) = Some e →
  is_Some (prev (world (classify ParseTime clk rt req retryable r c el reused w)).2).
Proof.
  destruct w as [o l]. unfold classify, mbind, comp_bind, get, mret, comp_ret. cbn.
  destruct (retryable && _); [destruct (retryAfterDelay _ _ _ _ _) as [d []]|];
    match goal with
    | |- context [emit rt req ?k ?s ?e ?el ?x ?y ?w] =>
        destruct (emit_spec k s e el x y w.1 w.2) as [o' He]; cbn in He; rewrite He
    end; cbn; by eauto.
Qed.

Lemma send_request_responds retryable c rewound w e :
  responsive → val (send_request ParseTime clk rt req retryable c rewound w) = Some e →
  is_Some (prev (world (send_request ParseTime clk rt req retryable c rewound w)).2).
Proof.
  destruct w as [o l]. intros (_ & Hbase & _). unfold send_request, roundtrip, mbind, comp_bind, get.
  cbn. match goal with |- context [base_RoundTrip _ ?d ?rw ?o] =>
    destruct (Hbase d rw o) as (s & ra & Hb);
    destruct (base_RoundTrip (base rt) d rw o) as [[out reused] o1] end.
  simpl in Hb. subst out. cbn.
  match goal with |- context [classify _ _ _ _ _ ?r ?c ?el ?re ?w] =>
    pose proof (classify_responds retryable r c el re w e) as Hc;
    destruct (classify ParseTime clk rt req retryable r c el re w) as [[??] [??]] end.
  exact Hc.
Qed.

Lemma send_responds retryable w e :
  responsive → val (send ParseTime clk rt req retryable w) = Some e →
  is_Some (prev (world (send ParseTime clk rt req retryable w)).2).
Proof.
  destruct w as [o l]. intros Hresp. unfold send, mbind, comp_bind, get. cbn.
  destruct (attemptContext_spec o l) as [d ->]. cbn.
  pose proof (λ rw w, send_request_responds retryable (length (ctxs l)) rw w e Hresp) as Hsend.
  destruct (GetBody req) as [gb|] eqn:Hgb; [case_decide|].
  - unfold env_step. destruct Hresp as (_ & _ & _ & Hg). specialize (Hg gb o Hgb).
    destruct (gb o) as [err o1]. simpl in Hg. subst err. cbn.
    match goal with |- context [send_request _ _ _ _ _ _ ?rw ?w] =>
      specialize (Hsend rw w); destruct (send_request _ _ _ _ _ _ rw w) as [[??] [??]] end.
    exact Hsend.
  - match goal with |- context [send_request _ _ _ _ _ _ ?rw ?w] =>
      specialize (Hsend rw w); destruct (send_request _ _ _ _ _ _ rw w) as [[??] [??]] end.
    exact Hsend.
  - match goal with |- context [send_request _ _ _ _ _ _ ?rw ?w] =>
      specialize (Hsend rw w); destruct (send_request _ _ _ _ _ _ rw w) as [[??] [??]] end.
    exact Hsend.
Qed.

Lemma once_responds retryable o l e :
  responsive → held l → val (once ParseTime clk rt req retryable (o, l)) = Some e →
  is_Some (prev (world (once ParseTime clk rt req retryable (o, l))).2).
Proof.
  intros Hresp Hheld. unfold once, mbind, comp_bind, get, upd, modify, tell. cbn.
  destruct (drainPrev_spec o (incr_attempt l) Hheld) as (l1 & -> & _). cbn.
  pose proof (λ w, send_responds retryable w e Hresp) as Hsend. case_decide.
  - unfold env_step. destruct Hresp as (_ & _ & Ha & _). specialize (Ha o).
    destruct (Allow (budget rt) o) as [g o1]. simpl in Ha. subst g. cbn.
    match goal with |- context [send _ _ _ _ _ ?w] =>
      specialize (Hsend w); destruct (send _ _ _ _ _ w) as [[??] [??]] end. exact Hsend.
  - match goal with |- context [send _ _ _ _ _ ?w] =>
      specialize (Hsend w); destruct (send _ _ _ _ _ w) as [[??] [??]] end. exact Hsend.
Qed.

(** *** The whole round trip *)

#[local] Abbreviation retryable := (isRetryable rt req).
#[local] Abbreviation max := (Z.max (maxRetries (retrier rt)) 1).

(** Where the attempts can end with [err]: it is the outcome of the last
    attempt or the death of the caller's context. *)
Definition attempts_end (err : option error) (w : W (O:=O) * list tevent) : Prop :=
  let '((o, l), log) := w in
  ∃ n last, attempts_log rt req retryable n log last ∧ 0 ≤ n ≤ max ∧
  match err with
  | None => last = None ∧ after_attempt None l
  | Some e =>
      last ≠ None ∧ held l ∧
      (ctx_Err parent o = Some e
       ∨ last = Some e ∧ after_attempt (Some e) l ∧ (responsive → is_Some (prev l)))
  end.

Definition attempts_inv (i : Z) (w : W (O:=O) * list tevent) : Prop :=
  let '((o, l), log) := w in
  held l ∧ attempt l = i ∧ ∃ e, attempts_log rt req retryable i log (Some e).

Lemma once_inv i (w : W (O:=O) * list tevent) :
  0 ≤ i < max → attempts_inv i w →
  match as_fn (once ParseTime clk rt req retryable) w with
  | (None, w') => attempts_end None w'
  | (Some e, w') => attempts_inv (i + 1) w' ∧ attempts_end (Some e) w'
  end.
Proof.
  destruct w as [[o l] log]. intros Hi (Hh & <- & e0 & Hlog). unfold as_fn.
  pose proof (λ e H, once_responds retryable o l e H Hh) as Hresp.
  destruct (once_spec retryable o l Hh ltac:(lia)) as (res & o' & l' & t & Hrun & Hres & Hk & Ht).
  rewrite Hrun in *. cbn in Hresp.
  pose proof (log_next _ _ _ _ _ _ _ _ Hlog Ht) as Hlog'. destruct res as [e|].
  - split.
    + split; [apply Hres|]. eauto.
    + exists (attempt l + 1), (Some e). split_and!; try done; [lia..|apply Hres|right].
      split; [done|]. split; [done|]. intros H. by apply (Hresp e H).
  - exists (attempt l + 1), None. split_and!; try done; lia.
Qed.

Lemma run_retrier_spec o l :
  held l → attempt l = 0 →
  ∃ err log w, run_retrier ParseTime clk rt req retryable (o, l) = (err, log, w)
    ∧ attempts_end err (w, log).
Proof.
  intros Hh Hl. unfold run_retrier, DoCtx. cbn [validate].
  match goal with |- context [loop ?c ?s ?n ?f ?r ?m ?k ?i ?e ?w] =>
    set (L := loop c s n f r m k i e w);
    assert (attempts_end (val L) (world L)) as HL;
      [apply (loop_rule c s n f r m attempts_inv attempts_end)|]
  end.
  - intros i d [[o' l'] log] Hinv. unfold lift_env. by destruct (clock_select clk d o').
  - intros i d [[o' l'] log] Hinv. unfold lift_env. by destruct (clock_Int64N clk d o').
  - intros i [[o' l'] log] e Hi (Hh' & Hk & e0 & Hlog) He.
    pose proof (attempts_log_nonneg _ _ _ _ _ _ Hlog).
    exists i, (Some e0). split_and?; try done; try lia. by left.
  - apply once_inv.
  - lia.
  - lia.
  - lia.
  - split; [done|]. split; [done|]. exists ErrUnknown. constructor.
  - change (∃ err log w, (let '(err, _, (w, log)) := L in (err, log, w)) = (err, log, w)
                         ∧ attempts_end err (w, log)).
    destruct L as [[err t] [w log]]. by exists err, log, w.
Qed.

(** *** The result *)

Definition outcome_ok (out : result error (option Response)) (l : attemptLoop) : Prop :=
  match out with
  | Ok (Some r) => ∃ b c,
      Body r = CancelOnClose (Raw b) (Some c) ∧ owned (Some b) (Some c) l
  | Ok None => False
  | Err _ => owned None None l
  | Panic _ => False
  end.

(** The held response is closed exactly once, or handed over live. *)
Lemma finish_held e o l :
  held l →
  ∃ out l', finish clk req (Some e) (o, l) = (out, [], (o, l')) ∧ outcome_ok out l' ∧
    (out = Err e ∨ ∃ r, prev l = Some r ∧ errors_as as_retryableStatus e ≠ None ∧
                        out = Ok (Some (wrapBodyCancel r (prevCancel l)))).
Proof.
  intros [Hr Hp]. unfold finish, mbind, comp_bind, get, mret, comp_ret. cbn. rewrite Hr.
  destruct (prev l) as [r|] eqn:Hprev.
  - destruct Hp as (b & c & Hb & Hc & Ho). rewrite Hc.
    destruct (errors_as as_retryableStatus e) eqn:He.
    + eexists _, l. split; [reflexivity|]. split; [|by right; eauto].
      exists b, c. cbn. by rewrite Hb.
    + unfold drainClose. rewrite Hb. eexists _, _. split; [reflexivity|]. split; [|by left].
      apply (owned_drain b), owned_close in Ho.
      by apply (λ f Hf, owned_cancel None c _ f Hf Ho).
  - exists (Err e), l. split; [by destruct (errors_as as_retryableStatus e)|].
    split; [apply Hp|by left].
Qed.

Lemma finish_success o l :
  after_attempt None l →
  ∃ out, finish clk req None (o, l) = (out, [], (o, l)) ∧ outcome_ok out l
         ∧ ∃ r, out = Ok (Some r) ∧ resp l = Some r.
Proof.
  intros (Hp & r & b & c & Hr & Hb & Ho). unfold finish, mbind, comp_bind, get. cbn.
  rewrite Hr. eexists. split; [reflexivity|]. split; [|eauto]. simpl. eauto.
Qed.
Definition refused : bool :=
  retryable && bool_decide (req_Body req = Reader)
  && match GetBody req with None => true | Some _ => false end.

Lemma RoundTrip_refused o l :
  refused = true →
  RoundTrip ParseTime clk rt req (o, l) = (Err ErrNonReplayableBody, [], (o, l)).
Proof. unfold refused, RoundTrip. intros ->. done. Qed.

Lemma RoundTrip_spec o :
  refused = false →
  ∃ out log w n last, RoundTrip ParseTime clk rt req (o, attemptLoop_init) = (out, log, w)
    ∧ outcome_ok out w.2 ∧ attempts_log rt req retryable n log last
    ∧ 0 ≤ n ≤ (if retryable then max else 1) ∧ (retryable = false → n = 1).
Proof.
  unfold refused, RoundTrip. intros ->. unfold mbind, comp_bind.
  assert (held attemptLoop_init) as Hinit.
  { split; [done|]. split; [done|apply owned_init]. }
  assert (∃ err log w n last, (if retryable then run_retrier ParseTime clk rt req retryable
                               else once ParseTime clk rt req retryable) (o, attemptLoop_init)
            = (err, log, w)
    ∧ attempts_log rt req retryable n log last
    ∧ 0 ≤ n ≤ (if retryable then max else 1) ∧ (retryable = false → n = 1)
    ∧ match err with None => after_attempt None w.2 | Some e => held w.2 end) as Hrun.
  { destruct retryable eqn:Hret.
    - destruct (run_retrier_spec o attemptLoop_init Hinit eq_refl) as (err & log & w & Hrun & Hend).
      rewrite Hret in Hrun. exists err, log, w. destruct w as [o' l'].
      destruct Hend as (n & lst & Hlog & Hn & Herr). rewrite Hret in Hlog.
      exists n, lst. split; [exact Hrun|]. split; [done|]. split; [done|]. split; [done|].
      by destruct err; apply Herr.
    - destruct (once_spec false o attemptLoop_init Hinit ltac:(done))
        as (res & o' & l' & t & -> & Hres & _ & Ht).
      exists res, t, (o', l'), 1, res. split; [done|]. split; [|split; [lia|split; [done|]]].
      + by apply (log_next rt req false 0 [] ErrUnknown t res (log_start _ _ _ _)).
      + destruct res; apply Hres. }
  destruct Hrun as (err & log & [o' l'] & n & lst & Hrun & Hlog & Hn & Hn1 & Herr).
  simpl in Herr.
  assert (∃ out l'', finish clk req err (o', l') = (out, [], (o', l'')) ∧ outcome_ok out l'') as Hfin.
  { destruct err as [e|].
    - destruct (finish_held e o' l' Herr) as (out & l'' & ? & ? & _). eauto.
    - destruct (finish_success o' l' Herr) as (out & ? & ? & _). eauto. }
  destruct Hfin as (out & l'' & Hfin & Hok).
  exists out, log, (o', l''), n, lst. split; [|done].
  destruct retryable; rewrite Hrun; cbn; rewrite Hfin; by rewrite app_nil_r.
Qed.

(** *** Recovery *)

(** What classify.go documents as worth a retry, read off the tree of an error:
    it holds no caller-context error, and its first [net.Error] is a timeout or
    it holds a refused or reset connection. *)
Definition transient (e : error) : Prop :=
  (∀ x, x ∈ chain e → ekind x ≠ ekind Canceled ∧ ekind x ≠ ekind DeadlineExceeded)
  ∧ (first_some as_netError (chain e) = Some true
     ∨ ∃ x, x ∈ chain e ∧ (ekind x = ekind ECONNREFUSED ∨ ekind x = ekind ECONNRESET)).

(** The classifier does what it documents. *)
Lemma defaultRetryIf_transient e : transient e → defaultRetryIf (Some e) = true.
Proof using Type.
  intros [Hctx Hr]. unfold defaultRetryIf.
  assert (isCallerCtxErr e = false) as ->.
  { unfold isCallerCtxErr. apply orb_false_iff. split; apply not_true_iff_false;
      (intros (x & Hx & Hk)%errors_is_kind; [|done]); destruct (Hctx x Hx); tauto. }
  destruct (errors_is e errAttemptTimeout); [done|].
  destruct (errors_as as_retryableStatus e); [done|].
  rewrite (errors_as_first as_netError). destruct Hr as [->|(x & Hx & Hk)]; [done|].
  assert (errors_is e ECONNREFUSED || errors_is e ECONNRESET = true) as ->; [|by repeat case_match].
  apply orb_true_iff. destruct Hk as [Hk|Hk]; [left|right];
    (apply errors_is_spec; exists x; split; [done|]; unfold matches, go_eq;
     by rewrite bool_decide_eq_true_2).
Qed.

(** A network that fails or is overloaded for [k] requests and then answers
    with [status]; [sent] is how many requests the world has seen.  The failures
    are transient: an error worth a retry, any error of an attempt whose own
    timer has fired, or a retryable status with a suggested delay within the
    cap.  Nobody else spoils it: the caller stays alive, no wait is cut short,
    the budget grants and [GetBody] delivers. *)
Record flaky (sent : O → Z) (k status : Z) : Prop := {
  fl_alive o : ctx_Err parent o = None;
  fl_select d o : (clock_select clk d o).1 = false ∧ sent (clock_select clk d o).2 = sent o;
  fl_random n o : sent (clock_Int64N clk n o).2 = sent o;
  fl_budget o : (Allow (budget rt) o).1 = true ∧ sent (Allow (budget rt) o).2 = sent o;
  fl_record b o : sent (Record_ (budget rt) b o) = sent o;
  fl_body gb o : GetBody req = Some gb → (gb o).1 = None ∧ sent (gb o).2 = sent o;
  fl_hook hook info o : onAttempt rt = Some hook → sent (hook info o) = sent o;
  fl_sent d rewound o : sent (base_RoundTrip (base rt) d rewound o).2 = sent o + 1;
  fl_answer d rewound o :
    match (base_RoundTrip (base rt) d rewound o).1.1 with
    | Failed e => sent o < k ∧ (transient e ∨ ∃ t, d = Some t
                    ∧ t ≤ now clk (base_RoundTrip (base rt) d rewound o).2)
    | Responded s ra =>
        if decide (sent o < k)
        then s ∈ retryableStatuses ∧ ∀ b o, (retryAfterDelay ParseTime clk rt
               {| StatusCode := s; RetryAfter := ra; Body := b |} o).2 = true
        else s = status
    end;
  fl_status : status ∉ retryableStatuses;
}.

(** The retrier's predicate accepts what the transport hands it. *)
Definition retries_transients : Prop :=
  shouldRetry (retrier rt) errAttemptTimeout = true
  ∧ (∀ s d, s ∈ retryableStatuses → shouldRetry (retrier rt) (Node (KStatus s d) []) = true)
  ∧ ∀ e, transient e → shouldRetry (retrier rt) e = true.

Section recovery.
Variables (sent : O → Z) (k status : Z).
Hypothesis Hflaky : flaky sent k status.
Hypothesis Htransient : retries_transients.

(** An attempt that started when [i] requests had been sent. *)
Definition attempt_ok (i : Z) (res : option error) (w : W (O:=O)) : Prop :=
  sent w.1 = i + 1 ∧
  if decide (i < k) then ∃ e, res = Some e ∧ shouldRetry (retrier rt) e = true
  else res = None ∧ ∃ r, resp w.2 = Some r ∧ StatusCode r = status.

Lemma emit_sent n st err el retrying reused o l :
  ∃ t o', emit rt req n st err el retrying reused (o, l) = ((), t, (o', l)) ∧ sent o' = sent o.
Proof using Hflaky.
  unfold emit. destruct (onAttempt rt) as [hook|] eqn:Hh; [|by eexists _, _].
  eexists _, _. split; [reflexivity|]. by apply (fl_hook _ _ _ Hflaky).
Qed.

Ltac run_emit :=
  match goal with |- context [emit rt req ?n ?s ?e ?el ?x ?y (?o, ?l)] =>
    let t := fresh "t" in let o' := fresh "o'" in let He := fresh "He" in let Ho := fresh "Ho" in
    destruct (emit_sent n s e el x y o l) as (t & o' & He & Ho); rewrite He end.

Lemma classify_flaky s ra b c el reused o l :
  (if decide (sent o - 1 < k)
   then s ∈ retryableStatuses ∧ ∀ b o, (retryAfterDelay ParseTime clk rt
          {| StatusCode := s; RetryAfter := ra; Body := b |} o).2 = true
   else s = status) →
  let '(res, _, w) := classify ParseTime clk rt req true
    {| StatusCode := s; RetryAfter := ra; Body := b |} c el reused (o, l) in
  attempt_ok (sent o - 1) res w.
Proof using Hflaky Htransient.
  unfold attempt_ok, classify, mbind, comp_bind, get, mret, comp_ret.
  cbn [StatusCode val trace fst snd andb app].
  case_decide as Hk; [intros [Hs Hcap]; specialize (Hcap b o)|intros ->].
  - rewrite bool_decide_eq_true_2 by done.
    destruct (retryAfterDelay _ _ _ _ _) as [d wc]. simpl in Hcap. subst wc. cbn.
    run_emit. cbn. split; [lia|]. eexists. split; [done|]. by apply (proj1 (proj2 Htransient)).
  - rewrite bool_decide_eq_false_2 by apply (fl_status _ _ _ Hflaky). cbn.
    run_emit. cbn. split; [lia|]. split; [done|]. by eexists.
Qed.

(** Whatever the raw error of a transient failure becomes, it is retried. *)
Lemma normalizeErr_retried c x rerr o l :
  ctxs l !! c = Some x →
  transient rerr ∨ (∃ t, a_deadline x = Some t ∧ t ≤ now clk o) →
  ∃ e, normalizeErr clk req c rerr (o, l) = (e, [], (o, l)) ∧ shouldRetry (retrier rt) e = true.
Proof using Hflaky Htransient.
  intros Hx Hr. unfold normalizeErr. rewrite (fl_alive _ _ _ Hflaky), Hx. cbn.
  destruct Htransient as (Ht & _ & Hraw).
  destruct (actx_Err clk parent x o) as [e|] eqn:Hact; [by eexists|].
  eexists. split; [done|]. apply Hraw. destruct Hr as [|(t & Hd & Hle)]; [done|].
  unfold actx_Err in Hact. rewrite (fl_alive _ _ _ Hflaky), Hd in Hact.
  destruct (a_err x); [done|]. by rewrite (proj2 (Z.leb_le _ _)) in Hact.
Qed.

#[local] Arguments normalizeErr : simpl never.

Lemma send_request_flaky c rewound o l :
  is_Some (ctxs l !! c) →
  let '(res, _, w) := send_request ParseTime clk rt req true c rewound (o, l) in
  attempt_ok (sent o) res w.
Proof using Hflaky Htransient.
  intros [x Hx]. unfold send_request, roundtrip, mbind, comp_bind, get. cbn.
  match goal with |- context [base_RoundTrip _ ?d ?rw ?o] =>
    pose proof (fl_sent _ _ _ Hflaky d rw o) as Hsent; pose proof (fl_answer _ _ _ Hflaky d rw o) as Hans;
    destruct (base_RoundTrip (base rt) d rw o) as [[[err|s ra] reused] o1] end; cbn in *.
  - destruct Hans as [Hk Hans].
    match goal with |- context [normalizeErr clk req c err (o1, ?l')] =>
      destruct (normalizeErr_retried c {| a_deadline := a_deadline x;
        a_err := Some (default Canceled (actx_Err clk parent x o1)) |} err o1 l') as (e & -> & He) end.
    { cbn. by rewrite list_lookup_alter, Hx, decide_True by done. }
    { cbn. rewrite Hx in Hans. exact Hans. }
    cbn. run_emit. cbn. unfold attempt_ok. rewrite decide_True by done. cbn. split; [lia|eauto].
  - match goal with |- context [classify ParseTime clk rt req true ?r ?c ?el reused (o1, ?l')] =>
      pose proof (classify_flaky s ra (Body r) c el reused o1 l') as Hc end.
    rewrite Hsent in Hc. replace (sent o + 1 - 1) with (sent o) in Hc by lia. specialize (Hc Hans).
    cbn in Hc. destruct (classify _ _ _ _ _ _ _ _ _ _) as [[??] ?]. exact Hc.
Qed.

Lemma send_flaky o l :
  let '(res, _, w) := send ParseTime clk rt req true (o, l) in attempt_ok (sent o) res w.
Proof using Hflaky Htransient.
  unfold send, mbind, comp_bind, get. cbn.
  destruct (attemptContext_spec o l) as [d ->]. cbn.
  assert (∀ rw o', sent o' = sent o →
    let '(res, _, w) := send_request ParseTime clk rt req true (length (ctxs l)) rw
      (o', set_ctxs (ctxs l ++ [{| a_deadline := d; a_err := None |}]) l) in attempt_ok (sent o) res w) as Hsend.
  { intros rw o' <-. apply send_request_flaky. cbn. rewrite lookup_app_r, Nat.sub_diag by done. eauto. }
  destruct (GetBody req) as [gb|] eqn:Hgb; [case_decide|].
  - unfold env_step. destruct (fl_body _ _ _ Hflaky gb o Hgb) as [Hok Hs].
    destruct (gb o) as [err o1]. simpl in Hok, Hs. subst err. cbn. specialize (Hsend true o1 Hs).
    by destruct (send_request _ _ _ _ _ _ _ _) as [[??] ?].
  - specialize (Hsend false o eq_refl). by destruct (send_request _ _ _ _ _ _ _ _) as [[??] ?].
  - specialize (Hsend false o eq_refl). by destruct (send_request _ _ _ _ _ _ _ _) as [[??] ?].
Qed.

Lemma once_flaky o l :
  held l →
  let '(res, _, w) := once ParseTime clk rt req true (o, l) in attempt_ok (sent o) res w.
Proof using Hflaky Htransient.
  intros Hheld. unfold once, mbind, comp_bind, get, upd, modify, tell. cbn.
  destruct (drainPrev_spec o (incr_attempt l) Hheld) as (l1 & -> & _). cbn. case_decide.
  - unfold env_step. destruct (fl_budget _ _ _ Hflaky o) as [Hok Hs].
    destruct (Allow (budget rt) o) as [g o1]. simpl in Hok, Hs. subst g. cbn.
    pose proof (send_flaky (Record_ (budget rt) true o1) l1) as Hsend.
    rewrite (fl_record _ _ _ Hflaky), Hs in Hsend. by destruct (send _ _ _ _ _ _) as [[??] ?].
  - pose proof (send_flaky o l1) as Hsend. by destruct (send _ _ _ _ _ _) as [[??] ?].
Qed.

(** The retrier gets through, and [finish] hands the response over. *)
Lemma RoundTrip_through o :
  refused = false → retryable = true → sent o = 0 → 0 ≤ k < max →
  ∃ r log w, RoundTrip ParseTime clk rt req (o, attemptLoop_init) = (Ok (Some r), log, w)
    ∧ StatusCode r = status ∧ sent w.1 = k + 1.
Proof using Hflaky Htransient.
  unfold refused, RoundTrip. intros -> Hret H0 Hk. rewrite Hret. unfold run_retrier, mbind, comp_bind, DoCtx.
  cbn [validate].
  set (Good := λ (i : Z) (w : W (O:=O) * list tevent), sent w.1.1 = i ∧ held w.1.2 ∧ 0 ≤ attempt w.1.2).
  set (Post := λ w : W (O:=O) * list tevent,
    sent w.1.1 = k + 1 ∧ ∃ r, resp w.1.2 = Some r ∧ StatusCode r = status).
  match goal with |- context [loop ?c ?s ?rnd ?f ?r ?m ?j ?i ?e ?w] =>
    set (L := loop c s rnd f r m j i e w);
    assert (val L = None ∧ Post (world L)) as [Hv Hp];
      [refine ((λ H, conj (proj1 H) (proj1 (proj2 H)))
               (loop_recovers c s rnd f r m k Good Post _ _ _ _ _ j i e w _ _ _ _)); try lia|]
  end.
  - intros [[o' l'] log]. apply (fl_alive _ _ _ Hflaky).
  - intros i d [[o' l'] log] (Hs & Hh & Ha). unfold lift_env, Good in *. cbn in *.
    destruct (fl_select _ _ _ Hflaky d o') as [? Heq]. rewrite <-Heq in Hs.
    by destruct (clock_select clk d o').
  - intros i n [[o' l'] log] (Hs & Hh & Ha). unfold lift_env, Good in *. cbn in *.
    rewrite <-(fl_random _ _ _ Hflaky n o') in Hs. by destruct (clock_Int64N clk n o').
  - intros i [[o' l'] log] Hi (Hs & Hh & Ha). unfold as_fn. cbn in *. pose proof (once_flaky o' l' Hh) as Ho.
    destruct (once_spec true o' l' Hh Ha) as (res & o2 & l2 & t & Hrun & Hres & Hatt & _).
    rewrite Hrun in *. unfold attempt_ok in Ho. cbn in *. rewrite decide_True in Ho by lia.
    destruct Ho as (Hs' & e & -> & Hsr). exists e. unfold Good. cbn. split_and!; try done; try lia; apply Hres.
  - intros [[o' l'] log] (Hs & Hh & Ha). unfold as_fn. cbn in *. pose proof (once_flaky o' l' Hh) as Ho.
    destruct (once ParseTime clk rt req true (o', l')) as [[res t] [o2 l2]].
    unfold attempt_ok in Ho. cbn in *. rewrite decide_False in Ho by lia.
    destruct Ho as (Hs' & -> & r & Hr). split; [done|]. unfold Post. cbn. split; [lia|eauto].
  - split; [done|]. split; [|done]. split; [done|]. split; [done|apply owned_init].
  - change (∃ r log w,
      (let '(err, t1, w1) := (let '(err, _, (w, log)) := L in (err, log, w)) in
       let '(out, t2, w2) := finish clk req err w1 in (out, t1 ++ t2, w2)) = (Ok (Some r), log, w)
      ∧ StatusCode r = status ∧ sent w.1 = k + 1).
    destruct L as [[v t] [[o' l'] log]]. cbn in Hv, Hp. subst v.
    destruct Hp as (Hs & r & Hr & Hst). cbn in Hr, Hs. cbn. unfold finish, mbind, comp_bind, get. cbn.
    rewrite Hr. eexists r, _, _. split; [reflexivity|]. by split.
Qed.
End recovery.
End facts.

Definition is_send (e : tevent) : bool := match e with ESend _ _ => true | _ => false end.
Definition is_grant (e : tevent) : bool := match e with EAllow b => b | _ => false end.
Definition is_ask (e : tevent) : bool := match e with EAllow _ => true | _ => false end.
Definition occurrences (p : tevent → bool) (log : list tevent) : nat :=
  length (List.filter p log).

Section log_facts.
Context {O : Type} (rt : retryTransport O) (req : Request O) (retryable : bool).

Lemma occurrences_app p l1 l2 :
  occurrences p (l1 ++ l2) = (occurrences p l1 + occurrences p l2)%nat.
Proof. unfold occurrences. by rewrite List.filter_app, length_app. Qed.

Lemma attempt_log_counts k t res :
  attempt_log rt req retryable k t res →
  (occurrences is_send t ≤ 1)%nat
  ∧ (k = 1 → (occurrences is_send t = 1 ∧ occurrences is_ask t = 0)%nat)
  ∧ (1 < k → (occurrences is_send t ≤ occurrences is_grant t)%nat).
Proof.
  destruct 1 as [|?|gate rewound rewinding info res -> -> -> _ _ _ _ _];
    unfold hook_log; repeat case_match; cbn; lia.
Qed.

Lemma attempts_log_counts n log res :
  attempts_log rt req retryable n log res →
  (Z.of_nat (occurrences is_send log) ≤ n)
  ∧ (occurrences is_send log ≤ 1 + occurrences is_grant log)%nat
  ∧ (n = 1 → (occurrences is_send log = 1 ∧ occurrences is_ask log = 0)%nat).
Proof.
  induction 1 as [e|n log e t res Hlog (IH1 & IH2 & IH3) Ht]; [cbn; lia|].
  pose proof (attempts_log_nonneg _ _ _ _ _ _ Hlog).
  destruct (attempt_log_counts _ _ _ Ht) as (H1 & H2 & H3).
  rewrite !occurrences_app. split; [lia|].
  destruct (decide (n = 0)) as [->|]; [|split; [|lia]; specialize (H3 ltac:(lia)); lia].
  assert (log = []) as ->.
  { inversion Hlog as [|n' ? ? ? ? Hl]; [done|].
    pose proof (attempts_log_nonneg _ _ _ _ _ _ Hl). lia. }
  specialize (H2 eq_refl). cbn. lia.
Qed.

(** A body is sent again only after it was rewound, or when there is no
    [GetBody] to rewind it with. *)
Lemma attempts_log_rewound n log res k rewound :
  attempts_log rt req retryable n log res → ESend k rewound ∈ log →
  rewound = bool_decide (1 < k ∧ is_Some (GetBody req)) ∧ k ≤ n.
Proof.
  induction 1 as [e|m log e t res Hl IH Ht]; [by intros ?%elem_of_nil|].
  intros [Hin|Hin]%elem_of_app; [destruct (IH Hin); split; [done|lia]|].
  destruct Ht as [|?|gate rw rewinding info res -> -> -> _ _ _ _ _];
    [set_solver..|]. unfold hook_log in Hin.
  assert (ESend k rewound = ESend (m + 1)
    (bool_decide (1 < m + 1 ∧ is_Some (GetBody req)))) as [= -> ->]; [|done].
  repeat case_match; set_solver.
Qed.
End log_facts.

(** ** Properties *)
Section properties.
Context {O : Type}.
Variable ParseTime : gostring → option Z.
Variable clk : Clock O.
Variable rt : retryTransport O.
Variable req : Request O.
#[local] Abbreviation parent := (req_Context req).

(** How many requests there are. *)
Lemma sends_bound o :
  let log := trace (RoundTrip ParseTime clk rt req (o, attemptLoop_init)) in
  Z.of_nat (occurrences is_send log) ≤ Z.max (maxRetries (retrier rt)) 1
  ∧ (occurrences is_send log ≤ 1 + occurrences is_grant log)%nat
  ∧ (isRetryable rt req = false → occurrences is_send log = 1 ∧ occurrences is_ask log = 0)%nat.
Proof.
  destruct (refused rt req) eqn:Href.
  - rewrite RoundTrip_refused by done. cbn. split; [lia|]. split; [lia|].
    unfold refused in Href. by destruct (isRetryable rt req).
  - destruct (RoundTrip_spec ParseTime clk rt req o Href)
      as (out & log & w & n & lst & -> & _ & Hlog & Hn & Hn1).
    unfold trace. cbn [fst snd]. apply attempts_log_counts in Hlog as (H1 & H2 & H3).
    split; [|split; [done|intros Hr; apply H3, Hn1, Hr]].
    destruct (isRetryable rt req); lia.
Qed.

(** C3: no leak.  Whatever the network, the caller's context, the budget and
    the retrier do, [RoundTrip] returns with every attempt context it created
    cancelled and every response body it received closed exactly once, save
    the response it returns, if any: that body is open, its context alive, and
    closing it releases both. *)
Theorem RoundTrip_resources o :
  let '(out, _, (o', l')) := RoundTrip ParseTime clk rt req (o, attemptLoop_init) in
  match out with
  | Ok (Some r) =>
      (∃ b c, Body r = CancelOnClose (Raw b) (Some c) ∧ owned (Some b) (Some c) l')
      ∧ owned None None (world (Close clk parent (Body r) (o', l'))).2
  | Err _ => owned None None l'
  | Ok None | Panic _ => False
  end.
Proof.
  destruct (refused rt req) eqn:Href.
  - rewrite RoundTrip_refused by done. apply owned_init.
  - destruct (RoundTrip_spec ParseTime clk rt req o Href)
      as (out & log & [o' l'] & n & lst & -> & Hok & _). simpl in Hok.
    destruct out as [[r|]| |]; try done. split; [done|].
    destruct Hok as (b & c & -> & Ho). apply owned_close in Ho.
    by apply (λ f Hf, owned_cancel None c _ f Hf Ho).
Qed.

(** C12: refinement.  The requests, budget questions, rewinds and hook calls of
    a [RoundTrip] are those of numbered attempts, each following a failed one
    and allowed by the specification [attempt_log]; there are at most as many
    as the retrier allows, and exactly one for a method that must not be
    replayed. *)
Theorem RoundTrip_log o :
  refused rt req = false →
  let log := trace (RoundTrip ParseTime clk rt req (o, attemptLoop_init)) in
  ∃ n last, attempts_log rt req (isRetryable rt req) n log last
    ∧ 0 ≤ n ≤ (if isRetryable rt req then Z.max (maxRetries (retrier rt)) 1 else 1)
    ∧ (isRetryable rt req = false → n = 1).
Proof.
  intros Href. destruct (RoundTrip_spec ParseTime clk rt req o Href)
    as (out & log & w & n & lst & -> & _ & Hlog & Hn). simpl. eauto.
Qed.

(** amplification.  The number of requests is bounded by the retrier's
    attempts and by one more than the retries the budget granted; a
    non-idempotent request is sent exactly once and never asks the budget. *)
Theorem RoundTrip_sends o :
  let log := trace (RoundTrip ParseTime clk rt req (o, attemptLoop_init)) in
  Z.of_nat (occurrences is_send log) ≤ Z.max (maxRetries (retrier rt)) 1
  ∧ (occurrences is_send log ≤ 1 + occurrences is_grant log)%nat
  ∧ (isRetryable rt req = false → occurrences is_send log = 1 ∧ occurrences is_ask log = 0)%nat.
Proof. apply sends_bound. Qed.

(** replay safety.  A request with a body is sent a second time only with
    a body obtained from [GetBody]; one that is eligible for retry but has no
    [GetBody] is refused before anything is sent. *)
Theorem RoundTrip_replay o :
  let '(out, log, w) := RoundTrip ParseTime clk rt req (o, attemptLoop_init) in
  (∀ k rewound, ESend k rewound ∈ log → 1 < k → req_Body req = Reader → rewound = true)
  ∧ (refused rt req = true → out = Err ErrNonReplayableBody ∧ log = [] ∧ w = (o, attemptLoop_init)).
Proof.
  destruct (refused rt req) eqn:Href.
  - rewrite RoundTrip_refused by done. split; [|done]. by intros ? ? ?%elem_of_nil.
  - destruct (RoundTrip_spec ParseTime clk rt req o Href)
      as (out & log & w & n & lst & -> & _ & Hlog & Hn & Hn1). split; [|done].
    intros k rewound Hin Hk Hbody.
    destruct (attempts_log_rewound _ _ _ _ _ _ _ _ Hlog Hin) as [-> Hkn].
    apply bool_decide_eq_true. split; [done|]. unfold refused in Href.
    rewrite bool_decide_eq_true_2, andb_true_r in Href by done.
    destruct (isRetryable rt req) eqn:Hr; [destruct (GetBody req); by eauto|].
    specialize (Hn1 eq_refl). lia.
Qed.

(** a status is never turned into an error.  If every request gets a
    response, whatever the statuses, the caller stays alive and the budget and
    [GetBody] cooperate, then [RoundTrip] returns a response: when the
    attempts run out on a retryable status, the held response comes back. *)
Theorem RoundTrip_status_live o :
  responsive rt req → refused rt req = false →
  ∃ r, val (RoundTrip ParseTime clk rt req (o, attemptLoop_init)) = Ok (Some r).
Proof.
  intros Hresp Href. unfold refused in Href. unfold RoundTrip. rewrite Href.
  unfold mbind, comp_bind.
  assert (held attemptLoop_init) as Hinit.
  { split; [done|]. split; [done|apply owned_init]. }
  assert (∀ e o' l', held l' → after_attempt (Some e) l' → is_Some (prev l') →
    ∃ r, val (finish clk req (Some e) (o', l')) = Ok (Some r)) as Hfin.
  { intros e o' l' Hh [_ Hst] [r Hp]. destruct (Hst r Hp) as [d ->].
    destruct Hh as [Hr _]. unfold finish, mbind, comp_bind, get. cbn.
    rewrite Hr, Hp. cbn. eauto. }
  destruct (isRetryable rt req) eqn:Hret.
  - destruct (run_retrier_spec ParseTime clk rt req o attemptLoop_init Hinit eq_refl)
      as (err & log & [o' l'] & Hrun & n & lst & _ & _ & Herr).
    rewrite Hret in Hrun. rewrite Hrun. destruct err as [e|].
    + destruct Herr as (_ & Hh & [Hdead|(_ & Hst & Hp)]).
      { destruct Hresp as [Halive _]. by rewrite Halive in Hdead. }
      destruct (Hfin e o' l' Hh Hst (Hp Hresp)) as [r Hr]. exists r.
      by destruct (finish clk req (Some e) (o', l')) as [[??]?].
    + destruct Herr as (_ & Ha). destruct (finish_success clk req o' l' Ha) as (out & -> & _ & r & -> & _).
      by exists r.
  - pose proof (once_responds ParseTime clk rt req false o attemptLoop_init) as Hp.
    destruct (once_spec ParseTime clk rt req false o attemptLoop_init Hinit ltac:(done))
      as (res & o' & l' & t & Hrun & Hres & _). rewrite Hrun in *. destruct res as [e|].
    + destruct (Hfin e o' l') as [r Hr]; [apply Hres|done|by apply (Hp e)|]. exists r.
      by destruct (finish clk req (Some e) (o', l')) as [[??]?].
    + destruct (finish_success clk req o' l' Hres) as (out & -> & _ & r & -> & _). by exists r.
Qed.

(** C40: a transport error never reaches the classifier.  The attempt context is
    cancelled before [normalizeErr] looks at it, so with the caller alive every
    error of the base transport, retryable or not, becomes the per-attempt
    timeout. *)
Theorem send_masks_errors retryable c rewound o l :
  (c < length (ctxs l))%nat →
  (∀ d, let '(out, _, o1) := base_RoundTrip (base rt) d rewound o in
        (∃ e, out = Failed e) ∧ ctx_Err parent o1 = None) →
  val (send_request ParseTime clk rt req retryable c rewound (o, l)) = Some errAttemptTimeout.
Proof.
  intros Hc Hbase. unfold send_request, roundtrip, mbind, comp_bind, get. cbn.
  match goal with |- context [base_RoundTrip _ ?d ?rw ?o] => specialize (Hbase d) end.
  destruct (base_RoundTrip _ _ _ _) as [[out reused] o1]. destruct Hbase as [[e ->] Halive]. cbn.
  rewrite Halive, list_lookup_alter_eq.
  destruct (lookup_lt_is_Some_2 _ _ Hc) as [x ->]. cbn.
  match goal with |- context [emit rt req ?k ?s ?e ?el ?x ?y ?w] =>
    destruct (emit_spec rt req k s e el x y w.1 w.2) as [o' He]; cbn in He; rewrite He end.
  done.
Qed.

(** [Retry-After] in seconds.  On a 429 or a 503 the header is honoured
    exactly when the wait fits the cap, whatever its magnitude: no number of
    seconds wraps around. *)
Theorem retryAfterDelay_seconds r secs o :
  StatusCode r = StatusTooManyRequests ∨ StatusCode r = StatusServiceUnavailable →
  Atoi (RetryAfter r) = Ok secs → 0 < secs → 0 ≤ maxRetryAfter rt ≤ MaxInt64 - Second →
  retryAfterDelay ParseTime clk rt r o
  = if decide (secs * Second ≤ maxRetryAfter rt) then (secs * Second, true) else (0, false).
Proof.
  intros Hst Ha Hs Hmax. unfold retryAfterDelay.
  rewrite (parseRetryAfter_seconds _ _ _ _ secs) by done. unfold Second, MaxInt64 in *.
  rewrite cap_seconds by (unfold MaxInt64, Second; lia). unfold Second.
  rewrite (wrap64_id (maxRetryAfter rt + 1000000000)) by int64_lia.
  destruct (decide (maxRetryAfter rt / 1000000000 + 1 < secs)).
  - rewrite decide_True by lia.
    rewrite decide_False by (Z.div_mod_to_equations; lia). done.
  - rewrite wrap64_id by (unfold in_int64, MinInt64, MaxInt64; Z.div_mod_to_equations; lia).
    repeat case_decide; (done || lia).
Qed.

(** with a cap within one second of the largest [Duration], the clamp that
    reports "beyond the cap" itself wraps: an enormous [Retry-After] is taken
    as a negative delay within the cap. *)
Theorem retryAfterDelay_cap_wraps r secs o :
  StatusCode r = StatusTooManyRequests ∨ StatusCode r = StatusServiceUnavailable →
  Atoi (RetryAfter r) = Ok secs → MaxInt64 - Second < maxRetryAfter rt ≤ MaxInt64 →
  maxRetryAfter rt / Second + 1 < secs →
  ∃ delay, retryAfterDelay ParseTime clk rt r o = (delay, true) ∧ delay < 0.
Proof.
  intros Hst Ha Hmax Hs. unfold retryAfterDelay.
  assert (0 ≤ maxRetryAfter rt / Second) by (apply Z.div_pos; unfold Second, MaxInt64 in *; lia).
  rewrite (parseRetryAfter_seconds _ _ _ _ secs) by (done || lia).
  rewrite cap_seconds by (unfold Second, MaxInt64 in *; lia). rewrite (decide_True (P := _ < secs)) by done.
  unfold Second, MaxInt64 in *.
  rewrite wrap64_over by (unfold MaxInt64; lia). rewrite decide_False by lia.
  eexists. split; [done|lia].
Qed.
End properties.

(** the classifier, as a statement about the error chain: no context error
    anywhere in it, and a per-attempt timeout, a retryable status, a first
    [net.Error] that timed out, or a refused or reset connection. *)
Theorem defaultRetryIf_spec e :
  defaultRetryIf (Some e) = true ↔
  (∀ x, x ∈ chain e → ekind x ≠ ekind Canceled ∧ ekind x ≠ ekind DeadlineExceeded)
  ∧ ((∃ x, x ∈ chain e ∧ (ekind x = ekind errAttemptTimeout ∨ is_Some (as_retryableStatus x)
                          ∨ ekind x = KErrno 111 ∨ ekind x = KErrno 104))
     ∨ first_some as_netError (chain e) = Some true).
Proof.
  unfold defaultRetryIf, isCallerCtxErr.
  destruct (errors_is e Canceled || errors_is e DeadlineExceeded) eqn:Hctx.
  - split; [done|]. intros [Hno _].
    rewrite orb_true_iff, !errors_is_kind in Hctx by done.
    destruct Hctx as [(x & Hx & Hk)|(x & Hx & Hk)]; destruct (Hno x Hx); congruence.
  - rewrite orb_false_iff, <-!not_true_iff_false, !errors_is_kind in Hctx by done.
    destruct Hctx as [Hc1 Hc2].
    assert (∀ x, x ∈ chain e → ekind x ≠ ekind Canceled ∧ ekind x ≠ ekind DeadlineExceeded) as Hno.
    { intros x Hx. split; intros Hk; [apply Hc1|apply Hc2]; eauto. }
    transitivity ((errors_is e errAttemptTimeout = true ∨ is_Some (errors_as as_retryableStatus e)
      ∨ errors_is e ECONNREFUSED = true ∨ errors_is e ECONNRESET = true)
      ∨ errors_as as_netError e = Some true).
    { destruct (errors_is e errAttemptTimeout); [by split; auto|].
      destruct (errors_as as_retryableStatus e); [by split; eauto|].
      destruct (errors_as as_netError e) as [[]|]; rewrite ?orb_true_iff;
        (split; [tauto|intros [[?|[Hn|?]]|?]; first [done|tauto|by destruct Hn]]). }
    rewrite !errors_is_kind by done. rewrite !errors_as_first, first_some_is_Some.
    split; [|naive_solver]. intros H. split; [done|]. naive_solver.
Qed.

(** ** Witnesses *)
(** A backend that is overloaded for two requests, in a world that is a
    clock: a counter of what happened so far, in seconds. *)
Definition demo_ParseTime : gostring → option Z := λ _, None.
Definition demo_clock : Clock nat :=
  {| now := λ o, Z.of_nat o * Second; clock_select := λ d o, (false, S o);
     clock_Int64N := λ n o, (0, o) |}.
Definition demo_base : RoundTripper nat :=
  {| base_RoundTrip := λ _ _ o,
       (if decide (o < 3)%nat then Responded 503 (str "1") else Responded 200 [], false, S o) |}.
Definition demo_rt : retryTransport nat :=
  {| base := demo_base; retrier := New []; perAttempt := 10 * Second; nonIdem := false;
     maxRetryAfter := 30 * Second; budget := noopBudget; onAttempt := None |}.
Definition demo_req : Request nat :=
  {| Method := str "PUT"; Host := str "example.org"; req_Body := Reader;
     GetBody := Some (λ o, (None, o));
     req_Context := {| ctx_Err := λ _, None; ctx_Deadline := None |} |}.

Example demo_run :
  let '(out, log, _) := RoundTrip demo_ParseTime demo_clock demo_rt demo_req (0%nat, attemptLoop_init) in
  match out with Ok (Some r) => StatusCode r | _ => 0 end = 200
  ∧ log = [ESend 1 false; EAllow true; ERecord true; EGetBody None; ESend 2 true;
           EAllow true; ERecord true; EGetBody None; ESend 3 true].
Proof. vm_compute. split; reflexivity. Qed.

Lemma RoundTrip_log_witness :
  let log := trace (RoundTrip demo_ParseTime demo_clock demo_rt demo_req (0%nat, attemptLoop_init)) in
  ∃ n last, attempts_log demo_rt demo_req true n log last ∧ 0 ≤ n ≤ 3 ∧ (true = false → n = 1).
Proof.
  exact (RoundTrip_log demo_ParseTime demo_clock demo_rt demo_req 0%nat eq_refl).
Defined.

(** The same backend and a retrier that gives up after two attempts. *)
Definition demo_rt2 : retryTransport nat :=
  {| base := demo_base; retrier := New [Some (WithMaxRetries 2)]; perAttempt := 10 * Second;
     nonIdem := false; maxRetryAfter := 30 * Second; budget := noopBudget; onAttempt := None |}.

Lemma RoundTrip_status_live_witness :
  ∃ r, val (RoundTrip demo_ParseTime demo_clock demo_rt2 demo_req (0%nat, attemptLoop_init))
       = Ok (Some r).
Proof.
  apply (RoundTrip_status_live demo_ParseTime demo_clock demo_rt2 demo_req 0%nat); [|reflexivity].
  split; [reflexivity|split; [|split; [reflexivity|]]].
  - intros d rewound o. simpl. destruct (decide (o < 3)%nat); eexists _, _; reflexivity.
  - intros gb o [= <-]. reflexivity.
Defined.

(** A connection that is refused for good is reported as a timeout. *)
Definition demo_unreachable : retryTransport nat :=
  {| base := {| base_RoundTrip := λ _ _ o, (Failed (Node (KNet 0 false) []), false, S o) |};
     retrier := New []; perAttempt := 10 * Second; nonIdem := false;
     maxRetryAfter := 30 * Second; budget := noopBudget; onAttempt := None |}.

Lemma send_masks_errors_witness :
  defaultRetryIf (Some (Node (KNet 0 false) [])) = false ∧
  val (send_request demo_ParseTime demo_clock demo_unreachable demo_req true 0 false
        (0%nat, set_ctxs [{| a_deadline := Some (10 * Second); a_err := None |}] attemptLoop_init))
  = Some errAttemptTimeout.
Proof.
  split; [reflexivity|].
  apply (send_masks_errors demo_ParseTime demo_clock demo_unreachable demo_req true 0 false 0%nat);
    [apply le_n|].
  intros d. split; [eexists; reflexivity|reflexivity].
Defined.

Lemma retryAfterDelay_seconds_witness :
  retryAfterDelay demo_ParseTime demo_clock demo_rt
    {| StatusCode := 429; RetryAfter := str "9223372036854775807"; Body := Raw 0 |} 0%nat
  = (0, false).
Proof.
  apply (retryAfterDelay_seconds demo_ParseTime demo_clock demo_rt
    {| StatusCode := 429; RetryAfter := str "9223372036854775807"; Body := Raw 0 |} MaxInt64 0%nat);
    [left; reflexivity|reflexivity|reflexivity|split; vm_compute; discriminate].
Defined.

(** [WithMaxRetryAfter] set to the largest duration: no cap intended. *)
Definition demo_uncapped : retryTransport nat :=
  {| base := demo_base; retrier := New []; perAttempt := 10 * Second; nonIdem := false;
     maxRetryAfter := MaxInt64; budget := noopBudget; onAttempt := None |}.

Lemma retryAfterDelay_cap_wraps_witness :
  ∃ delay, retryAfterDelay demo_ParseTime demo_clock demo_uncapped
    {| StatusCode := 503; RetryAfter := str "9223372038"; Body := Raw 0 |} 0%nat = (delay, true)
    ∧ delay < 0.
Proof.
  apply (retryAfterDelay_cap_wraps demo_ParseTime demo_clock demo_uncapped
    {| StatusCode := 503; RetryAfter := str "9223372038"; Body := Raw 0 |} 9223372038 0%nat);
    [right; reflexivity|reflexivity|split; [reflexivity|discriminate]|reflexivity].
Defined.
