(* ===== verification/HttpWaits.v ===== *)
(** * httpclient: between a response and the next request
    (httpclient/retry_transport.go over retry/retry.go)

    A response that asks for a pause with [Retry-After] is turned into an error
    that carries the delay ([classify]), handed to the retrier, found there by
    [errors.As], and becomes the argument of the timer.  Here the two files are
    put together: the environment keeps the history of the requests it has
    answered and of the waits it has been asked for, and that history is what
    the theorem speaks of. *)
From Stdlib Require Import Ascii String.
From S2P Require Export Prelude GoStrings Errors Retry HttpTransport.
Local Open Scope Z_scope.

(** ** Histories *)

Inductive net_event :=
  | NSend (out : outcome)
  | NWait (delay : Z) (done : bool).   (* [done]: the context won the [select] *)

(** The pause a response asks for: the statuses whose header counts, and a
    positive number of seconds. *)
Definition retry_after (out : outcome) : option Z :=
  match out with
  | Responded s ra =>
      if decide (s = StatusTooManyRequests ∨ s = StatusServiceUnavailable) then
        match Atoi ra with
        | Ok secs => if decide (0 < secs) then Some (secs * Second) else None
        | _ => None
        end
      else None
  | Failed _ => None
  end.

Lemma retry_after_pos out w : retry_after out = Some w → 0 < w.
Proof. unfold retry_after, Second. intros H. repeat case_match; simplify_eq. lia. Qed.

(** A wait that grants [w], under a cap. *)
Definition grants (cap w d : Z) : Prop := w ≤ cap ∧ w ≤ d ≤ w + w `quot` 10.

(** Nothing follows a response that asks for a pause but a wait that grants it,
    and nothing follows a wait that was cut short. *)
Definition polite (cap : Z) (h : list net_event) : Prop :=
  ∀ k out w, h !! k = Some (NSend out) → retry_after out = Some w → (S k < length h)%nat →
  ∃ d done, h !! S k = Some (NWait d done) ∧ grants cap w d
            ∧ (done = true → length h = S (S k)).

(** Where a history stands. *)
Inductive phase := Ready | Sent (out : outcome) | Over.

Inductive hist_ok (cap : Z) : list net_event → phase → Prop :=
  | ok_start : hist_ok cap [] Ready
  | ok_send h out :
      hist_ok cap h Ready → hist_ok cap (h ++ [NSend out]) (Sent out)
  | ok_wait h d done :                         (* after an attempt that sent nothing *)
      hist_ok cap h Ready → hist_ok cap (h ++ [NWait d done]) (if done then Over else Ready)
  | ok_grant h out d done :
      hist_ok cap h (Sent out) → (∀ w, retry_after out = Some w → grants cap w d) →
      hist_ok cap (h ++ [NWait d done]) (if done then Over else Ready).

(** The requests that have been answered with a wait. *)
Definition granted_at (cap : Z) (h : list net_event) (k : nat) : Prop :=
  ∀ out w, h !! k = Some (NSend out) → retry_after out = Some w →
  ∃ d, h !! S k = Some (NWait d false) ∧ grants cap w d.

Definition phase_ok (cap : Z) (h : list net_event) (ph : phase) : Prop :=
  match ph with
  | Ready => ∀ k, granted_at cap h k
  | Sent out => last h = Some (NSend out) ∧ ∀ k, (S k < length h)%nat → granted_at cap h k
  | Over => polite cap h
  end.

Lemma granted_at_snoc cap h k x : (S k < length h)%nat → granted_at cap h k → granted_at cap (h ++ [x]) k.
Proof.
  intros Hk Hg out w. rewrite lookup_app_l by lia. intros Hs Hw.
  destruct (Hg out w Hs Hw) as (d & Hd & ?). exists d. by rewrite lookup_app_l.
Qed.

Lemma lookup_snoc_last {A} (h : list A) x y : (h ++ [x]) !! length h = Some y → y = x.
Proof. rewrite list_lookup_middle by done. by intros [= <-]. Qed.

(** A granted request is not the last event. *)
Lemma granted_at_lt cap h k out w :
  granted_at cap h k → h !! k = Some (NSend out) → retry_after out = Some w → (S k < length h)%nat.
Proof. intros Hg Hs Hw. destruct (Hg _ _ Hs Hw) as (d & Hd & _). by eapply lookup_lt_Some. Qed.

Lemma granted_all_snoc cap h x :
  (∀ k, granted_at cap h k) → ∀ k, (k < length h)%nat → granted_at cap (h ++ [x]) k.
Proof.
  intros Hg k Hk out w Hs Hw. pose proof Hs as Hs'. rewrite lookup_app_l in Hs by done.
  pose proof (granted_at_lt _ _ _ _ _ (Hg k) Hs Hw).
  by apply (granted_at_snoc cap h k x) with out.
Qed.

Lemma phase_polite cap h ph : phase_ok cap h ph → polite cap h.
Proof.
  destruct ph as [|o|]; simpl; [intros Hg|intros [_ Hg]|done];
    intros k out w Hs Hw Hl; destruct (Hg k) with out w as (d & Hd & Hgr); try done;
    by exists d, false.
Qed.

Lemma snoc_send cap h out :
  (∀ k, granted_at cap h k) → phase_ok cap (h ++ [NSend out]) (Sent out).
Proof.
  intros Hg. split; [apply last_snoc|]. intros k. rewrite length_app. simpl. intros Hk.
  apply granted_all_snoc; [done|lia].
Qed.

(** A wait after the last request, if that one is granted by it. *)
Lemma snoc_wait cap h d done :
  (∀ k, (S k < length h)%nat → granted_at cap h k) →
  (∀ out w, last h = Some (NSend out) → retry_after out = Some w → grants cap w d) →
  phase_ok cap (h ++ [NWait d done]) (if done then Over else Ready).
Proof.
  intros Hg Hlast.
  assert (∀ k out w, (h ++ [NWait d done]) !! k = Some (NSend out) → retry_after out = Some w →
    (∃ d', (h ++ [NWait d done]) !! S k = Some (NWait d' false) ∧ grants cap w d')
    ∨ S k = length h ∧ (h ++ [NWait d done]) !! S k = Some (NWait d done) ∧ grants cap w d) as H.
  { intros k out w Hs Hw. destruct (decide (S k < length h)%nat) as [Hk|Hk].
    { left. by apply (granted_at_snoc cap h k _ Hk (Hg k Hk) out). }
    pose proof (lookup_lt_Some _ _ _ Hs) as Hl. rewrite length_app in Hl. simpl in Hl.
    destruct (decide (S k = length h)) as [Hk'|Hk'].
    - right. rewrite lookup_app_l in Hs by lia. rewrite list_lookup_middle by done.
      split_and!; [done|done|]. apply (Hlast out w); [|done].
      rewrite last_lookup, <-Hk'. done.
    - replace k with (length h) in Hs by lia. apply lookup_snoc_last in Hs. done. }
  destruct done; simpl.
  - intros k out w Hs Hw Hl. destruct (H k out w Hs Hw) as [(d' & ? & ?)|(Hk & ? & ?)].
    + by exists d', false.
    + exists d, true. split_and!; [done|done|]. rewrite length_app. simpl. lia.
  - intros k out w Hs Hw. destruct (H k out w Hs Hw) as [?|(Hk & ? & ?)]; eauto.
Qed.

Lemma hist_ok_phase cap h ph : hist_ok cap h ph → phase_ok cap h ph.
Proof.
  induction 1 as [|h out H IH|h d done H IH|h out d done H IH Hgr].
  - by intros k out w Hs.
  - by apply snoc_send.
  - apply snoc_wait; [auto|]. intros out w Hl Hw. exfalso. rewrite last_lookup in Hl.
    pose proof (granted_at_lt _ _ _ _ _ (IH _) Hl Hw). lia.
  - destruct IH as [Hl IH]. apply snoc_wait; [done|]. intros out' w. rewrite Hl. naive_solver.
Qed.

Lemma hist_ok_polite cap h ph : hist_ok cap h ph → polite cap h.
Proof. intros H. by eapply phase_polite, hist_ok_phase. Qed.

(** ** One attempt *)

Section transport.
Context {O : Type}.
Variable ParseTime : gostring → option Z.
Variable clk : Clock O.
Variable rt : retryTransport O.
Variable req : Request O.
#[local] Abbreviation parent := (req_Context req).

(** An environment that keeps the history [hist] of its requests and waits;
    the rest of it goes on as it likes.  A context that won a [select] is dead. *)
Record records (hist : O → list net_event) : Prop := {
  rec_send d rewound o :
    let '(out, _, o') := base_RoundTrip (base rt) d rewound o in hist o' = hist o ++ [NSend out];
  rec_wait d o :
    let '(done, o') := clock_select clk d o in
    hist o' = hist o ++ [NWait d done] ∧ (done = true → is_Some (ctx_Err parent o'));
  rec_random n o : hist (clock_Int64N clk n o).2 = hist o;
  rec_budget o : hist (Allow (budget rt) o).2 = hist o;
  rec_record b o : hist (Record_ (budget rt) b o) = hist o;
  rec_body gb o : GetBody req = Some gb → hist (gb o).2 = hist o;
  rec_hook hook info o : onAttempt rt = Some hook → hist (hook info o) = hist o;
}.

Variable hist : O → list net_event.
Hypothesis Hrec : records hist.
Hypothesis Hcap : 0 ≤ maxRetryAfter rt ∧ maxRetryAfter rt + maxRetryAfter rt `quot` 10 ≤ MaxInt64.
Variable h0 : list net_event.
#[local] Abbreviation cap := (maxRetryAfter rt).

(** What happened since the history was [h0]. *)
Definition reaches (ph : phase) (o : O) : Prop := ∃ h, hist o = h0 ++ h ∧ hist_ok cap h ph.

(** What an attempt that sent [out] hands on, when it is worth a retry. *)
Definition carries (out : outcome) (res : option error) : Prop :=
  ∀ e w, res = Some e → retry_after out = Some w → w ≤ cap ∧ errors_as DelayHinter e = Some w.

Definition attempted (retryable : bool) (res : option error) (o : O) : Prop :=
  reaches Ready o ∨ ∃ out, reaches (Sent out) o ∧ (retryable = true → carries out res).

Lemma reaches_same ph o o' : hist o' = hist o → reaches ph o → reaches ph o'.
Proof using Type. unfold reaches. by intros ->. Qed.

Lemma cap_second : cap ≤ MaxInt64 - Second.
Proof using Hcap.
  destruct Hcap as [H1 H2]. rewrite Z.quot_div_nonneg in H2 by lia.
  unfold MaxInt64, Second in *. Z.div_mod_to_equations; lia.
Qed.

Lemma emit_hist k st err el retrying reused o l :
  ∃ t o', emit rt req k st err el retrying reused (o, l) = ((), t, (o', l)) ∧ hist o' = hist o.
Proof using Hrec.
  unfold emit. destruct (onAttempt rt) as [hook|] eqn:Hh; [|by eexists _, _].
  eexists _, _. split; [reflexivity|]. by apply (rec_hook _ Hrec).
Qed.

(** The delay of [classify] is the pause the response asks for. *)
Lemma retryAfterDelay_asked s ra b o w :
  retry_after (Responded s ra) = Some w →
  s ∈ retryableStatuses ∧
  retryAfterDelay ParseTime clk rt {| StatusCode := s; RetryAfter := ra; Body := b |} o
  = (if decide (w ≤ cap) then (w, true) else (0, false)).
Proof using Hrec Hcap.
  simpl. case_decide as Hs; [|done]. destruct (Atoi ra) as [secs| |] eqn:Ha; try done.
  case_decide as Hpos; [|done]. intros [= <-]. split.
  - unfold retryableStatuses. destruct Hs as [-> | ->]; set_solver.
  - apply (retryAfterDelay_seconds ParseTime clk rt _ secs o); simpl; try done.
    pose proof cap_second. lia.
Qed.

Ltac run_emit :=
  match goal with |- context [emit rt req ?n ?s ?e ?el ?x ?y (?o, ?l)] =>
    let t := fresh "t" in let o' := fresh "o'" in let He := fresh "He" in let Ho := fresh "Ho" in
    destruct (emit_hist n s e el x y o l) as (t & o' & He & Ho); rewrite He; clear He end.

Lemma classify_hist retryable s ra b c el reused o l :
  let '(res, _, w) := classify ParseTime clk rt req retryable
    {| StatusCode := s; RetryAfter := ra; Body := b |} c el reused (o, l) in
  hist w.1 = hist o ∧ (retryable = true → carries (Responded s ra) res).
Proof using Hrec Hcap.
  unfold classify, mbind, comp_bind, get, mret, comp_ret. cbn [StatusCode val trace fst snd app].
  pose proof (retryAfterDelay_asked s ra b o) as Hd.
  destruct (retryable && bool_decide (s ∈ retryableStatuses)) eqn:Hret;
    [destruct (retryAfterDelay _ _ _ _ _) as [d []]|]; cbn; run_emit; cbn;
    (split; [done|]); intros Hr e w; try done.
  intros [= <-] Hw. destruct (Hd w Hw) as (_ & Heq).
  case_decide; [|done]. injection Heq as ->. done.
Qed.

Lemma reaches_Sent out o o' :
  hist o' = hist o ++ [NSend out] → reaches Ready o → reaches (Sent out) o'.
Proof using Type.
  intros Hs (h & Heq & Hh). exists (h ++ [NSend out]). rewrite Hs, Heq, app_assoc.
  split; [done|]. by constructor.
Qed.

Lemma send_request_hist retryable c rewound o l :
  reaches Ready o →
  let '(res, _, w) := send_request ParseTime clk rt req retryable c rewound (o, l) in
  attempted retryable res w.1.
Proof using Hrec Hcap.
  intros Ho. unfold send_request, roundtrip, mbind, comp_bind, get. cbn.
  match goal with |- context [base_RoundTrip _ ?d ?rw ?o] =>
    pose proof (rec_send _ Hrec d rw o) as Hsent;
    destruct (base_RoundTrip (base rt) d rw o) as [[[err|s ra] reused] o1] end; cbn in *;
    apply (reaches_Sent _ _ _ Hsent) in Ho.
  - run_emit. cbn. right. exists (Failed err). split; [|by intros _ e w].
    by eapply reaches_same.
  - match goal with |- context [classify ParseTime clk rt req retryable ?r ?c ?el reused (o1, ?l')] =>
      pose proof (classify_hist retryable s ra (Body r) c el reused o1 l') as Hc;
      cbn in Hc; destruct (classify ParseTime clk rt req retryable r c el reused (o1, l')) as [[res t] w] end.
    destruct Hc as [Hh Hc]. right. exists (Responded s ra). split; [|exact Hc].
    by eapply reaches_same.
Qed.

Lemma send_hist retryable o l :
  reaches Ready o →
  let '(res, _, w) := send ParseTime clk rt req retryable (o, l) in attempted retryable res w.1.
Proof using Hrec Hcap.
  intros Ho. unfold send, mbind, comp_bind, get. cbn.
  destruct (attemptContext_spec clk rt req o l) as [d ->]. cbn.
  pose proof (λ rw o' l', send_request_hist retryable (length (ctxs l)) rw o' l') as Hsend.
  destruct (GetBody req) as [gb|] eqn:Hgb; [case_decide|].
  - unfold env_step. pose proof (rec_body _ Hrec gb o Hgb) as Hs.
    destruct (gb o) as [[e|] o1]; cbn in *; apply (reaches_same _ _ _ Hs) in Ho; [by left|].
    specialize (Hsend true o1 (set_ctxs (ctxs l ++ [{| a_deadline := d; a_err := None |}]) l) Ho).
    by destruct (send_request _ _ _ _ _ _ _ _) as [[??] ?].
  - specialize (Hsend false o (set_ctxs (ctxs l ++ [{| a_deadline := d; a_err := None |}]) l) Ho).
    by destruct (send_request _ _ _ _ _ _ _ _) as [[??] ?].
  - specialize (Hsend false o (set_ctxs (ctxs l ++ [{| a_deadline := d; a_err := None |}]) l) Ho).
    by destruct (send_request _ _ _ _ _ _ _ _) as [[??] ?].
Qed.

Lemma once_hist retryable o l :
  held l → reaches Ready o →
  let '(res, _, w) := once ParseTime clk rt req retryable (o, l) in attempted retryable res w.1.
Proof using Hrec Hcap.
  intros Hheld Ho. unfold once, mbind, comp_bind, get, upd, modify, tell. cbn.
  destruct (drainPrev_spec clk req o (incr_attempt l) Hheld) as (l1 & -> & _). cbn. case_decide.
  - unfold env_step. pose proof (rec_budget _ Hrec o) as Hs.
    destruct (Allow (budget rt) o) as [g o1]. cbn in *.
    assert (reaches Ready (Record_ (budget rt) g o1)) as Hr.
    { eapply reaches_same, reaches_same, Ho; [apply (rec_record _ Hrec)|done]. }
    destruct g; [|by left].
    pose proof (send_hist retryable _ l1 Hr) as Hsend. by destruct (send _ _ _ _ _ _) as [[??] ?].
  - pose proof (send_hist retryable o l1 Ho) as Hsend. by destruct (send _ _ _ _ _ _) as [[??] ?].
Qed.

(** ** The whole round trip *)

Hypothesis Hrandom : ∀ n o, 0 < n → 0 ≤ (clock_Int64N clk n o).1 < n.

#[local] Abbreviation World := (W (O:=O) * list tevent)%type.
Definition before_attempt (w : World) : Prop :=
  held w.1.2 ∧ 0 ≤ attempt w.1.2 ∧ reaches Ready w.1.1.
Definition after_failure (e : error) (w : World) : Prop :=
  held w.1.2 ∧ 0 ≤ attempt w.1.2 ∧ attempted true (Some e) w.1.1.
Definition stopped (err : option error) (w : World) : Prop :=
  (∃ ph, reaches ph w.1.1)
  ∧ match err with None => after_attempt None w.1.2 | Some _ => held w.1.2 end.

Lemma attempted_reaches b res o : attempted b res o → ∃ ph, reaches ph o.
Proof using Type. intros [?|(out & ? & _)]; eauto. Qed.

Lemma once_step w :
  before_attempt w →
  match as_fn (once ParseTime clk rt req true) w with
  | (None, w') => stopped None w'
  | (Some e, w') => after_failure e w' ∧ stopped (Some e) w'
  end.
Proof using Hrec Hcap.
  destruct w as [[o l] log]. intros (Hh & Ha & Ho). cbn in *.
  pose proof (once_hist true o l Hh Ho) as Hone.
  destruct (once_spec ParseTime clk rt req true o l Hh Ha)
    as (res & o' & l' & t & Hrun & Hres & Hatt & _).
  unfold as_fn. rewrite Hrun in *. cbn in *.
  pose proof (attempted_reaches _ _ _ Hone) as Hph.
  destruct res as [e|]; [|by split]. destruct Hres as [Hh' _].
  split; [|by split]. split; [done|]. split; [cbn; lia|done].
Qed.

(** The wait the retrier chooses grants what the response asked for. *)
Lemma wait_step i e w :
  after_failure e w →
  let '(d, _, w1) := nextDelay (λ n, lift_env (clock_Int64N clk n)) (retrier rt) i e w in
  let '(done, w2) := lift_env (clock_select clk d) w1 in
  match (if done then ctx_Err parent w2.1.1 else None) with
  | Some e' => stopped (Some e') w2
  | None => before_attempt w2
  end.
Proof using Hrec Hcap Hrandom.
  intros Hf.
  pose proof (nextDelay_world (λ n, lift_env (clock_Int64N clk n)) (after_failure e)
    (retrier rt) i e w) as Hw1.
  destruct (nextDelay_spec (λ n, lift_env (clock_Int64N clk n))) with (retrier rt) i e w
    as (d & w1 & Hd & Hdelay).
  { intros n [[o l] log] Hn. unfold lift_env. specialize (Hrandom n o Hn).
    by destruct (clock_Int64N clk n o). }
  rewrite Hd in *. cbn in Hw1. destruct Hw1 as (Hh & Ha & Hatt); [|done|].
  { intros n [[o l] log] (? & ? & Ho). unfold lift_env. pose proof (rec_random _ Hrec n o) as Hr.
    destruct (clock_Int64N clk n o) as [x o']. cbn in *. split_and!; [done..|].
    destruct Ho as [Ho|(out & Ho & Hc)]; [left|right; exists out; split; [|done]];
      by eapply reaches_same. }
  destruct w1 as [[o l] log]. cbn in *. pose proof (rec_wait _ Hrec d o) as Hw.
  destruct (clock_select clk d o) as [done o']. cbn. destruct Hw as [Hh' Hdone].
  assert (reaches (if done then Over else Ready) o') as Hr.
  { destruct Hatt as [(h & Heq & Hok)|(out & (h & Heq & Hok) & Hc)];
      exists (h ++ [NWait d done]); rewrite Hh', Heq, app_assoc; (split; [done|]).
    - by constructor.
    - apply ok_grant with out; [done|]. intros w' Hw'. destruct (Hc eq_refl e w' eq_refl Hw') as [Hle He].
      split; [done|]. apply (delay_ok_hint (retrier rt) i e); [done|..|done].
      + by eapply retry_after_pos.
      + pose proof (retry_after_pos _ _ Hw').
        assert (w' `quot` 10 ≤ cap `quot` 10) by (apply Z.quot_le_mono; lia). lia. }
  destruct done; cbn; [destruct (Hdone eq_refl) as [e' ->]|by split_and!].
  split; [by exists Over|done].
Qed.

Lemma run_retrier_hist o l :
  held l → 0 ≤ attempt l → reaches Ready o →
  let '(err, log, w) := run_retrier ParseTime clk rt req true (o, l) in stopped err (w, log).
Proof using Hrec Hcap Hrandom.
  intros Hh Ha Ho. unfold run_retrier, DoCtx. cbn [validate].
  match goal with |- context [loop ?c ?s ?n ?f ?r ?m ?k ?i ?e ?w] =>
    set (L := loop c s n f r m k i e w);
    assert (stopped (val L) (world L)) as HL;
      [apply (failure_rule c s n f r m (λ _, before_attempt) (λ _, after_failure) stopped)|]
  end; try lia.
  - intros i [[o' l'] log] e _ (? & ? & ?) _. split; [by exists Ready|done].
  - intros i w _. apply once_step.
  - intros i e w _ Hf. pose proof (wait_step i e w Hf) as Hw.
    destruct (nextDelay _ _ _ _ _) as [[d t] w1]. destruct (lift_env _ w1) as [done [[o2 l2] log2]].
    exact Hw.
  - by split_and!.
  - change (let '(err, log, w) := (let '(err, _, (w, log)) := L in (err, log, w)) in
            stopped err (w, log)).
    by destruct L as [[err t] [w log]].
Qed.
End transport.

(** ** Properties *)

(** C13: the server's pause is kept, end to end.  Over any environment that
    keeps the history of its requests and waits, a [RoundTrip] adds one in which
    requests are separated by waits, and in which a 429 or 503 response that asks
    for [n] seconds is the last event, or is followed by a wait of at least [n]
    seconds and at most a tenth more, then, only if that wait ran its full length
    and the pause was within the cap, by anything else.  This is about headers
    that give seconds, not a date, and a cap that leaves room for the jitter in a
    [Duration]. *)
Theorem RoundTrip_waits {O} (ParseTime : gostring → option Z) (clk : Clock O)
    (rt : retryTransport O) (req : Request O) (hist : O → list net_event) o :
  records clk rt req hist →
  0 ≤ maxRetryAfter rt ∧ maxRetryAfter rt + maxRetryAfter rt `quot` 10 ≤ MaxInt64 →
  (∀ n o, 0 < n → 0 ≤ (clock_Int64N clk n o).1 < n) →
  let '(_, _, w) := RoundTrip ParseTime clk rt req (o, attemptLoop_init) in
  ∃ h ph, hist w.1 = hist o ++ h ∧ hist_ok (maxRetryAfter rt) h ph
          ∧ polite (maxRetryAfter rt) h.
Proof.
  intros Hrec Hcap Hrandom.
  assert (held attemptLoop_init) as Hinit by (split; [done|]; split; [done|apply owned_init]).
  assert (reaches rt hist (hist o) Ready o) as Hstart.
  { exists []. rewrite app_nil_r. split; [done|constructor]. }
  assert (∀ ph o', reaches rt hist (hist o) ph o' → ∃ h ph, hist o' = hist o ++ h
    ∧ hist_ok (maxRetryAfter rt) h ph ∧ polite (maxRetryAfter rt) h) as Hdone.
  { intros ph o' (h & Heq & Hok). exists h, ph. split_and!; [done..|by eapply hist_ok_polite]. }
  destruct (refused rt req) eqn:Href; [rewrite RoundTrip_refused by done; by eapply Hdone|].
  unfold refused in Href. unfold RoundTrip. rewrite Href. unfold mbind, comp_bind.
  assert (∃ err t w, (if isRetryable rt req then run_retrier ParseTime clk rt req (isRetryable rt req)
      else once ParseTime clk rt req (isRetryable rt req)) (o, attemptLoop_init) = (err, t, w)
    ∧ stopped rt hist (hist o) err (w, [])) as (err & t & [o' l'] & Hrun & [ph Hph] & Herr).
  { destruct (isRetryable rt req).
    - pose proof (run_retrier_hist ParseTime clk rt req hist Hrec Hcap (hist o) Hrandom o
        attemptLoop_init Hinit ltac:(done) Hstart) as Hr.
      destruct (run_retrier _ _ _ _ _ _) as [[err t] w]. by exists err, t, w.
    - pose proof (once_hist ParseTime clk rt req hist Hrec Hcap (hist o) false o
        attemptLoop_init Hinit Hstart) as Hone.
      destruct (once_spec ParseTime clk rt req false o attemptLoop_init Hinit ltac:(done))
        as (res & o' & l' & t & Hrun & Hres & _). rewrite Hrun in *.
      exists res, t, (o', l'). split; [done|]. split; [by eapply attempted_reaches|].
      destruct res; apply Hres. }
  destruct (isRetryable rt req); rewrite Hrun; cbn in *; destruct err as [e|];
    [destruct (finish_held clk req e o' l' Herr) as (? & ? & -> & _)
    |destruct (finish_success clk req o' l' Herr) as (? & -> & _)
    |destruct (finish_held clk req e o' l' Herr) as (? & ? & -> & _)
    |destruct (finish_success clk req o' l' Herr) as (? & -> & _)]; by eapply Hdone.
Qed.

(** ** Witness *)

(** A backend that answers 503 with "Retry-After: 2" twice; the world is the
    history itself. *)
Definition waits_clock : Clock (list net_event) :=
  {| now := λ h, Z.of_nat (length h) * Second;
     clock_select := λ d h, (false, h ++ [NWait d false]);
     clock_Int64N := λ n h, (0, h) |}.
Definition waits_answer (h : list net_event) : outcome :=
  if decide (length h < 4)%nat then Responded 503 (str "2") else Responded 200 [].
Definition waits_rt : retryTransport (list net_event) :=
  {| base := {| base_RoundTrip := λ _ _ h, (waits_answer h, false, h ++ [NSend (waits_answer h)]) |};
     retrier := New []; perAttempt := 10 * Second; nonIdem := false;
     maxRetryAfter := 30 * Second; budget := noopBudget; onAttempt := None |}.
Definition waits_req : Request (list net_event) :=
  {| Method := str "GET"; Host := str "example.org"; req_Body := NilBody; GetBody := None;
     req_Context := {| ctx_Err := λ _, None; ctx_Deadline := None |} |}.

Example waits_run :
  (world (RoundTrip demo_ParseTime waits_clock waits_rt waits_req ([], attemptLoop_init))).1
  = [NSend (Responded 503 (str "2")); NWait (2 * Second) false;
     NSend (Responded 503 (str "2")); NWait (2 * Second) false; NSend (Responded 200 [])].
Proof. vm_compute. reflexivity. Qed.

Lemma RoundTrip_waits_witness :
  let '(_, _, w) := RoundTrip demo_ParseTime waits_clock waits_rt waits_req ([], attemptLoop_init) in
  ∃ h ph, w.1 = h ∧ hist_ok (30 * Second) h ph ∧ polite (30 * Second) h.
Proof.
  apply (RoundTrip_waits demo_ParseTime waits_clock waits_rt waits_req (λ h, h) []).
  - by split.
  - split; vm_compute; discriminate.
  - intros n o Hn. split; [reflexivity|exact Hn].
Defined.
