(* ===== verification/Base64.v ===== *)
(** * [encoding/base64.RawURLEncoding], as crypter uses it

    The URL alphabet without padding.  The decoder is Go's: it skips carriage
    returns and line feeds, and it does not insist that the unused bits of the
    last character are zero. *)
From Stdlib Require Import Ascii String.
From S2P Require Export Prelude.
Local Open Scope Z_scope.

Definition alphabet : gostring :=
  str "ABCDEFGHIJKLMNOPQRSTUVWXYZabcdefghijklmnopqrstuvwxyz0123456789-_".

Definition enc6 (v : Z) : ascii := default zero (alphabet !! Z.to_nat v).
Definition dec6 (c : ascii) : option Z :=
  '(i, _) ← list_find (eq c) alphabet; Some (Z.of_nat i).

(** [AppendEncode], over the bytes as numbers. *)
Fixpoint encode_bytes (l : list Z) : gostring :=
  match l with
  | [] => []
  | [a] => let v := a * 65536 in [enc6 (v / 262144); enc6 (v / 4096 mod 64)]
  | [a; b] =>
      let v := a * 65536 + b * 256 in
      [enc6 (v / 262144); enc6 (v / 4096 mod 64); enc6 (v / 64 mod 64)]
  | a :: b :: c :: l =>
      let v := a * 65536 + b * 256 + c in
      enc6 (v / 262144) :: enc6 (v / 4096 mod 64) :: enc6 (v / 64 mod 64) :: enc6 (v mod 64)
      :: encode_bytes l
  end.
Definition EncodeToString (raw : gostring) : gostring := encode_bytes (map code raw).

(** [decodeQuantum] until the input is used up. *)
Fixpoint decode_digits (l : list Z) : option (list Z) :=
  match l with
  | [] => Some []
  | [_] => None
  | [d0; d1] => let v := d0 * 262144 + d1 * 4096 in Some [v / 65536]
  | [d0; d1; d2] =>
      let v := d0 * 262144 + d1 * 4096 + d2 * 64 in Some [v / 65536; v / 256 mod 256]
  | d0 :: d1 :: d2 :: d3 :: l =>
      let v := d0 * 262144 + d1 * 4096 + d2 * 64 + d3 in
      rest ← decode_digits l; Some (v / 65536 :: v / 256 mod 256 :: v mod 256 :: rest)
  end.

Definition is_newline (c : ascii) : bool := (code c =? 10) || (code c =? 13).

(** [DecodeString]: [None] is a [CorruptInputError]. *)
Definition DecodeString (s : gostring) : option gostring :=
  ds ← mapM dec6 (filter (λ c, is_newline c = false) s);
  bytes ← decode_digits ds;
  Some (map chr bytes).

(** ** Facts *)

Lemma dec6_enc6 v : 0 ≤ v < 64 → dec6 (enc6 v) = Some v.
Proof.
  intros Hv.
  assert (forallb (λ n, bool_decide (dec6 (enc6 (Z.of_nat n)) = Some (Z.of_nat n))) (seq 0 64) = true)
    as H by (vm_compute; reflexivity).
  rewrite forallb_forall in H. specialize (H (Z.to_nat v)).
  rewrite in_seq, bool_decide_eq_true, Z2Nat.id in H by lia. apply H. lia.
Qed.

(** The alphabet contains neither newlines nor the end tag. *)
Lemma enc6_alphabet v : is_newline (enc6 v) = false ∧ code (enc6 v) ≠ 93.
Proof.
  assert (Forall (λ c, is_newline c = false ∧ code c ≠ 93) (zero :: alphabet)) as Hall.
  { repeat constructor; done. }
  rewrite Forall_forall in Hall. apply Hall. unfold enc6.
  destruct (alphabet !! Z.to_nat v) as [c|] eqn:Hc; [|left].
  right. by eapply list_elem_of_lookup_2.
Qed.

Lemma enc6_no_brace v : code (enc6 v) ≠ 123.
Proof.
  assert (Forall (λ c, code c ≠ 123) (zero :: alphabet)) as Hall by (repeat constructor; done).
  rewrite Forall_forall in Hall. apply Hall. unfold enc6.
  destruct (alphabet !! Z.to_nat v) as [c|] eqn:Hc; [|left].
  right. by eapply list_elem_of_lookup_2.
Qed.

(** Induction three bytes at a time. *)
Lemma list_ind3 {A} (P : list A → Prop) :
  P [] → (∀ a, P [a]) → (∀ a b, P [a; b]) →
  (∀ a b c l, P l → P (a :: b :: c :: l)) → ∀ l, P l.
Proof.
  intros H0 H1 H2 H3. fix IH 1. intros [|a [|b [|c l]]]; [done..|]. apply H3, IH.
Qed.

Lemma decode_encode_digits l :
  Forall (λ b, 0 ≤ b < 256) l →
  ∃ ds, mapM dec6 (encode_bytes l) = Some ds ∧ decode_digits ds = Some l.
Proof.
  induction l as [|a|a b|a b c l IH] using list_ind3; intros Hl.
  - by exists [].
  - inversion_clear Hl as [|? ? Ha]. eexists. split.
    + cbn [encode_bytes mapM]. rewrite !dec6_enc6 by (Z.div_mod_to_equations; lia). reflexivity.
    + simpl. do 2 f_equal. Z.div_mod_to_equations; lia.
  - inversion_clear Hl as [|? ? Ha Hl']. inversion_clear Hl' as [|? ? Hb].
    eexists. split.
    + cbn [encode_bytes mapM]. rewrite !dec6_enc6 by (Z.div_mod_to_equations; lia). reflexivity.
    + simpl. do 2 f_equal; [|f_equal]; Z.div_mod_to_equations; lia.
  - inversion_clear Hl as [|? ? Ha Hl']. inversion_clear Hl' as [|? ? Hb Hl].
    inversion_clear Hl as [|? ? Hc Hl']. destruct (IH Hl') as (ds & Hds & Hdec).
    eexists. split.
    + cbn [encode_bytes mapM]. rewrite !dec6_enc6 by (Z.div_mod_to_equations; lia).
      rewrite Hds. reflexivity.
    + simpl. rewrite Hdec. simpl. do 2 f_equal; [|f_equal; [|f_equal]]; Z.div_mod_to_equations; lia.
Qed.

Lemma encode_bytes_clean l :
  Forall (λ c, is_newline c = false ∧ code c ≠ 93) (encode_bytes l).
Proof.
  induction l as [|a|a b|a b c l IH] using list_ind3; simpl;
    repeat (apply Forall_cons; split; [apply enc6_alphabet|]); done || by constructor.
Qed.

Lemma filter_all {A} (P : A → Prop) `{∀ x, Decision (P x)} (l : list A) :
  Forall P l → filter P l = l.
Proof.
  induction 1 as [|x l Hx _ IH]; [done|]. by rewrite filter_cons_True, IH.
Qed.

Lemma encode_nil raw : EncodeToString raw = [] → raw = [].
Proof. destruct raw as [|a [|b [|c raw]]]; done. Qed.

(** decoding what was encoded gives the bytes back. *)
Theorem DecodeString_EncodeToString raw : DecodeString (EncodeToString raw) = Some raw.
Proof.
  unfold DecodeString, EncodeToString.
  rewrite filter_all.
  2:{ eapply Forall_impl; [apply encode_bytes_clean|]. by intros c [? _]. }
  destruct (decode_encode_digits (map code raw)) as (ds & Hds & Hdec).
  { apply Forall_forall. intros b Hb. apply list_elem_of_fmap in Hb as (c & -> & _). apply code_range. }
  rewrite Hds. simpl. rewrite Hdec. simpl. f_equal. rewrite map_map.
  rewrite (map_ext _ id), map_id; [done|apply chr_code].
Qed.

Lemma EncodeToString_no_brace raw : Forall (λ c, code c ≠ 123) (EncodeToString raw).
Proof.
  unfold EncodeToString. generalize (map code raw) as l. intros l.
  induction l as [|a|a b|a b c l IH] using list_ind3; simpl;
    repeat (constructor; [apply enc6_no_brace|]); [constructor..|done].
Qed.
