(* ===== verification/Crypter.v ===== *)
(** * crypter: tagged AES-GCM strings (crypter/crypter.go)

    [cipher.AEAD] is an interface ([AEAD]) whose contract ([AEADLaws]) the
    theorems rely on; the random source is an arbitrary world.  [Encrypt] is
    translated with its pool of nonce buffers, whose contents survive from
    call to call. *)
From Stdlib Require Import Ascii String.
From S2P Require Export Prelude GoStrings Errors Base64.
Local Open Scope Z_scope.

(** ** The AEAD interface *)

Class AEAD (C : Type) := {
  NonceSize : C → nat;
  Overhead : C → nat;
  Seal : C → gostring → gostring → gostring;           (* nonce, plaintext *)
  Open : C → gostring → gostring → result error gostring;  (* nonce, ciphertext *)
}.

(** What [cipher.AEAD] promises of GCM: opening undoes sealing under the same
    nonce, accepts nothing but sealed texts, and sealing adds [Overhead]. *)
Class AEADLaws (C : Type) `{AEAD C} := {
  open_seal : ∀ (c : C) nonce pt, length nonce = NonceSize c →
    Open c nonce (Seal c nonce pt) = Ok pt;
  open_sound : ∀ (c : C) nonce ct pt, length nonce = NonceSize c →
    Open c nonce ct = Ok pt → ct = Seal c nonce pt;
  open_total : ∀ (c : C) nonce ct, length nonce = NonceSize c →
    is_Panic (Open c nonce ct) = false;
  length_seal : ∀ (c : C) nonce pt, length (Seal c nonce pt) = (length pt + Overhead c)%nat;
  overhead_pos : ∀ c : C, (0 < Overhead c)%nat;
}.

(** [io.ReadFull(rand.Reader, buf)]: the bytes read, fewer than asked exactly
    when there is an error. *)
Record Rand R := { ReadFull : nat → R → gostring * option error * R }.
Arguments ReadFull {_}.
Definition rand_ok {R} (rng : Rand R) : Prop := ∀ n r,
  let '(bytes, err, _) := ReadFull rng n r in
  match err with None => length bytes = n | Some _ => (length bytes ≤ n)%nat end.

(** ** Errors and constants *)

Definition StartTag : gostring := str "ENCv1[".
Definition EndTag : gostring := str "]".
Definition startLen : nat := length StartTag.

Definition ErrInvalidCipherText : error := errors_new "crypter.ErrInvalidCipherText".
Definition ErrInvalidKeyLength : error := errors_new "crypter.ErrInvalidKeyLength".
Definition ErrEmptyPayload : error := errors_new "crypter.ErrEmptyPayload".
Definition ErrNewCipher : error := errors_new "crypter.ErrNewCipher".
Definition ErrNewGCM : error := errors_new "crypter.ErrNewGCM".
Definition ErrReadNonce : error := errors_new "crypter.ErrReadNonce".
Definition ErrBase64Decode : error := errors_new "crypter.ErrBase64Decode".
Definition ErrOpen : error := errors_new "crypter.ErrOpen".
Definition CorruptInputError : error := errors_new "base64.CorruptInputError".

(** ** Operations *)

Record Crypter C := {
  aead : C;
  nonceSize : nat;
}.
Arguments aead {_}. Arguments nonceSize {_}.

(** [aes.NewCipher] and [cipher.NewGCM] are [newCipher] and [newGCM]. *)
Definition New {B C} `{AEAD C} (newCipher : gostring → result error B)
    (newGCM : B → result error C) (secret : gostring) : result error (Crypter C) :=
  if decide (length secret = 16 ∨ length secret = 24 ∨ length secret = 32)%nat then
    match newCipher secret with
    | Ok block =>
        match newGCM block with
        | Ok c => Ok {| aead := c; nonceSize := NonceSize c |}
        | Err e => Err (Errorf 0 "%w: %w" [ErrNewGCM; e])
        | Panic s => Panic s
        end
    | Err e => Err (Errorf 0 "%w: %w" [ErrNewCipher; e])
    | Panic s => Panic s
    end
  else Err ErrInvalidKeyLength.

Definition IsEncrypted (s : gostring) : bool :=
  bool_decide ((startLen < length s)%nat ∧ take startLen s = StartTag).

(** What [Encrypt] does outside: the bytes it drew, the seal it made. *)
Inductive event :=
  | ERead (bytes : gostring)
  | ESeal (nonce data : gostring).

Section encrypt.
Context {C R : Type} `{AEAD C}.
Variable rng : Rand R.
(** Which buffer [sync.Pool.Get] hands out, if it does not make a new one. *)
Variable pick : R → list gostring → option nat.

(** The pool of nonce buffers. *)
Definition pool_Get (n : nat) : Comp event (R * list gostring) gostring := λ '(r, pool),
  match i ← pick r pool; buf ← pool !! i; Some (i, buf) with
  | Some (i, buf) => (buf, [], (r, delete i pool))
  | None => (replicate n zero, [], (r, pool))
  end.
Definition pool_Put (buf : gostring) : Comp event (R * list gostring) () :=
  modify (λ '(r, pool), (r, buf :: pool)).

(** Reads into the buffer, over what it held. *)
Definition read_into (buf : gostring) : Comp event (R * list gostring) (gostring * option error) :=
  λ '(r, pool),
  let '(bytes, err, r) := ReadFull rng (length buf) r in
  ((bytes ++ drop (length bytes) buf, err), [ERead bytes], (r, pool)).

Definition Encrypt (c : Crypter C) (data : gostring)
    : Comp event (R * list gostring) (result error gostring) :=
  if IsEncrypted data then mret (Ok data) else
  noncep ← pool_Get (nonceSize c);
  '(noncep, err) ← read_into noncep;
  match err with
  | Some e => pool_Put noncep;; mret (Err (Errorf 0 "%w: %w" [ErrReadNonce; e]))
  | None =>
      (* copy(nonce, noncep) into nonceSize fresh bytes *)
      let nonce := take (nonceSize c) noncep
                   ++ replicate (nonceSize c - length noncep) zero in
      pool_Put noncep;;
      tell (ESeal nonce data);;
      let raw := nonce ++ Seal (aead c) nonce data in
      mret (Ok (StartTag ++ EncodeToString raw ++ EndTag))
  end.

Definition Decrypt (c : Crypter C) (data : gostring) : result error gostring :=
  if negb (IsEncrypted data) then Ok data else
  if decide (last data ≠ head EndTag) then Err ErrInvalidCipherText else
  let payload := take (length data - 1 - startLen) (drop startLen data) in
  if decide (payload = []) then Err ErrEmptyPayload else
  match DecodeString payload with
  | None => Err (Errorf 0 "%w: %w" [ErrBase64Decode; CorruptInputError])
  | Some raw =>
      if decide (length raw < nonceSize c)%nat then Err ErrInvalidCipherText else
      let nonce := take (nonceSize c) raw in
      let ct := drop (nonceSize c) raw in
      if decide (length ct < Overhead (aead c))%nat then Err ErrInvalidCipherText else
      match Open (aead c) nonce ct with
      | Ok pt => Ok pt
      | Err e => Err (Errorf 0 "%w: %w" [ErrOpen; e])
      | Panic s => Panic s
      end
  end.
End encrypt.

(** ** Specification *)

(** The format: [data] is a tagged value carrying [raw]. *)
Definition tagged (data raw : gostring) : Prop :=
  ∃ payload, data = StartTag ++ payload ++ EndTag ∧ payload ≠ [] ∧ DecodeString payload = Some raw.

(** A crypter made by [New], and a pool only [Encrypt] touched. *)
Definition well_formed {C} `{AEAD C} (c : Crypter C) : Prop := nonceSize c = NonceSize (aead c).
Definition pool_ok {C R} (c : Crypter C) (w : R * list gostring) : Prop :=
  Forall (λ buf, length buf = nonceSize c) w.2.

Section facts.
Context {C R : Type} `{AEADLaws C}.
Variable rng : Rand R.
Hypothesis Hrng : rand_ok rng.
Variable pick : R → list gostring → option nat.
Variable c : Crypter C.
Hypothesis Hc : well_formed c.

Lemma IsEncrypted_app s : IsEncrypted (StartTag ++ s) = bool_decide (s ≠ []).
Proof using Type.
  unfold IsEncrypted, startLen. rewrite take_app_length, length_app. apply bool_decide_ext.
  destruct s; simpl; split; try done; [lia|]. intros _. split; [lia|done].
Qed.

Lemma IsEncrypted_inv s : IsEncrypted s = true → ∃ t, s = StartTag ++ t ∧ t ≠ [].
Proof using Type.
  unfold IsEncrypted. rewrite bool_decide_eq_true. intros [Hl Ht].
  exists (drop startLen s). split; [by rewrite <-Ht, take_drop|].
  intros Hn%(f_equal length). rewrite length_drop in Hn. simpl in Hn. lia.
Qed.

Lemma last_end s : last (s ++ EndTag) = head EndTag.
Proof using Type. by rewrite last_app. Qed.

Lemma payload_of p :
  take (length (StartTag ++ p ++ EndTag) - 1 - startLen) (drop startLen (StartTag ++ p ++ EndTag)) = p.
Proof using Type.
  unfold startLen. rewrite drop_app_length, !length_app.
  replace (length StartTag + (length p + length EndTag) - 1 - length StartTag)%nat with (length p)
    by (simpl; lia).
  apply take_app_length.
Qed.

(** The end tag splits off, when it is there. *)
Lemma end_tag_split t : last (StartTag ++ t) = head EndTag → t ≠ [] → ∃ p, t = p ++ EndTag.
Proof using Type.
  intros Hl Ht. rewrite last_app in Hl.
  destruct (last t) as [x|] eqn:Hx; [|by apply last_None in Hx].
  injection Hl as ->. apply last_Some in Hx as [p ->]. by exists p.
Qed.
(** [Decrypt] past the tags. *)
Lemma Decrypt_tagged p :
  Decrypt c (StartTag ++ p ++ EndTag) =
  if decide (p = []) then Err ErrEmptyPayload else
  match DecodeString p with
  | None => Err (Errorf 0 "%w: %w" [ErrBase64Decode; CorruptInputError])
  | Some raw =>
      if decide (length raw < nonceSize c)%nat then Err ErrInvalidCipherText else
      if decide (length (drop (nonceSize c) raw) < Overhead (aead c))%nat
      then Err ErrInvalidCipherText else
      match Open (aead c) (take (nonceSize c) raw) (drop (nonceSize c) raw) with
      | Ok pt => Ok pt
      | Err e => Err (Errorf 0 "%w: %w" [ErrOpen; e])
      | Panic s => Panic s
      end
  end.
Proof using Type.
  unfold Decrypt. rewrite IsEncrypted_app, bool_decide_eq_true_2 by (by destruct p). simpl negb.
  cbn match. rewrite app_assoc, last_end, decide_False by tauto.
  rewrite <-app_assoc, payload_of. done.
Qed.

Lemma tagged_Encrypted data raw : tagged data raw → IsEncrypted data = true.
Proof using Type.
  intros (p & -> & Hp & _). rewrite IsEncrypted_app. apply bool_decide_eq_true. by destruct p.
Qed.

Lemma Encrypt_passthrough data w :
  IsEncrypted data = true → Encrypt rng pick c data w = (Ok data, [], w).
Proof using Type. unfold Encrypt. by intros ->. Qed.

(** [Get] hands out a buffer of the right size. *)
Lemma pool_Get_ok w :
  pool_ok c w →
  ∃ buf pool', pool_Get pick (nonceSize c) w = (buf, [], (w.1, pool'))
    ∧ length buf = nonceSize c ∧ pool_ok c (w.1, pool').
Proof using Type.
  destruct w as [r pool]. intros Hpool. unfold pool_Get.
  destruct (pick r pool) as [i|]; simpl.
  - destruct (pool !! i) as [buf|] eqn:Hi; simpl; eexists _, _; (split; [reflexivity|]).
    + split; [by apply (Forall_lookup_1 _ _ _ _ Hpool Hi)|].
      unfold pool_ok in *. simpl in *. by apply Forall_delete.
    + by rewrite length_replicate.
  - eexists _, _. split; [reflexivity|]. by rewrite length_replicate.
Qed.

(** How the nonce buffers are used: whatever the pool and the buffer held,
    the nonce is what was just read. *)
Lemma Encrypt_spec w data :
  pool_ok c w →
  let '(out, t, w') := Encrypt rng pick c data w in
  pool_ok c w' ∧
  if IsEncrypted data then out = Ok data ∧ t = [] ∧ w' = w
  else
    (∃ bytes e, t = [ERead bytes] ∧ out = Err (Errorf 0 "%w: %w" [ErrReadNonce; e]))
    ∨ ∃ nonce, length nonce = NonceSize (aead c) ∧ t = [ERead nonce; ESeal nonce data]
        ∧ out = Ok (StartTag ++ EncodeToString (nonce ++ Seal (aead c) nonce data) ++ EndTag).
Proof using Hrng Hc.
  destruct w as [r pool]. intros Hpool. unfold Encrypt.
  destruct (IsEncrypted data); [by repeat split|].
  destruct (pool_Get_ok (r, pool) Hpool) as (buf & pool' & Hget & Hbuf & Hpool').
  rewrite (comp_bind_unfold _ _ _ _ _ _ Hget). unfold read_into, mbind, comp_bind. cbn.
  pose proof (Hrng (length buf) r) as Hread.
  destruct (ReadFull rng (length buf) r) as [[bytes [e|]] r']; cbn.
  - split; [|left; eauto]. apply Forall_cons. split; [|done].
    rewrite length_app, length_drop. lia.
  - assert (length bytes = nonceSize c) as Hlen by lia.
    rewrite drop_ge, app_nil_r, take_ge by lia.
    rewrite Hlen, Nat.sub_diag. simpl. rewrite app_nil_r. split.
    + by apply Forall_cons.
    + right. exists bytes. split; [by rewrite Hlen|done].
Qed.

(** A tagged sealing opens to what was sealed. *)
Lemma Decrypt_sealed data nonce pt :
  length nonce = NonceSize (aead c) → tagged data (nonce ++ Seal (aead c) nonce pt) →
  Decrypt c data = Ok pt.
Proof using Hc H0.
  intros Hn (p & -> & Hp & Hraw). rewrite Decrypt_tagged, decide_False, Hraw by done.
  rewrite Hc, <-Hn, take_app_length, drop_app_length, length_app, length_seal.
  rewrite !decide_False by lia. by rewrite open_seal.
Qed.

Lemma sealing_tagged nonce data :
  tagged (StartTag ++ EncodeToString (nonce ++ Seal (aead c) nonce data) ++ EndTag)
         (nonce ++ Seal (aead c) nonce data).
Proof using H0.
  eexists. split; [done|]. split; [|apply DecodeString_EncodeToString].
  intros Hnil%encode_nil%app_nil. destruct Hnil as [_ Hs%(f_equal length)].
  rewrite length_seal in Hs. pose proof (overhead_pos (aead c)). simpl in Hs. lia.
Qed.

(** What [Encrypt] returns for an untagged value. *)
Lemma Encrypt_Ok w data enc t w' :
  pool_ok c w → IsEncrypted data = false → Encrypt rng pick c data w = (Ok enc, t, w') →
  pool_ok c w' ∧ Decrypt c enc = Ok data ∧ IsEncrypted enc = true
  ∧ ∃ raw, enc = StartTag ++ EncodeToString raw ++ EndTag.
Proof using Hrng Hc H0.
  intros Hpool Hdata Henc. pose proof (Encrypt_spec w data Hpool) as Hspec.
  rewrite Henc, Hdata in Hspec.
  destruct Hspec as (Hp & [(bytes & e & _ & ?)|(nonce & Hn & _ & [= ->])]); [done|].
  pose proof (sealing_tagged nonce data) as Htag.
  split_and?; [done|by eapply Decrypt_sealed|by eapply tagged_Encrypted|eauto].
Qed.

Lemma Encrypt_no_panic w data :
  pool_ok c w → is_Panic (val (Encrypt rng pick c data w)) = false.
Proof using Hrng Hc H0.
  intros Hpool. pose proof (Encrypt_spec w data Hpool) as Hspec.
  destruct (Encrypt rng pick c data w) as [[out t] w']. destruct Hspec as [_ Hs]. cbn.
  destruct (IsEncrypted data); [by destruct Hs as (-> & _)|].
  by destruct Hs as [(? & ? & _ & ->)|(? & _ & _ & ->)].
Qed.

Lemma Decrypt_no_panic data : is_Panic (Decrypt c data) = false.
Proof using Hc H0.
  destruct (IsEncrypted data) eqn:Henc; [|unfold Decrypt; by rewrite Henc].
  destruct (IsEncrypted_inv data Henc) as (t & -> & Ht).
  destruct (decide (last (StartTag ++ t) = head EndTag)) as [Hend|Hend].
  2:{ unfold Decrypt. rewrite Henc. cbn match. by rewrite decide_True. }
  destruct (end_tag_split t Hend Ht) as [p ->]. rewrite Decrypt_tagged.
  case_decide; [done|]. destruct (DecodeString p) as [raw|]; [|done].
  do 2 (case_decide; [done|]).
  assert (length (take (nonceSize c) raw) = NonceSize (aead c)) as Hn.
  { rewrite length_take. unfold well_formed in Hc. lia. }
  pose proof (open_total (aead c) _ (drop (nonceSize c) raw) Hn). by destruct (Open _ _ _).
Qed.

End facts.

(** ** Properties *)
Section properties.
Context {C R : Type} `{AEADLaws C}.
Variable rng : Rand R.
Variable pick : R → list gostring → option nat.
Variable c : Crypter C.

(** what a successful [Decrypt] means.  It returns untagged values as they
    are, and of a tagged value exactly the text that was sealed: the payload
    decodes to a nonce followed by the sealing of the result under it. *)
Theorem Decrypt_success data pt :
  well_formed c →
  Decrypt c data = Ok pt ↔
  (IsEncrypted data = false ∧ pt = data)
  ∨ ∃ nonce, length nonce = NonceSize (aead c)
             ∧ tagged data (nonce ++ Seal (aead c) nonce pt).
Proof.
  intros Hwf. unfold well_formed in Hwf. split.
  - intros Hd. destruct (IsEncrypted data) eqn:Henc.
    2:{ left. unfold Decrypt in Hd. rewrite Henc in Hd. simpl in Hd. by injection Hd. }
    right. destruct (IsEncrypted_inv data Henc) as (t & -> & Ht).
    assert (last (StartTag ++ t) = head EndTag) as Hend.
    { revert Hd. unfold Decrypt. rewrite Henc. simpl. case_decide; [done|]. by destruct (decide _). }
    destruct (end_tag_split t Hend Ht) as [p ->]. rewrite Decrypt_tagged in Hd.
    case_decide; [done|]. destruct (DecodeString p) as [raw|] eqn:Hraw; [|done].
    do 2 (case_decide; [done|]).
    destruct (Open _ _ _) as [pt'| |] eqn:Hopen; simplify_eq.
    assert (length (take (nonceSize c) raw) = NonceSize (aead c)) as Hlen.
    { rewrite length_take. lia. }
    apply open_sound in Hopen; [|done]. exists (take (nonceSize c) raw).
    split; [done|]. rewrite <-Hopen, take_drop. exists p. auto.
  - intros [[Henc ->]|(nonce & Hn & Htag)]; [unfold Decrypt; by rewrite Henc|].
    by eapply Decrypt_sealed.
Qed.

(** C7: round trip.  What [Encrypt] returns for a value that is not already
    tagged is a tagged value [Decrypt] turns back into it, and encrypting that
    value again changes nothing and draws no randomness. *)
Theorem Encrypt_roundtrip w data enc t w' :
  rand_ok rng → well_formed c → pool_ok c w → IsEncrypted data = false →
  Encrypt rng pick c data w = (Ok enc, t, w') →
  Decrypt c enc = Ok data
  ∧ IsEncrypted enc = true
  ∧ Encrypt rng pick c enc w' = (Ok enc, [], w').
Proof.
  intros Hrng Hwf Hpool Hdata Henc.
  destruct (Encrypt_Ok rng Hrng pick c Hwf w data enc t w' Hpool Hdata Henc) as (_ & ? & ? & _).
  split_and?; [done..|]. by apply Encrypt_passthrough.
Qed.

(** every failure of [Decrypt] names its cause.  It never panics; a tagged
    value is malformed when its end tag is missing or its payload cannot hold a
    nonce and an authentication tag, empty when there is nothing between the
    tags, undecodable, or rejected by the cipher, whose error is kept. *)
Theorem Decrypt_failure data :
  well_formed c →
  match Decrypt c data with
  | Ok _ => True
  | Panic _ => False
  | Err e =>
      IsEncrypted data = true ∧
      ((e = ErrInvalidCipherText ∧
          (last data ≠ head EndTag
           ∨ ∃ raw, tagged data raw ∧ (length raw < NonceSize (aead c) + Overhead (aead c))%nat))
       ∨ (e = ErrEmptyPayload ∧ data = StartTag ++ EndTag)
       ∨ (errors_is e ErrBase64Decode = true ∧
            ∃ p, data = StartTag ++ p ++ EndTag ∧ p ≠ [] ∧ DecodeString p = None)
       ∨ (errors_is e ErrOpen = true ∧
            ∃ nonce ct e', length nonce = NonceSize (aead c) ∧ tagged data (nonce ++ ct)
              ∧ Open (aead c) nonce ct = Err e' ∧ wrapped e = [ErrOpen; e']))
  end.
Proof.
  intros Hwf. unfold well_formed in Hwf.
  destruct (IsEncrypted data) eqn:Henc; [|unfold Decrypt; by rewrite Henc].
  destruct (IsEncrypted_inv data Henc) as (t & -> & Ht).
  destruct (decide (last (StartTag ++ t) = head EndTag)) as [Hend|Hend].
  2:{ unfold Decrypt. rewrite Henc. cbn match. rewrite decide_True by done.
      split; [done|]. left. split; [done|]. by left. }
  destruct (end_tag_split t Hend Ht) as [p ->]. rewrite Decrypt_tagged.
  case_decide as Hp; [subst; split; [done|]; right; by left|].
  destruct (DecodeString p) as [raw|] eqn:Hraw.
  2:{ split; [done|]. right; right; left. split; [done|]. by exists p. }
  assert (tagged (StartTag ++ p ++ EndTag) raw) as Htag by by exists p.
  case_decide; [split; [done|]; left; split; [done|]; right; exists raw; split; [done|lia]|].
  case_decide as Hct.
  { split; [done|]. left. split; [done|]. right. exists raw. split; [done|].
    rewrite length_drop in Hct. lia. }
  assert (length (take (nonceSize c) raw) = NonceSize (aead c)) as Hn by (rewrite length_take; lia).
  pose proof (open_total (aead c) _ (drop (nonceSize c) raw) Hn) as Htot.
  destruct (Open _ _ _) as [pt|e'|] eqn:Hopen; [done| |done].
  split; [done|]. do 3 right. split; [done|].
  exists (take (nonceSize c) raw), (drop (nonceSize c) raw), e'. by rewrite take_drop.
Qed.

(** nonces.  [Encrypt] of an untagged value either fails because the random
    source did, or seals exactly once, under the bytes it has just drawn,
    whatever the pooled buffer held from earlier calls; and it hands back to
    the pool only buffers of the right size. *)
Theorem Encrypt_nonce w data :
  rand_ok rng → well_formed c → pool_ok c w → IsEncrypted data = false →
  let '(out, t, w') := Encrypt rng pick c data w in
  pool_ok c w' ∧
  ((∃ bytes e, t = [ERead bytes] ∧ out = Err (Errorf 0 "%w: %w" [ErrReadNonce; e]))
   ∨ ∃ nonce, length nonce = NonceSize (aead c) ∧ t = [ERead nonce; ESeal nonce data]
       ∧ out = Ok (StartTag ++ EncodeToString (nonce ++ Seal (aead c) nonce data) ++ EndTag)).
Proof.
  intros Hrng Hwf Hpool Hdata.
  pose proof (Encrypt_spec rng Hrng pick c Hwf w data Hpool) as Hspec. by rewrite Hdata in Hspec.
Qed.
End properties.

(** [New] accepts exactly the three AES key lengths, measured in bytes, and
    a crypter it returns is well formed. *)
Theorem New_spec {B C} `{AEAD C} (newCipher : gostring → result error B)
    (newGCM : B → result error C) secret :
  match New newCipher newGCM secret with
  | Ok c => (length secret ∈ [16; 24; 32])%nat ∧ well_formed c
            ∧ ∃ block, newCipher secret = Ok block ∧ newGCM block = Ok (aead c)
  | Err e => (length secret ∉ [16; 24; 32])%nat ∧ e = ErrInvalidKeyLength
             ∨ (length secret ∈ [16; 24; 32])%nat
               ∧ (errors_is e ErrNewCipher = true ∨ errors_is e ErrNewGCM = true)
  | Panic s => newCipher secret = Panic s ∨ ∃ block, newGCM block = Panic s
  end.
Proof.
  assert (length secret ∈ [16; 24; 32] ↔ length secret = 16 ∨ length secret = 24 ∨ length secret = 32)%nat
    as Hin by (rewrite !elem_of_cons, elem_of_nil; tauto).
  unfold New. case_decide; [|left; split; [tauto|done]].
  destruct (newCipher secret) as [block|e|s]; [|right; split; [tauto|by left]|by left].
  destruct (newGCM block) as [c|e|s] eqn:Hg; [|right; split; [tauto|by right]|eauto].
  split; [tauto|]. split; [done|eauto].
Qed.

(** ** Witnesses *)

(** A toy AEAD: the ciphertext is the plaintext followed by one byte that
    repeats the key byte. *)
Definition toy_Open (k : ascii) (nonce ct : gostring) : result error gostring :=
  match last ct with
  | Some x => if decide (x = k) then Ok (take (length ct - 1) ct) else Err (errors_new "mac")
  | None => Err (errors_new "mac")
  end.
#[export] Instance toy_AEAD : AEAD ascii :=
  {| NonceSize := λ _, 2%nat; Overhead := λ _, 1%nat;
     Seal := λ k nonce pt, pt ++ [k]; Open := toy_Open |}.

#[export] Instance toy_laws : AEADLaws ascii.
Proof.
  split; simpl.
  - intros k nonce pt _. unfold toy_Open. rewrite last_snoc, decide_True by done.
    rewrite length_app, Nat.add_sub. by rewrite take_app_length.
  - intros k nonce ct pt _. unfold toy_Open. destruct (last ct) as [x|] eqn:Hx; [|done].
    case_decide; [|done]. intros [= <-]. subst x. apply last_Some in Hx as [l ->].
    rewrite length_app, Nat.add_sub. by rewrite take_app_length.
  - intros k nonce ct _. unfold toy_Open. destruct (last ct); [|done]. by case_decide.
  - intros k nonce pt. by rewrite length_app.
  - intros _. lia.
Defined.

Definition toy_rng : Rand nat :=
  {| ReadFull := λ n r, (replicate n (chr (Z.of_nat r)), None, S r) |}.
Lemma toy_rng_ok : rand_ok toy_rng.
Proof. intros n r. simpl. apply length_replicate. Qed.
Definition toy_crypter : Crypter ascii := {| aead := chr 75; nonceSize := 2 |}.
Definition toy_pick : nat → list gostring → option nat := λ _ pool, Some 0%nat.

Lemma Decrypt_success_witness :
  Decrypt toy_crypter (str "ENCv1[BwdoaUs]") = Ok (str "hi") ↔
  (IsEncrypted (str "ENCv1[BwdoaUs]") = false ∧ str "hi" = str "ENCv1[BwdoaUs]")
  ∨ ∃ nonce, length nonce = 2%nat ∧ tagged (str "ENCv1[BwdoaUs]") (nonce ++ str "hiK").
Proof.
  exact (Decrypt_success toy_crypter (str "ENCv1[BwdoaUs]") (str "hi") eq_refl).
Defined.

Lemma Encrypt_roundtrip_witness :
  Decrypt toy_crypter (str "ENCv1[BwdoaUs]") = Ok (str "hi")
  ∧ IsEncrypted (str "ENCv1[BwdoaUs]") = true
  ∧ Encrypt toy_rng toy_pick toy_crypter (str "ENCv1[BwdoaUs]") (8%nat, [[chr 7; chr 7]])
    = (Ok (str "ENCv1[BwdoaUs]"), [], (8%nat, [[chr 7; chr 7]])).
Proof.
  apply (Encrypt_roundtrip toy_rng toy_pick toy_crypter (7%nat, [str "zz"]) (str "hi")
    (str "ENCv1[BwdoaUs]") [ERead [chr 7; chr 7]; ESeal [chr 7; chr 7] (str "hi")]);
    [apply toy_rng_ok|reflexivity|repeat constructor|reflexivity|vm_compute; reflexivity].
Defined.

Lemma Decrypt_failure_witness :
  match Decrypt toy_crypter (str "ENCv1[BwdoaUs=]") with
  | Err e => errors_is e ErrBase64Decode = true | _ => False end
  ∧ is_Panic (Decrypt toy_crypter (str "ENCv1[BwdoaUs=]")) = false.
Proof.
  pose proof (Decrypt_failure toy_crypter (str "ENCv1[BwdoaUs=]") eq_refl) as Hf.
  split; [reflexivity|]. destruct (Decrypt _ _); [reflexivity|reflexivity|destruct Hf].
Defined.

Lemma Encrypt_nonce_witness :
  let '(out, t, w') := Encrypt toy_rng toy_pick toy_crypter (str "hi") (7%nat, [str "zz"]) in
  pool_ok toy_crypter w' ∧
  ((∃ bytes e, t = [ERead bytes] ∧ out = Err (Errorf 0 "%w: %w" [ErrReadNonce; e]))
   ∨ ∃ nonce, length nonce = NonceSize (aead toy_crypter) ∧ t = [ERead nonce; ESeal nonce (str "hi")]
       ∧ out = Ok (StartTag ++ EncodeToString (nonce ++ Seal (aead toy_crypter) nonce (str "hi")) ++ EndTag)).
Proof.
  assert (pool_ok toy_crypter (7%nat, [str "zz"])) as Hpool by (repeat constructor).
  exact (Encrypt_nonce toy_rng toy_pick toy_crypter (7%nat, [str "zz"]) (str "hi")
    toy_rng_ok eq_refl Hpool eq_refl).
Defined.
