(* ===== verification/NoncePool.v ===== *)
(** * crypter: concurrent callers of Encrypt (crypter/crypter.go)

    A [Crypter] is used by any number of goroutines at once, and what they
    share is the pool of nonce buffers: [Get] hands out a pointer, [ReadFull]
    and [copy] go through it byte by byte, and [Put] gives it back.  Here the
    calls interleave at every one of these accesses over one heap of buffers;
    the outcome of each call is that of [Encrypt] of Crypter.v run alone. *)
From Stdlib Require Import Ascii String.
From S2P Require Export Prelude GoStrings Errors Base64 Crypter.
Local Open Scope Z_scope.

Definition io_EOF : error := errors_new "io.EOF".
Definition io_ErrUnexpectedEOF : error := errors_new "io.ErrUnexpectedEOF".

(** What [io.ReadFull] returns when a [Read] failed with [e] after [n] bytes. *)
Definition readfull_err (n : nat) (e : error) : error :=
  if bool_decide (0 < n)%nat && go_eq e io_EOF then io_ErrUnexpectedEOF else e.

(** ** Shared state *)

(** [heap] holds every nonce buffer ever made, [free] the pointers that are in
    [noncePool]. *)
Record shared := { heap : list gostring; free : list nat }.

Definition write (p : nat) (buf : gostring) (m : shared) : shared :=
  {| heap := <[p := buf]> (heap m); free := free m |}.
Definition noncePool_Put (p : nat) (m : shared) : shared :=
  {| heap := heap m; free := p :: free m |}.

(** ** Goroutines *)

(** Where a goroutine is in [Encrypt data]; [p] is [noncep], [nonce] the owned
    slice as far as it has been copied.  [drawn] is what the source has given to
    this call: the code does not look at it, the theorems do. *)
Inductive pc : Type :=
  | Idle
  | Getting (data : gostring)
  | Filling (data : gostring) (p : nat) (drawn : gostring) (err : option error)
  | Copying (data : gostring) (p : nat) (drawn nonce : gostring)
  | Sealing (data drawn nonce : gostring)
  | Returned (data drawn : gostring) (err : option error) (out : result error gostring).

Inductive action : Type :=
  | Call (data : gostring)
  | GetNew                          (* [Get] calls [New] *)
  | GetPooled (k : nat)             (* [Get] takes a pooled buffer *)
  | Read (bytes : gostring) (err : option error)  (* one [Read] of the source *)
  | Tau.                            (* the next step of the method *)

Section pool.
Context {C : Type} `{AEAD C}.
Variable c : Crypter C.

(** What the end of [Encrypt] makes of a nonce. *)
Definition sealed (nonce data : gostring) : gostring :=
  StartTag ++ EncodeToString (nonce ++ Seal (aead c) nonce data) ++ EndTag.

(** One step of one goroutine; [None] when the action does not apply.  A [Read]
    returns at most what fits into the rest of the buffer; [ReadFull] reads on
    while there is room and no error. *)
Definition exec (a : action) (x : pc) (m : shared) : option (pc * shared) :=
  match a, x with
  | Call data, (Idle | Returned _ _ _ _) =>
      Some (if IsEncrypted data then Returned data [] None (Ok data) else Getting data, m)
  | GetNew, Getting data =>
      Some (Filling data (length (heap m)) [] None,
            {| heap := heap m ++ [replicate (nonceSize c) zero]; free := free m |})
  | GetPooled k, Getting data =>
      p ← free m !! k;
      Some (Filling data p [] None, {| heap := heap m; free := delete k (free m) |})
  | Read bytes err, Filling data p drawn None =>
      buf ← heap m !! p;
      if decide (length drawn < length buf ∧ length drawn + length bytes ≤ length buf)%nat then
        Some (Filling data p (drawn ++ bytes) err,
              write p (take (length drawn) buf ++ bytes
                       ++ drop (length drawn + length bytes) buf) m)
      else None
  | Tau, Filling data p drawn err =>
      buf ← heap m !! p;
      if decide (length buf ≤ length drawn)%nat then Some (Copying data p drawn [], m) else
      e ← err;
      let e := readfull_err (length drawn) e in
      Some (Returned data drawn (Some e) (Err (Errorf 0 "%w: %w" [ErrReadNonce; e])),
            noncePool_Put p m)
  | Tau, Copying data p drawn nonce =>
      buf ← heap m !! p;
      match (if decide (length nonce < nonceSize c)%nat then buf !! length nonce else None) with
      | Some b => Some (Copying data p drawn (nonce ++ [b]), m)
      | None => Some (Sealing data drawn (nonce ++ replicate (nonceSize c - length nonce) zero),
                      noncePool_Put p m)
      end
  | Tau, Sealing data drawn nonce =>
      Some (Returned data drawn None (Ok (sealed nonce data)), m)
  | _, _ => None
  end.

Record state := { mem : shared; procs : list pc }.
Definition init (n : nat) : state :=
  {| mem := {| heap := []; free := [] |}; procs := replicate n Idle |}.

(** A goroutine moves, or the garbage collector drops a pooled buffer. *)
Inductive move : Type :=
  | Goroutine (i : nat) (a : action)
  | Collect (k : nat).

Definition exec_move (mv : move) (s : state) : option state :=
  match mv with
  | Goroutine i a =>
      x ← procs s !! i;
      '(x, m) ← exec a x (mem s);
      Some {| mem := m; procs := <[i := x]> (procs s) |}
  | Collect k =>
      Some {| mem := {| heap := heap (mem s); free := delete k (free (mem s)) |};
              procs := procs s |}
  end.

Fixpoint run (sched : list move) (s : state) : option state :=
  match sched with
  | [] => Some s
  | mv :: sched => exec_move mv s ≫= run sched
  end.

Definition step (s s' : state) : Prop := ∃ mv, exec_move mv s = Some s'.
Definition reachable (n : nat) (s : state) : Prop := rtc step (init n) s.

(** ** The invariant *)

(** The buffer a goroutine reads from or writes to. *)
Definition buffer_of (x : pc) : option nat :=
  match x with Filling _ p _ _ | Copying _ p _ _ => Some p | _ => None end.
Definition holds (p : nat) (x : pc) : bool := bool_decide (buffer_of x = Some p).
Definition is_ptr (p q : nat) : bool := bool_decide (q = p).

Definition drawn_ok (drawn : gostring) (err : option error) : Prop :=
  match err with
  | None => length drawn = nonceSize c
  | Some _ => (length drawn ≤ nonceSize c)%nat
  end.

(** What a call that drew these bytes returns. *)
Definition outcome (data drawn : gostring) (err : option error) : result error gostring :=
  match err with
  | Some e => Err (Errorf 0 "%w: %w" [ErrReadNonce; e])
  | None => Ok (sealed drawn data)
  end.

Definition pc_ok (h : list gostring) (x : pc) : Prop :=
  match x with
  | Idle => True
  | Getting data => IsEncrypted data = false
  | Filling data p drawn err =>
      IsEncrypted data = false ∧ ∃ rest, h !! p = Some (drawn ++ rest)
  | Copying data p drawn nonce =>
      IsEncrypted data = false ∧ h !! p = Some drawn ∧ nonce `prefix_of` drawn
  | Sealing data drawn nonce =>
      IsEncrypted data = false ∧ nonce = drawn ∧ length drawn = nonceSize c
  | Returned data drawn err out =>
      if IsEncrypted data then out = Ok data ∧ drawn = []
      else drawn_ok drawn err ∧ out = outcome data drawn err
  end.

Record inv (m : shared) (ps : list pc) : Prop := {
  (** a buffer is held by one goroutine, or pooled once, or neither *)
  inv_own p :
    cnt (holds p) ps + cnt (is_ptr p) (free m) ≤ Z.b2z (bool_decide (p < length (heap m))%nat);
  inv_size p buf : heap m !! p = Some buf → length buf = nonceSize c;
  inv_pc i x : ps !! i = Some x → pc_ok (heap m) x;
}.

Lemma cnt_delete {A} (f : A → bool) (l : list A) k x :
  l !! k = Some x → cnt f (delete k l) = cnt f l - Z.b2z (f x).
Proof using Type.
  revert k. induction l as [|y l IH]; intros [|k] Hk; simplify_eq/=; [lia|].
  rewrite (IH k Hk). lia.
Qed.

Lemma cnt_delete_le {A} (f : A → bool) (l : list A) k : cnt f (delete k l) ≤ cnt f l.
Proof using Type.
  revert k. induction l as [|y l IH]; intros [|k]; simpl; [lia..| |].
  - destruct (f y); simpl; lia.
  - specialize (IH k). lia.
Qed.

Lemma holds_Some p x : holds p x = true ↔ buffer_of x = Some p.
Proof using Type. apply bool_decide_eq_true. Qed.

Lemma nonces_init n : inv {| heap := []; free := [] |} (replicate n Idle).
Proof using Type.
  assert (∀ i x, replicate n Idle !! i = Some x → x = Idle) as Hidle.
  { intros i x [-> _]%lookup_replicate. done. }
  split; simpl; [|done|by intros i x ->%Hidle].
  intros p. rewrite cnt_zero; [done|]. by intros i x ->%Hidle.
Qed.

(** A goroutine that holds a buffer is the only one to do so. *)
Lemma nonces_excl m ps i j x y p :
  inv m ps → ps !! i = Some x → ps !! j = Some y →
  buffer_of x = Some p → buffer_of y = Some p → i = j.
Proof using Type.
  intros Hinv Hi Hj Hx Hy. destruct (decide (i = j)) as [|Hij]; [done|].
  pose proof (cnt_ge_2 (holds p) ps i j x y Hi Hj) as H2.
  rewrite !holds_Some in H2. specialize (H2 Hx Hy Hij).
  pose proof (inv_own _ _ Hinv p) as Ho. pose proof (cnt_nonneg (is_ptr p) (free m)).
  destruct (bool_decide _); simpl in Ho; lia.
Qed.

Lemma pc_ok_frame h h' x :
  (∀ p, buffer_of x = Some p → h' !! p = h !! p) → pc_ok h x → pc_ok h' x.
Proof using Type.
  intros Hh. destruct x; simpl in *; try done; by rewrite Hh.
Qed.

Lemma pc_ok_heap h x p : pc_ok h x → buffer_of x = Some p → is_Some (h !! p).
Proof using Type.
  destruct x; simpl; try done; intros Hx [= <-]; destruct Hx as (_ & Hx); [destruct Hx as [? ->]|destruct Hx as [-> _]]; eauto.
Qed.

(** What a step must do to keep the invariant: move ownership with the pool,
    and touch no buffer but its own. *)
Lemma nonces_move m m' ps i x x' :
  inv m ps → ps !! i = Some x →
  (∀ p, Z.b2z (holds p x') - Z.b2z (holds p x)
        + cnt (is_ptr p) (free m') - cnt (is_ptr p) (free m)
        ≤ Z.b2z (bool_decide (p < length (heap m'))%nat)
          - Z.b2z (bool_decide (p < length (heap m))%nat)) →
  (∀ p buf, heap m' !! p = Some buf → length buf = nonceSize c) →
  (∀ p, is_Some (heap m !! p) → buffer_of x ≠ Some p → heap m' !! p = heap m !! p) →
  pc_ok (heap m') x' →
  inv m' (<[i := x']> ps).
Proof using Type.
  intros Hinv Hi Hown Hsize Hframe Hx'. split; [|done|].
  - intros p. rewrite (cnt_insert _ _ _ _ _ Hi).
    specialize (Hown p). pose proof (inv_own _ _ Hinv p). lia.
  - intros j y Hj. apply list_lookup_insert_Some in Hj as [(<- & <- & _)|(Hij & Hj)]; [done|].
    pose proof (inv_pc _ _ Hinv _ _ Hj) as Hy.
    eapply pc_ok_frame; [|exact Hy]. intros p Hp.
    apply Hframe; [by eapply pc_ok_heap|]. intros Hxp. by eapply Hij, nonces_excl.
Qed.

(** Steps that touch neither the heap nor the pool nor their buffer. *)
Lemma nonces_local m ps i x x' :
  inv m ps → ps !! i = Some x → buffer_of x' = buffer_of x →
  pc_ok (heap m) x' → inv m (<[i := x']> ps).
Proof using Type.
  intros Hinv Hi Hb Hx'.
  eapply nonces_move; [exact Hinv|exact Hi| |apply (inv_size _ _ Hinv)|done|exact Hx'].
  intros p. unfold holds. rewrite Hb. lia.
Qed.

(** [Put] of the held buffer. *)
Lemma nonces_Put m ps i x x' p :
  inv m ps → ps !! i = Some x → buffer_of x = Some p → buffer_of x' = None →
  pc_ok (heap m) x' → inv (noncePool_Put p m) (<[i := x']> ps).
Proof using Type.
  intros Hinv Hi Hx Hx' Hok.
  eapply nonces_move; [exact Hinv|exact Hi| |apply (inv_size _ _ Hinv)|done|exact Hok]. intros q.
  simpl. unfold holds, is_ptr. rewrite Hx, Hx'. simpl.
  rewrite (bool_decide_ext (Some p = Some q) (p = q)) by naive_solver.
  destruct (bool_decide (p = q)); simpl; lia.
Qed.

Lemma nonces_GetNew m ps i data :
  inv m ps → ps !! i = Some (Getting data) →
  inv {| heap := heap m ++ [replicate (nonceSize c) zero]; free := free m |}
      (<[i := Filling data (length (heap m)) [] None]> ps).
Proof using Type.
  intros Hinv Hi. eapply nonces_move; [exact Hinv|exact Hi|..]; simpl.
  - intros p. rewrite length_app. unfold holds. simpl.
    repeat case_bool_decide; simplify_eq; simpl; lia.
  - intros p buf [Hp|[_ Hp]]%lookup_app_Some; [by eapply inv_size|].
    apply list_lookup_singleton_Some in Hp as [_ <-]. apply length_replicate.
  - intros p [buf Hp] _. by rewrite (lookup_app_l_Some _ _ _ _ Hp), Hp.
  - split; [apply (inv_pc _ _ Hinv _ _ Hi)|]. eexists. by rewrite list_lookup_middle.
Qed.

Lemma nonces_GetPooled m ps i data k p :
  inv m ps → ps !! i = Some (Getting data) → free m !! k = Some p →
  inv {| heap := heap m; free := delete k (free m) |} (<[i := Filling data p [] None]> ps).
Proof using Type.
  intros Hinv Hi Hk. eapply nonces_move; [exact Hinv|exact Hi| |apply (inv_size _ _ Hinv)|done|]; simpl.
  - intros q. rewrite (cnt_delete _ _ _ _ Hk). unfold holds, is_ptr. simpl.
    rewrite (bool_decide_ext (Some p = Some q) (p = q)) by naive_solver. simpl. lia.
  - split; [apply (inv_pc _ _ Hinv _ _ Hi)|].
    pose proof (inv_own _ _ Hinv p) as Ho. pose proof (cnt_nonneg (holds p) ps).
    pose proof (cnt_ge_1 (is_ptr p) _ _ _ Hk (bool_decide_eq_true_2 _ eq_refl)).
    destruct (lookup_lt_is_Some_2 (heap m) p) as [buf Hbuf]; [|by exists buf].
    case_bool_decide; [done|]. simpl in Ho. lia.
Qed.

(** A [Read] lands behind what was drawn before. *)
Lemma nonces_Read m ps i data p drawn bytes err buf :
  inv m ps → ps !! i = Some (Filling data p drawn None) → heap m !! p = Some buf →
  (length drawn + length bytes ≤ length buf)%nat →
  inv (write p (take (length drawn) buf ++ bytes ++ drop (length drawn + length bytes) buf) m)
      (<[i := Filling data p (drawn ++ bytes) err]> ps).
Proof using Type.
  intros Hinv Hi Hp Hl. pose proof (lookup_lt_Some _ _ _ Hp) as Hlt.
  destruct (inv_pc _ _ Hinv _ _ Hi) as (Hdata & rest & Hrest).
  rewrite Hp in Hrest. injection Hrest as Hbuf.
  eapply nonces_move; [exact Hinv|exact Hi|..]; simpl.
  - intros q. rewrite length_insert. unfold holds. simpl. lia.
  - intros q b. rewrite list_lookup_insert. case_decide; [|by eapply inv_size].
    intros [= <-]. rewrite <-(inv_size _ _ Hinv _ _ Hp), !length_app, length_take, length_drop. lia.
  - intros q _ Hq. apply list_lookup_insert_ne. naive_solver.
  - split; [done|]. rewrite list_lookup_insert_eq by done. eexists.
    rewrite Hbuf at 1. by rewrite take_app_length, app_assoc.
Qed.

(** A finished copy is the drawn bytes. *)
Lemma copy_done m ps i data p drawn nonce buf :
  inv m ps → ps !! i = Some (Copying data p drawn nonce) → heap m !! p = Some buf →
  (if decide (length nonce < nonceSize c)%nat then buf !! length nonce else None) = None →
  nonce = drawn ∧ length drawn = nonceSize c.
Proof using Type.
  intros Hinv Hi Hp Hb. destruct (inv_pc _ _ Hinv _ _ Hi) as (_ & Hd & Hpre).
  rewrite Hp in Hd. injection Hd as ->. pose proof (inv_size _ _ Hinv _ _ Hp) as Hl.
  pose proof (prefix_length _ _ Hpre). split; [|done].
  apply (prefix_length_eq _ _ Hpre). case_decide; [|lia].
  apply lookup_ge_None in Hb. lia.
Qed.

Lemma copy_next m ps i data p drawn nonce buf b :
  inv m ps → ps !! i = Some (Copying data p drawn nonce) → heap m !! p = Some buf →
  buf !! length nonce = Some b → nonce ++ [b] `prefix_of` drawn.
Proof using Type.
  intros Hinv Hi Hp Hb. destruct (inv_pc _ _ Hinv _ _ Hi) as (_ & Hd & rest & ->).
  rewrite Hp in Hd. injection Hd as ->. rewrite lookup_app_r, Nat.sub_diag in Hb by lia.
  destruct rest as [|b' rest]; [done|]. injection Hb as ->.
  exists rest. by rewrite <-app_assoc.
Qed.

Lemma nonces_exec a x x' m m' ps i :
  inv m ps → ps !! i = Some x → exec a x m = Some (x', m') → inv m' (<[i := x']> ps).
Proof using Type.
  intros Hinv Hi He. pose proof (inv_pc _ _ Hinv _ _ Hi) as Hx.
  assert (∀ data, buffer_of x = None → inv m (<[i := if IsEncrypted data then Returned data [] None (Ok data)
                                else Getting data]> ps)) as Hcall.
  { intros data Hb. eapply nonces_local; [exact Hinv|exact Hi|rewrite Hb; by destruct (IsEncrypted data)|].
    destruct (IsEncrypted data) eqn:Hd; simpl; by rewrite Hd. }
  destruct a, x; try discriminate; simpl in He.
  - injection He as <- <-. by apply Hcall.
  - injection He as <- <-. by apply Hcall.
  - injection He as <- <-. by apply nonces_GetNew.
  - apply bind_Some in He as (p & Hk & [= <- <-]). by apply nonces_GetPooled.
  - destruct err0; [discriminate|]. apply bind_Some in He as (buf & Hp & He).
    case_decide as Hl; [|discriminate]. injection He as <- <-. eapply nonces_Read; eauto. apply Hl.
  - apply bind_Some in He as (buf & Hp & He). destruct Hx as (Hd & rest & Hrest).
    rewrite Hp in Hrest. injection Hrest as ->. pose proof (inv_size _ _ Hinv _ _ Hp) as Hl.
    rewrite length_app in *. case_decide as Hfull.
    + injection He as <- <-. eapply nonces_local; [exact Hinv|exact Hi|done|].
      destruct rest; [|simpl in Hfull; lia]. rewrite app_nil_r in Hp.
      split_and!; [done|done|apply prefix_nil].
    + apply bind_Some in He as (e & -> & [= <- <-]). eapply nonces_Put; [done..|].
      simpl. rewrite Hd. split; [lia|done].
  - apply bind_Some in He as (buf & Hp & He). destruct Hx as (Hd & Hp' & Hpre).
    destruct (if decide _ then _ else _) as [b|] eqn:Hb; injection He as <- <-.
    + case_decide; [|done]. eapply nonces_local; [exact Hinv|exact Hi|done|].
      split_and!; [done|done|exact (copy_next _ _ _ _ _ _ _ _ _ Hinv Hi Hp Hb)].
    + destruct (copy_done _ _ _ _ _ _ _ _ Hinv Hi Hp Hb) as [-> Hl].
      eapply nonces_Put; [done..|]. rewrite Hl, Nat.sub_diag, app_nil_r. by split_and!.
  - injection He as <- <-. destruct Hx as (Hd & -> & Hl).
    eapply nonces_local; [exact Hinv|exact Hi|done|]. simpl. by rewrite Hd.
Qed.

Lemma nonces_reachable n s : reachable n s → inv (mem s) (procs s).
Proof using Type.
  unfold reachable. revert s. apply rtc_ind_r; [apply nonces_init|].
  intros s s' _ [[i a|k] He] Hinv; simpl in He.
  - apply bind_Some in He as (x & Hi & He). apply bind_Some in He as ([x' m'] & He & [= <-]).
    by eapply nonces_exec.
  - injection He as <-. destruct Hinv as [Hown Hsize Hpc]. split; simpl; [|done..].
    intros p. specialize (Hown p). pose proof (cnt_delete_le (is_ptr p) (free (mem s)) k). lia.
Qed.

(** A source that gives this call these bytes. *)
Definition giving (drawn : gostring) (err : option error) : Rand () :=
  {| ReadFull := λ _ u, (drawn, err, u) |}.

Lemma Encrypt_giving drawn err pick data pool :
  IsEncrypted data = false → drawn_ok drawn err → pool_ok c ((), pool) →
  val (Encrypt (giving drawn err) pick c data ((), pool)) = outcome data drawn err.
Proof using Type.
  intros Hd Hdr Hpool. unfold Encrypt. rewrite Hd.
  destruct (pool_Get_ok pick c _ Hpool) as (buf & pool' & Hget & Hbuf & _).
  rewrite (comp_bind_unfold _ _ _ _ _ _ Hget). unfold read_into, mbind, comp_bind, giving. cbn.
  destruct err as [e|]; [done|]. cbn. simpl in Hdr.
  rewrite drop_ge, app_nil_r, take_ge by lia.
  by rewrite Hdr, Nat.sub_diag, app_nil_r.
Qed.

(** C10: the pool hands a buffer to one caller at a time.  However the calls
    of any number of goroutines interleave, and whatever the garbage collector
    drops, no two goroutines access the same nonce buffer, a buffer being
    accessed is not in the pool, and no buffer is in the pool twice. *)
Theorem buffers_exclusive n s :
  reachable n s →
  (∀ i j x y p, procs s !! i = Some x → procs s !! j = Some y →
     buffer_of x = Some p → buffer_of y = Some p → i = j)
  ∧ (∀ i x p, procs s !! i = Some x → buffer_of x = Some p → p ∉ free (mem s))
  ∧ NoDup (free (mem s)).
Proof using Type.
  intros Hinv%nonces_reachable. split_and!.
  - intros i j x y p Hi Hj. by eapply nonces_excl.
  - intros i x p Hi Hx [k Hk]%list_elem_of_lookup.
    pose proof (cnt_ge_1 (is_ptr p) _ _ _ Hk (bool_decide_eq_true_2 _ eq_refl)).
    pose proof (cnt_ge_1 (holds p) _ _ _ Hi (proj2 (holds_Some _ _) Hx)).
    pose proof (inv_own _ _ Hinv p) as Ho. destruct (bool_decide _); simpl in Ho; lia.
  - apply NoDup_alt. intros k k' p Hk Hk'. destruct (decide (k = k')) as [|Hne]; [done|].
    pose proof (cnt_ge_2 (is_ptr p) _ _ _ _ _ Hk Hk') as H2.
    unfold is_ptr at 1 2 in H2. rewrite bool_decide_true in H2 by done.
    specialize (H2 eq_refl eq_refl Hne). pose proof (cnt_nonneg (holds p) (procs s)).
    pose proof (inv_own _ _ Hinv p) as Ho. destruct (bool_decide _); simpl in Ho; lia.
Qed.

(** C9: concurrent calls do not disturb each other.  However the calls of any
    number of goroutines interleave on the shared pool, a call that returns has
    drawn a whole nonce, or the source failed it, and returns what [Encrypt]
    run alone returns when the source gives it the bytes this call drew,
    whatever the pool holds. *)
Theorem concurrent_Encrypt n s i data drawn err out :
  reachable n s → procs s !! i = Some (Returned data drawn err out) →
  (IsEncrypted data = false → drawn_ok drawn err)
  ∧ ∀ pick pool, pool_ok c ((), pool) →
      val (Encrypt (giving drawn err) pick c data ((), pool)) = out.
Proof using Type.
  intros Hinv%nonces_reachable Hi. pose proof (inv_pc _ _ Hinv _ _ Hi) as Hx. simpl in Hx.
  destruct (IsEncrypted data) eqn:Hd.
  { destruct Hx as [-> ->]. split; [done|]. intros pick pool _. by rewrite Encrypt_passthrough. }
  destruct Hx as [Hdr ->]. split; [done|]. intros pick pool Hpool.
  by apply Encrypt_giving.
Qed.
End pool.

(** ** Witnesses *)

(** 1 starts while 0 fills its buffer in two reads, gets the same buffer after
    0 has put it back, and overwrites it before 0 seals. *)
Definition demo_sched : list move :=
  [Goroutine 0 (Call (str "hi")); Goroutine 0 GetNew;
   Goroutine 1 (Call (str "yo"));
   Goroutine 0 (Read (str "a") None); Goroutine 0 (Read (str "b") None);
   Goroutine 0 Tau; Goroutine 0 Tau; Goroutine 0 Tau; Goroutine 0 Tau;
   Goroutine 1 (GetPooled 0); Goroutine 1 (Read (str "c") (Some io_EOF));
   Goroutine 0 Tau; Goroutine 1 Tau].
Definition demo : state := default (init 2) (run toy_crypter demo_sched (init 2)).

Lemma run_reachable {C} `{AEAD C} (c : Crypter C) n sched s s' :
  reachable c n s → run c sched s = Some s' → reachable c n s'.
Proof.
  revert s. induction sched as [|mv sched IH]; intros s Hr Hrun; cbn in Hrun.
  - by injection Hrun as <-.
  - apply bind_Some in Hrun as (s1 & H1 & Hrun). eapply IH; [|exact Hrun].
    unfold reachable in *. eapply rtc_r; [exact Hr|]. by exists mv.
Qed.

Lemma demo_calls_reachable : reachable toy_crypter 2 demo.
Proof. eapply (run_reachable _ _ demo_sched (init 2)); [apply rtc_refl|reflexivity]. Qed.

(** In the middle of it: 0 reads, 1 has not got a buffer. *)
Definition demo_mid : state := default (init 2) (run toy_crypter (take 4 demo_sched) (init 2)).

Lemma buffers_exclusive_witness : 0%nat ∉ free (mem demo_mid).
Proof.
  assert (reachable toy_crypter 2 demo_mid) as Hr.
  { eapply (run_reachable _ _ (take 4 demo_sched) (init 2)); [apply rtc_refl|reflexivity]. }
  destruct (buffers_exclusive toy_crypter 2 demo_mid Hr) as (_ & Hp & _).
  exact (Hp 0%nat (Filling (str "hi") 0 (str "a") None) 0%nat eq_refl eq_refl).
Defined.

Lemma concurrent_Encrypt_witness :
  val (Encrypt (giving (str "ab") None) (λ _ _, None) toy_crypter (str "hi") ((), []))
    = Ok (sealed toy_crypter (str "ab") (str "hi"))
  ∧ val (Encrypt (giving (str "c") (Some io_ErrUnexpectedEOF)) (λ _ _, None) toy_crypter (str "yo") ((), []))
    = Err (Errorf 0 "%w: %w" [ErrReadNonce; io_ErrUnexpectedEOF]).
Proof.
  split.
  - apply (concurrent_Encrypt toy_crypter 2 demo 0 (str "hi") (str "ab") None _ demo_calls_reachable eq_refl).
    constructor.
  - apply (concurrent_Encrypt toy_crypter 2 demo 1 (str "yo") (str "c") (Some io_ErrUnexpectedEOF) _
      demo_calls_reachable eq_refl). constructor.
Defined.
