(* ===== verification/Yaml.v ===== *)
(** * crypter/yaml: encrypting the string values of a YAML document
    (crypter/yaml/yaml.go)

    The module takes its crypter as an interface ([Crypter], with the contract
    [CrypterLaws]); the instance for [crypter.Crypter] is at the end of the
    file.  [Unmarshal] and [Marshal] are yaml.v3's.  Both walks change the
    node tree in place: here they return the changed tree, and the counters
    and the crypter's world are threaded through, so that what an error leaves
    behind in the counters is visible. *)
From Stdlib Require Import Ascii String.
From S2P Require Export Prelude GoStrings Errors.
From S2P Require Import Base64 Crypter.
Local Open Scope Z_scope.

(** ** yaml.v3 nodes *)

Inductive Kind := ZeroKind | DocumentNode | SequenceNode | MappingNode | ScalarNode | AliasNode.
#[export] Instance Kind_eq_dec : EqDecision Kind.
Proof. solve_decision. Defined.

(** What the walks never read. *)
Record NodeMeta := {
  Anchor : gostring;
  HeadComment : gostring;
  LineComment : gostring;
  FootComment : gostring;
  Line : Z;
  Column : Z;
}.

(** A [*yaml.Node].  The node an alias points to is not among its [Content]. *)
Inductive Node :=
  | nilNode
  | mkNode (kind : Kind) (tag value : gostring) (style : Z) (meta : NodeMeta)
      (content : list Node).

Definition DoubleQuotedStyle : Z := 2.
Definition str_tag : gostring := str "!!str".

(** ** The injected crypter *)

Class Crypter (Ev W C : Type) := {
  Encrypt : C → gostring → Comp Ev W (result error gostring);
  Decrypt : C → gostring → result error gostring;
  IsEncrypted : C → gostring → bool;
  StartTag : C → gostring;
}.

Record Stats := { Encrypted : Z; Skipped : Z }.

Definition ErrYAMLDecode : error := errors_new "yaml.ErrYAMLDecode".
Definition ErrYAMLEncode : error := errors_new "yaml.ErrYAMLEncode".
Definition ErrYAMLDecrypt : error := errors_new "yaml.ErrYAMLDecrypt".
Definition ErrNilPredicate : error := errors_new "yaml.ErrNilPredicate".

Definition yamlBoolLiterals : list gostring :=
  [str "yes"; str "no"; str "on"; str "off"; str "true"; str "false"].

(** [for i := range n.Content]: the loop body replaces each child. *)
Section loops.
Context {Ev W : Type}.
Abbreviation M := (Comp Ev W).

Definition each (f : Node → M (result error Node))
    : list Node → M (result error (list Node)) :=
  fix go l :=
    match l with
    | [] => mret (Ok [])
    | n :: l => try (f n) (λ n', try (go l) (λ l', mret (Ok (n' :: l'))))
    end.

(** [for i := 0; i+1 < len(n.Content); i += 2]: the body sees key and value
    and replaces the value. *)
Definition each_pair (f : Node → Node → M (result error Node))
    : list Node → M (result error (list Node)) :=
  fix go l :=
    match l with
    | key :: val :: l =>
        try (f key val) (λ val', try (go l) (λ l', mret (Ok (key :: val' :: l'))))
    | l => mret (Ok l)
    end.
End loops.

(** ** Encrypting *)
Section encrypt.
Context {Ev W C : Type} `{Crypter Ev W C}.
Variable c : C.
Variable isSecret : gostring → bool.

(** The world of a walk: the crypter's and the optional counters. *)
Abbreviation M := (Comp Ev (W * option Stats)).

Definition with_crypter {A} (m : Comp Ev W A) : M A := λ '(w, stats),
  let '(a, t, w) := m w in (a, t, (w, stats)).
Definition count_Skipped : M () := modify (λ '(w, stats),
  (w, (λ s, {| Encrypted := Encrypted s; Skipped := Skipped s +! 1 |}%go) <$> stats)).
Definition count_Encrypted : M () := modify (λ '(w, stats),
  (w, (λ s, {| Encrypted := Encrypted s +! 1; Skipped := Skipped s |}%go) <$> stats)).

Definition scalar (n : Node) : M (result error Node) :=
  match n with
  | nilNode => mret (Panic "nil pointer dereference")
  | mkNode kind tag value style meta content =>
      if decide (tag ≠ str_tag) then mret (Ok n) else
      if decide (ToLower value ∈ yamlBoolLiterals) then mret (Ok n) else
      if Contains value (str "{{") then mret (Ok n) else
      if IsEncrypted c value then count_Skipped;; mret (Ok n) else
      try (with_crypter (Encrypt c value)) (λ enc,
        count_Encrypted;;
        mret (Ok (mkNode kind str_tag enc DoubleQuotedStyle meta content)))
  end.

(** [encryptSecret], over the [walk] it falls back to. *)
Definition encryptSecret_with (walk : Node → M (result error Node))
    : Node → M (result error Node) :=
  fix encryptSecret n :=
    match n with
    | nilNode => mret (Ok n)
    | mkNode ScalarNode _ _ _ _ _ => scalar n
    | mkNode SequenceNode tag value style meta content =>
        try (each encryptSecret content) (λ content',
          mret (Ok (mkNode SequenceNode tag value style meta content')))
    | _ => walk n
    end.

(** The body of the loop of [mappingValues]. *)
Definition mappingValue_with (walk : Node → M (result error Node)) (key val : Node)
    : M (result error Node) :=
  match key with
  | nilNode => mret (Panic "nil pointer dereference")
  | mkNode _ _ value _ _ _ =>
      if isSecret value then encryptSecret_with walk val else walk val
  end.

Fixpoint walk (n : Node) : M (result error Node) :=
  match n with
  | nilNode => mret (Ok n)
  | mkNode kind tag value style meta content =>
      match kind with
      | MappingNode =>
          try (each_pair (mappingValue_with walk) content) (λ content',
            mret (Ok (mkNode kind tag value style meta content')))
      | DocumentNode | SequenceNode =>
          try (each walk content) (λ content',
            mret (Ok (mkNode kind tag value style meta content')))
      | ScalarNode | AliasNode | ZeroKind => mret (Ok n)
      end
  end.
Definition encryptSecret : Node → M (result error Node) := encryptSecret_with walk.
End encrypt.

(** ** Decrypting *)
Section decrypt.
Context {Ev W C : Type} `{Crypter Ev W C}.
Variable c : C.

Definition decrypt_scalar (n : Node) : result error Node :=
  match n with
  | nilNode => Panic "nil pointer dereference"
  | mkNode kind tag value style meta content =>
      if decide (tag ≠ str_tag) then Ok n else
      if negb (IsEncrypted c value) then Ok n else
      match Decrypt c value with
      | Err err => Err (Errorf 0 "%w: %w" [ErrYAMLDecrypt; err])
      | Panic s => Panic s
      | Ok plain =>
          if IsEncrypted c plain then Err ErrYAMLDecrypt
          else Ok (mkNode kind str_tag plain 0 meta content)
      end
  end.

(** [children] and [mappingValues], over the [walk] they call. *)
Definition children_with (walk : Node → result error Node)
    : list Node → result error (list Node) :=
  fix go l :=
    match l with
    | [] => Ok []
    | n :: l => n' ← walk n; l' ← go l; Ok (n' :: l')
    end.

Definition decrypt_values_with (walk : Node → result error Node)
    : list Node → result error (list Node) :=
  fix go l :=
    match l with
    | key :: val :: l => val' ← walk val; l' ← go l; Ok (key :: val' :: l')
    | l => Ok l
    end.

Fixpoint decrypt_walk (n : Node) : result error Node :=
  match n with
  | nilNode => Ok n
  | mkNode kind tag value style meta content =>
      match kind with
      | MappingNode =>
          content' ← decrypt_values_with decrypt_walk content;
          Ok (mkNode kind tag value style meta content')
      | ScalarNode => decrypt_scalar n
      | DocumentNode | SequenceNode | ZeroKind =>
          content' ← children_with decrypt_walk content;
          Ok (mkNode kind tag value style meta content')
      | AliasNode => Ok n
      end
  end.
End decrypt.

(** ** Documents *)
Section documents.
Context {Ev W C : Type} `{Crypter Ev W C}.
(** yaml.v3: [Unmarshal] into a zero [Node], and [Marshal]. *)
Variable Unmarshal : gostring → result error Node.
Variable Marshal : Node → result error gostring.

Definition is_zero (n : Node) : bool :=
  match n with mkNode ZeroKind _ _ _ _ _ => true | _ => false end.

(** The second component of the world is what the first of the optional
    [stats] arguments points to.  [None] is the nil predicate. *)
Definition EncryptBytes (b : gostring) (isSecret : option (gostring → bool)) (c : C)
    : Comp Ev (W * option Stats) (result error gostring) :=
  match isSecret with
  | None => mret (Err ErrNilPredicate)
  | Some isSecret =>
      if decide (b = []) then mret (Ok b) else
      match Unmarshal b with
      | Err err => mret (Err (Errorf 0 "%w: %w" [ErrYAMLDecode; err]))
      | Panic s => mret (Panic s)
      | Ok n =>
          if is_zero n then mret (Ok b) else
          try (walk c isSecret n) (λ n,
            match Marshal n with
            | Err err => mret (Err (Errorf 0 "%w: %w" [ErrYAMLEncode; err]))
            | r => mret r
            end)
      end
  end.

Definition DecryptBytes (b : gostring) (c : C) : result error gostring :=
  if decide (b = []) then Ok b else
  if negb (Contains b (StartTag c)) then Ok b else
  match Unmarshal b with
  | Err err => Err (Errorf 0 "%w: %w" [ErrYAMLDecode; err])
  | Panic s => Panic s
  | Ok n =>
      if is_zero n then Ok b else
      n ← decrypt_walk c n;
      match Marshal n with
      | Err err => Err (Errorf 0 "%w: %w" [ErrYAMLEncode; err])
      | r => r
      end
  end.
End documents.

(** ** What an injected crypter must promise

    [crypter_ok] is an invariant of its world.  A value it encrypts becomes
    one it recognises and can turn back, which no rule of [scalar] exempts
    from counting and which carries the start tag; it never panics. *)
Definition exempt (value : gostring) : bool :=
  bool_decide (ToLower value ∈ yamlBoolLiterals) || Contains value (str "{{").

Class CrypterLaws (Ev W C : Type) `{Crypter Ev W C} := {
  crypter_ok : C → W → Prop;
  encrypt_ok : ∀ c v w enc t w', crypter_ok c w → IsEncrypted c v = false →
    Encrypt c v w = (Ok enc, t, w') →
    crypter_ok c w' ∧ IsEncrypted c enc = true ∧ Decrypt c enc = Ok v ∧ exempt enc = false;
  encrypt_no_panic : ∀ c v w, crypter_ok c w → is_Panic (val (Encrypt c v w)) = false;
  decrypt_no_panic : ∀ c v, is_Panic (Decrypt c v) = false;
  encrypted_tag : ∀ c v, IsEncrypted c v = true → Contains v (StartTag c) = true;
}.

(** ** Specification *)

(** Induction that reaches the children. *)
Fixpoint Node_ind' (P : Node → Prop) (Hnil : P nilNode)
    (Hnode : ∀ kind tag value style meta content, Forall P content →
       P (mkNode kind tag value style meta content)) (n : Node) : P n :=
  match n with
  | nilNode => Hnil
  | mkNode kind tag value style meta content =>
      Hnode kind tag value style meta content
        ((fix go l : Forall P l :=
            match l with
            | [] => Forall_nil_2 P
            | x :: l => Forall_cons_2 P x l (Node_ind' P Hnil Hnode x) (go l)
            end) content)
  end.

Definition Value (n : Node) : gostring :=
  match n with nilNode => [] | mkNode _ _ value _ _ _ => value end.

(** Induction over the pairs of a mapping. *)
Lemma pairs_ind {A} (P : list A → Prop) :
  P [] → (∀ x, P [x]) → (∀ x y l, P l → P (x :: y :: l)) → ∀ l, P l.
Proof.
  intros H0 H1 H2 l. remember (length l) as n eqn:Hn. revert l Hn.
  induction (lt_wf n) as [n _ IH]. intros [|x [|y l]] ->; [done..|].
  apply H2. eapply IH; [|done]. simpl. lia.
Qed.

(** The values of a mapping under their keys, and related pairwise. *)
Section pairing.
Context {A : Type}.
Definition map_pairs (f : Node → Node → list A) : list Node → list A :=
  fix go l := match l with k :: v :: l => f k v ++ go l | _ => [] end.
Definition all2 (P : Node → Node → Prop) : list Node → list Node → Prop :=
  fix go l l' :=
    match l, l' with
    | [], [] => True
    | n :: l, n' :: l' => P n n' ∧ go l l'
    | _, _ => False
    end.
Definition all_pairs2 (P : Node → Node → Node → Prop) : list Node → list Node → Prop :=
  fix go l l' :=
    match l, l' with
    | k :: v :: l, k' :: v' :: l' => k' = k ∧ P k v v' ∧ go l l'
    | l, l' => l' = l
    end.
End pairing.

(** Facts about children carry over to lists of them. *)
Section lists_of_children.
Context {A : Type} (P : bool → Node → Node → Prop) (Q : A → A → Prop).
Variable f : bool → Node → list A.
Implicit Types l : list Node.

Lemma all2_concat secret l l' :
  Forall (λ n, ∀ b n', P b n n' → Forall2 Q (f b n) (f b n')) l →
  all2 (P secret) l l' → Forall2 Q (concat (map (f secret) l)) (concat (map (f secret) l')).
Proof using Type.
  intros Hl. revert l'. induction Hl as [|n l Hn _ IH]; intros [|n' l']; simpl; try done.
  intros [Hp Hr]. apply Forall2_app; auto.
Qed.

Lemma pairs2_concat (g : Node → bool) l l' :
  Forall (λ n, ∀ b n', P b n n' → Forall2 Q (f b n) (f b n')) l →
  all_pairs2 (λ k, P (g k)) l l' →
  Forall2 Q (map_pairs (λ k v, f (g k) v) l) (map_pairs (λ k v, f (g k) v) l').
Proof using Type.
  revert l'. induction l as [|k|k v l IH] using pairs_ind; intros l' Hl.
  - intros ->. constructor.
  - intros ->. constructor.
  - destruct l' as [|k' [|v' l']]; [done|done|].
    rewrite !Forall_cons in Hl. destruct Hl as (_ & Hv & Hl). simpl.
    intros (-> & Hp & Hr). apply Forall2_app; auto.
Qed.
End lists_of_children.

Lemma all2_forallb (f : Node → bool) (P : bool → Node → Node → Prop) secret l l' :
  Forall (λ n, ∀ b n', P b n n' → f n' = f n) l →
  all2 (P secret) l l' → forallb f l' = forallb f l.
Proof.
  intros Hl. revert l'. induction Hl as [|n l Hn _ IH]; intros [|n' l']; simpl; try done.
  intros [Hr Hrs]. by rewrite (Hn _ _ Hr), (IH _ Hrs).
Qed.

Section unchanged_children.
Context {A : Type} (P : bool → Node → Node → Prop) (Q : A → Prop).
Variable f : bool → Node → list A.
Implicit Types l : list Node.

Lemma all2_id secret l l' :
  Forall (λ n, ∀ b n', Forall Q (f b n) → P b n n' → n' = n) l →
  Forall Q (concat (map (f secret) l)) → all2 (P secret) l l' → l' = l.
Proof using Type.
  intros Hl. revert l'. induction Hl as [|n l Hn _ IH]; intros [|n' l']; simpl; try done.
  rewrite Forall_app. intros [??] [??]. f_equal; eauto.
Qed.

Lemma pairs2_id (g : Node → bool) l l' :
  Forall (λ n, ∀ b n', Forall Q (f b n) → P b n n' → n' = n) l →
  Forall Q (map_pairs (λ k v, f (g k) v) l) → all_pairs2 (λ k, P (g k)) l l' → l' = l.
Proof using Type.
  revert l'. induction l as [|k|k v l IH] using pairs_ind; intros l' Hl.
  - by intros _ ->.
  - by intros _ ->.
  - destruct l' as [|k' [|v' l']]; [done|done|].
    rewrite !Forall_cons in Hl. destruct Hl as (_ & Hv & Hl). simpl.
    rewrite Forall_app. intros [??] (-> & ? & ?). f_equal. f_equal; eauto.
Qed.
End unchanged_children.

Section spec.
Variable isSecret : gostring → bool.

(** The scalars the walk encrypts, below a secret key: strings no rule exempts. *)
Definition is_target (tag value : gostring) : bool :=
  bool_decide (tag = str_tag) && negb (exempt value).

(** The secrets of a document, in the order of the text: the targets below a
    secret key, through sequences but not through another mapping.  [secret]
    tells whether the node is the value of a secret key. *)
Fixpoint secrets (secret : bool) (n : Node) : list gostring :=
  match n with
  | nilNode => []
  | mkNode kind tag value _ _ content =>
      match kind with
      | ScalarNode => if secret && is_target tag value then [value] else []
      | SequenceNode => concat (map (secrets secret) content)
      | DocumentNode => concat (map (secrets false) content)
      | MappingNode => map_pairs (λ k v, secrets (isSecret (Value k)) v) content
      | AliasNode | ZeroKind => []
      end
  end.

(** [rewritten R]: the same document, but for the value and style of its
    secrets, which are related by [R]. *)
Fixpoint rewritten (R : gostring * Z → gostring * Z → Prop) (secret : bool) (n n' : Node) : Prop :=
  match n, n' with
  | nilNode, nilNode => True
  | mkNode kind tag value style meta content, mkNode kind' tag' value' style' meta' content' =>
      kind' = kind ∧ tag' = tag ∧ meta' = meta ∧
      match kind with
      | ScalarNode =>
          content' = content ∧
          if secret && is_target tag value then R (value, style) (value', style')
          else (value', style') = (value, style)
      | SequenceNode =>
          (value', style') = (value, style) ∧ all2 (rewritten R secret) content content'
      | DocumentNode =>
          (value', style') = (value, style) ∧ all2 (rewritten R false) content content'
      | MappingNode =>
          (value', style') = (value, style)
          ∧ all_pairs2 (λ k, rewritten R (isSecret (Value k))) content content'
      | AliasNode | ZeroKind => (value', style', content') = (value, style, content)
      end
  | _, _ => False
  end.

(** Every key of the mappings the walk visits is a node. *)
Fixpoint keyed (n : Node) : bool :=
  match n with
  | mkNode (DocumentNode | SequenceNode) _ _ _ _ content => forallb keyed content
  | mkNode MappingNode _ _ _ _ content =>
      (fix go l :=
         match l with
         | nilNode :: _ :: _ => false
         | _ :: v :: l => keyed v && go l
         | _ => true
         end) content
  | _ => true
  end.
End spec.

(** ** The encrypting walk implements the specification *)
Section encrypt_walk.
Context {Ev W C : Type} `{CrypterLaws Ev W C}.
Variable c : C.
Variable isSecret : gostring → bool.
Abbreviation M := (Comp Ev (W * option Stats)).

(** How one secret is rewritten, and counted. *)
Definition sealed (x x' : gostring * Z) : Prop :=
  if IsEncrypted c x.1 then x' = x
  else IsEncrypted c x'.1 = true ∧ Decrypt c x'.1 = Ok x.1 ∧ exempt x'.1 = false
       ∧ x'.2 = DoubleQuotedStyle.

Definition bump1 (s : Stats) (v : gostring) : Stats :=
  if IsEncrypted c v then {| Encrypted := Encrypted s; Skipped := Skipped s +! 1 |}%go
  else {| Encrypted := Encrypted s +! 1; Skipped := Skipped s |}%go.
Definition bump (vs : list gostring) (st : option Stats) : option Stats :=
  (λ s, foldl bump1 s vs) <$> st.

Lemma bump_app vs vs' st : bump (vs ++ vs') st = bump vs' (bump vs st).
Proof using Type. destruct st; simpl; [|done]. unfold bump. simpl. by rewrite foldl_app. Qed.

(** What a part of the walk does to the nodes [x], whose secrets are [vs]. *)
Definition meets {A} (vs : list gostring) (rel : A → Prop) (nokey : Prop)
    (m : M (result error A)) : Prop := ∀ w st,
  crypter_ok c w →
  let '(r, t, (w', st')) := m (w, st) in
  match r with
  | Ok a => crypter_ok c w' ∧ st' = bump vs st ∧ rel a
            ∧ (Forall (λ v, IsEncrypted c v = true) vs → t = [] ∧ w' = w)
  | Err err => ∃ v w0, v ∈ vs ∧ IsEncrypted c v = false ∧ val (Encrypt c v w0) = Err err
  | Panic _ => nokey
  end.

Lemma meets_ret {A} (rel : A → Prop) nokey a : rel a → meets [] rel nokey (mret (Ok a)).
Proof using Type. intros Ha w st Hw. simpl. by destruct st. Qed.

Lemma meets_try {A B} vs vs' (rel : A → Prop) (rel' : B → Prop) (k k' : Prop) m f :
  meets vs rel k m → (∀ a, rel a → meets vs' rel' k' (f a)) →
  meets (vs ++ vs') rel' (k ∨ k') (try m f).
Proof using Type.
  intros Hm Hf w st Hw. unfold try. specialize (Hm w st Hw).
  destruct (m (w, st)) as [[r t] [w' st']] eqn:Em.
  rewrite (comp_bind_unfold _ _ _ _ _ _ Em).
  destruct r as [a|err|s]; cbn.
  - destruct Hm as (Hw' & -> & Ha & Ht). specialize (Hf a Ha w' (bump vs st) Hw').
    destruct (f a _) as [[r t'] [w'' st'']]. cbn. destruct r; cbn.
    + rewrite bump_app, Forall_app. destruct Hf as (? & -> & ? & Ht').
      split_and?; [done..|]. intros [Hv Hv']. destruct (Ht Hv) as [-> ->], (Ht' Hv') as [-> ->]. done.
    + destruct Hf as (v & w0 & ? & ? & ?). exists v, w0. rewrite elem_of_app. auto.
    + by right.
  - destruct Hm as (v & w0 & ? & ? & ?). exists v, w0. rewrite elem_of_app. auto.
  - by left.
Qed.

Lemma meets_weaken {A} vs (rel rel' : A → Prop) (k k' : Prop) m :
  meets vs rel k m → (∀ a, rel a → rel' a) → (k → k') → meets vs rel' k' m.
Proof using Type.
  intros Hm Hrel Hk w st Hw. specialize (Hm w st Hw).
  destruct (m (w, st)) as [[r t] [w' st']]. destruct r; naive_solver.
Qed.

Lemma meets_rebuild {A B} vs (rel : A → Prop) (rel' : B → Prop) (k : Prop) m g :
  meets vs rel k m → (∀ a, rel a → rel' (g a)) →
  meets vs rel' k (try m (λ a, mret (Ok (g a)))).
Proof using Type.
  intros Hm Hg. rewrite <-(app_nil_r vs).
  eapply meets_weaken; [eapply (meets_try vs [] rel rel' k False _ _ Hm)|done|tauto].
  intros a Ha. apply meets_ret. auto.
Qed.

Notation rewrites secret n := (rewritten isSecret sealed secret n).

Lemma scalar_meets tag value style meta content :
  let n := mkNode ScalarNode tag value style meta content in
  meets (secrets isSecret true n) (rewrites true n) False (scalar c n).
Proof using Type.
  cbn zeta. unfold scalar, secrets, rewritten, is_target, exempt. cbn [andb].
  destruct (decide (tag ≠ str_tag)) as [Ht|Ht].
  { rewrite (bool_decide_eq_false_2 (tag = str_tag)) by done. by apply meets_ret. }
  apply dec_stable in Ht as ->. rewrite (bool_decide_eq_true_2 (str_tag = str_tag)) by done.
  destruct (decide (ToLower value ∈ yamlBoolLiterals)) as [Hl|Hl].
  { rewrite bool_decide_eq_true_2 by done. by apply meets_ret. }
  rewrite bool_decide_eq_false_2 by done. unfold sealed.
  destruct (Contains value (str "{{")); simpl; [by apply meets_ret|].
  intros w st Hw. destruct (IsEncrypted c value) eqn:He.
  - cbn. destruct st; simpl; unfold bump, bump1; simpl; rewrite ?He; by auto 10.
  - unfold try, with_crypter. destruct (Encrypt c value w) as [[r t] w'] eqn:Henc.
    assert (is_Panic r = false) as Hp.
    { pose proof (encrypt_no_panic c value w Hw) as Hp. by rewrite Henc in Hp. }
    unfold mbind, comp_bind. rewrite Henc. destruct r as [enc|err|]; [|simpl|done].
    + destruct (encrypt_ok c value w enc t w' Hw He Henc) as (? & ? & ? & ?).
      cbn. rewrite Forall_singleton, He.
      destruct st; simpl; unfold bump, bump1; simpl; rewrite ?He; by auto 10.
    + exists value, w. rewrite Henc. split; [by left|auto].
Qed.

Lemma each_meets secret (f : Node → M (result error Node)) l :
  Forall (λ n, meets (secrets isSecret secret n) (rewrites secret n) (keyed n = false) (f n)) l →
  meets (concat (map (secrets isSecret secret) l)) (all2 (rewritten isSecret sealed secret) l)
        (forallb keyed l = false) (each f l).
Proof using Type.
  induction 1 as [|n l Hn _ IH]; simpl; [by apply meets_ret|].
  eapply meets_weaken; [eapply (meets_try _ _ _ 
    (all2 (rewritten isSecret sealed secret) (n :: l)) _ _ _ _ Hn)|done|].
  - intros n' Hn'. apply (meets_rebuild _ _ _ _ _ _ IH). by split.
  - simpl. rewrite andb_false_iff. tauto.
Qed.

(** The two walks on one node. *)
Definition walks (n : Node) : Prop :=
  meets (secrets isSecret false n) (rewrites false n) (keyed n = false) (walk c isSecret n)
  ∧ meets (secrets isSecret true n) (rewrites true n) (keyed n = false)
      (encryptSecret c isSecret n).

Lemma mapping_meets l :
  Forall walks l →
  meets (map_pairs (λ k v, secrets isSecret (isSecret (Value k)) v) l)
    (all_pairs2 (λ k, rewritten isSecret sealed (isSecret (Value k))) l)
    (keyed (mkNode MappingNode [] [] 0 (Build_NodeMeta [] [] [] [] 0 0) l) = false)
    (each_pair (mappingValue_with c isSecret (walk c isSecret)) l).
Proof using Type.
  induction l as [|k|k v l IH] using pairs_ind; intros Hl; [by apply meets_ret..|].
  rewrite !Forall_cons in Hl. destruct Hl as (_ & [Hw Hs] & Hl). specialize (IH Hl).
  destruct k as [|kk ktag kvalue kstyle kmeta kcontent].
  { intros w st Hw'. simpl. done. }
  assert (meets (secrets isSecret (isSecret kvalue) v) (rewrites (isSecret kvalue) v)
    (keyed v = false) (mappingValue_with c isSecret (walk c isSecret)
       (mkNode kk ktag kvalue kstyle kmeta kcontent) v)) as Hv.
  { simpl. destruct (isSecret kvalue); [apply Hs|apply Hw]. }
  eapply meets_weaken; [eapply (meets_try _ _ _ (all_pairs2
    (λ k, rewritten isSecret sealed (isSecret (Value k))) (_ :: v :: l)) _ _ _ _ Hv)|done|].
  - intros v' Hv'. apply (meets_rebuild _ _ _ _ _ _ IH). by split_and?.
  - simpl in *. rewrite andb_false_iff. tauto.
Qed.

Lemma walk_meets n : walks n.
Proof using Type.
  induction n as [|kind tag value style meta content IH] using Node_ind'.
  { split; by apply meets_ret. }
  assert (Forall (λ n, meets (secrets isSecret false n) (rewrites false n) (keyed n = false)
    (walk c isSecret n)) content) as Hf by (eapply Forall_impl; [exact IH|by intros ? []]).
  assert (Forall (λ n, meets (secrets isSecret true n) (rewrites true n) (keyed n = false)
    (encryptSecret c isSecret n)) content) as Ht by (eapply Forall_impl; [exact IH|by intros ? []]).
  apply each_meets in Hf, Ht. pose proof (mapping_meets content IH) as Hm.
  split; destruct kind; try (apply meets_ret; simpl; auto; fail).
  - apply (meets_rebuild _ _ _ _ _ _ Hf). simpl. auto.
  - apply (meets_rebuild _ _ _ _ _ _ Hf). simpl. auto.
  - apply (meets_rebuild _ _ _ _ _ _ Hm). simpl. auto.
  - apply (meets_rebuild _ _ _ _ _ _ Hf). simpl. auto.
  - apply (meets_rebuild _ _ _ _ _ _ Ht). simpl. auto.
  - apply (meets_rebuild _ _ _ _ _ _ Hm). simpl. auto.
  - eapply meets_weaken; [apply scalar_meets|done|done].
Qed.

(** Rewriting keeps the tree's shape, and its secrets in their places. *)
Definition sealed_value (v v' : gostring) : Prop :=
  if IsEncrypted c v then v' = v else IsEncrypted c v' = true ∧ Decrypt c v' = Ok v.

Lemma rewritten_secrets n secret n' :
  rewrites secret n n' →
  Forall2 sealed_value (secrets isSecret secret n) (secrets isSecret secret n').
Proof using Type.
  revert secret n'. induction n as [|kind tag value style meta content IH] using Node_ind'.
  { intros secret [|]; [constructor|done]. }
  intros secret [|kind' tag' value' style' meta' content']; [done|]. simpl.
  intros (-> & -> & -> & Hk). destruct kind; try by constructor.
  - destruct Hk as [_ Hk]. by apply (all2_concat _ _ (secrets isSecret) false content content' IH).
  - destruct Hk as [_ Hk]. by apply (all2_concat _ _ (secrets isSecret) secret content content' IH).
  - destruct Hk as [_ Hk]. by apply (pairs2_concat _ _ (secrets isSecret)
      (λ k, isSecret (Value k)) content content' IH).
  - destruct Hk as [_ Hk]. destruct secret; [|constructor]. simpl in *.
    destruct (is_target tag value) eqn:Ht; [|simplify_eq; rewrite Ht; constructor].
    unfold sealed in Hk. unfold sealed_value. simpl in Hk.
    destruct (IsEncrypted c value) eqn:He.
    + simplify_eq. rewrite Ht. constructor; [|constructor]. cbn. by rewrite He.
    + destruct Hk as (? & ? & Hx & _). unfold is_target in *. rewrite Hx.
      apply andb_prop in Ht as [-> _]. simpl. constructor; [|constructor]. cbn. by rewrite He.
Qed.

(** Rewriting what is already encrypted changes nothing. *)
Lemma rewritten_id n secret n' :
  Forall (λ v, IsEncrypted c v = true) (secrets isSecret secret n) →
  rewrites secret n n' → n' = n.
Proof using Type.
  revert secret n'. induction n as [|kind tag value style meta content IH] using Node_ind'.
  { intros secret []; done. }
  intros secret [|kind' tag' value' style' meta' content'] Henc; [done|]. simpl in *.
  intros (-> & -> & -> & Hk). destruct kind; simplify_eq/=; try done.
  - destruct Hk as [? Hk]. simplify_eq. f_equal.
    by apply (all2_id _ _ (secrets isSecret) false content content' IH).
  - destruct Hk as [? Hk]. simplify_eq. f_equal.
    by apply (all2_id _ _ (secrets isSecret) secret content content' IH).
  - destruct Hk as [? Hk]. simplify_eq. f_equal.
    by apply (pairs2_id _ _ (secrets isSecret) (λ k, isSecret (Value k)) content content' IH).
  - destruct Hk as [-> Hk]. revert Henc Hk.
    destruct (secret && is_target tag value); intros Henc Hk; [|by simplify_eq].
    rewrite Forall_singleton in Henc. unfold sealed in Hk. cbn in Henc, Hk.
    destruct (IsEncrypted c value); [by simplify_eq|done].
Qed.
End encrypt_walk.

(** ** The decrypting walk *)
Section decrypt_walk.
Context {Ev W C : Type} {HC : Crypter Ev W C} {HL : CrypterLaws Ev W C}.
Variable c : C.

(** The strings of a document that are not keys, with their style. *)
Fixpoint strings (n : Node) : list (gostring * Z) :=
  match n with
  | nilNode => []
  | mkNode kind tag value style _ content =>
      match kind with
      | ScalarNode => if decide (tag = str_tag) then [(value, style)] else []
      | MappingNode => map_pairs (λ _, strings) content
      | DocumentNode | SequenceNode | ZeroKind => concat (map strings content)
      | AliasNode => []
      end
  end.

(** The document without them. *)
Fixpoint skeleton (n : Node) : Node :=
  match n with
  | nilNode => n
  | mkNode kind tag value style meta content =>
      match kind with
      | ScalarNode =>
          if decide (tag = str_tag) then mkNode kind tag [] 0 meta content else n
      | MappingNode =>
          mkNode kind tag value style meta
            ((fix go l := match l with k :: v :: l => k :: skeleton v :: go l | l => l end) content)
      | DocumentNode | SequenceNode | ZeroKind =>
          mkNode kind tag value style meta (map skeleton content)
      | AliasNode => n
      end
  end.

Definition opened (x x' : gostring * Z) : Prop :=
  if IsEncrypted c x.1 then Decrypt c x.1 = Ok x'.1 ∧ IsEncrypted c x'.1 = false ∧ x'.2 = 0
  else x' = x.
Definition broken (x : gostring * Z) : Prop :=
  IsEncrypted c x.1 = true ∧ ∀ plain, Decrypt c x.1 = Ok plain → IsEncrypted c plain = true.

Definition opens {A B} (f : A → list (gostring * Z)) (sk : A → B) (a : A) (r : result error A) : Prop :=
  match r with
  | Ok a' => Forall2 opened (f a) (f a') ∧ sk a' = sk a
  | Err err => errors_is err ErrYAMLDecrypt = true ∧ Exists broken (f a)
  | Panic _ => False
  end.

Lemma decrypt_scalar_opens kind tag value style meta content :
  let n := mkNode ScalarNode tag value style meta content in
  kind = ScalarNode → opens strings skeleton n (decrypt_scalar c n).
Proof using HL.
  simpl. intros ->. case_decide as Ht; simpl.
  { rewrite decide_False by done. by repeat constructor. }
  subst tag.
  assert (opened (value, style) (value, style) ∨ IsEncrypted c value = true) as Ho.
  { unfold opened. simpl. destruct (IsEncrypted c value); auto. }
  destruct (IsEncrypted c value) eqn:He; simpl.
  2:{ destruct Ho; [|done]. by repeat constructor. }
  pose proof (decrypt_no_panic c value) as Hp. unfold opened, broken. simpl.
  destruct (Decrypt c value) as [plain|err|] eqn:Hd; [|simpl|done].
  - destruct (IsEncrypted c plain) eqn:Hpl; simpl.
    + split; [done|]. apply Exists_cons_hd. split; [done|]. simpl. rewrite Hd.
      by intros p [= <-].
    + repeat constructor. unfold opened. simpl. by rewrite He.
  - split; [done|]. apply Exists_cons_hd. split; [done|]. simpl. by rewrite Hd.
Qed.

Lemma opens_children l :
  Forall (λ n, opens strings skeleton n (decrypt_walk c n)) l →
  opens (λ l, concat (map strings l)) (map skeleton) l (children_with (decrypt_walk c) l).
Proof using Type.
  induction 1 as [|n l Hn _ IH]; simpl; [by split|].
  destruct (decrypt_walk c n) as [n'|err|]; simpl in *; [|by rewrite Exists_app; naive_solver|done].
  destruct (children_with _ l) as [l'|err|]; simpl in *; [|by rewrite Exists_app; naive_solver|done].
  destruct Hn as [? ->], IH as [? ->]. split; [by apply Forall2_app|done].
Qed.

Lemma opens_values l :
  Forall (λ n, opens strings skeleton n (decrypt_walk c n)) l →
  opens (map_pairs (λ _, strings))
    (fix go l := match l with k :: v :: l => k :: skeleton v :: go l | l => l end)
    l (decrypt_values_with (decrypt_walk c) l).
Proof using Type.
  induction l as [|k|k v l IH] using pairs_ind; intros Hl; simpl; [by split..|].
  rewrite !Forall_cons in Hl. destruct Hl as (_ & Hn & Hl). specialize (IH Hl).
  destruct (decrypt_walk c v) as [n'|err|]; simpl in *; [|by rewrite Exists_app; naive_solver|done].
  destruct (decrypt_values_with _ l) as [l'|err|]; simpl in *;
    [|by rewrite Exists_app; naive_solver|done].
  destruct Hn as [? ->], IH as [? ->]. split; [by apply Forall2_app|done].
Qed.

Lemma decrypt_walk_opens n : opens strings skeleton n (decrypt_walk c n).
Proof using HL.
  induction n as [|kind tag value style meta content IH] using Node_ind'; [by split|].
  pose proof (opens_children content IH) as Hc. pose proof (opens_values content IH) as Hv.
  destruct kind; simpl;
    try (destruct (children_with _ _) as [l|err|]; simpl in *; [|done..];
         destruct Hc as [? ->]; by split).
  - destruct (decrypt_values_with _ _) as [l|err|]; simpl in *; [|done..].
    destruct Hv as [? ->]. by split.
  - by apply (decrypt_scalar_opens ScalarNode tag value style meta content).
  - by split.
Qed.

(** *** Decrypting after encrypting *)
Variable isSecret : gostring → bool.

(** The same document but for the style of its secrets. *)
Definition same_value (x x' : gostring * Z) : Prop := x'.1 = x.1.
Abbreviation restyled := (rewritten isSecret same_value).

Lemma rewritten_refl (R : gostring * Z → gostring * Z → Prop) secret n :
  (∀ x, R x x) → rewritten isSecret R secret n n.
Proof using Type.
  intros HR. revert secret.
  induction n as [|kind tag value style meta content IH] using Node_ind'; [done|].
  intros secret. simpl. split_and?; try done.
  assert (∀ b, all2 (rewritten isSecret R b) content content) as H2.
  { intros b. induction IH; simpl; auto. }
  assert (all_pairs2 (λ k, rewritten isSecret R (isSecret (Value k))) content content) as Hp.
  { induction content as [|k|k v l IHl] using pairs_ind; [done..|].
    rewrite !Forall_cons in IH. destruct IH as (_ & ? & IH). simpl.
    split_and?; auto. apply IHl; [done|]. intros b. by destruct (H2 b) as (_ & _ & ?). }
  destruct kind; auto. split; [done|]. by destruct (secret && _).
Qed.

Definition reopens {A} (rel : A → Prop) (r : result error A) : Prop :=
  ∃ a', r = Ok a' ∧ rel a'.

Lemma reopen_children secret l l' d :
  Forall (λ n, ∀ b e d, rewritten isSecret (sealed c) b n e → decrypt_walk c n = Ok d →
                 reopens (restyled b d) (decrypt_walk c e)) l →
  all2 (rewritten isSecret (sealed c) secret) l l' →
  children_with (decrypt_walk c) l = Ok d →
  reopens (all2 (restyled secret) d) (children_with (decrypt_walk c) l').
Proof using Type.
  intros Hl. revert l' d. induction Hl as [|n l Hn _ IH]; intros [|n' l'] d; simpl; try done.
  { intros _ [= <-]. by exists []. }
  intros [Hr Hrs] (n1 & E1 & (l1 & E2 & [= <-])%bind_Ok_inv)%bind_Ok_inv.
  destruct (Hn secret _ _ Hr E1) as (d' & -> & Hd').
  destruct (IH _ _ Hrs E2) as (ds' & -> & Hds'). simpl. by exists (d' :: ds').
Qed.

Lemma reopen_values l l' d :
  Forall (λ n, ∀ b e d, rewritten isSecret (sealed c) b n e → decrypt_walk c n = Ok d →
                 reopens (restyled b d) (decrypt_walk c e)) l →
  all_pairs2 (λ k, rewritten isSecret (sealed c) (isSecret (Value k))) l l' →
  decrypt_values_with (decrypt_walk c) l = Ok d →
  reopens (all_pairs2 (λ k, restyled (isSecret (Value k))) d)
    (decrypt_values_with (decrypt_walk c) l').
Proof using Type.
  revert l' d. induction l as [|k|k v l IH] using pairs_ind; intros l' d Hl.
  - intros -> [= <-]. by exists [].
  - intros -> [= <-]. by exists [k].
  - destruct l' as [|k' [|v' l']]; [done|done|].
    rewrite !Forall_cons in Hl. destruct Hl as (_ & Hv & Hl). simpl.
    intros (-> & Hr & Hrs) (n1 & E1 & (l1 & E2 & [= <-])%bind_Ok_inv)%bind_Ok_inv.
    destruct (Hv _ _ _ Hr E1) as (d' & -> & Hd').
    destruct (IH _ _ Hl Hrs E2) as (ds' & -> & Hds'). simpl. by exists (k :: d' :: ds').
Qed.

Lemma reopen_scalar secret tag value style meta content e d :
  let n := mkNode ScalarNode tag value style meta content in
  rewritten isSecret (sealed c) secret n e → decrypt_scalar c n = Ok d →
  reopens (restyled secret d) (decrypt_walk c e).
Proof using Type.
  cbn zeta. intros Hr Hd.
  assert (∀ n, restyled secret n n) as Hrefl by (intros n; by apply rewritten_refl).
  destruct e as [|kind' tag' value' style' meta' content']; [done|].
  cbn in Hr. destruct Hr as (-> & -> & -> & -> & Hr).
  destruct (secret && is_target tag value) eqn:Ht.
  2:{ injection Hr as -> ->. exists d. by split. }
  unfold sealed in Hr. cbn in Hr. destruct (IsEncrypted c value) eqn:He.
  { injection Hr as -> ->. exists d. by split. }
  destruct Hr as (He' & Hdec & Hx & ->). pose proof Ht as [-> Htag]%andb_prop.
  unfold is_target in Htag. apply andb_prop in Htag as [->%bool_decide_eq_true Hex].
  simpl in Hd. rewrite He in Hd. simpl in Hd. injection Hd as <-.
  assert (restyled true (mkNode ScalarNode str_tag value style meta content)
    (mkNode ScalarNode str_tag value 0 meta content)) as Hd.
  { cbn [rewritten]. by rewrite Ht. }
  simpl. rewrite He', Hdec. simpl. rewrite He. eexists. split; [done|exact Hd].
Qed.

Lemma reopen n secret e d :
  rewritten isSecret (sealed c) secret n e → decrypt_walk c n = Ok d →
  reopens (restyled secret d) (decrypt_walk c e).
Proof using Type.
  revert secret e d. induction n as [|kind tag value style meta content IH] using Node_ind'.
  { intros secret [|] d; [|done]. intros _ [= <-]. by exists nilNode. }
  intros secret e d Hr Hd. destruct kind; cbn in Hd.
  5:{ by eapply reopen_scalar. }
  all: destruct e as [|kind' tag' value' style' meta' content']; [done|];
    cbn in Hr; destruct Hr as (-> & -> & -> & Hr).
  - injection Hr as -> -> ->. eexists. split; [exact Hd|by apply rewritten_refl].
  - apply bind_Ok_inv in Hd as (l & El & [= <-]). destruct Hr as [[= -> ->] Hr].
    destruct (reopen_children _ _ _ _ IH Hr El) as (l' & El' & Hl').
    cbn. rewrite El'. eexists. split; [done|]. cbn. auto 10.
  - apply bind_Ok_inv in Hd as (l & El & [= <-]). destruct Hr as [[= -> ->] Hr].
    destruct (reopen_children _ _ _ _ IH Hr El) as (l' & El' & Hl').
    cbn. rewrite El'. eexists. split; [done|]. cbn. auto 10.
  - apply bind_Ok_inv in Hd as (l & El & [= <-]). destruct Hr as [[= -> ->] Hr].
    destruct (reopen_values _ _ _ IH Hr El) as (l' & El' & Hl').
    cbn. rewrite El'. eexists. split; [done|]. cbn. auto 10.
  - injection Hr as -> -> ->. eexists. split; [exact Hd|by apply rewritten_refl].
Qed.
End decrypt_walk.

(** ** Facts the properties share *)

(** The counters after a walk over secrets [vs]. *)
Definition counted {Ev W C} `{Crypter Ev W C} (c : C) (vs : list gostring) (s : Stats) : Stats :=
  {| Encrypted := Encrypted s +! cnt (λ v, negb (IsEncrypted c v)) vs;
     Skipped := Skipped s +! cnt (IsEncrypted c) vs |}%go.
Definition counters_ok (st : option Stats) : Prop :=
  ∀ s, st = Some s → in_int64 (Encrypted s) ∧ in_int64 (Skipped s).

Lemma bump_counted {Ev W C} `{Crypter Ev W C} (c : C) vs st :
  counters_ok st → bump c vs st = counted c vs <$> st.
Proof.
  destruct st as [s|]; [|done]. intros Hst. destruct (Hst s eq_refl) as [He Hs]. clear Hst.
  unfold bump. simpl. f_equal. unfold counted. revert s He Hs.
  induction vs as [|v vs IH]; intros s He Hs; simpl.
  { rewrite !Z.add_0_r, !wrap64_id by done. by destruct s. }
  rewrite IH by (unfold bump1; destruct (IsEncrypted c v); simpl; auto using wrap64_range).
  unfold bump1. destruct (IsEncrypted c v); simpl; f_equal;
    rewrite ?wrap64_add_l; f_equal; lia.
Qed.

Lemma rewritten_keyed isSecret R secret n n' :
  rewritten isSecret R secret n n' → keyed n' = keyed n.
Proof.
  revert secret n'. induction n as [|kind tag value style meta content IH] using Node_ind'.
  { by intros secret []. }
  intros secret [|kind' tag' value' style' meta' content']; [done|]. cbn.
  intros (-> & -> & -> & Hk).
  pose proof (λ b, all2_forallb keyed _ b content content' IH) as H2.
  destruct kind; try done.
  - destruct Hk as [_ Hk]. eauto.
  - destruct Hk as [_ Hk]. eauto.
  - destruct Hk as [_ Hk]. clear H2. revert content' Hk.
    induction content as [|k|k v l IHl] using pairs_ind; intros content'; [by intros ->..|].
    rewrite !Forall_cons in IH. destruct IH as (_ & Hv & IH). specialize (IHl IH).
    destruct content' as [|k' [|v' l']]; [done..|]. intros (-> & Hr & Hrs).
    by rewrite (Hv _ _ Hr), (IHl _ Hrs).
Qed.

Lemma sealed_values {Ev W C} `{Crypter Ev W C} (c : C) vs vs' :
  Forall2 (sealed_value c) vs vs' → Forall (λ v, IsEncrypted c v = true) vs'.
Proof.
  intros Hs. eapply Forall2_Forall_r; [exact Hs|]. apply Forall_true. intros x y.
  unfold sealed_value. destruct (IsEncrypted c x) eqn:Hx; naive_solver.
Qed.

(** A document without ciphertexts is left as it is. *)
Lemma decrypt_walk_plain {Ev W C} `{Crypter Ev W C} (c : C) n :
  Forall (λ x, IsEncrypted c x.1 = false) (strings n) → decrypt_walk c n = Ok n.
Proof.
  induction n as [|kind tag value style meta content IH] using Node_ind'; [done|].
  assert (Forall (λ x, IsEncrypted c x.1 = false) (concat (map strings content)) →
          children_with (decrypt_walk c) content = Ok content) as Hc.
  { induction IH as [|n l Hn _ IHl]; simpl; [done|]. rewrite Forall_app. intros [??].
    by rewrite Hn, IHl. }
  assert (Forall (λ x, IsEncrypted c x.1 = false) (map_pairs (λ _, strings) content) →
          decrypt_values_with (decrypt_walk c) content = Ok content) as Hv.
  { clear Hc. induction content as [|k|k v l IHl] using pairs_ind; simpl; [done..|].
    rewrite !Forall_cons in IH. destruct IH as (_ & Hv & IH).
    rewrite Forall_app. intros [??]. rewrite Hv by done. simpl. by rewrite IHl. }
  destruct kind; simpl; intros Hp; rewrite ?Hc, ?Hv by done; try done.
  case_decide; [|by rewrite decide_True].
  rewrite decide_False by tauto. rewrite Forall_singleton in Hp. simpl in Hp. by rewrite Hp.
Qed.

(** ** Properties *)
Section properties.
Context {Ev W C : Type} `{CrypterLaws Ev W C}.
Variable c : C.
Variable isSecret : gostring → bool.
Variable Unmarshal : gostring → result error Node.
Variable Marshal : Node → result error gostring.

(** C24: [EncryptBytes] of a document: the output is the same document, but for its
    secrets: each secret that was not yet encrypted is replaced by a
    double-quoted ciphertext that decrypts to it, and counted as encrypted; the
    others are left as they are, and counted as skipped.  It fails only if the
    crypter fails on one of the secrets, with that error, or if the re-encoding
    does. *)
Theorem EncryptBytes_spec b n w st :
  b ≠ [] → Unmarshal b = Ok n → is_zero n = false → keyed n = true →
  counters_ok st → crypter_ok c w →
  let '(r, t, (w', st')) :=
    EncryptBytes Unmarshal Marshal b (Some isSecret) c (w, st) in
  (∃ e, rewritten isSecret (sealed c) false n e
     ∧ st' = counted c (secrets isSecret false n) <$> st
     ∧ Forall (λ v, IsEncrypted c v = true) (secrets isSecret false e)
     ∧ r = match Marshal e with
           | Err err => Err (Errorf 0 "%w: %w" [ErrYAMLEncode; err])
           | m => m
           end)
  ∨ ∃ v w0 err, v ∈ secrets isSecret false n ∧ IsEncrypted c v = false
     ∧ val (Encrypt c v w0) = Err err ∧ r = Err err.
Proof using Type.
  intros Hb Hu Hz Hkey Hst Hw. unfold EncryptBytes.
  rewrite decide_False, Hu, Hz by done. unfold try.
  pose proof (proj1 (walk_meets c isSecret n) w st Hw) as Hm.
  destruct (walk c isSecret n (w, st)) as [[r t] [w' st']] eqn:Ew.
  rewrite (comp_bind_unfold _ _ _ _ _ _ Ew). destruct r as [e|err|s]; cbn.
  - destruct Hm as (_ & -> & Hr & _).
    pose proof (sealed_values c _ _ (rewritten_secrets c isSecret n false e Hr)) as Hs.
    rewrite bump_counted by done. destruct (Marshal e) eqn:Em; cbn; left; exists e; by rewrite Em.
  - right. destruct Hm as (v & w0 & ? & ? & ?). eauto 10.
  - congruence.
Qed.

(** C31: Encrypting twice: the second walk over the encrypted document changes
    nothing, asks the crypter for nothing, and counts every secret as skipped. *)
Theorem encrypt_idempotent n e t w st w' st' st2 :
  crypter_ok c w → keyed n = true →
  walk c isSecret n (w, st) = (Ok e, t, (w', st')) →
  walk c isSecret e (w', st2) = (Ok e, [], (w', bump c (secrets isSecret false e) st2))
  ∧ Forall (λ v, IsEncrypted c v = true) (secrets isSecret false e)
  ∧ length (secrets isSecret false e) = length (secrets isSecret false n).
Proof using Type.
  intros Hw Hkey Ew. pose proof (proj1 (walk_meets c isSecret n) w st Hw) as Hm.
  rewrite Ew in Hm. destruct Hm as (Hw' & _ & Hr & _).
  pose proof (rewritten_secrets c isSecret n false e Hr) as Hs.
  assert (Forall (λ v, IsEncrypted c v = true) (secrets isSecret false e)) as Henc
    by (by eapply sealed_values).
  split; [|split; [done|symmetry; by eapply Forall2_length]].
  pose proof (proj1 (walk_meets c isSecret e) w' st2 Hw') as Hm.
  destruct (walk c isSecret e (w', st2)) as [[r t'] [w'' st'']]. destruct r as [e'|err|s].
  - destruct Hm as (_ & -> & Hr' & Hq). destruct (Hq Henc) as [-> ->].
    by rewrite (rewritten_id c isSecret e false e' Henc Hr').
  - destruct Hm as (v & w0 & Hv & Hne & _). rewrite Forall_forall in Henc.
    specialize (Henc v Hv). congruence.
  - rewrite (rewritten_keyed _ _ _ _ _ Hr) in Hm. congruence.
Qed.

(** C6: Decrypting what was encrypted.  If the original document decrypts to [d],
    the encrypted one decrypts to the same document up to the style of its
    secrets; a document that holds no ciphertext comes back itself. *)
Theorem decrypt_encrypt n e d t w st w' st' :
  crypter_ok c w →
  walk c isSecret n (w, st) = (Ok e, t, (w', st')) →
  decrypt_walk c n = Ok d ∨ (Forall (λ x, IsEncrypted c x.1 = false) (strings n) ∧ d = n) →
  ∃ d', decrypt_walk c e = Ok d' ∧ rewritten isSecret same_value false d d'.
Proof using Type.
  intros Hw Ew Hd. pose proof (proj1 (walk_meets c isSecret n) w st Hw) as Hm.
  rewrite Ew in Hm. destruct Hm as (_ & _ & Hr & _).
  apply (reopen c isSecret n false e d Hr).
  destruct Hd as [Hd|[Hp ->]]; [done|by apply decrypt_walk_plain].
Qed.

(** C32: [DecryptBytes] is strict.  What it returns is the input unchanged, if that
    is empty, holds no start tag or no document, or else the same document with
    every ciphertext opened: no string of it still looks encrypted, the other
    strings and their style are untouched.  It fails with [ErrYAMLDecrypt] when
    some string cannot be opened, and it does not panic unless yaml.v3 does. *)
Theorem DecryptBytes_strict b :
  match DecryptBytes Unmarshal Marshal b c with
  | Ok out =>
      (out = b ∧ (b = [] ∨ Contains b (StartTag c) = false
                  ∨ ∃ n, Unmarshal b = Ok n ∧ is_zero n = true))
      ∨ ∃ n d, Unmarshal b = Ok n ∧ Marshal d = Ok out ∧ skeleton d = skeleton n
          ∧ Forall2 (opened c) (strings n) (strings d)
          ∧ Forall (λ x, IsEncrypted c x.1 = false) (strings d)
  | Err err =>
      (∃ e, Unmarshal b = Err e ∧ err = Errorf 0 "%w: %w" [ErrYAMLDecode; e])
      ∨ (∃ n, Unmarshal b = Ok n ∧ Exists (broken c) (strings n)
              ∧ errors_is err ErrYAMLDecrypt = true)
      ∨ ∃ d e, Marshal d = Err e ∧ err = Errorf 0 "%w: %w" [ErrYAMLEncode; e]
  | Panic _ => is_Panic (Unmarshal b) = true ∨ ∃ d, is_Panic (Marshal d) = true
  end.
Proof using H0.
  clear isSecret. unfold DecryptBytes. case_decide; [auto|].
  destruct (Contains b (StartTag c)); simpl; [|auto].
  destruct (Unmarshal b) as [n|e|s] eqn:Hu; simpl; [|eauto..].
  destruct (is_zero n) eqn:Hz; [left; eauto 10|].
  pose proof (decrypt_walk_opens c n) as Ho.
  destruct (decrypt_walk c n) as [d|err|s]; simpl in *; [|right; left; naive_solver|done].
  destruct (Marshal d) as [out|e|s] eqn:Em; [|eauto 10|right; exists d; by rewrite Em].
  right. exists n, d. destruct Ho as [Ho ?]. split_and?; try done.
  eapply Forall2_Forall_r; [exact Ho|]. apply Forall_true. intros x y. unfold opened.
  destruct (IsEncrypted c x.1) eqn:Hx; naive_solver.
Qed.
End properties.


(** ** [crypter.Crypter] is such a crypter *)

Lemma HasPrefix_app p s : HasPrefix (p ++ s) p = true.
Proof. apply bool_decide_eq_true. apply take_app_length. Qed.

Lemma Contains_prefix p s : Contains (p ++ s) p = true.
Proof.
  unfold Contains. destruct (p ++ s) as [|x l] eqn:E; cbn [Cut]; rewrite <-E, HasPrefix_app; done.
Qed.

(** A text that lacks the first byte of [sub] does not contain it. *)
Lemma Contains_head_absent s x sub : Forall (λ y, y ≠ x) s → Contains s (x :: sub) = false.
Proof.
  unfold Contains. induction 1 as [|y s Hy _ IH]; [done|]. cbn [Cut].
  unfold HasPrefix at 1. rewrite bool_decide_eq_false_2 by (cbn; congruence).
  destruct (Cut s (x :: sub)) as [b [a|]]; done.
Qed.

(** What [Encrypt] writes is neither a boolean nor a template: it starts with
    an [E], which no boolean does, and has no brace. *)
Lemma tagged_not_exempt raw :
  exempt (Crypter.StartTag ++ EncodeToString raw ++ EndTag) = false.
Proof.
  unfold exempt. apply orb_false_iff. split.
  - apply bool_decide_eq_false. intros Hin.
    assert (Forall (λ l, head l ≠ Some "e"%char) yamlBoolLiterals) as Hl by (repeat constructor; done).
    rewrite Forall_forall in Hl. apply (Hl _ Hin). unfold ToLower.
    by rewrite (segs_cons _ 69 1).
  - apply Contains_head_absent. apply Forall_app. split; [repeat constructor; done|].
    apply Forall_app. split; [|repeat constructor; done].
    eapply Forall_impl; [apply EncodeToString_no_brace|]. by intros y Hy ->.
Qed.

Section instance.
Context {C R : Type} `{AEADLaws C}.
Variable rng : Rand R.
Variable pick : R → list gostring → option nat.

(** The crypters [crypter.New] returns. *)
Definition made : Type := {c : Crypter.Crypter C | well_formed c}.

Definition kit_crypter : Crypter event (R * list gostring) made := {|
  Encrypt c := Crypter.Encrypt rng pick (`c);
  Decrypt c := Crypter.Decrypt (`c);
  IsEncrypted _ := Crypter.IsEncrypted;
  StartTag _ := Crypter.StartTag;
|}.

Lemma kit_encrypt_ok : rand_ok rng → ∀ (c : made) v w enc t w',
  pool_ok (`c) w → Crypter.IsEncrypted v = false →
  Crypter.Encrypt rng pick (`c) v w = (Ok enc, t, w') →
  pool_ok (`c) w' ∧ Crypter.IsEncrypted enc = true ∧ Crypter.Decrypt (`c) enc = Ok v
  ∧ exempt enc = false.
Proof using H0.
  intros Hrng [c Hc] v w enc t w' Hw Hv Henc. simpl in *.
  destruct (Encrypt_Ok rng Hrng pick c Hc w v enc t w' Hw Hv Henc) as (? & ? & ? & raw & ->).
  auto using tagged_not_exempt.
Qed.

Definition kit_crypter_laws (Hrng : rand_ok rng) :
    CrypterLaws event (R * list gostring) made (H := kit_crypter).
Proof using All.
  refine {| crypter_ok := λ c w, pool_ok (`c) w |}.
  - exact (kit_encrypt_ok Hrng).
  - intros [c Hc] v w Hw. exact (Encrypt_no_panic rng Hrng pick c Hc w v Hw).
  - intros [c Hc] v. exact (Decrypt_no_panic c Hc v).
  - intros c v Hv. apply IsEncrypted_inv in Hv as (t & -> & _). apply Contains_prefix.
Defined.
End instance.

(** ** Witnesses *)

#[local] Instance toy : Crypter event (nat * list gostring) made := kit_crypter toy_rng toy_pick.
#[local] Instance toy_ok : CrypterLaws event (nat * list gostring) made :=
  kit_crypter_laws toy_rng toy_pick toy_rng_ok.
Definition toy_made : made := toy_crypter ↾ eq_refl.

Definition no_meta : NodeMeta := Build_NodeMeta [] [] [] [] 0 0.
Definition leaf (value : string) : Node := mkNode ScalarNode str_tag (str value) 0 no_meta [].
Definition toy_doc (value : Node) : Node :=
  mkNode DocumentNode [] [] 0 no_meta
    [mkNode MappingNode (str "!!map") [] 0 no_meta [leaf "password"; value; leaf "user"; leaf "bob"]].
Definition toy_secret (key : gostring) : bool := bool_decide (key = str "password").
(** A printer and a parser for documents of this shape only. *)
Definition toy_Marshal (n : Node) : result error gostring :=
  match n with
  | mkNode DocumentNode _ _ _ _ [mkNode MappingNode _ _ _ _ [_; mkNode ScalarNode _ v _ _ _; _; _]] =>
      Ok v
  | _ => Err (errors_new "yaml")
  end.
Definition toy_Unmarshal (b : gostring) : result error Node :=
  Ok (toy_doc (mkNode ScalarNode str_tag b 0 no_meta [])).

Definition toy_enc : string := "ENCv1[BwdoaUs]".
Definition toy_in : gostring := str "hi".

Lemma EncryptBytes_spec_witness :
  let st := Some {| Encrypted := 0; Skipped := 0 |} in
  EncryptBytes toy_Unmarshal toy_Marshal toy_in (Some toy_secret) toy_made ((7%nat, []), st)
  = (Ok (str toy_enc), [ERead [chr 7; chr 7]; ESeal [chr 7; chr 7] toy_in],
     ((8%nat, [[chr 7; chr 7]]), Some {| Encrypted := 1; Skipped := 0 |}))
  ∧ ∃ e, rewritten toy_secret (sealed toy_made) false (toy_doc (leaf "hi")) e
         ∧ Ok (str toy_enc) = toy_Marshal e.
Proof.
  intros st. assert (EncryptBytes toy_Unmarshal toy_Marshal toy_in (Some toy_secret) toy_made
    ((7%nat, []), st) = (Ok (str toy_enc), [ERead [chr 7; chr 7]; ESeal [chr 7; chr 7] toy_in],
     ((8%nat, [[chr 7; chr 7]]), Some {| Encrypted := 1; Skipped := 0 |}))) as E
    by (vm_compute; reflexivity).
  split; [exact E|].
  pose proof (EncryptBytes_spec toy_made toy_secret toy_Unmarshal toy_Marshal toy_in
    (toy_doc (leaf "hi")) (7%nat, []) st
    ltac:(done) ltac:(reflexivity) ltac:(reflexivity) ltac:(reflexivity)
    ltac:(intros s [= <-]; done) ltac:(constructor)) as Hs.
  rewrite E in Hs. destruct Hs as [(e & Hr & _ & _ & Hm)|(v & w0 & err & _ & _ & _ & Hm)];
    [|discriminate Hm].
  exists e. split; [exact Hr|]. destruct (toy_Marshal e); [exact Hm|discriminate Hm..].
Defined.

Lemma encrypt_idempotent_witness :
  walk toy_made toy_secret (toy_doc (mkNode ScalarNode str_tag (str toy_enc) 2 no_meta [])) ((8%nat, [[chr 7; chr 7]]), Some {| Encrypted := 0; Skipped := 0 |})
  = (Ok (toy_doc (mkNode ScalarNode str_tag (str toy_enc) 2 no_meta [])), [],
     ((8%nat, [[chr 7; chr 7]]), Some {| Encrypted := 0; Skipped := 1 |})).
Proof.
  assert (walk toy_made toy_secret (toy_doc (leaf "hi")) ((7%nat, []), None)
    = (Ok (toy_doc (mkNode ScalarNode str_tag (str toy_enc) 2 no_meta [])),
       [ERead [chr 7; chr 7]; ESeal [chr 7; chr 7] (str "hi")], ((8%nat, [[chr 7; chr 7]]), None)))
    as Hwalk by (vm_compute; reflexivity).
  exact (proj1 (encrypt_idempotent toy_made toy_secret (toy_doc (leaf "hi")) _ _ (7%nat, []) None _ None
    (Some {| Encrypted := 0; Skipped := 0 |}) (Forall_nil_2 _) eq_refl Hwalk)).
Defined.

Lemma decrypt_encrypt_witness :
  ∃ d', decrypt_walk toy_made (toy_doc (mkNode ScalarNode str_tag (str toy_enc) 2 no_meta [])) = Ok d'
    ∧ rewritten toy_secret same_value false (toy_doc (leaf "hi")) d'.
Proof.
  apply (decrypt_encrypt toy_made toy_secret (toy_doc (leaf "hi"))
    (toy_doc (mkNode ScalarNode str_tag (str toy_enc) 2 no_meta [])) (toy_doc (leaf "hi"))
    [ERead [chr 7; chr 7]; ESeal [chr 7; chr 7] (str "hi")] (7%nat, []) None
    (8%nat, [[chr 7; chr 7]]) None); [constructor|vm_compute; reflexivity|].
  right. split; [repeat constructor|reflexivity].
Defined.

(** A ciphertext under another key is refused. *)
Lemma DecryptBytes_strict_witness :
  let b := str "ENCv1[BwdoaUw]" in
  (∃ err, DecryptBytes toy_Unmarshal toy_Marshal b toy_made = Err err)
  ∧ Exists (broken toy_made) (strings (toy_doc (mkNode ScalarNode str_tag b 0 no_meta []))).
Proof.
  intros b. pose proof (DecryptBytes_strict toy_made toy_Unmarshal toy_Marshal b) as Hs.
  destruct (DecryptBytes toy_Unmarshal toy_Marshal b toy_made) as [out|err|s] eqn:E;
    [vm_compute in E; discriminate E| |vm_compute in E; discriminate E].
  split; [by exists err|]. destruct Hs as [(e & He & _)|[(n & Hn & Hb & _)|(d & e & _ & ->)]].
  - discriminate He.
  - injection Hn as <-. exact Hb.
  - vm_compute in E. discriminate E.
Defined.
