(* ===== verification/WorkPool.v ===== *)
(** * workpool: a fixed set of workers over a channel (workpool/workpool.go)

    Callers of [Do], the one caller of [Run] that wins the compare-and-swap,
    and the workers are goroutines that interleave: every atomic operation,
    channel operation and [WaitGroup] operation is one step.  A panic that
    nothing recovers ends the program. *)
From Stdlib Require Import String.
From S2P Require Export Prelude.
Local Open Scope Z_scope.

(** ** Data *)

(** A task is known by a number; what it does besides returning or panicking
    is outside the pool. *)
Definition task := nat.

(** [chan Task]: the buffered values, oldest first. *)
Record channel := { buf : list task; capacity : Z; chan_closed : bool }.

(** Where a call of [Do] is: before [AddInt32], before [wg.Add], before the
    send, returned. *)
Inductive producer :=
  | PIncr (t : task)
  | PAdd (t : task)
  | PSend (t : task)
  | PRet.

(** Where the call of [Run] that closed the pool is: about to [wg.Wait],
    parked in it, woken in it, about to close the queue, returned. *)
Inductive runner := RWait | RParked | RWoken | RClose | RRet.

(** Where a worker is: receiving, in the task, before [AddInt32], before
    [wg.Done], returned. *)
Inductive worker :=
  | WRecv
  | WExec (t : task)
  | WDecr (t : task)
  | WDone (t : task)
  | WExit.

#[export] Instance producer_eq_dec : EqDecision producer.
Proof. solve_decision. Defined.
#[export] Instance runner_eq_dec : EqDecision runner.
Proof. solve_decision. Defined.
#[export] Instance worker_eq_dec : EqDecision worker.
Proof. solve_decision. Defined.

Record WorkPool := {
  queue : channel;
  wg : Z;                      (* the counter of the [sync.WaitGroup] *)
  closed : bool;
  running : Z;                 (* int32 *)
  producers : list producer;
  run : option runner;
  workers : list worker;
  accepted : list task;        (* the tasks [Do] did not drop *)
  ran : list task;             (* the tasks that were run, latest first *)
  printed : list task;         (* the panics recovered *)
}.

(** ** Construction *)

(** [make(chan Task, n)]; [max_chan] is the longest buffer the allocator has
    room for. *)
Definition make_chan {E} (max_chan n : Z) : result E channel :=
  if decide (n < 0 ∨ max_chan < n) then Panic "makechan: size out of range"
  else Ok {| buf := []; capacity := n; chan_closed := false |}.

Definition startWorkers (n : Z) : list worker := replicate (Z.to_nat n) WRecv.

Definition New {E} (max_chan workers : Z) (optionalBufferSize : list Z) : result E WorkPool :=
  let workers := if workers <? 1 then 1 else workers in
  let bufferSize := (workers *! 100 +! 1)%go in
  let bufferSize := default bufferSize (head optionalBufferSize) in
  q ← make_chan max_chan bufferSize;
  Ok {| queue := q; wg := 0; closed := false; running := 0; producers := []; run := None;
        workers := startWorkers workers; accepted := []; ran := []; printed := [] |}.

(** ** Updates of single fields *)

Definition set_queue (q : channel) (s : WorkPool) : WorkPool :=
  {| queue := q; wg := wg s; closed := closed s; running := running s;
     producers := producers s; run := run s; workers := workers s;
     accepted := accepted s; ran := ran s; printed := printed s |}.
Definition set_wg (n : Z) (s : WorkPool) : WorkPool :=
  {| queue := queue s; wg := n; closed := closed s; running := running s;
     producers := producers s; run := run s; workers := workers s;
     accepted := accepted s; ran := ran s; printed := printed s |}.
Definition set_running (n : Z) (s : WorkPool) : WorkPool :=
  {| queue := queue s; wg := wg s; closed := closed s; running := n;
     producers := producers s; run := run s; workers := workers s;
     accepted := accepted s; ran := ran s; printed := printed s |}.
Definition set_producer (i : nat) (p : producer) (s : WorkPool) : WorkPool :=
  {| queue := queue s; wg := wg s; closed := closed s; running := running s;
     producers := <[i := p]> (producers s); run := run s; workers := workers s;
     accepted := accepted s; ran := ran s; printed := printed s |}.
Definition set_worker (j : nat) (w : worker) (s : WorkPool) : WorkPool :=
  {| queue := queue s; wg := wg s; closed := closed s; running := running s;
     producers := producers s; run := run s; workers := <[j := w]> (workers s);
     accepted := accepted s; ran := ran s; printed := printed s |}.
Definition set_run (r : option runner) (s : WorkPool) : WorkPool :=
  {| queue := queue s; wg := wg s; closed := closed s; running := running s;
     producers := producers s; run := r; workers := workers s;
     accepted := accepted s; ran := ran s; printed := printed s |}.

(** ** The channel and the [WaitGroup]

    [Err ()] is a goroutine that cannot go on. *)

Definition send (t : task) (s : WorkPool) : result () WorkPool :=
  let q := queue s in
  if chan_closed q then Panic "send on closed channel" else
  if decide (Z.of_nat (length (buf q)) < capacity q)
  then Ok (set_queue {| buf := buf q ++ [t]; capacity := capacity q; chan_closed := false |} s)
  else Err ().

Definition close (s : WorkPool) : result () WorkPool :=
  let q := queue s in
  if chan_closed q then Panic "close of closed channel"
  else Ok (set_queue {| buf := buf q; capacity := capacity q; chan_closed := true |} s).

(** [wg.Add(delta)]: when the counter drops to zero, who waits is woken. *)
Definition wg_Add (delta : Z) (s : WorkPool) : result () WorkPool :=
  let v := wrap32 (wg s + delta) in
  if v <? 0 then Panic "sync: negative WaitGroup counter" else
  let s := set_wg v s in
  if decide (v = 0 ∧ run s = Some RParked) then Ok (set_run (Some RWoken) s) else Ok s.

(** ** The methods, step by step *)

(** The first step of [Do]: the load of [closed]. *)
Definition Do_call (t : task) (s : WorkPool) : WorkPool :=
  if closed s then s
  else {| queue := queue s; wg := wg s; closed := closed s; running := running s;
          producers := producers s ++ [PIncr t]; run := run s; workers := workers s;
          accepted := accepted s ++ [t]; ran := ran s; printed := printed s |}.

Definition Do_step (i : nat) (s : WorkPool) : result () WorkPool :=
  match producers s !! i with
  | Some (PIncr t) => Ok (set_producer i (PAdd t) (set_running (wrap32 (running s + 1)) s))
  | Some (PAdd t) => set_producer i (PSend t) <$> wg_Add 1 s
  | Some (PSend t) => set_producer i PRet <$> send t s
  | Some PRet | None => Err ()
  end.

(** A send that a waiting receiver takes from the sender's hand: the only way
    through a channel without a buffer. *)
Definition Do_handoff (i j : nat) (s : WorkPool) : result () WorkPool :=
  match producers s !! i, workers s !! j with
  | Some (PSend t), Some WRecv =>
      if decide (chan_closed (queue s) = false ∧ buf (queue s) = [])
      then Ok (set_producer i PRet (set_worker j (WExec t) s)) else Err ()
  | _, _ => Err ()
  end.

(** The first step of [Run]: the compare-and-swap. *)
Definition Run_call (s : WorkPool) : WorkPool :=
  if closed s then s
  else {| queue := queue s; wg := wg s; closed := true; running := running s;
          producers := producers s; run := Some RWait; workers := workers s;
          accepted := accepted s; ran := ran s; printed := printed s |}.

Definition Run_step (s : WorkPool) : result () WorkPool :=
  match run s with
  | Some RWait => Ok (set_run (Some (if decide (wg s = 0) then RClose else RParked)) s)
  | Some RWoken =>
      if decide (wg s = 0) then Ok (set_run (Some RClose) s)
      else Panic "sync: WaitGroup is reused before previous Wait has returned"
  | Some RClose => set_run (Some RRet) <$> close s
  | Some RParked | Some RRet | None => Err ()
  end.

Definition IsRunning (s : WorkPool) : bool := 0 <? running s.

(** One step of a worker; [panics] tells how the task ends. *)
Definition worker_step (j : nat) (panics : bool) (s : WorkPool) : result () WorkPool :=
  match workers s !! j with
  | Some WRecv =>
      match buf (queue s) with
      | t :: ts =>
          Ok (set_worker j (WExec t) (set_queue {| buf := ts; capacity := capacity (queue s);
                chan_closed := chan_closed (queue s) |} s))
      | [] => if chan_closed (queue s) then Ok (set_worker j WExit s) else Err ()
      end
  | Some (WExec t) =>
      Ok {| queue := queue s; wg := wg s; closed := closed s; running := running s;
            producers := producers s; run := run s; workers := <[j := WDecr t]> (workers s);
            accepted := accepted s; ran := t :: ran s;
            printed := if panics then t :: printed s else printed s |}
  | Some (WDecr t) => Ok (set_worker j (WDone t) (set_running (wrap32 (running s - 1)) s))
  | Some (WDone t) => set_worker j WRecv <$> wg_Add (-1) s
  | Some WExit | None => Err ()
  end.

Inductive action :=
  | CallDo (t : task)
  | CallRun
  | StepDo (i : nat)
  | HandOff (i j : nat)
  | StepRun
  | StepWorker (j : nat) (panics : bool).

Definition step (a : action) (s : WorkPool) : result () WorkPool :=
  match a with
  | CallDo t => Ok (Do_call t s)
  | CallRun => Ok (Run_call s)
  | StepDo i => Do_step i s
  | HandOff i j => Do_handoff i j s
  | StepRun => Run_step s
  | StepWorker j panics => worker_step j panics s
  end.

Fixpoint steps (tr : list action) (s : WorkPool) : result () WorkPool :=
  match tr with
  | [] => Ok s
  | a :: tr => s ← step a s; steps tr s
  end.

(** The package's rule: no call of [Do] is under way when [Run] is called. *)
Definition all_returned (s : WorkPool) : Prop := Forall (λ p, p = PRet) (producers s).

Inductive reachable (max_chan n : Z) (opt : list Z) : WorkPool → Prop :=
  | reach_New s : New (E:=()) max_chan n opt = Ok s → reachable max_chan n opt s
  | reach_step a s s' :
      reachable max_chan n opt s → (a = CallRun → all_returned s) →
      step a s = Ok s' → reachable max_chan n opt s'.

(** ** Accounting *)

Definition p_sending (p : producer) : bool := match p with PSend _ => true | _ => false end.
Definition p_counted (p : producer) : bool :=
  match p with PAdd _ | PSend _ => true | _ => false end.
Definition p_has (t : task) (p : producer) : bool :=
  match p with PIncr u | PAdd u | PSend u => bool_decide (u = t) | PRet => false end.
Definition w_busy (w : worker) : bool :=
  match w with WExec _ | WDecr _ | WDone _ => true | _ => false end.
Definition w_counted (w : worker) : bool :=
  match w with WExec _ | WDecr _ => true | _ => false end.
Definition w_has (t : task) (w : worker) : bool :=
  match w with WExec u => bool_decide (u = t) | _ => false end.
Definition is_task (t u : task) : bool := bool_decide (u = t).

(** What each phase of [Run] knows. *)
Definition phase_ok (s : WorkPool) : Prop :=
  match run s with
  | None => closed s = false ∧ chan_closed (queue s) = false
  | Some r =>
      closed s = true ∧ all_returned s ∧
      match r with
      | RWait => chan_closed (queue s) = false
      | RParked => chan_closed (queue s) = false ∧ 0 < wg s
      | RWoken | RClose => chan_closed (queue s) = false ∧ wg s = 0
      | RRet => chan_closed (queue s) = true ∧ wg s = 0
      end
  end.

Record inv (n : Z) (s : WorkPool) : Prop := {
  inv_workers : Z.of_nat (length (workers s)) = Z.max 1 n;
  inv_capacity : 0 ≤ capacity (queue s);
  inv_wg : wg s = cnt p_sending (producers s) + Z.of_nat (length (buf (queue s)))
                  + cnt w_busy (workers s);
  inv_wg_max : wg s < 2 ^ 31;
  inv_running : running s = wrap32 (cnt p_counted (producers s)
                  + Z.of_nat (length (buf (queue s))) + cnt w_counted (workers s));
  inv_tasks : ∀ t, cnt (is_task t) (accepted s)
                   = cnt (p_has t) (producers s) + cnt (is_task t) (buf (queue s))
                     + cnt (w_has t) (workers s) + cnt (is_task t) (ran s);
  inv_phase : phase_ok s;
  inv_exit : chan_closed (queue s) = false → Forall (λ w, w ≠ WExit) (workers s);
}.

(** The counter of the [WaitGroup] never wraps silently. *)
Lemma wrap32_step x d : 0 ≤ x < 2 ^ 31 → -1 ≤ d ≤ 1 → 0 ≤ wrap32 (x + d) → wrap32 (x + d) = x + d.
Proof.
  intros Hx Hd Hw. destruct (decide (x + d < 2 ^ 31)); [apply wrap32_id; lia|].
  unfold wrap32 in *. replace (x + d + 2 ^ 31) with (0 + 1 * 2 ^ 32) in * by lia.
  rewrite Z.mod_add in Hw by lia. rewrite Z.mod_0_l in Hw by lia. lia.
Qed.

Lemma inv_New max_chan n opt s : New (E:=()) max_chan n opt = Ok s → inv n s.
Proof.
  unfold New, make_chan, startWorkers. intros Hn. inv_ok.
  case_decide; [done|]. simplify_eq/=.
  assert (∀ f k, f WRecv = false → cnt f (replicate k WRecv) = 0) as Hr.
  { intros f k Hf. apply cnt_zero. intros i w [-> _]%lookup_replicate. done. }
  split; simpl; rewrite ?Hr by done; try done.
  - rewrite length_replicate. destruct (n <? 1) eqn:En; lia.
  - lia.
  - intros t. by rewrite Hr.
  - intros _. apply Forall_forall. intros w Hw. apply elem_of_replicate in Hw as [-> _]. done.
Qed.

(** A call of [Do] that is under way excludes [Run]. *)
Lemma inv_producing n s i p :
  inv n s → producers s !! i = Some p → p ≠ PRet →
  run s = None ∧ closed s = false ∧ chan_closed (queue s) = false.
Proof.
  intros Hi Hp Hne. pose proof (inv_phase n s Hi) as Hph. unfold phase_ok in Hph.
  destruct (run s); [|tauto]. destruct Hph as (_ & Hall & _).
  by apply (Forall_lookup_1 _ _ _ _ Hall) in Hp.
Qed.

(** Recounts after an update of one goroutine. *)
Ltac recount :=
  repeat match goal with
  | H : ?l !! ?i = Some ?x |- context [cnt ?f (<[?i:=?y]> ?l)] =>
      rewrite (cnt_insert f l i x y H)
  end;
  rewrite ?cnt_snoc, ?length_app, ?length_insert; simpl.

Lemma inv_Do_call n t s : inv n s → inv n (Do_call t s).
Proof.
  intros Hi. unfold Do_call. destruct (closed s) eqn:Hc; [done|].
  destruct Hi as [? ? ? ? Hr Ht Hph ?].
  split; simpl; rewrite ?cnt_snoc; simpl; rewrite ?Z.add_0_r; try done.
  - intros u. rewrite !cnt_snoc, Ht. simpl. unfold is_task. lia.
  - unfold phase_ok in *. simpl. destruct (run s); [|tauto]. destruct Hph. congruence.
Qed.

(** The accounting fields of [inv] after a step; what is left is the phase. *)
Ltac account Hr Ht :=
  split; simpl;
  [ rewrite ?length_insert; assumption
  | lia
  | recount; lia
  | lia
  | rewrite ?Hr, <-?Z.add_opp_r, ?wrap32_add_l; recount; f_equal; lia
  | intros u; pose proof (Ht u); recount; unfold is_task in *; lia
  | try done
  | try (by auto) ].

Lemma wg_Add_Ok d s s' :
  wg_Add d s = Ok s' → 0 ≤ wg s < 2 ^ 31 → -1 ≤ d ≤ 1 →
  0 ≤ wg s + d < 2 ^ 31 ∧
  s' = let s := set_wg (wg s + d) s in
       if decide (wg s = 0 ∧ run s = Some RParked) then set_run (Some RWoken) s else s.
Proof.
  unfold wg_Add. intros Ha Hwg Hd. destruct (wrap32 (wg s + d) <? 0) eqn:E; [done|].
  pose proof (wrap32_step (wg s) d Hwg Hd) as Hw.
  pose proof (Z.mod_pos_bound (wg s + d + 2 ^ 31) (2 ^ 32)) as Hm.
  apply Z.ltb_ge in E. specialize (Hw E). rewrite Hw in Ha, E.
  unfold wrap32 in Hw. split; [lia|]. revert Ha. simpl.
  case_decide; by intros [= <-].
Qed.

Lemma inv_wg_nonneg n s : inv n s → 0 ≤ wg s.
Proof.
  intros Hi. rewrite (inv_wg n s Hi). pose proof (cnt_nonneg p_sending (producers s)).
  pose proof (cnt_nonneg w_busy (workers s)). lia.
Qed.

Lemma inv_Do_step n i s s' : inv n s → Do_step i s = Ok s' → inv n s'.
Proof.
  intros Hi. pose proof (inv_wg_nonneg n s Hi) as Hnn.
  unfold Do_step. destruct (producers s !! i) as [p|] eqn:Hp; [|done].
  assert (p = PRet ∨ (run s = None ∧ closed s = false ∧ chan_closed (queue s) = false))
    as [->|(Hrun & Hc & Hch)]; [|done|].
  { destruct (decide (p = PRet)); [by left|right; by eapply inv_producing]. }
  destruct Hi as [Hw Hcap Hwg Hmax Hr Ht Hph Hex]. destruct p as [t|t|t|]; [| | |done].
  - intros [= <-]. account Hr Ht. unfold phase_ok. simpl. by rewrite Hrun.
  - destruct (wg_Add 1 s) as [s1| |] eqn:Ha; [|done..]. intros [= <-].
    apply wg_Add_Ok in Ha as [Hb ->]; [|lia..]. simpl.
    rewrite decide_False by (intros [_ ?]; congruence).
    account Hr Ht. unfold phase_ok. simpl. by rewrite Hrun.
  - unfold send. rewrite Hch. case_decide; [|done]. intros [= <-].
    account Hr Ht. unfold phase_ok. simpl. by rewrite Hrun.
Qed.

Lemma inv_Do_handoff n i j s s' : inv n s → Do_handoff i j s = Ok s' → inv n s'.
Proof.
  intros Hi. unfold Do_handoff. destruct (producers s !! i) as [p|] eqn:Hp; [|done].
  destruct p as [t|t|t|]; try done. destruct (workers s !! j) as [[| | | |]|] eqn:Hj; try done.
  case_decide; [|done]. intros [= <-].
  destruct (inv_producing n s i _ Hi Hp) as (Hrun & Hc & Hch); [done|].
  destruct Hi as [Hw Hcap Hwg Hmax Hr Ht Hph Hex].
  account Hr Ht; [unfold phase_ok; simpl; by rewrite Hrun|].
  intros _. apply Forall_insert; auto.
Qed.

Lemma inv_Run_call n s : inv n s → all_returned s → inv n (Run_call s).
Proof.
  intros Hi Hall. unfold Run_call. destruct (closed s) eqn:Hc; [done|].
  destruct Hi as [Hw Hcap Hwg Hmax Hr Ht Hph Hex]. account Hr Ht.
  unfold phase_ok in *. simpl. destruct (run s); [destruct Hph; congruence|]. tauto.
Qed.

Lemma inv_Run_step n s s' : inv n s → Run_step s = Ok s' → inv n s'.
Proof.
  intros Hi. pose proof (inv_wg_nonneg n s Hi) as Hnn.
  pose proof (inv_phase n s Hi) as Hp. unfold phase_ok in Hp. unfold Run_step.
  destruct (run s) as [r|] eqn:Hrun; [|done]. destruct Hp as (Hc & Hall & Hp).
  destruct Hi as [Hw Hcap Hwg Hmax Hr Ht Hph Hex]. destruct r; try done.
  - intros [= <-]. account Hr Ht. unfold phase_ok. simpl. case_decide; split_and?; auto; lia.
  - case_decide; [|done]. intros [= <-]. by account Hr Ht.
  - unfold close. destruct Hp as [Hp ?]. rewrite Hp. intros [= <-].
    by account Hr Ht.
Qed.

Lemma inv_worker_step n j panics s s' : inv n s → worker_step j panics s = Ok s' → inv n s'.
Proof.
  intros Hi. pose proof (inv_wg_nonneg n s Hi) as Hnn. unfold worker_step.
  destruct (workers s !! j) as [w|] eqn:Hj; [|done].
  destruct Hi as [Hw Hcap Hwg Hmax Hr Ht Hph Hex]. destruct w as [|t|t|t|]; [| | | |done].
  - destruct (buf (queue s)) as [|t ts] eqn:Hb.
    + destruct (chan_closed (queue s)) eqn:Hch; [|done]. intros [= <-]. rewrite <-Hb in *.
      account Hr Ht. congruence.
    + intros [= <-]. simpl in *. account Hr Ht. intros ?. apply Forall_insert; auto.
  - intros [= <-]. account Hr Ht. intros ?. apply Forall_insert; auto.
  - intros [= <-]. account Hr Ht. intros ?. apply Forall_insert; auto.
  - destruct (wg_Add (-1) s) as [s1| |] eqn:Ha; [|done..]. intros [= <-].
    apply wg_Add_Ok in Ha as [Hb ->]; [|lia..]. cbn zeta. cbn [wg set_wg run].
    case_decide as Hz.
    + destruct Hz as [Hz Hrun]. account Hr Ht; [|intros ?; apply Forall_insert; auto].
      unfold phase_ok in *. rewrite Hrun in Hph. simpl. tauto.
    + account Hr Ht; [|intros ?; apply Forall_insert; auto].
      unfold phase_ok in *. simpl. destruct (run s) as [[]|] eqn:Hrun; try tauto;
        destruct Hph as (? & ? & ?); split_and?; try tauto; try lia.
      assert (wg s + -1 ≠ 0) by (intros ?; apply Hz; tauto). lia.
Qed.

Lemma pool_inv_step n a s s' :
  inv n s → (a = CallRun → all_returned s) → step a s = Ok s' → inv n s'.
Proof.
  intros Hi Hrule. destruct a as [t| |i|i j| |j panics]; simpl.
  - intros [= <-]. by apply inv_Do_call.
  - intros [= <-]. apply inv_Run_call; auto.
  - by apply inv_Do_step.
  - by apply inv_Do_handoff.
  - by apply inv_Run_step.
  - by apply inv_worker_step.
Qed.

Lemma pool_reachable_inv max_chan n opt s : reachable max_chan n opt s → inv n s.
Proof. induction 1; [by eapply inv_New|by eapply pool_inv_step]. Qed.

(** ** Lists with the same counts *)

Lemma cnt_submseteq l l' : (∀ t, cnt (is_task t) l ≤ cnt (is_task t) l') → l ⊆+ l'.
Proof.
  revert l'. induction l as [|x l IH]; intros l' Hc; [apply submseteq_nil_l|].
  assert (x ∈ l') as [l'' Hl]%elem_of_Permutation.
  { pose proof (Hc x) as Hx. simpl in Hx. unfold is_task in Hx at 1.
    rewrite bool_decide_eq_true_2 in Hx by done. pose proof (cnt_nonneg (is_task x) l).
    simpl in Hx. destruct (cnt_pos_elem (is_task x) l') as (y & Hy & ->%bool_decide_eq_true); [lia|done]. }
  rewrite Hl. apply submseteq_skip, IH. intros t. pose proof (Hc t) as Ht.
  rewrite Hl in Ht. simpl in Ht. lia.
Qed.

(** ** Progress *)

Definition internal (a : action) : Prop :=
  match a with CallDo _ | CallRun => False | _ => True end.

(** Nothing is left to do: every call has returned, no task is queued or under
    way, and once [Run] has returned the workers are gone. *)
Definition quiescent (s : WorkPool) : Prop :=
  all_returned s ∧ buf (queue s) = [] ∧ Forall (λ w, w = WRecv ∨ w = WExit) (workers s)
  ∧ (run s = None ∨ (run s = Some RRet ∧ Forall (λ w, w = WExit) (workers s))).

Definition p_under_way (p : producer) : bool := negb (bool_decide (p = PRet)).
Definition p_fresh (p : producer) : bool := match p with PIncr _ => true | _ => false end.
Definition p_early (p : producer) : bool := match p with PIncr _ | PAdd _ => true | _ => false end.
Definition w_alive (w : worker) : bool := negb (bool_decide (w = WExit)).
Definition w_exec (w : worker) : bool := match w with WExec _ => true | _ => false end.
Definition run_left (r : option runner) : Z :=
  match r with
  | None | Some RRet => 0 | Some RClose => 1 | Some (RWoken | RParked) => 2 | Some RWait => 3
  end.

(** A bound on the steps the goroutines still have to take. *)
Definition steps_left (s : WorkPool) : Z :=
  5 * cnt p_under_way (producers s) + cnt p_early (producers s) + cnt p_fresh (producers s)
  + 4 * Z.of_nat (length (buf (queue s)))
  + cnt w_alive (workers s) + cnt w_busy (workers s) + cnt w_counted (workers s)
  + cnt w_exec (workers s) + run_left (run s).

Lemma steps_left_nonneg s : 0 ≤ steps_left s.
Proof.
  unfold steps_left. pose proof (λ f, cnt_nonneg f (producers s)) as Hp.
  pose proof (λ f, cnt_nonneg f (workers s)) as Hw.
  pose proof (Hp p_under_way). pose proof (Hp p_early). pose proof (Hp p_fresh).
  pose proof (Hw w_alive). pose proof (Hw w_busy). pose proof (Hw w_counted).
  pose proof (Hw w_exec).
  assert (0 ≤ run_left (run s)) by (destruct (run s) as [[]|]; simpl; lia). lia.
Qed.

Lemma wg_Add_frame d s s' : wg_Add d s = Ok s' →
  queue s' = queue s ∧ producers s' = producers s ∧ workers s' = workers s
  ∧ run_left (run s') = run_left (run s).
Proof.
  unfold wg_Add. destruct (_ <? 0); [done|]. case_decide as Hd; intros [= <-]; simpl; [|done].
  destruct Hd as [_ Hr]. simpl in Hr. by rewrite Hr.
Qed.

Lemma internal_step_decreases a s s' :
  internal a → step a s = Ok s' → steps_left s' < steps_left s.
Proof.
  unfold steps_left. destruct a as [| |i|i j| |j panics]; try done; intros _; simpl.
  - unfold Do_step. destruct (producers s !! i) as [[t|t|t|]|] eqn:Hp; try done.
    + intros [= <-]. simpl. recount. lia.
    + destruct (wg_Add 1 s) as [s1| |] eqn:Ha; [|done..]. intros [= <-].
      destruct (wg_Add_frame _ _ _ Ha) as (Hq & Hpr & Hw & Hr). simpl. rewrite Hq, Hpr, Hw, Hr.
      recount. lia.
    + unfold send. destruct (chan_closed _); [done|]. case_decide; [|done]. intros [= <-].
      simpl. recount. lia.
  - unfold Do_handoff. destruct (producers s !! i) as [[t|t|t|]|] eqn:Hp; try done.
    destruct (workers s !! j) as [[| | | |]|] eqn:Hw; try done. case_decide; [|done].
    intros [= <-]. simpl. recount. lia.
  - unfold Run_step. destruct (run s) as [[]|] eqn:Hr; try done.
    + intros [= <-]. simpl. case_decide; simpl; lia.
    + case_decide; [|done]. intros [= <-]. simpl. lia.
    + unfold close. destruct (chan_closed _); [done|]. intros [= <-]. simpl. lia.
  - unfold worker_step. destruct (workers s !! j) as [[|t|t|t|]|] eqn:Hw; try done.
    + destruct (buf (queue s)) as [|t ts] eqn:Hb.
      * destruct (chan_closed _); [|done]. intros [= <-]. simpl. recount. rewrite Hb. simpl. lia.
      * intros [= <-]. simpl. recount. lia.
    + intros [= <-]. simpl. recount. lia.
    + intros [= <-]. simpl. recount. lia.
    + destruct (wg_Add (-1) s) as [s1| |] eqn:Ha; [|done..]. intros [= <-].
      destruct (wg_Add_frame _ _ _ Ha) as (Hq & Hpr & Hw' & Hr). simpl. rewrite Hq, Hpr, Hw', Hr.
      recount. lia.
Qed.

Lemma worker_progress n s j w :
  inv n s → workers s !! j = Some w → w_busy w = true →
  ∃ s', step (StepWorker j false) s = Ok s'.
Proof.
  intros Hi Hj Hb. simpl. unfold worker_step. rewrite Hj. destruct w as [|t|t|t|]; try done; [eauto..|].
  assert (1 ≤ wg s).
  { rewrite (inv_wg n s Hi). pose proof (cnt_ge_1 w_busy _ _ _ Hj Hb).
    pose proof (cnt_nonneg p_sending (producers s)). lia. }
  pose proof (inv_wg_max n s Hi). unfold wg_Add.
  rewrite wrap32_id by lia. destruct (wg s + -1 <? 0) eqn:E; [lia|].
  case_decide; eauto.
Qed.

(** With no worker busy and nothing queued, a call of [Do] can go on, or
    another one can hand its task over. *)
Lemma producer_progress n s i p :
  inv n s → (∀ j w, workers s !! j = Some w → w = WRecv) → buf (queue s) = [] →
  producers s !! i = Some p → p ≠ PRet → ∃ a s', internal a ∧ step a s = Ok s'.
Proof.
  intros Hi Hw Hb Hp Hne. destruct (inv_producing n s i p Hi Hp Hne) as (Hrun & _ & Hch).
  assert (∃ j, workers s !! j = Some WRecv) as [j Hj].
  { destruct (lookup_lt_is_Some_2 (workers s) 0) as [w Hw0].
    { pose proof (inv_workers n s Hi). lia. }
    exists 0%nat. by rewrite Hw0, (Hw _ _ Hw0). }
  assert (∀ i t, producers s !! i = Some (PSend t) → ∃ a s', internal a ∧ step a s = Ok s') as Hsend.
  { intros k t Hk. exists (HandOff k j). simpl. unfold Do_handoff. rewrite Hk, Hj.
    rewrite decide_True by done. eauto. }
  destruct p as [t|t|t|]; [|clear Hne|by eapply Hsend|done].
  - exists (StepDo i). simpl. unfold Do_step. rewrite Hp. eauto.
  - destruct (decide (wg s = 0)) as [Hz|Hz].
    + exists (StepDo i). simpl. unfold Do_step, wg_Add. rewrite Hp, Hz. simpl. eauto.
    + assert (0 < cnt p_sending (producers s)) as (k & q & Hk & Hq)%cnt_pos_inv.
      { pose proof (inv_wg n s Hi) as Hwg. rewrite Hb in Hwg. simpl in Hwg.
        rewrite (cnt_zero w_busy) in Hwg by (intros ? ? Hx; by rewrite (Hw _ _ Hx)).
        pose proof (cnt_nonneg p_sending (producers s)). lia. }
      destruct q; try done. by eapply Hsend.
Qed.

(** When every call has returned and no worker has a task, what is left to do
    is [Run]'s. *)
Lemma wind_down n s :
  inv n s → all_returned s → buf (queue s) = [] →
  (∀ j w, workers s !! j = Some w → w = WRecv ∨ w = WExit) →
  cnt w_busy (workers s) = 0 →
  quiescent s ∨ ∃ a s', internal a ∧ step a s = Ok s'.
Proof.
  intros Hi Hall Hb Hidle Hbusy. pose proof (inv_phase n s Hi) as Hph. unfold phase_ok in Hph.
  assert (Forall (λ w, w = WRecv ∨ w = WExit) (workers s)) as Hw by (apply Forall_lookup_2; eauto).
  assert (wg s = 0) as Hwg.
  { rewrite (inv_wg n s Hi), Hb, Hbusy. simpl. rewrite cnt_zero; [lia|].
    intros i p Hp. by rewrite (Forall_lookup_1 _ _ _ _ Hall Hp). }
  destruct (run s) as [r|] eqn:Hrun; [|left; unfold quiescent; auto].
  destruct r; try (right; exists StepRun; simpl; unfold Run_step; rewrite Hrun; eauto; fail).
  - lia.
  - right. exists StepRun. simpl. unfold Run_step. rewrite Hrun, decide_True by done. eauto.
  - right. exists StepRun. simpl. unfold Run_step, close. rewrite Hrun.
    destruct Hph as (_ & _ & -> & _). eauto.
  - destruct (decide (cnt w_alive (workers s) = 0)) as [Hz|Hz].
    { left. unfold quiescent. split_and?; auto. right. split; [done|]. apply Forall_lookup_2.
      intros j w Hj. pose proof (cnt_zero_inv _ _ _ _ Hz Hj) as Hx.
      by apply negb_false_iff, bool_decide_eq_true in Hx. }
    right. assert (0 < cnt w_alive (workers s)) as (j & w & Hj & Hne)%cnt_pos_inv
      by (pose proof (cnt_nonneg w_alive (workers s)); lia).
    apply negb_true_iff, bool_decide_eq_false in Hne. exists (StepWorker j false). simpl.
    unfold worker_step. rewrite Hj, Hb. destruct (Hidle j w Hj) as [->|]; [|done].
    destruct Hph as (_ & _ & -> & _). eauto.
Qed.
Lemma progress n s : inv n s → quiescent s ∨ ∃ a s', internal a ∧ step a s = Ok s'.
Proof.
  intros Hi. pose proof (inv_phase n s Hi) as Hph. unfold phase_ok in Hph.
  destruct (decide (cnt w_busy (workers s) = 0)) as [Hbusy|Hbusy].
  2:{ right. assert (0 < cnt w_busy (workers s)) as (j & w & Hj & Hb)%cnt_pos_inv
        by (pose proof (cnt_nonneg w_busy (workers s)); lia).
      destruct (worker_progress n s j w Hi Hj Hb) as [s' Hs']. by exists (StepWorker j false), s'. }
  assert (∀ j w, workers s !! j = Some w → w = WRecv ∨ w = WExit) as Hidle.
  { intros j w Hj. pose proof (cnt_zero_inv _ _ _ _ Hbusy Hj). destruct w; auto; done. }
  assert (chan_closed (queue s) = false → ∀ j w, workers s !! j = Some w → w = WRecv) as Hrecv.
  { intros Hch j w Hj. destruct (Hidle j w Hj) as [|Hx]; [done|].
    by destruct (Forall_lookup_1 _ _ _ _ (inv_exit n s Hi Hch) Hj). }
  destruct (buf (queue s)) as [|t ts] eqn:Hb.
  2:{ right. assert (chan_closed (queue s) = false) as Hch.
      { pose proof (inv_wg n s Hi) as Hwg. rewrite Hb in Hwg. simpl in Hwg.
        pose proof (cnt_nonneg p_sending (producers s)).
        destruct (run s) as [[]|]; try tauto; lia. }
      destruct (lookup_lt_is_Some_2 (workers s) 0) as [w Hw0]; [pose proof (inv_workers n s Hi); lia|].
      exists (StepWorker 0%nat false). simpl. unfold worker_step.
      rewrite Hw0, (Hrecv Hch _ _ Hw0), Hb. eauto. }
  destruct (decide (cnt p_under_way (producers s) = 0)) as [Hret|Hret].
  2:{ right. assert (0 < cnt p_under_way (producers s)) as (i & p & Hp & Hu)%cnt_pos_inv
        by (pose proof (cnt_nonneg p_under_way (producers s)); lia).
      apply negb_true_iff, bool_decide_eq_false in Hu.
      destruct (inv_producing n s i p Hi Hp Hu) as (_ & _ & Hch).
      eapply producer_progress; eauto. }
  assert (all_returned s) as Hall.
  { apply Forall_lookup_2. intros i p Hp. pose proof (cnt_zero_inv _ _ _ _ Hret Hp) as Hu.
    by apply negb_false_iff, bool_decide_eq_true in Hu. }
  by eapply wind_down.
Qed.

(** ** Properties *)

(** C14: Let no call of [Do] be under way when [Run] is called.  When [Run] has
    returned, every task that [Do] accepted has been run exactly once, nothing is queued or under way, and [IsRunning] says so.  At any
    other time no task has been run more often than it was accepted. *)
Theorem Run_completes max_chan n opt s :
  reachable max_chan n opt s →
  ran s ⊆+ accepted s ∧
  (run s = Some RRet →
   ran s ≡ₚ accepted s ∧ IsRunning s = false ∧ buf (queue s) = []
   ∧ Forall (λ w, w = WRecv ∨ w = WExit) (workers s)).
Proof.
  intros Hi%pool_reachable_inv. pose proof (inv_tasks n s Hi) as Ht.
  assert (ran s ⊆+ accepted s) as Hsub.
  { apply cnt_submseteq. intros t. rewrite Ht. pose proof (cnt_nonneg (p_has t) (producers s)).
    pose proof (cnt_nonneg (is_task t) (buf (queue s))). pose proof (cnt_nonneg (w_has t) (workers s)).
    lia. }
  split; [done|]. intros Hrun. pose proof (inv_phase n s Hi) as Hph. unfold phase_ok in Hph.
  rewrite Hrun in Hph. destruct Hph as (_ & Hall & _ & Hwg).
  pose proof (inv_wg n s Hi) as Hsum. rewrite Hwg in Hsum.
  pose proof (cnt_nonneg p_sending (producers s)). pose proof (cnt_nonneg w_busy (workers s)).
  assert (buf (queue s) = []) as Hb by (apply length_zero_iff_nil; lia).
  assert (cnt w_busy (workers s) = 0) as Hbusy by lia.
  assert (∀ j w, workers s !! j = Some w → w = WRecv ∨ w = WExit) as Hidle.
  { intros j w Hj. pose proof (cnt_zero_inv _ _ _ _ Hbusy Hj). destruct w; auto; done. }
  assert (∀ f, f PRet = false → cnt f (producers s) = 0) as Hp0.
  { intros f Hf. apply cnt_zero. intros i p Hp. by rewrite (Forall_lookup_1 _ _ _ _ Hall Hp). }
  assert (∀ f, f WRecv = false → f WExit = false → cnt f (workers s) = 0) as Hw0.
  { intros f Hf Hf'. apply cnt_zero. intros j w Hj. by destruct (Hidle j w Hj) as [-> | ->]. }
  split_and?.
  - apply (anti_symm submseteq); [done|]. apply cnt_submseteq. intros t.
    rewrite Ht, Hb, Hp0, Hw0 by done. simpl. lia.
  - unfold IsRunning. rewrite (inv_running n s Hi), Hb, Hp0, Hw0 by done. reflexivity.
  - done.
  - by apply Forall_lookup_2.
Qed.

(** C27: Under the package's rule no step panics (no send on the closed queue, no
    second close, no misuse of the [WaitGroup]), except the [Add] of a 2^31st
    unfinished task. *)
Theorem pool_never_panics max_chan n opt s a :
  reachable max_chan n opt s →
  match step a s with
  | Panic _ => wg s = 2 ^ 31 - 1 ∧ ∃ i t, a = StepDo i ∧ producers s !! i = Some (PAdd t)
  | _ => True
  end.
Proof.
  intros Hi%pool_reachable_inv. destruct (step a s) as [| |msg] eqn:Hstep; [done..|].
  revert Hstep. pose proof (inv_wg_nonneg n s Hi). pose proof (inv_wg_max n s Hi).
  pose proof (inv_phase n s Hi) as Hph. unfold phase_ok in Hph.
  destruct a as [| |i|i j| |j panics]; simpl; try done.
  - unfold Do_step. destruct (producers s !! i) as [[t|t|t|]|] eqn:Hp; try done.
    + unfold wg_Add. destruct (decide (wg s = 2 ^ 31 - 1)) as [|Hne]; [by eauto|].
      rewrite wrap32_id by lia. destruct (wg s + 1 <? 0) eqn:E; [lia|]. by case_decide.
    + unfold send. destruct (inv_producing n s i _ Hi Hp) as (_ & _ & ->); [done|].
      by case_decide.
  - unfold Do_handoff. by repeat case_match.
  - unfold Run_step. destruct (run s) as [[]|]; try done.
    + by rewrite decide_True by tauto.
    + unfold close. by destruct Hph as (_ & _ & -> & _).
  - unfold worker_step. destruct (workers s !! j) as [[|t|t|t|]|] eqn:Hw; try done.
    + by repeat case_match.
    + destruct (worker_progress n s j _ Hi Hw) as [s' Hs']; [done|]. simpl in Hs'.
      unfold worker_step in Hs'. rewrite Hw in Hs'. by destruct (wg_Add (-1) s).
Qed.

(** C28: Termination.  Without further calls, the goroutines can take at most
    [steps_left] steps, and until everything has come to rest (every call has
    returned, in particular [Run]; every accepted task has been run; the
    workers of a closed pool are gone) one of them can take one. *)
Theorem pool_terminates max_chan n opt s :
  reachable max_chan n opt s →
  (∀ a s', internal a → step a s = Ok s' → 0 ≤ steps_left s' < steps_left s)
  ∧ (quiescent s ∨ ∃ a s', internal a ∧ step a s = Ok s')
  ∧ (quiescent s → ran s ≡ₚ accepted s).
Proof.
  intros Hi%pool_reachable_inv. split_and?.
  - intros a s' Ha Hs. split; [apply steps_left_nonneg|by eapply internal_step_decreases].
  - by eapply progress.
  - intros (Hall & Hb & Hidle & _). apply (anti_symm submseteq); apply cnt_submseteq; intros t;
      rewrite (inv_tasks n s Hi), Hb, (cnt_zero (p_has t)), (cnt_zero (w_has t)); simpl; try lia;
      intros i x Hx.
    all: first [by rewrite (Forall_lookup_1 _ _ _ _ Hall Hx)
               | by destruct (Forall_lookup_1 _ _ _ _ Hidle Hx) as [-> | ->]].
Qed.

(** The rule is needed: in every pool, a call of [Do] that has passed the check
    of [closed] when [Run] starts can bring the program down. *)
Theorem racing_Do_panics max_chan n opt s t :
  New (E:=()) max_chan n opt = Ok s →
  steps [CallDo t; CallRun; StepRun; StepRun; StepDo 0%nat; StepDo 0%nat; StepDo 0%nat] s
  = Panic "send on closed channel".
Proof.
  unfold New, make_chan. intros Hn. inv_ok. case_decide; [done|]. by simplify_eq/=.
Qed.

(** [New] always has a worker, and panics exactly when the buffer (a hundred
    slots per worker and one, in 64-bit arithmetic, unless the caller says) is
    negative or too large. *)
Theorem New_pool_spec max_chan n opt :
  let size := default (Z.max 1 n *! 100 +! 1)%go (head opt) in
  match New (E:=()) max_chan n opt with
  | Ok s => 0 ≤ size ≤ max_chan ∧ capacity (queue s) = size ∧ IsRunning s = false
            ∧ Z.of_nat (length (workers s)) = Z.max 1 n
            ∧ Forall (λ w, w = WRecv) (workers s)
  | Err _ => False
  | Panic _ => size < 0 ∨ max_chan < size
  end.
Proof.
  cbn zeta. unfold New, make_chan, startWorkers.
  replace (if n <? 1 then 1 else n) with (Z.max 1 n) by (destruct (n <? 1) eqn:E; lia).
  case_decide as Hd; [done|]. simpl. split_and?; try done; try lia.
  - rewrite length_replicate. lia.
  - by apply Forall_replicate.
Qed.

(** ** Witnesses *)

Definition toy_trace : list action :=
  [CallDo 7%nat; StepDo 0%nat; StepDo 0%nat; StepDo 0%nat; CallRun; StepRun; StepWorker 0%nat false;
   StepWorker 0%nat true; StepWorker 0%nat false; StepWorker 0%nat false; StepRun; StepRun].
(** Runs a schedule that obeys the rule. *)
Fixpoint ruled_steps (tr : list action) (s : WorkPool) : option WorkPool :=
  match tr with
  | [] => Some s
  | a :: tr =>
      if match a with CallRun => bool_decide (all_returned s) | _ => true end
      then match step a s with Ok s => ruled_steps tr s | _ => None end
      else None
  end.

Lemma ruled_reachable max_chan n opt tr s s' :
  reachable max_chan n opt s → ruled_steps tr s = Some s' → reachable max_chan n opt s'.
Proof.
  revert s. induction tr as [|a tr IH]; intros s Hs; simpl; [by intros [= <-]|].
  destruct (match a with CallRun => _ | _ => _ end) eqn:Hrule; [|done].
  destruct (step a s) as [s1| |] eqn:Hstep; [|done..]. apply IH.
  eapply reach_step; [exact Hs| |exact Hstep]. intros ->. by apply bool_decide_eq_true in Hrule.
Qed.

Definition toy_new : WorkPool :=
  {| queue := {| buf := []; capacity := 101; chan_closed := false |}; wg := 0; closed := false;
     running := 0; producers := []; run := None; workers := [WRecv]; accepted := []; ran := [];
     printed := [] |}.
Definition toy_pool : WorkPool := default toy_new (ruled_steps toy_trace toy_new).

Lemma toy_reachable : reachable 1000 0 [] toy_pool.
Proof.
  apply (ruled_reachable 1000 0 [] toy_trace toy_new); [by apply reach_New|].
  vm_compute. reflexivity.
Qed.

Lemma Run_completes_witness :
  ran toy_pool = [7%nat] ∧ accepted toy_pool = [7%nat] ∧ printed toy_pool = [7%nat]
  ∧ run toy_pool = Some RRet ∧ IsRunning toy_pool = false.
Proof.
  pose proof (proj2 (Run_completes 1000 0 [] toy_pool toy_reachable) eq_refl) as (_ & Hr & _).
  repeat split; try (vm_compute; reflexivity).
Defined.


Lemma pool_never_panics_witness :
  is_Panic (step (StepWorker 0%nat false) toy_pool) = false.
Proof.
  pose proof (pool_never_panics 1000 0 [] toy_pool (StepWorker 0%nat false) toy_reachable) as Hs.
  destruct (step (StepWorker 0%nat false) toy_pool); [reflexivity..|].
  destruct Hs as [Hwg _]. vm_compute in Hwg. discriminate Hwg.
Defined.

Lemma pool_terminates_witness :
  steps_left toy_pool = 1 ∧ ∃ a s', internal a ∧ step a toy_pool = Ok s'.
Proof.
  destruct (pool_terminates 1000 0 [] toy_pool toy_reachable) as (_ & [Hq|Hs] & _).
  - destruct Hq as (_ & _ & _ & [Hr|[_ Hr]]); [vm_compute in Hr; discriminate Hr|].
    apply Forall_cons in Hr as [Hw _]. discriminate Hw.
  - split; [vm_compute; reflexivity|exact Hs].
Defined.

Lemma racing_Do_panics_witness :
  (s ← New 1000 4 [1]; steps [CallDo 3%nat; CallRun; StepRun; StepRun; StepDo 0%nat; StepDo 0%nat; StepDo 0%nat] s)
  = Panic "send on closed channel".
Proof.
  destruct (New (E:=()) 1000 4 [1]) as [s| |] eqn:Hn; [|discriminate Hn..].
  exact (racing_Do_panics 1000 4 [1] s 3%nat Hn).
Defined.
