(* ===== verification/WaitGroup.v ===== *)
(** * kit.WaitGroup: a counter around goroutines (waitgroup.go)

    The goroutine that calls [Do] and [Wait] and the goroutines that [Do]
    launches interleave: [wg.Add], every [go] statement, [wg.Done] and [wg.Wait]
    are one step each.  A launched function may itself call [Do] and [Wait] on
    the same group, and it may panic. *)
From Stdlib Require Import String.
From S2P Require Export Prelude.
Local Open Scope Z_scope.

(** ** Data *)

(** What code does that concerns the group; [None] is a nil [func()]. *)
Inductive call :=
  | Work
  | Do (f : list (option (list call)))
  | Wait
  | PanicWith (m : string).
Abbreviation func := (option (list call)).

Inductive instr :=
  | IWork
  | IAdd (n : Z)
  | IGo (fn : func)
  | IDone
  | IWait
  | ICrash (m : string).   (* the runtime ends the program *)

Definition nil_func : string := "invalid memory address or nil pointer dereference".

(** [Do]: one [Add] for all, then a [go] statement for each function. *)
Definition Do_code (f : list func) : list instr := IAdd (Z.of_nat (length f)) :: map IGo f.
Definition call_code (c : call) : list instr :=
  match c with
  | Work => [IWork]
  | Do f => Do_code f
  | Wait => [IWait]
  | PanicWith m => [ICrash m]
  end.

(** The launched goroutine: [defer w.wg.Done(); fn()].  A panic of the
    function, or of calling a nil one, first runs the deferred [Done] and then,
    not being recovered, ends the program: between the two others can move. *)
Fixpoint fun_code (cs : list call) : list instr :=
  match cs with
  | [] => [IDone]
  | PanicWith m :: _ => [IDone; ICrash m]
  | c :: cs => call_code c ++ fun_code cs
  end.
Definition go_code (fn : func) : list instr :=
  match fn with None => [IDone; ICrash nil_func] | Some cs => fun_code cs end.

(** The owner of the group: any other code that uses it. *)
Definition owner_code (ms : list call) : list instr := concat (map call_code ms).

Record group := {
  counter : Z;                      (* of the [sync.WaitGroup] *)
  owner : list instr;               (* what the owner has left to do *)
  goroutines : list (list instr);   (* what each goroutine has left to do *)
}.

Definition NewWaitGroup (ms : list call) : group :=
  {| counter := 0; owner := owner_code ms; goroutines := [] |}.

(** ** Steps *)

Definition Add (delta : Z) (s : group) : result () group :=
  let v := wrap32 (counter s + delta) in
  if v <? 0 then Panic "sync: negative WaitGroup counter"
  else Ok {| counter := v; owner := owner s; goroutines := goroutines s |}.

(** [Err ()] is a goroutine that cannot go on. *)
Definition exec (i : instr) (s : group) : result () group :=
  match i with
  | IWork => Ok s
  | IAdd n => Add n s
  | IGo fn =>
      Ok {| counter := counter s; owner := owner s; goroutines := goroutines s ++ [go_code fn] |}
  | IDone => Add (-1) s
  | ICrash m => Panic m
  | IWait => if decide (counter s = 0) then Ok s else Err ()
  end.

(** A step of the owner ([None]) or of a goroutine. *)
Definition step (who : option nat) (s : group) : result () group :=
  match who with
  | None =>
      match owner s with
      | i :: rest => exec i {| counter := counter s; owner := rest; goroutines := goroutines s |}
      | [] => Err ()
      end
  | Some k =>
      match goroutines s !! k with
      | Some (i :: rest) =>
          exec i {| counter := counter s; owner := owner s; goroutines := <[k := rest]> (goroutines s) |}
      | _ => Err ()
      end
  end.

Inductive reachable (ms : list call) : group → Prop :=
  | reach_New : reachable ms (NewWaitGroup ms)
  | reach_step who s s' : reachable ms s → step who s = Ok s' → reachable ms s'.

(** ** Everything that launched functions can do *)

Fixpoint launched_call (c : call) : list instr :=
  match c with
  | Do f =>
      flat_map (λ fn, match fn with
                      | None => go_code None
                      | Some cs => fun_code cs ++ flat_map launched_call cs
                      end) f
  | _ => []
  end.
Definition launched_fn (fn : func) : list instr :=
  match fn with
  | None => go_code None
  | Some cs => fun_code cs ++ flat_map launched_call cs
  end.
Definition launched (ms : list call) : list instr := flat_map launched_call ms.

Definition is_IWait (i : instr) : bool := match i with IWait => true | _ => false end.

(** A launched function waits for the group it runs in. *)
Definition waits_inside (ms : list call) : bool := existsb is_IWait (launched ms).
(** A launched function panics. *)
Definition panics_inside (ms : list call) : bool :=
  existsb (λ i, match i with ICrash _ => true | _ => false end) (launched ms).

(** ** The cost of what is left

    Every step costs one; a [go] statement also costs what it launches. *)

Fixpoint call_cost (c : call) : nat :=
  match c with
  | Do f => S (sum_list_with (λ fn, match fn with
                                    | None => 3%nat
                                    | Some cs => (2 + sum_list_with call_cost cs)%nat
                                    end) f)
  | _ => 1
  end.
Definition func_cost (fn : func) : nat :=
  match fn with None => 2 | Some cs => (1 + sum_list_with call_cost cs)%nat end.
Definition instr_cost (i : instr) : nat := match i with IGo fn => (1 + func_cost fn)%nat | _ => 1%nat end.
Definition cost (code : list instr) : nat := sum_list_with instr_cost code.
Definition remaining (s : group) : nat := (cost (owner s) + sum_list_with cost (goroutines s))%nat.

Lemma cost_app l1 l2 : cost (l1 ++ l2) = (cost l1 + cost l2)%nat.
Proof. apply sum_list_with_app. Qed.

Lemma cost_call c : cost (call_code c) = call_cost c.
Proof.
  destruct c as [|f| |]; [done| |done..]. unfold cost. simpl. f_equal.
  induction f as [|[cs|] f IH]; simpl; [done|by rewrite IH..].
Qed.

(** What follows a panic is not executed. *)
Lemma cost_go fn : (cost (go_code fn) ≤ func_cost fn)%nat.
Proof.
  destruct fn as [cs|]; [|done]. simpl.
  induction cs as [|c cs IH]; [done|]. simpl sum_list_with.
  rewrite <-(cost_call c). destruct c; simpl fun_code; unfold Do_code; simpl;
    rewrite ?cost_app; simpl in *; unfold cost in *; simpl in *; lia.
Qed.

(** ** What is owed to the counter *)

(** The [Done]s that the rest of some code will cause, less the [Add]s. *)
Definition owes (i : instr) : Z :=
  match i with IAdd n => - n | IGo _ | IDone => 1 | IWork | IWait | ICrash _ => 0 end.
Fixpoint debt (code : list instr) : Z :=
  match code with [] => 0 | i :: code => owes i + debt code end.
Definition total (s : group) : Z := debt (owner s) + foldr (λ g z, debt g + z) 0 (goroutines s).

(** What the owner and a goroutine look like between two steps: the launches
    of a [Do] under way, then whole calls. *)
Definition owner_shape (m : list instr) : Prop := ∃ f ms, m = map IGo f ++ owner_code ms.
Definition go_shape (g : list instr) : Prop :=
  g = [] ∨ (∃ m, g = [ICrash m]) ∨ ∃ f cs, g = map IGo f ++ fun_code cs.
(** Done with its function: finished, or about to end the program. *)
Definition returned (g : list instr) : Prop := g = [] ∨ ∃ m, g = [ICrash m].

Definition shaped (s : group) : Prop := owner_shape (owner s) ∧ Forall go_shape (goroutines s).
Definition inv (s : group) : Prop := shaped s ∧ counter s = total s.

Lemma debt_app l1 l2 : debt (l1 ++ l2) = debt l1 + debt l2.
Proof. induction l1 as [|i l1 IH]; [done|]. cbn [app debt]. lia. Qed.

Lemma debt_map_IGo f : debt (map IGo f) = Z.of_nat (length f).
Proof. induction f as [|fn f IH]; [done|]. cbn [map debt length]. rewrite IH. simpl. lia. Qed.

Lemma debt_call c : debt (call_code c) = 0.
Proof.
  destruct c as [|f| |]; [done| |done..].
  change (owes (IAdd (Z.of_nat (length f))) + debt (map IGo f) = 0).
  rewrite debt_map_IGo. simpl. lia.
Qed.

Lemma debt_fun cs : debt (fun_code cs) = 1.
Proof.
  induction cs as [|c cs IH]; [done|].
  destruct c as [|f| |m]; [exact IH| |exact IH|done].
  change (debt (call_code (Do f) ++ fun_code cs) = 1).
  rewrite debt_app, debt_call. lia.
Qed.

Lemma cost_fun cs : (1 ≤ cost (fun_code cs))%nat.
Proof. destruct cs as [|[] cs]; unfold cost; simpl; lia. Qed.

Lemma debt_owner_code ms : debt (owner_code ms) = 0.
Proof.
  induction ms as [|c ms IH]; [done|]. unfold owner_code in *. cbn [map concat].
  rewrite debt_app, debt_call. lia.
Qed.

Lemma cost_map_IGo f : (length f ≤ cost (map IGo f))%nat.
Proof. unfold cost. induction f as [|fn f IH]; simpl; lia. Qed.

(** Shaped code never owes less than nothing, nor more than it costs. *)
Lemma owner_debt m : owner_shape m → 0 ≤ debt m ≤ Z.of_nat (cost m).
Proof.
  intros (f & ms & ->). rewrite debt_app, debt_map_IGo, debt_owner_code, cost_app.
  pose proof (cost_map_IGo f). lia.
Qed.

Lemma go_debt g :
  go_shape g → 0 ≤ debt g ≤ Z.of_nat (cost g) ∧ (debt g = 0 → returned g).
Proof.
  intros [->|[[m ->]|(f & cs & ->)]]; [by split; [|left]|split; [done|right; eauto]|].
  rewrite !debt_app, debt_map_IGo, debt_fun, !cost_app. pose proof (cost_map_IGo f).
  pose proof (cost_fun cs). split; [lia|]. intros. lia.
Qed.

Lemma goroutines_debt l :
  Forall go_shape l →
  0 ≤ foldr (λ g z, debt g + z) 0 l ≤ Z.of_nat (sum_list_with cost l)
  ∧ (foldr (λ g z, debt g + z) 0 l = 0 → Forall returned l).
Proof.
  induction 1 as [|g l Hg _ [IH IH0]]; [split; [done|constructor]|].
  destruct (go_debt g Hg) as [Hd Hd0]. cbn [foldr sum_list_with]. split; [lia|]. intros Hz.
  constructor; [apply Hd0|apply IH0]; lia.
Qed.

Lemma goroutine_debt_le l k g :
  Forall go_shape l → l !! k = Some g → debt g ≤ foldr (λ g z, debt g + z) 0 l.
Proof.
  intros Hl. revert k. induction Hl as [|x l Hx Hl IH]; intros [|k] Hk; simplify_eq/=.
  - destruct (goroutines_debt l Hl). lia.
  - destruct (go_debt x Hx). specialize (IH k Hk). lia.
Qed.

Lemma total_bounds s : shaped s → 0 ≤ total s ≤ Z.of_nat (remaining s).
Proof.
  intros [Ho Hg]. unfold total, remaining.
  pose proof (owner_debt _ Ho). destruct (goroutines_debt _ Hg) as [? _]. lia.
Qed.

(** What follows an instruction of shaped code is shaped. *)
Lemma owner_shape_tail i rest : owner_shape (i :: rest) → owner_shape rest.
Proof.
  intros ([|fn f] & ms & H); simplify_eq/=; [|by exists f, ms].
  destruct ms as [|[|f| |m] ms]; unfold owner_code in H; simplify_eq/=;
    [by exists [], ms|by exists f, ms|by exists [], ms..].
Qed.

Lemma go_shape_tail i rest : go_shape (i :: rest) → go_shape rest.
Proof.
  intros [?|[[? ?]|([|fn f] & cs & H)]]; simplify_eq/=; [by left| |by right; right; exists f, cs].
  destruct cs as [|[|f| |m] cs]; simplify_eq/=; [by left|..].
  - right; right. by exists [], cs.
  - right; right. by exists f, cs.
  - right; right. by exists [], cs.
  - right; left. by exists m.
Qed.

(** A goroutine that waits still owes its own [Done]. *)
Lemma go_shape_wait rest : go_shape (IWait :: rest) → 1 ≤ debt (IWait :: rest).
Proof.
  intros [?|[[? ?]|([|fn f] & cs & H)]]; simplify_eq/=.
  pose proof (debt_fun cs) as Hd. rewrite <-H in Hd. simpl in Hd. lia.
Qed.

Lemma go_code_shape fn : go_shape (go_code fn).
Proof.
  destruct fn as [cs|]; right; right; [by exists [], cs|by exists [], [PanicWith nil_func]].
Qed.

Lemma debt_go fn : debt (go_code fn) = 1.
Proof. destruct fn as [cs|]; [apply debt_fun|done]. Qed.

Lemma debt_insert l k g g' :
  l !! k = Some g →
  foldr (λ g z, debt g + z) 0 (<[k := g']> l) = foldr (λ g z, debt g + z) 0 l - debt g + debt g'.
Proof.
  revert k. induction l as [|x l IH]; intros [|k] H; simplify_eq/=; [lia|].
  rewrite (IH k H). lia.
Qed.

Lemma debt_snoc l g :
  foldr (λ g z, debt g + z) 0 (l ++ [g]) = foldr (λ g z, debt g + z) 0 l + debt g.
Proof. induction l as [|x l IH]; simpl; lia. Qed.

(** ** Every step keeps the account *)

(** One instruction, from a state in which it was already taken off its code:
    the account is right again afterwards, one unit is spent, and nothing
    panics but a crash already under way. *)
Lemma exec_spec i s :
  shaped s → counter s = owes i + total s → Z.of_nat (remaining s) < 2 ^ 31 →
  match exec i s with
  | Ok s' => inv s' ∧ (S (remaining s') ≤ instr_cost i + remaining s)%nat
  | Err _ => i = IWait ∧ counter s ≠ 0
  | Panic m => i = ICrash m
  end.
Proof.
  intros Hs Hc Hr. pose proof (total_bounds s Hs) as Hb.
  assert (∀ d, counter s + d = total s →
    Add d s = Ok {| counter := total s; owner := owner s; goroutines := goroutines s |}) as Hadd.
  { intros d Hd. unfold Add. rewrite Hd. rewrite wrap32_id by lia.
    destruct (total s <? 0) eqn:E; [lia|done]. }
  destruct i as [|n|fn| | |m]; cbn [exec owes] in *.
  - split; [split; [done|lia]|done].
  - rewrite Hadd by lia. done.
  - destruct Hs as [Ho Hg]. split; [split; [split|]|]; unfold total, remaining in *; simpl.
    + done.
    + apply Forall_app. split; [done|]. constructor; [apply go_code_shape|done].
    + rewrite debt_snoc, debt_go. lia.
    + rewrite sum_list_with_app. simpl. pose proof (cost_go fn). lia.
  - rewrite Hadd by lia. done.
  - case_decide; [|done]. split; [split; [done|lia]|done].
  - done.
Qed.

(** A step is an instruction at the head of some code, from the state without
    it, which is shaped, owes the instruction and is cheaper by its cost. *)
Lemma step_head who s :
  inv s →
  step who s = Err () ∨
  ∃ i rest s1, step who s = exec i s1 ∧ shaped s1 ∧ counter s1 = owes i + total s1
    ∧ (instr_cost i + remaining s1 = remaining s)%nat
    ∧ match who with
      | None => owner s = i :: rest ∧ owner s1 = rest ∧ goroutines s1 = goroutines s
      | Some k => goroutines s !! k = Some (i :: rest) ∧ owner s1 = owner s
                  ∧ goroutines s1 = <[k := rest]> (goroutines s)
      end.
Proof.
  intros [[Ho Hg] Hc]. destruct who as [k|]; simpl.
  - destruct (goroutines s !! k) as [[|i rest]|] eqn:Hk; [by left| |by left]. right.
    pose proof (debt_insert _ k _ rest Hk) as Ht.
    pose proof (sum_list_with_insert cost _ k _ rest Hk) as Hsum.
    unfold cost in Hsum at 2. simpl in Hsum, Ht.
    eexists i, rest, _. split_and!; [done|split|..]; try done.
    + apply Forall_insert; [done|].
      by apply (go_shape_tail i), (proj1 (Forall_lookup _ _) Hg k).
    + unfold total in *. simpl. lia.
    + unfold remaining, cost in *. simpl. lia.
  - destruct (owner s) as [|i rest] eqn:Ho'; [by left|]. right.
    eexists i, rest, _. split_and!; [done|split|..]; try done.
    + by apply (owner_shape_tail i).
    + unfold total in *. rewrite Ho' in Hc. simpl in *. lia.
    + unfold remaining, cost. rewrite Ho'. simpl. lia.
Qed.

(** *** What is executed was in the program *)

(** Some code executes only instructions of [here], and launches only functions
    that execute instructions of [there]. *)
Definition within (here there : list instr) (code : list instr) : Prop :=
  ∀ i, i ∈ code → i ∈ here ∧ match i with IGo fn => launched_fn fn ⊆ there | _ => True end.

Lemma within_app here there l1 l2 :
  within here there (l1 ++ l2) ↔ within here there l1 ∧ within here there l2.
Proof. unfold within. setoid_rewrite elem_of_app. naive_solver. Qed.

Lemma within_tail here there i code : within here there (i :: code) → within here there code.
Proof. intros H j Hj. apply H. by right. Qed.

Lemma within_mono here here' there there' code :
  here ⊆ here' → there ⊆ there' → within here there code → within here' there' code.
Proof.
  intros Hh Ht H i Hi. destruct (H i Hi) as [Hi' Hgo]. split; [by apply Hh|].
  destruct i; try done. set_solver.
Qed.

Lemma launched_call_Do fn f : fn ∈ f → launched_fn fn ⊆ launched_call (Do f).
Proof.
  intros Hfn i Hi. apply list_elem_of_In, in_flat_map. exists fn.
  split; [by apply list_elem_of_In|]. apply list_elem_of_In. by destruct fn.
Qed.

Lemma within_call c : within (call_code c) (launched_call c) (call_code c).
Proof.
  intros i Hi. split; [done|]. destruct c as [|f| |m]; simpl in Hi; try (by apply list_elem_of_singleton in Hi as ->).
  unfold Do_code in Hi. apply elem_of_cons in Hi as [->|(fn & -> & Hfn)%list_elem_of_fmap]; [done|].
  by apply launched_call_Do.
Qed.

Lemma launched_call_in c cs : c ∈ cs → launched_call c ⊆ flat_map launched_call cs.
Proof.
  intros Hc i Hi. apply list_elem_of_In, in_flat_map. exists c. by rewrite <-!list_elem_of_In.
Qed.

Lemma within_fun cs : within (fun_code cs) (flat_map launched_call cs) (fun_code cs).
Proof.
  induction cs as [|c cs IH]; [intros i ->%list_elem_of_singleton; by split; [left|]|].
  assert (within (call_code c ++ fun_code cs) (flat_map launched_call (c :: cs)) (call_code c ++ fun_code cs))
    as Happ.
  { apply within_app. split.
    - eapply within_mono; [..|apply within_call]; [set_solver|]. apply launched_call_in. by left.
    - eapply within_mono; [..|exact IH]; [set_solver|]. simpl. set_solver. }
  destruct c as [|f| |m]; [exact Happ..|].
  intros i Hi. split; [done|]. simpl in Hi. rewrite !elem_of_cons in Hi.
  by destruct Hi as [->|[->|?%elem_of_nil]].
Qed.

Lemma within_go fn : within (launched_fn fn) (launched_fn fn) (go_code fn).
Proof.
  destruct fn as [cs|].
  - eapply within_mono; [..|apply (within_fun cs)]; simpl; set_solver.
  - intros i Hi. split; [done|]. simpl in Hi. rewrite !elem_of_cons in Hi.
    by destruct Hi as [->|[->|?%elem_of_nil]].
Qed.

Lemma within_owner ms : within (owner_code ms) (launched ms) (owner_code ms).
Proof.
  induction ms as [|c ms IH]; [by intros i ?%elem_of_nil|].
  unfold owner_code, launched in *. simpl. apply within_app. split.
  - eapply within_mono; [..|apply within_call]; set_solver.
  - eapply within_mono; [..|exact IH]; set_solver.
Qed.

Definition executes (ms : list call) (s : group) : Prop :=
  within (owner_code ms) (launched ms) (owner s)
  ∧ Forall (within (launched ms) (launched ms)) (goroutines s).

Lemma exec_executes ms i s s' :
  executes ms s → match i with IGo fn => launched_fn fn ⊆ launched ms | _ => True end →
  exec i s = Ok s' → executes ms s'.
Proof.
  intros [Ho Hg] Hi He. destruct i as [|n|fn| | |m]; simpl in He; unfold Add in He;
    repeat case_match; simplify_eq; try by split.
  split; [done|]. apply Forall_app. split; [done|]. constructor; [|done].
  eapply within_mono; [..|apply within_go]; done.
Qed.

(** Every step keeps the account and spends at least one unit, and only code
    of the program panics. *)
Lemma step_spec ms who s :
  inv s → executes ms s → Z.of_nat (remaining s) < 2 ^ 31 →
  match step who s with
  | Ok s' => inv s' ∧ executes ms s' ∧ (S (remaining s') ≤ remaining s)%nat
  | Err _ => True
  | Panic m => ICrash m ∈ owner_code ms ++ launched ms
  end.
Proof.
  intros Hinv [Hwo Hwg] Hr.
  destruct (step_head who s Hinv) as [->|(i & rest & s1 & Hst & Hsh & Hc & Hr1 & Hwho)]; [done|].
  rewrite Hst. pose proof (exec_spec i s1 Hsh Hc ltac:(lia)) as He.
  assert ((i ∈ owner_code ms ++ launched ms)
    ∧ match i with IGo fn => launched_fn fn ⊆ launched ms | _ => True end ∧ executes ms s1)
    as (Hi & Hgo & Hex).
  { destruct who as [k|]; [destruct Hwho as (Hk & Ho1 & Hg1)|destruct Hwho as (Hk & Ho1 & Hg1)].
    - pose proof (proj1 (Forall_lookup _ _) Hwg k _ Hk) as Hw.
      destruct (Hw i ltac:(by left)) as [Hi Hgo]. split_and!; [by apply elem_of_app; right|done|].
      split; [by rewrite Ho1|]. rewrite Hg1. apply Forall_insert; [done|]. by eapply within_tail.
    - rewrite Hk in Hwo. destruct (Hwo i ltac:(by left)) as [Hi Hgo].
      split_and!; [by apply elem_of_app; left|done|].
      split; [rewrite Ho1; by eapply within_tail|by rewrite Hg1]. }
  destruct (exec i s1) as [s'| |m] eqn:E; [|done|by subst i].
  destruct He as [Hinv' Hr']. split_and!; [done|by eapply exec_executes|lia].
Qed.

Lemma NewWaitGroup_inv ms : inv (NewWaitGroup ms) ∧ executes ms (NewWaitGroup ms).
Proof.
  split; [split; [split|]|split].
  - by exists [], ms.
  - by apply Forall_nil.
  - change (0 = debt (owner_code ms) + 0). by rewrite debt_owner_code.
  - apply within_owner.
  - by apply Forall_nil.
Qed.

Lemma group_reachable_inv ms s :
  Z.of_nat (cost (owner_code ms)) < 2 ^ 31 → reachable ms s →
  inv s ∧ executes ms s ∧ (remaining s ≤ cost (owner_code ms))%nat.
Proof.
  intros Hms. induction 1 as [|who s s' _ (Hi & Hex & Hr) Hstep].
  - destruct (NewWaitGroup_inv ms). split_and!; [done..|].
    change (cost (owner_code ms) + 0 ≤ cost (owner_code ms))%nat. lia.
  - pose proof (step_spec ms who s Hi Hex ltac:(lia)) as Hs. rewrite Hstep in Hs.
    destruct Hs as (Hi' & Hex' & Hr'). split_and!; [done..|lia].
Qed.

(** ** Runs *)

Fixpoint steps (tr : list (option nat)) (s : group) : result () group :=
  match tr with [] => Ok s | who :: tr => s ← step who s; steps tr s end.

Lemma steps_reachable ms tr s s' : reachable ms s → steps tr s = Ok s' → reachable ms s'.
Proof.
  revert s. induction tr as [|who tr IH]; intros s Hr Hs; simplify_eq/=; [done|].
  destruct (step who s) as [s1| |] eqn:E; simplify_eq/=. eapply IH; [|done]. by eapply reach_step.
Qed.

Lemma steps_spec ms tr s :
  inv s → executes ms s → Z.of_nat (remaining s) < 2 ^ 31 →
  match steps tr s with
  | Ok s' => inv s' ∧ executes ms s' ∧ (length tr + remaining s' ≤ remaining s)%nat
  | Err _ => True
  | Panic m => ICrash m ∈ owner_code ms ++ launched ms
  end.
Proof.
  revert s. induction tr as [|who tr IH]; intros s Hi Hex Hr; [done|]. simpl.
  pose proof (step_spec ms who s Hi Hex Hr) as Hs. destruct (step who s) as [s1| |m]; simpl; [|done|done].
  destruct Hs as (Hi1 & Hex1 & Hr1). specialize (IH s1 Hi1 Hex1 ltac:(lia)).
  destruct (steps tr s1) as [s2| |m]; [|done|done]. destruct IH as (? & ? & ?).
  split_and!; [done..|lia].
Qed.

(** A goroutine that waits for its own group waits forever. *)
Lemma wait_inside_blocks s k rest :
  inv s → goroutines s !! k = Some (IWait :: rest) → step (Some k) s = Err ().
Proof.
  intros [[Ho Hg] Hc] Hk. simpl. rewrite Hk. simpl. case_decide as H0; [|done].
  pose proof (go_shape_wait _ (proj1 (Forall_lookup _ _) Hg k _ Hk)).
  pose proof (goroutine_debt_le _ _ _ Hg Hk). pose proof (owner_debt _ Ho).
  unfold total in Hc. lia.
Qed.

(** A goroutine that is not finished can go on unless it waits; when all are
    finished, the counter is zero and the owner can. *)
Lemma unfinished_steps s :
  inv s →
  (owner s = [] ∧ Forall (λ g, g = []) (goroutines s))
  ∨ (∃ who, step who s ≠ Err ())
  ∨ ∃ k rest, goroutines s !! k = Some (IWait :: rest).
Proof.
  intros [[Ho Hg] Hc].
  destruct (decide (Forall (λ g, g = []) (goroutines s))) as [Hall|Hn].
  - destruct (owner s) as [|i rest] eqn:E; [by left|right; left]. exists None. simpl. rewrite E.
    destruct i; simpl; unfold Add; repeat case_match; try done.
    assert (foldr (λ g z, debt g + z) 0 (goroutines s) = 0) as Hz.
    { clear -Hall. induction Hall as [|g l -> _ IH]; [done|]. exact IH. }
    unfold total in Hc. rewrite E, Hz in Hc. destruct Ho as ([|fn f] & ms & Hm); [|done].
    simpl in Hm. pose proof (debt_owner_code ms) as Hd. rewrite <-Hm in Hd. lia.
  - apply not_Forall_Exists, Exists_exists in Hn as (g & Hin & Hne); [|apply _].
    apply list_elem_of_lookup in Hin as [k Hk]. right.
    destruct g as [|i rest]; [by destruct Hne|]. destruct (is_IWait i) eqn:Hi.
    + right. destruct i; try done. by exists k, rest.
    + left. exists (Some k). simpl. rewrite Hk.
      destruct i; try discriminate Hi; simpl; unfold Add; repeat case_match; congruence.
Qed.

Lemma not_inside (p : instr → bool) ms s k i rest :
  executes ms s → existsb p (launched ms) = false →
  goroutines s !! k = Some (i :: rest) → p i = false.
Proof.
  intros [_ Hg] Hp Hk. pose proof (proj1 (Forall_lookup _ _) Hg k _ Hk) as Hw.
  destruct (Hw i ltac:(by left)) as [Hi _]. apply not_true_iff_false. intros Hpi.
  apply not_true_iff_false in Hp. apply Hp, existsb_exists. exists i.
  split; [by apply list_elem_of_In|done].
Qed.

(** ** Theorems *)

(** C33: When [Wait] returns to the owner, every goroutine that [Do] launched
    before, those launched by the functions themselves included, has run its
    function and reported: it has finished or, if its function panicked, has
    only the end of the program left.  So when no function panics all have
    finished. *)
Theorem Wait_returns ms s s' rest :
  Z.of_nat (cost (owner_code ms)) < 2 ^ 31 → reachable ms s →
  owner s = IWait :: rest → step None s = Ok s' →
  Forall returned (goroutines s')
  ∧ (panics_inside ms = false → Forall (λ g, g = []) (goroutines s')).
Proof.
  intros Hms Hr Ho Hstep. destruct (group_reachable_inv ms s Hms Hr) as ([[Hos Hg] Hc] & Hex & _).
  simpl in Hstep. rewrite Ho in Hstep. simpl in Hstep. case_decide as H0; simplify_eq. simpl.
  assert (Forall returned (goroutines s)) as Hret.
  { apply goroutines_debt; [done|]. unfold total in Hc. rewrite Ho in Hc, Hos. simpl in Hc.
    destruct (owner_debt rest (owner_shape_tail _ _ Hos)). destruct (goroutines_debt _ Hg). lia. }
  split; [done|]. intros Hp. apply Forall_lookup. intros k g Hk.
  destruct (proj1 (Forall_lookup _ _) Hret k g Hk) as [->|[m ->]]; [done|].
  by pose proof (not_inside _ _ _ _ _ _ Hex Hp Hk).
Qed.
Lemma Wait_returns_witness :
  let ms := [Do [Some [Work; Do [Some []]]]; Wait] in
  ∃ s s', owner s = [IWait] ∧ step None s = Ok s' ∧ Forall (λ g, g = []) (goroutines s').
Proof.
  intros ms.
  set (s := {| counter := 0; owner := [IWait]; goroutines := [[]; []] |}).
  exists s, {| counter := 0; owner := []; goroutines := [[]; []] |}. split_and?; [done|done|].
  apply (Wait_returns ms s _ []); [done| |done|done|done].
  apply (steps_reachable ms [None; None; Some 0; Some 0; Some 0; Some 0; Some 1]%nat (NewWaitGroup ms));
    [constructor|reflexivity].
Defined.

(** C38: Runs of a group whose program costs less than [2^31] steps.  Whatever
    the interleaving, a run takes at most as many steps as its program costs;
    the counter never becomes negative, and the only panics are those of the
    program's own functions and of calling nil ones; and before the end somebody
    can take a step, unless a launched function waits for the group it runs in.
    Such a function never gets any further. *)
Theorem group_terminates ms tr :
  Z.of_nat (cost (owner_code ms)) < 2 ^ 31 →
  match steps tr (NewWaitGroup ms) with
  | Ok s =>
      (length tr ≤ cost (owner_code ms))%nat
      ∧ (waits_inside ms = false →
           (owner s = [] ∧ Forall (λ g, g = []) (goroutines s)) ∨ ∃ who, step who s ≠ Err ())
      ∧ ((owner s = [] ∧ Forall (λ g, g = []) (goroutines s))
         ∨ (∃ who, step who s ≠ Err ())
         ∨ ∃ k rest, goroutines s !! k = Some (IWait :: rest))
      ∧ (∀ k rest, goroutines s !! k = Some (IWait :: rest) → step (Some k) s = Err ())
  | Err _ => True
  | Panic m => ICrash m ∈ owner_code ms ++ launched ms
  end.
Proof.
  intros Hms. destruct (group_reachable_inv ms _ Hms (reach_New ms)) as (Hi & Hex & Hr).
  pose proof (steps_spec ms tr _ Hi Hex ltac:(lia)) as Hs.
  destruct (steps tr _) as [s| |m]; [|done|done].
  destruct Hs as (His & Hexs & Hl). pose proof (unfinished_steps s His) as Hu.
  split_and!; [lia| |done|by intros; eapply wait_inside_blocks].
  intros Hw. destruct Hu as [?|[?|(k & rest & Hk)]]; [by left|by right|].
  by pose proof (not_inside _ _ _ _ _ _ Hexs Hw Hk).
Qed.
Lemma group_terminates_witness :
  let ms := [Do [Some [Work]; Some []]; Wait] in
  let tr := [None; None; None; Some 1; Some 0; Some 0; None]%nat in
  ∃ s, steps tr (NewWaitGroup ms) = Ok s ∧ owner s = [] ∧ (length tr ≤ cost (owner_code ms))%nat.
Proof.
  intros ms tr. pose proof (group_terminates ms tr ltac:(done)) as H.
  assert (steps tr (NewWaitGroup ms) = Ok {| counter := 0; owner := []; goroutines := [[]; []] |}) as E
    by reflexivity.
  rewrite E in H. destruct H as [Hl _]. eexists. split_and?; [exact E|done|exact Hl].
Defined.

(** A function that waits for its own group: neither it nor the owner's [Wait]
    ever returns. *)
Example wait_inside_deadlocks :
  ∃ s, steps [None; None; Some 0%nat] (NewWaitGroup [Do [Some [Work; Wait]]; Wait]) = Ok s
       ∧ step None s = Err () ∧ step (Some 0%nat) s = Err () ∧ length (goroutines s) = 1%nat.
Proof. eexists. split_and!; reflexivity. Qed.

(** A function that panics ends the program, possibly after [Wait] returned. *)
Example panic_after_Wait :
  let s := NewWaitGroup [Do [Some [PanicWith "boom"]]; Wait; Work] in
  ∃ s', steps [None; None; Some 0%nat; None; None] s = Ok s' ∧ owner s' = []
        ∧ step (Some 0%nat) s' = Panic "boom".
Proof. eexists. split_and!; reflexivity. Qed.
