(* ===== verification/Net.v ===== *)
(** * IP addresses: what the sources use of [net] and [net/netip]

    An [IP] is its bytes, 4 or 16 of them, as numbers; [None] is the nil
    [net.IP].  The parsers are translated with the cases they refuse, since
    the guard and the anonymizer are applied to untrusted text. *)
From Stdlib Require Import Ascii String.
From S2P Require Export Prelude GoStrings.
Local Open Scope Z_scope.

Abbreviation IP := (list Z).
Definition bytes_ok (ip : IP) : Prop := Forall (λ b, 0 ≤ b < 256) ip.
Definition v4InV6Prefix : IP := [0; 0; 0; 0; 0; 0; 0; 0; 0; 0; 255; 255].

(** [netip.Addr] without a zone. *)
Inductive Addr := Addr4 (b : IP) | Addr6 (b : IP).
Definition As16 (a : Addr) : IP :=
  match a with Addr4 b => v4InV6Prefix ++ b | Addr6 b => b end.
Definition BitLen (a : Addr) : Z := match a with Addr4 _ => 32 | Addr6 _ => 128 end.

(** ** [netip.ParseAddr] *)

(** [parseIPv4Fields]: the octets done, latest first, the value and the number
    of digits of the current one; [None] is an error. *)
Fixpoint parseIPv4Fields (s : gostring) (fields : list Z) (val digLen : Z) : option IP :=
  match s with
  | [] => if (Z.of_nat (length fields) =? 3) && (0 <? digLen)
          then Some (reverse (val :: fields)) else None
  | c :: s =>
      if is_digit c then
        if (digLen =? 1) && (val =? 0) then None else
        let val := val * 10 + (code c - 48) in
        if 255 <? val then None else parseIPv4Fields s fields val (digLen + 1)
      else if code c =? 46 then
        if (digLen =? 0) || (Z.of_nat (length fields) =? 3) then None
        else parseIPv4Fields s (val :: fields) 0 0
      else None
  end.
Definition parseIPv4 (s : gostring) : option IP := parseIPv4Fields s [] 0 0.

Definition hex_digit (c : ascii) : option Z :=
  let b := code c in
  if (48 <=? b) && (b <=? 57) then Some (b - 48)
  else if (97 <=? b) && (b <=? 102) then Some (b - 97 + 10)
  else if (65 <=? b) && (b <=? 70) then Some (b - 65 + 10)
  else None.

(** One group: its value, its digits and what follows; [None] when it is too
    long. *)
Fixpoint hex_group (s : gostring) (off acc : Z) : option (Z * Z * gostring) :=
  match s with
  | [] => Some (acc, off, [])
  | c :: s' =>
      match hex_digit c with
      | Some d => if 3 <? off then None else hex_group s' (off + 1) (acc * 16 + d)
      | None => Some (acc, off, s)
      end
  end.

(** The loop of [parseIPv6]: [ip] is what is parsed, [ellipsis] where the
    [::] was.  Each turn adds a group, so eight are enough. *)
Fixpoint parseIPv6_loop (n : nat) (s : gostring) (ip : IP) (ellipsis : option nat)
    : option (gostring * IP * option nat) :=
  match n with
  | O => Some (s, ip, ellipsis)
  | S n =>
      '(acc, off, rest) ← hex_group s 0 0;
      if off =? 0 then None else
      match rest with
      | c :: _ =>
          if code c =? 46 then
            if bool_decide (ellipsis = None) && negb (bool_decide (length ip = 12%nat)) then None
            else if bool_decide (16 < length ip + 4)%nat then None
            else f ← parseIPv4 s; Some ([], ip ++ f, ellipsis)
          else
            let ip := ip ++ [acc / 256; acc `mod` 256] in
            if negb (code c =? 58) then None else
            match rest with
            | _ :: c2 :: rest2 =>
                if code c2 =? 58 then
                  match ellipsis with
                  | Some _ => None
                  | None =>
                      match rest2 with
                      | [] => Some ([], ip, Some (length ip))
                      | _ => parseIPv6_loop n rest2 ip (Some (length ip))
                      end
                  end
                else parseIPv6_loop n (c2 :: rest2) ip ellipsis
            | _ => None
            end
      | [] => Some ([], ip ++ [acc / 256; acc `mod` 256], ellipsis)
      end
  end.

Definition parseIPv6 (s : gostring) : option IP :=
  let '(s, ellipsis) :=
    match s with
    | c1 :: c2 :: s' => if (code c1 =? 58) && (code c2 =? 58) then (s', Some 0%nat) else (s, None)
    | _ => (s, None)
    end in
  if bool_decide (s = [] ∧ ellipsis = Some 0%nat) then Some (replicate 16 0) else
  '(s, ip, ellipsis) ← parseIPv6_loop 8 s [] ellipsis;
  if negb (bool_decide (s = [])) then None else
  if bool_decide (length ip < 16)%nat then
    e ← ellipsis; Some (take e ip ++ replicate (16 - length ip) 0 ++ drop e ip)
  else match ellipsis with Some _ => None | None => Some ip end.

(** [ParseAddr], for the callers that refuse an address with a zone. *)
Definition has (c : Z) (s : gostring) : bool := existsb (λ x, code x =? c) s.
Fixpoint ParseAddr_from (full s : gostring) : option Addr :=
  match s with
  | [] => None
  | c :: s =>
      if code c =? 46 then Addr4 <$> parseIPv4 full
      else if code c =? 58 then if has 37 full then None else Addr6 <$> parseIPv6 full
      else if code c =? 37 then None
      else ParseAddr_from full s
  end.
Definition ParseAddr (s : gostring) : option Addr := ParseAddr_from s s.
Definition ParseIP (s : gostring) : option IP := As16 <$> ParseAddr s.

(** ** [net.IP] *)

Definition To4 (ip : IP) : option IP :=
  if bool_decide (length ip = 4%nat) then Some ip
  else if bool_decide (length ip = 16%nat ∧ take 12 ip = v4InV6Prefix) then Some (drop 12 ip)
  else None.

Definition IP_Equal (a b : IP) : bool :=
  if bool_decide (length a = length b) then bool_decide (a = b)
  else if bool_decide (length a = 4%nat ∧ length b = 16%nat) then bool_decide (b = v4InV6Prefix ++ a)
  else if bool_decide (length a = 16%nat ∧ length b = 4%nat) then bool_decide (a = v4InV6Prefix ++ b)
  else false.

(** [ip[i]], for an index that is in range. *)
Definition at_ (ip : IP) (i : nat) : Z := nth i ip 0.

Definition IPv4zero : IP := v4InV6Prefix ++ [0; 0; 0; 0].
Definition IPv6unspecified : IP := replicate 16 0.
Definition IPv6loopback : IP := replicate 15 0 ++ [1].

Definition IsUnspecified (ip : IP) : bool := IP_Equal ip IPv4zero || IP_Equal ip IPv6unspecified.
Definition IsLoopback (ip : IP) : bool :=
  match To4 ip with
  | Some ip4 => at_ ip4 0 =? 127
  | None => IP_Equal ip IPv6loopback
  end.
Definition IsPrivate (ip : IP) : bool :=
  match To4 ip with
  | Some ip4 =>
      (at_ ip4 0 =? 10)
      || ((at_ ip4 0 =? 172) && (Z.land (at_ ip4 1) 240 =? 16))
      || ((at_ ip4 0 =? 192) && (at_ ip4 1 =? 168))
  | None => bool_decide (length ip = 16%nat) && (Z.land (at_ ip 0) 254 =? 252)
  end.
Definition IsMulticast (ip : IP) : bool :=
  match To4 ip with
  | Some ip4 => Z.land (at_ ip4 0) 240 =? 224
  | None => bool_decide (length ip = 16%nat) && (at_ ip 0 =? 255)
  end.
Definition IsLinkLocalMulticast (ip : IP) : bool :=
  match To4 ip with
  | Some ip4 => (at_ ip4 0 =? 224) && (at_ ip4 1 =? 0) && (at_ ip4 2 =? 0)
  | None => bool_decide (length ip = 16%nat) && (at_ ip 0 =? 255) && (Z.land (at_ ip 1) 15 =? 2)
  end.
Definition IsLinkLocalUnicast (ip : IP) : bool :=
  match To4 ip with
  | Some ip4 => (at_ ip4 0 =? 169) && (at_ ip4 1 =? 254)
  | None => bool_decide (length ip = 16%nat) && (at_ ip 0 =? 254) && (Z.land (at_ ip 1) 192 =? 128)
  end.

(** ** Masks and networks *)

(** [net.CIDRMask], for [0 <= ones <= bits]. *)
Fixpoint cidr_bytes (n : nat) (ones : Z) : list Z :=
  match n with
  | O => []
  | S n =>
      (if 8 <=? ones then 255 else 255 - 255 / 2 ^ Z.max 0 ones) :: cidr_bytes n (ones - 8)
  end.
Definition CIDRMask (ones bits : Z) : list Z := cidr_bytes (Z.to_nat (bits / 8)) ones.

Definition Mask (ip : IP) (mask : list Z) : option IP :=
  let mask := if bool_decide (length mask = 16%nat ∧ length ip = 4%nat
                              ∧ take 12 mask = replicate 12 255)
              then drop 12 mask else mask in
  let ip := if bool_decide (length mask = 4%nat ∧ length ip = 16%nat
                            ∧ take 12 ip = v4InV6Prefix)
            then drop 12 ip else ip in
  if bool_decide (length ip = length mask) then Some (zip_with Z.land ip mask) else None.

Record IPNet := { net_IP : IP; net_Mask : list Z }.

Definition networkNumberAndMask (n : IPNet) : option (IP * list Z) :=
  ip ← match To4 (net_IP n) with
       | Some ip => Some ip
       | None => if bool_decide (length (net_IP n) = 16%nat) then Some (net_IP n) else None
       end;
  let m := net_Mask n in
  if bool_decide (length m = 4%nat) then
    if bool_decide (length ip = 4%nat) then Some (ip, m) else None
  else if bool_decide (length m = 16%nat) then
    Some (ip, if bool_decide (length ip = 4%nat) then drop 12 m else m)
  else None.

Definition Contains_ip (n : IPNet) (ip : IP) : bool :=
  match networkNumberAndMask n with
  | None => false
  | Some (nn, m) =>
      let ip := default ip (To4 ip) in
      bool_decide (length ip = length nn)
      && bool_decide (zip_with Z.land nn m = zip_with Z.land ip m)
  end.

(** [net.ParseCIDR], the network only. *)
Definition ParseCIDR (s : gostring) : option IPNet :=
  match Cut s (str "/") with
  | (_, None) => None
  | (addr, Some mask) =>
      a ← ParseAddr addr;
      if negb (forallb is_digit mask) || bool_decide (mask = []) then None else
      match parse_uint 0 mask with
      | Ok n =>
          if BitLen a <? n then None else
          let m := CIDRMask n (BitLen a) in
          ip ← Mask (As16 a) m;
          Some {| net_IP := ip; net_Mask := m |}
      | _ => None
      end
  end.

(** ** [net.IP.String] *)

Definition digit (n : Z) : ascii := if n <? 10 then chr (48 + n) else chr (97 + n - 10).
(** [appendDecimal]: no leading zeros. *)
Definition decimal_byte (b : Z) : gostring :=
  (if 100 <=? b then [digit (b / 100)] else [])
  ++ (if 10 <=? b then [digit ((b / 10) `mod` 10)] else []) ++ [digit (b `mod` 10)].
(** [appendHex] *)
Definition hex_u16 (x : Z) : gostring :=
  (if 4096 <=? x then [digit (x / 4096)] else [])
  ++ (if 256 <=? x then [digit ((x / 256) `mod` 16)] else [])
  ++ (if 16 <=? x then [digit ((x / 16) `mod` 16)] else []) ++ [digit (x `mod` 16)].

Definition string4 (ip : IP) : gostring := Join (map decimal_byte ip) (str ".").

Fixpoint u16s (ip : IP) : list Z :=
  match ip with a :: b :: ip => a * 256 + b :: u16s ip | _ => [] end.

Fixpoint zero_run (l : list Z) : nat :=
  match l with x :: l => if x =? 0 then S (zero_run l) else 0%nat | [] => 0%nat end.
(** The first longest run of at least two zero groups: where and how long. *)
Fixpoint longest_zeros (i : nat) (l : list Z) (best : option (nat * nat)) : option (nat * nat) :=
  match l with
  | [] => best
  | _ :: l' =>
      let r := zero_run l in
      let best := if bool_decide (2 ≤ r ∧ default 0 (snd <$> best) < r)%nat then Some (i, r) else best in
      longest_zeros (S i) l' best
  end.

Definition string6 (ip : IP) : gostring :=
  let g := u16s ip in
  match longest_zeros 0 g None with
  | Some (s, r) =>
      Join (map hex_u16 (take s g)) (str ":") ++ str "::" ++ Join (map hex_u16 (drop (s + r) g)) (str ":")
  | None => Join (map hex_u16 g) (str ":")
  end.

(** A nil address and one of an odd length are not printed by the sources. *)
Definition IP_String (ip : option IP) : gostring :=
  match ip with
  | None => str "<nil>"
  | Some ip => match To4 ip with Some p4 => string4 p4 | None => string6 ip end
  end.

(** ** [net.SplitHostPort] and [net.JoinHostPort] *)

Fixpoint index_byte (c : Z) (s : gostring) : option nat :=
  match s with
  | [] => None
  | x :: s => if code x =? c then Some 0%nat else S <$> index_byte c s
  end.
Definition last_index_byte (c : Z) (s : gostring) : option nat :=
  (λ i, length s - 1 - i)%nat <$> index_byte c (reverse s).

Inductive addr_error :=
  | missing_port | too_many_colons | missing_bracket | unexpected_open | unexpected_close.

Definition SplitHostPort (hostport : gostring) : result addr_error (gostring * gostring) :=
  match last_index_byte 58 hostport with
  | None => Err missing_port
  | Some i =>
      '(host, j, k) ←
        (if bool_decide (code <$> head hostport = Some 91) then
           match index_byte 93 hostport with
           | None => Err missing_bracket
           | Some e =>
               if bool_decide (e + 1 = length hostport)%nat then Err missing_port
               else if bool_decide (e + 1 = i)%nat
               then Ok (take (e - 1) (drop 1 hostport), 1%nat, (e + 1)%nat)
               else if bool_decide (code <$> hostport !! (e + 1)%nat = Some 58) then Err too_many_colons
               else Err missing_port
           end
         else if has 58 (take i hostport) then Err too_many_colons
         else Ok (take i hostport, 0%nat, 0%nat));
      if has 91 (drop j hostport) then Err unexpected_open
      else if has 93 (drop k hostport) then Err unexpected_close
      else Ok (host, drop (i + 1) hostport)
  end.

Definition JoinHostPort (host port : gostring) : gostring :=
  if has 58 host then str "[" ++ host ++ str "]:" ++ port else host ++ str ":" ++ port.

(** ** Facts *)

Lemma has_app c s t : has c (s ++ t) = has c s || has c t.
Proof. apply existsb_app. Qed.

Lemma has_reverse c s : has c (reverse s) = has c s.
Proof.
  induction s as [|x s IH]; [done|]. rewrite reverse_cons, has_app, IH. simpl.
  rewrite orb_false_r. apply orb_comm.
Qed.

Lemma index_byte_app c s x t :
  has c s = false → code x = c → index_byte c (s ++ x :: t) = Some (length s).
Proof.
  intros Hs Hx. induction s as [|y s IH]; simpl in *; [by rewrite Hx, Z.eqb_refl|].
  apply orb_false_iff in Hs as [-> Hs]. by rewrite IH.
Qed.

Lemma last_index_byte_app c s x t :
  has c t = false → code x = c → last_index_byte c (s ++ x :: t) = Some (length s).
Proof.
  intros Ht Hx. unfold last_index_byte. rewrite reverse_app, reverse_cons, <-app_assoc. cbn [app].
  rewrite (index_byte_app c (reverse t) x); [|by rewrite has_reverse|done].
  simpl. f_equal. rewrite length_app, length_reverse. simpl. lia.
Qed.

Lemma has_false_head c s : has c s = false → bool_decide (code <$> head s = Some c) = false.
Proof.
  destruct s as [|x s]; [done|]. simpl. intros [Hx _]%orb_false_iff.
  apply bool_decide_eq_false. intros [= Hc]. lia.
Qed.

(** Splitting undoes joining, for a host without brackets and a port without
    brackets and colons. *)
Lemma Split_Join host port :
  has 91 host = false → has 93 host = false →
  has 58 port = false → has 91 port = false → has 93 port = false →
  SplitHostPort (JoinHostPort host port) = Ok (host, port).
Proof.
  intros H1 H2 H3 H4 H5. unfold JoinHostPort. destruct (has 58 host) eqn:Hc.
  - set (hp := str "[" ++ host ++ str "]:" ++ port).
    assert (hp = ("["%char :: host ++ ["]"%char]) ++ ":"%char :: port) as E1.
    { unfold hp. cbn. by rewrite <-app_assoc. }
    assert (hp = ("["%char :: host) ++ "]"%char :: ":"%char :: port) as E2 by done.
    clearbody hp.
    assert (last_index_byte 58 hp = Some (length host + 2)%nat) as Hj.
    { rewrite E1, last_index_byte_app by done. f_equal. simpl. rewrite length_app. simpl. lia. }
    assert (index_byte 93 hp = Some (length host + 1)%nat) as Hi.
    { rewrite E2, index_byte_app by done. f_equal. simpl. lia. }
    assert (length hp = length host + length port + 3)%nat as Hl.
    { rewrite E2, length_app. simpl. lia. }
    assert (bool_decide (code <$> head hp = Some 91) = true) as Hh by (by rewrite E2).
    assert (take (length host) (drop 1 hp) = host) as Ht.
    { rewrite E2. simpl. apply take_app_length. }
    assert (has 91 (drop 1 hp) = false ∧ has 93 (drop (length host + 2) hp) = false) as [Ho Hcl].
    { rewrite E2. cbn [app drop]. rewrite drop_0. split; [rewrite has_app, H1; simpl; by rewrite H4|].
      replace (length host + 2)%nat with (length ("["%char :: host) + 1)%nat by (simpl; lia).
      change ("["%char :: host ++ ?r) with (("["%char :: host) ++ r).
      rewrite <-drop_drop, drop_app_length. simpl. by rewrite H5. }
    assert (drop (length host + 2 + 1) hp = port) as Hp.
    { rewrite E2. replace (length host + 2 + 1)%nat with (length ("["%char :: host) + 2)%nat by (simpl; lia).
      by rewrite <-drop_drop, drop_app_length. }
    unfold SplitHostPort. rewrite Hj, Hh, Hi, Hl.
    rewrite bool_decide_eq_false_2, bool_decide_eq_true_2 by lia. cbn.
    replace (length host + 1 - 1)%nat with (length host) by lia.
    replace (length host + 1 + 1)%nat with (length host + 2)%nat by lia.
    by rewrite Ho, Hcl, Hp, Ht.
  - unfold SplitHostPort. cbn [str String.list_ascii_of_string app].
    rewrite last_index_byte_app by done.
    assert (take (length host) (host ++ ":"%char :: port) = host) as Ht by apply take_app_length.
    assert (bool_decide (code <$> head (host ++ ":"%char :: port) = Some 91) = false) as ->.
    { apply has_false_head. rewrite has_app, H1. simpl. by rewrite H4. }
    rewrite Ht, Hc. unfold mbind, result_bind. rewrite !drop_0, !has_app, H1, H2. simpl. rewrite H4, H5.
    f_equal. f_equal. rewrite <-drop_drop, drop_app_length. done.
Qed.

(** What the parsers return: four or sixteen bytes. *)
Lemma is_digit_range c : is_digit c = true → 0 ≤ code c - 48 ≤ 9.
Proof. unfold is_digit. intros [H1 H2]%andb_true_iff. lia. Qed.

Lemma parseIPv4Fields_ok s fields val digLen ip :
  bytes_ok fields → 0 ≤ val < 256 → parseIPv4Fields s fields val digLen = Some ip →
  bytes_ok ip ∧ length ip = 4%nat.
Proof.
  revert fields val digLen. induction s as [|c s IH]; intros fields val digLen Hf Hv; simpl.
  - destruct (_ && _) eqn:E; [|done]. intros [= <-]. apply andb_true_iff in E as [E _]. split.
    + apply Forall_reverse. by constructor.
    + rewrite length_reverse. simpl. lia.
  - destruct (is_digit c) eqn:Hc.
    + apply is_digit_range in Hc. destruct (_ && _); [done|].
      destruct (255 <? _) eqn:E; [done|]. apply IH; [done|lia].
    + destruct (code c =? 46); [|done]. destruct (_ || _); [done|].
      apply IH; [by constructor|lia].
Qed.

Lemma hex_digit_range c d : hex_digit c = Some d → 0 ≤ d < 16.
Proof. unfold hex_digit. repeat case_match; intros [= <-]; lia. Qed.

Lemma hex_group_range s off acc a o r :
  0 ≤ off ≤ 4 → 0 ≤ acc < 16 ^ off → hex_group s off acc = Some (a, o, r) → 0 ≤ a < 65536.
Proof.
  revert off acc. induction s as [|c s IH]; intros off acc Ho Ha; simpl.
  - intros [= <- _ _]. assert (16 ^ off ≤ 16 ^ 4) by (apply Z.pow_le_mono_r; lia). lia.
  - destruct (hex_digit c) as [d|] eqn:Hd.
    + destruct (3 <? off) eqn:E; [done|]. apply hex_digit_range in Hd.
      apply IH; [lia|]. rewrite Z.pow_add_r by lia. lia.
    + intros [= <- _ _]. assert (16 ^ off ≤ 16 ^ 4) by (apply Z.pow_le_mono_r; lia). lia.
Qed.

Lemma parseIPv6_loop_ok n s ip e s' ip' e' :
  bytes_ok ip → (length ip + 2 * n ≤ 16)%nat →
  parseIPv6_loop n s ip e = Some (s', ip', e') → bytes_ok ip' ∧ (length ip' ≤ 16)%nat.
Proof.
  revert s ip e. induction n as [|n IH]; intros s ip e Hok Hlen; simpl.
  { intros [= _ <- _]. split; [done|lia]. }
  destruct (hex_group s 0 0) as [[[a o] r]|] eqn:Hg; simpl; [|done].
  pose proof (hex_group_range s 0 0 a o r ltac:(lia) ltac:(lia) Hg) as Ha.
  assert (bytes_ok (ip ++ [a / 256; a `mod` 256])) as Hok'.
  { apply Forall_app. split; [done|]. repeat constructor; Z.div_mod_to_equations; lia. }
  assert (length (ip ++ [a / 256; a `mod` 256]) = (length ip + 2)%nat) as Hlen'.
  { rewrite length_app. done. }
  destruct (o =? 0); [done|]. destruct r as [|c r].
  { intros [= _ <- _]. split; [done|lia]. }
  destruct (code c =? 46).
  - destruct (_ && _); [done|]. destruct (bool_decide (16 < length ip + 4)%nat) eqn:E; [done|].
    apply bool_decide_eq_false in E. destruct (parseIPv4 s) as [f|] eqn:Hf; simpl; [|done].
    intros [= _ <- _]. apply parseIPv4Fields_ok in Hf as [??]; [|constructor|lia].
    rewrite length_app. split; [by apply Forall_app|lia].
  - destruct (code c =? 58); simpl; [|done]. destruct r as [|c2 r]; [done|].
    destruct (code c2 =? 58).
    + destruct e; [done|]. destruct r as [|c3 r].
      * intros [= _ <- _]. split; [done|lia].
      * apply IH; [done|lia].
    + apply IH; [done|lia].
Qed.

Lemma parseIPv6_ok s ip : parseIPv6 s = Some ip → bytes_ok ip ∧ length ip = 16%nat.
Proof.
  unfold parseIPv6. destruct (match s with [] => _ | _ => _ end) as [s1 e].
  destruct (bool_decide (s1 = [] ∧ _)).
  { intros [= <-]. split; [repeat constructor; done|done]. }
  destruct (parseIPv6_loop 8 s1 [] e) as [[[s2 ip2] e2]|] eqn:Hl; simpl; [|done].
  apply parseIPv6_loop_ok in Hl as [Hok Hlen]; [|constructor|simpl; lia].
  destruct (negb _); [done|]. destruct (bool_decide (length ip2 < 16)%nat) eqn:E.
  - apply bool_decide_eq_true in E. destruct e2 as [k|]; simpl; [|done]. intros [= <-]. split.
    + repeat apply Forall_app_2; [by apply Forall_take|apply Forall_replicate; lia|by apply Forall_drop].
    + rewrite !length_app, length_take, length_replicate, length_drop. lia.
  - apply bool_decide_eq_false in E. destruct e2; [done|]. intros [= <-]. split; [done|lia].
Qed.

Lemma ParseIP_ok s ip : ParseIP s = Some ip → bytes_ok ip ∧ length ip = 16%nat.
Proof.
  assert (∀ full s a, ParseAddr_from full s = Some a → bytes_ok (As16 a) ∧ length (As16 a) = 16%nat)
    as Hgen.
  { intros full t. induction t as [|c t IH]; intros a; simpl; [done|].
    destruct (code c =? 46).
    { destruct (parseIPv4 full) as [f|] eqn:Hf; simpl; [|done]. intros [= <-].
      apply parseIPv4Fields_ok in Hf as [??]; [|constructor|lia]. cbn [As16].
      rewrite length_app. split; [|simpl; lia].
      apply Forall_app. split; [|done]. repeat constructor; done. }
    destruct (code c =? 58).
    { destruct (has 37 full); [done|]. destruct (parseIPv6 full) as [f|] eqn:Hf; simpl; [|done].
      intros [= <-]. by eapply parseIPv6_ok. }
    destruct (code c =? 37); [done|apply IH]. }
  unfold ParseIP, ParseAddr. destruct (ParseAddr_from s s) as [a|] eqn:Ha; simpl; [|done].
  intros [= <-]. by eapply Hgen.
Qed.
