(* ===== verification/Addresses.v ===== *)
(** * Which addresses are public: ip.go and httpclient/dialguard.go

    [dialGuard] is the [net.Dialer.Control] callback of [WithDialGuard];
    [AnonymizeIP] and [IsValidIP] are the helpers of the root package.  All of
    them are translated over the parser and the predicates of Net.v. *)
From Stdlib Require Import Ascii String.
From S2P Require Export Prelude GoStrings Errors Net.
Local Open Scope Z_scope.

(** ** dialguard.go *)

Definition mustCIDR (s : gostring) : result error IPNet :=
  match ParseCIDR s with Some n => Ok n | None => Panic "invalid CIDR address" end.

(** The initialiser of the package variable, and its value. *)
Definition disallowedNets_init : result error (list IPNet) :=
  mapM mustCIDR
    (map str ["64:ff9b::/96"; "64:ff9b:1::/48"; "2002::/16"; "2001::/32"; "::/96";
              "100.64.0.0/10"; "0.0.0.0/8"; "100.100.100.200/32"]%string).
Definition disallowedNets : list IPNet :=
  match disallowedNets_init with Ok l => l | _ => [] end.

Definition isDisallowedIP (ip : IP) : bool :=
  let norm := match To4 ip with Some v4 => v4 | None => ip end in
  if IsLoopback norm || IsPrivate norm || IsLinkLocalUnicast norm
     || IsUnspecified norm || IsMulticast norm
  then true
  else existsb (λ n, Contains_ip n norm) disallowedNets.

(** A [*net.AddrError] is a [net.Error] that is no timeout. *)
Definition AddrError : error := Node (KNet 0 false) [].

Definition dialGuard (network address : gostring) : option error :=
  match SplitHostPort address with
  | Ok (host, _) =>
      match ParseIP host with
      | Some ip =>
          if isDisallowedIP ip
          then Some (Errorf 0 "dial guard: refusing to dial disallowed address %s" [])
          else None
      | None => Some (Errorf 0 "dial guard: refusing to dial disallowed address %s" [])
      end
  | _ => Some (Errorf 0 "dial guard: malformed address %q: %w" [AddrError])
  end.

(** ** ip.go *)

Definition AnonymizeIP (ip : gostring) : gostring :=
  if decide (ip = []) then [] else
  match ParseIP ip with
  | None => ip
  | Some parsedIP =>
      match To4 parsedIP with
      | Some v4 => IP_String (Mask v4 (CIDRMask 24 32))
      | None => IP_String (Mask parsedIP (CIDRMask 48 128))
      end
  end.

Definition IsValidIP (ipStr : gostring) : bool :=
  match ParseIP ipStr with
  | None => false
  | Some ip =>
      negb (IsUnspecified ip) && negb (IsPrivate ip) && negb (IsLoopback ip)
      && negb (IsMulticast ip) && negb (IsLinkLocalUnicast ip) && negb (IsLinkLocalMulticast ip)
  end.

(** ** Specification

    An address as its number, and the ranges that are not public. *)
Definition num (ip : IP) : Z := foldl (λ n b, n * 256 + b) 0 ip.
Definition dotted (a b c d : Z) : Z := num [a; b; c; d].

Definition reserved4 : list (Z * Z) :=
  [ (dotted 0 0 0 0, dotted 0 255 255 255);           (* this network *)
    (dotted 10 0 0 0, dotted 10 255 255 255);         (* private *)
    (dotted 100 64 0 0, dotted 100 127 255 255);      (* CGNAT *)
    (dotted 127 0 0 0, dotted 127 255 255 255);       (* loopback *)
    (dotted 169 254 0 0, dotted 169 254 255 255);     (* link-local, cloud metadata *)
    (dotted 172 16 0 0, dotted 172 31 255 255);       (* private *)
    (dotted 192 168 0 0, dotted 192 168 255 255);     (* private *)
    (dotted 224 0 0 0, dotted 239 255 255 255) ].     (* multicast *)
Definition in_ranges (n : Z) (l : list (Z * Z)) : bool :=
  existsb (λ '(lo, hi), (lo <=? n) && (n <=? hi)) l.

(** IPv6 prefixes, with the bits of the byte after them that count. *)
Definition reserved6 (ip : IP) : bool :=
  bool_decide (take 12 ip = replicate 12 0)                         (* ::/96 with :: and ::1 *)
  || bool_decide (take 12 ip = [0; 100; 255; 155] ++ replicate 8 0) (* 64:ff9b::/96 *)
  || bool_decide (take 6 ip = [0; 100; 255; 155; 0; 1])             (* 64:ff9b:1::/48 *)
  || bool_decide (take 2 ip = [32; 2])                              (* 2002::/16 *)
  || bool_decide (take 4 ip = [32; 1; 0; 0])                        (* 2001::/32 *)
  || ((252 <=? at_ ip 0) && (at_ ip 0 <=? 253))                     (* fc00::/7 *)
  || ((at_ ip 0 =? 254) && (128 <=? at_ ip 1) && (at_ ip 1 <=? 191)) (* fe80::/10 *)
  || (at_ ip 0 =? 255).                                             (* ff00::/8 *)

Definition reserved (ip : IP) : bool :=
  match To4 ip with Some v4 => in_ranges (num v4) reserved4 | None => reserved6 ip end.

(** ** Bits of a byte *)

Lemma byte_forall (f : Z → bool) :
  forallb (λ n, f (Z.of_nat n)) (seq 0 256) = true → ∀ b, 0 ≤ b < 256 → f b = true.
Proof.
  rewrite forallb_forall. intros Hf b Hb. specialize (Hf (Z.to_nat b)).
  rewrite Z2Nat.id in Hf by lia. apply Hf, in_seq. lia.
Qed.

(** Evaluates a fact about one byte on all 256 of them. *)
Ltac byte_fact Hb :=
  match goal with
  | |- ?x = ?y =>
      match type of Hb with
      | 0 ≤ ?b < 256 =>
          let f := eval pattern b in (Bool.eqb x y) in
          match f with
          | ?g b => apply eqb_prop; exact (byte_forall g ltac:(vm_compute; reflexivity) b Hb)
          end
      end
  end.

Lemma land_240_16 b : 0 ≤ b < 256 → (Z.land b 240 =? 16) = ((16 <=? b) && (b <=? 31)).
Proof. intros Hb. byte_fact Hb. Qed.
Lemma land_240_224 b : 0 ≤ b < 256 → (Z.land b 240 =? 224) = ((224 <=? b) && (b <=? 239)).
Proof. intros Hb. byte_fact Hb. Qed.
Lemma land_254_252 b : 0 ≤ b < 256 → (Z.land b 254 =? 252) = ((252 <=? b) && (b <=? 253)).
Proof. intros Hb. byte_fact Hb. Qed.
Lemma land_192_128 b : 0 ≤ b < 256 → (Z.land b 192 =? 128) = ((128 <=? b) && (b <=? 191)).
Proof. intros Hb. byte_fact Hb. Qed.
Lemma land_192_64 b : 0 ≤ b < 256 → (Z.land b 192 =? 64) = ((64 <=? b) && (b <=? 127)).
Proof. intros Hb. byte_fact Hb. Qed.
Lemma land_255 b : 0 ≤ b < 256 → Z.land b 255 = b.
Proof.
  intros Hb. apply Z.eqb_eq. transitivity (Z.eqb b b); [|apply Z.eqb_refl].
  byte_fact Hb.
Qed.

(** ** The guard's test is membership in the reserved ranges *)

Definition net4 (a b c d m1 m2 m3 m4 : Z) : IPNet := {| net_IP := [a; b; c; d]; net_Mask := [m1; m2; m3; m4] |}.
Definition net6 (prefix : list Z) (len : nat) : IPNet :=
  {| net_IP := prefix ++ replicate (16 - length prefix) 0;
     net_Mask := replicate len 255 ++ replicate (16 - len) 0 |}.

(** The package variable is initialised without a panic, to these networks. *)
Lemma disallowedNets_value :
  disallowedNets_init = Ok disallowedNets ∧
  disallowedNets =
    [net6 [0; 100; 255; 155] 12; net6 [0; 100; 255; 155; 0; 1] 6; net6 [32; 2] 2;
     net6 [32; 1] 4; net6 [] 12; net4 100 64 0 0 255 192 0 0; net4 0 0 0 0 255 0 0 0;
     net4 100 100 100 200 255 255 255 255].
Proof. vm_compute. auto. Qed.

Lemma land_lt_256 b m : 0 ≤ b < 256 → 0 ≤ m → 0 ≤ Z.land b m < 256.
Proof.
  intros Hb Hm. split; [apply Z.land_nonneg; lia|].
  destruct (decide (Z.land b m = 0)); [lia|].
  apply Z.log2_lt_pow2 with (b := 8); [pose proof (Z.land_nonneg b m); lia|].
  eapply Z.le_lt_trans; [apply Z.log2_land; lia|].
  destruct (decide (b = 0)) as [->|]; [cbn; lia|].
  assert (Z.log2 b < 8) by (apply Z.log2_lt_pow2; lia). lia.
Qed.

Lemma eq4 (a b c d a' b' c' d' : Z) :
  bool_decide ([a; b; c; d] = [a'; b'; c'; d']) = (a =? a') && (b =? b') && (c =? c') && (d =? d').
Proof.
  apply eq_true_iff_eq. rewrite bool_decide_eq_true, !andb_true_iff, !Z.eqb_eq.
  split; [by intros [= -> -> -> ->]|by intros [[[-> ->] ->] ->]].
Qed.

Lemma Contains_net4 n1 n2 n3 n4 m1 m2 m3 m4 a b c d :
  Contains_ip (net4 n1 n2 n3 n4 m1 m2 m3 m4) [a; b; c; d]
  = (Z.land n1 m1 =? Z.land a m1) && (Z.land n2 m2 =? Z.land b m2)
    && (Z.land n3 m3 =? Z.land c m3) && (Z.land n4 m4 =? Z.land d m4).
Proof. rewrite <-eq4. reflexivity. Qed.

Lemma IsUnspecified4 a b c d :
  IsUnspecified [a; b; c; d] = (a =? 0) && (b =? 0) && (c =? 0) && (d =? 0).
Proof.
  transitivity (bool_decide (IPv4zero = v4InV6Prefix ++ [a; b; c; d])
                || bool_decide (IPv6unspecified = v4InV6Prefix ++ [a; b; c; d])); [reflexivity|].
  rewrite (bool_decide_eq_false_2 (IPv6unspecified = _)) by (vm_compute; congruence).
  rewrite orb_false_r, <-eq4. apply bool_decide_ext. unfold IPv4zero.
  split; [intros Heq%app_inv_head; congruence|by intros ->].
Qed.

(** Ranges of addresses as conditions on the leading bytes. *)
Lemma range8 x1 x2 a b c d : bytes_ok [a; b; c; d] →
  (dotted x1 0 0 0 <=? num [a; b; c; d]) && (num [a; b; c; d] <=? dotted x2 255 255 255)
  = (x1 <=? a) && (a <=? x2).
Proof.
  unfold bytes_ok. rewrite !Forall_cons. intros (Ha & Hb & Hc & Hd & _).
  unfold dotted, num. cbn [foldl]. apply eq_true_iff_eq.
  rewrite !andb_true_iff, !Z.leb_le. lia.
Qed.

Lemma range16 x y1 y2 a b c d : bytes_ok [a; b; c; d] →
  0 ≤ y1 < 256 → 0 ≤ y2 < 256 →
  (dotted x y1 0 0 <=? num [a; b; c; d]) && (num [a; b; c; d] <=? dotted x y2 255 255)
  = (a =? x) && ((y1 <=? b) && (b <=? y2)).
Proof.
  unfold bytes_ok. rewrite !Forall_cons. intros (Ha & Hb & Hc & Hd & _) Hy1 Hy2.
  unfold dotted, num. cbn [foldl]. apply eq_true_iff_eq.
  rewrite !andb_true_iff, !Z.leb_le, Z.eqb_eq. lia.
Qed.

Lemma leb_antisym_eqb a x : (x <=? a) && (a <=? x) = (a =? x).
Proof. apply eq_true_iff_eq. rewrite andb_true_iff, !Z.leb_le, Z.eqb_eq. lia. Qed.

Lemma isDisallowed4 a b c d :
  bytes_ok [a; b; c; d] → isDisallowedIP [a; b; c; d] = in_ranges (num [a; b; c; d]) reserved4.
Proof.
  intros Hok. pose proof Hok as Hbytes. unfold bytes_ok in Hbytes. rewrite !Forall_cons in Hbytes.
  destruct Hbytes as (Ha & Hb & Hc & Hd & _).
  unfold isDisallowedIP. rewrite (proj2 disallowedNets_value).
  change (To4 [a; b; c; d]) with (Some [a; b; c; d]). cbv iota beta. cbn [existsb].
  rewrite !Contains_net4, IsUnspecified4.
  change (IsLoopback [a; b; c; d]) with (a =? 127).
  change (IsPrivate [a; b; c; d])
    with ((a =? 10) || ((a =? 172) && (Z.land b 240 =? 16)) || ((a =? 192) && (b =? 168))).
  change (IsLinkLocalUnicast [a; b; c; d]) with ((a =? 169) && (b =? 254)).
  change (IsMulticast [a; b; c; d]) with (Z.land a 240 =? 224).
  repeat match goal with
  | |- context [Contains_ip (net6 ?p ?k) ?x] => change (Contains_ip (net6 p k) x) with false
  end.
  rewrite (land_240_16 b Hb), (land_240_224 a Ha), !Z.land_0_r, !land_255 by done.
  change (Z.land 64 192) with 64. change (Z.land 100 255) with 100.
  change (Z.land 0 255) with 0. change (Z.land 200 255) with 200.
  rewrite (Z.eqb_sym 64), (land_192_64 b Hb).
  unfold in_ranges, reserved4. cbn [existsb].
  rewrite !range8, !range16, !leb_antisym_eqb by done.
  assert ((100 =? a) && (100 =? b) && (100 =? c) && (200 =? d)
          = (100 =? a) && (100 =? b) && (100 =? c) && (200 =? d)
            && ((a =? 100) && ((64 <=? b) && (b <=? 127)))) as ->.
  { apply eq_true_iff_eq. rewrite !andb_true_iff, !Z.eqb_eq, !Z.leb_le. lia. }
  rewrite (Z.eqb_sym 100 a), (Z.eqb_sym 0 a), !Z.eqb_refl, !andb_true_r.
  match goal with |- (if ?b then true else ?x) = ?y => change (b || x = y) end.
  apply eq_true_iff_eq. rewrite !orb_true_iff, !andb_true_iff.
  assert (false ≠ true) by done. tauto.
Qed.

Lemma zip_mask ip k :
  bytes_ok ip → (k ≤ length ip)%nat →
  zip_with Z.land ip (replicate k 255 ++ replicate (length ip - k) 0)
  = take k ip ++ replicate (length ip - k) 0.
Proof.
  intros Hok. revert k. induction Hok as [|b ip Hb Hok IH]; intros k Hk; [by destruct k|].
  destruct k as [|k]; cbn in *.
  - rewrite Z.land_0_r. f_equal. specialize (IH 0%nat ltac:(lia)).
    rewrite Nat.sub_0_r in IH. exact IH.
  - rewrite land_255 by done. f_equal. apply IH. lia.
Qed.

Lemma Contains_net6 p k ip :
  let q := p ++ replicate (16 - length p) 0 in
  To4 q = None → bytes_ok q → length q = 16%nat → (k ≤ 16)%nat →
  bytes_ok ip → length ip = 16%nat → To4 ip = None →
  Contains_ip (net6 p k) ip = bool_decide (take k ip = take k q).
Proof.
  unfold net6. generalize (p ++ replicate (16 - length p) 0) as q. cbn zeta.
  intros q Hq Hqb Hql Hk Hok Hl Hip.
  assert (length (replicate k 255 ++ replicate (16 - k) 0) = 16%nat) as Hm.
  { rewrite length_app, !length_replicate. lia. }
  pose proof (zip_mask ip k Hok) as H1. pose proof (zip_mask q k Hqb) as H2.
  rewrite Hl in H1. rewrite Hql in H2. specialize (H1 Hk). specialize (H2 Hk).
  revert Hm H1 H2. generalize (replicate k 255 ++ replicate (16 - k) 0) as m.
  intros m Hm H1 H2. unfold Contains_ip, networkNumberAndMask. cbn [net_IP net_Mask].
  rewrite Hq, Hql, Hm, Hip. cbn. rewrite Hl.
  rewrite !(bool_decide_eq_true_2 (16%nat = 16%nat)), (bool_decide_eq_false_2 (16%nat = 4%nat)) by done.
  cbn. rewrite Hql, !(bool_decide_eq_true_2 (16%nat = 16%nat)), (bool_decide_eq_false_2 (16%nat = 4%nat)) by done.
  cbn [andb].
  rewrite H1, H2. apply bool_decide_ext.
  split; [intros Heq%app_inj_2; naive_solver|by intros ->].
Qed.

Lemma Contains_net4_v6 n1 n2 n3 n4 m1 m2 m3 m4 ip :
  length ip = 16%nat → To4 ip = None →
  Contains_ip (net4 n1 n2 n3 n4 m1 m2 m3 m4) ip = false.
Proof.
  intros Hl Hip. unfold Contains_ip.
  change (networkNumberAndMask _) with (Some ([n1; n2; n3; n4], [m1; m2; m3; m4])).
  cbn match. rewrite Hip. cbn. rewrite Hl. reflexivity.
Qed.

Lemma at_range ip i : bytes_ok ip → 0 ≤ at_ ip i < 256.
Proof.
  intros Hok. unfold at_. destruct (ip !! i) as [b|] eqn:Hb.
  - rewrite (nth_lookup_Some _ _ _ _ Hb). by apply (Forall_lookup_1 _ _ _ _ Hok Hb).
  - rewrite nth_lookup, Hb. simpl. lia.
Qed.

Lemma isDisallowed6 ip :
  bytes_ok ip → length ip = 16%nat → To4 ip = None → isDisallowedIP ip = reserved6 ip.
Proof.
  intros Hok Hl Hip. unfold isDisallowedIP. rewrite (proj2 disallowedNets_value), Hip.
  cbn [existsb]. rewrite !Contains_net4_v6 by done.
  rewrite !Contains_net6 by first [done | reflexivity | (repeat constructor; done) | (simpl; lia)].
  unfold IsLoopback, IsPrivate, IsLinkLocalUnicast, IsMulticast, IsUnspecified, IP_Equal.
  rewrite Hip, Hl. cbn [length IPv6loopback IPv4zero IPv6unspecified].
  rewrite (land_254_252 _ (at_range ip 0 Hok)), (land_192_128 _ (at_range ip 1 Hok)).
  match goal with |- (if ?b then true else ?x) = ?y => change (b || x = y) end.
  change (bool_decide (16%nat = length ?l)) with true.
  change (bool_decide (16%nat = 16%nat)) with true. cbn iota. rewrite !andb_true_l.
  unfold reserved6. apply eq_true_iff_eq.
  assert (ip = IPv6loopback → take 12 ip = replicate 12 0) as E1 by (by intros ->).
  assert (ip = IPv6unspecified → take 12 ip = replicate 12 0) as E2 by (by intros ->).
  assert (ip ≠ IPv4zero) as E3 by (by intros ->).
  assert (false ≠ true) by done.
  rewrite !orb_true_iff, !andb_true_iff, !bool_decide_eq_true. 
  change (take 12 ([] ++ replicate (16 - length []) 0)) with (replicate 12 0).
  tauto.
Qed.

Lemma To4_ok ip v4 : bytes_ok ip → To4 ip = Some v4 → bytes_ok v4 ∧ length v4 = 4%nat.
Proof.
  intros Hok. unfold To4. destruct (bool_decide (length ip = 4%nat)) eqn:E4.
  { apply bool_decide_eq_true in E4. by intros [= <-]. }
  destruct (bool_decide (_ ∧ _)) eqn:E; [|done]. apply bool_decide_eq_true in E as [E _].
  intros [= <-]. split; [by apply Forall_drop|]. rewrite length_drop. lia.
Qed.

Lemma isDisallowedIP_spec ip :
  bytes_ok ip → length ip = 4%nat ∨ length ip = 16%nat → isDisallowedIP ip = reserved ip.
Proof.
  intros Hok Hl. unfold reserved. destruct (To4 ip) as [v4|] eqn:H4.
  - destruct (To4_ok ip v4 Hok H4) as [Hok4 Hl4].
    destruct v4 as [|a [|b [|c [|d [|]]]]]; try done. rewrite <-(isDisallowed4 a b c d Hok4).
    unfold isDisallowedIP. by rewrite H4.
  - apply isDisallowed6; [done| |done].
    destruct Hl as [Hl|]; [|done]. unfold To4 in H4. by rewrite Hl in H4.
Qed.

Lemma To4_mapped v4 : length v4 = 4%nat → To4 (v4InV6Prefix ++ v4) = Some v4.
Proof.
  intros Hl. unfold To4. rewrite length_app, Hl. simpl.
  destruct v4 as [|a [|b [|c [|d [|]]]]]; done.
Qed.

(** The predicates see through the mapped form. *)
Lemma To4_length ip v4 : To4 ip = Some v4 → length v4 = 4%nat ∧ (ip = v4 ∨ ip = v4InV6Prefix ++ v4).
Proof.
  unfold To4. destruct (bool_decide (length ip = 4%nat)) eqn:E4.
  { apply bool_decide_eq_true in E4. intros [= <-]. auto. }
  destruct (bool_decide (_ ∧ _)) eqn:E; [|done]. apply bool_decide_eq_true in E as [E Hp].
  intros [= <-]. rewrite length_drop, <-Hp, take_drop. split; [lia|auto].
Qed.

Definition norm (ip : IP) : IP := match To4 ip with Some v4 => v4 | None => ip end.

Lemma norm_predicates ip :
  length ip = 16%nat →
  IsLoopback (norm ip) = IsLoopback ip ∧ IsPrivate (norm ip) = IsPrivate ip
  ∧ IsLinkLocalUnicast (norm ip) = IsLinkLocalUnicast ip
  ∧ IsUnspecified (norm ip) = IsUnspecified ip ∧ IsMulticast (norm ip) = IsMulticast ip.
Proof.
  intros Hl. unfold norm. destruct (To4 ip) as [v4|] eqn:H4; [|done].
  pose proof (To4_length ip v4 H4) as [Hl4 [->|E]]; [done|].
  assert (To4 v4 = Some v4) as H44 by (unfold To4; by rewrite Hl4).
  unfold IsLoopback, IsPrivate, IsLinkLocalUnicast, IsMulticast. rewrite H4, H44.
  split_and?; try done. rewrite E. destruct v4 as [|a [|b [|c [|d [|]]]]]; try done.
  rewrite IsUnspecified4, <-eq4. symmetry.
  transitivity (bool_decide (v4InV6Prefix ++ [a; b; c; d] = IPv4zero)
                || bool_decide (v4InV6Prefix ++ [a; b; c; d] = IPv6unspecified)); [reflexivity|].
  rewrite (bool_decide_eq_false_2 (_ = IPv6unspecified)) by (vm_compute; congruence).
  rewrite orb_false_r. apply bool_decide_ext. unfold IPv4zero.
  split; [intros Heq%app_inv_head; congruence|congruence].
Qed.

Lemma LinkLocalMulticast_multicast ip : IsLinkLocalMulticast ip = true → IsMulticast ip = true.
Proof.
  unfold IsLinkLocalMulticast, IsMulticast. destruct (To4 ip) as [v4|].
  - rewrite !andb_true_iff, Z.eqb_eq. by intros [[-> _] _].
  - rewrite !andb_true_iff. tauto.
Qed.

(** Masking keeps a prefix. *)
Lemma Mask_prefix ip k :
  bytes_ok ip → (k ≤ length ip)%nat → length ip = 4%nat ∨ length ip = 16%nat →
  Mask ip (replicate k 255 ++ replicate (length ip - k) 0)
  = Some (take k ip ++ replicate (length ip - k) 0).
Proof.
  intros Hok Hk Hl. pose proof (zip_mask ip k Hok Hk) as Hz. revert Hz.
  assert (length (replicate k 255 ++ replicate (length ip - k) 0) = length ip) as Hm.
  { rewrite length_app, !length_replicate. lia. }
  revert Hm. generalize (replicate k 255 ++ replicate (length ip - k) 0) as m. intros m Hm Hz.
  unfold Mask. rewrite (bool_decide_eq_false_2 (_ = 16%nat ∧ _ ∧ _)) by lia. cbv iota zeta.
  rewrite (bool_decide_eq_false_2 (_ = 4%nat ∧ _ ∧ _)) by lia.
  rewrite bool_decide_eq_true_2 by done. by rewrite Hz.
Qed.

(** ** Properties *)

(** C23: [dialGuard] lets a dial through exactly when the address is a host and a
    port, the host is an IP literal, and that address lies outside every
    reserved range; it never lets a name through. *)
Theorem dialGuard_spec network address :
  dialGuard network address = None ↔
  ∃ host port ip, SplitHostPort address = Ok (host, port) ∧ ParseIP host = Some ip
                  ∧ reserved ip = false.
Proof.
  unfold dialGuard. split.
  - destruct (SplitHostPort address) as [[host port]| |] eqn:Hs; [|done..].
    destruct (ParseIP host) as [ip|] eqn:Hip; [|done].
    destruct (ParseIP_ok _ _ Hip) as [Hok Hl]. rewrite isDisallowedIP_spec by auto.
    destruct (reserved ip) eqn:Hr; [done|]. eauto 10.
  - intros (host & port & ip & -> & Hip & Hr). rewrite Hip.
    destruct (ParseIP_ok _ _ Hip) as [Hok Hl]. rewrite isDisallowedIP_spec by auto. by rewrite Hr.
Qed.

(** No IPv6 spelling smuggles an IPv4 address past the guard: the mapped form
    is judged like the address itself, and the NAT64, IPv4-compatible, 6to4 and
    Teredo forms are all refused. *)
Theorem embedded_v4_refused v4 rest :
  bytes_ok v4 → length v4 = 4%nat → bytes_ok rest →
  isDisallowedIP (v4InV6Prefix ++ v4) = isDisallowedIP v4
  ∧ isDisallowedIP ([0; 100; 255; 155] ++ replicate 8 0 ++ v4) = true
  ∧ isDisallowedIP (replicate 12 0 ++ v4) = true
  ∧ (length rest = 10%nat → isDisallowedIP ([32; 2] ++ v4 ++ rest) = true)
  ∧ (length rest = 12%nat → isDisallowedIP ([32; 1; 0; 0] ++ rest) = true).
Proof.
  intros Hok Hl Hr. destruct v4 as [|a [|b [|c [|d [|]]]]]; try done.
  pose proof Hok as Hb. unfold bytes_ok in Hb. rewrite !Forall_cons in Hb.
  destruct Hb as (Ha & Hb & Hc & Hd & _).
  assert (∀ l, bytes_ok l → length l = 16%nat → To4 l = None → reserved6 l = true →
               isDisallowedIP l = true) as H6.
  { intros l ???. by rewrite isDisallowed6. }
  split_and?.
  - assert (bytes_ok (v4InV6Prefix ++ [a; b; c; d])) by (by repeat (constructor; [lia|])).
    by rewrite !isDisallowedIP_spec by auto.
  - apply H6; try reflexivity. by repeat (constructor; [lia|]).
  - apply H6; try reflexivity. by repeat (constructor; [lia|]).
  - intros Hlen. apply H6; [by repeat (constructor; [lia|])|by rewrite !length_app, Hlen| |reflexivity].
    unfold To4. rewrite !length_app, Hlen. reflexivity.
  - intros Hlen. apply H6; [by repeat (constructor; [lia|])|by rewrite !length_app, Hlen| |reflexivity].
    unfold To4. rewrite length_app, Hlen. reflexivity.
Qed.

(** The guard refuses whatever [IsValidIP] refuses. *)
Theorem guard_refines_IsValidIP network address host port :
  SplitHostPort address = Ok (host, port) →
  dialGuard network address = None → IsValidIP host = true.
Proof.
  intros Hs. unfold dialGuard, IsValidIP. rewrite Hs.
  destruct (ParseIP host) as [ip|] eqn:Hip; [|done].
  destruct (ParseIP_ok _ _ Hip) as [Hok Hl].
  destruct (norm_predicates ip Hl) as (H1 & H2 & H3 & H4 & H5).
  unfold isDisallowedIP. fold (norm ip). rewrite H1, H2, H3, H4, H5.
  destruct (IsLinkLocalMulticast ip) eqn:Hm.
  { rewrite (LinkLocalMulticast_multicast ip Hm), !orb_true_r. done. }
  destruct (IsLoopback ip), (IsPrivate ip), (IsLinkLocalUnicast ip), (IsUnspecified ip),
    (IsMulticast ip); done.
Qed.

(** C35: [AnonymizeIP] forgets the host: two addresses of the same /24 (or /48, for
    addresses that are not IPv4) are written alike, whatever the other bits. *)
Theorem AnonymizeIP_forgets s1 s2 ip1 ip2 :
  ParseIP s1 = Some ip1 → ParseIP s2 = Some ip2 →
  match To4 ip1, To4 ip2 with
  | Some a, Some b => take 3 a = take 3 b
  | None, None => take 6 ip1 = take 6 ip2
  | _, _ => False
  end →
  AnonymizeIP s1 = AnonymizeIP s2.
Proof.
  intros H1 H2 Hp. unfold AnonymizeIP.
  destruct (ParseIP_ok _ _ H1) as [Hok1 Hl1]. destruct (ParseIP_ok _ _ H2) as [Hok2 Hl2].
  rewrite !decide_False by (intros ->; done). rewrite H1, H2.
  change (CIDRMask 24 32) with (replicate 3 255 ++ replicate (4 - 3) 0).
  change (CIDRMask 48 128) with (replicate 6 255 ++ replicate (16 - 6) 0).
  destruct (To4 ip1) as [a|] eqn:Ha, (To4 ip2) as [b|] eqn:Hb; try done.
  - destruct (To4_ok ip1 a Hok1 Ha) as [Hoka Hla]. destruct (To4_ok ip2 b Hok2 Hb) as [Hokb Hlb].
    pose proof (Mask_prefix a 3 Hoka) as Ma. pose proof (Mask_prefix b 3 Hokb) as Mb.
    rewrite Hla in Ma. rewrite Hlb in Mb. rewrite Ma, Mb by auto with lia. by rewrite Hp.
  - pose proof (Mask_prefix ip1 6 Hok1) as Ma. pose proof (Mask_prefix ip2 6 Hok2) as Mb.
    rewrite Hl1 in Ma. rewrite Hl2 in Mb. rewrite Ma, Mb by auto with lia. by rewrite Hp.
Qed.

(** What is not an address, the empty string included, comes back as it is. *)
Lemma AnonymizeIP_other s : ParseIP s = None → AnonymizeIP s = s.
Proof. intros Hs. unfold AnonymizeIP. case_decide; [done|]. by rewrite Hs. Qed.

(** ** Witnesses *)

Lemma guard_refines_IsValidIP_witness : IsValidIP (str "2606:4700::1111") = true.
Proof.
  exact (guard_refines_IsValidIP (str "tcp") (str "[2606:4700::1111]:443") (str "2606:4700::1111")
    (str "443") eq_refl eq_refl).
Defined.

Lemma embedded_v4_refused_witness :
  isDisallowedIP (v4InV6Prefix ++ [169; 254; 169; 254]) = true
  ∧ isDisallowedIP ([0; 100; 255; 155] ++ replicate 8 0 ++ [169; 254; 169; 254]) = true.
Proof.
  destruct (embedded_v4_refused [169; 254; 169; 254] []) as (Hm & Hn & _);
    [by repeat (constructor; [lia|])|reflexivity|constructor|].
  split; [rewrite Hm; reflexivity|exact Hn].
Defined.

Lemma AnonymizeIP_forgets_witness :
  AnonymizeIP (str "1.2.3.4") = AnonymizeIP (str "::ffff:1.2.3.99")
  ∧ AnonymizeIP (str "1.2.3.4") = str "1.2.3.0".
Proof.
  split; [|vm_compute; reflexivity].
  apply (AnonymizeIP_forgets (str "1.2.3.4") (str "::ffff:1.2.3.99")
    (v4InV6Prefix ++ [1; 2; 3; 4]) (v4InV6Prefix ++ [1; 2; 3; 99])); reflexivity.
Defined.

Example AnonymizeIP_v6 : AnonymizeIP (str "2001:db8:85a3::1") = str "2001:db8:85a3::".
Proof. vm_compute. reflexivity. Qed.
Example dialGuard_metadata : dialGuard (str "tcp") (str "[64:ff9b::a9fe:a9fe]:80") ≠ None.
Proof. vm_compute. discriminate. Qed.
Example dialGuard_public : dialGuard (str "tcp") (str "1.1.1.1:443") = None.
Proof. vm_compute. reflexivity. Qed.
