(* ===== verification/HttpClient.v ===== *)
(** * httpclient: building clients (httpclient/httpclient.go, httpclient/options.go)

    The options as functions on the configuration, the presets, and what the
    constructors wire together: the transport with its dialer, and the retrying
    transport of HttpTransport.v over it.  What [net/http] and [net.Dialer] do
    with a transport and a dialer are arguments. *)
From Stdlib Require Import Ascii String.
From S2P Require Export Prelude GoStrings Errors Net Addresses.
From S2P Require Import Retry HttpTransport.
From coqutil Require Import Datatypes.RecordSetters.
Import TriangleBracketNotations.
Local Open Scope Z_scope.

(** ** Constants *)

Definition DefaultPoolSize : Z := 256.
Definition DefaultIdleConnTimeout : Z := 90 * Second.
Definition DefaultPerAttemptTimeout : Z := 10 * Second.
Definition DefaultMaxRetryAfter : Z := 30 * Second.
Definition DefaultMultiHostIdleConnsPerHost : Z := 2.
Definition DefaultMultiHostIdleConnTimeout : Z := 30 * Second.
Definition Millisecond : Z := 1000000.
Definition defaultMaxRetries : Z := 3.
Definition defaultDelayStep : Z := 200 * Millisecond.
Definition defaultTLSHandshakeTimeout : Z := 10 * Second.
Definition defaultResponseHeaderTimeout : Z := 10 * Second.
Definition defaultExpectContinueTimeout : Z := 1 * Second.
Definition defaultH2PingInterval : Z := 15 * Second.
Definition defaultH2PingTimeout : Z := 15 * Second.
Definition defaultDialTimeout : Z := 30 * Second.
Definition defaultDialKeepAlive : Z := 30 * Second.
Definition VersionTLS12 : Z := 771.

(** ** Contexts with a pinned address *)

(** The keys of [context.WithValue]: the package's own, or somebody else's. *)
Inductive ctx_key := dialIPKey | other_key (name : gostring).
#[export] Instance ctx_key_eq_dec : EqDecision ctx_key.
Proof. solve_decision. Defined.

(** The string values of a context, innermost first. *)
Abbreviation ctx_values := (list (ctx_key * gostring)).
Definition ctx_Value (ctx : ctx_values) (key : ctx_key) : option gostring :=
  snd <$> List.find (λ kv, bool_decide (kv.1 = key)) ctx.

Definition WithDialIP (ctx : ctx_values) (ip : gostring) : ctx_values :=
  if decide (ip = []) then ctx else (dialIPKey, ip) :: ctx.
Definition dialIPFromContext (ctx : ctx_values) : gostring := default [] (ctx_Value ctx dialIPKey).

(** ** Data *)

Record Protocols := { HTTP1 : bool; HTTP2 : bool; UnencryptedHTTP2 : bool }.
Record HTTP2Config := { SendPingTimeout : Z; PingTimeout : Z }.

(** What a dial does outside: the addresses it connects to. *)
Inductive dial_event := EConnect (network address : gostring).
Abbreviation control := (gostring → gostring → option error).

Section client.
Context {O Conn : Type}.
Abbreviation DialFn :=
  (ctx_values → gostring → gostring → Comp dial_event O (result error Conn)).

Record config := {
  maxIdleConns : Z;
  maxIdleConnsPerHost : Z;
  maxConnsPerHost : Z;
  idleConnTimeout : Z;
  tlsHandshakeTimeout : Z;
  responseHeaderTimeout : Z;
  expectContinueTimeout : Z;
  perAttemptTimeout : Z;
  protocols : option Protocols;
  http2 : option HTTP2Config;
  tlsMinVersion : Z;
  dialContext : option DialFn;
  dialControl : option control;
  retrier : option Retry;
  retryIf : option (error → bool);
  maxRetries : Z;
  delayStep : Z;
  retryNonIdempotent : bool;
  maxRetryAfter : Z;
  budget : RetryBudget O;
  onAttempt : option (AttemptInfo → O → O);
}.

(** Both kinds of option are configuration mutators, told apart by their type;
    [Option] is either, or nil. *)
Inductive TransportOption := optionFunc (f : config → config).
Inductive RetryOption := retryOptionFunc (f : config → config).
Inductive Option := ofTransport (o : TransportOption) | ofRetry (o : RetryOption).
Definition apply_transport (o : TransportOption) : config → config :=
  match o with optionFunc f => f end.
Definition apply_retry (o : RetryOption) : config → config :=
  match o with retryOptionFunc f => f end.
Definition apply_option (o : Option) : config → config :=
  match o with ofTransport o => apply_transport o | ofRetry o => apply_retry o end.

Definition defaultConfig : config := {|
  maxIdleConns := DefaultPoolSize;
  maxIdleConnsPerHost := DefaultPoolSize;
  maxConnsPerHost := 0;
  idleConnTimeout := DefaultIdleConnTimeout;
  tlsHandshakeTimeout := defaultTLSHandshakeTimeout;
  responseHeaderTimeout := defaultResponseHeaderTimeout;
  expectContinueTimeout := defaultExpectContinueTimeout;
  perAttemptTimeout := DefaultPerAttemptTimeout;
  protocols := Some {| HTTP1 := true; HTTP2 := true; UnencryptedHTTP2 := false |};
  http2 := None;
  tlsMinVersion := VersionTLS12;
  dialContext := None;
  dialControl := None;
  retrier := None;
  retryIf := None;
  maxRetries := defaultMaxRetries;
  delayStep := defaultDelayStep;
  retryNonIdempotent := false;
  maxRetryAfter := DefaultMaxRetryAfter;
  budget := noopBudget;
  onAttempt := None;
|}.

(** ** Transport options *)

Definition WithMaxIdleConns (n : Z) : TransportOption := optionFunc (λ c, c <| maxIdleConns := n |>).
Definition WithMaxIdleConnsPerHost (n : Z) : TransportOption :=
  optionFunc (λ c, c <| maxIdleConnsPerHost := n |>).
Definition WithMaxConnsPerHost (n : Z) : TransportOption :=
  optionFunc (λ c, c <| maxConnsPerHost := n |>).
Definition WithIdleConnTimeout (d : Z) : TransportOption :=
  optionFunc (λ c, c <| idleConnTimeout := d |>).
Definition WithTLSHandshakeTimeout (d : Z) : TransportOption :=
  optionFunc (λ c, c <| tlsHandshakeTimeout := d |>).
Definition WithResponseHeaderTimeout (d : Z) : TransportOption :=
  optionFunc (λ c, c <| responseHeaderTimeout := d |>).
Definition WithExpectContinueTimeout (d : Z) : TransportOption :=
  optionFunc (λ c, c <| expectContinueTimeout := d |>).
Definition WithProtocols (p : option Protocols) : TransportOption :=
  optionFunc (λ c, c <| protocols := p |>).
Definition WithHTTP2Config (h2 : option HTTP2Config) : TransportOption :=
  optionFunc (λ c, c <| http2 := h2 |>).
Definition WithTLSMinVersion (v : Z) : TransportOption :=
  optionFunc (λ c, c <| tlsMinVersion := v |>).
Definition WithDialContext (fn : option DialFn) : TransportOption :=
  optionFunc (λ c, c <| dialContext := fn |>).
Definition WithDialGuard : TransportOption :=
  optionFunc (λ c, c <| dialControl := Some dialGuard |>).

(** ** Retry options *)

Definition WithPerAttemptTimeout (d : Z) : RetryOption :=
  retryOptionFunc (λ c, c <| perAttemptTimeout := d |>).
Definition WithMaxRetryAfter (d : Z) : RetryOption :=
  retryOptionFunc (λ c, c <| maxRetryAfter := d |>).
Definition WithRetry (r : option Retry) : RetryOption := retryOptionFunc (λ c, c <| retrier := r |>).
Definition WithRetryIf (predicate : option (error → bool)) : RetryOption :=
  retryOptionFunc (λ c, c <| retryIf := predicate |>).
Definition WithMaxRetries (n : Z) : RetryOption := retryOptionFunc (λ c, c <| maxRetries := n |>).
Definition WithRetryDelayStep (d : Z) : RetryOption := retryOptionFunc (λ c, c <| delayStep := d |>).
Definition WithRetryNonIdempotent (on : bool) : RetryOption :=
  retryOptionFunc (λ c, c <| retryNonIdempotent := on |>).
Definition WithRetryBudget (b : option (RetryBudget O)) : RetryOption :=
  retryOptionFunc (λ c, match b with Some b => c <| budget := b |> | None => c end).
Definition WithOnAttempt (hook : option (AttemptInfo → O → O)) : RetryOption :=
  retryOptionFunc (λ c, c <| onAttempt := hook |>).

(** ** Presets *)

Definition defaultHTTP2Config : HTTP2Config :=
  {| SendPingTimeout := defaultH2PingInterval; PingTimeout := defaultH2PingTimeout |}.
Definition singleHostPreset : TransportOption := optionFunc (λ c,
  let c := apply_transport (WithMaxConnsPerHost DefaultPoolSize) c in
  apply_transport (WithHTTP2Config (Some defaultHTTP2Config)) c).
Definition multiHostPreset : TransportOption := optionFunc (λ c,
  let c := apply_transport (WithMaxIdleConnsPerHost DefaultMultiHostIdleConnsPerHost) c in
  let c := apply_transport (WithIdleConnTimeout DefaultMultiHostIdleConnTimeout) c in
  apply_transport (WithHTTP2Config (Some defaultHTTP2Config)) c).

(** ** What is built *)

Inductive proxy := ProxyFromEnvironment.

(** [http.Transport], the fields the package sets. *)
Record Transport := {
  Proxy : option proxy;
  MaxIdleConns : Z;
  MaxIdleConnsPerHost : Z;
  MaxConnsPerHost : Z;
  IdleConnTimeout : Z;
  TLSHandshakeTimeout : Z;
  ResponseHeaderTimeout : Z;
  ExpectContinueTimeout : Z;
  t_Protocols : option Protocols;
  t_HTTP2 : option HTTP2Config;
  TLS_MinVersion : Z;
  DialContext : DialFn;
}.

Record Dialer := { d_Timeout : Z; d_KeepAlive : Z; d_Control : option control }.

(** [http.Client] over some transport.  Redirect policies and cookie jars are
    passed through. *)
Context {Redirect Jar_ : Type}.
Record Client T := {
  c_Transport : T;
  CheckRedirect : option Redirect;
  Jar : option Jar_;
  Timeout : Z;
}.
Arguments c_Transport {_}. Arguments CheckRedirect {_}. Arguments Jar {_}. Arguments Timeout {_}.

(** [net.Dialer.DialContext], [http.Transport.RoundTrip], [http.DefaultTransport]. *)
Variable dial_with : Dialer → DialFn.
Variable serve : Transport → RoundTripper O.
Variable DefaultTransport : RoundTripper O.

Definition newTransport (c : config) : Transport := {|
  Proxy := match dialControl c with Some _ => None | None => Some ProxyFromEnvironment end;
  MaxIdleConns := maxIdleConns c;
  MaxIdleConnsPerHost := maxIdleConnsPerHost c;
  MaxConnsPerHost := maxConnsPerHost c;
  IdleConnTimeout := idleConnTimeout c;
  TLSHandshakeTimeout := tlsHandshakeTimeout c;
  ResponseHeaderTimeout := responseHeaderTimeout c;
  ExpectContinueTimeout := expectContinueTimeout c;
  t_Protocols := protocols c;
  t_HTTP2 := http2 c;
  TLS_MinVersion := tlsMinVersion c;
  DialContext :=
    match dialContext c with
    | Some fn => fn
    | None =>
        let dialer := {| d_Timeout := defaultDialTimeout; d_KeepAlive := defaultDialKeepAlive;
                         d_Control := dialControl c |} in
        λ ctx network addr,
          let pinned := dialIPFromContext ctx in
          if decide (pinned = []) then dial_with dialer ctx network addr
          else match SplitHostPort addr with
               | Ok (_, port) => dial_with dialer ctx network (JoinHostPort pinned port)
               | _ => mret (Err AddrError)
               end
    end;
|}.

Definition buildRetrier (c : config) : Retry :=
  match retrier c with
  | Some r => r
  | None =>
      (* defaultRetryIf is only asked about errors *)
      let classify := match retryIf c with Some p => p | None => λ e, defaultRetryIf (Some e) end in
      Retry.New [Some (Retry.WithMaxRetries (maxRetries c)); Some (Retry.WithDelayStep (delayStep c));
                 Some (Retry.WithJitter true); Some (Retry.WithRetryIf (Some classify))]
  end.

Definition newRetryTransport (c : config) (base : RoundTripper O) : retryTransport O := {|
  HttpTransport.base := base;
  HttpTransport.retrier := buildRetrier c;
  HttpTransport.perAttempt := perAttemptTimeout c;
  HttpTransport.nonIdem := retryNonIdempotent c;
  HttpTransport.maxRetryAfter := maxRetryAfter c;
  HttpTransport.budget := budget c;
  HttpTransport.onAttempt := onAttempt c;
|}.

(** [for _, opt := range opts { if opt != nil { opt.apply(c) } }] *)
Definition apply_each {A} (f : A → config → config) (c : config) (opts : list (option A)) : config :=
  foldl (λ c opt, match opt with Some o => f o c | None => c end) c opts.
Definition apply (c : config) (opts : list (option Option)) : config := apply_each apply_option c opts.

Definition build (c : config) : Client (retryTransport O) :=
  {| c_Transport := newRetryTransport c (serve (newTransport c));
     CheckRedirect := None; Jar := None; Timeout := 0 |}.

Definition New (opts : list (option Option)) : Client (retryTransport O) :=
  build (apply defaultConfig opts).
Definition NewSingleHost (opts : list (option Option)) : Client (retryTransport O) :=
  build (apply defaultConfig (Some (ofTransport singleHostPreset) :: opts)).
Definition NewMultiHost (opts : list (option Option)) : Client (retryTransport O) :=
  build (apply defaultConfig (Some (ofTransport multiHostPreset) :: opts)).
Definition NewTransport (opts : list (option TransportOption)) : Transport :=
  newTransport (apply_each apply_transport defaultConfig opts).

(** The client is nil, or has a transport, which may be nil. *)
Definition Wrap (client : option (Client (option (RoundTripper O))))
    (opts : list (option RetryOption)) : Client (retryTransport O) :=
  let client := default {| c_Transport := None; CheckRedirect := None; Jar := None; Timeout := 0 |}
                        client in
  let c := apply_each apply_retry defaultConfig opts in
  let base := default DefaultTransport (c_Transport client) in
  {| c_Transport := newRetryTransport c base;
     CheckRedirect := CheckRedirect client;
     Jar := Jar client;
     Timeout := Timeout client |}.

(** ** Where options come from

    The option types are unexported functions, so the options there are are
    those of the package. *)
Inductive transport_option : TransportOption → Prop :=
  | to_MaxIdleConns n : transport_option (WithMaxIdleConns n)
  | to_MaxIdleConnsPerHost n : transport_option (WithMaxIdleConnsPerHost n)
  | to_MaxConnsPerHost n : transport_option (WithMaxConnsPerHost n)
  | to_IdleConnTimeout d : transport_option (WithIdleConnTimeout d)
  | to_TLSHandshakeTimeout d : transport_option (WithTLSHandshakeTimeout d)
  | to_ResponseHeaderTimeout d : transport_option (WithResponseHeaderTimeout d)
  | to_ExpectContinueTimeout d : transport_option (WithExpectContinueTimeout d)
  | to_Protocols p : transport_option (WithProtocols p)
  | to_HTTP2Config h : transport_option (WithHTTP2Config h)
  | to_TLSMinVersion v : transport_option (WithTLSMinVersion v)
  | to_DialContext fn : transport_option (WithDialContext fn)
  | to_DialGuard : transport_option WithDialGuard
  | to_singleHostPreset : transport_option singleHostPreset
  | to_multiHostPreset : transport_option multiHostPreset.
Inductive retry_option : RetryOption → Prop :=
  | ro_PerAttemptTimeout d : retry_option (WithPerAttemptTimeout d)
  | ro_MaxRetryAfter d : retry_option (WithMaxRetryAfter d)
  | ro_Retry r : retry_option (WithRetry r)
  | ro_RetryIf p : retry_option (WithRetryIf p)
  | ro_MaxRetries n : retry_option (WithMaxRetries n)
  | ro_RetryDelayStep d : retry_option (WithRetryDelayStep d)
  | ro_RetryNonIdempotent on : retry_option (WithRetryNonIdempotent on)
  | ro_RetryBudget b : retry_option (WithRetryBudget b)
  | ro_OnAttempt h : retry_option (WithOnAttempt h).
Definition package_option (o : option Option) : Prop :=
  match o with
  | None => True
  | Some (ofTransport o) => transport_option o
  | Some (ofRetry o) => retry_option o
  end.

(** The two halves of a configuration. *)
Definition tpart (c : config) :=
  (maxIdleConns c, maxIdleConnsPerHost c, maxConnsPerHost c, idleConnTimeout c,
   tlsHandshakeTimeout c, responseHeaderTimeout c, expectContinueTimeout c, protocols c, http2 c,
   tlsMinVersion c, dialContext c, dialControl c).
Definition rpart (c : config) :=
  (perAttemptTimeout c, retrier c, retryIf c, maxRetries c, delayStep c, retryNonIdempotent c,
   maxRetryAfter c, budget c, onAttempt c).

Lemma transport_option_parts o c c' :
  transport_option o → tpart c = tpart c' →
  tpart (apply_transport o c) = tpart (apply_transport o c') ∧ rpart (apply_transport o c) = rpart c.
Proof using Type.
  intros Ho Hc. destruct c, c'. unfold tpart in Hc. cbn in Hc. simplify_eq. by destruct Ho.
Qed.

Lemma retry_option_parts o c c' :
  retry_option o → rpart c = rpart c' →
  rpart (apply_retry o c) = rpart (apply_retry o c') ∧ tpart (apply_retry o c) = tpart c.
Proof using Type.
  intros Ho Hc. destruct c, c'. unfold rpart in Hc. cbn in Hc. simplify_eq.
  destruct Ho as [| | | | | | |[b|]|]; by split.
Qed.

Definition transport_options (opts : list (option Option)) : list (option TransportOption) :=
  omap (λ o, match o with Some (ofTransport o) => Some (Some o) | _ => None end) opts.
Definition retry_options (opts : list (option Option)) : list (option RetryOption) :=
  omap (λ o, match o with Some (ofRetry o) => Some (Some o) | _ => None end) opts.

Lemma apply_splits opts c ct cr :
  Forall package_option opts → tpart c = tpart ct → rpart c = rpart cr →
  tpart (apply c opts) = tpart (apply_each apply_transport ct (transport_options opts))
  ∧ rpart (apply c opts) = rpart (apply_each apply_retry cr (retry_options opts)).
Proof using Type.
  intros Hp. revert c ct cr. induction Hp as [|o opts Ho _ IH]; intros c ct cr Ht Hr; [done|].
  destruct o as [[o|o]|]; [| |by apply IH]; cbn in Ho.
  - destruct (transport_option_parts o c ct Ho Ht) as [Ht' Hr']. apply IH; [exact Ht'|exact (eq_trans Hr' Hr)].
  - destruct (retry_option_parts o c cr Ho Hr) as [Hr' Ht']. apply IH; [exact (eq_trans Ht' Ht)|exact Hr'].
Qed.

Lemma newTransport_tpart c c' : tpart c = tpart c' → newTransport c = newTransport c'.
Proof using Type. intros Hc. destruct c, c'. unfold tpart in Hc. cbn in Hc. by simplify_eq. Qed.

Lemma newRetryTransport_rpart c c' b : rpart c = rpart c' → newRetryTransport c b = newRetryTransport c' b.
Proof using Type. intros Hc. destruct c, c'. unfold rpart in Hc. cbn in Hc. by simplify_eq. Qed.

(** ** Properties *)

(** C34: The two kinds of options do not interfere: [New] is [Wrap], with the retry
    options in their order, around the transport that [NewTransport] makes of
    the transport options in theirs. *)
Theorem New_is_Wrap opts :
  Forall package_option opts →
  New opts = Wrap (Some {| c_Transport := Some (serve (NewTransport (transport_options opts)));
                           CheckRedirect := None; Jar := None; Timeout := 0 |})
                  (retry_options opts).
Proof using Type.
  intros Hp. unfold New, build, Wrap, NewTransport.
  destruct (apply_splits opts defaultConfig defaultConfig defaultConfig Hp eq_refl eq_refl) as [Ht Hr].
  cbn. by rewrite (newTransport_tpart _ _ Ht), (newRetryTransport_rpart _ _ _ Hr).
Qed.

(** [net.Dialer] calls its [Control] on every address before it connects. *)
Definition dialer_law : Prop := ∀ d ctl ctx network addr o network' a,
  d_Control d = Some ctl →
  EConnect network' a ∈ trace (dial_with d ctx network addr o) → ctl network' a = None.

Lemma transport_option_guard o c :
  transport_option o → dialControl c = Some dialGuard →
  dialControl (apply_transport o c) = Some dialGuard.
Proof using Type.
  intros Ho Hc. destruct Ho; try exact Hc; done.
Qed.

Lemma transport_option_dial o c :
  transport_option o → (∀ fn, o ≠ WithDialContext fn) → dialContext c = None →
  dialContext (apply_transport o c) = None.
Proof using Type.
  intros Ho Hne Hc. destruct Ho; try exact Hc. by destruct (Hne fn).
Qed.

Lemma guarded_config opts :
  Forall (λ o, match o with Some o => transport_option o | None => True end) opts →
  (∀ fn, Some (WithDialContext fn) ∉ opts) → Some WithDialGuard ∈ opts →
  let c := apply_each apply_transport defaultConfig opts in
  dialContext c = None ∧ dialControl c = Some dialGuard.
Proof using Type.
  intros Hp Hno Hg. cbn zeta.
  assert (∀ c, dialContext c = None →
    (Some WithDialGuard ∈ opts ∨ dialControl c = Some dialGuard) →
    dialContext (apply_each apply_transport c opts) = None
    ∧ dialControl (apply_each apply_transport c opts) = Some dialGuard) as Hgen; [|by apply Hgen; auto].
  clear Hg. induction Hp as [|o opts Ho _ IH]; intros c Hc Hd.
  { destruct Hd as [Hd|]; [by apply elem_of_nil in Hd|done]. }
  assert (∀ fn, Some (WithDialContext fn) ∉ opts) as Hno'.
  { intros fn Hin. apply (Hno fn). by right. }
  rewrite elem_of_cons in Hd. destruct o as [o|].
  - apply IH; [done| |].
    + apply transport_option_dial; [done| |done]. intros fn ->. apply (Hno fn). left.
    + destruct Hd as [[Hd|Hd]|Hd]; [right; injection Hd as <-; done|by left|].
      right. by apply transport_option_guard.
  - apply IH; [done..|]. destruct Hd as [[Hd|Hd]|Hd]; [done|by left|by right].
Qed.

(** C22: A guarded transport.  With [WithDialGuard] among the options and no dialer
    of the caller's, wherever they stand, the transport uses no proxy and
    connects to public addresses only, pinned or not. *)
Theorem guarded_transport opts :
  dialer_law →
  Forall (λ o, match o with Some o => transport_option o | None => True end) opts →
  (∀ fn, Some (WithDialContext fn) ∉ opts) → Some WithDialGuard ∈ opts →
  let t := NewTransport opts in
  Proxy t = None ∧
  ∀ ctx network addr o network' a,
    EConnect network' a ∈ trace (DialContext t ctx network addr o) →
    ∃ host port ip, SplitHostPort a = Ok (host, port) ∧ ParseIP host = Some ip
                    ∧ isDisallowedIP ip = false.
Proof using Type.
  intros Hlaw Hp Hno Hg. cbn zeta. unfold NewTransport.
  destruct (guarded_config opts Hp Hno Hg) as [Hc Hd].
  set (c := apply_each apply_transport defaultConfig opts) in *. clearbody c.
  unfold newTransport. cbn [Proxy DialContext]. rewrite Hc, Hd. split; [done|].
  intros ctx network addr o network' a Hin.
  assert (dialGuard network' a = None) as Hga.
  { revert Hin. case_decide.
    - apply Hlaw with (ctl := dialGuard). done.
    - destruct (SplitHostPort addr) as [[h port]| |]; [by apply Hlaw|..];
        cbn; intros Hin; by apply elem_of_nil in Hin. }
  unfold dialGuard in Hga. destruct (SplitHostPort a) as [[host port]| |]; [|done..].
  destruct (ParseIP host) as [ip|] eqn:Hip; [|done].
  destruct (isDisallowedIP ip) eqn:Hdis; [done|]. eauto 10.
Qed.

(** A pinned dial.  Under a context pinned to [ip], the built-in dialer is
    asked for that address on the port of the URL, whatever its host resolves
    to; the innermost pin wins, and an empty one changes nothing. *)
Theorem pinned_dial opts ctx ip host port network o :
  (∀ fn, Some (WithDialContext fn) ∉ opts) →
  Forall (λ o, match o with Some o => transport_option o | None => True end) opts →
  has 91 host = false → has 93 host = false →
  has 58 port = false → has 91 port = false → has 93 port = false →
  let t := NewTransport opts in
  let dialer := {| d_Timeout := defaultDialTimeout; d_KeepAlive := defaultDialKeepAlive;
                   d_Control := dialControl (apply_each apply_transport defaultConfig opts) |} in
  DialContext t (WithDialIP ctx ip) network (JoinHostPort host port) o
  = if decide (ip = []) then DialContext t ctx network (JoinHostPort host port) o
    else dial_with dialer (WithDialIP ctx ip) network (JoinHostPort ip port) o.
Proof using Type.
  intros Hno Hp H1 H2 H3 H4 H5. cbn zeta. unfold NewTransport.
  assert (dialContext (apply_each apply_transport defaultConfig opts) = None) as Hc.
  { assert (∀ c, dialContext c = None → dialContext (apply_each apply_transport c opts) = None)
      as Hgen; [|by apply Hgen].
    induction Hp as [|o' opts Ho _ IH]; intros c Hc; [done|].
    assert (∀ fn, Some (WithDialContext fn) ∉ opts) as Hno'.
    { intros fn Hin. apply (Hno fn). by right. }
    destruct o' as [o'|]; apply (IH Hno'); [|done].
    apply transport_option_dial; [done| |done]. intros fn ->. apply (Hno fn). left. }
  set (c := apply_each apply_transport defaultConfig opts) in *. clearbody c.
  unfold newTransport. cbn [DialContext]. rewrite Hc.
  unfold WithDialIP. destruct (decide (ip = [])) as [|Hip]; [done|].
  change (dialIPFromContext ((dialIPKey, ip) :: ctx)) with ip.
  rewrite (decide_False (P := ip = [])) by done. by rewrite Split_Join.
Qed.

(** The retrier of a client whose caller brings none: at least one attempt,
    the configured linear step, jitter, and the classifier of the package
    unless the caller has one. *)
Lemma buildRetrier_spec c :
  retrier c = None →
  let r := buildRetrier c in
  Retry.maxRetries r = Z.max 1 (maxRetries c) ∧ Retry.delayStep r = delayStep c ∧ jitter r = true
  ∧ ∀ e, shouldRetry r e = match retryIf c with Some p => p e | None => defaultRetryIf (Some e) end.
Proof using Type.
  intros Hr. unfold buildRetrier, Retry.New, shouldRetry. rewrite Hr. cbn [foldl].
  destruct (decide _) as [Hd|Hd]; cbn in *; destruct (retryIf c); split_and?; try done; lia.
Qed.
(** ** The options as data: the last one wins *)

Inductive knob :=
  | PerAttemptTimeout (d : Z)
  | MaxRetryAfter (d : Z)
  | RetryWith (r : option Retry)
  | RetryIf (p : option (error → bool))
  | MaxRetries (n : Z)
  | RetryDelayStep (d : Z)
  | RetryNonIdempotent (on : bool)
  | RetryWithBudget (b : option (RetryBudget O))
  | OnAttempt (hook : option (AttemptInfo → O → O))
  | OfTransport (o : TransportOption)
  | NilOption.
Definition option_of (k : knob) : option Option :=
  match k with
  | PerAttemptTimeout d => Some (ofRetry (WithPerAttemptTimeout d))
  | MaxRetryAfter d => Some (ofRetry (WithMaxRetryAfter d))
  | RetryWith r => Some (ofRetry (WithRetry r))
  | RetryIf p => Some (ofRetry (WithRetryIf p))
  | MaxRetries n => Some (ofRetry (WithMaxRetries n))
  | RetryDelayStep d => Some (ofRetry (WithRetryDelayStep d))
  | RetryNonIdempotent on => Some (ofRetry (WithRetryNonIdempotent on))
  | RetryWithBudget b => Some (ofRetry (WithRetryBudget b))
  | OnAttempt hook => Some (ofRetry (WithOnAttempt hook))
  | OfTransport o => Some (ofTransport o)
  | NilOption => None
  end.
Definition knob_ok (k : knob) : Prop :=
  match k with OfTransport o => transport_option o | _ => True end.

(** Every option of the package is one of these. *)
Lemma package_option_knob o : package_option o → ∃ k, knob_ok k ∧ o = option_of k.
Proof using Type.
  destruct o as [[o|o]|]; [intros Ho; by exists (OfTransport o)| |intros _; by exists NilOption].
  intros Ho. inversion Ho; subst;
    [exists (PerAttemptTimeout d)|exists (MaxRetryAfter d)|exists (RetryWith r)|exists (RetryIf p)
    |exists (MaxRetries n)|exists (RetryDelayStep d)|exists (RetryNonIdempotent on)
    |exists (RetryWithBudget b)|exists (OnAttempt h)]; by split.
Qed.

(** What the last knob that [f] picks out sets, [a] if there is none. *)
Definition last_set {A} (f : knob → option A) (a : A) (ks : list knob) : A :=
  foldl (λ a k, default a (f k)) a ks.
Definition sets_retrier k := match k with RetryWith r => Some r | _ => None end.
Definition sets_retryIf k := match k with RetryIf p => Some p | _ => None end.
Definition sets_maxRetries k := match k with MaxRetries n => Some n | _ => None end.
Definition sets_delayStep k := match k with RetryDelayStep d => Some d | _ => None end.
Definition sets_nonIdempotent k := match k with RetryNonIdempotent on => Some on | _ => None end.

Lemma last_set_field {A} (field : config → A) f ks c :
  (∀ k c, knob_ok k →
     field (match option_of k with Some o => apply_option o c | None => c end) = default (field c) (f k)) →
  Forall knob_ok ks → field (apply c (map option_of ks)) = last_set f (field c) ks.
Proof using Type.
  intros Hf Hks. revert c. induction Hks as [|k ks Hk _ IH]; intros c; [done|].
  unfold apply, apply_each, last_set in *. cbn [map foldl]. by rewrite IH, Hf.
Qed.

Ltac knob_field :=
  intros; apply last_set_field; [|done];
  intros k c0 Hk; destruct k as [| | | | | | |[b|]| |o|]; try done; by destruct Hk.

Lemma last_retrier ks c : Forall knob_ok ks →
  retrier (apply c (map option_of ks)) = last_set sets_retrier (retrier c) ks.
Proof using Type. knob_field. Qed.
Lemma last_retryIf ks c : Forall knob_ok ks →
  retryIf (apply c (map option_of ks)) = last_set sets_retryIf (retryIf c) ks.
Proof using Type. knob_field. Qed.
Lemma last_maxRetries ks c : Forall knob_ok ks →
  maxRetries (apply c (map option_of ks)) = last_set sets_maxRetries (maxRetries c) ks.
Proof using Type. knob_field. Qed.
Lemma last_delayStep ks c : Forall knob_ok ks →
  delayStep (apply c (map option_of ks)) = last_set sets_delayStep (delayStep c) ks.
Proof using Type. knob_field. Qed.
Lemma last_nonIdempotent ks c : Forall knob_ok ks →
  retryNonIdempotent (apply c (map option_of ks)) = last_set sets_nonIdempotent (retryNonIdempotent c) ks.
Proof using Type. knob_field. Qed.

(** ** A client at work *)
Section at_work.
Variable ParseTime : gostring → option Z.
Variable clk : Clock O.
Variable ks : list knob.
Variable req : Request O.
#[local] Abbreviation rt := (c_Transport (New (map option_of ks))).
(** The attempts the options allow. *)
#[local] Abbreviation attempts := (Z.max 1 (last_set sets_maxRetries defaultMaxRetries ks)).

Lemma client_retrier :
  Forall knob_ok ks → last_set sets_retrier None ks = None →
  Retry.maxRetries (HttpTransport.retrier rt) = attempts
  ∧ ∀ e, shouldRetry (HttpTransport.retrier rt) e
         = match last_set sets_retryIf None ks with Some p => p e | None => defaultRetryIf (Some e) end.
Proof using Type.
  intros Hks Hr. unfold New, build. cbn [c_Transport HttpTransport.retrier newRetryTransport].
  set (c := apply defaultConfig (map option_of ks)).
  assert (retrier c = None) as Hc by (unfold c; by rewrite last_retrier).
  destruct (buildRetrier_spec c Hc) as (Hm & _ & _ & Hs). rewrite Hm. split.
  - unfold c. by rewrite last_maxRetries.
  - intros e. rewrite Hs. unfold c. by rewrite last_retryIf.
Qed.

(** C20: How often a client calls out.  Whatever the network, the options in
    whatever order and a request: unless the caller brings a retrier, there are
    at most as many requests as the last [WithMaxRetries] says (3 without one,
    and at least 1) and at most one more than the budget granted retries; and
    exactly one, without asking the budget, for a method that is not
    idempotent, unless the last [WithRetryNonIdempotent] is on. *)
Theorem client_sends o :
  Forall knob_ok ks → last_set sets_retrier None ks = None →
  let log := trace (RoundTrip ParseTime clk rt req (o, attemptLoop_init)) in
  Z.of_nat (occurrences is_send log) ≤ attempts
  ∧ (occurrences is_send log ≤ 1 + occurrences is_grant log)%nat
  ∧ (Method req ∉ idempotentMethods → last_set sets_nonIdempotent false ks = false →
     occurrences is_send log = 1 ∧ occurrences is_ask log = 0)%nat.
Proof using Type.
  intros Hks Hr. cbn zeta. destruct (client_retrier Hks Hr) as [Hm _].
  destruct (sends_bound ParseTime clk rt req o) as (Hmax & Hbudget & Hone). rewrite Hm in Hmax.
  split; [lia|]. split; [exact Hbudget|]. intros Hidem Hnon. apply Hone. unfold isRetryable.
  change (nonIdem rt) with (retryNonIdempotent (apply defaultConfig (map option_of ks))).
  rewrite last_nonIdempotent by done. change (retryNonIdempotent defaultConfig) with false.
  by rewrite Hnon, bool_decide_eq_false_2.
Qed.

(** C18: A client gets through.  Let the caller bring no retrier and no
    classifier, and let the method be idempotent or the last
    [WithRetryNonIdempotent] be on.  When the network fails fewer times than the
    options allow attempts, each time transiently (a timeout, a refused or reset
    connection, an attempt whose own timer fired, or a retryable status whose
    suggested delay is within the cap), and then answers, then the caller gets
    that answer, with one request more than there were failures, as long as it
    stays alive, the budget grants every retry and [GetBody] delivers. *)
Theorem client_recovers sent k status o :
  Forall knob_ok ks → last_set sets_retrier None ks = None → last_set sets_retryIf None ks = None →
  Method req ∈ idempotentMethods ∨ last_set sets_nonIdempotent false ks = true →
  refused rt req = false → flaky ParseTime clk rt req sent k status →
  sent o = 0 → 0 ≤ k < attempts →
  ∃ r log w, RoundTrip ParseTime clk rt req (o, attemptLoop_init) = (Ok (Some r), log, w)
    ∧ StatusCode r = status ∧ sent w.1 = k + 1.
Proof using Type.
  intros Hks Hr Hif Hidem Href Hflaky H0 Hk. destruct (client_retrier Hks Hr) as [Hm Hs].
  apply (RoundTrip_through ParseTime clk rt req sent k status Hflaky); [|done| |done|].
  - split; [rewrite Hs, Hif; reflexivity|]. split; [intros s d _; by rewrite Hs, Hif|].
    intros e He. rewrite Hs, Hif. by apply defaultRetryIf_transient.
  - unfold isRetryable.
    change (nonIdem rt) with (retryNonIdempotent (apply defaultConfig (map option_of ks))).
    rewrite last_nonIdempotent by done. change (retryNonIdempotent defaultConfig) with false.
    destruct Hidem as [Hin| ->]; [rewrite bool_decide_eq_true_2 by done; apply orb_true_r|done].
  - rewrite Hm. lia.
Qed.
End at_work.
End client.

Arguments c_Transport {_ _ _}.

(** ** Witnesses *)

(** A dialer that resolves nothing: it connects to the address it is given,
    unless its control refuses it. *)
Definition toy_dial (d : Dialer) (ctx : ctx_values) (network addr : gostring)
    : Comp dial_event nat (result error nat) := λ o,
  match d_Control d with
  | Some ctl =>
      match ctl network addr with
      | Some e => (Err e, [], o)
      | None => (Ok 0%nat, [EConnect network addr], o)
      end
  | None => (Ok 0%nat, [EConnect network addr], o)
  end.
Lemma toy_dial_law : dialer_law toy_dial.
Proof.
  intros d ctl ctx network addr o network' a Hd. unfold toy_dial, trace. rewrite Hd.
  destruct (ctl network addr) eqn:Hc; simpl.
  - by intros ?%elem_of_nil.
  - by intros [= -> ->]%list_elem_of_singleton.
Qed.

Definition toy_opts : list (option (TransportOption (O:=nat) (Conn:=nat))) :=
  [Some WithDialGuard; None; Some (WithMaxIdleConns 7)].
Lemma toy_opts_ok :
  Forall (λ o, match o with Some o => transport_option o | None => True end) toy_opts
  ∧ (∀ fn, Some (WithDialContext fn) ∉ toy_opts) ∧ Some WithDialGuard ∈ toy_opts.
Proof.
  split_and?; [repeat constructor| |left]. intros fn. unfold toy_opts.
  rewrite !elem_of_cons, elem_of_nil.
  intros [[= Hf]|[Hf|[[= Hf]|[]]]]; [|discriminate Hf|].
  - apply (f_equal (λ f, dialControl (f defaultConfig))) in Hf. discriminate Hf.
  - apply (f_equal (λ f, maxIdleConns (f defaultConfig))) in Hf. discriminate Hf.
Qed.

Lemma guarded_transport_witness :
  let t := NewTransport toy_dial toy_opts in
  Proxy t = None ∧ MaxIdleConns t = 7
  ∧ trace (DialContext t [] (str "tcp") (str "10.0.0.1:80") 0%nat) = []
  ∧ trace (DialContext t [] (str "tcp") (str "1.1.1.1:80") 0%nat) = [EConnect (str "tcp") (str "1.1.1.1:80")].
Proof.
  destruct toy_opts_ok as (Hp & Hno & Hg).
  destruct (guarded_transport toy_dial toy_opts toy_dial_law Hp Hno Hg) as [Hproxy _].
  split; [exact Hproxy|]. vm_compute. repeat split.
Defined.

Lemma pinned_dial_witness :
  trace (DialContext (NewTransport toy_dial toy_opts) (WithDialIP [] (str "1.2.3.4")) (str "tcp")
           (JoinHostPort (str "example.org") (str "443")) 0%nat)
  = [EConnect (str "tcp") (str "1.2.3.4:443")].
Proof.
  destruct toy_opts_ok as (Hp & Hno & _).
  rewrite (pinned_dial toy_dial toy_opts [] (str "1.2.3.4") (str "example.org") (str "443")
    (str "tcp") 0%nat Hno Hp eq_refl eq_refl eq_refl eq_refl eq_refl).
  vm_compute. reflexivity.
Defined.

Definition toy_serve (t : Transport (O:=nat) (Conn:=nat)) : RoundTripper nat :=
  {| base_RoundTrip := λ _ _ o, (Responded 200 [], false, o) |}.
Definition toy_options : list (option (Option (O:=nat) (Conn:=nat))) :=
  [Some (ofRetry (WithMaxRetries 5)); None; Some (ofTransport WithDialGuard);
   Some (ofRetry (WithMaxRetries 4))].

Lemma New_is_Wrap_witness :
  let c := New (Redirect:=nat) (Jar_:=nat) toy_dial toy_serve toy_options in
  c = Wrap (Conn:=nat) (toy_serve (NewTransport toy_dial [])) (Some {|
        c_Transport := Some (toy_serve (NewTransport toy_dial [Some WithDialGuard]));
        CheckRedirect := None; Jar := None; Timeout := 0 |})
        [Some (WithMaxRetries 5); Some (WithMaxRetries 4)]
  ∧ Retry.maxRetries (HttpTransport.retrier (c_Transport c)) = 4.
Proof.
  assert (Forall package_option toy_options) as Hp by (repeat constructor).
  split; [|vm_compute; reflexivity].
  exact (New_is_Wrap toy_dial toy_serve (toy_serve (NewTransport toy_dial [])) toy_options Hp).
Defined.

(** A network that refuses the first connection and is overloaded for the
    second request; the world counts them. *)
Definition refused_error : error := Node (KNet 0 false) [ECONNREFUSED].
Lemma refused_transient : transient refused_error.
Proof.
  split; [|right; exists ECONNREFUSED; split; [right; left|by left]].
  intros x [-> |[-> |[]%elem_of_nil]%elem_of_cons]%elem_of_cons; done.
Qed.
Definition flaky_serve (t : Transport (O:=nat) (Conn:=nat)) : RoundTripper nat :=
  {| base_RoundTrip := λ _ _ o,
       (match o with
        | 0%nat => Failed refused_error
        | 1%nat => Responded 503 []
        | _ => Responded 200 []
        end, false, S o) |}.
Definition still_clock : Clock nat :=
  {| now := λ _, 0; clock_select := λ _ o, (false, o); clock_Int64N := λ _ o, (0, o) |}.
Definition toy_knobs : list (knob (O:=nat) (Conn:=nat)) :=
  [MaxRetries 5; NilOption; OfTransport WithDialGuard; MaxRetries 4].
Lemma toy_knobs_ok : Forall knob_ok toy_knobs.
Proof. repeat constructor. Qed.
Abbreviation toy_client :=
  (New (Redirect:=nat) (Jar_:=nat) toy_dial flaky_serve (map option_of toy_knobs)).

Lemma client_sends_witness :
  Z.of_nat (occurrences is_send (trace (RoundTrip demo_ParseTime still_clock (c_Transport toy_client)
    demo_req (0%nat, attemptLoop_init)))) ≤ 4.
Proof.
  exact (proj1 (client_sends toy_dial flaky_serve demo_ParseTime still_clock toy_knobs demo_req 0%nat
    toy_knobs_ok eq_refl)).
Defined.

Lemma client_recovers_witness :
  ∃ r log w, RoundTrip demo_ParseTime still_clock (c_Transport toy_client) demo_req (0%nat, attemptLoop_init)
    = (Ok (Some r), log, w) ∧ StatusCode r = 200 ∧ Z.of_nat w.1 = 2 + 1.
Proof.
  apply (client_recovers toy_dial flaky_serve demo_ParseTime still_clock toy_knobs demo_req Z.of_nat 2 200 0%nat
    toy_knobs_ok); [reflexivity|reflexivity|left; apply (bool_decide_eq_true_1 _); reflexivity|reflexivity| |done|done].
  split; try done.
  - intros gb o [= <-]. done.
  - intros d rewound o. cbn. lia.
  - intros d rewound [|[|o]]; cbn.
    + split; [lia|left; apply refused_transient].
    + split; [|done]. apply (bool_decide_eq_true_1 _). reflexivity.
    + rewrite decide_False by lia. done.
  - apply (bool_decide_eq_false_1 _). reflexivity.
Defined.
