(* ===== verification/Collections.v ===== *)
(** * kit collections: slices.go, maps.go, list.go

    Go maps are [gmap]s; the order in which [range] visits one is unspecified,
    so it is an arbitrary permutation of its keys ([MapRange]).  Slices are
    lists of values, except in [Chunk], which is about slice headers over one
    backing array. *)
From S2P Require Export Prelude.
Local Open Scope Z_scope.

(** ** Iterating over maps *)

Class MapRange (K : Type) `{Countable K} := {
  range_keys : ∀ {V}, gmap K V → list K;
}.
(** [range] visits every key once. *)
Class MapRangeLaws (K : Type) `{MapRange K} := {
  range_keys_perm : ∀ {V} (m : gmap K V), range_keys m ≡ₚ (map_to_list m).*1;
}.

(** One lawful order: the one of the finite-map library. *)
#[export] Instance map_range_canonical {K} `{Countable K} : MapRange K :=
  {| range_keys := λ V m, (map_to_list m).*1 |}.
#[export] Instance map_range_canonical_laws {K} `{Countable K} :
  @MapRangeLaws K _ _ map_range_canonical.
Proof. split. reflexivity. Qed.

(** ** maps.go *)
Section maps.
Context {K : Type} `{Countable K, !Ordered K, !MapRange K}.

Definition MapFromSlice (slice : list K) : gmap K bool :=
  foldl (λ data k, <[k := true]> data) ∅ slice.

Definition MapKeys {V} (data : gmap K V) : list K :=
  sort (foldl (λ keys k, keys ++ [k]) [] (range_keys data)).

Definition MergeMapKeys {V} (m : gmap K V) (adds : list (gmap K V)) : list K :=
  let uniq := foldl (λ uniq k, <[k := true]> uniq) ∅ (range_keys m) in
  let uniq := foldl (λ uniq add, foldl (λ uniq k, <[k := true]> uniq) uniq (range_keys add)) uniq adds in
  sort (foldl (λ keys k, keys ++ [k]) [] (range_keys uniq)).
End maps.

(** ** slices.go *)
Section slices.
Context {K : Type} `{Countable K, !Ordered K, !MapRange K}.

(** One turn of the loop of [Uniq] and [RemoveFromSlice]: the set of values
    already seen and the result. *)
Definition keep_new (s : gset K * list K) (k : K) : gset K * list K :=
  let '(seen, result) := s in
  if decide (k ∈ seen) then s else ({[k]} ∪ seen, result ++ [k]).

Definition Uniq (slice : list K) : list K := (foldl keep_new (∅, []) slice).2.

Definition RemoveFromSlice (base toRemove : list K) : list K :=
  let processed := foldl (λ p remove, {[remove]} ∪ p) ∅ toRemove in
  (foldl keep_new (processed, []) base).2.

Definition MergeSlices (slices : list (list K)) : list K :=
  MapKeys (foldl (λ uniq slice, foldl (λ uniq item, <[item := ()]> uniq) uniq slice)
             (∅ : gmap K unit) slices).
End slices.

(** A slice header over a backing array: offset, length, capacity. *)
Record header := { off : nat; len : nat; cap : nat }.

(** [s[lo:]] and [s[lo:hi:max]], which panic out of bounds. *)
Definition slice_from (s : header) (lo : nat) : result () header :=
  if decide (lo ≤ len s)%nat
  then Ok {| off := off s + lo; len := len s - lo; cap := cap s - lo |}
  else Panic "slice bounds out of range".
Definition slice3 (s : header) (lo hi max : nat) : result () header :=
  if decide (lo ≤ hi ∧ hi ≤ max ∧ max ≤ cap s)%nat
  then Ok {| off := off s + lo; len := hi - lo; cap := max - lo |}
  else Panic "slice bounds out of range".

(** The loop of [Chunk]: every turn shortens [items], so its length is
    enough fuel. *)
Fixpoint chunk_loop (fuel : nat) (items : header) (chunkSize : nat) (chunks : list header)
    : result () (list header) :=
  if decide (chunkSize < len items)%nat then
    match fuel with
    | O => Panic "out of fuel"
    | S fuel =>
        rest ← slice_from items chunkSize;
        chunk ← slice3 items 0 chunkSize chunkSize;
        chunk_loop fuel rest chunkSize (chunks ++ [chunk])
    end
  else Ok (chunks ++ [items]).

Definition Chunk (items : header) (chunkSize : Z) : result () (list header) :=
  if decide (chunkSize ≤ 0) then Ok [items]
  else chunk_loop (len items) items (Z.to_nat chunkSize) [].

(** What a slice header shows of its array. *)
Definition view {T} (arr : list T) (s : header) : list T := take (len s) (drop (off s) arr).

(** [Reverse]: two indices moving towards each other; [j] drops every turn. *)
Fixpoint reverse_loop {T} (fuel : nat) (slice : list T) (i j : Z) : result () (list T) :=
  if decide (i < j) then
    match fuel with
    | O => Panic "out of fuel"
    | S fuel =>
        x ← get_index slice i;
        y ← get_index slice j;
        slice ← set_index slice i y;
        slice ← set_index slice j x;
        reverse_loop fuel slice (i + 1) (j - 1)
    end
  else Ok slice.
Definition Reverse {T} (slice : list T) : result () (list T) :=
  reverse_loop (length slice) slice 0 (Z.of_nat (length slice) - 1).

(** ** list.go

    One method at a time; ListConcurrent.v interleaves their accesses. *)
Section List_.
Context {K : Type} `{Countable K, !Ordered K, !MapRange K}.

Record List_ := { data : gmap K unit }.

Definition NewList : List_ := {| data := ∅ |}.
Definition Add (item : K) (l : List_) : List_ :=
  match data l !! item with
  | None => {| data := <[item := ()]> (data l) |}
  | Some _ => l
  end.
Definition Remove (item : K) (l : List_) : List_ := {| data := delete item (data l) |}.
Definition AddSlice (dataslice : list K) (l : List_) : List_ :=
  foldl (λ l k, Add k l) l dataslice.
Definition RemoveSlice (dataslice : list K) (l : List_) : List_ :=
  foldl (λ l k, Remove k l) l dataslice.
Definition AddMapKeys {V} (datamap : gmap K V) (l : List_) : List_ :=
  foldl (λ l k, Add k l) l (range_keys datamap).
Definition NewListFrom (slice : list K) : List_ := AddSlice slice NewList.
Definition Len (l : List_) : Z := Z.of_nat (size (data l)).
Definition Slice (l : List_) : list K := MapKeys (data l).
End List_.
Arguments List_ K {_ _}.

(** ** Specification *)

(** Sorted ascending without duplicates: there is one such list per set. *)
Definition sorted_set {K} `{Ordered K} (l : list K) : Prop :=
  StronglySorted ord_le l ∧ NoDup l.

(** The operations other goroutines may interleave. *)
Inductive list_op (K : Type) := OpAdd (k : K) | OpRemove (k : K).
Arguments OpAdd {_}. Arguments OpRemove {_}.
Definition op_key {K} (op : list_op K) : K := match op with OpAdd k | OpRemove k => k end.
Definition run_op {K} `{Countable K} (l : List_ K) (op : list_op K) : List_ K :=
  match op with OpAdd k => Add k l | OpRemove k => Remove k l end.

(** Whether a key is in the list is decided by the last operation on it. *)
Fixpoint last_op {K} `{EqDecision K} (k : K) (ops : list (list_op K)) : option bool :=
  match ops with
  | [] => None
  | op :: ops =>
      match last_op k ops with
      | Some b => Some b
      | None => if decide (op_key op = k)
                then Some (match op with OpAdd _ => true | OpRemove _ => false end)
                else None
      end
  end.

(** ** Facts *)
Section insertion.
Context {K : Type} `{Countable K}.

Lemma lookup_foldl_insert {V} (v : V) (l : list K) (m : gmap K V) k :
  is_Some (foldl (λ m k, <[k := v]> m) m l !! k) ↔ k ∈ l ∨ is_Some (m !! k).
Proof.
  revert m. induction l as [|x l IH]; intros m; simpl; [set_solver|].
  rewrite IH, lookup_insert_is_Some'. set_solver.
Qed.

Lemma keep_new_spec (l : list K) (seen : gset K) (result : list K) :
  let '(seen', result') := foldl keep_new (seen, result) l in
  seen' = list_to_set l ∪ seen ∧
  ∃ new, result' = result ++ new ∧ new `sublist_of` l ∧ NoDup new
         ∧ ∀ x, x ∈ new ↔ x ∈ l ∧ x ∉ seen.
Proof.
  revert seen result. induction l as [|x l IH]; intros seen result; simpl.
  - split; [set_solver|]. exists []. rewrite app_nil_r. split_and!; [done..|constructor|set_solver].
  - case_decide as Hx.
    + specialize (IH seen result). destruct (foldl _ _ _) as [seen' result'].
      destruct IH as (-> & new & -> & Hsub & Hn & Hin). split; [set_solver|].
      exists new. split_and!; [done|by apply sublist_cons|done|set_solver].
    + specialize (IH ({[x]} ∪ seen) (result ++ [x])). destruct (foldl _ _ _) as [seen' result'].
      destruct IH as (-> & new & -> & Hsub & Hn & Hin). split; [set_solver|].
      exists (x :: new). rewrite <-app_assoc.
      split_and!; [done|by apply sublist_skip|apply NoDup_cons; set_solver|].
      intros y. rewrite !elem_of_cons, Hin. set_unfold. destruct (decide (y = x)); set_solver.
Qed.

Lemma foldl_union (l : list K) (acc : gset K) :
  foldl (λ p k, {[k]} ∪ p) acc l = list_to_set l ∪ acc.
Proof. revert acc. induction l as [|x l IH]; intros acc; simpl; [set_solver|]. rewrite IH. set_solver. Qed.
End insertion.

Section facts.
Context {K : Type} `{Countable K, !Ordered K, !MapRange K, !MapRangeLaws K}.

Lemma foldl_snoc {A} (l acc : list A) : foldl (λ keys k, keys ++ [k]) acc l = acc ++ l.
Proof.
  revert acc. induction l as [|x l IH]; intros acc; simpl; [by rewrite app_nil_r|].
  by rewrite IH, <-app_assoc.
Qed.

Lemma sorted_set_unique l l' :
  sorted_set l → sorted_set l' → (∀ x, x ∈ l ↔ x ∈ l') → l = l'.
Proof.
  intros [Hs Hn] [Hs' Hn'] Heq.
  apply (StronglySorted_unique ord_le); [done..|]. by apply NoDup_Permutation.
Qed.

Lemma elem_of_range_keys {V} (m : gmap K V) k : k ∈ range_keys m ↔ is_Some (m !! k).
Proof.
  rewrite range_keys_perm, list_elem_of_fmap. split.
  - intros ([k' v] & -> & Hkv%elem_of_map_to_list). by exists v.
  - intros [v Hv]. exists (k, v). by rewrite elem_of_map_to_list.
Qed.

Lemma MapKeys_spec {V} (m : gmap K V) :
  sorted_set (MapKeys m) ∧ ∀ k, k ∈ MapKeys m ↔ is_Some (m !! k).
Proof.
  unfold MapKeys, sorted_set. rewrite foldl_snoc. simpl. split; [split|].
  - apply sort_sorted.
  - rewrite NoDup_sort, range_keys_perm. apply NoDup_fst_map_to_list.
  - intros k. by rewrite elem_of_sort, elem_of_range_keys.
Qed.

End facts.

(** Slices of an array. *)
Section headers.
Context {T : Type}.
Implicit Types (arr : list T) (s : header).

Definition valid_header arr s : Prop := (len s ≤ cap s ∧ off s + cap s ≤ length arr)%nat.

Lemma chunk_loop_spec arr fuel s n acc :
  (0 < n)%nat → (len s ≤ fuel)%nat → valid_header arr s →
  ∃ full rest, chunk_loop fuel s n acc = Ok (acc ++ full ++ [rest])
    ∧ concat (map (view arr) full) ++ view arr rest = view arr s
    ∧ Forall (λ c, len c = n ∧ cap c = n) full
    ∧ (len rest ≤ n)%nat ∧ (off rest + cap rest = off s + cap s)%nat
    ∧ (0 < len s → 0 < len rest)%nat ∧ valid_header arr rest.
Proof.
  intros Hn. revert s acc. induction fuel as [|fuel IH]; intros s acc Hf [Hlc Hcap]; simpl.
  - rewrite decide_False by lia. exists [], s. unfold valid_header. simpl. split_and!; (done || lia).
  - case_decide as Hlen.
    2:{ exists [], s. unfold valid_header. simpl. split_and!; (done || lia). }
    unfold slice_from, slice3. rewrite decide_True by lia. simpl. rewrite decide_True by lia. simpl.
    destruct (IH {| off := off s + n; len := len s - n; cap := cap s - n |}
      (acc ++ [{| off := off s + 0; len := n - 0; cap := n - 0 |}]))
      as (full & rest & Hrun & Hview & Hfull & Hrest & Hend & Hpos & Hval);
      [simpl; lia|unfold valid_header; simpl; lia|]. rewrite Hrun.
    eexists (_ :: full), rest. rewrite <-app_assoc. split; [reflexivity|].
    simpl in *. split_and!; [|by constructor; [simpl; lia|]|lia|lia|intros; apply Hpos; lia|done].
    rewrite <-app_assoc, Hview. unfold view. simpl.
    rewrite Nat.add_0_r, Nat.sub_0_r. replace (len s) with (n + (len s - n))%nat at 2 by lia.
    by rewrite <-take_take_drop, drop_drop.
Qed.

Lemma get_index_app {E} (a b : list T) x i :
  i = Z.of_nat (length a) → get_index (E:=E) (a ++ x :: b) i = Ok x.
Proof.
  intros ->. unfold get_index. rewrite decide_True by lia. rewrite Nat2Z.id.
  by rewrite list_lookup_middle.
Qed.

Lemma set_index_app {E} (a b : list T) x y i :
  i = Z.of_nat (length a) → set_index (E:=E) (a ++ x :: b) i y = Ok (a ++ y :: b).
Proof.
  intros ->. unfold set_index. rewrite decide_True by (rewrite length_app; simpl; lia).
  rewrite Nat2Z.id, <-(Nat.add_0_r (length a)). by rewrite insert_app_r.
Qed.

Lemma reverse_loop_spec fuel (a mid b : list T) i j :
  (length mid ≤ fuel)%nat → i = Z.of_nat (length a) → j = i + Z.of_nat (length mid) - 1 →
  reverse_loop fuel (a ++ mid ++ b) i j = Ok (a ++ reverse mid ++ b).
Proof.
  revert a mid b i j. induction fuel as [|fuel IH]; intros a mid b i j Hf Hi Hj; simpl.
  - destruct mid; [|simpl in Hf; lia]. by rewrite decide_False by (simpl in *; lia).
  - destruct mid as [|x mid]; [by rewrite decide_False by (simpl in *; lia)|].
    destruct mid as [|y mid] using rev_ind; [by rewrite decide_False by (simpl in *; lia)|].
    clear IHmid. simpl in Hf, Hj. rewrite length_app in Hf, Hj. simpl in Hf, Hj.
    rewrite decide_True by lia. simpl. rewrite <-!app_assoc. simpl.
    rewrite (get_index_app a _ x i Hi). simpl.
    replace (a ++ x :: mid ++ y :: b) with ((a ++ x :: mid) ++ y :: b) by by rewrite <-app_assoc.
    rewrite get_index_app by (rewrite length_app; simpl; lia). simpl.
    rewrite <-app_assoc. simpl. rewrite (set_index_app a _ x y i Hi). simpl.
    replace (a ++ y :: mid ++ y :: b) with ((a ++ y :: mid) ++ y :: b) by by rewrite <-app_assoc.
    rewrite set_index_app by (rewrite length_app; simpl; lia). simpl.
    replace ((a ++ y :: mid) ++ x :: b) with ((a ++ [y]) ++ mid ++ (x :: b)) by by rewrite <-!app_assoc.
    rewrite IH by (rewrite ?length_app; simpl; lia).
    by rewrite reverse_cons, reverse_app, <-!app_assoc.
Qed.
End headers.

(** ** Properties *)
Section properties.
Context {K : Type} `{Countable K, !Ordered K, !MapRange K, !MapRangeLaws K}.

(** [MergeSlices] returns the one ascending, duplicate-free list of all the
    elements, so the order and the split of the inputs, and the order Go
    visits its map in, do not matter. *)
Theorem MergeSlices_spec (slices : list (list K)) :
  sorted_set (MergeSlices slices)
  ∧ (∀ k, k ∈ MergeSlices slices ↔ ∃ slice, slice ∈ slices ∧ k ∈ slice)
  ∧ ∀ slices' : list (list K), concat slices ≡ₚ concat slices' → MergeSlices slices = MergeSlices slices'.
Proof.
  assert (∀ (sl : list (list K)), sorted_set (MergeSlices sl) ∧
            ∀ k, k ∈ MergeSlices sl ↔ k ∈ concat sl) as Hspec.
  { intros sl. unfold MergeSlices.
    destruct (MapKeys_spec (foldl (λ uniq slice, foldl (λ uniq item, <[item := ()]> uniq) uniq slice)
      (∅ : gmap K unit) sl)) as [Hs Hin]. split; [done|].
    intros k. rewrite Hin. clear.
    assert (∀ m : gmap K unit, is_Some (foldl (λ uniq slice,
      foldl (λ uniq item, <[item := ()]> uniq) uniq slice) m sl !! k) ↔ k ∈ concat sl ∨ is_Some (m !! k)) as Hfold.
    { induction sl as [|s sl IH]; intros m; simpl; [set_solver|].
      rewrite IH, lookup_foldl_insert. set_solver. }
    rewrite Hfold, lookup_empty. pose proof (is_Some_None (A := unit)). tauto. }
  destruct (Hspec slices) as [Hs Hin]. split; [done|]. split.
  - intros k. rewrite Hin, list_elem_of_In, in_concat.
    by setoid_rewrite list_elem_of_In.
  - intros slices' Hp. destruct (Hspec slices') as [Hs' Hin'].
    apply sorted_set_unique; [done..|]. intros x. by rewrite Hin, Hin', Hp.
Qed.

(** [MergeMapKeys] returns the ascending, duplicate-free list of the keys
    of all the maps. *)
Theorem MergeMapKeys_spec {V} (m : gmap K V) (adds : list (gmap K V)) :
  sorted_set (MergeMapKeys m adds)
  ∧ ∀ k, k ∈ MergeMapKeys m adds ↔ is_Some (m !! k) ∨ ∃ add, add ∈ adds ∧ is_Some (add !! k).
Proof.
  unfold MergeMapKeys. set (uniq := foldl _ (foldl _ _ _) _).
  destruct (MapKeys_spec uniq) as [Hs Hin]. split; [done|]. intros k.
  transitivity (is_Some (uniq !! k)); [exact (Hin k)|]. unfold uniq. clear -MapRangeLaws0.
  assert (∀ u : gmap K bool, is_Some (foldl (λ uniq add,
    foldl (λ uniq k, <[k := true]> uniq) uniq (range_keys add)) u adds !! k) ↔
    is_Some (u !! k) ∨ ∃ add, add ∈ adds ∧ is_Some (add !! k)) as Hadds.
  { induction adds as [|a adds IH]; intros u; simpl.
    { split; [by left|]. intros [?|(? & ?%elem_of_nil & _)]; done. }
    rewrite IH, lookup_foldl_insert, elem_of_range_keys.
    setoid_rewrite elem_of_cons. naive_solver. }
  rewrite Hadds, lookup_foldl_insert, elem_of_range_keys, lookup_empty.
  pose proof (is_Some_None (A := bool)). tauto.
Qed.

(** refinement.  Under any interleaving of [Add]s and [Remove]s of any
    goroutines, the list is the set whose members are the keys last added:
    [Slice] returns it in ascending order and [Len] its size. *)
Theorem List_ops (ops : list (list_op K)) :
  let l := foldl run_op NewList ops in
  sorted_set (Slice l)
  ∧ (∀ k, k ∈ Slice l ↔ last_op k ops = Some true)
  ∧ Len l = Z.of_nat (length (Slice l)).
Proof.
  intros l. destruct (MapKeys_spec (data l)) as [Hs Hin]. split; [done|]. split.
  - intros k. unfold Slice. rewrite Hin. unfold l. clear.
    assert (∀ l0, is_Some (data (foldl run_op l0 ops) !! k) ↔
      match last_op k ops with Some b => b = true | None => is_Some (data l0 !! k) end) as Hops.
    { induction ops as [|op ops IH]; intros l0; [done|]. simpl. rewrite IH.
      destruct (last_op k ops); [done|]. case_decide as Hk; destruct op as [k'|k']; simpl in *.
      - subst k'. unfold Add. destruct (data l0 !! k) eqn:Hl; simpl; [by rewrite Hl|].
        by rewrite lookup_insert_eq.
      - subst k'. rewrite lookup_delete_eq, is_Some_alt. done.
      - unfold Add. destruct (data l0 !! k'); [done|]. simpl. by rewrite lookup_insert_ne.
      - by rewrite lookup_delete_ne. }
    rewrite Hops. destruct (last_op k ops) as [[]|]; [done..|].
    simpl. by rewrite lookup_empty, is_Some_alt.
  - unfold Len, Slice, MapKeys. rewrite foldl_snoc. simpl.
    rewrite (Permutation_length (sort_Permutation _)), range_keys_perm, length_fmap.
    by rewrite length_map_to_list.
Qed.
End properties.

(** [RemoveFromSlice] keeps the elements that are not to be removed, each
    once, where it is first seen; [Uniq] is the case of nothing to remove. *)
Theorem RemoveFromSlice_spec {K} `{Countable K} (base toRemove : list K) :
  NoDup (RemoveFromSlice base toRemove)
  ∧ RemoveFromSlice base toRemove `sublist_of` base
  ∧ (∀ k, k ∈ RemoveFromSlice base toRemove ↔ k ∈ base ∧ k ∉ toRemove)
  ∧ (∀ k, RemoveFromSlice (base ++ [k]) toRemove
          = RemoveFromSlice base toRemove ++ (if decide (k ∈ toRemove ∨ k ∈ base) then [] else [k]))
  ∧ Uniq base = RemoveFromSlice base [].
Proof.
  unfold RemoveFromSlice, Uniq. rewrite foldl_union.
  pose proof (keep_new_spec base (list_to_set toRemove ∪ ∅) []) as Hspec.
  destruct (foldl keep_new (list_to_set toRemove ∪ ∅, []) base) as [seen result] eqn:Hrun.
  destruct Hspec as (-> & new & -> & Hsub & Hn & Hin). simpl in *.
  split_and!; [done..| | |done].
  - intros k. rewrite Hin. set_solver.
  - intros k. rewrite foldl_app, Hrun. simpl.
    repeat case_decide; simpl; rewrite ?app_nil_r; (done || set_solver).
Qed.

(** [Chunk] of a positive size does not fail: the chunks show the elements
    in order, every chunk but the last has exactly the size and no spare
    capacity, so appending to it cannot reach its neighbour, and only an empty
    input gives an empty last chunk. *)
Theorem Chunk_spec {T} (arr : list T) s n :
  valid_header arr s → 0 < n →
  ∃ full rest, Chunk s n = Ok (full ++ [rest])
    ∧ concat (map (view arr) full) ++ view arr rest = view arr s
    ∧ Forall (λ c, Z.of_nat (len c) = n ∧ cap c = len c) full
    ∧ Z.of_nat (len rest) ≤ n ∧ (len rest = 0 → len s = 0)%nat.
Proof.
  intros Hs Hn. unfold Chunk. rewrite decide_False by lia.
  destruct (chunk_loop_spec arr (len s) s (Z.to_nat n) [])
    as (full & rest & -> & Hview & Hfull & Hrest & _ & Hpos & _); [lia|done|done|].
  exists full, rest. split; [done|]. split_and!; [done| |lia|lia].
  eapply Forall_impl; [exact Hfull|]. simpl. intros c [-> ->]. lia.
Qed.

(** [Reverse] terminates without an index out of range and leaves the
    elements in the opposite order. *)
Theorem Reverse_spec {T} (slice : list T) : Reverse slice = Ok (reverse slice).
Proof.
  unfold Reverse. pose proof (reverse_loop_spec (length slice) [] slice [] 0
    (Z.of_nat (length slice) - 1)) as H. rewrite !app_nil_r in H. simpl in H.
  apply H; [done|done|lia].
Qed.

(** ** Witnesses *)
Lemma Chunk_spec_witness :
  Chunk {| off := 1; len := 5; cap := 6 |} 2
  = Ok [ {| off := 1; len := 2; cap := 2 |}; {| off := 3; len := 2; cap := 2 |};
         {| off := 5; len := 1; cap := 2 |} ]
  ∧ ∃ full rest, Chunk {| off := 1; len := 5; cap := 6 |} 2 = Ok (full ++ [rest])
    ∧ concat (map (view [0; 1; 2; 3; 4; 5; 6; 7]) full) ++ view [0; 1; 2; 3; 4; 5; 6; 7] rest
      = [1; 2; 3; 4; 5]
    ∧ Forall (λ c, Z.of_nat (len c) = 2 ∧ cap c = len c) full
    ∧ Z.of_nat (len rest) ≤ 2 ∧ (len rest = 0 → 5 = 0)%nat.
Proof.
  split; [reflexivity|].
  apply (Chunk_spec [0; 1; 2; 3; 4; 5; 6; 7] {| off := 1; len := 5; cap := 6 |} 2);
    [unfold valid_header; simpl; lia|lia].
Defined.

Lemma List_ops_witness :
  let l := foldl run_op NewList [OpAdd 3; OpAdd 1; OpRemove 3; OpAdd 2] in
  sorted_set (Slice l)
  ∧ (∀ k, k ∈ Slice l ↔ last_op k [OpAdd 3; OpAdd 1; OpRemove 3; OpAdd 2] = Some true)
  ∧ Len l = Z.of_nat (length (Slice l)).
Proof. exact (List_ops [OpAdd 3; OpAdd 1; OpRemove 3; OpAdd 2]). Defined.

Example List_ops_slice :
  Slice (foldl run_op NewList [OpAdd 3; OpAdd 1; OpRemove 3; OpAdd 2]) = [1; 2].
Proof. vm_compute. reflexivity. Qed.

Lemma MergeSlices_spec_witness :
  sorted_set (MergeSlices [[3; 1]; []; [2; 3]])
  ∧ (∀ k, k ∈ MergeSlices [[3; 1]; []; [2; 3]] ↔ ∃ slice, slice ∈ [[3; 1]; []; [2; 3]] ∧ k ∈ slice)
  ∧ ∀ slices' : list (list Z), concat [[3; 1]; []; [2; 3]] ≡ₚ concat slices' →
      MergeSlices [[3; 1]; []; [2; 3]] = MergeSlices slices'.
Proof. exact (MergeSlices_spec [[3; 1]; []; [2; 3]]). Defined.

Lemma MergeMapKeys_spec_witness :
  sorted_set (MergeMapKeys (<[3 := tt]> ∅) [<[1 := tt]> (∅ : gmap Z unit)])
  ∧ ∀ k, k ∈ MergeMapKeys (<[3 := tt]> ∅) [<[1 := tt]> (∅ : gmap Z unit)] ↔
      is_Some ((<[3 := tt]> (∅ : gmap Z unit)) !! k)
      ∨ ∃ add, add ∈ [<[1 := tt]> (∅ : gmap Z unit)] ∧ is_Some (add !! k).
Proof. exact (MergeMapKeys_spec (<[3 := tt]> ∅) [<[1 := tt]> (∅ : gmap Z unit)]). Defined.
