(* ===== verification/ListConcurrent.v ===== *)
(** * kit.List by many goroutines (list.go, maps.go)

    [Add] and [Remove] lock the list's mutex, [Len] and [Slice] do not.  Each
    goroutine runs a program of calls; its accesses to the map are separate
    steps, so that the order in which the critical sections happen, and which
    accesses can fall together, are consequences of the code.  [Slice] iterates
    over the map without the mutex, one key per step, while others write to it. *)
From S2P Require Export Prelude Collections.
Local Open Scope Z_scope.

Section List_.
Context {K : Type} `{Countable K, !Ordered K, !MapRange K, !MapRangeLaws K}.

(** ** The methods *)

Inductive instr :=
  | ILock                    (* l.mu.Lock() *)
  | ITest (item : K)         (* _, ok := l.data[item] *)
  | IInsert (item : K)       (* l.data[item] = struct{}{} *)
  | IDelete (item : K)       (* delete(l.data, item) *)
  | IUnlock                  (* l.mu.Unlock() *)
  | ILen                     (* len(l.data) *)
  | ISlice.                  (* MapKeys(l.data): the loop and the sorting *)

Inductive call :=
  | CAdd (item : K)
  | CAddSlice (dataslice : list K)
  | CAddMapKeys (datamap : gmap K unit)
  | CRemove (item : K)
  | CRemoveSlice (dataslice : list K)
  | CLen
  | CSlice.

Definition Add_code (item : K) : list instr := [ILock; ITest item; IUnlock].
Definition Remove_code (item : K) : list instr := [ILock; IDelete item; IUnlock].
Definition code_of (c : call) : list instr :=
  match c with
  | CAdd item => Add_code item
  | CAddSlice dataslice => concat (map Add_code dataslice)
  | CAddMapKeys datamap => concat (map Add_code (range_keys datamap))
  | CRemove item => Remove_code item
  | CRemoveSlice dataslice => concat (map Remove_code dataslice)
  | CLen => [ILen]
  | CSlice => [ISlice]
  end.
Definition program (cs : list call) : list instr := concat (map code_of cs).

(** ** Iterating over a map that changes

    The rule of the language for [range] over a map: an entry present from the
    start is produced once, unless it is removed before it is reached; an entry
    created during the iteration is produced or skipped. *)
Record iter := {
  must : gset K;      (* present since the start and not produced *)
  may : gset K;       (* created during the iteration and not produced *)
  keys : list K;      (* produced: the slice [keys] of [MapKeys] *)
  since : nat;        (* how many operations were complete at the start *)
}.

Definition range_start (m : gmap K unit) (now : nat) : iter :=
  {| must := dom m; may := ∅; keys := []; since := now |}.
Definition range_next (k : K) (it : iter) : option iter :=
  if decide (k ∈ must it ∪ may it)
  then Some {| must := must it ∖ {[k]}; may := may it ∖ {[k]}; keys := keys it ++ [k];
               since := since it |}
  else None.
Definition created (k : K) (it : iter) : iter :=
  {| must := must it; may := {[k]} ∪ may it; keys := keys it; since := since it |}.
Definition removed (k : K) (it : iter) : iter :=
  {| must := must it ∖ {[k]}; may := may it ∖ {[k]}; keys := keys it; since := since it |}.

(** ** Steps *)

(** The answer of a [Slice] comes with the operations that were complete when
    it started and when it ended. *)
Inductive answer := RLen (n : Z) | RSlice (l : list K) (from upto : nat).

(** The accesses still to come and, inside [Slice], the iteration. *)
Record goroutine := { code : list instr; iter_ : option iter }.

(** [done] and [answers] record, in order, which goroutine completed which
    operation on the map and which answers [Len] and [Slice] gave; [aborted]:
    the runtime ended the program. *)
Record state := {
  mu : bool;
  list_ : List_ K;
  procs : list goroutine;
  done : list (nat * list_op K);
  answers : list (nat * answer);
  aborted : bool;
}.
Definition init (progs : list (list call)) : state :=
  {| mu := false; list_ := NewList;
     procs := map (λ cs, {| code := program cs; iter_ := None |}) progs;
     done := []; answers := []; aborted := false |}.

Definition touch (f : iter → iter) (g : goroutine) : goroutine :=
  {| code := code g; iter_ := f <$> iter_ g |}.

(** Goroutine [i] goes on to [c]. *)
Definition goto (i : nat) (c : list instr) (s : state) : state :=
  {| mu := mu s; list_ := list_ s; procs := <[i := {| code := c; iter_ := None |}]> (procs s);
     done := done s; answers := answers s; aborted := aborted s |}.
Definition set_mu (b : bool) (s : state) : state :=
  {| mu := b; list_ := list_ s; procs := procs s; done := done s; answers := answers s;
     aborted := aborted s |}.
Definition set_iter (i : nat) (it : iter) (s : state) : state :=
  {| mu := mu s; list_ := list_ s;
     procs := alter (λ g, {| code := code g; iter_ := Some it |}) i (procs s);
     done := done s; answers := answers s; aborted := aborted s |}.
(** Goroutine [i] completes [op], which leaves the map as [m]; the iterations
    under way see it as [f] says. *)
Definition complete (i : nat) (op : list_op K) (m : gmap K unit) (f : iter → iter) (s : state)
    : state :=
  {| mu := mu s; list_ := {| data := m |}; procs := touch f <$> procs s;
     done := done s ++ [(i, op)]; answers := answers s; aborted := aborted s |}.
Definition reply (i : nat) (a : answer) (s : state) : state :=
  {| mu := mu s; list_ := list_ s; procs := procs s; done := done s;
     answers := answers s ++ [(i, a)]; aborted := aborted s |}.

Definition writes (x : instr) : bool :=
  match x with IInsert _ | IDelete _ => true | _ => false end.
Definition writing (g : goroutine) : bool :=
  match code g with x :: _ => writes x | [] => false end.

(** What happens next: a goroutine takes its step, the [range] loop of its
    [Slice] produces a key, or the runtime finds that loop and a write of
    another goroutine at the same time ("concurrent map iteration and map
    write") and ends the program. *)
Inductive event :=
  | Go (i : nat)
  | Yield (i : nat) (k : K)
  | Abort (i : nat).

(** [if !ok] of [Add] makes the insertion the next instruction. *)
Definition exec (e : event) (s : state) : option state :=
  if aborted s then None else
  match e with
  | Go i =>
      g ← procs s !! i;
      let m := data (list_ s) in
      match code g with
      | [] => None
      | ILock :: rest => if mu s then None else Some (goto i rest (set_mu true s))
      | ITest k :: rest =>
          Some match m !! k with
          | Some _ => goto i rest (complete i (OpAdd k) m (λ it, it) s)
          | None => goto i (IInsert k :: rest) s
          end
      | IInsert k :: rest =>
          Some (goto i rest (complete i (OpAdd k) (<[k := ()]> m)
            (if decide (is_Some (m !! k)) then λ it, it else created k) s))
      | IDelete k :: rest =>
          Some (goto i rest (complete i (OpRemove k) (delete k m) (removed k) s))
      | IUnlock :: rest => Some (goto i rest (set_mu false s))
      | ILen :: rest => Some (goto i rest (reply i (RLen (Len (list_ s))) s))
      | ISlice :: rest =>
          match iter_ g with
          | None => Some (set_iter i (range_start m (length (done s))) s)
          | Some it =>
              if decide (must it = ∅)
              then Some (goto i rest (reply i (RSlice (sort (keys it)) (since it) (length (done s))) s))
              else None
          end
      end
  | Yield i k =>
      g ← procs s !! i;
      it ← iter_ g;
      it ← range_next k it;
      Some (set_iter i it s)
  | Abort i =>
      g ← procs s !! i;
      if bool_decide (is_Some (iter_ g)) && existsb writing (delete i (procs s))
      then Some {| mu := mu s; list_ := list_ s; procs := procs s; done := done s;
                   answers := answers s; aborted := true |}
      else None
  end.

Fixpoint run (sched : list event) (s : state) : option state :=
  match sched with
  | [] => Some s
  | e :: sched => exec e s ≫= run sched
  end.

(** ** Specification *)

(** The operations a program stands for, and those it has still to complete. *)
Definition call_ops (c : call) : list (list_op K) :=
  match c with
  | CAdd k => [OpAdd k]
  | CAddSlice ks => map OpAdd ks
  | CAddMapKeys m => map OpAdd (range_keys m)
  | CRemove k => [OpRemove k]
  | CRemoveSlice ks => map OpRemove ks
  | CLen | CSlice => []
  end.
Definition ops_of (cs : list call) : list (list_op K) := concat (map call_ops cs).

Fixpoint to_do (c : list instr) : list (list_op K) :=
  match c with
  | [] => []
  | ITest k :: c | IInsert k :: c => OpAdd k :: to_do c
  | IDelete k :: c => OpRemove k :: to_do c
  | _ :: c => to_do c
  end.

Definition done_by (i : nat) (s : state) : list (list_op K) :=
  omap (λ '(j, op), if decide (j = i) then Some op else None) (done s).

(** The list after the first [n] of some operations, and what is in it. *)
Definition after (n : nat) (ops : list (list_op K)) : List_ K := foldl run_op NewList (take n ops).
Definition present (k : K) (n : nat) (ops : list (list_op K)) : Prop :=
  is_Some (data (after n ops) !! k).

Definition occurrences (k : K) (l : list K) : Z := cnt (λ x, bool_decide (x = k)) l.
Definition adds_of (k : K) (ops : list (list_op K)) : Z :=
  cnt (λ op, match op with OpAdd x => bool_decide (x = k) | _ => false end) ops.

(** What an answer may be when the completed operations are [ops].  A [Len] is
    that of the list at some moment.  A [Slice] is ascending; it has only keys
    that were in the list at some moment of the call, and all those that were
    in it throughout; it has a key twice only if the key was added during the
    call; and when no operation was completed during the call it is exactly the
    set of the keys of the list. *)
Definition answer_ok (ops : list (list_op K)) (a : answer) : Prop :=
  match a with
  | RLen n => ∃ m, (m ≤ length ops)%nat ∧ n = Len (after m ops)
  | RSlice l from upto =>
      (from ≤ upto ≤ length ops)%nat
      ∧ StronglySorted ord_le l
      ∧ (∀ k, k ∈ l → ∃ n, (from ≤ n ≤ upto)%nat ∧ present k n ops)
      ∧ (∀ k, (∀ n, (from ≤ n ≤ upto)%nat → present k n ops) → k ∈ l)
      ∧ (∀ k, occurrences k l ≤ 1 + adds_of k (drop from (take upto ops)))
      ∧ (from = upto → l = Slice (after from ops))
  end.

(** Two accesses to the map conflict when one of them writes. *)
Definition reads (x : instr) : bool :=
  match x with ITest _ | ILen | ISlice => true | _ => false end.
Definition conflict (x y : instr) : bool := writes x && (reads y || writes y).

(** A data race: two goroutines are about to make conflicting accesses. *)
Definition race (s : state) (x y : instr) : Prop :=
  ∃ i j gi gj ci cj, i ≠ j ∧ procs s !! i = Some gi ∧ procs s !! j = Some gj
    ∧ code gi = x :: ci ∧ code gj = y :: cj ∧ conflict x y = true.

(** ** Histories *)

Lemma after_app n ops new : (n ≤ length ops)%nat → after n (ops ++ new) = after n ops.
Proof using Type. intros Hn. unfold after. by rewrite take_app_le. Qed.

Lemma after_all ops : after (length ops) ops = foldl run_op NewList ops.
Proof using Type. unfold after. by rewrite take_ge. Qed.

Lemma present_app k n ops new : (n ≤ length ops)%nat → present k n (ops ++ new) ↔ present k n ops.
Proof using Type. intros Hn. unfold present. by rewrite after_app. Qed.

Lemma present_now k ops l :
  l = foldl run_op NewList ops → present k (length ops) ops ↔ is_Some (data l !! k).
Proof using Type. intros ->. unfold present. by rewrite after_all. Qed.

Lemma answer_ok_app ops new a : answer_ok ops a → answer_ok (ops ++ new) a.
Proof using Type.
  destruct a as [n|l from upto]; simpl.
  - intros (m & Hm & ->). exists m. rewrite length_app, after_app by done. split; [lia|done].
  - intros (Hle & Hs & Hin & Hall & Hocc & Heq). rewrite length_app, take_app_le by lia.
    split_and!; [lia|lia|done|..|done|].
    + intros k Hk. destruct (Hin k Hk) as (n & Hn & Hp). exists n. split; [done|].
      apply present_app; [lia|done].
    + intros k Hk. apply Hall. intros n Hn. apply (present_app k n ops new); [lia|auto].
    + intros Hft. rewrite after_app by lia. auto.
Qed.

(** ** Iterations *)

Lemma occurrences_snoc (k x : K) l :
  occurrences k (l ++ [x]) = occurrences k l + if decide (x = k) then 1 else 0.
Proof using MapRangeLaws0. unfold occurrences. rewrite cnt_snoc. by case_bool_decide; case_decide. Qed.

Lemma occurrences_perm k l l' : l ≡ₚ l' → occurrences k l = occurrences k l'.
Proof using MapRangeLaws0. unfold occurrences. by intros ->. Qed.

(** How often a key can still be produced. *)
Definition pending (k : K) (it : iter) : Z :=
  Z.b2z (bool_decide (k ∈ must it)) + Z.b2z (bool_decide (k ∈ may it)).

(** What holds of an iteration under way when the completed operations are
    [ops]. *)
Record iter_ok (ops : list (list_op K)) (it : iter) : Prop := {
  io_since : (since it ≤ length ops)%nat;
  io_now k : k ∈ must it ∪ may it → present k (length ops) ops;
  io_keys k : k ∈ keys it → ∃ n, (since it ≤ n ≤ length ops)%nat ∧ present k n ops;
  io_all k : (∀ n, (since it ≤ n ≤ length ops)%nat → present k n ops) → k ∈ keys it ∨ k ∈ must it;
  io_quiet : since it = length ops →
    may it = ∅ ∧ NoDup (keys it) ∧ (∀ k, k ∈ keys it → k ∉ must it)
    ∧ (∀ k, present k (length ops) ops ↔ k ∈ keys it ∨ k ∈ must it);
  io_occ k : occurrences k (keys it) + pending k it ≤ 1 + adds_of k (drop (since it) ops);
}.

Lemma iter_ok_start ops l :
  l = foldl run_op NewList ops → iter_ok ops (range_start (data l) (length ops)).
Proof using MapRangeLaws0.
  intros Hl. split; simpl.
  - done.
  - intros k [Hk|Hk]%elem_of_union; [|set_solver]. apply (present_now k ops l Hl), elem_of_dom, Hk.
  - intros k Hk%elem_of_nil. done.
  - intros k Hk. right. apply elem_of_dom, (present_now k ops l Hl), Hk. lia.
  - intros _. split_and!; [done|constructor|by intros k ?%elem_of_nil|].
    intros k. rewrite (present_now k ops l Hl), elem_of_dom. split; [by right|].
    by intros [?%elem_of_nil|?].
  - intros k. unfold pending. simpl. rewrite drop_all, (bool_decide_false (k ∈ ∅)) by set_solver.
    destruct (bool_decide _); simpl; lia.
Qed.

(** The loop produces a key. *)
Lemma iter_ok_next ops it it' k :
  iter_ok ops it → range_next k it = Some it' → iter_ok ops it'.
Proof using MapRangeLaws0.
  intros [Hs Hnow Hkeys Hall Hq Hocc] Hr. unfold range_next in Hr.
  case_decide as Hk; [|done]. injection Hr as <-. split; simpl.
  - done.
  - intros x Hx. apply Hnow. set_solver.
  - intros x [Hx|Hx%list_elem_of_singleton]%elem_of_app; [by apply Hkeys|subst x].
    exists (length ops). split; [lia|]. by apply Hnow.
  - intros x Hx. destruct (decide (x = k)) as [->|Hne]; [left; set_solver|].
    destruct (Hall x Hx); [left|right]; set_solver.
  - intros Heq. destruct (Hq Heq) as (Hmay & Hn & Hdisj & Hp).
    assert (k ∈ must it) as Hkm by set_solver. split_and!.
    + set_solver.
    + apply NoDup_app. split_and!; [done|..|apply NoDup_singleton].
      intros x Hx ->%list_elem_of_singleton. by apply (Hdisj k).
    + intros x Hx. set_solver.
    + intros x. rewrite Hp. destruct (decide (x = k)) as [->|Hne]; [set_solver|set_solver].
  - intros x. rewrite occurrences_snoc. specialize (Hocc x). unfold pending in *. simpl.
    destruct (decide (k = x)) as [Hx|Hx].
    + subst x. rewrite !(bool_decide_false (k ∈ _ ∖ {[k]})) by set_solver.
      apply elem_of_union in Hk as [Hk|Hk]; rewrite (bool_decide_true _ Hk) in Hocc;
        destruct (bool_decide _) in Hocc; simpl in *; lia.
    + rewrite (bool_decide_ext (x ∈ must it ∖ {[k]}) (x ∈ must it)),
        (bool_decide_ext (x ∈ may it ∖ {[k]}) (x ∈ may it)) by set_solver. lia.
Qed.

Lemma adds_of_snoc k from ops op :
  (from ≤ length ops)%nat →
  adds_of k (drop from (ops ++ [op]))
  = adds_of k (drop from ops)
    + match op with OpAdd x => if decide (x = k) then 1 else 0 | OpRemove _ => 0 end.
Proof using MapRangeLaws0.
  intros Hf. rewrite drop_app_le by done. unfold adds_of. rewrite cnt_snoc.
  destruct op as [x|x]; simpl; [|done]. by case_bool_decide; case_decide.
Qed.

Lemma adds_of_nonneg k ops : 0 ≤ adds_of k ops.
Proof using MapRangeLaws0. apply cnt_nonneg. Qed.

(** Another goroutine completes an operation during the iteration. *)
Lemma iter_ok_op ops op it it' :
  iter_ok ops it →
  since it' = since it → keys it' = keys it →
  (∀ k, k ∈ must it' ∪ may it' → present k (S (length ops)) (ops ++ [op])) →
  (∀ k, k ∈ must it → present k (S (length ops)) (ops ++ [op]) → k ∈ must it') →
  (∀ k, pending k it' ≤ pending k it
     + match op with OpAdd x => if decide (x = k) then 1 else 0 | OpRemove _ => 0 end) →
  iter_ok (ops ++ [op]) it'.
Proof using MapRangeLaws0.
  intros [Hs Hnow Hkeys Hall Hq Hocc] Hsince Hk Hnow' Hmust Hpend.
  assert (length (ops ++ [op]) = S (length ops)) as Hlen by (rewrite length_app; simpl; lia).
  split; rewrite ?Hlen, ?Hsince, ?Hk.
  - lia.
  - done.
  - intros k (n & Hn & Hp)%Hkeys. exists n. split; [lia|]. apply present_app; [lia|done].
  - intros k Hp. destruct (Hall k) as [?|Hm]; [|by left|right; apply Hmust; [done|apply Hp; lia]].
    intros n Hn. apply (present_app k n ops [op]); [lia|]. apply Hp. lia.
  - lia.
  - intros k. rewrite adds_of_snoc by done. specialize (Hocc k). specialize (Hpend k). lia.
Qed.

Section op.
Context (ops : list (list_op K)) (l : List_ K) (Hl : l = foldl run_op NewList ops).

Lemma present_op k op :
  present k (S (length ops)) (ops ++ [op]) ↔ is_Some (data (run_op l op) !! k).
Proof using Hl MapRangeLaws0.
  replace (S (length ops)) with (length (ops ++ [op])) by (rewrite length_app; simpl; lia).
  apply present_now. by rewrite foldl_app, Hl.
Qed.

Lemma Add_data k : data (Add k l) = <[k := ()]> (data l).
Proof using MapRangeLaws0.
  unfold Add. destruct (data l !! k) as [[]|] eqn:Hk; [|done]. by rewrite insert_id.
Qed.

Lemma iter_ok_same k it :
  is_Some (data l !! k) → iter_ok ops it → iter_ok (ops ++ [OpAdd k]) it.
Proof using Hl MapRangeLaws0.
  intros Hk Hit. assert (∀ x, is_Some (data l !! x) → present x (S (length ops)) (ops ++ [OpAdd k])) as Hp.
  { intros x Hx. apply present_op. simpl. rewrite Add_data. apply lookup_insert_is_Some'. by right. }
  eapply iter_ok_op; [done..| |done|].
  - intros x Hx. apply Hp, (present_now x ops l Hl), (io_now _ _ Hit), Hx.
  - intros x. case_decide; lia.
Qed.

Lemma iter_ok_created k it :
  ¬ is_Some (data l !! k) → iter_ok ops it → iter_ok (ops ++ [OpAdd k]) (created k it).
Proof using Hl MapRangeLaws0.
  intros Hk Hit. assert (∀ x, is_Some (data l !! x) ∨ x = k →
    present x (S (length ops)) (ops ++ [OpAdd k])) as Hp.
  { intros x Hx. apply present_op. simpl. rewrite Add_data. apply lookup_insert_is_Some'.
    destruct Hx as [?| ->]; auto. }
  eapply iter_ok_op; [done..| |done|]; simpl.
  - intros x Hx. apply Hp. destruct (decide (x = k)) as [->|Hne]; [by right|left].
    apply (present_now x ops l Hl), (io_now _ _ Hit). set_solver.
  - intros x. unfold pending. simpl. case_decide as Hx.
    + destruct (bool_decide (x ∈ must it)), (bool_decide (x ∈ may it)), (bool_decide (x ∈ _ ∪ _));
        simpl; lia.
    + rewrite (bool_decide_ext (x ∈ {[k]} ∪ may it) (x ∈ may it)) by set_solver. lia.
Qed.

Lemma iter_ok_removed k it :
  iter_ok ops it → iter_ok (ops ++ [OpRemove k]) (removed k it).
Proof using Hl MapRangeLaws0.
  intros Hit. assert (∀ x, present x (S (length ops)) (ops ++ [OpRemove k])
                     ↔ x ≠ k ∧ is_Some (data l !! x)) as Hp.
  { intros x. rewrite present_op. simpl. rewrite lookup_delete_is_Some. naive_solver. }
  eapply iter_ok_op; [done..| | |]; simpl.
  - intros x Hx. apply Hp. split; [set_solver|].
    apply (present_now x ops l Hl), (io_now _ _ Hit). set_solver.
  - intros x Hx [Hne _]%Hp. set_solver.
  - intros x. unfold pending. simpl.
    destruct (decide (x ∈ must it)), (decide (x ∈ may it)); repeat case_bool_decide; simpl;
      try lia; set_solver.
Qed.

(** The iteration is over: its keys, sorted, are a proper answer. *)
Lemma iter_ok_end it :
  iter_ok ops it → must it = ∅ →
  answer_ok ops (RSlice (sort (keys it)) (since it) (length ops)).
Proof using Hl MapRangeLaws0.
  intros [Hs Hnow Hkeys Hall Hq Hocc] Hm. simpl. split_and!; [done|done|apply sort_sorted|..].
  - intros k Hk. rewrite elem_of_sort in Hk. by apply Hkeys.
  - intros k Hk. apply elem_of_sort. destruct (Hall k Hk); [done|set_solver].
  - intros k. rewrite (occurrences_perm k _ (keys it)) by apply sort_Permutation.
    rewrite take_ge by done. specialize (Hocc k). unfold pending in Hocc.
    destruct (bool_decide _), (bool_decide _); simpl in Hocc; lia.
  - intros Heq. destruct (Hq Heq) as (_ & Hn & _ & Hp).
    destruct (MapKeys_spec (data l)) as [Hsort Hin].
    rewrite Heq, after_all, <-Hl. apply sorted_set_unique; [|done|].
    + split; [apply sort_sorted|by apply NoDup_sort].
    + intros k. rewrite elem_of_sort. unfold Slice. rewrite Hin, <-(present_now k ops l Hl), Hp. set_solver.
Qed.
End op.

(** ** The invariant *)

(** Whether a goroutine is inside a critical section, and that sections are
    closed and contain the accesses of [Add] and [Remove]. *)
Definition inside (g : goroutine) : bool :=
  match code g with (ITest _ | IInsert _ | IDelete _ | IUnlock) :: _ => true | _ => false end.
Fixpoint well_locked (b : bool) (c : list instr) : bool :=
  match c with
  | [] => negb b
  | ILock :: c => negb b && well_locked true c
  | (ITest _ | IInsert _ | IDelete _) :: c => b && well_locked true c
  | IUnlock :: c => b && well_locked false c
  | (ILen | ISlice) :: c => negb b && well_locked b c
  end.

(** A goroutine: its sections are closed, and it iterates only in [Slice]. *)
Definition proc_ok (ops : list (list_op K)) (g : goroutine) : Prop :=
  well_locked (inside g) (code g) = true
  ∧ ∀ it, iter_ g = Some it → iter_ok ops it ∧ ∃ rest, code g = ISlice :: rest.

Lemma well_locked_inside b c it :
  well_locked b c = true → inside {| code := c; iter_ := it |} = b.
Proof using Type. destruct c as [|[] c], b; simpl; done. Qed.

Lemma well_locked_app c1 c2 :
  well_locked false c2 = true → ∀ b, well_locked b c1 = true → well_locked b (c1 ++ c2) = true.
Proof using Type.
  intros H2. induction c1 as [|x c1 IH]; intros b; simpl; [by destruct b|].
  destruct x; rewrite ?andb_true_iff; intros [? ?]; auto.
Qed.

Lemma to_do_app c1 c2 : to_do (c1 ++ c2) = to_do c1 ++ to_do c2.
Proof using Type. induction c1 as [|[] c1 IH]; simpl; congruence. Qed.

Record inv (progs : list (list call)) (s : state) : Prop := {
  inv_mu : cnt inside (procs s) = Z.b2z (mu s);
  inv_proc i g : procs s !! i = Some g → proc_ok (map snd (done s)) g;
  inv_list : list_ s = foldl run_op NewList (map snd (done s));
  inv_order i cs : progs !! i = Some cs →
    ∃ g, procs s !! i = Some g ∧ done_by i s ++ to_do (code g) = ops_of cs;
  inv_answers i a : (i, a) ∈ answers s → answer_ok (map snd (done s)) a;
}.

Lemma Add_codes_ok ks :
  well_locked false (concat (map Add_code ks)) = true ∧ to_do (concat (map Add_code ks)) = map OpAdd ks.
Proof using Type. induction ks as [|k ks [IH1 IH2]]; simpl; [done|by rewrite IH2]. Qed.
Lemma Remove_codes_ok ks :
  well_locked false (concat (map Remove_code ks)) = true
  ∧ to_do (concat (map Remove_code ks)) = map OpRemove ks.
Proof using Type. induction ks as [|k ks [IH1 IH2]]; simpl; [done|by rewrite IH2]. Qed.

Lemma code_ok c : well_locked false (code_of c) = true ∧ to_do (code_of c) = call_ops c.
Proof using Type.
  destruct c; try done; [apply Add_codes_ok..|apply Remove_codes_ok].
Qed.

Lemma program_ok cs : well_locked false (program cs) = true ∧ to_do (program cs) = ops_of cs.
Proof using Type.
  unfold program, ops_of. induction cs as [|c cs [IH1 IH2]]; [done|].
  destruct (code_ok c) as [H1 H2]. simpl. rewrite to_do_app, H2, IH2. split; [|done].
  by apply well_locked_app.
Qed.

Lemma list_inv_init progs : inv progs (init progs).
Proof using Type.
  assert (∀ i g, procs (init progs) !! i = Some g →
    ∃ cs, progs !! i = Some cs ∧ g = {| code := program cs; iter_ := None |}) as Hp.
  { intros i c. simpl. rewrite list_lookup_fmap. intros (cs & ? & ?)%fmap_Some. naive_solver. }
  assert (∀ cs, inside {| code := program cs; iter_ := None |} = false) as Hout.
  { intros cs. by apply well_locked_inside, program_ok. }
  split; [| |done| |by intros i a ?%elem_of_nil].
  - apply cnt_zero. intros i c (cs & _ & ->)%Hp. apply Hout.
  - intros i c (cs & _ & ->)%Hp. split; [rewrite Hout; apply program_ok|done].
  - intros i cs Hi. eexists. simpl. rewrite list_lookup_fmap, Hi. split; [done|].
    apply program_ok.
Qed.

Lemma done_by_app i s s' l :
  done s' = done s ++ l →
  done_by i s' = done_by i s ++ omap (λ '(j, op), if decide (j = i) then Some op else None) l.
Proof using Type. intros Hd. unfold done_by. by rewrite Hd, omap_app. Qed.

Lemma cnt_inside_touch f l : cnt inside (touch f <$> l) = cnt inside l.
Proof using Type. induction l as [|g l IH]; [done|]. rewrite fmap_cons. simpl. by rewrite IH. Qed.

(** What a step does: it completes the operations [new] that its code had to
    do, applies them to the list, shows them to the iterations under way, and
    moves the mutex with the goroutine. *)
Lemma inv_moves progs s s' i g g' new f :
  inv progs s → procs s !! i = Some g → procs s' = <[i := g']> (touch f <$> procs s) →
  Z.b2z (mu s') - Z.b2z (mu s) = Z.b2z (inside g') - Z.b2z (inside g) →
  proc_ok (map snd (done s')) g' →
  done s' = done s ++ map (i,.) new → to_do (code g) = new ++ to_do (code g') →
  list_ s' = foldl run_op (list_ s) new →
  (∀ it, iter_ok (map snd (done s)) it → iter_ok (map snd (done s) ++ new) (f it)) →
  (answers s' = answers s ∨ ∃ a, answers s' = answers s ++ [(i, a)] ∧ answer_ok (map snd (done s)) a) →
  inv progs s'.
Proof using Type.
  intros [Hmu Hproc Hlist Horder Hans] Hi Hp Hm Hg' Hdone Hto Hl Hf Ha.
  assert (map snd (done s') = map snd (done s) ++ new) as Hops.
  { rewrite Hdone, map_app, map_map. by rewrite map_id. }
  split.
  - rewrite Hp, (cnt_insert _ _ _ (touch f g)), cnt_inside_touch; [|by rewrite list_lookup_fmap, Hi].
    change (inside (touch f g)) with (inside g). lia.
  - intros j gj. rewrite Hp. intros [(<- & <- & _)|(Hne & Hj)]%list_lookup_insert_Some; [done|].
    rewrite list_lookup_fmap in Hj. apply fmap_Some in Hj as (gj0 & Hj & ->).
    destruct (Hproc j gj0 Hj) as [Hw Hit]. split; [exact Hw|]. simpl. intros it' Hit'.
    apply fmap_Some in Hit' as (it & Hit' & ->). destruct (Hit it Hit') as [Hok Hrest].
    split; [|done]. rewrite Hops. auto.
  - by rewrite Hl, Hlist, Hops, foldl_app.
  - intros j cs Hj. destruct (Horder j cs Hj) as (gj & Hgj & Hcs).
    rewrite Hp, (done_by_app _ _ _ _ Hdone). destruct (decide (i = j)) as [<-|Hne].
    + exists g'. rewrite Hi in Hgj. injection Hgj as <-. rewrite <-Hcs, Hto.
      rewrite list_lookup_insert_eq by (rewrite length_fmap; by eapply lookup_lt_Some). split; [done|].
      rewrite <-app_assoc. f_equal. f_equal. clear.
      induction new as [|op new IH]; [done|]. simpl. rewrite decide_True by done. simpl. by f_equal.
    + exists (touch f gj). rewrite list_lookup_insert_ne, list_lookup_fmap, Hgj by done.
      split; [done|]. simpl. rewrite <-Hcs. f_equal.
      rewrite <-(app_nil_r (done_by j s)) at 2. f_equal. clear -Hne.
      induction new as [|op new IH]; [done|]. simpl. by rewrite decide_False.
  - rewrite Hops. intros j a Hin. destruct Ha as [Heq|(b & Heq & Hb)]; rewrite Heq in Hin;
      [by apply answer_ok_app, (Hans j)|apply elem_of_app in Hin as [Hin|Hin]].
    + by apply answer_ok_app, (Hans j).
    + apply list_elem_of_singleton in Hin as [= -> ->]. by apply answer_ok_app.
Qed.

(** The step of a goroutine that goes on to its next instruction. *)
Definition after_instr (x : instr) : bool :=
  match x with ILock | ITest _ | IInsert _ | IDelete _ => true | _ => false end.

Lemma well_locked_next ops x c it :
  proc_ok ops {| code := x :: c; iter_ := it |} →
  well_locked (after_instr x) c = true ∧ inside {| code := c; iter_ := None |} = after_instr x.
Proof using Type.
  intros [Hw _]. assert (well_locked (after_instr x) c = true) as Hb
    by (destruct x; simpl in Hw; auto).
  split; [done|]. by apply well_locked_inside.
Qed.

Lemma proc_ok_plain ops b c :
  well_locked b c = true → proc_ok ops {| code := c; iter_ := None |}.
Proof using Type. intros Hw. split; [|done]. by rewrite (well_locked_inside b). Qed.

Lemma touch_id (l : list goroutine) : touch (λ it, it) <$> l = l.
Proof using Type.
  rewrite <-(list_fmap_id l) at 2. apply list_fmap_ext. intros i [c [it|]] _; done.
Qed.

(** A step that changes no map: at most the mutex and the answers. *)
Lemma inv_quiet progs s s' i g g' :
  inv progs s → procs s !! i = Some g → procs s' = <[i := g']> (procs s) →
  Z.b2z (mu s') - Z.b2z (mu s) = Z.b2z (inside g') - Z.b2z (inside g) →
  proc_ok (map snd (done s)) g' → done s' = done s → to_do (code g) = to_do (code g') →
  list_ s' = list_ s →
  (answers s' = answers s ∨ ∃ a, answers s' = answers s ++ [(i, a)] ∧ answer_ok (map snd (done s)) a) →
  inv progs s'.
Proof using Type.
  intros Hinv Hi Hp Hm Hg Hd Ht Hl Ha.
  apply (inv_moves progs s s' i g g' [] (λ it, it) Hinv Hi); rewrite ?touch_id; simpl; try done.
  - by rewrite Hd.
  - by rewrite app_nil_r.
  - intros it. by rewrite app_nil_r.
Qed.

(** A step that completes one operation. *)
Lemma inv_completes progs s i x rest it0 op f :
  inv progs s → procs s !! i = Some {| code := x :: rest; iter_ := it0 |} →
  after_instr x = inside {| code := x :: rest; iter_ := it0 |} →
  to_do (x :: rest) = op :: to_do rest →
  (∀ it, iter_ok (map snd (done s)) it → iter_ok (map snd (done s) ++ [op]) (f it)) →
  inv progs (goto i rest (complete i op (data (run_op (list_ s) op)) f s)).
Proof using Type.
  intros Hinv Hi Hx Hto Hf.
  destruct (well_locked_next _ _ _ _ (inv_proc _ _ Hinv _ _ Hi)) as [Hw Hin].
  eapply (inv_moves progs s _ i _ {| code := rest; iter_ := None |} [op] f Hinv Hi); simpl; try done.
  - rewrite Hin, Hx. lia.
  - by eapply proc_ok_plain.
  - by destruct (run_op (list_ s) op).
  - by left.
Qed.

Lemma goto_inv progs s s1 i x rest it0 :
  inv progs s → procs s !! i = Some {| code := x :: rest; iter_ := it0 |} →
  procs s1 = procs s → done s1 = done s → list_ s1 = list_ s → to_do (x :: rest) = to_do rest →
  Z.b2z (mu s1) - Z.b2z (mu s)
    = Z.b2z (after_instr x) - Z.b2z (inside {| code := x :: rest; iter_ := it0 |}) →
  (answers s1 = answers s ∨ ∃ a, answers s1 = answers s ++ [(i, a)] ∧ answer_ok (map snd (done s)) a) →
  inv progs (goto i rest s1).
Proof using Type.
  intros Hinv Hi Hp Hd Hl Ht Hm Ha.
  destruct (well_locked_next _ _ _ _ (inv_proc _ _ Hinv _ _ Hi)) as [Hw Hin].
  eapply (inv_quiet progs s _ i _ {| code := rest; iter_ := None |} Hinv Hi); simpl; try done.
  - by rewrite Hp.
  - by rewrite Hin.
  - by eapply proc_ok_plain.
Qed.

Lemma alter_insert_goroutine i it (l : list goroutine) g :
  l !! i = Some g →
  alter (λ g, {| code := code g; iter_ := Some it |}) i l
  = <[i := {| code := code g; iter_ := Some it |}]> l.
Proof using Type.
  revert i. induction l as [|x l IH]; intros [|i] Hi; simplify_eq/=; [done|]. f_equal. by apply IH.
Qed.

(** The iteration of a [Slice] moves on. *)
Lemma set_iter_inv progs s i rest it0 it :
  inv progs s → procs s !! i = Some {| code := ISlice :: rest; iter_ := it0 |} →
  iter_ok (map snd (done s)) it → inv progs (set_iter i it s).
Proof using Type.
  intros Hinv Hi Hok.
  assert (alter (λ g, {| code := code g; iter_ := Some it |}) i (procs s)
          = <[i := {| code := ISlice :: rest; iter_ := Some it |}]> (procs s))
    as Hp by (by rewrite (alter_insert_goroutine i it (procs s) _ Hi)).
  eapply (inv_quiet progs s (set_iter i it s) i _ _ Hinv Hi Hp); simpl; try done; [lia| |by left].
  destruct (inv_proc _ _ Hinv _ _ Hi) as [Hw _]. split; [exact Hw|].
  intros it' [= <-]. eauto.
Qed.

Lemma Go_inv progs i s s' : inv progs s → exec (Go i) s = Some s' → inv progs s'.
Proof using MapRangeLaws0.
  intros Hinv He. unfold exec in He. destruct (aborted s); [done|].
  apply bind_Some in He as ([c it0] & Hi & He).
  pose proof (inv_list _ _ Hinv) as Hl. pose proof (inv_proc _ _ Hinv _ _ Hi) as Hok.
  destruct c as [|x rest]; [done|]. simpl in He.
  destruct x as [|k|k|k| | |].
  - destruct (mu s) eqn:Hmu; [done|]. injection He as <-.
    eapply goto_inv; try done; [simpl; rewrite Hmu; done|by left].
  - destruct (data (list_ s) !! k) as [[]|] eqn:Hk; injection He as <-.
    + replace (data (list_ s)) with (data (run_op (list_ s) (OpAdd k)))
        by (simpl; unfold Add; by rewrite Hk).
      eapply inv_completes; try done. intros it. apply (iter_ok_same _ _ Hl). by rewrite Hk.
    + destruct (well_locked_next _ _ _ _ Hok) as [Hw _].
      eapply (inv_quiet progs s _ i _ {| code := IInsert k :: rest; iter_ := None |} Hinv Hi);
        simpl; try done; [lia|by left].
  - injection He as <-.
    replace (<[k:=()]> (data (list_ s))) with (data (run_op (list_ s) (OpAdd k))) by apply Add_data.
    eapply inv_completes; try done. intros it. case_decide as Hk.
    + by apply (iter_ok_same _ _ Hl).
    + by apply (iter_ok_created _ _ Hl).
  - injection He as <-. eapply (inv_completes progs s i _ rest _ (OpRemove k)); try done.
    intros it. apply (iter_ok_removed _ _ Hl).
  - injection He as <-. eapply goto_inv; try done; [|by left]. simpl.
    pose proof (inv_mu _ _ Hinv) as Hm. pose proof (cnt_ge_1 inside _ _ _ Hi eq_refl).
    destruct (mu s); simpl in *; lia.
  - injection He as <-. eapply goto_inv; try done; [simpl; lia|right].
    eexists. split; [done|]. exists (length (map snd (done s))). split; [done|].
    by rewrite after_all, <-Hl.
  - destruct it0 as [it|].
    + case_decide as Hm; [|done]. injection He as <-.
      destruct Hok as [_ Hit]. destruct (Hit it eq_refl) as [Hit' _].
      eapply goto_inv; try done; [simpl; lia|right]. eexists. split; [done|].
      rewrite <-(length_map snd (done s)). by apply (iter_ok_end _ _ Hl).
    + injection He as <-. eapply set_iter_inv; [done..|].
      rewrite <-(length_map snd (done s)). by apply iter_ok_start.
Qed.

Lemma list_inv_step progs e s s' : inv progs s → exec e s = Some s' → inv progs s'.
Proof using MapRangeLaws0.
  intros Hinv He. destruct e as [i|i k|i]; [by eapply Go_inv|..];
    unfold exec in He; destruct (aborted s); try done;
    apply bind_Some in He as ([c it0] & Hi & He); simpl in He.
  - destruct it0 as [it|]; [|done]. simpl in He. apply bind_Some in He as (it' & Hn & [= <-]).
    destruct (inv_proc _ _ Hinv _ _ Hi) as [_ Hit]. destruct (Hit it eq_refl) as [Hok [rest Hc]].
    simpl in Hc. subst c. eapply set_iter_inv; [done..|]. by eapply iter_ok_next.
  - case_match; [|done]. injection He as <-. by destruct Hinv.
Qed.

Lemma list_run_inv progs sched s s' : inv progs s → run sched s = Some s' → inv progs s'.
Proof using MapRangeLaws0.
  revert s. induction sched as [|e sched IH]; intros s Hinv; simpl.
  - by intros [= <-].
  - intros (s1 & H1 & Hrun)%bind_Some. eapply IH; [by eapply list_inv_step|done].
Qed.
Lemma list_reachable progs sched s : run sched (init progs) = Some s → inv progs s.
Proof using MapRangeLaws0. apply list_run_inv, list_inv_init. Qed.

(** ** Termination *)

Definition slices (c : list instr) : nat :=
  sum_list_with (λ x, match x with ISlice => 1%nat | _ => 0%nat end) c.

(** An insertion gives every iteration, now and later, one key more to
    produce: there are at most [B]. *)
Definition instr_left (B : nat) (x : instr) : nat :=
  match x with ITest _ => 2 + B | IInsert _ => 1 + B | ISlice => 0 | _ => 1 end.
Definition proc_left (B sz : nat) (g : goroutine) : nat :=
  sum_list_with (instr_left B) (code g)
  + match iter_ g with
    | None => slices (code g) * (sz + 2)
    | Some it => S (size (must it) + size (may it)) + pred (slices (code g)) * (sz + 2)
    end.
Definition left (B : nat) (s : state) : nat :=
  (if aborted s then 0 else 1) + sum_list_with (proc_left B (size (data (list_ s)))) (procs s).
Definition readers (s : state) : nat := sum_list_with (λ g, S (slices (code g))) (procs s).

Lemma sum_touch (F G : goroutine → nat) f l :
  (∀ g, F (touch f g) ≤ G g)%nat → (sum_list_with F (touch f <$> l) ≤ sum_list_with G l)%nat.
Proof using Type.
  intros HF. induction l as [|g l IH]; [done|]. rewrite fmap_cons. simpl. specialize (HF g). lia.
Qed.

(** A step of goroutine [i] spends something when its own share falls by more
    than the others' rise, which is [gain] per reader. *)
Lemma sum_moves B sz sz' gain l i g g' f :
  l !! i = Some g →
  (∀ g, proc_left B sz' (touch f g) ≤ proc_left B sz g + gain * S (slices (code g)))%nat →
  (gain * sum_list_with (λ g, S (slices (code g))) l + proc_left B sz' g'
     < proc_left B sz' (touch f g))%nat →
  (sum_list_with (proc_left B sz') (<[i := g']> (touch f <$> l)) < sum_list_with (proc_left B sz) l)%nat.
Proof using Type.
  intros Hi Hall Hg'.
  pose proof (sum_list_with_insert (proc_left B sz') (touch f <$> l) i (touch f g) g') as Hins.
  rewrite list_lookup_fmap, Hi in Hins. specialize (Hins eq_refl).
  pose proof (sum_touch (proc_left B sz') (λ g, proc_left B sz g + gain * S (slices (code g)))%nat f l Hall) as Hs.
  assert (sum_list_with (λ g, proc_left B sz g + gain * S (slices (code g)))%nat l
          = sum_list_with (proc_left B sz) l + gain * sum_list_with (λ g, S (slices (code g))) l)%nat as Hsum.
  { clear. induction l as [|g l IH]; simpl; [lia|]. rewrite IH. lia. }
  lia.
Qed.

Lemma touch_id_goroutine g : touch (λ it, it) g = g.
Proof using Type. by destruct g as [c [it|]]. Qed.

Lemma proc_left_mono B sz sz' g :
  (sz' ≤ sz)%nat → (proc_left B sz' g ≤ proc_left B sz g)%nat.
Proof using Type. intros Hsz. unfold proc_left. case_match; nia. Qed.

Lemma size_without (X : gset K) k : (size (X ∖ {[k]}) ≤ size X)%nat.
Proof using MapRangeLaws0. apply subseteq_size. set_solver. Qed.

Lemma size_without_elem (X : gset K) k : k ∈ X → (size (X ∖ {[k]}) < size X)%nat.
Proof using MapRangeLaws0. intros Hk. apply subset_size. set_solver. Qed.

Lemma proc_left_removed B sz sz' k g :
  (sz' ≤ sz)%nat → (proc_left B sz' (touch (removed k) g) ≤ proc_left B sz g)%nat.
Proof using MapRangeLaws0.
  intros Hsz. unfold proc_left. destruct g as [c [it|]]; simpl; [|nia].
  pose proof (size_without (must it) k). pose proof (size_without (may it) k). nia.
Qed.

Lemma proc_left_created B sz k g :
  (proc_left B (S sz) (touch (created k) g) ≤ proc_left B sz g + 1 * S (slices (code g)))%nat.
Proof using MapRangeLaws0.
  unfold proc_left. destruct g as [c [it|]]; simpl; [|nia].
  assert (size ({[k]} ∪ may it) ≤ S (size (may it)))%nat.
  { pose proof (size_union_alt {[k]} (may it)) as Hs. rewrite size_singleton in Hs.
    pose proof (subseteq_size (may it ∖ {[k]}) (may it) ltac:(set_solver)). lia. }
  nia.
Qed.

(** The code that is left after an instruction costs what the instruction does
    not. *)
Lemma proc_left_rest B sz x rest it :
  (is_Some it → x = ISlice) →
  (proc_left B sz {| code := rest; iter_ := None |} + instr_left B x
   ≤ proc_left B sz {| code := x :: rest; iter_ := it |})%nat
  ∧ (x = ISlice → (proc_left B sz {| code := rest; iter_ := None |}
                   < proc_left B sz {| code := x :: rest; iter_ := it |})%nat).
Proof using Type.
  intros Hit. unfold proc_left, slices. simpl. destruct it as [it|].
  - rewrite Hit by eauto. simpl. lia.
  - split; [destruct x; simpl; lia|intros ->; simpl; lia].
Qed.

(** Steps that leave the map alone. *)
Lemma sum_moves_quiet B sz l i g g' :
  l !! i = Some g → (proc_left B sz g' < proc_left B sz g)%nat →
  (sum_list_with (proc_left B sz) (<[i := g']> l) < sum_list_with (proc_left B sz) l)%nat.
Proof using Type.
  intros Hi Hlt. pose proof (sum_list_with_insert (proc_left B sz) l i g g' Hi). lia.
Qed.

Lemma Go_left progs B i s s' :
  inv progs s → (readers s ≤ B)%nat → exec (Go i) s = Some s' → (left B s' < left B s)%nat.
Proof using MapRangeLaws0.
  intros Hinv HB He. unfold exec in He. destruct (aborted s) eqn:Hab; [done|].
  apply bind_Some in He as ([c it0] & Hi & He). simpl in He.
  destruct c as [|x rest]; [done|].
  assert (is_Some it0 → x = ISlice) as Hit.
  { intros [it ->]. destruct (inv_proc _ _ Hinv _ _ Hi) as [_ Hit].
    destruct (Hit it eq_refl) as [_ [? [= -> _]]]. done. }
  pose proof (λ sz, proj1 (proc_left_rest B sz x rest it0 Hit)) as Hrest.
  pose proof (λ sz, proj2 (proc_left_rest B sz x rest it0 Hit)) as Hslice.
  set (sz := size (data (list_ s))) in *.
  assert (∀ s1, procs s1 = procs s → data (list_ s1) = data (list_ s) → aborted s1 = false →
    x = ISlice ∨ (0 < instr_left B x)%nat → (left B (goto i rest s1) < left B s)%nat) as Hgoto.
  { intros s1 Hp1 Hd1 Ha1 Hx. unfold left. simpl. rewrite Hp1, Hd1, Ha1, Hab. fold sz.
    apply -> Nat.add_lt_mono_l. eapply sum_moves_quiet; [exact Hi|]. specialize (Hrest sz).
    destruct Hx as [Hx|Hx]; [by apply Hslice|lia]. }
  assert (∀ op m f gain, complete i op m f s = complete i op m f s →
    (∀ g, proc_left B (size m) (touch f g) ≤ proc_left B sz g + gain * S (slices (code g)))%nat →
    it0 = None → (gain * B < instr_left B x)%nat →
    (left B (goto i rest (complete i op m f s)) < left B s)%nat) as Hcomplete.
  { intros op m f gain _ Hall -> Hx. unfold left. simpl. rewrite Hab. fold sz.
    apply -> Nat.add_lt_mono_l. eapply (sum_moves B sz _ gain); [exact Hi|exact Hall|].
    specialize (Hrest (size m)).
    pose proof (Nat.mul_le_mono_l _ _ gain HB) as Hg. unfold readers in Hg.
    change (touch f _) with {| code := x :: rest; iter_ := None |}. lia. }
  assert (it0 = None ∨ x = ISlice) as Hit0 by (destruct it0; [right|left]; eauto).
  destruct x as [|k|k|k| | |]; simpl in *;
    [destruct Hit0 as [Hit0|?]; [|done]..|clear Hit0].
  - destruct (mu s); [done|]. injection He as <-. apply Hgoto; simpl; auto.
  - destruct (data (list_ s) !! k); injection He as <-.
    + apply (Hcomplete _ _ _ 0%nat); try done; [|simpl; lia].
      intros g. rewrite touch_id_goroutine. unfold sz. lia.
    + unfold left. simpl. rewrite Hab. fold sz. apply -> Nat.add_lt_mono_l.
      eapply sum_moves_quiet; [exact Hi|]. subst it0. unfold proc_left, slices. simpl. lia.
  - injection He as <-. case_decide as Hk.
    + apply (Hcomplete _ _ _ 0%nat); try done; [|simpl; lia]. intros g. rewrite touch_id_goroutine.
      rewrite Nat.mul_0_l, Nat.add_0_r. apply proc_left_mono. destruct Hk as [[] Hk]. by rewrite insert_id.
    + apply (Hcomplete _ _ _ 1%nat); try done; [|simpl; lia]. intros g.
      rewrite map_size_insert_None by by apply eq_None_not_Some. apply proc_left_created.
  - injection He as <-. apply (Hcomplete _ _ _ 0%nat); try done; [|simpl; lia]. intros g.
    rewrite Nat.mul_0_l, Nat.add_0_r. apply proc_left_removed.
    unfold sz. rewrite map_size_delete. destruct (data (list_ s) !! k); unfold id; lia.
  - injection He as <-. apply Hgoto; simpl; auto.
  - injection He as <-. apply Hgoto; simpl; auto.
  - destruct it0 as [it|].
    + case_decide; [|done]. injection He as <-. apply Hgoto; simpl; auto.
    + injection He as <-. unfold left. simpl. rewrite Hab. fold sz. apply -> Nat.add_lt_mono_l.
      rewrite (alter_insert_goroutine _ _ _ _ Hi). eapply sum_moves_quiet; [exact Hi|].
      unfold proc_left, slices, range_start. cbn [code iter_ must may sum_list_with instr_left].
      rewrite size_dom, size_empty. fold sz. lia.
Qed.

Lemma exec_left progs B e s s' :
  inv progs s → (readers s ≤ B)%nat → exec e s = Some s' → (left B s' < left B s)%nat.
Proof using MapRangeLaws0.
  intros Hinv HB He. destruct e as [i|i k|i]; [by eapply Go_left|..];
    unfold exec in He; destruct (aborted s) eqn:Hab; try done;
    apply bind_Some in He as ([c it0] & Hi & He); simpl in He; unfold left.
  - destruct it0 as [it|]; [|done]. simpl in He. apply bind_Some in He as (it' & Hn & [= <-]).
    simpl. rewrite Hab, (alter_insert_goroutine _ _ _ _ Hi). apply -> Nat.add_lt_mono_l.
    eapply sum_moves_quiet; [exact Hi|]. unfold range_next in Hn. case_decide as Hk; [|done].
    injection Hn as <-. unfold proc_left. simpl.
    pose proof (size_without (must it) k). pose proof (size_without (may it) k).
    apply elem_of_union in Hk as [Hk|Hk]; apply size_without_elem in Hk; lia.
  - case_match; [|done]. injection He as <-. simpl. rewrite Hab. lia.
Qed.

(** The readers do not multiply. *)
Lemma exec_readers e s s' : exec e s = Some s' → (readers s' ≤ readers s)%nat.
Proof using Type.
  set (F := λ g : goroutine, S (slices (code g))).
  assert (∀ i g c f l, l !! i = Some g → (slices c ≤ slices (code g))%nat →
    (sum_list_with F (<[i := {| code := c; iter_ := None |}]> (touch f <$> l)) ≤ sum_list_with F l)%nat)
    as Hgoto.
  { intros i g c f l Hi Hc. pose proof (sum_touch F F f l (λ g, Nat.le_refl _)).
    pose proof (sum_list_with_insert F (touch f <$> l) i (touch f g) {| code := c; iter_ := None |}) as Hins.
    rewrite list_lookup_fmap, Hi in Hins. specialize (Hins eq_refl). unfold F in Hins at 2 4. simpl in Hins. lia. }
  assert (∀ i it l, sum_list_with F (alter (λ g, {| code := code g; iter_ := Some it |}) i l)
                    = sum_list_with F l) as Halter.
  { intros i it l. revert i. induction l as [|g l IH]; intros [|i]; [done..|].
    exact (f_equal (λ n, F g + n)%nat (IH i)). }
  assert (∀ i g c l, l !! i = Some g → (slices c ≤ slices (code g))%nat →
    (sum_list_with F (<[i := {| code := c; iter_ := None |}]> l) ≤ sum_list_with F l)%nat) as Hgoto'.
  { intros i g c l Hi Hc. rewrite <-(touch_id l) at 1. by eapply Hgoto. }
  intros He. unfold exec in He. destruct (aborted s); [done|].
  destruct e as [i|i k|i]; apply bind_Some in He as ([c it0] & Hi & He); simpl in He; unfold readers; fold F.
  - destruct c as [|[] rest]; repeat case_match; simplify_eq; simpl;
      try (eapply Hgoto; [exact Hi|]); try (eapply Hgoto'; [exact Hi|]); rewrite ?Halter;
      unfold slices; simpl; lia.
  - apply bind_Some in He as (it & _ & He). apply bind_Some in He as (it' & _ & [= <-]).
    simpl. by rewrite Halter.
  - case_match; [|done]. by injection He as <-.
Qed.

Lemma run_left progs B sched s s' :
  inv progs s → (readers s ≤ B)%nat → run sched s = Some s' →
  (length sched + left B s' ≤ left B s)%nat.
Proof using MapRangeLaws0.
  revert s. induction sched as [|e sched IH]; intros s Hinv HB; simpl.
  - intros [= <-]. lia.
  - intros (s1 & H1 & Hrun)%bind_Some.
    pose proof (exec_left _ _ _ _ _ Hinv HB H1). pose proof (exec_readers _ _ _ H1).
    pose proof (IH s1 (list_inv_step _ _ _ _ Hinv H1) ltac:(lia) Hrun). lia.
Qed.

(** The holder of the mutex can go on; if there is none, anybody can. *)
Lemma list_progress progs s :
  inv progs s → aborted s = true ∨ Forall (λ g, code g = []) (procs s) ∨ ∃ e s', exec e s = Some s'.
Proof using Type.
  intros Hinv. destruct (aborted s) eqn:Hab; [by left|right].
  destruct (decide (Exists (λ g, code g ≠ []) (procs s))) as [Hex|Hno].
  2:{ left. apply not_Exists_Forall in Hno; [|apply _]. eapply Forall_impl; [exact Hno|].
      intros g Hc. by apply dec_stable. }
  right. apply Exists_exists in Hex as (g & [i Hi]%list_elem_of_lookup & Hc).
  destruct (mu s) eqn:Hmu.
  - destruct (cnt_pos_inv inside (procs s)) as (j & d & Hj & Hd).
    { rewrite (inv_mu _ _ Hinv), Hmu. done. }
    exists (Go j). unfold exec. rewrite Hab, Hj. unfold inside in Hd.
    destruct (code d) as [|[] c] eqn:Hcd; try done; cbn; rewrite Hcd; eauto.
  - destruct (code g) as [|x c] eqn:Hcg; [done|]. destruct g as [c0 it0]; simpl in Hcg; subst c0.
    assert (x = ISlice ∨ x ≠ ISlice) as [->|Hx] by (destruct x; (by left) || by right).
    + destruct it0 as [it|]; [|exists (Go i); unfold exec; rewrite Hab, Hi; cbn; eauto].
      destruct (decide (must it = ∅)) as [Hm|Hm].
      * exists (Go i). unfold exec. rewrite Hab, Hi. cbn. rewrite decide_True by done. eauto.
      * apply set_choose_L in Hm as [k Hk]. exists (Yield i k). unfold exec. rewrite Hab, Hi. cbn.
        unfold range_next. rewrite decide_True by (by apply elem_of_union_l). cbn. eauto.
    + exists (Go i). unfold exec. rewrite Hab, Hi. cbn. destruct x; try done; rewrite ?Hmu; eauto.
Qed.

(** ** Properties *)




(** every call returns.  The goroutines take boundedly many steps, and unless
    the runtime ended the program one of them can go on until all programs have
    ended. *)
Theorem List_terminates progs sched s :
  run sched (init progs) = Some s →
  (length sched ≤ left (readers (init progs)) (init progs))%nat
  ∧ (aborted s = true ∨ Forall (λ g, code g = []) (procs s) ∨ ∃ e s', exec e s = Some s').
Proof using MapRangeLaws0.
  intros Hrun. pose proof (run_left progs (readers (init progs)) _ _ _ (list_inv_init _) (le_n _) Hrun).
  split; [lia|]. by eapply list_progress, list_reachable.
Qed.

(** races.  The accesses of [Add] and [Remove] never race with each other: one
    side of a data race is always a [Len] or a [Slice]. *)
Theorem List_races progs sched s x y :
  run sched (init progs) = Some s → race s x y → y = ILen ∨ y = ISlice.
Proof using MapRangeLaws0.
  intros Hinv%list_reachable (i & j & gi & gj & ci & cj & Hij & Hi & Hj & Hgi & Hgj & Hc).
  unfold conflict in Hc. apply andb_prop in Hc as [Hx Hy].
  assert (inside gj = false) as Hout.
  { destruct (inside gj) eqn:Hyin; [exfalso|done].
    assert (2 ≤ cnt inside (procs s)) as H2.
    { apply (cnt_ge_2 inside _ _ _ _ _ Hi Hj); [|done..]. unfold inside. rewrite Hgi. by destruct x. }
    rewrite (inv_mu _ _ Hinv) in H2. destruct (mu s); simpl in H2; lia. }
  unfold inside in Hout. rewrite Hgj in Hout. destruct y; try done; auto.
Qed.
End List_.

(** ** Concrete runs *)

(** Two goroutines add, one of them from a map; a third removes and reads,
    while the first adds once more. *)
Definition toy_progs : list (list (call (K := Z))) :=
  [[CAddSlice [3; 1]]; [CAddMapKeys {[ 2 := () ]}]; [CRemove 3; CSlice]].
Definition toy_sched : list (event (K := Z)) :=
  [Go 0; Go 0; Go 0; Go 0; Go 1; Go 1; Go 1; Go 1; Go 2; Go 2; Go 2; Go 0; Go 2;
   Yield 2 2%Z; Go 0; Go 0; Go 0; Yield 2 1%Z; Go 2]%nat.
Definition toy_end : state := default (init toy_progs) (run toy_sched (init toy_progs)).
Lemma toy_runs : run toy_sched (init toy_progs) = Some toy_end.
Proof. vm_compute. reflexivity. Qed.


Lemma List_terminates_witness :
  (length toy_sched ≤ left (readers (init toy_progs)) (init toy_progs))%nat.
Proof. apply (proj1 (List_terminates toy_progs toy_sched toy_end toy_runs)). Defined.

(** [Slice] does race with [Add]: goroutine 0 is about to insert while
    goroutine 1 iterates, and the runtime may end the program. *)
Example Slice_races :
  ∃ s, run [Go 0; Go 0; Go 1]%nat (init (K := Z) [[CAdd 1]; [CSlice]]) = Some s
       ∧ race s (IInsert 1) ISlice ∧ is_Some (exec (Abort 1%nat) s).
Proof.
  eexists. split; [vm_compute; reflexivity|]. split.
  - eexists 0%nat, 1%nat, _, _, [IUnlock], []. split_and!; try reflexivity. discriminate.
  - vm_compute. by eexists.
Qed.

(** A [Slice] can answer what the list never was: 1 is removed after it was
    reached, and 2 is added before the end. *)
Example Slice_mixes :
  ∃ s, run ([Go 0; Go 0; Go 0; Go 0; Go 1; Yield 1 1%Z; Go 0; Go 0; Go 0; Go 0; Go 0; Go 0; Go 0;
             Yield 1 2%Z; Go 1]%nat)
         (init (K := Z) [[CAdd 1; CRemove 1; CAdd 2]; [CSlice]]) = Some s
       ∧ answers s = [(1%nat, RSlice [1; 2] 1 3)]
       ∧ forallb (λ n, negb (bool_decide (Slice (after n (map snd (done s))) = [1; 2]))) (seq 0 4) = true.
Proof. eexists. split; [vm_compute; reflexivity|]. split; vm_compute; reflexivity. Qed.
