(* ===== verification/Sha256.v ===== *)
(** * [crypto/sha256] and [encoding/hex], as the migrater uses them

    SHA-256 (FIPS 180-4) over 32-bit words held in [Z], and the lower-case
    hexadecimal encoding of its digest. *)
From Stdlib Require Import Ascii String.
From S2P Require Export Prelude.
Local Open Scope Z_scope.

Definition w32 (x : Z) : Z := Z.land x 4294967295.
Definition rotr (n x : Z) : Z := w32 (Z.lor (Z.shiftr x n) (Z.shiftl x (32 - n))).

(** The constants, from their definition: the leading fractional bits of the
    cube roots of the first 64 primes and of the square roots of the first 8. *)
Definition is_prime (n : nat) : bool :=
  forallb (λ d, negb (Z.of_nat n mod Z.of_nat d =? 0)) (seq 2 (n - 2)).
Definition primes : list Z := map Z.of_nat (List.filter is_prime (seq 2 310)).

(** The integer cube root, bit by bit from bit [n - 1] down. *)
Fixpoint cbrt_from (n : nat) (acc x : Z) : Z :=
  match n with
  | O => acc
  | S n =>
      let acc' := acc + 2 ^ Z.of_nat n in
      cbrt_from n (if acc' * acc' * acc' <=? x then acc' else acc) x
  end.

Definition K256 : list Z :=
  Eval vm_compute in map (λ p, w32 (cbrt_from 36 0 (p * 2 ^ 96))) primes.
Definition H0_256 : list Z :=
  Eval vm_compute in map (λ p, w32 (Z.sqrt (p * 2 ^ 64))) (take 8 primes).

(** Big-endian integers. *)
Definition bytes_of (n : nat) (x : Z) : list Z :=
  map (λ i, Z.land (Z.shiftr x (8 * (Z.of_nat n - 1 - Z.of_nat i))) 255) (seq 0 n).
Fixpoint words_of (l : list Z) : list Z :=
  match l with
  | a :: b :: c :: d :: l =>
      Z.lor (Z.shiftl a 24) (Z.lor (Z.shiftl b 16) (Z.lor (Z.shiftl c 8) d)) :: words_of l
  | _ => []
  end.

(** A one bit, zeros up to 56 modulo 64 bytes, and the length in bits. *)
Definition pad (msg : list Z) : list Z :=
  let len := Z.of_nat (length msg) in
  msg ++ [128] ++ replicate (Z.to_nat ((55 - len) mod 64)) 0 ++ bytes_of 8 (8 * len).

(** The message schedule, newest word first: [n] words are still to come. *)
Fixpoint schedule (n : nat) (w : list Z) : list Z :=
  match n with
  | O => w
  | S n =>
      let w2 := nth 1 w 0 in let w7 := nth 6 w 0 in
      let w15 := nth 14 w 0 in let w16 := nth 15 w 0 in
      let s0 := Z.lxor (rotr 7 w15) (Z.lxor (rotr 18 w15) (Z.shiftr w15 3)) in
      let s1 := Z.lxor (rotr 17 w2) (Z.lxor (rotr 19 w2) (Z.shiftr w2 10)) in
      schedule n (w32 (w16 + s0 + w7 + s1) :: w)
  end.

Definition round (h : list Z) (kw : Z * Z) : list Z :=
  match h with
  | [a; b; c; d; e; f; g; h] =>
      let S1 := Z.lxor (rotr 6 e) (Z.lxor (rotr 11 e) (rotr 25 e)) in
      let ch := Z.lxor (Z.land e f) (Z.land (Z.lxor e 4294967295) g) in
      let t1 := h + S1 + ch + kw.1 + kw.2 in
      let S0 := Z.lxor (rotr 2 a) (Z.lxor (rotr 13 a) (rotr 22 a)) in
      let maj := Z.lxor (Z.land a b) (Z.lxor (Z.land a c) (Z.land b c)) in
      [w32 (t1 + S0 + maj); a; b; c; w32 (d + t1); e; f; g]
  | _ => h
  end.

Definition compress (h block : list Z) : list Z :=
  let ws := reverse (schedule 48 (reverse block)) in
  zip_with (λ x y, w32 (x + y)) h (foldl round h (zip K256 ws)).

(** Blocks of sixteen words; a message of [n] words has at most [n] blocks. *)
Fixpoint blocks (n : nat) (h ws : list Z) : list Z :=
  match n, ws with
  | S n, _ :: _ => blocks n (compress h (take 16 ws)) (drop 16 ws)
  | _, _ => h
  end.

Definition Sum256 (msg : gostring) : list Z :=
  let ws := words_of (pad (map code msg)) in
  concat (map (bytes_of 4) (blocks (length ws) H0_256 ws)).

Definition hex_digit (x : Z) : ascii :=
  default zero (str "0123456789abcdef" !! Z.to_nat x).
Definition hex_EncodeToString (bytes : list Z) : gostring :=
  concat (map (λ b, [hex_digit (Z.shiftr b 4); hex_digit (Z.land b 15)]) bytes).

Example sha256_abc :
  hex_EncodeToString (Sum256 (str "abc"))
  = str "ba7816bf8f01cfea414140de5dae2223b00361a396177a9cb410ff61f20015ad".
Proof. vm_compute. reflexivity. Qed.
Example sha256_empty :
  hex_EncodeToString (Sum256 [])
  = str "e3b0c44298fc1c149afbf4c8996fb92427ae41e4649b934ca495991b7852b855".
Proof. vm_compute. reflexivity. Qed.
Example sha256_two_blocks :
  hex_EncodeToString (Sum256 (str "abcdbcdecdefdefgefghfghighijhijkijkljklmklmnlmnomnopnopq"))
  = str "248d6a61d20638b8e5c026930c3e6039a33ce45964ff2167f6ecedd419db06c1".
Proof. vm_compute. reflexivity. Qed.
