(* ===== verification/Strings.v ===== *)
(** * kit: strings, builders, versions and small utilities

    strings.go, stringsbuilder.go, version.go, utils.go and the Matrix errors
    of errors.go.  [strconv.Unquote], [debug.ReadBuildInfo] and [json.Unmarshal]
    are arguments. *)
From Stdlib Require Import Ascii String.
From S2P Require Import Sha256.
From S2P Require Export Prelude GoStrings Errors.
Local Open Scope Z_scope.

(** ** strings.go *)

(** The loop of [Truncate]; every turn consumes a byte, so [length s] turns are
    enough. *)
Fixpoint truncate_loop (fuel : nat) (s : gostring) (count len : Z) : gostring :=
  match fuel, s with
  | S fuel, _ :: _ =>
      if len <=? count then [] else
      let '(r, width) := decode_rune s in
      encode_rune r ++ truncate_loop fuel (drop width s) (count + 1) len
  | _, _ => []
  end.

Definition Truncate (s : gostring) (len : Z) : gostring :=
  if (len <=? 0) || bool_decide (s = []) then [] else
  if Z.of_nat (RuneCountInString s) <=? len then s else
  let truncated := truncate_loop (length s) s 0 len in
  if negb (bool_decide (truncated = s)) then truncated ++ str "..." else truncated.

Definition Unquote (strconv_Unquote : gostring → option gostring) (s : gostring) : gostring :=
  match strconv_Unquote s with Some unquoted => unquoted | None => s end.

Definition Hash (s : gostring) : gostring := hex_EncodeToString (Sum256 s).

Definition StringToInt (value : gostring) (optionalDefaultValue : list Z) : Z :=
  let defaultValue := default 0 (head optionalDefaultValue) in
  let value := TrimSpace value in
  if decide (value = []) then defaultValue else
  match Atoi value with Ok vInt => vInt | _ => defaultValue end.

Definition StringToSlice (value : gostring) (optionalDefaultValue : list gostring) : list gostring :=
  let defaultValue := default [] (head optionalDefaultValue) in
  let value := TrimSpace value in
  if decide (value = []) then [defaultValue] else
  if negb (Contains value (str ",")) then [value] else
  map TrimSpace (Split1 value ",").

Definition SliceToString (slice : list gostring) (delimiter : gostring)
    (hook : option (gostring → gostring)) : gostring :=
  if decide (slice = []) then [] else
  Join (map (λ item, match hook with Some f => f item | None => item end) slice) delimiter.

(** ** stringsbuilder.go

    A [strings.Builder] records the address it was first written at, and
    panics when it is written at another one ([copyCheck]).  Every operation is
    given the address [self] of its receiver; the capacity is what the
    allocator chooses. *)
Record StringsBuilder := { b_addr : option nat; b_buf : gostring; b_cap : Z }.

Section builder.
(** The capacity of a new buffer for at least that many bytes. *)
Variable alloc : Z → Z.
Variable self : nat.
Abbreviation R := (result error).

Definition NewStringsBuilder : StringsBuilder := {| b_addr := None; b_buf := []; b_cap := 0 |}.

Definition copyCheck (sb : StringsBuilder) : R StringsBuilder :=
  match b_addr sb with
  | None => Ok {| b_addr := Some self; b_buf := b_buf sb; b_cap := b_cap sb |}
  | Some a =>
      if decide (a = self) then Ok sb
      else Panic "strings: illegal use of non-zero Builder copied by value"
  end.
Definition builder_append (p : gostring) (sb : StringsBuilder) : R StringsBuilder :=
  sb ← copyCheck sb;
  let bytes := b_buf sb ++ p in
  let n := Z.of_nat (length bytes) in
  Ok {| b_addr := b_addr sb; b_buf := bytes;
        b_cap := if n <=? b_cap sb then b_cap sb else alloc n |}.

Definition sb_WriteString (s : gostring) (sb : StringsBuilder) : R (Z * StringsBuilder) :=
  pair (Z.of_nat (length s)) <$> builder_append s sb.
Definition sb_Write (p : gostring) (sb : StringsBuilder) : R (Z * StringsBuilder) :=
  pair (Z.of_nat (length p)) <$> builder_append p sb.
Definition sb_WriteRune (r : Z) (sb : StringsBuilder) : R (Z * StringsBuilder) :=
  pair (Z.of_nat (length (encode_rune r))) <$> builder_append (encode_rune r) sb.
Definition sb_S (s : gostring) (sb : StringsBuilder) : R StringsBuilder := snd <$> sb_WriteString s sb.
Definition sb_B (b : ascii) (sb : StringsBuilder) : R StringsBuilder := builder_append [b] sb.
Definition sb_R (r : Z) (sb : StringsBuilder) : R StringsBuilder := snd <$> sb_WriteRune r sb.
Definition sb_String (sb : StringsBuilder) : gostring := b_buf sb.
Definition sb_Len (sb : StringsBuilder) : Z := Z.of_nat (length (b_buf sb)).
Definition sb_Cap (sb : StringsBuilder) : Z := b_cap sb.
Definition sb_Grow (n : Z) (sb : StringsBuilder) : R StringsBuilder :=
  sb ← copyCheck sb;
  if n <? 0 then Panic "strings.Builder.Grow: negative count" else
  if b_cap sb - sb_Len sb <? n
  then Ok {| b_addr := b_addr sb; b_buf := b_buf sb; b_cap := alloc (2 * b_cap sb + n) |}
  else Ok sb.
Definition sb_Reset (sb : StringsBuilder) : StringsBuilder := NewStringsBuilder.
End builder.
(** The copy lives at an address of its own, but keeps the recorded one. *)
Definition sb_Unwrap (sb : StringsBuilder) : StringsBuilder := sb.

(** ** version.go *)

(** [debug.Module] and [debug.BuildInfo], the fields the code reads. *)
Record Module_ := { mod_Path : gostring; mod_Version : gostring }.
Record Dep := { dep_Module : Module_; dep_Replace : option Module_ }.
Record BuildInfo := {
  Main : Module_;
  Deps : list Dep;
  Settings : list (gostring * gostring);
}.

Definition cleanVersion (v : gostring) : gostring := if decide (v = str "(devel)") then [] else v.

(** The loop over the settings: the last of each key counts. *)
Definition vcs_step (acc : gostring * gostring) (s : gostring * gostring) : gostring * gostring :=
  let '(rev, dirty) := acc in
  if decide (s.1 = str "vcs.revision") then (take 7 s.2, dirty)
  else if decide (s.1 = str "vcs.modified") then
    if decide (s.2 = str "true") then (rev, str "-dirty") else (rev, dirty)
  else (rev, dirty).
Definition vcsVersion (info : BuildInfo) : gostring :=
  let '(rev, dirty) := foldl vcs_step ([], []) (Settings info) in
  if decide (rev = []) then [] else rev ++ dirty.

Definition mainVersion (info : BuildInfo) : gostring :=
  let v := cleanVersion (mod_Version (Main info)) in
  if decide (v = []) then vcsVersion info else v.

Fixpoint dep_loop (deps : list Dep) (module : gostring) : gostring :=
  match deps with
  | [] => []
  | dep :: deps =>
      if decide (mod_Path (dep_Module dep) = module)
      then cleanVersion (mod_Version (default (dep_Module dep) (dep_Replace dep)))
      else dep_loop deps module
  end.
Definition depVersion (info : BuildInfo) (module : gostring) : gostring := dep_loop (Deps info) module.

(** [ReadBuildInfo] is what [debug.ReadBuildInfo] returns. *)
Definition Version (ReadBuildInfo : option BuildInfo) (module fallback : gostring)
    (override : list gostring) : gostring :=
  match override with
  | (_ :: _) as o :: _ => o
  | _ =>
      match ReadBuildInfo with
      | None => fallback
      | Some info =>
          let v := if decide (module = [] ∨ mod_Path (Main info) = module)
                   then mainVersion info else depVersion info module in
          if decide (v = []) then fallback else v
      end
  end.

Definition UserAgent (ReadBuildInfo : option BuildInfo) (product module : gostring)
    (override : list gostring) : gostring :=
  product ++ str "/" ++ Version ReadBuildInfo module (str "v0.0.0") override.

(** ** utils.go *)

(** [subtle.ConstantTimeEq] on int32, [ConstantTimeByteEq], [ConstantTimeCompare]. *)
Definition ConstantTimeEq (x y : Z) : Z :=
  Z.shiftr (((Z.lxor x y) `mod` 2 ^ 32 - 1) `mod` 2 ^ 64) 63.
Definition ConstantTimeByteEq (x y : Z) : Z :=
  Z.shiftr ((Z.lxor x y - 1) `mod` 2 ^ 32) 31.
Definition ConstantTimeCompare (x y : list Z) : Z :=
  if decide (length x ≠ length y) then 0 else
  ConstantTimeByteEq (foldl (λ v '(a, b), Z.lor v (Z.lxor a b)) 0 (zip x y)) 0.

Definition Eq (s1 s2 : gostring) : bool :=
  let b1 := map code s1 in
  let b2 := map code s2 in
  (ConstantTimeEq (wrap32 (Z.of_nat (length b1))) (wrap32 (Z.of_nat (length b2))) =? 1)
  && (ConstantTimeCompare b1 b2 =? 1).

(** A value as [reflect] sees it: a pointer to a cell of the store, another
    kind that can be nil, or one that cannot.  An interface inside a pointer is
    of the last sort: its kind is none that the code lists. *)
Inductive rvalue :=
  | RPointer (target : option nat)
  | RNilable (is_nil : bool)          (* chan, func, map, slice, unsafe.Pointer *)
  | RPlain.

(** [None] is a loop that has not ended within [fuel] turns. *)
Fixpoint follow (store : list rvalue) (fuel : nat) (rv : rvalue) : option bool :=
  match rv with
  | RPointer None => Some true
  | RPointer (Some a) =>
      match fuel with
      | O => None
      | S fuel => follow store fuel (nth a store RPlain)
      end
  | RNilable b => Some b
  | RPlain => Some false
  end.
Definition IsNil (store : list rvalue) (fuel : nat) (i : option rvalue) : option bool :=
  match i with None => Some true | Some rv => follow store fuel rv end.

(** ** errors.go: Matrix errors *)

Definition maxMatrixErrorBody : Z := Z.shiftl 64 10.
Record MatrixError := { me_Code : gostring; me_Err : gostring }.
Definition MatrixError_Error (e : MatrixError) : gostring := me_Err e.
Definition NewMatrixError (code err : gostring) : MatrixError := {| me_Code := code; me_Err := err |}.

(** [Unmarshal] into a nil [*MatrixError] (the JSON null leaves it nil);
    [Sprintf] writes the message.  The body is what the reader delivers before
    its end or its first error, which is ignored. *)
Definition MatrixErrorFrom (Unmarshal : gostring → error + option MatrixError)
    (Sprintf : gostring → error → gostring) (r : option gostring) : option MatrixError :=
  match r with
  | None => None
  | Some body =>
      let data := take (Z.to_nat maxMatrixErrorBody) body in
      match Unmarshal data with
      | inl err => Some (NewMatrixError (str "M_UNKNOWN") (Sprintf data err))
      | inr matrixErr => matrixErr
      end
  end.

(** ** Segments of ASCII-separated text *)

Lemma decode_rune_app_ascii s c t :
  s ≠ [] → code c < 128 → decode_rune (s ++ c :: t) = decode_rune s.
Proof.
  intros Hs Hc. assert (cont (code c) = false) as Hcont.
  { unfold cont. apply andb_false_iff. left. lia. }
  destruct s as [|b0 [|b1 [|b2 [|b3 s]]]]; [done|..]; unfold decode_rune; cbn [app map];
    rewrite ?Hcont, ?andb_false_r; repeat (case_match; simplify_eq/=; try done);
    rewrite ?andb_false_iff, ?andb_true_iff in *; unfold cont in *; try done;
    try (rewrite ?andb_false_iff, ?andb_true_iff in *; lia).
Qed.

Lemma segs_app_ascii s c t :
  code c < 128 → segs (s ++ c :: t) = segs s ++ segs (c :: t).
Proof.
  intros Hc. remember (length s) as n eqn:Hn. revert s Hn.
  induction (lt_wf n) as [n _ IH]. intros s ->.
  destruct (decide (s = [])) as [->|Hs]; [done|].
  pose proof (decode_rune_width s Hs) as Hw.
  destruct (decode_rune s) as [r w] eqn:Hd. simpl in Hw.
  rewrite (segs_cons s r w Hs Hd).
  rewrite (segs_cons (s ++ c :: t) r w); [|by destruct s|by rewrite decode_rune_app_ascii].
  rewrite take_app_le, drop_app_le by lia. cbn [app]. f_equal.
  apply (IH (length (drop w s))); [rewrite length_drop; lia|done].
Qed.

Lemma segs_ascii c t : code c < 128 → segs (c :: t) = (code c, [c]) :: segs t.
Proof.
  intros Hc. rewrite (segs_cons _ (code c) 1); [done|done|].
  unfold decode_rune. cbn [map]. by rewrite (proj2 (Z.ltb_lt _ _) Hc).
Qed.

(** ** [Truncate] *)

(** The first [n] runes, as they are written back: an invalid byte becomes the
    replacement character. *)
Definition first_runes (n : nat) (s : gostring) : gostring :=
  concat (map (λ '(r, _), encode_rune r) (take n (segs s))).
Definition valid_utf8 (s : gostring) : Prop := Forall (λ '(r, b), b = encode_rune r) (segs s).

Lemma truncate_loop_spec fuel s count len :
  (length s ≤ fuel)%nat →
  truncate_loop fuel s count len = first_runes (Z.to_nat (len - count)) s.
Proof.
  revert s count. induction fuel as [|fuel IH]; intros [|c s] count Hf; try (simpl in Hf; lia).
  - unfold first_runes, segs. simpl. by destruct (Z.to_nat _).
  - unfold first_runes, segs. simpl. by destruct (Z.to_nat _).
  - cbn [truncate_loop]. destruct (len <=? count) eqn:E.
    { replace (Z.to_nat (len - count)) with 0%nat by lia. done. }
    pose proof (decode_rune_width (c :: s) ltac:(done)) as Hw.
    destruct (decode_rune (c :: s)) as [r w] eqn:Hd. simpl in Hw.
    rewrite IH by (rewrite length_drop; simpl in *; lia). unfold first_runes.
    rewrite (segs_cons (c :: s) r w) by done.
    replace (Z.to_nat (len - count)) with (S (Z.to_nat (len - (count + 1)))) by lia. done.
Qed.

Lemma segs_encoded l t :
  segs (concat (map encode_rune l) ++ t)
  = map (λ r, (written_rune r, encode_rune r)) l ++ segs t.
Proof.
  induction l as [|r l IH]; [done|]. simpl. by rewrite <-app_assoc, segs_encode, IH.
Qed.

Lemma first_runes_count n s : RuneCountInString (first_runes n s) = Nat.min n (RuneCountInString s).
Proof.
  unfold RuneCountInString, first_runes.
  replace (map (λ '(r, _), encode_rune r) (take n (segs s)))
    with (map encode_rune (map fst (take n (segs s)))).
  2:{ rewrite map_map. apply map_ext. by intros []. }
  pose proof (segs_encoded (map fst (take n (segs s))) []) as Hs. rewrite !app_nil_r in Hs.
  rewrite Hs, !length_map, length_take. done.
Qed.

Lemma first_runes_prefix n s : valid_utf8 s → first_runes n s `prefix_of` s.
Proof.
  intros Hv. rewrite <-(unsegs_segs s) at 2. unfold first_runes, unsegs.
  rewrite <-(take_drop n (segs s)) at 2. rewrite List.map_app, concat_app.
  replace (map (λ '(r, _), encode_rune r) (take n (segs s))) with (map snd (take n (segs s))).
  { apply prefix_app_r. done. }
  apply map_ext_Forall. apply (Forall_take _ n) in Hv. eapply Forall_impl; [exact Hv|].
  by intros [r b] ->.
Qed.

(** ** Trimmed, comma-separated text *)

(** Not empty, and no space at either end. *)
Definition trimmed (s : gostring) : Prop :=
  ∃ x y, head (segs s) = Some x ∧ last (segs s) = Some y
         ∧ is_space x.1 = false ∧ is_space y.1 = false.

Lemma drop_spaces_head l x : head l = Some x → is_space x.1 = false → drop_spaces l = l.
Proof. destruct l as [|[r b] l]; [done|]. intros [= <-]. simpl. by intros ->. Qed.

Lemma TrimSpace_trimmed s : trimmed s → TrimSpace s = s.
Proof.
  intros (x & y & Hx & Hy & Hsx & Hsy). unfold TrimSpace. rewrite (drop_spaces_head _ _ Hx Hsx).
  rewrite (drop_spaces_head _ y); [|by rewrite head_reverse|done].
  by rewrite reverse_involutive, unsegs_segs.
Qed.

Lemma trimmed_nonempty s : trimmed s → s ≠ [].
Proof. by intros (x & y & Hx & _) ->. Qed.

Lemma trimmed_comma s t : trimmed s → trimmed t → trimmed (s ++ ","%char :: t).
Proof.
  intros (x & y & Hx & Hy & Hsx & Hsy) (x' & y' & Hx' & Hy' & Hsx' & Hsy').
  exists x, y'. rewrite segs_app_ascii, segs_ascii by done. split_and?; try done.
  - destruct (segs s); [done|exact Hx].
  - rewrite last_app, last_cons, Hy'. done.
Qed.

Lemma Join_trimmed l : l ≠ [] → Forall trimmed l → trimmed (Join l (str ",")).
Proof.
  intros Hl Ht. induction Ht as [|x l Hx Hl' IH]; [done|].
  destruct l as [|y l]; [done|]. cbn [Join]. apply trimmed_comma; [done|]. by apply IH.
Qed.

Lemma Split1_app_sep s c t :
  Forall (λ x, x ≠ c) s → Split1 (s ++ c :: t) c = s :: Split1 t c.
Proof.
  induction 1 as [|x s Hx _ IH]; simpl; [by rewrite decide_True|].
  by rewrite decide_False, IH.
Qed.

Lemma Split1_no_sep s c : Forall (λ x, x ≠ c) s → Split1 s c = [s].
Proof.
  induction 1 as [|x s Hx _ IH]; simpl; [done|]. by rewrite decide_False, IH.
Qed.

Lemma Split1_Join l c :
  l ≠ [] → Forall (Forall (λ x, x ≠ c)) l → Split1 (Join l [c]) c = l.
Proof.
  intros Hl Hc. induction Hc as [|x l Hx Hc IH]; [done|].
  destruct l as [|y l]; [by apply Split1_no_sep|].
  cbn [Join app]. rewrite Split1_app_sep by done. f_equal. by apply IH.
Qed.

Lemma Contains_char_app s c t : Contains (s ++ c :: t) [c] = true.
Proof.
  unfold Contains. induction s as [|x s IH].
  - cbn [app Cut]. unfold HasPrefix. simpl. by rewrite bool_decide_eq_true_2.
  - cbn [app Cut]. destruct (HasPrefix (x :: s ++ c :: t) [c]); [done|].
    destruct (Cut (s ++ c :: t) [c]) as [b [a|]]; done.
Qed.

Lemma Contains_char_no s c : Forall (λ x, x ≠ c) s → Contains s [c] = false.
Proof.
  unfold Contains. induction 1 as [|x s Hx _ IH]; [done|]. cbn [Cut].
  assert (HasPrefix (x :: s) [c] = false) as ->.
  { apply bool_decide_eq_false_2. simpl. destruct s; simpl; congruence. }
  destruct (Cut s [c]) as [b [a|]]; done.
Qed.

(** ** Constant-time comparison *)

Lemma lor_byte a b : 0 ≤ a < 256 → 0 ≤ b < 256 → 0 ≤ Z.lor a b < 256.
Proof.
  intros Ha Hb. split; [apply Z.lor_nonneg; lia|].
  destruct (decide (Z.lor a b = 0)) as [->|Hn]; [done|].
  assert (0 ≤ Z.lor a b) by (apply Z.lor_nonneg; lia).
  change 256 with (2 ^ 8). apply Z.log2_lt_pow2; [lia|]. rewrite Z.log2_lor by lia.
  apply Z.max_lub_lt; (destruct (decide (a = 0)) as [->|]; destruct (decide (b = 0)) as [->|]);
    try done; apply Z.log2_lt_pow2; lia.
Qed.

Lemma lxor_byte a b : 0 ≤ a < 256 → 0 ≤ b < 256 → 0 ≤ Z.lxor a b < 256.
Proof.
  intros Ha Hb. split; [apply Z.lxor_nonneg; lia|].
  assert (0 ≤ Z.lxor a b) by (apply Z.lxor_nonneg; lia).
  destruct (decide (Z.lxor a b = 0)) as [->|Hn]; [done|].
  change 256 with (2 ^ 8). apply Z.log2_lt_pow2; [lia|].
  eapply Z.le_lt_trans; [apply Z.log2_lxor; lia|].
  apply Z.max_lub_lt; (destruct (decide (a = 0)) as [->|]; destruct (decide (b = 0)) as [->|]);
    try done; apply Z.log2_lt_pow2; lia.
Qed.

Definition differing (v : Z) (l : list (Z * Z)) : Z :=
  foldl (λ v '(a, b), Z.lor v (Z.lxor a b)) v l.

(** The accumulated difference is a byte, and 0 only when nothing differed. *)
Lemma differing_spec l : Forall (λ '(a, b), 0 ≤ a < 256 ∧ 0 ≤ b < 256) l → ∀ v, 0 ≤ v < 256 →
  0 ≤ differing v l < 256
  ∧ (differing v l = 0 ↔ v = 0 ∧ Forall (λ '(a, b), a = b) l).
Proof.
  induction 1 as [|[a b] l [Ha Hb] _ IH]; intros v Hv; unfold differing; cbn [foldl].
  { split; [done|]. split; [by split|by intros []]. }
  destruct (IH (Z.lor v (Z.lxor a b))) as [Hr He]; [by apply lor_byte, lxor_byte|].
  split; [done|]. unfold differing in He. rewrite He, Z.lor_eq_0_iff, Z.lxor_eq_0_iff, Forall_cons.
  tauto.
Qed.

Lemma ConstantTimeByteEq_0 v : 0 ≤ v < 256 → ConstantTimeByteEq v 0 = 1 ↔ v = 0.
Proof.
  intros Hv. unfold ConstantTimeByteEq. rewrite Z.lxor_0_r, Z.shiftr_div_pow2 by lia.
  split; [|by intros ->]. intros H. destruct (decide (v = 0)) as [|Hn]; [done|].
  rewrite Z.mod_small in H by lia. rewrite Z.div_small in H by lia. done.
Qed.

Lemma Forall_code s : Forall (λ z, 0 ≤ z < 256) (map code s).
Proof. apply List.Forall_map, Forall_forall. intros c _. apply code_range. Qed.

Lemma zip_diag l1 l2 :
  length l1 = length l2 → Forall (λ '(a, b), a = b) (zip l1 l2) ↔ (l1 : list Z) = l2.
Proof.
  revert l2. induction l1 as [|a l1 IH]; intros [|b l2] Hl; simpl in *; simplify_eq; [done|].
  rewrite Forall_cons, IH by done. split; [intros [-> ->]; done|by intros [= -> ->]].
Qed.

Lemma ConstantTimeCompare_spec x y :
  Forall (λ z, 0 ≤ z < 256) x → Forall (λ z, 0 ≤ z < 256) y → ConstantTimeCompare x y = 1 ↔ x = y.
Proof.
  intros Hx Hy. unfold ConstantTimeCompare. case_decide as Hl.
  { split; [done|]. by intros ->. }
  assert (length x = length y) as Hl' by lia.
  destruct (differing_spec (zip x y)) with (v := 0) as [Hr He]; [|lia|].
  { clear Hl. revert y Hy Hl'. induction Hx as [|a x Ha _ IH]; intros [|b y] Hy Hl'; simpl in *; try done.
    apply Forall_cons in Hy as [Hb Hy]. constructor; [done|]. apply IH; [done|lia]. }
  unfold differing in *. rewrite ConstantTimeByteEq_0, He, zip_diag by done. tauto.
Qed.

Lemma ConstantTimeEq_refl x : ConstantTimeEq x x = 1.
Proof. unfold ConstantTimeEq. by rewrite Z.lxor_nilpotent. Qed.

(** ** Writing into a builder *)

Inductive sb_op :=
  | OpS (s : gostring) | OpB (b : ascii) | OpR (r : Z)
  | OpGrow (n : Z) | OpReset.

Section builder_run.
Context (alloc : Z → Z) (self : nat).

(** One chained call, and a chain of them: [sb.S(..).B(..)...]. *)
Definition sb_exec (sb : StringsBuilder) (op : sb_op) : result error StringsBuilder :=
  match op with
  | OpS s => sb_S alloc self s sb
  | OpB b => sb_B alloc self b sb
  | OpR r => sb_R alloc self r sb
  | OpGrow n => sb_Grow alloc self n sb
  | OpReset => Ok (sb_Reset sb)
  end.
Fixpoint sb_chain (ops : list sb_op) (sb : StringsBuilder) : result error StringsBuilder :=
  match ops with [] => Ok sb | op :: ops => sb ← sb_exec sb op; sb_chain ops sb end.

(** The text a call leaves, and whether the buffer was written since the last
    reset. *)
Definition op_text (st : gostring * bool) (op : sb_op) : gostring * bool :=
  match op with
  | OpS s => (st.1 ++ s, true)
  | OpB b => (st.1 ++ [b], true)
  | OpR r => (st.1 ++ encode_rune r, true)
  | OpGrow n => (st.1, true)
  | OpReset => ([], false)
  end.
Definition op_ok (op : sb_op) : Prop := match op with OpGrow n => 0 ≤ n | _ => True end.

(** The builder shows that text, and belongs to [self] once it was written. *)
Definition shows (st : gostring * bool) (sb : StringsBuilder) : Prop :=
  b_buf sb = st.1 ∧ b_addr sb = if st.2 then Some self else None.

Lemma copyCheck_own st sb :
  shows st sb → copyCheck self sb = Ok {| b_addr := Some self; b_buf := b_buf sb; b_cap := b_cap sb |}.
Proof using Type.
  intros [_ Ha]. unfold copyCheck. rewrite Ha. destruct sb, st as [t []]; simpl in *; simplify_eq; [|done].
  by rewrite decide_True.
Qed.

Lemma sb_exec_shows st sb op :
  shows st sb → op_ok op → ∃ sb', sb_exec sb op = Ok sb' ∧ shows (op_text st op) sb'.
Proof using Type.
  intros Hs Hop. pose proof (copyCheck_own st sb Hs) as Hc. destruct Hs as [Ht Ha].
  destruct op as [s|b|r|n|]; simpl in *;
    unfold sb_S, sb_WriteString, sb_B, sb_R, sb_WriteRune, sb_Grow, builder_append; rewrite ?Hc; simpl;
    rewrite ?(proj2 (Z.ltb_ge _ _) Hop);
    repeat case_match; eexists; (split; [reflexivity|]); split; simpl; congruence.
Qed.

Lemma sb_chain_shows ops st sb :
  shows st sb → Forall op_ok ops →
  ∃ sb', sb_chain ops sb = Ok sb' ∧ shows (foldl op_text st ops) sb'.
Proof using Type.
  intros Hs Hops. revert st sb Hs. induction Hops as [|op ops Hop _ IH]; intros st sb Hs; [by exists sb|].
  destruct (sb_exec_shows st sb op Hs Hop) as (sb1 & He & Hs1). simpl. rewrite He. by apply IH.
Qed.
End builder_run.

Lemma copyCheck_foreign self other sb :
  b_addr sb = Some self → other ≠ self →
  copyCheck other sb = Panic "strings: illegal use of non-zero Builder copied by value".
Proof. intros Ha Ho. unfold copyCheck. rewrite Ha. by rewrite decide_False. Qed.

(** ** Theorems *)

(** [Truncate] returns nothing for a non-positive length, the string itself
    when it has no more than that many runes, and otherwise exactly that many
    of its first runes followed by an ellipsis; on valid UTF-8 those runes are
    a prefix of the string, so no character is cut in half. *)
Theorem Truncate_spec s n :
  Truncate s n
    = (if n <=? 0 then []
       else if Z.of_nat (RuneCountInString s) <=? n then s
       else first_runes (Z.to_nat n) s ++ str "...")
  ∧ (n < Z.of_nat (RuneCountInString s) →
     RuneCountInString (first_runes (Z.to_nat n) s) = Z.to_nat n)
  ∧ (valid_utf8 s → first_runes (Z.to_nat n) s `prefix_of` s).
Proof.
  split_and?; [|intros H; rewrite first_runes_count; lia|apply first_runes_prefix].
  unfold Truncate. destruct (n <=? 0) eqn:E0; [done|]. simpl.
  case_bool_decide as Hs.
  { assert (RuneCountInString s = 0%nat) as -> by by rewrite Hs.
    destruct (Z.of_nat 0 <=? n) eqn:E1; [done|]. apply Z.leb_gt in E0, E1. simpl in E1. lia. }
  destruct (_ <=? n) eqn:E1; [done|]. rewrite truncate_loop_spec, Z.sub_0_r by done.
  rewrite bool_decide_eq_false_2; [done|]. intros He.
  pose proof (first_runes_count (Z.to_nat n) s) as Hc. rewrite He in Hc. lia.
Qed.

(** Splitting what was joined: any non-empty list of strings without commas and
    without spaces at their ends comes back from [SliceToString] with the
    delimiter "," through [StringToSlice], whatever the default. *)
Theorem StringToSlice_SliceToString l def :
  l ≠ [] → Forall trimmed l → Forall (Forall (λ x, x ≠ ","%char)) l →
  StringToSlice (SliceToString l (str ",") None) def = l.
Proof.
  intros Hl Ht Hc. unfold SliceToString. rewrite decide_False, map_id by done. unfold StringToSlice.
  pose proof (Join_trimmed l Hl Ht) as Htr. rewrite (TrimSpace_trimmed _ Htr).
  rewrite decide_False by by apply trimmed_nonempty.
  assert (map TrimSpace l = l) as Hm.
  { clear -Ht. induction Ht as [|x l Hx _ IH]; [done|]. simpl. by rewrite IH, TrimSpace_trimmed. }
  change (str ",") with [","%char]. destruct (Contains _ _) eqn:E; simpl.
  { by rewrite Split1_Join, Hm. }
  destruct l as [|x [|y l]]; [done|done|]. cbn [Join app] in E.
  by rewrite Contains_char_app in E.
Qed.
Lemma StringToSlice_SliceToString_witness :
  StringToSlice (SliceToString [str "a b"; str "c"] (str ",") None) [str "d"] = [str "a b"; str "c"].
Proof.
  apply StringToSlice_SliceToString; [done| |].
  - constructor; [|constructor; [|constructor]]; eexists _, _; (split_and?; reflexivity).
  - repeat constructor; discriminate.
Defined.

(** [Eq] is equality: the wrap-around of the lengths to 32 bits never makes two
    different strings equal, since [ConstantTimeCompare] looks at the lengths
    again. *)
Theorem Eq_spec s1 s2 : Eq s1 s2 = true ↔ s1 = s2.
Proof.
  unfold Eq. rewrite andb_true_iff, !Z.eqb_eq, ConstantTimeCompare_spec by apply Forall_code. split.
  - intros [_ H]. by apply (inj (map code)).
  - intros ->. split; [apply ConstantTimeEq_refl|done].
Qed.

(** A builder used at one address never panics and holds the concatenation of
    what the chain wrote since the last [Reset]; and once it was written to,
    any write to the copy that [Unwrap] returned panics. *)
Theorem builder_spec alloc self ops :
  Forall op_ok ops →
  let st := foldl op_text ([], false) ops in
  ∃ sb, sb_chain alloc self ops NewStringsBuilder = Ok sb
        ∧ sb_String sb = st.1 ∧ sb_Len sb = Z.of_nat (length st.1)
        ∧ (st.2 = true → ∀ other p, other ≠ self →
             ∃ m, sb_Write alloc other p (sb_Unwrap sb) = Panic m).
Proof.
  intros Hops st. destruct (sb_chain_shows alloc self ops ([], false) NewStringsBuilder) as (sb & He & Ht & Ha);
    [done|done|]. exists sb. unfold sb_String, sb_Len. rewrite He, Ht. split_and?; try done.
  intros Hw other p Ho. fold st in Ha. rewrite Hw in Ha.
  unfold sb_Write, builder_append, sb_Unwrap. rewrite (copyCheck_foreign self other sb Ha Ho). by eexists.
Qed.
Lemma builder_spec_witness :
  ∃ sb, sb_chain (λ n, n) 1 [OpS (str "ab"); OpReset; OpS (str "c"); OpB "d"%char] NewStringsBuilder = Ok sb
        ∧ sb_String sb = str "cd".
Proof.
  destruct (builder_spec (λ n, n) 1%nat [OpS (str "ab"); OpReset; OpS (str "c"); OpB "d"%char])
    as (sb & ? & ? & _); [by repeat constructor|]. by exists sb.
Defined.

(** The versions [Version] may report, in order of preference: of the main
    module, its stamped release and then the revision it was built from; of a
    dependency, only the release of the first entry with its path, after a
    [replace]. *)
Definition candidates (rb : option BuildInfo) (module : gostring) : list gostring :=
  match rb with
  | None => []
  | Some info =>
      if decide (module = [] ∨ mod_Path (Main info) = module)
      then [cleanVersion (mod_Version (Main info)); vcsVersion info]
      else match head (filter (λ d, mod_Path (dep_Module d) = module) (Deps info)) with
           | Some d => [cleanVersion (mod_Version (default (dep_Module d) (dep_Replace d)))]
           | None => []
           end
  end.
Definition first_nonempty (l : list gostring) (fallback : gostring) : gostring :=
  default fallback (head (filter (λ v, v ≠ []) l)).

Lemma depVersion_find info module :
  depVersion info module
  = match head (filter (λ d, mod_Path (dep_Module d) = module) (Deps info)) with
    | Some d => cleanVersion (mod_Version (default (dep_Module d) (dep_Replace d)))
    | None => []
    end.
Proof.
  unfold depVersion. induction (Deps info) as [|d l IH]; [done|]. simpl dep_loop.
  rewrite filter_cons. by repeat case_decide.
Qed.

Lemma first_nonempty_cons v l fallback :
  first_nonempty (v :: l) fallback = if decide (v = []) then first_nonempty l fallback else v.
Proof. unfold first_nonempty. rewrite filter_cons. by destruct v. Qed.

(** [Version] is the first non-empty string among the override, the candidates
    of the module and the fallback.  In particular a dependency never reports
    the revision of the host binary: the candidates of a dependency do not look
    at the build settings. *)
Theorem Version_spec rb module fallback override :
  Version rb module fallback override
  = first_nonempty (take 1 override ++ candidates rb module) fallback.
Proof.
  assert (Version rb module fallback [] = first_nonempty (candidates rb module) fallback) as Hv.
  { unfold Version, candidates. destruct rb as [info|]; [|done]. destruct (decide (module = [] ∨ _)) as [Hm|Hm].
    - rewrite !first_nonempty_cons. unfold mainVersion. repeat case_decide; try done; congruence.
    - rewrite depVersion_find. destruct (head _) as [d|]; [|done].
      rewrite first_nonempty_cons. by case_decide. }
  destruct override as [|[|c o] l]; [exact Hv| |done].
  simpl. rewrite first_nonempty_cons. exact Hv.
Qed.

(** [UserAgent] always names a version. *)
Lemma UserAgent_version rb product module override :
  ∃ v, v ≠ [] ∧ UserAgent rb product module override = product ++ str "/" ++ v.
Proof.
  eexists. split; [|reflexivity]. unfold Version.
  destruct override as [|[|c o] l]; try done; destruct rb; try done; case_decide; try done;
    case_decide; done.
Qed.

(** ** [IsNil] *)

(** What is at the bottom of a chain of pointers. *)
Inductive bottom (store : list rvalue) : rvalue → bool → Prop :=
  | bottom_nil : bottom store (RPointer None) true
  | bottom_nilable b : bottom store (RNilable b) b
  | bottom_plain : bottom store RPlain false
  | bottom_pointer a b : bottom store (nth a store RPlain) b → bottom store (RPointer (Some a)) b.

Definition points_below (store : list rvalue) (n : nat) (rv : rvalue) : Prop :=
  match rv with RPointer (Some a) => (a < n)%nat | _ => True end.

(** Where every cell points only to earlier ones (no cycle of pointers), the
    loop reaches the bottom and reports whether it is nil. *)
Lemma follow_bottom store n rv fuel :
  (∀ a, points_below store a (nth a store RPlain)) → points_below store n rv → (n ≤ fuel)%nat →
  ∃ b, bottom store rv b ∧ follow store fuel rv = Some b.
Proof.
  intros Hs. revert n rv. induction fuel as [|fuel IH]; intros n rv Hrv Hn;
    destruct rv as [[a|]|b|]; simpl in *; try (eexists; split; [constructor|done]); [lia|].
  destruct (IH a (nth a store RPlain)) as (b & Hb & Hf); [apply Hs|lia|].
  exists b. split; [by constructor|done].
Qed.

(** [IsNil] answers for every value without a cycle of pointers: nil exactly
    when a nil pointer or another nil value is at the bottom; but on a pointer
    that points to itself (an [any] holding a [type p *p]) it never returns. *)
Theorem IsNil_spec store n rv :
  (∀ a, points_below store a (nth a store RPlain)) → points_below store n rv →
  (∃ b, bottom store rv b ∧ ∀ fuel, (n ≤ fuel)%nat → IsNil store fuel (Some rv) = Some b)
  ∧ ∀ fuel, IsNil [RPointer (Some 0%nat)] fuel (Some (RPointer (Some 0%nat))) = None.
Proof.
  intros Hs Hrv. split.
  - destruct (follow_bottom store n rv n Hs Hrv) as (b & Hb & _); [lia|]. exists b. split; [done|].
    intros fuel Hf. destruct (follow_bottom store n rv fuel Hs Hrv Hf) as (b' & Hb' & Hr).
    simpl. rewrite Hr. f_equal. clear -Hb Hb'. revert b' Hb'.
    induction Hb; inversion 1; eauto.
  - simpl. induction fuel; done.
Qed.
Lemma IsNil_spec_witness :
  ∃ b, bottom [RPointer None; RPointer (Some 0%nat)] (RPointer (Some 1%nat)) b.
Proof.
  destruct (IsNil_spec [RPointer None; RPointer (Some 0%nat)] 2 (RPointer (Some 1%nat))) as [(b & H & _) _];
    [intros [|[|[|a]]]; simpl; lia || done|simpl; lia|by exists b].
Defined.

(** ** [MatrixErrorFrom] *)

(** Without a reader there is no error; with one there is, unless the body is
    a JSON null, which decodes into no error at all and without a complaint. *)
Lemma MatrixErrorFrom_None Unmarshal Sprintf r :
  MatrixErrorFrom Unmarshal Sprintf r = None ↔
  r = None ∨ ∃ body, r = Some body ∧ Unmarshal (take (Z.to_nat maxMatrixErrorBody) body) = inr None.
Proof.
  unfold MatrixErrorFrom. destruct r as [body|]; [|by split; [left|]].
  destruct (Unmarshal _) as [e|[e|]] eqn:E; split; try done; [..|by eauto]; intros [?|(b & [= <-] & ?)]; congruence.
Qed.
