(* ===== verification/Rendering.v ===== *)
(** * template and format: rendering text (template/template.go, format/markdown.go)

    [html/template] and Goldmark are arguments: a parser, what a parsed
    template writes with the error it stops at, and a converter. *)
From Stdlib Require Import Ascii String.
From S2P Require Export Prelude GoStrings.
Local Open Scope Z_scope.

(** ** template *)

Section template.
Context {error tpl vars_t : Type}.
(** [template.New("template").Parse] and [tpl.Execute] into a buffer. *)
Variable Parse : gostring → error + tpl.
Variable Template_Execute : tpl → vars_t → gostring * option error.

Definition Execute (tplString : gostring) (vars : vars_t) : gostring * option error :=
  match Parse tplString with
  | inl err => ([], Some err)
  | inr t =>
      let '(result, err) := Template_Execute t vars in
      match err with Some err => ([], Some err) | None => (result, None) end
  end.

Definition May (tplString : gostring) (vars : vars_t) : gostring :=
  let '(result, _) := Execute tplString vars in
  if decide (result = []) then tplString else result.

(** The panic carries the error. *)
Definition Must (tplString : gostring) (vars : vars_t) : error + gostring :=
  let '(result, err) := Execute tplString vars in
  match err with Some err => inl err | None => inr result end.

(** What a template renders to, when it is well formed and runs to its end. *)
Definition renders (tplString : gostring) (vars : vars_t) (out : gostring) : Prop :=
  ∃ t, Parse tplString = inr t ∧ Template_Execute t vars = (out, None).

Lemma Execute_renders tplString vars out :
  Execute tplString vars = (out, None) ↔ renders tplString vars out.
Proof using Type.
  unfold Execute, renders. destruct (Parse tplString) as [e|t].
  { split; [done|]. by intros (? & ? & _). }
  destruct (Template_Execute t vars) as [r [e|]] eqn:E.
  - split; [done|]. intros (t' & [= <-] & E'). congruence.
  - split; [intros [= <-]; by exists t|]. intros (t' & [= <-] & E'). congruence.
Qed.

(** The three entry points agree: [Must] returns what the template renders to,
    and panics exactly when [Execute] reports an error; output written before
    the error is never returned; [May] returns the rendered text where there is
    some and its own input otherwise, so it is empty only for an empty
    template. *)
Theorem template_spec tplString vars :
  (∀ out, Must tplString vars = inr out ↔ renders tplString vars out)
  ∧ (∀ e, Must tplString vars = inl e ↔ Execute tplString vars = ([], Some e))
  ∧ (∀ out, renders tplString vars out → out ≠ [] → May tplString vars = out)
  ∧ ((∀ out, renders tplString vars out → out = []) → May tplString vars = tplString)
  ∧ (May tplString vars = [] → tplString = []).
Proof using Type.
  assert (∀ out, Must tplString vars = inr out ↔ Execute tplString vars = (out, None)) as Hm.
  { intros out. unfold Must. destruct (Execute _ _) as [r [e|]]; split; congruence. }
  split_and?.
  - intros out. by rewrite Hm, Execute_renders.
  - intros e. unfold Must, Execute. destruct (Parse tplString); [split; congruence|].
    destruct (Template_Execute _ _) as [r [e'|]]; split; congruence.
  - intros out Hr%Execute_renders Hne. unfold May. by rewrite Hr, decide_False.
  - intros Hr. unfold May. destruct (Execute tplString vars) as [r [e|]] eqn:E.
    + assert (r = []) as ->; [|done]. unfold Execute in E.
      destruct (Parse tplString); [congruence|]. destruct (Template_Execute _ _) as [? []]; congruence.
    + apply Execute_renders, Hr in E as ->. done.
  - unfold May. destruct (Execute _ _) as [r e]. by case_decide.
Qed.
End template.

(** ** format *)

Definition pStart : gostring := str "<p>".
Definition pEnd : gostring := str "</p>".
Definition newline : ascii := "010"%char.

(** [strings.TrimRight(s, "\n")] *)
Fixpoint drop_newlines (l : gostring) : gostring :=
  match l with
  | c :: l' => if decide (c = newline) then drop_newlines l' else l
  | [] => []
  end.
Definition TrimRight_newlines (s : gostring) : gostring := reverse (drop_newlines (reverse s)).

(** [s[lo:hi]], which panics out of range. *)
Definition slice_string {E} (s : gostring) (lo hi : Z) : result E gostring :=
  if decide (0 ≤ lo ≤ hi ∧ hi ≤ Z.of_nat (length s))
  then Ok (take (Z.to_nat (hi - lo)) (drop (Z.to_nat lo) s))
  else Panic "slice bounds out of range".

Section format.
Context {error : Type}.
(** [Renderer.Convert] and the text of its error. *)
Variable Convert : gostring → gostring * option error.
Variable Error : error → gostring.

Definition Render (markdown : gostring) : result () gostring :=
  let '(buf, err) := Convert markdown in
  match err with
  | Some err => Ok (str "<p>Error rendering markdown: " ++ Error err ++ str "</p>")
  | None =>
      let htmlString := TrimRight_newlines buf in
      if HasPrefix htmlString pStart && HasSuffix htmlString pEnd then
        htmlNoP ← slice_string htmlString (Z.of_nat (length pStart))
                    (Z.of_nat (length htmlString) - Z.of_nat (length pEnd));
        if negb (Contains htmlNoP pStart) then Ok htmlNoP else Ok htmlString
      else Ok htmlString
  end.

(** A text that starts with [<p>] and ends with [</p>] has room for both: the
    two tags cannot overlap. *)
Lemma wrapped s :
  HasPrefix s pStart && HasSuffix s pEnd = true ↔ ∃ inner, s = pStart ++ inner ++ pEnd.
Proof using Type.
  unfold HasPrefix, HasSuffix. rewrite andb_true_iff, !bool_decide_eq_true. split.
  - intros (Hp & Hl & Hs). change (length pStart) with 3%nat in Hp. change (length pEnd) with 4%nat in *.
    destruct (decide (7 ≤ length s)%nat) as [H7|H7].
    + exists (take (length s - 7) (drop 3 s)). rewrite <-Hp at 1. rewrite <-Hs at 1.
      rewrite <-(take_drop 3 s) at 1. f_equal.
      rewrite <-(take_drop (length s - 7) (drop 3 s)) at 1. f_equal. rewrite drop_drop. f_equal. lia.
    + exfalso. clear -Hp Hs Hl H7. unfold pStart, pEnd in *. destruct s as [|c0 [|c1 [|c2 [|c3 [|c4 [|c5 [|c6 s]]]]]]];
        simpl in *; try lia; simplify_eq/=.
  - intros (inner & ->). split; [by rewrite take_app_length|].
    rewrite app_assoc. rewrite !length_app. split; [lia|].
    rewrite drop_app_ge; rewrite length_app; [|lia].
    replace (_ - _ - _)%nat with 0%nat by lia. done.
Qed.

Lemma slice_wrapped {E} inner :
  slice_string (E:=E) (pStart ++ inner ++ pEnd) (Z.of_nat (length pStart))
    (Z.of_nat (length (pStart ++ inner ++ pEnd)) - Z.of_nat (length pEnd)) = Ok inner.
Proof using Type.
  unfold slice_string. rewrite decide_True; rewrite !length_app; [|lia].
  rewrite Nat2Z.id, drop_app_length. f_equal.
  replace (Z.to_nat _) with (length inner) by lia. apply take_app_length.
Qed.

(** [Render] never slices out of range.  Of a single paragraph it returns the
    content; everything else, a text with a further [<p>] inside included, it
    returns as the converter wrote it, less the newlines at the end. *)
Theorem Render_spec markdown buf :
  Convert markdown = (buf, None) →
  let html := TrimRight_newlines buf in
  (∀ inner, html = pStart ++ inner ++ pEnd → Contains inner pStart = false →
            Render markdown = Ok inner)
  ∧ ((∀ inner, html = pStart ++ inner ++ pEnd → Contains inner pStart = true) →
     Render markdown = Ok html).
Proof using Type.
  intros Hc html. unfold Render. rewrite Hc. fold html. split.
  - intros inner Hi Hn. rewrite (proj2 (wrapped html)) by by exists inner.
    rewrite Hi, slice_wrapped. simpl. by rewrite Hn.
  - intros Hall. destruct (_ && _) eqn:E; [|done]. apply wrapped in E as [inner Hi].
    rewrite Hi, slice_wrapped. simpl. by rewrite (Hall inner Hi).
Qed.
End format.
Lemma Render_spec_witness :
  Render (λ m, (str "<p>" ++ m ++ str "</p>" ++ [newline], @None ())) (λ _, []) (str "hi") = Ok (str "hi").
Proof.
  apply (Render_spec (λ m, (str "<p>" ++ m ++ str "</p>" ++ [newline], @None ())) (λ _, []) (str "hi")
           (str "<p>hi</p>" ++ [newline])); reflexivity.
Defined.

(** ** format: links open in a new tab *)

(** [ast.WalkStatus] *)
Inductive WalkStatus := WalkStop | WalkSkipChildren | WalkContinue.

Section links.
(** Goldmark's syntax trees: nodes with attributes in a store, the kind of a
    node, [SetAttributeString], and [ast.Walk] with a callback that may move
    the store. *)
Context {node document store error : Type} `{EqDecision node}.
Variable is_Link : node → bool.
Variable SetAttributeString : node → gostring → gostring → store → store.
Variable Walk : document → (node → bool → store → (WalkStatus * option error) * store) →
  store → option error * store.

Definition link_visitor (n : node) (entering : bool) (st : store)
    : (WalkStatus * option error) * store :=
  if negb entering then ((WalkContinue, None), st)
  else if is_Link n then ((WalkContinue, None), SetAttributeString n (str "target") (str "_blank") st)
  else ((WalkContinue, None), st).

(** The error of the walk is dropped. *)
Definition Transform (doc : document) (st : store) : store := (Walk doc link_visitor st).2.

(** An attribute of a node. *)
Variable Attribute : node → gostring → store → option gostring.
Hypothesis Attribute_set : ∀ n name v st n' name',
  Attribute n' name' (SetAttributeString n name v st)
  = if decide (n' = n ∧ name' = name) then Some v else Attribute n' name' st.
(** The nodes of a tree; a callback that always goes on is called with each of
    them, once when it is entered and possibly when it is left. *)
Variable nodes : document → list node.
Hypothesis Walk_all : ∀ doc visit st,
  (∀ n entering st, (visit n entering st).1 = (WalkContinue, None)) →
  ∃ visits, (∀ n, (n, true) ∈ visits ↔ n ∈ nodes doc)
    ∧ Walk doc visit st = (None, foldl (λ st v, (visit v.1 v.2 st).2) st visits).

(** Every link of the document gets [target="_blank"], whatever its target
    was; no other attribute and no other node changes, and the walk reports no
    error to drop. *)
Theorem Transform_links doc st :
  (Walk doc link_visitor st).1 = None ∧
  ∀ n name, Attribute n name (Transform doc st)
    = if decide (n ∈ nodes doc ∧ is_Link n = true ∧ name = str "target")
      then Some (str "_blank") else Attribute n name st.
Proof using Type*.
  assert (∀ n entering st, (link_visitor n entering st).1 = (WalkContinue, None)) as Hgo.
  { intros n [] st'; unfold link_visitor; simpl; by destruct (is_Link n). }
  destruct (Walk_all doc link_visitor st Hgo) as (visits & Hv & Hw).
  unfold Transform. rewrite Hw. split; [done|]. intros n name. cbn [snd].
  assert (∀ vs st, Attribute n name (foldl (λ st v, (link_visitor v.1 v.2 st).2) st vs)
    = if decide ((n, true) ∈ vs ∧ is_Link n = true ∧ name = str "target")
      then Some (str "_blank") else Attribute n name st) as Hgen.
  { clear st visits Hv Hw. induction vs as [|[n' b] vs IH]; intros st; cbn [foldl].
    { rewrite decide_False; [done|]. by intros [?%elem_of_nil _]. }
    rewrite IH. destruct (decide ((n, true) ∈ vs ∧ _)) as [(Hin & Hl)|Hout].
    { rewrite decide_True; [done|]. split; [by right|done]. }
    unfold link_visitor. destruct b; cbn [negb fst snd]; [destruct (is_Link n') eqn:Hl'; cbn [snd]|].
    - rewrite Attribute_set. destruct (decide (n = n' ∧ name = str "target")) as [[-> ->]|Hsame].
      + rewrite decide_True; [done|]. split; [left|done].
      + rewrite decide_False; [done|]. intros ([[= ->]|?]%elem_of_cons & ? & ->); [by apply Hsame|tauto].
    - rewrite decide_False; [done|]. intros ([[= ->]|?]%elem_of_cons & ? & ->); [congruence|tauto].
    - rewrite decide_False; [done|]. intros ([[=]|?]%elem_of_cons & ? & ->). tauto. }
  rewrite Hgen. apply decide_ext. by rewrite Hv.
Qed.
End links.

(** A document of three nodes, the second a link, under a depth-first walk. *)
Definition toy_Walk (doc : list nat)
    (visit : nat → bool → gmap (nat * gostring) gostring →
             (WalkStatus * option ()) * gmap (nat * gostring) gostring)
    (st : gmap (nat * gostring) gostring) : option () * gmap (nat * gostring) gostring :=
  (None, foldl (λ st v, (visit v.1 v.2 st).2) st (map (λ n, (n, true)) doc ++ map (λ n, (n, false)) (reverse doc))).

Definition toy_doc : list nat := [0; 1; 2]%nat.

Lemma Transform_links_witness :
  let st := Transform (Nat.eqb 1%nat) (λ n a v, <[(n, a) := v]>) toy_Walk toy_doc ∅ in
  (st : gmap (nat * gostring) gostring) !! (1%nat, str "target") = Some (str "_blank")
  ∧ st !! (2%nat, str "target") = None.
Proof.
  assert (∀ n name, (Transform (Nat.eqb 1%nat) (λ n a v, <[(n, a) := v]>) toy_Walk toy_doc ∅
      : gmap (nat * gostring) gostring) !! (n, name)
    = if decide (n ∈ toy_doc ∧ Nat.eqb 1 n = true ∧ name = str "target") then Some (str "_blank") else (∅ : gmap (nat * gostring) gostring) !! (n, name)) as H.
  { intros n name.
    refine ((λ H1 H2, proj2 (Transform_links (Nat.eqb 1%nat) (λ n a v, <[(n, a) := v]>) toy_Walk
      (λ n a (st : gmap (nat * gostring) gostring), st !! (n, a)) H1 (λ d, d) H2 toy_doc ∅) n name) _ _).
    - intros n1 a v st n2 a2. case_decide as Hd; [destruct Hd as [-> ->]; apply lookup_insert_eq|].
      rewrite lookup_insert_ne; [done|]. intros [= -> ->]. by apply Hd.
    - intros doc visit st _. eexists. split; [|reflexivity]. intros n1.
      rewrite elem_of_app, !list_elem_of_fmap. split; [|intros Hn; left; by exists n1].
      intros [(x & [= ->] & ?)|(x & [=] & _)]. done. }
  split; rewrite H; reflexivity.
Defined.
