(* ===== verification/Migrater.v ===== *)
(** * migrater: numbered SQL migrations (migrater/migrater.go, migrater/options.go)

    The database and the file system are interfaces ([DB], [FS]); a database
    call may succeed, fail or panic.  The transactions, statements and log
    calls of a run are its events. *)
From Stdlib Require Import Ascii String.
From S2P Require Export Prelude GoStrings Errors Sha256.
Local Open Scope Z_scope.

(** ** Interfaces *)

(** [database/sql.DB] under the context of the run.  [QueryContext] yields the
    rows as [Scan] returns them (two columns) and what [rows.Err] returns at
    the end.  There is one transaction at a time. *)
Record DB D := {
  ExecContext : gostring → D → result error () * D;
  QueryContext : gostring → D →
    result error (list (result error (gostring * gostring)) * option error) * D;
  BeginTx : D → result error () * D;
  TxExec : gostring → list gostring → D → result error () * D;
  Commit : D → result error () * D;
  Rollback : D → result error () * D;
}.
Arguments ExecContext {_}. Arguments QueryContext {_}. Arguments BeginTx {_}.
Arguments TxExec {_}. Arguments Commit {_}. Arguments Rollback {_}.

Record DirEntry := { Name : gostring; IsDir : bool }.

(** [fs.FS], through [fs.ReadDir] and [fs.ReadFile]. *)
Record FS := {
  ReadDir : gostring → result error (list DirEntry);
  ReadFile : gostring → result error gostring;
}.

(** ** Configuration *)

Record Migrater D := {
  db : DB D;
  fsys : FS;
  dir : gostring;
  table : gostring;
  info : bool;        (* whether the log function is set *)
  debug : bool;
  recoverLog : bool;
  postgres : bool;
}.
Arguments db {_}. Arguments fsys {_}. Arguments dir {_}. Arguments table {_}.
Arguments info {_}. Arguments debug {_}. Arguments recoverLog {_}. Arguments postgres {_}.

Definition tableNameMaxLen : Z := 64.
Definition DefaultTableName : gostring := str "migrater_state".
Definition DefaultDir : gostring := str "migrations".

Section options.
Context {D : Type}.
Definition Option : Type := Migrater D → Migrater D.

Definition WithFS (f : FS) (d : gostring) : Option := λ m,
  {| db := db m; fsys := f; dir := d; table := table m; info := info m; debug := debug m;
     recoverLog := recoverLog m; postgres := postgres m |}.
(** [os.DirFS] is [DirFS]. *)
Definition WithDir (DirFS : gostring → FS) (d : gostring) : Option := WithFS (DirFS d) (str ".").
Definition WithInfoLog (fn : bool) : Option := λ m,
  {| db := db m; fsys := fsys m; dir := dir m; table := table m; info := fn; debug := debug m;
     recoverLog := recoverLog m; postgres := postgres m |}.
Definition WithDebugLog (fn : bool) : Option := λ m,
  {| db := db m; fsys := fsys m; dir := dir m; table := table m; info := info m; debug := fn;
     recoverLog := recoverLog m; postgres := postgres m |}.
Definition WithRecoverLog (fn : bool) : Option := λ m,
  {| db := db m; fsys := fsys m; dir := dir m; table := table m; info := info m; debug := debug m;
     recoverLog := fn; postgres := postgres m |}.
Definition WithTableName (name : gostring) : Option := λ m,
  {| db := db m; fsys := fsys m; dir := dir m; table := name; info := info m; debug := debug m;
     recoverLog := recoverLog m; postgres := postgres m |}.
Definition WithPostgres : Option := λ m,
  {| db := db m; fsys := fsys m; dir := dir m; table := table m; info := info m; debug := debug m;
     recoverLog := recoverLog m; postgres := true |}.

Definition New (DirFS : gostring → FS) (d : DB D) (options : list Option) : Migrater D :=
  foldl (λ m opt, opt m)
    (WithDir DirFS DefaultDir
      {| db := d; fsys := DirFS []; dir := []; table := DefaultTableName; info := true;
         debug := false; recoverLog := true; postgres := false |})
    options.
End options.

(** ** File names *)

(** [migrationID]: the leading ASCII digits. *)
Fixpoint migrationID (filename : gostring) : gostring :=
  match filename with
  | c :: rest => if is_digit c then c :: migrationID rest else []
  | [] => []
  end.

Definition numericKey (id : gostring) : Z :=
  if decide (id = []) then 0 else
  match Atoi id with Ok n => n | _ => MaxInt64 end.

(** [tableNameRe]: [^[A-Za-z_][A-Za-z0-9_]*$]. *)
Definition ident_start (c : ascii) : bool :=
  ((65 <=? code c) && (code c <=? 90)) || ((97 <=? code c) && (code c <=? 122)) || (code c =? 95).
Definition tableNameRe (s : gostring) : bool :=
  match s with
  | [] => false
  | c :: s => ident_start c && forallb (λ c, ident_start c || is_digit c) s
  end.

(** [bytes.ReplaceAll(b, "\r\n", "\n")] *)
Fixpoint crlf_to_lf (s : gostring) : gostring :=
  match s with
  | c :: (d :: t) as s' =>
      if (code c =? 13) && (code d =? 10) then d :: crlf_to_lf t else c :: crlf_to_lf s'
  | _ => s
  end.

(** ** Events *)

Inductive level := Info | Debug | Recover.
Inductive event :=
  | EExec (query : gostring)
  | EQuery (query : gostring)
  | EBegin (ok : bool)
  | ETxExec (query : gostring) (args : list gostring) (ok : bool)
  | ECommit (ok : bool)
  | ERollback
  | ELog (lvl : level) (format : string) (args : list gostring).

Section run.
Context {D : Type}.
(** [path.Join] *)
Variable path_Join : gostring → gostring → gostring.
Variable m : Migrater D.
#[local] Abbreviation M A := (Comp event D (result error A)).

Definition logf (lvl : level) (format : string) (args : list gostring) : Comp event D () :=
  if match lvl with Info => info m | Debug => debug m | Recover => recoverLog m end
  then tell (ELog lvl format args) else mret ().

(** A database call and its event. *)
Definition dbcall {A} (f : D → result error A * D) (ev : bool → event) : M A := λ d,
  let '(r, d) := f d in (r, [ev (is_Ok r)], d).

Definition exec (q : gostring) : M () := dbcall (ExecContext (db m) q) (λ _, EExec q).
Definition query (q : gostring) : M (list (result error (gostring * gostring)) * option error) :=
  dbcall (QueryContext (db m) q) (λ _, EQuery q).

Definition timestampType : gostring :=
  if postgres m then str "TIMESTAMPTZ" else str "TIMESTAMP".
Definition placeholder (n : ascii) : gostring :=
  if postgres m then str "$" ++ [n] else str "?".

Definition create_query : gostring :=
  str "CREATE TABLE IF NOT EXISTS " ++ table m ++ str " (id TEXT PRIMARY KEY, content_hash TEXT, applied_at "
  ++ timestampType ++ str " NOT NULL DEFAULT CURRENT_TIMESTAMP)".
Definition probe_query : gostring := str "SELECT content_hash FROM " ++ table m ++ str " LIMIT 0".
Definition alter_query : gostring := str "ALTER TABLE " ++ table m ++ str " ADD COLUMN content_hash TEXT".
Definition load_query : gostring :=
  str "SELECT id, COALESCE(content_hash, '') FROM " ++ table m.
Definition insert_query : gostring :=
  str "INSERT INTO " ++ table m ++ str " (id, content_hash) VALUES ("
  ++ placeholder (ascii_of_nat 49) ++ str ", " ++ placeholder (ascii_of_nat 50) ++ str ")".

Definition contentHashColumnExists : M bool :=
  r ← query probe_query;
  match r with
  | Ok _ => mret (Ok true)
  | Err _ => mret (Ok false)
  | Panic s => mret (Panic s)
  end.

Definition ensureContentHashColumn : M () :=
  try contentHashColumnExists (λ exists_,
  if (exists_ : bool) then mret (Ok ()) else
  logf Debug "add content_hash column: %s" [alter_query];;
  on_err (exec alter_query) (λ err,
    try contentHashColumnExists (λ exists_,
    mret (if (exists_ : bool) then Ok () else Err err)))).

Definition ensureTable : M () :=
  logf Debug "ensure table: %s" [create_query];;
  try (exec create_query) (λ _, ensureContentHashColumn).

(** [for rows.Next()] *)
Fixpoint scan_rows (rows : list (result error (gostring * gostring)))
    (applied : gmap gostring gostring) : result error (gmap gostring gostring) :=
  match rows with
  | [] => Ok applied
  | row :: rows => '(id, hash) ← row; scan_rows rows (<[id := hash]> applied)
  end.

Definition loadApplied : M (gmap gostring gostring) :=
  logf Debug "load applied: %s" [load_query];;
  try (query load_query) (λ '(rows, rows_err),
  mret (applied ← scan_rows rows ∅;
        match rows_err with None => Ok applied | Some e => Err e end)).

(** The loop of [collectFiles]: the files kept with their sort keys, and the
    first file seen with each id. *)
Fixpoint collect (entries : list DirEntry) (seen : gmap gostring gostring)
    : result error (list (Z * gostring)) :=
  match entries with
  | [] => Ok []
  | e :: entries =>
      if IsDir e || negb (HasSuffix (Name e) (str ".sql")) then collect entries seen else
      let id := migrationID (Name e) in
      seen ← (if decide (id = []) then Ok seen
              else match seen !! id with
                   | Some first => Err (Errorf 0 "duplicate migration ID %q: %s, %s" [])
                   | None => Ok (<[id := Name e]> seen)
                   end);
      files ← collect entries seen;
      Ok ((numericKey id, Name e) :: files)
  end.

Definition collectFiles : result error (list gostring) :=
  match ReadDir (fsys m) (dir m) with
  | Ok entries => files ← collect entries ∅; Ok (map snd (sort files))
  | Err err => Err (Errorf 0 "read migrations dir %q: %w" [err])
  | Panic s => Panic s
  end.

Definition begin_tx : M () := dbcall (BeginTx (db m)) EBegin.
Definition tx_exec (q : gostring) (args : list gostring) : M () :=
  dbcall (TxExec (db m) q args) (ETxExec q args).
Definition commit : M () := dbcall (Commit (db m)) ECommit.
(** [_ = tx.Rollback()], then [return err]. *)
Definition rollback (err : error) : M () :=
  r ← dbcall (Rollback (db m)) (λ _, ERollback);
  match r with Panic s => mret (Panic s) | _ => mret (Err err) end.

Definition apply (id content contentHash : gostring) : M () :=
  try begin_tx (λ _,
  try (on_err (tx_exec content []) rollback) (λ _,
  logf Debug "record state: %s [%s, %s]" [insert_query; id; contentHash];;
  try (on_err (tx_exec insert_query [id; contentHash]) rollback) (λ _,
  commit))).

Definition content_hash (content : gostring) : gostring :=
  hex_EncodeToString (Sum256 content).

Definition applyFile (name : gostring) (applied : gmap gostring gostring) : M () :=
  let id := migrationID name in
  if decide (id = []) then
    logf Debug "skip %s: no numeric prefix" [name];; mret (Ok ())
  else
  match ReadFile (fsys m) (path_Join (dir m) name) with
  | Err err => mret (Err (Errorf 0 "migrater: read %s: %w" [err]))
  | Panic s => mret (Panic s)
  | Ok contentb =>
      let content := crlf_to_lf contentb in
      let contentHash := content_hash content in
      match applied !! id with
      | Some storedHash =>
          (if bool_decide (storedHash ≠ []) && bool_decide (storedHash ≠ contentHash)
           then logf Info "drift detected: migration %s (%s) content has changed since it was applied (stored hash %s, current %s), file and database have diverged" [id; name; storedHash; contentHash]
           else logf Debug "skip migration %s (already applied)" [id]);;
          mret (Ok ())
      | None =>
          logf Info "applying migration %s (%s)" [id; name];;
          logf Debug "%s" [content];;
          try (on_err (apply id content contentHash)
                 (λ err, mret (Err (Errorf 0 "migrater: apply %s: %w" [err])))) (λ _,
          logf Info "migration %s applied in %s" [id];;
          mret (Ok ()))
      end
  end.

Fixpoint applyFiles (files : list gostring) (applied : gmap gostring gostring) : M () :=
  match files with
  | [] => mret (Ok ())
  | f :: files => try (applyFile f applied) (λ _, applyFiles files applied)
  end.

(** What [Run] does under its deferred [recover]. *)
Definition run_body : M () :=
  try (on_err ensureTable (λ err, mret (Err (Errorf 0 "migrater: ensure state table: %w" [err])))) (λ _,
  try (on_err loadApplied (λ err, mret (Err (Errorf 0 "migrater: load applied migrations: %w" [err]))))
    (λ applied,
  try (on_err (mret collectFiles) (λ err, mret (Err (Errorf 0 "migrater: %w" [err])))) (λ files,
  applyFiles files applied))).

Definition Run : M () :=
  if decide (table m = []) then
    mret (Err (Errorf 0 "migrater: table name must not be empty (check WithTableName option)" [])) else
  if decide (tableNameMaxLen < Z.of_nat (length (table m))) then
    mret (Err (Errorf 0 "migrater: table name length %d exceeds maximum %d" [])) else
  if negb (tableNameRe (table m)) then
    mret (Err (Errorf 0 "migrater: table name %q is not a valid SQL identifier (must match %s)" [])) else
  r ← run_body;
  match r with
  | Panic s =>
      logf Recover "panic recovered: %v" [str s];;
      mret (Err (Errorf 0 "migrater panic: %v" []))
  | r => mret r
  end.
End run.

(** ** Specification *)

(** The part of a trace that concerns transactions. *)
Definition is_tx (e : event) : bool :=
  match e with EBegin _ | ETxExec _ _ _ | ECommit _ | ERollback => true | _ => false end.
Definition txs (t : list event) : list event := List.filter is_tx t.

Section spec.
Context {D : Type}.
Variable path_Join : gostring → gostring → gostring.
Variable m : Migrater D.

Definition content_of (f : gostring) : gostring :=
  match ReadFile (fsys m) (path_Join (dir m) f) with Ok b => crlf_to_lf b | _ => [] end.

(** A migration in its own transaction, recorded and committed. *)
Definition committed (f : gostring) : list event :=
  [EBegin true; ETxExec (content_of f) [] true;
   ETxExec (insert_query m) [migrationID f; content_hash (content_of f)] true; ECommit true].

(** A migration that failed at some point of its transaction: whatever was
    begun is rolled back, unless it failed to begin or to commit. *)
Inductive failed (f : gostring) : list event → Prop :=
  | failed_begin : failed f [EBegin false]
  | failed_content : failed f [EBegin true; ETxExec (content_of f) [] false; ERollback]
  | failed_record :
      failed f [EBegin true; ETxExec (content_of f) [] true;
                ETxExec (insert_query m) [migrationID f; content_hash (content_of f)] false; ERollback]
  | failed_commit :
      failed f [EBegin true; ETxExec (content_of f) [] true;
                ETxExec (insert_query m) [migrationID f; content_hash (content_of f)] true; ECommit false].

(** A panic in the middle of a transaction leaves it open. *)
Inductive panicked (f : gostring) : list event → Prop :=
  | panicked_content : panicked f [EBegin true; ETxExec (content_of f) [] false]
  | panicked_record :
      panicked f [EBegin true; ETxExec (content_of f) [] true;
                  ETxExec (insert_query m) [migrationID f; content_hash (content_of f)] false]
  | panicked_other t : failed f t → panicked f t.

(** Which of the files a run has to apply. *)
Definition is_pending (applied : gmap gostring gostring) (f : gostring) : bool :=
  bool_decide (migrationID f ≠ []) && bool_decide (applied !! migrationID f = None).
Definition pending (applied : gmap gostring gostring) (files : list gostring) : list gostring :=
  List.filter (is_pending applied) files.

(** The transactions of a run over [files]: committed ones, in the order of
    the files, for all that are pending when it succeeds, and otherwise for the
    first few, with at most one unsuccessful transaction after them. *)
Definition tx_history (applied : gmap gostring gostring) (files : list gostring)
    (r : result error ()) (t : list event) : Prop :=
  ∃ ran rest last, pending applied files = ran ++ rest
    ∧ txs t = concat (map committed ran) ++ last
    ∧ match r with
      | Ok _ => rest = [] ∧ last = []
      | Err _ => last = [] ∨ ∃ f rest', rest = f :: rest' ∧ failed f last
      | Panic _ => last = [] ∨ ∃ f rest', rest = f :: rest' ∧ panicked f last
      end.
End spec.

(** ** Facts *)

#[local] Arguments txs : simpl never.
#[local] Arguments insert_query : simpl never.
#[local] Arguments load_query : simpl never.
#[local] Arguments create_query : simpl never.
#[local] Arguments alter_query : simpl never.
#[local] Arguments probe_query : simpl never.
#[local] Arguments content_hash : simpl never.
Lemma txs_nil : txs [] = [].
Proof. done. Qed.
Lemma txs_cons e t : txs (e :: t) = if is_tx e then e :: txs t else txs t.
Proof. done. Qed.
Lemma txs_app t1 t2 : txs (t1 ++ t2) = txs t1 ++ txs t2.
Proof. apply List.filter_app. Qed.

Section facts.
Context {D : Type}.
Variable path_Join : gostring → gostring → gostring.
Variable m : Migrater D.

Lemma logf_spec lvl fmt args d :
  ∃ t, logf m lvl fmt args d = ((), t, d) ∧ txs t = [].
Proof. unfold logf. by destruct lvl, (info m), (debug m), (recoverLog m); eexists. Qed.

(** What a run asks of the transactions of one migration. *)
Lemma apply_spec f d :
  let c := content_of path_Join m f in
  let h := content_hash c in
  let '(r, t, d') := apply m (migrationID f) c h d in
  match r with
  | Ok _ => txs t = committed path_Join m f ∧ ∃ d1 d2 d3,
      BeginTx (db m) d = (Ok (), d1) ∧ TxExec (db m) c [] d1 = (Ok (), d2)
      ∧ TxExec (db m) (insert_query m) [migrationID f; h] d2 = (Ok (), d3)
      ∧ Commit (db m) d3 = (Ok (), d')
  | Err _ => failed path_Join m f (txs t)
  | Panic _ => panicked path_Join m f (txs t)
  end.
Proof.
  intros c h. unfold apply, try, on_err, begin_tx, tx_exec, commit, rollback, dbcall, mbind, comp_bind.
  destruct (BeginTx (db m) d) as [[[]|e|s] d1] eqn:H1; cbn; [|constructor|do 2 constructor].
  destruct (TxExec (db m) c [] d1) as [[[]|e|s] d2] eqn:H2; cbn; [| |constructor].
  2:{ destruct (Rollback (db m) d2) as [[[]|e'|s'] d3]; cbn; repeat constructor. }
  match goal with |- context [logf m ?l ?f ?a ?d] => destruct (logf_spec l f a d) as (tl & -> & Hl) end.
  cbn.
  destruct (TxExec (db m) (insert_query m) [migrationID f; h] d2) as [[[]|e|s] d3] eqn:H3; cbn;
    [destruct (Commit (db m) d3) as [[[]|e|s] d4] eqn:H4
    |destruct (Rollback (db m) d3) as [[[]|e'|s'] d4]|]; cbn;
    rewrite !txs_cons, ?txs_app, Hl; cbn; rewrite ?txs_cons, ?txs_nil; cbn;
    try by repeat constructor.
  split; [done|]. by exists d1, d2, d3.
Qed.
(** A step that does not touch transactions. *)
Definition quiet {A} (c : Comp event D A) : Prop := ∀ d, txs (trace (c d)) = [].

Lemma quiet_ret {A} (a : A) : quiet (mret a).
Proof. done. Qed.
Lemma quiet_bind {A B} (c : Comp event D A) (f : A → Comp event D B) :
  quiet c → (∀ a, quiet (f a)) → quiet (c ≫= f).
Proof.
  intros Hc Hf d. specialize (Hc d). unfold mbind, comp_bind.
  destruct (c d) as [[a t1] d1]. specialize (Hf a d1).
  destruct (f a d1) as [[b t2] d2]. cbn in *. by rewrite txs_app, Hc, Hf.
Qed.
Lemma quiet_logf lvl fmt args : quiet (logf m lvl fmt args).
Proof. intros d. destruct (logf_spec lvl fmt args d) as (t & -> & Ht). done. Qed.
Lemma quiet_exec q : quiet (exec m q).
Proof. intros d. unfold exec, dbcall. by destruct (ExecContext _ _ _). Qed.
Lemma quiet_query q : quiet (query m q).
Proof. intros d. unfold query, dbcall. by destruct (QueryContext _ _ _). Qed.
Lemma quiet_try {A B} (c : Comp event D (result error A)) (f : A → Comp event D (result error B)) :
  quiet c → (∀ a, quiet (f a)) → quiet (try c f).
Proof. intros Hc Hf. apply quiet_bind; [done|]. intros [a|e|s]; [apply Hf|apply quiet_ret..]. Qed.
Lemma quiet_on_err {A} (c : Comp event D (result error A)) h :
  quiet c → (∀ e, quiet (h e)) → quiet (on_err c h).
Proof. intros Hc Hf. apply quiet_bind; [done|]. intros [a|e|s]; [apply quiet_ret|apply Hf|apply quiet_ret]. Qed.
End facts.

Create HintDb quiet discriminated.
#[local] Hint Resolve quiet_ret quiet_bind quiet_logf quiet_exec quiet_query quiet_try quiet_on_err : quiet.
#[local] Hint Extern 1 (quiet (match ?x with _ => _ end)) => destruct x : quiet.

Section facts2.
Context {D : Type}.
Variable path_Join : gostring → gostring → gostring.
Variable m : Migrater D.

Lemma quiet_column : quiet (contentHashColumnExists m).
Proof. unfold contentHashColumnExists. auto 10 with quiet. Qed.
#[local] Hint Resolve quiet_column : quiet.
Lemma quiet_ensureTable : quiet (ensureTable m).
Proof.
  unfold ensureTable, ensureContentHashColumn.
  apply quiet_bind; [apply quiet_logf|]. intros _. apply quiet_try; [apply quiet_exec|]. intros _.
  apply quiet_try; [apply quiet_column|]. intros [|]; [apply quiet_ret|].
  apply quiet_bind; [apply quiet_logf|]. intros _. apply quiet_on_err; [apply quiet_exec|]. intros e.
  apply quiet_try; [apply quiet_column|]. intros b. apply quiet_ret.
Qed.
Lemma quiet_loadApplied : quiet (loadApplied m).
Proof.
  unfold loadApplied. apply quiet_bind; [apply quiet_logf|]. intros _.
  apply quiet_try; [apply quiet_query|]. intros [rows e]. apply quiet_ret.
Qed.

(** One file: it is pending and becomes a transaction, or nothing happens. *)
Lemma applyFile_spec f applied d :
  let '(r, t, d') := applyFile path_Join m f applied d in
  (txs t = [] ∧ (r = Ok () → is_pending applied f = false ∧ d' = d))
  ∨ (is_pending applied f = true ∧
     match r with
     | Ok _ => txs t = committed path_Join m f ∧ ∃ d1 d2 d3,
         BeginTx (db m) d = (Ok (), d1) ∧ TxExec (db m) (content_of path_Join m f) [] d1 = (Ok (), d2)
         ∧ TxExec (db m) (insert_query m) [migrationID f; content_hash (content_of path_Join m f)] d2
           = (Ok (), d3)
         ∧ Commit (db m) d3 = (Ok (), d')
     | Err _ => failed path_Join m f (txs t)
     | Panic _ => panicked path_Join m f (txs t)
     end).
Proof.
  unfold applyFile, is_pending. case_decide as Hid.
  { unfold mbind, comp_bind. match goal with |- context [logf m ?l ?f ?a ?d] =>
      destruct (logf_spec m l f a d) as (tl & -> & Hl) end. cbn.
    left. rewrite app_nil_r. rewrite bool_decide_eq_false_2 by tauto. done. }
  rewrite bool_decide_eq_true_2 by done. cbn [andb].
  pose proof (apply_spec path_Join m f d) as Happly. unfold content_of in *.
  destruct (ReadFile _ _) as [b|e|s]; [|by left..].
  destruct (applied !! migrationID f) as [h|] eqn:Happ.
  - rewrite (bool_decide_eq_false_2 (Some h = None)) by done. unfold mbind, comp_bind.
    destruct (_ && _); match goal with |- context [logf m ?l ?f ?a ?d] =>
      destruct (logf_spec m l f a d) as (tl & -> & Hl) end; cbn; left; by rewrite app_nil_r.
  - rewrite (bool_decide_eq_true_2 (None = None)) by done.
    unfold try, on_err, mbind, comp_bind. cbn zeta in Happly.
    do 2 (match goal with |- context [logf m ?l ?f ?a ?d] =>
      destruct (logf_spec m l f a d) as (? & -> & ?) end; cbn).
    destruct (apply _ _ _ _ _) as [[[[]|e|s] t] d']; cbn.
    + match goal with |- context [logf m ?l ?f ?a ?d] =>
        destruct (logf_spec m l f a d) as (? & -> & ?) end; cbn.
      right. rewrite !txs_app, H, H0, H1, txs_nil, !app_nil_r. done.
    + right. by rewrite !txs_app, H, H0, txs_nil, !app_nil_r.
    + right. by rewrite !txs_app, H, H0, txs_nil, !app_nil_r.
Qed.

Lemma applyFiles_spec files applied d :
  let '(r, t, d') := applyFiles path_Join m files applied d in
  tx_history path_Join m applied files r t.
Proof.
  unfold tx_history, pending. revert d.
  induction files as [|f files IH]; intros d; cbn [applyFiles List.filter].
  { exists [], [], []. done. }
  unfold try, mbind, comp_bind. pose proof (applyFile_spec f applied d) as Hf.
  destruct (applyFile _ _ _ _ _) as [[r t] d1].
  destruct Hf as [[Ht Hr]|[Hp Hr]].
  - destruct r as [[]|e|s].
    + destruct (Hr eq_refl) as [-> ->]. specialize (IH d).
      destruct (applyFiles _ _ _ _ _) as [[r2 t2] d2].
      destruct IH as (ran & rest & last & -> & Ht2 & Hlast).
      exists ran, rest, last. by rewrite txs_app, Ht, Ht2.
    + eexists [], _, []. cbn. split; [done|]. rewrite app_nil_r. auto.
    + eexists [], _, []. cbn. split; [done|]. rewrite app_nil_r. auto.
  - rewrite Hp. destruct r as [[]|e|s].
    + destruct Hr as [Ht _]. specialize (IH d1).
      destruct (applyFiles _ _ _ _ _) as [[r2 t2] d2].
      destruct IH as (ran & rest & last & -> & Ht2 & Hlast).
      exists (f :: ran), rest, last. by rewrite txs_app, Ht, Ht2.
    + eexists [], _, (txs t). cbn. rewrite app_nil_r. split; [done|]. split; [done|]. eauto.
    + eexists [], _, (txs t). cbn. rewrite app_nil_r. split; [done|]. split; [done|]. eauto.
Qed.

(** Before the files are applied, no transaction is begun. *)
Lemma run_body_spec d :
  let '(r, t, d') := run_body path_Join m d in
  (txs t = [] ∧ r ≠ Ok ())
  ∨ ∃ files applied t0 d0 d1 t1, collectFiles m = Ok files
      ∧ d0 = world (ensureTable m d)
      ∧ loadApplied m d0 = (Ok applied, t0, d1)
      ∧ applyFiles path_Join m files applied d1 = (r, t1, d')
      ∧ txs t = txs t1.
Proof.
  unfold run_body, try, on_err, mbind, comp_bind, mret, comp_ret.
  pose proof (quiet_ensureTable d) as Hq1. destruct (ensureTable m d) as [[[[]|e|s] t1] d1]; cbn in *;
    [|left; by rewrite !txs_app, Hq1, txs_nil..].
  pose proof (quiet_loadApplied d1) as Hq2.
  destruct (loadApplied m d1) as [[[applied|e|s] t2] d2] eqn:Hload; cbn in *;
    [|left; by rewrite !txs_app, Hq1, Hq2, txs_nil..].
  destruct (collectFiles m) as [files|e|s]; cbn in *;
    [|left; by rewrite !txs_app, Hq1, Hq2, txs_nil..].
  destruct (applyFiles path_Join m files applied d2) as [[r t3] d3] eqn:Hrun. cbn.
  right. exists files, applied, t2, d1, d2, t3. split_and?; try done.
  by rewrite !txs_app, Hq1, Hq2, txs_nil.
Qed.
End facts2.

(** *** The whole run *)

(** What [Run] accepts as the name of the state table. *)
Definition valid_table (s : gostring) : bool :=
  bool_decide (s ≠ []) && bool_decide (Z.of_nat (length s) ≤ tableNameMaxLen) && tableNameRe s.

(** A panic becomes an error. *)
Definition panic_error : error := Errorf 0 "migrater panic: %v" [].
Definition recovered (r : result error ()) : result error () :=
  match r with Panic _ => Err panic_error | r => r end.

Section facts3.
Context {D : Type}.
Variable path_Join : gostring → gostring → gostring.
Variable m : Migrater D.

Lemma Run_invalid d :
  valid_table (table m) = false →
  ∃ e, Run path_Join m d = (Err e, [], d).
Proof.
  unfold valid_table, Run. rewrite !andb_false_iff, !bool_decide_eq_false.
  intros [[?|?]|Hre]; repeat (case_decide; [by eexists|]); [tauto|lia|].
  rewrite Hre. by eexists.
Qed.

Lemma Run_valid d :
  valid_table (table m) = true →
  let '(r0, t0, d0) := run_body path_Join m d in
  ∃ t, Run path_Join m d = (recovered r0, t0 ++ t, d0) ∧ txs t = [].
Proof.
  unfold valid_table, Run. rewrite !andb_true_iff, !bool_decide_eq_true.
  intros [[? ?] Hre]. rewrite !decide_False by (done || lia). rewrite Hre. cbn.
  unfold mbind, comp_bind. destruct (run_body path_Join m d) as [[[a|e|s] t0] d0]; cbn;
    [by exists []..|].
  destruct (logf_spec m Recover "panic recovered: %v" [str s] d0) as (t & -> & Ht). cbn.
  exists t. by rewrite app_nil_r.
Qed.

(** The keys the files are sorted by. *)
Definition file_key (f : gostring) : Z * gostring := (numericKey (migrationID f), f).

Lemma collect_spec entries seen :
  let sql := List.filter (λ e, negb (IsDir e || negb (HasSuffix (Name e) (str ".sql")))) entries in
  let ids := List.filter (λ id, bool_decide (id ≠ [])) (map (λ e, migrationID (Name e)) sql) in
  match collect entries seen with
  | Ok files => files = map (λ e, file_key (Name e)) sql
                ∧ NoDup ids ∧ Forall (λ id, seen !! id = None) ids
  | Err _ => ¬ (NoDup ids ∧ Forall (λ id, seen !! id = None) ids)
  | Panic _ => False
  end.
Proof.
  revert seen. induction entries as [|e entries IH]; intros seen; cbn [collect List.filter].
  { simpl. split; [done|]. by split; constructor. }
  destruct (IsDir e || _) eqn:Hskip; cbn [negb]; [apply IH|]. cbn [map List.filter].
  case_decide as Hid; cbn [mbind result_bind].
  - rewrite bool_decide_eq_false_2 by tauto. specialize (IH seen).
    destruct (collect entries seen) as [files| |]; cbn in *; [|done..].
    by destruct IH as (-> & Hn & Hs).
  - rewrite bool_decide_eq_true_2 by done.
    destruct (seen !! migrationID (Name e)) as [first|] eqn:Hseen; cbn.
    { intros [_ Hall%Forall_cons_1]. destruct Hall as [Hall _]. congruence. }
    specialize (IH (<[migrationID (Name e) := Name e]> seen)).
    set (ids := List.filter _ (map _ (List.filter _ entries))) in *.
    assert (Forall (λ id, <[migrationID (Name e):=Name e]> seen !! id = None) ids ↔
            migrationID (Name e) ∉ ids ∧ Forall (λ id, seen !! id = None) ids) as Hiff.
    { rewrite !Forall_forall. setoid_rewrite lookup_insert_None. split.
      - intros Hall. split; [intros Hin; by destruct (Hall _ Hin)|intros id Hin; by apply Hall].
      - intros [Hnin Hall] id Hin. split; [by apply Hall|]. by intros <-. }
    destruct (collect entries _) as [files|err|s]; cbn in *; [|..|done].
    + destruct IH as (-> & Hn & Hs). apply Hiff in Hs as [Hnin Hs].
      split; [done|]. split; [by constructor|by constructor].
    + rewrite NoDup_cons, Forall_cons. tauto.
Qed.
(** What a run does, with what it has read. *)
Lemma Run_history d :
  let '(r, t, d') := Run path_Join m d in
  is_Panic r = false ∧
  ((txs t = [] ∧ r ≠ Ok ())
   ∨ ∃ files applied t0 d1 r0, collectFiles m = Ok files
       ∧ loadApplied m (world (ensureTable m d)) = (Ok applied, t0, d1)
       ∧ tx_history path_Join m applied files r0 t ∧ r = recovered r0).
Proof.
  destruct (valid_table (table m)) eqn:Hv.
  2:{ destruct (Run_invalid d Hv) as [e ->]. split; [done|]. by left. }
  pose proof (Run_valid d Hv) as Hrun.
  pose proof (run_body_spec path_Join m d) as Hbody.
  destruct (run_body path_Join m d) as [[r0 t0] d0]. destruct Hrun as (t & -> & Ht).
  split; [by destruct r0|].
  destruct Hbody as [[Ht0 Hr]|(files & applied & t1 & d1 & d2 & t2 & Hf & Hd1 & Hload & Happly & Htx)].
  - left. rewrite txs_app, Ht0, Ht. by destruct r0.
  - right. subst d1. exists files, applied, t1, d2, r0. split_and?; try done.
    pose proof (applyFiles_spec path_Join m files applied d2) as Hh. rewrite Happly in Hh.
    unfold tx_history in *. by rewrite txs_app, Ht, app_nil_r, Htx.
Qed.
End facts3.

(** What the migrater relies on the database for: the state table is a map
    from ids to hashes ([rows]) that queries and the two DDL statements leave
    alone, that the load query returns, and that a committed transaction
    extends with the row it inserted. *)
Record DBLaws {D} (m : Migrater D) (rows : D → gmap gostring gostring) : Prop := {
  law_exec : ∀ q d, q = create_query m ∨ q = alter_query m →
    rows (ExecContext (db m) q d).2 = rows d;
  law_query : ∀ q d, rows (QueryContext (db m) q d).2 = rows d;
  law_load : ∀ d rs applied,
    (QueryContext (db m) (load_query m) d).1 = Ok (rs, None) →
    scan_rows rs ∅ = Ok applied → applied = rows d;
  law_commit : ∀ d d1 d2 d3 d4 content id h,
    BeginTx (db m) d = (Ok (), d1) → TxExec (db m) content [] d1 = (Ok (), d2) →
    TxExec (db m) (insert_query m) [id; h] d2 = (Ok (), d3) →
    Commit (db m) d3 = (Ok (), d4) → rows d4 = <[id := h]> (rows d);
}.

Lemma foldl_insert_lookup {A} (f : A → gostring * gostring) (l : list A) (R : gmap gostring gostring) k :
  is_Some (foldl (λ R x, <[(f x).1 := (f x).2]> R) R l !! k) ↔ (∃ x, x ∈ l ∧ (f x).1 = k) ∨ is_Some (R !! k).
Proof.
  revert R. induction l as [|x l IH]; intros R; simpl.
  { split; [by right|]. by intros [(? & ?%elem_of_nil & _)|?]. }
  rewrite IH, lookup_insert_is_Some'. setoid_rewrite elem_of_cons. naive_solver.
Qed.

Section database.
Context {D : Type}.
Variable path_Join : gostring → gostring → gostring.
Variable m : Migrater D.
Variable rows : D → gmap gostring gostring.
Hypothesis Hdb : DBLaws m rows.

Lemma world_bind {A B} (c : Comp event D A) (f : A → Comp event D B) d :
  rows (world (c d)) = rows d → (∀ a d, rows (world (f a d)) = rows d) →
  rows (world ((c ≫= f) d)) = rows d.
Proof using Type.
  intros Hc Hf. unfold mbind, comp_bind. destruct (c d) as [[a t1] d1]. cbn in *.
  specialize (Hf a d1). destruct (f a d1) as [[b t2] d2]. cbn in *. congruence.
Qed.

Lemma ensureTable_rows d : rows (world (ensureTable m d)) = rows d.
Proof using Hdb.
  assert (∀ lvl fmt args d, rows (world (logf m lvl fmt args d)) = rows d) as Hlog.
  { intros lvl fmt args d'. by destruct (logf_spec m lvl fmt args d') as (t & -> & _). }
  assert (∀ q d, q = create_query m ∨ q = alter_query m → rows (world (exec m q d)) = rows d) as Hexec.
  { intros q d' Hq. unfold exec, dbcall. pose proof (law_exec _ _ Hdb q d' Hq) as H.
    by destruct (ExecContext (db m) q d'). }
  assert (∀ d, rows (world (contentHashColumnExists m d)) = rows d) as Hcol.
  { intros d'. apply world_bind; [|by intros [|e|s]].
    unfold query, dbcall. pose proof (law_query _ _ Hdb (probe_query m) d') as H.
    by destruct (QueryContext (db m) (probe_query m) d'). }
  unfold ensureTable, ensureContentHashColumn, try, on_err.
  apply world_bind; [apply Hlog|]. intros _ d1. apply world_bind; [apply Hexec; auto|].
  intros [[]|e|s] d2; [|done..]. apply world_bind; [apply Hcol|]. intros [[]|e|s] d3; [done| |done..].
  apply world_bind; [apply Hlog|]. intros _ d4. apply world_bind; [apply Hexec; auto|].
  intros [[]|e|s] d5; [done| |done]. apply world_bind; [apply Hcol|]. by intros [[]|e'|s] d6.
Qed.

Lemma loadApplied_rows d applied t d' :
  loadApplied m d = (Ok applied, t, d') → applied = rows d ∧ rows d' = rows d.
Proof using Hdb.
  unfold loadApplied, try, query, dbcall, mbind, comp_bind.
  match goal with |- context [logf m ?l ?f ?a ?d] => destruct (logf_spec m l f a d) as (tl & -> & _) end.
  cbn. pose proof (law_query _ _ Hdb (load_query m) d) as Hq.
  pose proof (law_load _ _ Hdb d) as Hl.
  destruct (QueryContext (db m) (load_query m) d) as [[[rs [e|]]|e|s] d1]; cbn in *.
  - destruct (scan_rows rs ∅); cbn; congruence.
  - destruct (scan_rows rs ∅) as [a| |] eqn:Hs; cbn; intros Heq; try congruence.
    injection Heq as <- _ <-. split; [by eapply Hl|done].
  - done.
  - done.
Qed.

Lemma applyFiles_rows files applied d t d' :
  applyFiles path_Join m files applied d = (Ok (), t, d') →
  rows d' = foldl (λ R f, <[migrationID f := content_hash (content_of path_Join m f)]> R)
              (rows d) (pending applied files).
Proof using Hdb.
  revert d t. induction files as [|f files IH]; intros d t; cbn [applyFiles]; [by intros [= <- <-]|].
  unfold try, mbind, comp_bind. pose proof (applyFile_spec path_Join m f applied d) as Hf.
  destruct (applyFile _ _ _ _ _) as [[[[]|e|s] t1] d1]; [|done..].
  destruct (applyFiles _ _ _ _ d1) as [[r2 t2] d2] eqn:Hrun. intros [= -> <- <-].
  rewrite (IH _ _ Hrun). unfold pending. cbn [List.filter].
  destruct Hf as [[_ Hr]|[-> [_ (d3 & d4 & d5 & H1 & H2 & H3 & H4)]]].
  - by destruct (Hr eq_refl) as [-> ->].
  - cbn [foldl]. by rewrite (law_commit _ _ Hdb _ _ _ _ _ _ _ _ H1 H2 H3 H4).
Qed.

(** After a successful run every numbered file is in the state table. *)
Lemma applyFiles_complete files d t d' :
  applyFiles path_Join m files (rows d) d = (Ok (), t, d') →
  ∀ f, f ∈ files → migrationID f ≠ [] → is_Some (rows d' !! migrationID f).
Proof using Hdb.
  intros Hrun f Hf Hid. rewrite (applyFiles_rows _ _ _ _ _ Hrun).
  apply (foldl_insert_lookup (λ f, (migrationID f, content_hash (content_of path_Join m f)))).
  destruct (rows d !! migrationID f) as [h|] eqn:Hl; [by right; eauto|left].
  exists f. split; [|done]. apply list_elem_of_In, filter_In. split; [by apply list_elem_of_In|].
  unfold is_pending. by rewrite !bool_decide_eq_true_2.
Qed.
End database.

(** ** Properties *)
Section properties.
Context {D : Type}.
Variable path_Join : gostring → gostring → gostring.
Variable m : Migrater D.

(** C11: what a run does to the database.  [Run] never panics.  If it gets as
    far as the files, it commits one transaction per migration that is pending
    according to the rows this run has loaded (the migration's SQL, then its row
    in the state table), in the order of the files: all of them when it
    succeeds, and otherwise the first few, after which it begins at most one
    transaction more.  When the error is one that was returned to it, that
    transaction failed to begin or to commit, or was rolled back.  When it is a
    recovered panic, of the database driver in the middle of the transaction,
    the transaction may have been left open. *)
Theorem Run_transactions d :
  let '(r, t, d') := Run path_Join m d in
  is_Panic r = false ∧
  ((txs t = [] ∧ r ≠ Ok ())
   ∨ ∃ files applied t0 d1 ran rest last, collectFiles m = Ok files
       ∧ loadApplied m (world (ensureTable m d)) = (Ok applied, t0, d1)
       ∧ pending applied files = ran ++ rest
       ∧ txs t = concat (map (committed path_Join m) ran) ++ last
       ∧ match r with
         | Ok _ => rest = [] ∧ last = []
         | Err e => last = []
             ∨ ∃ f rest', rest = f :: rest'
                 ∧ (failed path_Join m f last ∨ e = panic_error ∧ panicked path_Join m f last)
         | Panic _ => False
         end).
Proof.
  pose proof (Run_history path_Join m d) as Hrun. destruct (Run path_Join m d) as [[r t] d'].
  destruct Hrun as (Hp & [Hn|(files & applied & t0 & d1 & r0 & Hc & Hl & Hh & ->)]); [auto|].
  split; [done|]. right. destruct Hh as (ran & rest & last & Hpend & Ht & Hr).
  exists files, applied, t0, d1, ran, rest, last. split_and!; [done..|].
  destruct r0 as [?|e|s]; cbn; [done|naive_solver|naive_solver].
Qed.

(** the order.  [collectFiles] returns the [.sql] files of the directory,
    each once, in ascending order of the number they start with; it fails
    exactly when the directory cannot be read or two files start with the same
    digits. *)
Theorem collectFiles_spec entries :
  ReadDir (fsys m) (dir m) = Ok entries →
  let sql := map Name (List.filter (λ e, negb (IsDir e || negb (HasSuffix (Name e) (str ".sql")))) entries) in
  let ids := List.filter (λ id, bool_decide (id ≠ [])) (map migrationID sql) in
  match collectFiles m with
  | Ok files => NoDup ids ∧ files ≡ₚ sql
                ∧ StronglySorted (λ f g, ord_le (file_key f) (file_key g)) files
  | Err _ => ¬ NoDup ids
  | Panic _ => False
  end.
Proof.
  intros Hdir sql ids. unfold collectFiles. rewrite Hdir.
  pose proof (collect_spec entries ∅) as Hc. cbn zeta in Hc.
  set (fl := List.filter _ entries) in *.
  replace (map (λ e, migrationID (Name e)) fl) with (map migrationID sql) in Hc
    by (unfold sql; apply map_map).
  fold ids in Hc.
  assert (Forall (λ id, (∅ : gmap gostring gostring) !! id = None) ids) as Hemp.
  { apply Forall_forall. intros. apply lookup_empty. }
  destruct (collect entries ∅) as [files|e|s]; cbn; [|tauto|done].
  destruct Hc as (-> & Hn & _). split; [done|].
  assert (map (λ e, file_key (Name e)) fl = map file_key sql) as ->.
  { unfold sql. by rewrite map_map. }
  assert (∀ l : list gostring, map snd (map file_key l) = l) as Hsnd.
  { intros l. rewrite map_map. apply map_id. }
  split.
  - rewrite sort_Permutation. by rewrite Hsnd.
  - pose proof (sort_sorted (map file_key sql)) as Hs.
    assert (Forall (λ x, x = file_key x.2) (sort (map file_key sql))) as Hk.
    { rewrite sort_Permutation. apply Forall_forall. intros x Hx%list_elem_of_In%in_map_iff.
      by destruct Hx as (f & <- & _). }
    revert Hs Hk. generalize (sort (map file_key sql)). intros l Hs.
    induction Hs as [|x l Hs IH Hx]; cbn; [constructor|].
    intros [Hxk Hk]%Forall_cons. constructor; [by apply IH|].
    apply Forall_forall. intros f Hf%list_elem_of_In%in_map_iff.
    destruct Hf as (y & <- & Hy%list_elem_of_In).
    rewrite Forall_forall in Hx, Hk. rewrite <-Hxk, <-(Hk y Hy). by apply Hx.
Qed.

(** idempotence.  With a database that keeps its promises, a run that
    follows a successful one over the same files begins no transaction, whether
    or not its own queries succeed. *)
Theorem Run_idempotent (rows : D → gmap gostring gostring) d t d' d2 :
  DBLaws m rows →
  Run path_Join m d = (Ok (), t, d') → rows d2 = rows d' →
  txs (trace (Run path_Join m d2)) = [].
Proof.
  intros Hdb Hrun1 Hd2.
  destruct (valid_table (table m)) eqn:Hv.
  2:{ destruct (Run_invalid path_Join m d Hv) as [e He]. congruence. }
  pose proof (Run_valid path_Join m d Hv) as Hr1. pose proof (Run_valid path_Join m d2 Hv) as Hr2.
  pose proof (run_body_spec path_Join m d) as Hb1. pose proof (run_body_spec path_Join m d2) as Hb2.
  destruct (run_body path_Join m d) as [[r0 t0] d0]. destruct Hr1 as (t1 & Heq & _).
  rewrite Heq in Hrun1. injection Hrun1 as Hr0 _ ->.
  assert (r0 = Ok ()) as -> by (destruct r0 as [[]| |]; done).
  destruct Hb1 as [[_ ?]|(files & applied & ? & e1 & e2 & ? & Hf & _ & Hload & Happly & _)]; [done|].
  destruct (loadApplied_rows m rows Hdb _ _ _ _ Hload) as [-> Hrows]. rewrite <-Hrows in Happly.
  pose proof (applyFiles_complete path_Join m rows Hdb _ _ _ _ Happly) as Hcomplete.
  destruct (run_body path_Join m d2) as [[r2 t2] d3] eqn:Hbody. destruct Hr2 as (t3 & -> & Ht3).
  unfold trace. cbn [fst snd]. rewrite txs_app, Ht3, app_nil_r.
  destruct Hb2 as [[? _]|(files' & applied' & ? & e3 & e4 & t4 & Hf' & -> & Hload' & Happly' & ->)]; [done|].
  rewrite Hf in Hf'. injection Hf' as <-.
  destruct (loadApplied_rows m rows Hdb _ _ _ _ Hload') as [-> _].
  rewrite (ensureTable_rows m rows Hdb) in Happly'. rewrite Hd2 in Happly'.
  pose proof (applyFiles_spec path_Join m files (rows d') e4) as Hh. rewrite Happly' in Hh.
  assert (pending (rows d') files = []) as Hnone.
  { unfold pending. clear -Hcomplete. induction files as [|f files IH]; [done|]. cbn [List.filter].
    assert (is_pending (rows d') f = false) as ->.
    { unfold is_pending. destruct (decide (migrationID f = [])) as [Hid|Hid];
        [by rewrite bool_decide_eq_false_2 by tauto|].
      destruct (Hcomplete f ltac:(left) Hid) as [h ->]. apply andb_false_r. }
    apply IH. intros g Hg. apply Hcomplete. by right. }
  destruct Hh as (ran & rest & last & Hp & -> & Hr). rewrite Hnone in Hp.
  symmetry in Hp. apply app_nil in Hp as [-> ->]. cbn.
  destruct r2 as [|e|s]; [by destruct Hr|..];
    by destruct Hr as [->|(f & rest' & ? & _)].
Qed.

(** no injection through the table name.  A run that does anything at all
    interpolates an ASCII identifier of at most 64 bytes into its statements;
    any other name is refused before the database is touched. *)
Theorem Run_table_name d :
  trace (Run path_Join m d) ≠ [] ∨ world (Run path_Join m d) ≠ d →
  (0 < length (table m) ≤ 64)%nat
  ∧ Forall (λ c, ident_start c = true ∨ is_digit c = true) (table m)
  ∧ ∃ c, head (table m) = Some c ∧ ident_start c = true.
Proof.
  intros Hrun. destruct (valid_table (table m)) eqn:Hv.
  2:{ destruct (Run_invalid path_Join m d Hv) as [e He]. rewrite He in Hrun. by destruct Hrun. }
  unfold valid_table, tableNameMaxLen in Hv.
  rewrite !andb_true_iff, !bool_decide_eq_true in Hv. destruct Hv as [[Hne Hlen] Hre].
  destruct (table m) as [|c s]; [done|]. simpl in Hre, Hlen. apply andb_prop in Hre as [Hc Hs].
  split_and!; [simpl; lia|simpl; lia| |by exists c].
  apply Forall_cons. split; [by left|]. apply Forall_forall. intros x Hx%list_elem_of_In.
  rewrite forallb_forall in Hs. by apply orb_prop, Hs.
Qed.

(** line endings are not drift.  A file stored with carriage returns by one
    host has the hash of the same file without them: an applied migration whose
    recorded hash is that of the line-feed version is skipped silently. *)
Theorem applyFile_line_endings f applied content d :
  Forall (λ c, code c ≠ 13) content →
  migrationID f ≠ [] →
  ReadFile (fsys m) (path_Join (dir m) f)
    = Ok (concat (map (λ c, if code c =? 10 then [chr 13; chr 10] else [c]) content)) →
  applied !! migrationID f = Some (content_hash content) →
  applyFile path_Join m f applied d
  = (logf m Debug "skip migration %s (already applied)" [migrationID f];; mret (Ok ())) d.
Proof.
  intros Hcr Hid Hread Happ. unfold applyFile. rewrite decide_False by done. rewrite Hread, Happ.
  assert (crlf_to_lf (concat (map (λ c, if code c =? 10 then [chr 13; chr 10] else [c]) content))
          = content) as ->.
  { clear Hread Happ. induction Hcr as [|c s Hc Hs IH]; [done|]. cbn [map concat].
    destruct (Z.eqb_spec (code c) 10) as [H10|H10].
    - assert (c = chr 10) as -> by (by rewrite <-H10, chr_code).
      cbn. f_equal. exact IH.
    - destruct (concat _) as [|x l] eqn:Hl; simpl in IH |- *.
      + by rewrite <-IH.
      + rewrite (proj2 (Z.eqb_neq (code c) 13) Hc). cbn [andb]. by rewrite IH. }
  rewrite (bool_decide_eq_false_2 (content_hash content ≠ content_hash content)) by tauto.
  by rewrite andb_false_r.
Qed.
End properties.

(** ** Witnesses *)

(** A database that keeps a list of rows and the row of the open transaction.
    It panics on the statement [BOOM] and refuses [BAD]. *)
Definition toy_state : Type := list (gostring * gostring) * option (gostring * gostring).
Definition toy_TxExec (q : gostring) (args : list gostring) (d : toy_state)
    : result error () * toy_state :=
  match args with
  | [id; h] => (Ok (), (d.1, Some (id, h)))
  | _ => if decide (q = str "BOOM") then (Panic "driver", d)
         else if decide (q = str "BAD") then (Err (errors_new "syntax"), d) else (Ok (), d)
  end.
Definition toy_db : DB toy_state :=
  {| ExecContext := λ _ d, (Ok (), d);
     QueryContext := λ _ d, (Ok (map Ok d.1, None), d);
     BeginTx := λ d, (Ok (), (d.1, None));
     TxExec := toy_TxExec;
     Commit := λ d, (Ok (), (d.1 ++ option_list d.2, None));
     Rollback := λ d, (Ok (), (d.1, None)) |}.
Definition toy_fs : FS :=
  {| ReadDir := λ _, Ok [ {| Name := str "readme.md"; IsDir := false |};
                          {| Name := str "10-b.sql"; IsDir := false |};
                          {| Name := str "2-a.sql"; IsDir := false |} ];
     ReadFile := λ name, Ok (str "SQL " ++ name ++ [chr 13; chr 10]) |}.
Definition toy_m : Migrater toy_state := New (λ _, toy_fs) toy_db [].
Definition toy_join (d f : gostring) : gostring := f.
Definition toy_rows (d : toy_state) : gmap gostring gostring :=
  foldl (λ R p, <[p.1 := p.2]> R) ∅ d.1.

Lemma scan_rows_ok l R :
  scan_rows (map Ok l) R = Ok (foldl (λ R p, <[p.1 := p.2]> R) R l).
Proof. revert R. induction l as [|[id h] l IH]; intros R; simpl; [done|]. apply IH. Qed.

Lemma toy_laws : DBLaws toy_m toy_rows.
Proof.
  split; try done.
  - intros d rs applied [= <-]. rewrite scan_rows_ok. by intros [= <-].
  - intros d d1 d2 d3 d4 content id h. simpl. intros [= <-].
    unfold toy_TxExec. repeat case_decide; try done. intros [= <-] [= <-] [= <-].
    unfold toy_rows. cbn. by rewrite foldl_app.
Qed.

Lemma collectFiles_spec_witness :
  collectFiles toy_m = Ok [str "2-a.sql"; str "10-b.sql"]
  ∧ match collectFiles toy_m with
    | Ok files => NoDup [str "10"; str "2"] ∧ files ≡ₚ [str "10-b.sql"; str "2-a.sql"]
                  ∧ StronglySorted (λ f g, ord_le (file_key f) (file_key g)) files
    | Err _ => ¬ NoDup [str "10"; str "2"]
    | Panic _ => False
    end.
Proof.
  split; [vm_compute; reflexivity|].
  exact (collectFiles_spec toy_m [ {| Name := str "readme.md"; IsDir := false |};
    {| Name := str "10-b.sql"; IsDir := false |}; {| Name := str "2-a.sql"; IsDir := false |} ] eq_refl).
Defined.

Definition toy_end : toy_state := world (Run toy_join toy_m ([], None)).

Lemma Run_idempotent_witness :
  map fst toy_end.1 = [str "2"; str "10"] ∧ txs (trace (Run toy_join toy_m toy_end)) = [].
Proof.
  assert (Run toy_join toy_m ([], None) = (Ok (), trace (Run toy_join toy_m ([], None)), toy_end)) as Hrun
    by (vm_compute; reflexivity).
  split; [vm_compute; reflexivity|].
  exact (Run_idempotent toy_join toy_m toy_rows ([], None) _ toy_end toy_end toy_laws Hrun eq_refl).
Defined.

Lemma Run_table_name_witness :
  (0 < length DefaultTableName ≤ 64)%nat
  ∧ Forall (λ c, ident_start c = true ∨ is_digit c = true) DefaultTableName
  ∧ ∃ c, head DefaultTableName = Some c ∧ ident_start c = true.
Proof.
  apply (Run_table_name toy_join toy_m ([], None)). left. vm_compute. discriminate.
Defined.

Lemma applyFile_line_endings_witness :
  applyFile toy_join toy_m (str "7-x.sql") {[ str "7" := content_hash (str "SQL 7-x.sql" ++ [chr 10]) ]} ([], None)
  = (Ok (), [], ([], None)).
Proof.
  apply (applyFile_line_endings toy_join toy_m (str "7-x.sql") _ (str "SQL 7-x.sql" ++ [chr 10]) ([], None));
    [repeat constructor; discriminate|discriminate|reflexivity|vm_compute; reflexivity].
Defined.

(** A driver that panics leaves its transaction neither committed nor rolled
    back. *)
Definition boom_fs : FS :=
  {| ReadDir := λ _, Ok [ {| Name := str "1.sql"; IsDir := false |} ];
     ReadFile := λ name, Ok (str "BOOM") |}.
Example panic_leaves_transaction_open :
  let m := New (λ _, boom_fs) toy_db [] in
  let '(r, t, _) := Run toy_join m ([], None) in
  is_Ok r = false ∧ txs t = [EBegin true; ETxExec (str "BOOM") [] false].
Proof. vm_compute. split; reflexivity. Qed.
