(* ===== verification/MigraterReplicas.v ===== *)
(** * migrater: replicas that run at the same time and may be killed
    (migrater/migrater.go)

    Every instance of a deployment calls [Run] when it starts, all on the same
    database; an instance may die between any two of its calls.  Here any number of
    runs, each with the events that [Run] of Migrater.v produces, are interleaved
    event by event over the transactions that have become durable.  What the
    database contributes is atomic transactions and the primary key of the state
    table. *)
From Stdlib Require Import Ascii String.
From S2P Require Export Prelude GoStrings Errors Migrater.
Local Open Scope Z_scope.
#[local] Arguments txs : simpl never.

(** ** Lists of files *)

Lemma filter_dropped (P : list gostring) k :
  NoDup (map migrationID P) →
  List.filter (λ f, bool_decide (migrationID f ∉ map migrationID (take k P))) P = drop k P.
Proof.
  revert k. induction P as [|f P IH]; intros [|k] Hn; [done|done| |].
  - apply forallb_filter_id, forallb_forall. intros g _.
    apply bool_decide_eq_true, not_elem_of_nil.
  - cbn [take drop map List.filter]. apply NoDup_cons in Hn as [Hf Hn].
    rewrite bool_decide_eq_false_2 by (intros H; apply H; left).
    rewrite <-(IH k Hn). apply filter_ext_in. intros g Hg%list_elem_of_In.
    apply bool_decide_ext. rewrite not_elem_of_cons. split; [tauto|]. intros Hk. split; [|done].
    intros Heq. apply Hf. rewrite <-Heq. by apply list_elem_of_fmap_2.
Qed.

Lemma filter_perm {A} (p : A → bool) (l l' : list A) :
  l ≡ₚ l' → List.filter p l ≡ₚ List.filter p l'.
Proof.
  induction 1 as [|x l l' _ IH|x y l|l l2 l3 _ IH1 _ IH2]; cbn; [done|..].
  - by destruct (p x); [constructor|].
  - destruct (p x), (p y); [apply perm_swap|done..].
  - by rewrite IH1.
Qed.

Lemma NoDup_map_filter {A B} (p : A → bool) (q : B → bool) (f : A → B) (l : list A) :
  (∀ x, p x = true → q (f x) = true) →
  NoDup (List.filter q (map f l)) → NoDup (map f (List.filter p l)).
Proof.
  intros Hpq. induction l as [|x l IH]; [done|]. cbn [List.filter map].
  pose proof (Hpq x) as Hx. destruct (p x); [rewrite Hx by done|destruct (q (f x)); [|done]];
    intros [Hnin Hn]%NoDup_cons; [|by apply IH].
  cbn [map]. apply NoDup_cons. split; [|by apply IH].
  intros (y & Hy & Hin%list_elem_of_In%filter_In)%list_elem_of_fmap. apply Hnin.
  apply list_elem_of_In, filter_In. split; [|by apply Hx]. rewrite Hy. apply in_map, Hin.
Qed.

(** The ids of the migrations that a directory makes pending are all different. *)
Lemma pending_NoDup {D} (m : Migrater D) files R :
  collectFiles m = Ok files → NoDup (map migrationID (pending R files)).
Proof.
  intros Hc. destruct (ReadDir (fsys m) (dir m)) as [entries|e|s] eqn:Hdir;
    [|unfold collectFiles in Hc; by rewrite Hdir in Hc..].
  pose proof (collectFiles_spec m entries Hdir) as Hs. cbn zeta in Hs. rewrite Hc in Hs.
  destruct Hs as (Hn & Hperm & _).
  apply NoDup_map_filter with (λ id, bool_decide (id ≠ [])).
  { intros f Hf. by apply andb_prop in Hf as [? _]. }
  assert (map migrationID files ≡ₚ map migrationID
    (map Name (List.filter (λ e, negb (IsDir e || negb (HasSuffix (Name e) (str ".sql")))) entries))) as Hm.
  { by apply fmap_Permutation. }
  eapply NoDup_Permutation_proper; [by apply filter_perm|done].
Qed.

(** ** The database and its clients *)

(** A transaction: its statements with their arguments. *)
Definition tx : Type := list (gostring * list gostring).

(** The open transaction after one more event of its client. *)
Definition tx_event (open : option tx) (e : event) : option tx :=
  match e with
  | EBegin ok => if ok then Some [] else None
  | ETxExec q args ok => if ok then (λ st, st ++ [(q, args)]) <$> open else open
  | ECommit _ | ERollback => None
  | _ => open
  end.

(** A client: its open transaction, the events it has still to go through and
    the result they end in. *)
Record client := { c_open : option tx; c_left : list event; c_result : result error () }.
(** The durable transactions in the order of their commits, and the clients. *)
Record state := { durable : list tx; clients : list client }.

Section replicas.
Context {D : Type}.
Variable path_Join : gostring → gostring → gostring.
Variable m : Migrater D.
(** The state table at first. *)
Variable R0 : gmap gostring gostring.

(** The state table after durable transactions. *)
Definition record_stmt (R : gmap gostring gostring) (s : gostring * list gostring)
    : gmap gostring gostring :=
  match s with
  | (q, [id; h]) => if decide (q = insert_query m) then <[id := h]> R else R
  | _ => R
  end.
Definition recorded (S : list tx) : gmap gostring gostring := foldl (foldl record_stmt) R0 S.

(** The primary key: a transaction that inserts an id that is there. *)
Definition conflicts (R : gmap gostring gostring) (st : tx) : bool :=
  existsb (λ s, match s with
                | (q, [id; _]) => bool_decide (q = insert_query m) && bool_decide (is_Some (R !! id))
                | _ => false
                end) st.

(** A run starts, in the world [d] it will see, at the moment it loads the
    state table; a client goes on, and if it commits, [kept] tells whether the
    transaction becomes durable; a client is killed. *)
Inductive move :=
  | Start (d : D)
  | Next (i : nat) (kept : bool)
  | Kill (i : nat).

(** A commit that reports success is kept, one that reports a failure may be;
    none is kept against the primary key.  What a run loads is what is durable. *)
Definition exec (mv : move) (s : state) : option state :=
  match mv with
  | Start d =>
      let '(r, t, _) := Run path_Join m d in
      let s' := {| durable := durable s;
                   clients := clients s ++ [{| c_open := None; c_left := t; c_result := r |}] |} in
      match loadApplied m (world (ensureTable m d)) with
      | (Ok applied, _, _) => if decide (applied = recorded (durable s)) then Some s' else None
      | _ => Some s'
      end
  | Next i kept =>
      c ← clients s !! i;
      match c_left c with
      | [] => None
      | e :: t =>
          let c' := {| c_open := tx_event (c_open c) e; c_left := t; c_result := c_result c |} in
          let go S := Some {| durable := S; clients := <[i := c']> (clients s) |} in
          match e, c_open c with
          | ECommit ok, Some st =>
              if (kept : bool) then
                if conflicts (recorded (durable s)) st then None else go (durable s ++ [st])
              else if (ok : bool) then None else go (durable s)
          | _, _ => go (durable s)
          end
      end
  | Kill i =>
      Some {| durable := durable s; clients := delete i (clients s) |}
  end.

Definition init : state := {| durable := []; clients := [] |}.
Fixpoint run (sched : list move) (s : state) : option state :=
  match sched with
  | [] => Some s
  | mv :: sched => exec mv s ≫= run sched
  end.

(** ** What is pending *)

(** The transaction of a migration. *)
Definition tx_of (f : gostring) : tx :=
  [(content_of path_Join m f, []);
   (insert_query m, [migrationID f; content_hash (content_of path_Join m f)])].

Lemma recorded_ran fs :
  recorded (map tx_of fs)
  = foldl (λ R f, <[migrationID f := content_hash (content_of path_Join m f)]> R) R0 fs.
Proof using Type.
  unfold recorded. generalize R0. induction fs as [|f fs IH]; intros R; [done|]. cbn [map foldl].
  rewrite IH. f_equal. unfold tx_of. cbn [foldl record_stmt]. by rewrite decide_True.
Qed.

Lemma recorded_Some fs k :
  is_Some (recorded (map tx_of fs) !! k) ↔ k ∈ map migrationID fs ∨ is_Some (R0 !! k).
Proof using Type.
  rewrite recorded_ran.
  rewrite (foldl_insert_lookup (λ f, (migrationID f, content_hash (content_of path_Join m f)))).
  cbn. rewrite list_elem_of_fmap. naive_solver.
Qed.

Lemma pending_ran fs files :
  pending (recorded (map tx_of fs)) files
  = List.filter (λ f, bool_decide (migrationID f ∉ map migrationID fs)) (pending R0 files).
Proof using Type.
  unfold pending. induction files as [|f files IH]; [done|].
  cbn [List.filter]. rewrite IH. unfold is_pending.
  destruct (decide (migrationID f = [])) as [Hid|Hid];
    [by rewrite (bool_decide_eq_false_2 (migrationID f ≠ [])) by tauto|].
  rewrite (bool_decide_eq_true_2 (migrationID f ≠ [])) by done. cbn [andb].
  assert (recorded (map tx_of fs) !! migrationID f = None
    ↔ migrationID f ∉ map migrationID fs ∧ R0 !! migrationID f = None) as Hiff.
  { rewrite !eq_None_not_Some, recorded_Some. tauto. }
  rewrite (bool_decide_ext _ _ Hiff).
  destruct (decide (R0 !! migrationID f = None)) as [HR|HR].
  - rewrite (bool_decide_eq_true_2 (R0 !! _ = None)) by done. cbn [List.filter].
    by rewrite (bool_decide_ext (migrationID f ∉ _ ∧ _) (migrationID f ∉ map migrationID fs)) by tauto.
  - by rewrite !bool_decide_eq_false_2 by tauto.
Qed.

(** ** Where a client is *)

Section pending.
(** The migrations that were pending at first. *)
Variable P : list gostring.

(** The transactions that remain from the [j]-th pending migration on: committed
    ones, all of them when the run succeeds, and else at most one that does not
    succeed after the first few. *)
Definition remaining (j : nat) (t : list event) (ok : bool) : Prop :=
  ∃ ran rest last, drop j P = ran ++ rest ∧ t = concat (map (committed path_Join m) ran) ++ last
    ∧ if ok then rest = [] ∧ last = []
      else last = [] ∨ ∃ f rest', rest = f :: rest' ∧ panicked path_Join m f last.

Definition inner (e : event) : bool :=
  match e with EBegin _ | ETxExec _ _ _ => true | _ => false end.

(** [past] is what the client has done of the transaction it is in. *)
Definition client_ok (k : nat) (c : client) : Prop :=
  ∃ j past, (j ≤ k)%nat ∧ forallb inner past = true
    ∧ c_open c = foldl tx_event None past
    ∧ remaining j (past ++ txs (c_left c)) (is_Ok (c_result c)).

Lemma client_ok_mono k k' c : (k ≤ k')%nat → client_ok k c → client_ok k' c.
Proof using Type. intros Hk (j & past & Hj & H). exists j, past. split; [lia|done]. Qed.

Lemma remaining_nil j : remaining j [] false.
Proof using Type. exists [], (drop j P), []. split_and!; [done..|by left]. Qed.

(** Runs along a list of known events up to the one after [p]. *)
Ltac split_events :=
  repeat match goal with
  | H : ?p ++ _ :: _ = _ |- _ => is_var p; destruct p; cbn in *; simplify_eq; try done
  | H : _ = ?p ++ _ :: _ |- _ => is_var p; destruct p; cbn in *; simplify_eq; try done
  end.

(** The event that ends a transaction, and what the transaction is then. *)
Lemma remaining_end j past e rest ok :
  remaining j (past ++ e :: rest) ok → forallb inner past = true → inner e = false →
  (∃ f, P !! j = Some f ∧ foldl tx_event None past = Some (tx_of f)
        ∧ (e = ECommit true ∧ remaining (S j) rest ok ∨ e = ECommit false ∧ rest = [] ∧ ok = false))
  ∨ e = ERollback ∧ rest = [] ∧ ok = false.
Proof using Type.
  intros (ran & rest' & last & HP & Ht & Hend) Hpast He.
  destruct ran as [|f ran]; cbn in HP, Ht.
  - destruct ok; [destruct Hend as [_ ->]; by destruct past|].
    destruct Hend as [->|(f & rest'' & -> & Hf)]; [by destruct past|].
    assert (P !! j = Some f) as Hj by (by rewrite <-(Nat.add_0_r j), <-lookup_drop, HP).
    assert (panicked path_Join m f (past ++ e :: rest)) as Hp by (by rewrite Ht).
    clear -Hp Hpast He Hj. remember (past ++ e :: rest) as t eqn:Ht.
    destruct Hp as [| |t [| | |]]; split_events; eauto 10.
  - assert (P !! j = Some f) as Hj by (by rewrite <-(Nat.add_0_r j), <-lookup_drop, HP).
    unfold committed in Ht at 1.
    split_events. left. exists f. split_and!; [done..|]. left. split; [done|].
    exists ran, rest', last. split; [|done].
    rewrite <-Nat.add_1_r, <-drop_drop, HP. done.
Qed.

(** ** The invariant *)

(** A client goes on inside its transaction, or outside of any. *)
Lemma client_ok_inner k o e t r :
  inner e = true ∨ is_tx e = false →
  client_ok k {| c_open := o; c_left := e :: t; c_result := r |} →
  client_ok k {| c_open := tx_event o e; c_left := t; c_result := r |}.
Proof using Type.
  intros He (j & past & Hj & Hpast & Ho & Hrem). cbn in *. subst o. rewrite txs_cons in Hrem.
  destruct (is_tx e) eqn:Htx.
  - destruct He as [He|]; [|done]. exists j, (past ++ [e]). cbn.
    rewrite forallb_app, foldl_app, <-app_assoc, Hpast. cbn. rewrite He. by split_and!.
  - exists j, past. cbn. split_and!; try done. by destruct e.
Qed.

Lemma conflicts_tx_of (R : gmap gostring gostring) f :
  conflicts R (tx_of f) = bool_decide (is_Some (R !! migrationID f)).
Proof using Type.
  unfold tx_of, conflicts. cbn [existsb orb].
  rewrite (bool_decide_eq_true_2 (insert_query m = insert_query m)) by done. apply orb_false_r.
Qed.

(** Who commits without a conflict commits what is next. *)
Lemma commit_is_next k j f :
  (j ≤ k)%nat → P !! j = Some f →
  conflicts (recorded (map tx_of (take k P))) (tx_of f) = false → j = k.
Proof using Type.
  intros Hj Hf. rewrite conflicts_tx_of, bool_decide_eq_false, recorded_Some. intros Hno.
  destruct (decide (j = k)) as [|Hne]; [done|]. destruct Hno. left.
  apply list_elem_of_fmap. exists f. split; [done|].
  apply list_elem_of_lookup. exists j. by rewrite lookup_take_lt by lia.
Qed.

Lemma client_ok_ended k j t r :
  (j ≤ k)%nat → remaining j (txs t) (is_Ok r) →
  client_ok k {| c_open := None; c_left := t; c_result := r |}.
Proof using Type. intros Hj Hr. by exists j, []. Qed.

Lemma client_ok_failed k t r :
  txs t = [] → is_Ok r = false → client_ok k {| c_open := None; c_left := t; c_result := r |}.
Proof using Type.
  intros Ht Hr. apply client_ok_ended with 0%nat; [lia|]. rewrite Ht, Hr. apply remaining_nil.
Qed.

Definition clients_ok (k : nat) (cs : list client) : Prop :=
  ∀ i c, cs !! i = Some c → client_ok k c.

Lemma clients_ok_insert k k' cs i c :
  (k ≤ k')%nat → clients_ok k cs → client_ok k' c → clients_ok k' (<[i := c]> cs).
Proof using Type.
  intros Hk Hcs Hc j d [(<- & <- & _)|(_ & Hd)]%list_lookup_insert_Some; [done|].
  eapply client_ok_mono; [exact Hk|by eapply Hcs].
Qed.

Definition replicas_inv (s : state) : Prop :=
  ∃ k, (k ≤ length P)%nat ∧ durable s = map tx_of (take k P) ∧ clients_ok k (clients s).

Lemma inv_Next s i kept s' :
  replicas_inv s → exec (Next i kept) s = Some s' → replicas_inv s'.
Proof using Type.
  intros (k & Hk & Hd & Hc). cbn. intros ([o t r] & Hi & He)%bind_Some. cbn in He.
  destruct t as [|e t]; [done|]. pose proof (Hc i _ Hi) as Hci.
  assert (∀ c', client_ok k c' →
    replicas_inv {| durable := durable s; clients := <[i := c']> (clients s) |}) as Hstay.
  { intros c' Hc'. exists k. split_and!; [done..|]. by apply clients_ok_insert with k. }
  destruct (inner e || negb (is_tx e)) eqn:Hin.
  { assert (He' : inner e = true ∨ is_tx e = false) by (by destruct e; auto).
    destruct e; try done; injection He as <-; apply Hstay;
      by apply (client_ok_inner k o _ t r He' Hci). }
  destruct Hci as (j & past & Hj & Hpast & Ho & Hrem). cbn in Ho, Hrem.
  assert (is_tx e = true ∧ inner e = false) as [Htx Hinner] by (by destruct e).
  rewrite txs_cons, Htx in Hrem.
  destruct (remaining_end _ _ _ _ _ Hrem Hpast Hinner)
    as [(f & Hf & Hst & Hcase)|(-> & Hrest & Hr)].
  2:{ injection He as <-. by apply Hstay, client_ok_failed. }
  rewrite Ho, Hst in He.
  assert (∃ ok, e = ECommit ok ∧ (ok = false → txs t = [] ∧ is_Ok r = false)
          ∧ (ok = true → remaining (S j) (txs t) (is_Ok r))) as (ok & -> & Hfail & Hsucc).
  { destruct Hcase as [[-> ?]|(-> & ? & ?)]; eexists; split_and!; done. }
  destruct kept.
  - destruct (conflicts _ _) eqn:Hno; [done|]. injection He as <-. rewrite Hd in Hno.
    pose proof (commit_is_next k j f Hj Hf Hno) as ->. exists (S k). cbn. split_and!.
    + by apply lookup_lt_Some in Hf.
    + by rewrite Hd, (take_S_r _ _ _ Hf), map_app.
    + apply clients_ok_insert with k; [lia|done|].
      destruct ok; [apply client_ok_ended with (S k); auto|by apply client_ok_failed; apply Hfail].
  - destruct ok; [done|]. injection He as <-. by apply Hstay, client_ok_failed; apply Hfail.
Qed.

Lemma inv_Kill s i s' : replicas_inv s → exec (Kill i) s = Some s' → replicas_inv s'.
Proof using Type.
  intros (k & Hk & Hd & Hc) [= <-]. exists k. split_and!; [done..|]. cbn. intros j c Hj.
  destruct (decide (j < i)%nat).
  - rewrite list_lookup_delete_lt in Hj by done. by eapply Hc.
  - rewrite list_lookup_delete_ge in Hj by lia. by eapply Hc.
Qed.

End pending.


Section runs.
Variable files : list gostring.
Hypothesis Hfiles : collectFiles m = Ok files.
#[local] Abbreviation P := (pending R0 files).

Lemma inv_Start d s s' : replicas_inv P s → exec (Start d) s = Some s' → replicas_inv P s'.
Proof using Hfiles.
  intros (k & Hk & Hd & Hc). cbn. pose proof (Run_history path_Join m d) as Hrun.
  destruct (Run path_Join m d) as [[r t] d'].
  assert (∀ S0, client_ok P k {| c_open := None; c_left := t; c_result := r |} →
    Some {| durable := durable s; clients := clients s ++ [{| c_open := None; c_left := t; c_result := r |}] |}
    = Some S0 → replicas_inv P S0) as Hadd.
  { intros S0 Hc' [= <-]. exists k. split_and!; [done..|]. cbn.
    intros i c [Hi|[_ Hi]]%lookup_app_Some; [by eapply Hc|].
    by apply list_lookup_singleton_Some in Hi as [_ <-]. }
  destruct Hrun as (_ & [[Ht Hr]|(files' & applied & t0 & d1 & r0 & Hf & Hload & Hh & ->)]).
  - assert (client_ok P k {| c_open := None; c_left := t; c_result := r |}) as Hc'.
    { apply client_ok_failed; [done|]. by destruct r as [[]| |]. }
    destruct (loadApplied _ _) as [[[]?]?]; [case_decide; [|done]|..]; by apply Hadd.
  - rewrite Hload. case_decide as Happ; [|done]. apply Hadd.
    rewrite Hfiles in Hf. injection Hf as <-.
    rewrite Hd in Happ. subst applied.
    apply client_ok_ended with k; [done|].
    destruct Hh as (ran & rest & last & HP & Ht & Hend).
    rewrite pending_ran, filter_dropped in HP by by eapply pending_NoDup.
    exists ran, rest, last. rewrite Ht. split_and!; [done..|].
    destruct r0 as [[]|e|e]; cbn; [done|..];
      (destruct Hend as [->|(f & rest' & -> & Hf)]; [by left|right; exists f, rest'; split; [done|]]);
      first [exact Hf|by apply panicked_other].
Qed.

Lemma replicas_run sched s s' : replicas_inv P s → run sched s = Some s' → replicas_inv P s'.
Proof using Hfiles.
  revert s. induction sched as [|mv sched IH]; intros s Hinv; simpl; [by intros [= <-]|].
  intros (s1 & H1 & Hrun)%bind_Some. eapply IH; [|exact Hrun].
  destruct mv; [by eapply inv_Start|by eapply inv_Next|by eapply inv_Kill].
Qed.

Lemma replicas_init : replicas_inv P init.
Proof using Type. exists 0%nat. split_and!; [lia|done|]. by intros i c Hi. Qed.

(** C8: every migration exactly once, across replicas and crashes.  Over a
    database with atomic transactions and a primary key, and with the same
    directory, let any number of runs be started at any time, interleave at every
    call, fail, panic or be killed, also while a commit is under way.  What becomes
    durable is the first few of the migrations that were pending at first, in the
    order of the files, each in one transaction with its row in the state table,
    none skipped and none applied twice; and once one of the runs has ended with
    success, it is all of them. *)
Theorem replicas_exactly_once sched s :
  run sched init = Some s →
  (∃ k, durable s = map tx_of (take k P))
  ∧ ∀ i c, clients s !! i = Some c → c_left c = [] → c_result c = Ok () →
      durable s = map tx_of P.
Proof using Hfiles.
  intros Hrun. destruct (replicas_run _ _ _ replicas_init Hrun) as (k & Hk & Hd & Hc).
  split; [by exists k|]. intros i c Hi Hleft Hres.
  destruct (Hc i c Hi) as (j & past & Hj & Hpast & _ & ran & rest & last & HP & Ht & Hend).
  rewrite Hleft, Hres in *. destruct Hend as [-> ->]. rewrite txs_nil, !app_nil_r in *. subst past.
  destruct ran as [|f ran]; [|done].
  apply (f_equal length) in HP. rewrite length_drop in HP. simpl in HP.
  rewrite Hd, take_ge by lia. done.
Qed.
End runs.
End replicas.

(** ** Witness *)

(** The toy database, in a world where commits may be refused. *)
Definition lift {A} (f : toy_state → A * toy_state) : toy_state * bool → A * (toy_state * bool) :=
  λ '(d, refuses), let '(r, d) := f d in (r, (d, refuses)).
Definition replica_db : DB (toy_state * bool) :=
  {| ExecContext := λ q, lift (ExecContext toy_db q);
     QueryContext := λ q, lift (QueryContext toy_db q);
     BeginTx := lift (BeginTx toy_db);
     TxExec := λ q args, lift (TxExec toy_db q args);
     Commit := λ d, if d.2 : bool then (Err (errors_new "duplicate key"), d) else lift (Commit toy_db) d;
     Rollback := lift (Rollback toy_db) |}.
Definition replica_m : Migrater (toy_state * bool) := New (λ _, toy_fs) replica_db [].

(** Two replicas start on an empty state table.  The second works on the first
    migration until its commit is refused, while the first commits both. *)
Definition replica_world (refuses : bool) : toy_state * bool := (([], None), refuses).
Definition replica_sched : list move :=
  [Start (replica_world false); Start (replica_world true)]
  ++ concat (replicate 7 [Next 0 true; Next 1 true]) ++ [Next 0 true; Next 1 false]
  ++ replicate 7 (Next 0 true).
Definition replica_end : state :=
  default init (run toy_join replica_m ∅ replica_sched init).

Lemma replicas_exactly_once_witness :
  durable replica_end = map (tx_of toy_join replica_m) [str "2-a.sql"; str "10-b.sql"].
Proof.
  assert (collectFiles replica_m = Ok [str "2-a.sql"; str "10-b.sql"]) as Hfiles
    by (vm_compute; reflexivity).
  assert (run toy_join replica_m ∅ replica_sched init = Some replica_end) as Hrun
    by (vm_compute; reflexivity).
  destruct (replicas_exactly_once toy_join replica_m ∅ _ Hfiles _ _ Hrun) as [_ Hall].
  destruct (clients replica_end !! 0%nat) as [c|] eqn:Hc; [|vm_compute in Hc; discriminate].
  assert (c_left c = [] ∧ c_result c = Ok ()) as [Hl Hr].
  { vm_compute in Hc. injection Hc as <-. split; reflexivity. }
  rewrite (Hall 0%nat c Hc Hl Hr). vm_compute. reflexivity.
Defined.
