(* ===== verification/CronScheduler.v ===== *)
(** * crontab: the scheduler (crontab/crontab.go)

    The dispatching goroutine, the goroutines of the jobs it fires and any
    number of callers of [AddJob] and [Shutdown] interleave.  A step is what
    one of them does atomically: under the scheduler's lock, by one atomic
    operation, or by one channel operation.  Instants are minutes. *)
From Stdlib Require Import Ascii String.
From S2P Require Export Prelude CronSchedule.
Local Open Scope Z_scope.

(** ** State *)

(** [last]: the minute of the last fire ([None]: the zero time). *)
Record job := { spec : gostring; sched : schedule; running : bool; last_fired : option Z }.

(** A goroutine running [fire]. *)
Inductive phase :=
  | InFn                 (* j.fn(), which may return or panic at any time *)
  | InHandler            (* recovered, in onPanic *)
  | Clearing             (* about to clear the non-overlap flag *)
  | Finishing            (* about to call wg.Done *)
  | Finished.
#[export] Instance phase_eq_dec : EqDecision phase.
Proof. solve_decision. Defined.
Record flight := { f_job : nat; f_phase : phase }.

(** The dispatching goroutine: waiting in its [select], or inside [runDue]
    (holding the read lock) about to look at job [k]. *)
Inductive runner := Waiting | Dispatching (minute : Z) (k : nat) | Exited | Crashed.

(** A call of [Shutdown]. *)
Inductive shutdown_pc :=
  | SdCalled             (* about to enter once.Do *)
  | SdStopped            (* in the once body, has set stopped, not yet closed stop *)
  | SdDraining           (* in the final select *)
  | SdReturned (drained : bool).

Record state := {
  jobs : list job;
  stopped : bool;
  stop : bool;                 (* the stop channel is closed *)
  once : option bool;          (* once.Do: not entered, running, done *)
  wg : Z;
  run : runner;
  flights : list flight;
  shutdowns : list shutdown_pc;
  fired : list (nat * Z);      (* what has been dispatched: job, minute *)
}.

Inductive action :=
  | Tick (minute : Z)
  | Look
  | Stop
  | AddJob (text : gostring)
  | FnReturns (i : nat)
  | FnPanics (i : nat)
  | HandlerEnds (i : nat)
  | Clear (i : nat)
  | Done (i : nat)
  | CallShutdown
  | ShutdownStep (i : nat)
  | ShutdownTimeout (i : nat).

#[export] Instance action_eq_dec : EqDecision action.
Proof. solve_decision. Defined.

(** *** Updates *)
Definition set_run (r : runner) (s : state) : state :=
  {| jobs := jobs s; stopped := stopped s; stop := stop s; once := once s; wg := wg s; run := r;
     flights := flights s; shutdowns := shutdowns s; fired := fired s |}.
Definition set_jobs (j : list job) (s : state) : state :=
  {| jobs := j; stopped := stopped s; stop := stop s; once := once s; wg := wg s; run := run s;
     flights := flights s; shutdowns := shutdowns s; fired := fired s |}.
Definition set_flights (w : Z) (fs : list flight) (s : state) : state :=
  {| jobs := jobs s; stopped := stopped s; stop := stop s; once := once s; wg := w; run := run s;
     flights := fs; shutdowns := shutdowns s; fired := fired s |}.
Definition set_shutdown (st cl : bool) (o : option bool) (sds : list shutdown_pc) (s : state) : state :=
  {| jobs := jobs s; stopped := st; stop := cl; once := o; wg := wg s; run := run s;
     flights := flights s; shutdowns := sds; fired := fired s |}.

Definition dispatching (s : state) : bool :=
  match run s with Dispatching _ _ => true | _ => false end.

Section exec.
(** [WithOverlap] and the broken-down time of a minute in the location. *)
Variable overlap : bool.
Variable civil_of : Z → civil.

(** The body of the loop of [runDue] for the job at index [k].  The flag, the
    time, the counter and the new goroutine are one step: nobody else reads
    them while the read lock is held with [stopped] unset. *)
Definition look (minute : Z) (k : nat) (j : job) (s : state) : state :=
  let next := set_run (Dispatching minute (S k)) s in
  match match_ (sched j) (civil_of minute) with
  | Ok true =>
      if decide (last_fired j = Some minute) then next
      else if negb overlap && running j then next
      else
        {| jobs := <[k := {| spec := spec j; sched := sched j;
                             running := if overlap then running j else true;
                             last_fired := Some minute |}]> (jobs s);
           stopped := stopped s; stop := stop s; once := once s; wg := wg s + 1;
           run := Dispatching minute (S k);
           flights := flights s ++ [{| f_job := k; f_phase := InFn |}];
           shutdowns := shutdowns s; fired := fired s ++ [(k, minute)] |}
  | Ok false => next
  | _ => set_run Crashed s
  end.

(** What [AddJob] returns: the parser's error, [ErrClosed], or the new state. *)
Inductive add_error := ParseError (e : parse_error) | ErrClosed.
Definition add_job (text : gostring) (s : state) : result add_error state :=
  match parse text with
  | Ok sc =>
      if stopped s then Err ErrClosed
      else Ok (set_jobs (jobs s ++ [{| spec := text; sched := sc; running := false;
                                       last_fired := None |}]) s)
  | Err e => Err (ParseError e)
  | Panic p => Panic p
  end.
(** [MustAddJob] *)
Definition must_add_job (text : gostring) (s : state) : result add_error state :=
  match add_job text s with
  | Err _ => Panic "MustAddJob"
  | r => r
  end.

Definition move (i : nat) (from to : phase) (s : state) : option state :=
  f ← flights s !! i;
  if decide (f_phase f = from)
  then Some (set_flights (wg s) (<[i := {| f_job := f_job f; f_phase := to |}]> (flights s)) s)
  else None.

Definition exec (a : action) (s : state) : option state :=
  match a with
  | Tick minute =>
      match run s with
      | Waiting => Some (if stopped s then s else set_run (Dispatching minute 0) s)
      | _ => None
      end
  | Look =>
      match run s with
      | Dispatching minute k =>
          match jobs s !! k with
          | Some j => Some (look minute k j s)
          | None => Some (set_run Waiting s)
          end
      | _ => None
      end
  | Stop =>
      match run s with
      | Waiting => if stop s then Some (set_run Exited s) else None
      | _ => None
      end
  | AddJob text =>
      if dispatching s then None      (* the write lock is not available *)
      else match add_job text s with Ok s => Some s | _ => Some s end
  | FnReturns i => move i InFn Clearing s
  | FnPanics i => move i InFn InHandler s
  | HandlerEnds i => move i InHandler Clearing s
  | Clear i =>
      f ← flights s !! i;
      s ← move i Clearing Finishing s;
      Some (if overlap then s
            else set_jobs (alter (λ j, {| spec := spec j; sched := sched j; running := false;
                                          last_fired := last_fired j |}) (f_job f) (jobs s)) s)
  | Done i =>
      s ← move i Finishing Finished s;
      Some (set_flights (wg s - 1) (flights s) s)
  | CallShutdown =>
      Some (set_shutdown (stopped s) (stop s) (once s) (shutdowns s ++ [SdCalled]) s)
  | ShutdownStep i =>
      match shutdowns s !! i with
      | Some SdCalled =>
          match once s with
          | None =>
              if dispatching s then None
              else Some (set_shutdown true (stop s) (Some false) (<[i := SdStopped]> (shutdowns s)) s)
          | Some false => None           (* another call is in the once body *)
          | Some true =>
              Some (set_shutdown (stopped s) (stop s) (once s) (<[i := SdDraining]> (shutdowns s)) s)
          end
      | Some SdStopped =>
          Some (set_shutdown (stopped s) true (Some true) (<[i := SdDraining]> (shutdowns s)) s)
      | Some SdDraining =>
          if decide (wg s = 0)
          then Some (set_shutdown (stopped s) (stop s) (once s) (<[i := SdReturned true]> (shutdowns s)) s)
          else None
      | _ => None
      end
  | ShutdownTimeout i =>
      match shutdowns s !! i with
      | Some SdDraining =>
          Some (set_shutdown (stopped s) (stop s) (once s) (<[i := SdReturned false]> (shutdowns s)) s)
      | _ => None
      end
  end.

Definition step (s s' : state) : Prop := ∃ a, exec a s = Some s'.
End exec.

Definition init : state :=
  {| jobs := []; stopped := false; stop := false; once := None; wg := 0; run := Waiting;
     flights := []; shutdowns := []; fired := [] |}.

(** ** Invariants *)

Definition live (f : flight) : bool := negb (bool_decide (f_phase f = Finished)).
(** Between the non-overlap flag being taken and given back. *)
Definition holds (k : nat) (f : flight) : bool :=
  bool_decide (f_job f = k)
  && match f_phase f with InFn | InHandler | Clearing => true | _ => false end.

Section invariants.
Variable overlap : bool.
Variable civil_of : Z → civil.
Hypothesis civil_of_ok : ∀ m, civil_ok (civil_of m).

Record inv (s : state) : Prop := {
  (** the wait group counts the live goroutines *)
  inv_wg : wg s = cnt live (flights s);
  (** a job's flag is set exactly while its one goroutine holds it *)
  inv_flag k j : jobs s !! k = Some j →
    if overlap then running j = false else Z.b2z (running j) = cnt (holds k) (flights s);
  inv_jobs i f : flights s !! i = Some f → is_Some (jobs s !! f_job f);
  inv_parsed k j : jobs s !! k = Some j → parse (spec j) = Ok (sched j);
  inv_alive : run s ≠ Crashed;
  (** once stopped is set nobody is dispatching *)
  inv_stopped : stopped s = true → dispatching s = false;
  inv_once : once s ≠ None → stopped s = true;
  inv_shutdown i pc : shutdowns s !! i = Some pc → pc ≠ SdCalled → stopped s = true;
  inv_drained i : shutdowns s !! i = Some (SdReturned true) → wg s = 0;
  (** only due jobs are dispatched *)
  inv_fired k m : (k, m) ∈ fired s → ∃ j, jobs s !! k = Some j
    ∧ match_ (sched j) (civil_of m) = Ok true;
}.

Lemma scheduler_inv_init : inv init.
Proof using Type. split; simpl; try done; by intros ? ? ?%elem_of_nil. Qed.

Lemma move_spec i from to s s' :
  move i from to s = Some s' →
  ∃ f, flights s !! i = Some f ∧ f_phase f = from
    ∧ s' = set_flights (wg s) (<[i := {| f_job := f_job f; f_phase := to |}]> (flights s)) s.
Proof using Type.
  unfold move. destruct (flights s !! i) as [f|]; [|done]. simpl.
  case_decide; [|done]. intros [= <-]. eauto.
Qed.

(** A goroutine of a job moves between phases that hold the flag alike. *)
Lemma inv_move s i f to w :
  inv s → flights s !! i = Some f →
  (∀ k, holds k {| f_job := f_job f; f_phase := to |} = holds k f) →
  w = wg s - Z.b2z (live f) + Z.b2z (live {| f_job := f_job f; f_phase := to |}) →
  (∀ i, shutdowns s !! i = Some (SdReturned true) → w = 0) →
  inv (set_flights w (<[i := {| f_job := f_job f; f_phase := to |}]> (flights s)) s).
Proof using Type.
  intros [] Hi Hh -> Hd. split; simpl; try done.
  - rewrite (cnt_insert _ _ _ _ _ Hi). lia.
  - intros k j Hk. specialize (inv_flag0 k j Hk). destruct overlap; [done|].
    by rewrite (cnt_insert_same _ _ _ _ _ Hi).
  - intros i' f' [(<- & <- & _)|[_ ?]]%list_lookup_insert_Some; [|eauto]. simpl. eauto.
Qed.

(** [running.Store(false)] by the goroutine that holds the flag. *)
Lemma inv_clear s i f :
  inv s → flights s !! i = Some f → f_phase f = Clearing →
  let fs := <[i := {| f_job := f_job f; f_phase := Finishing |}]> (flights s) in
  inv (set_flights (wg s) fs
    (if overlap then s
     else set_jobs (alter (λ j, {| spec := spec j; sched := sched j; running := false;
                                   last_fired := last_fired j |}) (f_job f) (jobs s)) s)).
Proof using Type.
  intros Hinv Hi Hf fs. pose proof Hinv as [].
  assert (cnt live fs = cnt live (flights s)) as Hlive.
  { unfold fs. eapply cnt_insert_same; [done|]. unfold live. by rewrite Hf. }
  assert (∀ i' f', fs !! i' = Some f' → is_Some (jobs s !! f_job f')) as Hjobs.
  { unfold fs. intros i' f' [(<- & <- & _)|[_ ?]]%list_lookup_insert_Some; [|eauto]. simpl. eauto. }
  destruct overlap eqn:Hov.
  { split; simpl; try done; [by rewrite Hlive|by rewrite Hov]. }
  split; simpl; try done.
  - by rewrite Hlive.
  - intros k j Hk. rewrite list_lookup_alter in Hk. rewrite Hov.
    unfold fs. rewrite (cnt_insert _ _ _ _ _ Hi). unfold holds at 2 3. simpl. rewrite Hf.
    case_decide as Hkj; simplify_eq.
    + apply fmap_Some in Hk as (j0 & Hj0 & ->). simpl. specialize (inv_flag0 _ _ Hj0).
      rewrite bool_decide_eq_true_2 by done. simpl.
      pose proof (cnt_ge_1 (holds (f_job f)) _ _ _ Hi) as H1. unfold holds at 1 in H1. rewrite Hf in H1.
      rewrite bool_decide_eq_true_2 in H1 by done. specialize (H1 eq_refl).
      destruct (running j0); simpl in *; lia.
    + rewrite bool_decide_eq_false_2 by congruence. simpl. rewrite (inv_flag0 _ _ Hk). lia.
  - intros i' f' Hf'. destruct (Hjobs _ _ Hf') as [j Hj]. rewrite list_lookup_alter.
    case_decide as Hd; [|by eexists]. rewrite fmap_is_Some.
    first [by eexists|rewrite Hd; by eexists].
  - intros k j Hk. rewrite list_lookup_alter in Hk. case_decide; simplify_eq; [|eauto].
    apply fmap_Some in Hk as (j0 & Hj0 & ->). simpl. eauto.
  - intros k m Hkm. destruct (inv_fired0 k m Hkm) as (j & Hj & Hm). rewrite list_lookup_alter.
    case_decide as Hd; [|by eauto]. first [rewrite Hj|rewrite Hd, Hj]. simpl. eauto.
Qed.

(** The dispatcher looks at a job. *)
(** While a minute is being dispatched nobody has got past the call of
    [Shutdown]. *)
Lemma inv_dispatching s minute k :
  inv s → run s = Dispatching minute k →
  stopped s = false ∧ once s = None ∧ ∀ i pc, shutdowns s !! i = Some pc → pc = SdCalled.
Proof using Type.
  intros [] Hrun. assert (stopped s = false) as Hst.
  { apply not_true_iff_false. intros Hs%inv_stopped0. unfold dispatching in Hs. by rewrite Hrun in Hs. }
  split_and!; [done| |].
  - destruct (once s); [|done]. rewrite inv_once0 in Hst by done. done.
  - intros i pc Hi. destruct (decide (stopped s = true)); [congruence|].
    destruct pc; try done; exfalso; by specialize (inv_shutdown0 _ _ Hi ltac:(done)).
Qed.

Lemma inv_look s minute k j :
  inv s → run s = Dispatching minute k → jobs s !! k = Some j →
  inv (look overlap civil_of minute k j s).
Proof using civil_of_ok.
  intros Hinv Hrun Hj. pose proof Hinv as []. destruct (inv_dispatching s minute k Hinv Hrun) as (Hst & Hon & Hsd).
  assert (inv (set_run (Dispatching minute (S k)) s)) as Hnext.
  { split; simpl; try done. congruence. }
  destruct (match_fires _ _ _ (inv_parsed0 _ _ Hj) (civil_of_ok minute))
    as (f0 & f1 & f2 & f3 & f4 & _ & Hm).
  unfold look. rewrite Hm. destruct (fires f0 f1 f2 f3 f4 (civil_of minute)); [|done].
  case_decide; [done|]. destruct (negb overlap && running j) eqn:Hb; [done|].
  assert (∀ k' j', <[k := {| spec := spec j; sched := sched j;
      running := if overlap then running j else true; last_fired := Some minute |}]> (jobs s) !! k' = Some j' →
    ∃ j0, jobs s !! k' = Some j0 ∧ spec j' = spec j0 ∧ sched j' = sched j0) as Hback.
  { intros k' j' [(<- & <- & _)|[_ ?]]%list_lookup_insert_Some; eauto. }
  assert (∀ k' j0, jobs s !! k' = Some j0 → ∃ j', <[k := {| spec := spec j; sched := sched j;
      running := if overlap then running j else true; last_fired := Some minute |}]> (jobs s) !! k' = Some j'
      ∧ sched j' = sched j0) as Hfwd.
  { intros k' j0 Hk'. rewrite list_lookup_insert. case_decide as Hd; [|eauto].
    destruct Hd as [<- _]. simplify_eq. eauto. }
  split; simpl; try done.
  - rewrite cnt_snoc. simpl. lia.
  - intros k' j' Hk'. rewrite cnt_snoc. unfold holds at 2. simpl.
    destruct overlap; simpl in *.
    { apply list_lookup_insert_Some in Hk' as [(<- & <- & _)|[_ Hk']]; simpl; eauto. }
    apply list_lookup_insert_Some in Hk' as [(<- & <- & _)|[Hne Hk']]; simpl.
    + rewrite bool_decide_eq_true_2 by done. specialize (inv_flag0 _ _ Hj). rewrite Hb in inv_flag0.
      simpl in *. lia.
    + rewrite bool_decide_eq_false_2 by done. rewrite (inv_flag0 _ _ Hk'). simpl. lia.
  - intros i f [[_ Hi]|[_ <-]]%lookup_snoc_Some.
    + destruct (inv_jobs0 _ _ Hi) as [j0 Hj0]. destruct (Hfwd _ _ Hj0) as (j' & -> & _). by eexists.
    + destruct (Hfwd _ _ Hj) as (j' & Hj' & _). exists j'. exact Hj'.
  - intros k' j' (j0 & Hj0 & -> & ->)%Hback. eauto.
  - congruence.
  - intros i Hi. apply Hsd in Hi. done.
  - intros k' m [Hin|[= -> ->]%list_elem_of_singleton]%elem_of_app.
    + destruct (inv_fired0 _ _ Hin) as (j0 & Hj0 & Hm0). destruct (Hfwd _ _ Hj0) as (j' & ? & Heq).
      exists j'. by rewrite Heq.
    + destruct (Hfwd _ _ Hj) as (j' & ? & Heq). exists j'. by rewrite Heq.
Qed.
(** The callers of [Shutdown] move. *)
Lemma inv_set_shutdown s st cl o sds :
  inv s →
  (st = true → dispatching s = false) → (o ≠ None → st = true) →
  (∀ i pc, sds !! i = Some pc → pc ≠ SdCalled → st = true) →
  (∀ i, sds !! i = Some (SdReturned true) → wg s = 0) →
  inv (set_shutdown st cl o sds s).
Proof using Type. intros [] ? ? ? ?. by split. Qed.

Lemma inv_add_job s text s' :
  inv s → dispatching s = false → add_job text s = Ok s' → inv s'.
Proof using Type.
  intros [] Hd. unfold add_job. destruct (parse text) as [sc| |] eqn:Hp; [|done..].
  destruct (decide (stopped s = true)) as [Hst|Hst%not_true_is_false]; rewrite Hst; [done|].
  intros [= <-]. split; simpl; try done.
  - intros k j [[_ ?]|[-> <-]]%lookup_snoc_Some; [by apply inv_flag0|]. simpl.
    destruct overlap; [done|].
    symmetry. apply cnt_zero. intros i f Hi. unfold holds. rewrite bool_decide_eq_false_2; [done|].
    intros Heq. destruct (inv_jobs0 _ _ Hi) as [j Hj]. apply lookup_lt_Some in Hj. lia.
  - intros i f Hi. destruct (inv_jobs0 _ _ Hi) as [j Hj]. exists j. by apply lookup_app_l_Some.
  - intros k j [[_ ?]|[-> <-]]%lookup_snoc_Some; [by eauto|done].
  - intros k m Hkm. destruct (inv_fired0 _ _ Hkm) as (j & Hj & ?). exists j.
    split; [by apply lookup_app_l_Some|done].
Qed.

Lemma inv_moved s i from to s' :
  inv s → move i from to s = Some s' →
  (∀ j k, holds k {| f_job := j; f_phase := to |} = holds k {| f_job := j; f_phase := from |}) →
  (∀ j, live {| f_job := j; f_phase := to |} = live {| f_job := j; f_phase := from |}) → inv s'.
Proof using Type.
  intros Hinv (f & Hi & Hf & ->)%move_spec Hh Hl.
  assert ({| f_job := f_job f; f_phase := from |} = f) as Heq by (destruct f; simpl in *; by subst).
  apply inv_move; [done|done|intros k; by rewrite Hh, Heq|rewrite Hl, Heq; lia|by destruct Hinv].
Qed.

Lemma inv_done s i s1 :
  inv s → move i Finishing Finished s = Some s1 → inv (set_flights (wg s1 - 1) (flights s1) s1).
Proof using Type.
  intros Hinv (f & Hi & Hf & ->)%move_spec. pose proof Hinv as [].
  assert (live f = true) as Hl by (unfold live; by rewrite Hf).
  change (inv (set_flights (wg s - 1)
    (<[i := {| f_job := f_job f; f_phase := Finished |}]> (flights s)) s)).
  apply inv_move; [done|done| | |].
  - intros k. unfold holds. simpl. rewrite Hf. done.
  - rewrite Hl. simpl. lia.
  - intros i' Hi'. pose proof (cnt_ge_1 live _ _ _ Hi Hl). rewrite (inv_drained0 _ Hi') in inv_wg0. lia.
Qed.

Lemma inv_shutdown_step s i s' : inv s → exec overlap civil_of (ShutdownStep i) s = Some s' → inv s'.
Proof using Type.
  intros Hinv. pose proof Hinv as []. simpl.
  destruct (shutdowns s !! i) as [[| | |]|] eqn:Hi; [| | |done..].
  - destruct (once s) as [[]|] eqn:Ho; [|done|].
    + intros [= <-]. apply inv_set_shutdown; try done; rewrite <-?Ho; try done.
      * intros i' pc [(<- & <- & _)|[_ ?]]%list_lookup_insert_Some; [|eauto].
        intros _. apply inv_once0. congruence.
      * intros i' [(<- & ? & _)|[_ ?]]%list_lookup_insert_Some; [done|eauto].
    + destruct (dispatching s) eqn:Hd; [done|]. intros [= <-]. apply inv_set_shutdown; try done.
      intros i' [(<- & ? & _)|[_ ?]]%list_lookup_insert_Some; [done|eauto].
  - assert (stopped s = true) as Hst by by eapply inv_shutdown0.
    intros [= <-]. apply inv_set_shutdown; try done.
    intros i' [(<- & ? & _)|[_ ?]]%list_lookup_insert_Some; [done|eauto].
  - assert (stopped s = true) as Hst by by eapply inv_shutdown0.
    case_decide as Hw; [|done]. intros [= <-]. by apply inv_set_shutdown.
Qed.

Lemma inv_step s a s' : inv s → exec overlap civil_of a s = Some s' → inv s'.
Proof using civil_of_ok.
  intros Hinv Hs. pose proof Hinv as []. revert Hs.
  destruct a as [minute| | |text|i|i|i|i|i| |i|i]; [simpl..|by apply inv_shutdown_step|simpl].
  - destruct (run s) eqn:Hr; [|done..].
    destruct (decide (stopped s = true)) as [Hst|Hst%not_true_is_false]; rewrite Hst;
      intros [= <-]; [done|]. split; simpl; try done. congruence.
  - destruct (run s) as [|minute k| |] eqn:Hr; [done| |done..].
    destruct (jobs s !! k) as [j|] eqn:Hj; intros [= <-]; [by apply inv_look|].
    split; simpl; done.
  - destruct (run s) eqn:Hr; [|done..]. destruct (stop s); [|done]. intros [= <-]. split; done.
  - destruct (dispatching s) eqn:Hd; [done|].
    destruct (add_job text s) as [s1| |] eqn:Ha; intros [= <-]; [|done..]. by eapply inv_add_job.
  - intros Hm. by eapply inv_moved.
  - intros Hm. by eapply inv_moved.
  - intros Hm. by eapply inv_moved.
  - destruct (flights s !! i) as [f|] eqn:Hi; [|done]. simpl.
    destruct (move i Clearing Finishing s) as [s1|] eqn:Hm; [|done]. simpl. intros [= <-].
    apply move_spec in Hm as (f' & Hi' & Hf & ->). simplify_eq.
    pose proof (inv_clear s i f Hinv Hi Hf) as Hc. cbn zeta in Hc. by destruct overlap.
  - intros (s1 & Hm & [= <-])%bind_Some. by eapply inv_done.
  - intros [= <-]. apply inv_set_shutdown; try done.
    + intros i pc [[_ ?]|[_ <-]]%lookup_snoc_Some; [eauto|done].
    + intros i [[_ ?]|[_ ?]]%lookup_snoc_Some; [eauto|done].
  - destruct (shutdowns s !! i) as [[| | |]|] eqn:Hi; [done..| |done|done].
    assert (stopped s = true) as Hst by by eapply inv_shutdown0.
    intros [= <-]. apply inv_set_shutdown; try done.
    intros i' [(<- & ? & _)|[_ ?]]%list_lookup_insert_Some; [done|eauto].
Qed.

Lemma inv_steps s s' : rtc (step overlap civil_of) s s' → inv s → inv s'.
Proof using civil_of_ok. induction 1 as [|x y z [a Ha] _ IH]; [done|]. intros Hi. eapply IH, inv_step; eauto. Qed.

Lemma inv_reachable s : rtc (step overlap civil_of) init s → inv s.
Proof using civil_of_ok. intros Hr. eapply inv_steps; [done|apply scheduler_inv_init]. Qed.
End invariants.

(** ** What is dispatched, and when *)

Section dispatch.
Variable overlap : bool.
Variable civil_of : Z → civil.
#[local] Abbreviation exec := (exec overlap civil_of).

(** Inverts [exec a s = Some s'] for a concrete [a]. *)
Ltac exec_inv Hs :=
  simpl in Hs; unfold add_job in Hs;
  repeat match type of Hs with
  | Some _ = Some _ => injection Hs as <-
  | None = Some _ => discriminate Hs
  | move _ _ _ _ = Some _ => let f := fresh "f" in apply move_spec in Hs as (f & ? & ? & ->)
  | _ ≫= _ = Some _ =>
      let s1 := fresh "s1" in let H1 := fresh "H1" in apply bind_Some in Hs as (s1 & H1 & Hs);
      try (apply move_spec in H1 as (? & ? & ? & ->))
  | context [match ?x with _ => _ end] =>
      lazymatch x with context [match _ with _ => _ end] => fail | _ => destruct x eqn:? end
  end;
  repeat match goal with
  | |- context [if overlap then _ else _] => destruct overlap
  | |- context [if stopped ?s then _ else _] => destruct (stopped s) eqn:?
  end.

(** A step leaves what was dispatched and the jobs' last minutes alone, or is
    the dispatch of one job that did not yet fire in that minute. *)
Definition same_last (s s' : state) : Prop :=
  ∀ k j, jobs s !! k = Some j → ∃ j', jobs s' !! k = Some j' ∧ last_fired j' = last_fired j.

Lemma same_last_refl s s' : jobs s' = jobs s → same_last s s'.
Proof. intros Heq k j Hk. exists j. by rewrite Heq. Qed.

Ltac stays := left; split; [reflexivity|apply same_last_refl; reflexivity].

Lemma fired_step a s s' :
  exec a s = Some s' →
  (fired s' = fired s ∧ same_last s s')
  ∨ ∃ minute k j, a = Look ∧ run s = Dispatching minute k ∧ jobs s !! k = Some j
      ∧ last_fired j ≠ Some minute ∧ match_ (sched j) (civil_of minute) = Ok true
      ∧ fired s' = fired s ++ [(k, minute)]
      ∧ ∃ j', last_fired j' = Some minute ∧ jobs s' = <[k := j']> (jobs s).
Proof.
  intros Hs. destruct a; exec_inv Hs; try (by stays).
  - match goal with H : run s = Dispatching ?m ?k, Hj : jobs s !! ?k = Some ?j |- _ =>
      rename m into minute, k into k0, j into j0, Hj into Hj0 end.
    unfold look. destruct (match_ _ _) as [[]|e|p] eqn:Hm; [|stays..].
    case_decide as Hl; [stays|]. destruct (_ && _); [stays|]. right.
    exists minute, k0, j0. repeat (split; [done|]). eexists. split; [|reflexivity]. done.
  - left. split; [done|]. intros k j Hk. exists j. split; [by apply lookup_app_l_Some|done].
  - left. split; [done|]. intros k j Hk. simpl. rewrite list_lookup_alter.
    case_decide as Hd; [rewrite Hd|]; rewrite Hk; eexists; by split.
Qed.

(** Only a tick, a look or a stop moves the dispatcher. *)
Lemma run_quiet a s s' :
  exec a s = Some s' → (∀ m, a ≠ Tick m) → a ≠ Look → a ≠ Stop → run s' = run s.
Proof.
  intros Hs Ht Hl Hst. destruct a; try done; [by destruct (Ht minute)|..]; by exec_inv Hs.
Qed.

(** Nothing takes back a stop. *)
Lemma stopped_step a s s' : exec a s = Some s' → stopped s = true → stopped s' = true.
Proof.
  intros Hs Hst. destruct a; exec_inv Hs; try done; try congruence.
  unfold look. by repeat case_match.
Qed.

(** Jobs are never removed nor rescheduled, and their last minute changes by
    dispatches only. *)
Definition jobs_kept (s s' : state) : Prop :=
  (length (jobs s) ≤ length (jobs s'))%nat
  ∧ ∀ k j', jobs s' !! k = Some j' →
      match jobs s !! k with
      | Some j => sched j' = sched j ∧ spec j' = spec j
          ∧ (last_fired j' = last_fired j ∨ ∃ m, last_fired j' = Some m ∧ (k, m) ∈ fired s')
      | None => last_fired j' = None
      end.

Lemma jobs_kept_refl s s' : jobs s' = jobs s → jobs_kept s s'.
Proof. intros Heq. unfold jobs_kept. rewrite Heq. split; [done|]. intros k j' ->. eauto. Qed.

Lemma jobs_step a s s' : exec a s = Some s' → jobs_kept s s'.
Proof.
  intros Hs. destruct a; exec_inv Hs; try by apply jobs_kept_refl.
  - unfold look. destruct (match_ _ _) as [[]|e|p]; [|by apply jobs_kept_refl..].
    case_decide; [by apply jobs_kept_refl|]. destruct (_ && _); [by apply jobs_kept_refl|].
    split; simpl; [by rewrite length_insert|]. intros k' j'.
    intros [(<- & <- & _)|[Hne Hk']]%list_lookup_insert_Some; [|rewrite Hk'; by eauto].
    match goal with H : jobs s !! _ = Some _ |- _ => rewrite H end. simpl. split_and?; try done.
    right. exists minute. split; [done|]. apply elem_of_app. right. by apply list_elem_of_singleton.
  - split; simpl; [rewrite length_app; lia|].
    intros k j' [[_ Hk]|[-> <-]]%lookup_snoc_Some; [rewrite Hk; by eauto|].
    by rewrite lookup_ge_None_2.
  - split; simpl; [by rewrite length_alter|]. intros k j'. rewrite list_lookup_alter.
    case_decide as Hd; [|intros ->; by eauto]. rewrite Hd.
    intros (j & -> & ->)%fmap_Some. simpl. by eauto.
Qed.

(** Calls of [Shutdown] only move forward. *)
Lemma shutdowns_step a s s' :
  exec a s = Some s' →
  shutdowns s' = shutdowns s ∨ shutdowns s' = shutdowns s ++ [SdCalled]
  ∨ ∃ i pc pc', shutdowns s !! i = Some pc ∧ shutdowns s' = <[i := pc']> (shutdowns s)
      ∧ pc' ≠ SdCalled ∧ ∀ b, pc ≠ SdReturned b.
Proof.
  intros Hs. destruct a; exec_inv Hs; try (by left); try (by right; left);
    try (right; right; by eexists _, _, _).
  left. unfold look. destruct (match_ _ _) as [[]|e|p]; [|done..]. case_decide; [done|]. by destruct (_ && _).
Qed.

Lemma shutdown_forward a s s' i pc :
  exec a s = Some s' → shutdowns s !! i = Some pc → pc ≠ SdCalled →
  ∃ pc', shutdowns s' !! i = Some pc' ∧ pc' ≠ SdCalled
    ∧ (pc = SdReturned true → pc' = SdReturned true).
Proof.
  intros Hs Hi Hpc.
  destruct (shutdowns_step _ _ _ Hs) as [->|[->|(i0 & pc0 & pc1 & Hi0 & -> & Hpc1 & Hret)]].
  - by exists pc.
  - exists pc. split; [by apply lookup_app_l_Some|done].
  - destruct (decide (i = i0)) as [->|Hne].
    + exists pc1. rewrite list_lookup_insert_eq by (by eapply lookup_lt_Some).
      split; [done|]. split; [done|]. intros ->. simplify_eq. by destruct (Hret true).
    + exists pc. by rewrite list_lookup_insert_ne.
Qed.

(** Executions whose ticks never go back in time, with the last minute seen. *)
Inductive ticking : Z → state → Prop :=
  | ticking_init m : ticking m init
  | ticking_step m s a s' :
      ticking m s → (∀ m', a ≠ Tick m') → exec a s = Some s' → ticking m s'
  | ticking_tick m m' s s' :
      ticking m s → m ≤ m' → exec (Tick m') s = Some s' → ticking m' s'.

Record last_inv (m : Z) (s : state) : Prop := {
  li_nodup : NoDup (fired s);
  li_last k m' : (k, m') ∈ fired s →
    ∃ j l, jobs s !! k = Some j ∧ last_fired j = Some l ∧ m' ≤ l ≤ m;
  li_run m' k : run s = Dispatching m' k → m' = m;
}.

Lemma run_step a s s' minute k :
  exec a s = Some s' → run s' = Dispatching minute k →
  a = Tick minute ∨ ∃ k', run s = Dispatching minute k'.
Proof.
  intros Hs Hrun. destruct (decide (a = Look)) as [->|Hl].
  - right. exec_inv Hs; [|done]. unfold look in Hrun.
    destruct (match_ _ _) as [[]|?|?]; [|simplify_eq/=; by eauto..].
    case_decide; [simplify_eq/=; by eauto|]. destruct (_ && _); simplify_eq/=; by eauto.
  - destruct (decide (a = Stop)) as [->|Hst]; [by exec_inv Hs|].
    destruct a as [m| | | | | | | | | | |];
      try (rewrite (run_quiet _ _ _ Hs) in Hrun by done; by eauto); [|done..].
    exec_inv Hs. destruct (stopped s); [congruence|]. simplify_eq/=. by left.
Qed.

Lemma last_inv_step m m' a s s' :
  last_inv m s → m ≤ m' → (∀ m0, a = Tick m0 → m0 = m') → (a = Look → m' = m) →
  exec a s = Some s' → (∀ m0 k, run s = Dispatching m0 k → m' = m) →
  last_inv m' s'.
Proof.
  intros [Hn Hl Hr] Hm Htick Hlook Hs Hdisp. split.
  - destruct (fired_step _ _ _ Hs) as [[-> _]|(m0 & k & j & -> & Hrun & Hj & Hlast & _ & -> & _)]; [done|].
    apply NoDup_app. split; [done|]. split; [|apply NoDup_singleton].
    intros [k0 m1] Hin [= -> ->]%list_elem_of_singleton.
    destruct (Hl _ _ Hin) as (j0 & l & Hj0 & Hl0 & Hle). simplify_eq.
    specialize (Hr _ _ Hrun). subst. apply Hlast. rewrite Hl0. f_equal. lia.
  - intros k0 m1. destruct (fired_step _ _ _ Hs)
      as [[-> Hsame]|(m0 & k & j & -> & Hrun & Hj & Hlast & _ & -> & j' & Hj' & ->)].
    + intros Hin. destruct (Hl _ _ Hin) as (j0 & l & Hj0 & Hl0 & Hle).
      destruct (Hsame _ _ Hj0) as (j1 & Hj1 & Heq). exists j1, l. rewrite Heq. split; [done|].
      split; [done|lia].
    + specialize (Hr _ _ Hrun). specialize (Hlook eq_refl). subst.
      assert (<[k:=j']> (jobs s) !! k = Some j') as Hk.
      { apply list_lookup_insert_eq. by eapply lookup_lt_Some. }
      intros [Hin|[= -> ->]%list_elem_of_singleton]%elem_of_app; [|by exists j', m].
      destruct (Hl _ _ Hin) as (j0 & l & Hj0 & Hl0 & Hle).
      destruct (decide (k0 = k)) as [->|Hne]; [exists j', m; split; [done|]; split; [done|lia]|].
      exists j0, l. by rewrite list_lookup_insert_ne.
  - intros m0 k Hrun. destruct (run_step _ _ _ _ _ Hs Hrun) as [->|[k' Hk']]; [by apply Htick|].
    rewrite (Hdisp _ _ Hk'). by eapply Hr.
Qed.

Lemma last_inv_ticking m s : ticking m s → last_inv m s.
Proof.
  induction 1 as [m|m s a s' _ IH Ha Hs|m m' s s' _ IH Hm Hs].
  - split; simpl; [constructor|by intros ? ? ?%elem_of_nil|done].
  - eapply (last_inv_step m m a s s'); [exact IH|done|by intros m0 ?%Ha|done|exact Hs|done].
  - eapply (last_inv_step m m' (Tick m') s s');
      [exact IH|exact Hm|intros m0 Heq; congruence|done|exact Hs|].
    intros m0 k Hr. simpl in Hs. by rewrite Hr in Hs.
Qed.
End dispatch.

(** A whole [runDue], when nothing else happens meanwhile. *)
Section runDue.
Variable overlap : bool.
Variable civil_of : Z → civil.
Hypothesis civil_of_ok : ∀ m, civil_ok (civil_of m).

Fixpoint looks (n : nat) (s : state) : option state :=
  match n with O => Some s | S n => exec overlap civil_of Look s ≫= looks n end.

(** The jobs a tick at [minute] is to fire. *)
Definition due (minute : Z) (j : job) : bool :=
  match match_ (sched j) (civil_of minute) with
  | Ok true => bool_decide (last_fired j ≠ Some minute) && (overlap || negb (running j))
  | _ => false
  end.
Definition due_from (minute : Z) (js : list job) (k n : nat) : list nat :=
  List.filter (λ k, from_option (due minute) false (js !! k)) (seq k n).

Lemma look_fires minute k j s :
  inv overlap civil_of s → jobs s !! k = Some j →
  let s' := look overlap civil_of minute k j s in
  run s' = Dispatching minute (S k)
  ∧ fired s' = fired s ++ (if due minute j then [(k, minute)] else [])
  ∧ (∀ k', k' ≠ k → jobs s' !! k' = jobs s !! k') ∧ length (jobs s') = length (jobs s).
Proof using civil_of_ok.
  intros [] Hj s'. unfold s', look, due.
  destruct (match_fires _ _ _ (inv_parsed0 _ _ Hj) (civil_of_ok minute))
    as (f0 & f1 & f2 & f3 & f4 & _ & ->).
  destruct (fires _ _ _ _ _ _); simpl; [|by rewrite app_nil_r].
  case_decide as Hl; simpl.
  { rewrite bool_decide_eq_false_2 by tauto. simpl. by rewrite app_nil_r. }
  rewrite bool_decide_eq_true_2 by done. destruct overlap, (running j); simpl; rewrite ?app_nil_r;
    split_and?; try done; try (intros k' Hk'; by rewrite list_lookup_insert_ne);
    by rewrite length_insert.
Qed.

Lemma looks_spec n minute k s :
  inv overlap civil_of s → run s = Dispatching minute k → length (jobs s) = (k + n)%nat →
  ∃ s', looks (S n) s = Some s' ∧ run s' = Waiting
    ∧ fired s' = fired s ++ map (λ k, (k, minute)) (due_from minute (jobs s) k n).
Proof using civil_of_ok.
  revert k s. induction n as [|n IH]; intros k s Hinv Hrun Hlen.
  - cbn [looks exec]. rewrite Hrun, lookup_ge_None_2 by lia. simpl.
    eexists. split; [reflexivity|]. simpl. by rewrite app_nil_r.
  - destruct (lookup_lt_is_Some_2 (jobs s) k) as [j Hj]; [lia|].
    remember (S n) as n' eqn:Hn'. cbn [looks]. cbn [exec]. rewrite Hrun, Hj. cbn [mbind option_bind].
    subst n'. destruct (look_fires minute k j s Hinv Hj) as (Hr' & Hf' & Hother & Hlen').
    set (s1 := look overlap civil_of minute k j s) in *.
    destruct (IH (S k) s1) as (s' & Hlooks & Hw & Hf); [|done|lia|].
    { by eapply (inv_step overlap civil_of civil_of_ok s Look); [|simpl; rewrite Hrun, Hj]. }
    exists s'. split; [exact Hlooks|]. split; [done|]. rewrite Hf, Hf', <-app_assoc. f_equal.
    unfold due_from. cbn [seq List.filter]. rewrite Hj. simpl from_option.
    assert (List.filter (λ k, from_option (due minute) false (jobs s1 !! k)) (seq (S k) n)
            = List.filter (λ k, from_option (due minute) false (jobs s !! k)) (seq (S k) n)) as ->.
    { apply List.filter_ext_in. intros k' Hk'%in_seq. rewrite Hother by lia. done. }
    by destruct (due minute j).
Qed.
End runDue.

(** ** Properties *)
Section properties.
Variable overlap : bool.
Variable civil_of : Z → civil.

(** C15: no overlap.  Unless overlap is asked for, in no interleaving are two
    goroutines running the same job. *)
Theorem no_overlap s k :
  (∀ m, civil_ok (civil_of m)) → overlap = false → rtc (step overlap civil_of) init s →
  cnt (holds k) (flights s) ≤ 1.
Proof using Type.
  intros Hc Ho Hr. destruct (inv_reachable _ _ Hc s Hr).
  destruct (jobs s !! k) as [j|] eqn:Hk.
  - specialize (inv_flag0 k j Hk). rewrite Ho in inv_flag0. destruct (running j); simpl in *; lia.
  - rewrite cnt_zero; [lia|]. intros i f Hi. unfold holds.
    destruct (inv_jobs0 _ _ Hi) as [j Hj]. rewrite bool_decide_eq_false_2; [done|]. congruence.
Qed.

(** C16: shutdown.  Once a call of [Shutdown] has got past its first step,
    nothing is dispatched any more and [AddJob] refuses every job; once it
    has returned nil no job is running, now or ever after. *)
Theorem shutdown_drains s s' i pc :
  (∀ m, civil_ok (civil_of m)) →
  rtc (step overlap civil_of) init s → shutdowns s !! i = Some pc → pc ≠ SdCalled →
  rtc (step overlap civil_of) s s' →
  fired s' = fired s
  ∧ (∀ text sc, parse text = Ok sc → add_job text s' = Err ErrClosed)
  ∧ (pc = SdReturned true → ∀ f, f ∈ flights s' → f_phase f = Finished).
Proof using Type.
  intros Hc Hr Hi Hpc Hs.
  assert (∀ s1, inv overlap civil_of s1 → shutdowns s1 !! i = Some (SdReturned true) →
            ∀ f, f ∈ flights s1 → f_phase f = Finished) as Hdrained.
  { intros s1 [] Hi1 f [n Hf]%list_elem_of_lookup. rewrite (inv_drained0 _ Hi1) in inv_wg0.
    pose proof (cnt_zero_inv live _ _ _ (eq_sym inv_wg0) Hf) as Hl. unfold live in Hl.
    apply negb_false_iff, bool_decide_eq_true in Hl. done. }
  assert (∃ pc', shutdowns s' !! i = Some pc' ∧ pc' ≠ SdCalled
    ∧ (pc = SdReturned true → pc' = SdReturned true) ∧ fired s' = fired s ∧ inv overlap civil_of s') as Hend.
  { apply (inv_reachable _ _ Hc) in Hr. clear -Hc Hr Hi Hpc Hs. revert pc Hi Hpc.
    induction Hs as [s|s s1 s' [a Ha] _ IH]; intros pc Hi Hpc; [by exists pc|].
    assert (∃ pc1, shutdowns s1 !! i = Some pc1 ∧ pc1 ≠ SdCalled
      ∧ (pc = SdReturned true → pc1 = SdReturned true)) as (pc1 & Hi1 & Hpc1 & Hret1)
      by by eapply shutdown_forward.
    pose proof (inv_step _ _ Hc _ _ _ Hr Ha) as Hr1.
    destruct (IH Hr1 pc1 Hi1 Hpc1) as (pc' & ? & ? & ? & Hf & ?). exists pc'.
    split_and?; [done|done|by auto| |done]. rewrite Hf.
    destruct (fired_step _ _ _ _ _ Ha) as [[-> _]|(m & k & j & -> & Hrun & _)]; [done|].
    destruct Hr. specialize (inv_stopped0 (inv_shutdown0 _ _ Hi Hpc)).
    unfold dispatching in inv_stopped0. by rewrite Hrun in inv_stopped0. }
  destruct Hend as (pc' & Hi' & Hpc' & Hret & Hf & Hinv). split; [done|]. split.
  - intros text sc Hp. unfold add_job. rewrite Hp. destruct Hinv.
    by rewrite (inv_shutdown0 _ _ Hi' Hpc').
  - intros ->. specialize (Hret eq_refl). subst. by eapply Hdrained.
Qed.

(** at most once a minute.  As long as the minutes of the ticks never go
    back, no job is dispatched twice for the same minute, whatever ticks are
    repeated or delayed. *)
Theorem at_most_once m s : ticking overlap civil_of m s → NoDup (fired s).
Proof using Type. intros Ht. by destruct (last_inv_ticking _ _ _ _ Ht). Qed.

(** C37: on schedule.  The dispatcher never crashes, and every job it has
    dispatched for a minute has a schedule text whose five fields, read by the
    Vixie rule, contain that minute. *)
Theorem fired_on_schedule s :
  (∀ m, civil_ok (civil_of m)) → rtc (step overlap civil_of) init s →
  run s ≠ Crashed ∧
  ∀ k m, (k, m) ∈ fired s → ∃ j f0 f1 f2 f3 f4, jobs s !! k = Some j
    ∧ Fields (spec j) = [f0; f1; f2; f3; f4] ∧ fires f0 f1 f2 f3 f4 (civil_of m) = true.
Proof using Type.
  intros Hc Hr. destruct (inv_reachable _ _ Hc s Hr). split; [done|]. intros k m Hkm.
  destruct (inv_fired0 _ _ Hkm) as (j & Hj & Hm).
  destruct (match_fires _ _ _ (inv_parsed0 _ _ Hj) (Hc m)) as (f0 & f1 & f2 & f3 & f4 & Hf & Hm').
  exists j, f0, f1, f2, f3, f4. split; [done|]. split; [done|]. congruence.
Qed.

(** a tick does its work.  A tick of a scheduler that is not stopped,
    carried through without interference, dispatches exactly the jobs that
    match the minute, have not fired in it and are not running (or may
    overlap), in the order they were added, and returns to waiting. *)
Theorem runDue_spec m s :
  (∀ m, civil_ok (civil_of m)) → rtc (step overlap civil_of) init s →
  run s = Waiting → stopped s = false →
  ∃ s', (exec overlap civil_of (Tick m) s ≫= looks overlap civil_of (S (length (jobs s)))) = Some s'
    ∧ run s' = Waiting
    ∧ fired s' = fired s ++ map (λ k, (k, m)) (due_from overlap civil_of m (jobs s) 0 (length (jobs s))).
Proof using Type.
  intros Hc Hr Hw Hst. apply (inv_reachable _ _ Hc) in Hr.
  assert (exec overlap civil_of (Tick m) s = Some (set_run (Dispatching m 0) s)) as Htick.
  { simpl. by rewrite Hw, Hst. }
  rewrite Htick. apply (looks_spec overlap civil_of Hc (length (jobs s)) m 0 (set_run (Dispatching m 0) s));
    [|done|done]. by eapply inv_step.
Qed.
End properties.

(** ** Witnesses *)

(** Replays a schedule of steps. *)
Fixpoint replay (overlap : bool) (civil_of : Z → civil) (acts : list action) (s : state)
    : option state :=
  match acts with
  | [] => Some s
  | a :: acts => exec overlap civil_of a s ≫= replay overlap civil_of acts
  end.

Lemma replay_steps overlap civil_of acts s s' :
  replay overlap civil_of acts s = Some s' → rtc (step overlap civil_of) s s'.
Proof.
  revert s. induction acts as [|a acts IH]; intros s; simpl; [by intros [= <-]|].
  destruct (exec overlap civil_of a s) as [s1|] eqn:Ha; [|done]. simpl. intros Hr.
  eapply rtc_l; [by exists a|by apply IH].
Qed.

(** The ticks of a schedule, none earlier than [m] or than the one before. *)
Fixpoint forward (m : Z) (acts : list action) : bool :=
  match acts with
  | [] => true
  | Tick m' :: acts => (m <=? m') && forward m' acts
  | _ :: acts => forward m acts
  end.

Lemma replay_ticking overlap civil_of acts m s s' :
  ticking overlap civil_of m s → forward m acts = true →
  replay overlap civil_of acts s = Some s' → ∃ m', ticking overlap civil_of m' s'.
Proof.
  revert m s. induction acts as [|a acts IH]; intros m s Ht; cbn [forward replay].
  { intros _ [= <-]. by exists m. }
  intros Hf. destruct (exec overlap civil_of a s) as [s1|] eqn:Ha; [|done]. cbn [mbind option_bind].
  assert ((∃ m', a = Tick m') ∨ ∀ m', a ≠ Tick m') as [[m' ->]|Hn] by (destruct a; naive_solver).
  - apply andb_prop in Hf as [Hm Hf]. apply (IH m'); [|done].
    eapply ticking_tick; [exact Ht|lia|exact Ha].
  - apply (IH m); [by eapply ticking_step|]. destruct a; try done. by destruct (Hn minute).
Qed.

Definition demo_civil (m : Z) : civil :=
  {| Minute := m mod 60; Hour := (m / 60) mod 24; Day := 1; Month := 1; Weekday := 0 |}.
Lemma demo_civil_ok m : civil_ok (demo_civil m).
Proof.
  unfold civil_ok, demo_civil. simpl. pose proof (Z.mod_pos_bound m 60).
  pose proof (Z.mod_pos_bound (m / 60) 24). lia.
Qed.

(** Two jobs; both fire at minute 5, the tick is repeated, at minute 6 the
    first is still running, then it panics; a shutdown drains. *)
Definition demo_jobs : list action := [AddJob (str "* * * * *"); AddJob (str "5 * * * *")].
Definition demo_acts : list action :=
  demo_jobs ++ [Tick 5; Look; Look; Look; Tick 5; Look; Look; Look; Tick 6; Look; Look; Look].
Definition demo_end : list action :=
  [CallShutdown; ShutdownStep 0; FnPanics 0; HandlerEnds 0; Clear 0; Done 0; FnReturns 1; Clear 1;
   Done 1; ShutdownStep 0; ShutdownStep 0].
Definition after_acts (acts : list action) : state := default init (replay false demo_civil acts init).

Lemma no_overlap_witness : cnt (holds 0) (flights (after_acts demo_acts)) ≤ 1.
Proof.
  apply (no_overlap false demo_civil (after_acts demo_acts) 0 demo_civil_ok eq_refl).
  apply (replay_steps false demo_civil demo_acts). vm_compute. reflexivity.
Defined.

Lemma shutdown_drains_witness :
  let s := after_acts (demo_acts ++ demo_end) in
  fired s = [(0%nat, 5); (1%nat, 5)]
  ∧ add_job (str "* * * * *") s = Err ErrClosed
  ∧ ∀ f, f ∈ flights s → f_phase f = Finished.
Proof.
  assert (rtc (step false demo_civil) init (after_acts (demo_acts ++ demo_end))) as Hr.
  { apply (replay_steps false demo_civil (demo_acts ++ demo_end)). vm_compute. reflexivity. }
  pose proof (shutdown_drains false demo_civil _ (after_acts (demo_acts ++ demo_end)) 0 (SdReturned true)
    demo_civil_ok Hr) as Hd.
  assert (shutdowns (after_acts (demo_acts ++ demo_end)) !! 0%nat = Some (SdReturned true)) as H0
    by (vm_compute; reflexivity).
  destruct (parse (str "* * * * *")) as [sc| |] eqn:Hp; [|vm_compute in Hp; discriminate Hp..].
  specialize (Hd H0 ltac:(discriminate) (rtc_refl _ _)). destruct Hd as (_ & Hadd & Hfin).
  split; [vm_compute; reflexivity|]. split; [exact (Hadd _ _ Hp)|exact (Hfin eq_refl)].
Defined.

Lemma at_most_once_witness :
  fired (after_acts demo_acts) = [(0%nat, 5); (1%nat, 5)] ∧ NoDup (fired (after_acts demo_acts)).
Proof.
  split; [vm_compute; reflexivity|].
  destruct (replay_ticking false demo_civil demo_acts 0 init (after_acts demo_acts)) as [m Ht];
    [apply ticking_init|reflexivity|vm_compute; reflexivity|].
  exact (at_most_once false demo_civil m _ Ht).
Defined.

Lemma fired_on_schedule_witness :
  run (after_acts demo_acts) ≠ Crashed ∧
  ∀ k m, (k, m) ∈ fired (after_acts demo_acts) → ∃ j f0 f1 f2 f3 f4,
    jobs (after_acts demo_acts) !! k = Some j
    ∧ Fields (spec j) = [f0; f1; f2; f3; f4] ∧ fires f0 f1 f2 f3 f4 (demo_civil m) = true.
Proof.
  apply (fired_on_schedule false demo_civil (after_acts demo_acts) demo_civil_ok).
  apply (replay_steps false demo_civil demo_acts). vm_compute. reflexivity.
Defined.

Lemma runDue_spec_witness :
  due_from false demo_civil 5 (jobs (after_acts demo_jobs)) 0 2 = [0; 1]%nat
  ∧ ∃ s', (exec false demo_civil (Tick 5) (after_acts demo_jobs) ≫= looks false demo_civil 3) = Some s'
    ∧ run s' = Waiting
    ∧ fired s' = [] ++ map (λ k, (k, 5)) (due_from false demo_civil 5 (jobs (after_acts demo_jobs)) 0 2).
Proof.
  split; [vm_compute; reflexivity|].
  apply (runDue_spec false demo_civil 5 (after_acts demo_jobs) demo_civil_ok);
    [|reflexivity|reflexivity].
  apply (replay_steps false demo_civil demo_jobs). vm_compute. reflexivity.
Defined.
