(* ===== verification/CronClock.v ===== *)
(** * crontab: options, and the clock that drives the scheduler (crontab/crontab.go)

    [New] with its options, and the goroutine [run]: a timer up to the next
    minute boundary, then a ticker.  Timers run on the monotonic clock, the
    minutes come off the wall clock; both are in nanoseconds.  The scheduler of
    CronScheduler.v is what this goroutine steps through [runDue]. *)
From Stdlib Require Import Ascii String.
From S2P Require Export Prelude CronSchedule CronScheduler.
Local Open Scope Z_scope.

(** ** Options and [New] *)

(** A [*time.Location] is the broken-down times it gives to the minutes. *)
Definition Location := Z → civil.

(** Who hears of a recovered panic: stderr, a function of the caller's, or a
    nil function, whose call panics in turn (and is recovered). *)
Inductive panic_handler := defaultPanicHandler | userPanicHandler | nilPanicHandler.

Record config := {
  loc : option Location;
  overlap : bool;
  onPanic : panic_handler;
}.

Definition Option := config → config.
Definition WithLocation (l : option Location) : Option := λ c,
  {| loc := l; overlap := overlap c; onPanic := onPanic c |}.
Definition WithOverlap : Option := λ c, {| loc := loc c; overlap := true; onPanic := onPanic c |}.
Definition WithPanicHandler (h : panic_handler) : Option := λ c,
  {| loc := loc c; overlap := overlap c; onPanic := h |}.

(** [New] calls every option, a nil one included. *)
Fixpoint apply_options {E} (opts : list (option Option)) (c : config) : result E config :=
  match opts with
  | [] => Ok c
  | Some opt :: opts => apply_options opts (opt c)
  | None :: _ => Panic "invalid memory address or nil pointer dereference"
  end.
Definition New {E} (UTC : Location) (opts : list (option Option)) : result E config :=
  apply_options opts {| loc := Some UTC; overlap := false; onPanic := defaultPanicHandler |}.

(** ** The goroutine [run] *)

Definition minute_ns : Z := 60 * 1000000000.
(** [t.Truncate(time.Minute)] *)
Definition truncate (t : Z) : Z := t / minute_ns * minute_ns.

(** Where the goroutine is: in the first [select]; about to call [c.now()];
    with the minute of that instant, about to take the read lock; in [runDue]
    past that point; in the [select] of the loop; returned; brought down by a
    nil location. *)
Inductive position :=
  | Aligning
  | Reading
  | Locking (minute : Z)
  | InDue
  | Looping
  | Over
  | Down.

Record clocked := {
  sch : state;
  mono : Z;                     (* the monotonic clock *)
  first : Z;                    (* when the timer fires *)
  ticker : option (Z * bool);   (* the time of its next tick; a tick in its channel *)
  pos : position;
  ticks : list Z;               (* the minutes read so far *)
  seen : list (Z * nat);        (* the loops of [runDue] completed: minute, jobs looked at *)
  skipped : list (nat * Z);     (* fires skipped because the job was running *)
}.

Inductive caction :=
  | Elapse (d : Z)
  | TimerC                      (* <-timer.C *)
  | TickerC                     (* <-tk.C *)
  | ReadNow                     (* c.now(), In, Truncate *)
  | Lock                        (* c.mu.RLock(), c.stopped.Load() *)
  | Return_                     (* runDue returns; the ticker is made *)
  | StopC                       (* <-c.stop *)
  | Other (a : action).         (* the loop of runDue, and everybody else *)

(** The channel of a ticker holds one tick; further ones are dropped. *)
Definition advance (now : Z) (tk : Z * bool) : Z * bool :=
  let '(next, pending) := tk in
  if now <? next then (next, pending)
  else (next + minute_ns * ((now - next) / minute_ns + 1), true).

(** The next state, with the ghost fields as they were. *)
Definition go (s : clocked) (sch' : state) (mono' : Z) (ticker' : option (Z * bool))
    (pos' : position) (ticks' : list Z) : clocked := {|
  sch := sch'; mono := mono'; first := first s; ticker := ticker'; pos := pos'; ticks := ticks';
  seen := seen s; skipped := skipped s;
|}.

Definition is_other (a : action) : bool := match a with Tick _ | Stop => false | _ => true end.

Section clock.
Variable cfg : config.
(** The wall clock at an instant of the monotonic clock. *)
Variable wall : Z → Z.

Definition civil_of : Location :=
  default (λ _, {| Minute := 0; Hour := 0; Day := 1; Month := 1; Weekday := 0 |}) (loc cfg).
#[local] Abbreviation exec := (exec (overlap cfg) civil_of).
Definition matching (minute : Z) (j : job) : bool :=
  match match_ (sched j) (civil_of minute) with Ok b => b | _ => false end.

(** What a step of the loop of [runDue] leaves in the ghost fields. *)
Definition note (a : action) (s : clocked) : list (Z * nat) * list (nat * Z) :=
  match a, run (sch s) with
  | Look, Dispatching minute k =>
      match jobs (sch s) !! k with
      | None => (seen s ++ [(minute, k)], skipped s)
      | Some j =>
          if matching minute j && bool_decide (last_fired j ≠ Some minute)
             && negb (overlap cfg) && running j
          then (seen s, skipped s ++ [(k, minute)]) else (seen s, skipped s)
      end
  | _, _ => (seen s, skipped s)
  end.

Definition cexec (a : caction) (s : clocked) : option clocked :=
  match a with
  | Elapse d =>
      if decide (0 ≤ d)
      then Some (go s (sch s) (mono s + d) (advance (mono s + d) <$> ticker s) (pos s) (ticks s))
      else None
  | TimerC =>
      match pos s with
      | Aligning =>
          if decide (first s ≤ mono s) then Some (go s (sch s) (mono s) (ticker s) Reading (ticks s)) else None
      | _ => None
      end
  | TickerC =>
      match pos s, ticker s with
      | Looping, Some (next, true) => Some (go s (sch s) (mono s) (Some (next, false)) Reading (ticks s))
      | _, _ => None
      end
  | ReadNow =>
      match pos s with
      | Reading =>
          match loc cfg with
          | Some _ =>
              Some (go s (sch s) (mono s) (ticker s) (Locking (wall (mono s) / minute_ns))
                      (ticks s ++ [wall (mono s) / minute_ns]))
          | None => Some (go s (sch s) (mono s) (ticker s) Down (ticks s))
          end
      | _ => None
      end
  | Lock =>
      match pos s with
      | Locking minute =>
          sch' ← exec (Tick minute) (sch s); Some (go s sch' (mono s) (ticker s) InDue (ticks s))
      | _ => None
      end
  | Return_ =>
      match pos s, run (sch s) with
      | InDue, Waiting =>
          Some (go s (sch s) (mono s) (Some (default (mono s + minute_ns, false) (ticker s))) Looping (ticks s))
      | _, _ => None
      end
  | StopC =>
      match pos s with
      | Aligning | Looping =>
          sch' ← exec Stop (sch s); Some (go s sch' (mono s) (ticker s) Over (ticks s))
      | _ => None
      end
  | Other a =>
      if is_other a then
        sch' ← exec a (sch s);
        Some {| sch := sch'; mono := mono s; first := first s; ticker := ticker s; pos := pos s;
                ticks := ticks s; seen := (note a s).1; skipped := (note a s).2 |}
      else None
  end.

(** The state when [run] has read [start] and made its timer. *)
Definition cinit (start : Z) : clocked := {|
  sch := init; mono := start;
  first := start + (truncate (wall start) + minute_ns - wall start);
  ticker := None; pos := Aligning; ticks := []; seen := []; skipped := [];
|}.

Definition cstep (s s' : clocked) : Prop := ∃ a, cexec a s = Some s'.

(** ** Every step is a step of the scheduler, or none *)

(** Inverts [cexec a s = Some s'] for a concrete [a]. *)
Ltac cexec_inv Hs :=
  cbn [cexec] in Hs;
  repeat match type of Hs with
  | Some _ = Some _ => injection Hs as <-
  | None = Some _ => discriminate Hs
  | _ ≫= _ = Some _ =>
      let s1 := fresh "sch1" in let H1 := fresh "Hsch" in apply bind_Some in Hs as (s1 & H1 & Hs)
  | context [match ?x with _ => _ end] =>
      lazymatch x with context [match _ with _ => _ end] => fail | _ => destruct x eqn:? end
  end; unfold go; cbn [sch mono first ticker pos ticks seen skipped].

Lemma cexec_sch a s s' :
  cexec a s = Some s' → sch s' = sch s ∨ ∃ b, exec b (sch s) = Some (sch s').
Proof using Type. intros Hs. destruct a; cexec_inv Hs; eauto. Qed.

Lemma crun_refines s s' : rtc cstep s s' → rtc (step (overlap cfg) civil_of) (sch s) (sch s').
Proof using Type.
  induction 1 as [|s s1 s' [a Ha] _ IH]; [done|].
  destruct (cexec_sch _ _ _ Ha) as [Heq|[b Hb]]; [by rewrite <-Heq|].
  eapply rtc_l; [by exists b|exact IH].
Qed.

(** ** The dispatcher's place, and the ghost fields *)

Definition handled (s : clocked) (k : nat) (m : Z) : Prop :=
  ∀ j, jobs (sch s) !! k = Some j → matching m j = true →
       (k, m) ∈ fired (sch s) ∨ (k, m) ∈ skipped s.

(** Minutes read but not yet looked through. *)
Definition outstanding (s : clocked) (m : Z) : Prop :=
  last (ticks s) = Some m ∧
  match pos s with
  | Locking _ => True
  | InDue => run (sch s) ≠ Waiting
  | _ => False
  end.

Record dinv (s : clocked) : Prop := {
  d_last k j m : jobs (sch s) !! k = Some j → last_fired j = Some m → (k, m) ∈ fired (sch s);
  d_seen m n : (m, n) ∈ seen s → (n ≤ length (jobs (sch s)))%nat ∧ m ∈ ticks s
                                 ∧ ∀ k, (k < n)%nat → handled s k m;
  d_pos : match pos s with
          | InDue => match run (sch s) with
                     | Dispatching m k => last (ticks s) = Some m ∧ (k ≤ length (jobs (sch s)))%nat
                                          ∧ ∀ k', (k' < k)%nat → handled s k' m
                     | Exited => False
                     | _ => True
                     end
          | Locking m => last (ticks s) = Some m ∧ run (sch s) = Waiting
          | Over => run (sch s) = Exited
          | _ => run (sch s) = Waiting
          end;
  d_done m : stopped (sch s) = false → m ∈ ticks s → (∃ n, (m, n) ∈ seen s) ∨ outstanding s m;
}.

Lemma dinv_init start : dinv (cinit start).
Proof using Type.
  split; simpl; try done; by intros ???%elem_of_nil || intros ??%elem_of_nil.
Qed.

Lemma fired_grows b x x' k m : exec b x = Some x' → (k, m) ∈ fired x → (k, m) ∈ fired x'.
Proof using Type.
  intros Hb Hin. destruct (fired_step _ _ _ _ _ Hb) as [[-> _]|(m0 & k0 & j & _ & _ & _ & _ & _ & -> & _)];
    [done|]. apply elem_of_app. by left.
Qed.

(** Handled jobs stay handled. *)
Lemma handled_kept s s' k m :
  (k < length (jobs (sch s)))%nat → jobs_kept (sch s) (sch s') →
  (∀ x, x ∈ fired (sch s) → x ∈ fired (sch s')) → (∀ x, x ∈ skipped s → x ∈ skipped s') →
  handled s k m → handled s' k m.
Proof using Type.
  intros Hk [_ Hj] Hf Hsk Hh j' Hj' Hm. specialize (Hj k j' Hj').
  destruct (jobs (sch s) !! k) as [j|] eqn:E; [|apply lookup_ge_None in E; lia].
  destruct Hj as (Hsc & _ & _). unfold matching in Hm. rewrite Hsc in Hm.
  destruct (Hh j E Hm); auto.
Qed.

Lemma d_last_kept s s' :
  jobs_kept (sch s) (sch s') → (∀ x, x ∈ fired (sch s) → x ∈ fired (sch s')) → dinv s →
  ∀ k j m, jobs (sch s') !! k = Some j → last_fired j = Some m → (k, m) ∈ fired (sch s').
Proof using Type.
  intros [_ Hj] Hf [Hl _ _ _] k j' m Hk Hm. specialize (Hj k j' Hk).
  destruct (jobs (sch s) !! k) as [j|] eqn:E; [|congruence].
  destruct Hj as (_ & _ & [Heq|(m' & Heq & Hin)]); [|congruence].
  apply Hf. eapply Hl; [exact E|congruence].
Qed.

(** A step of the clock goroutine that leaves the scheduler alone. *)
Lemma dinv_go s mono' tk' pos' ticks' :
  dinv s → (∀ m, m ∈ ticks s → m ∈ ticks') →
  match pos' with
  | InDue => pos s = InDue ∧ ticks' = ticks s
  | Locking m => last ticks' = Some m ∧ run (sch s) = Waiting
  | Over => run (sch s) = Exited
  | _ => run (sch s) = Waiting
  end →
  (∀ m, m ∈ ticks' → (∃ n, (m, n) ∈ seen s) ∨ outstanding s m →
        (∃ n, (m, n) ∈ seen s) ∨ outstanding (go s (sch s) mono' tk' pos' ticks') m) →
  (∀ m, m ∈ ticks' → m ∈ ticks s ∨ outstanding (go s (sch s) mono' tk' pos' ticks') m) →
  dinv (go s (sch s) mono' tk' pos' ticks').
Proof using Type.
  intros [Hl Hs Hp Hd] Ht Hpos Hold Hnew. split; cbn [go sch mono first ticker pos ticks seen skipped].
  - exact Hl.
  - intros m n Hin. destruct (Hs m n Hin) as (? & ? & ?). auto.
  - destruct pos'; try exact Hpos. destruct Hpos as [Hpos ->]. by rewrite Hpos in Hp.
  - intros m Hst Hm. destruct (Hnew m Hm) as [Hm'|?]; [|by right]. apply Hold; auto.
Qed.

(** The scheduler moves, but not its dispatcher, or that takes the lock. *)
Lemma dinv_sched s x' b :
  dinv s → exec b (sch s) = Some x' → run x' = run (sch s) →
  ∀ sn sk, sn = seen s → sk = skipped s →
  dinv {| sch := x'; mono := mono s; first := first s; ticker := ticker s; pos := pos s;
          ticks := ticks s; seen := sn; skipped := sk |}.
Proof using Type.
  intros Hd Hb Hr sn sk -> ->. set (s' := {| sch := x' |}).
  pose proof (jobs_step _ _ _ _ _ Hb) as Hk.
  assert (∀ y, y ∈ fired (sch s) → y ∈ fired x') as Hf by (intros [??]; by eapply fired_grows).
  assert (∀ k m, (k < length (jobs (sch s)))%nat → handled s k m → handled s' k m) as Hh.
  { intros k m Hlt. by apply handled_kept. }
  pose proof (d_last_kept s s' Hk Hf Hd) as Hl. destruct Hk as [Hlen _]. destruct Hd as [_ Hs Hp Hd].
  split; [exact Hl|..]; unfold s'; cbn [sch mono first ticker pos ticks seen skipped].
  - intros m n Hin. destruct (Hs m n Hin) as (? & ? & ?). split_and?; [lia|done|].
    intros k Hlt. apply Hh; [lia|auto].
  - rewrite Hr. destruct (pos s); try done. destruct (run (sch s)); try done.
    destruct Hp as (? & ? & Hp). split_and?; [done|lia|]. intros k' Hlt. apply Hh; [lia|auto].
  - intros m Hst Hm. unfold outstanding. cbn [sch pos ticks]. rewrite Hr. apply Hd; [|done].
    destruct (stopped (sch s)) eqn:E; [|done]. by rewrite (stopped_step _ _ _ _ _ Hb E) in Hst.
Qed.

Lemma dinv_lock s m :
  dinv s → pos s = Locking m →
  dinv (go s (if stopped (sch s) then sch s else set_run (Dispatching m 0) (sch s))
          (mono s) (ticker s) InDue (ticks s)).
Proof using Type.
  intros [Hl Hs Hp Hd] Hpos. rewrite Hpos in Hp. destruct Hp as [Hlast Hw].
  split; cbn [go sch mono first ticker pos ticks seen skipped]; destruct (stopped (sch s)) eqn:Hst;
    try done.
  - by rewrite Hw.
  - cbn [set_run run]. split_and?; [done|simpl; lia|intros; lia].
  - rewrite Hst. done.
  - intros m' _ Hm. destruct (Hd m' eq_refl Hm) as [?|[Ho _]]; [by left|right]. by split.
Qed.

Lemma look_handles k m j x :
  (last_fired j = Some m → (k, m) ∈ fired x) → matching m j = true →
  (k, m) ∈ fired (look (overlap cfg) civil_of m k j x)
  ∨ last_fired j ≠ Some m ∧ overlap cfg = false ∧ running j = true.
Proof using Type.
  intros Hl. unfold matching, look. destruct (match_ _ _) as [b|e|p]; [|done..]. intros ->.
  case_decide as Hlf; [left; by apply Hl|].
  destruct (overlap cfg), (running j); simpl; auto; left; apply elem_of_app; right;
    by apply list_elem_of_singleton.
Qed.

Lemma looked_handled s x' m k j :
  dinv s → run (sch s) = Dispatching m k → jobs (sch s) !! k = Some j → exec Look (sch s) = Some x' →
  handled {| sch := x'; mono := mono s; first := first s; ticker := ticker s; pos := pos s;
             ticks := ticks s; seen := (note Look s).1; skipped := (note Look s).2 |} k m.
Proof using Type.
  clear wall. intros [Hlast _ _ _] Hr Hj Hb j' Hj' Hm.
  pose proof (proj2 (jobs_step _ _ _ _ _ Hb) k j' Hj') as Hsame. rewrite Hj in Hsame.
  destruct Hsame as (Hsc & _ & _). unfold matching in Hm. rewrite Hsc in Hm.
  cbn [CronScheduler.exec sch skipped] in *. rewrite Hr, Hj in Hb. injection Hb as <-.
  destruct (look_handles k m j (sch s)) as [?|(Hlf & Hov & Hrj)]; [by eauto|exact Hm|by left|right].
  unfold note, matching. rewrite Hr, Hj, Hm, Hov, Hrj, (bool_decide_eq_true_2 _ Hlf).
  apply elem_of_app. right. by apply list_elem_of_singleton.
Qed.

(** A look of the dispatcher, at a job or past the last one. *)
Lemma dinv_look s x' :
  dinv s → exec Look (sch s) = Some x' →
  dinv {| sch := x'; mono := mono s; first := first s; ticker := ticker s; pos := pos s;
          ticks := ticks s; seen := (note Look s).1; skipped := (note Look s).2 |}.
Proof using Type.
  clear wall. intros Hdi Hb. pose proof (jobs_step _ _ _ _ _ Hb) as Hk.
  assert (∀ y, y ∈ fired (sch s) → y ∈ fired x') as Hf by (intros [??]; by eapply fired_grows).
  assert (∀ y, y ∈ skipped s → y ∈ (note Look s).2) as Hsk.
  { intros y Hy. unfold note. repeat case_match; simpl; try done. apply elem_of_app. by left. }
  set (s' := {| sch := x' |}).
  assert (∀ k m, (k < length (jobs (sch s)))%nat → handled s k m → handled s' k m) as Hh.
  { intros k m Hlt. by apply handled_kept. }
  pose proof (d_last_kept s s' Hk Hf Hdi) as Hl. pose proof Hk as [Hlen _].
  pose proof Hdi as [Hlast Hs Hp Hd].
  assert (∀ m, stopped x' = false → m ∈ ticks s → (∃ n, (m, n) ∈ seen s) ∨ outstanding s m) as Hd'.
  { intros m Hst. apply Hd. destruct (stopped (sch s)) eqn:E; [|done].
    by rewrite (stopped_step _ _ _ _ _ Hb E) in Hst. }
  clear Hd. pose proof (λ m k j Hr Hj, looked_handled s x' m k j Hdi Hr Hj Hb) as Hkm. fold s' in Hkm.
  cbn [CronScheduler.exec] in Hb. unfold note in s', Hsk, Hh, Hl, Hkm.
  destruct (run (sch s)) as [|m k| |] eqn:Hr; [done| |done..].
  assert (pos s = InDue) as Hpos by (destruct (pos s) eqn:Epos; try done; naive_solver).
  rewrite ?Hr in Hp.
  rewrite Hpos in Hp. destruct Hp as (Hlt & Hkl & Hdone).
  destruct (jobs (sch s) !! k) as [j|] eqn:Hj; injection Hb as <-.
  - specialize (Hkm m k j eq_refl Hj).
    assert (seen s' = seen s) as Hseen by (unfold s'; cbn [seen]; by destruct (_ && _)).
    split; [exact Hl|..]; unfold s' in *; cbn [sch mono first ticker pos ticks seen skipped] in *;
      rewrite ?Hseen.
    + intros m' n Hin. destruct (Hs m' n Hin) as (? & ? & ?). split_and?; [lia|done|].
      intros k' Hlt'. apply Hh; [lia|auto].
    + rewrite Hpos. assert (run (look (overlap cfg) civil_of m k j (sch s)) = Dispatching m (S k)
        ∨ run (look (overlap cfg) civil_of m k j (sch s)) = Crashed) as [->| ->];
        [unfold look; repeat case_match; auto| |done].
      apply lookup_lt_Some in Hj. split_and?; [done|lia|]. intros k' Hk'.
      destruct (decide (k' = k)) as [->|]; [exact Hkm|]. apply Hh; [lia|apply Hdone; lia].
    + intros m' Hst Hm. destruct (Hd' m' Hst Hm) as [?|[Ho Hrun]]; [by left|right].
      split; [done|]. cbn [pos sch]. rewrite Hpos. unfold look. repeat case_match; done.
  - split; [exact Hl|..]; unfold s' in *; cbn [sch mono first ticker pos ticks seen skipped fst snd] in *.
    + intros m' n [Hin|[= -> ->]%list_elem_of_singleton]%elem_of_app.
      * destruct (Hs m' n Hin) as (? & ? & ?). split_and?; [lia|done|].
        intros k' Hlt'. apply Hh; [lia|auto].
      * split_and?; [done|by apply last_Some_elem_of|]. intros k' Hlt'. apply Hh; [lia|auto].
    + by rewrite Hpos.
    + intros m' Hst Hm. left. destruct (Hd' m' Hst Hm) as [[n Hin]|[Ho _]].
      * exists n. apply elem_of_app. by left.
      * exists k. apply elem_of_app. right. apply list_elem_of_singleton. congruence.
Qed.

Lemma dinv_step a s s' : dinv s → cexec a s = Some s' → dinv s'.
Proof using Type.
  intros Hd Hs. pose proof Hd as [_ _ Hp _]. destruct a; cbn [cexec] in Hs.
  - case_decide; [|done]. injection Hs as <-. apply dinv_go; try done; [|auto].
    by destruct (pos s); try destruct Hp.
  - destruct (pos s) eqn:Hpos; try done. case_decide; [|done]. injection Hs as <-.
    apply dinv_go; auto. intros m _ [?|[_ Ho]]; [by left|]. by rewrite Hpos in Ho.
  - destruct (pos s) eqn:Hpos; try done. destruct (ticker s) as [[n []]|]; try done. injection Hs as <-.
    apply dinv_go; auto. intros m _ [?|[_ Ho]]; [by left|]. by rewrite Hpos in Ho.
  - destruct (pos s) eqn:Hpos; try done. destruct (loc cfg); injection Hs as <-; apply dinv_go; auto.
    + intros m Hm. apply elem_of_app. by left.
    + by rewrite last_snoc.
    + intros m _ [?|[_ Ho]]; [by left|]. by rewrite Hpos in Ho.
    + intros m [Hm|Hm%list_elem_of_singleton]%elem_of_app; [by left|right].
      split; [|done]. cbn [go ticks]. by rewrite last_snoc, Hm.
    + intros m _ [?|[_ Ho]]; [by left|]. by rewrite Hpos in Ho.
  - destruct (pos s) eqn:Hpos; try done. cbn [CronScheduler.exec] in Hs. rewrite (proj2 Hp) in Hs.
    injection Hs as <-. by apply dinv_lock.
  - destruct (pos s) eqn:Hpos; try done. destruct (run (sch s)) eqn:Hr; try done. injection Hs as <-.
    apply dinv_go; auto. intros m _ [?|[_ Ho]]; [by left|]. rewrite Hpos in Ho. by rewrite Hr in Ho.
  - assert (run (sch s) = Waiting → (∀ m, ¬ outstanding s m) →
      ∀ x', exec Stop (sch s) = Some x' → dinv (go s x' (mono s) (ticker s) Over (ticks s))) as Hover.
    { intros Hw Hno x' Hb. cbn [CronScheduler.exec] in Hb. rewrite Hw in Hb.
      destruct (stop (sch s)); [|done]. injection Hb as <-. destruct Hd as [Hl Hs' _ Hdn].
      split; try done. intros m Hst Hm. destruct (Hdn m Hst Hm) as [?|Ho]; [by left|].
      by destruct (Hno m). }
    destruct (pos s) eqn:Hpos; try done; apply bind_Some in Hs as (x' & Hb & [= <-]);
      apply Hover; try done; intros m [_ Ho]; by rewrite Hpos in Ho.
  - destruct (is_other a) eqn:Ho; [|done]. apply bind_Some in Hs as (x' & Hb & [= <-]).
    destruct (decide (a = Look)) as [->|Hl]; [by apply dinv_look|].
    apply (dinv_sched s x' a); try done.
    + apply (run_quiet _ _ _ _ _ Hb); [intros m ->; done|done|intros ->; done].
    + unfold note. by destruct a.
    + unfold note. by destruct a.
Qed.

Lemma dinv_reachable start s : rtc cstep (cinit start) s → dinv s.
Proof using Type.
  intros Hr. assert (∀ s0, dinv s0 → rtc cstep s0 s → dinv s) as Hgen; [|by eapply Hgen, Hr; apply dinv_init].
  intros s0 Hd. induction 1 as [|x y z [a Ha] _ IH]; [done|]. by eapply IH, dinv_step.
Qed.

(** ** A wall clock that does not go back *)

Section forward.
Hypothesis wall_forward : ∀ t t', t ≤ t' → wall t ≤ wall t'.

Lemma minute_forward t t' : t ≤ t' → wall t / minute_ns ≤ wall t' / minute_ns.
Proof using wall_forward. intros Ht. apply Z.div_le_mono; [done|auto]. Qed.

(** The last minute handed to the scheduler, and the one about to be, are not
    ahead of the clock; so are all the minutes read. *)
Record tinv (s : clocked) : Prop := {
  t_ticking : ∃ m, ticking (overlap cfg) civil_of m (sch s)
    ∧ m ≤ wall (mono s) / minute_ns
    ∧ ∀ m', pos s = Locking m' → m ≤ m' ≤ wall (mono s) / minute_ns;
  t_ticks m : m ∈ ticks s → m ≤ wall (mono s) / minute_ns;
}.

Lemma tinv_step a s s' : tinv s → cexec a s = Some s' → tinv s'.
Proof using wall_forward.
  intros [(m & Ht & Hm & Hl) Hts] Hs.
  assert (∀ x' tk' pos', (x' = sch s ∨ ∃ b, (∀ m', b ≠ Tick m') ∧ exec b (sch s) = Some x') →
    (∀ m', pos' = Locking m' → pos s = Locking m') →
    tinv (go s x' (mono s) tk' pos' (ticks s))) as Hgo.
  { intros x' tk' pos' Hx Hp. split; [|exact Hts]. exists m. split; [|split; [exact Hm|auto]].
    destruct Hx as [->|(b & Hb & Hx)]; [done|]. by eapply ticking_step. }
  destruct a as [d| | | | | | |a]; cbn [cexec] in Hs.
  - case_decide as Hd; [|done]. injection Hs as <-.
    pose proof (minute_forward (mono s) (mono s + d) ltac:(lia)).
    split; cbn [go mono pos ticks sch].
    + exists m. split; [done|]. split; [lia|]. intros m' Hm'. specialize (Hl m' Hm'). lia.
    + intros m' Hm'. specialize (Hts m' Hm'). lia.
  - destruct (pos s); try done. case_decide; [|done]. injection Hs as <-. apply Hgo; auto. done.
  - destruct (pos s); try done. destruct (ticker s) as [[n []]|]; try done. injection Hs as <-.
    apply Hgo; auto. done.
  - destruct (pos s); try done. destruct (loc cfg); injection Hs as <-; [|apply Hgo; auto; done].
    split; cbn [go mono pos ticks sch].
    + exists m. split_and?; try done. intros m' [= <-]. lia.
    + intros m' [Hm'|Hm'%list_elem_of_singleton]%elem_of_app; [by apply Hts|lia].
  - destruct (pos s) as [| |minute| | | |] eqn:Hpos; try done.
    apply bind_Some in Hs as (x' & Hx & [= <-]). destruct (Hl _ eq_refl).
    split; cbn [go mono pos ticks sch]; [|exact Hts]. exists minute. split; [|split; [lia|done]].
    eapply ticking_tick; [exact Ht|lia|exact Hx].
  - destruct (pos s); try done. destruct (run (sch s)); try done. injection Hs as <-.
    apply Hgo; auto. done.
  - destruct (pos s); try done; apply bind_Some in Hs as (x' & Hx & [= <-]); apply Hgo; try done;
      right; by exists Stop.
  - destruct (is_other a) eqn:Ho; [|done]. apply bind_Some in Hs as (x' & Hx & [= <-]).
    split; [|exact Hts]. exists m. split; [|split; [exact Hm|exact Hl]].
    eapply ticking_step; [exact Ht| |exact Hx]. by intros m' ->.
Qed.

Lemma tinv_reachable start s : rtc cstep (cinit start) s → tinv s.
Proof using wall_forward.
  intros Hr. assert (∀ s0, tinv s0 → rtc cstep s0 s → tinv s) as Hgen.
  { intros s0 Hd. induction 1 as [|x y z [a Ha] _ IH]; [done|]. by eapply IH, tinv_step. }
  eapply Hgen, Hr. split; [|by intros ? ?%elem_of_nil].
  exists (wall start / minute_ns). split_and?; [constructor|done|done].
Qed.
End forward.

(** ** A prompt goroutine under a steady wall clock *)

Section prompt.
(** How long the goroutine may take from the first boundary to the making of
    its ticker, and from a tick to the reading of the clock. *)
Variables D1 D2 : Z.

Definition reading (s : clocked) : bool := match pos s with Reading => true | _ => false end.
Definition halted (s : clocked) : bool := match pos s with Over | Down => true | _ => false end.
(** By when the goroutine has to act. *)
Definition limit (s : clocked) : Z :=
  match ticker s with
  | None => first s + D1
  | Some (next, pending) => if pending || reading s then next - minute_ns + D2 else next + D2
  end.
Definition prompt_step (s s' : clocked) : Prop :=
  ∃ a, cexec a s = Some s' ∧ ∀ d, a = Elapse d → halted s = false → mono s + d ≤ limit s.

Hypothesis D1_pos : 0 ≤ D1.
Hypothesis D2_pos : 0 ≤ D2.
Hypothesis D_small : D1 + D2 < minute_ns.
Hypothesis steady : ∀ t, wall t = wall 0 + t.

(** The minutes read are consecutive, from [M] on, and none is left out. *)
Record pinv (M : Z) (s : clocked) : Prop := {
  p_first : wall (first s) = M * minute_ns;
  p_ticks : ∃ n, 0 ≤ n ∧ ticks s = seqZ M n;
  p_ticker : halted s = false →
    match ticker s with
    | None =>
        mono s ≤ first s + D1 ∧
        match pos s with
        | Aligning => ticks s = []
        | Reading => ticks s = [] ∧ first s ≤ mono s
        | Locking _ | InDue => ticks s = [M] ∧ first s ≤ mono s
        | _ => False
        end
    | Some (next, pending) =>
        ∃ c n, first s ≤ c ≤ first s + D1 ∧ 1 ≤ n ∧ next = c + n * minute_ns ∧ mono s < next
          ∧ pos s ≠ Aligning ∧ (pending && reading s) = false
          ∧ if pending || reading s
            then ticks s = seqZ M (n - 1) ∧ next - minute_ns ≤ mono s ≤ next - minute_ns + D2
            else ticks s = seqZ M n
    end;
}.

Lemma seqZ_snoc M n : 0 ≤ n → seqZ M n ++ [M + n] = seqZ M (n + 1).
Proof. intros Hn. rewrite seqZ_app by lia. done. Qed.

Lemma advance_before now next p : now < next → advance now (next, p) = (next, p).
Proof. intros H. unfold advance. by rewrite (proj2 (Z.ltb_lt _ _) H). Qed.

Lemma advance_after now next p :
  next ≤ now < next + minute_ns → advance now (next, p) = (next + minute_ns, true).
Proof.
  intros H. unfold advance. rewrite (proj2 (Z.ltb_ge _ _)) by lia.
  by rewrite Z.div_small by lia.
Qed.

Lemma wall_at t t' : wall t = wall t' + (t - t').
Proof using steady. rewrite (steady t), (steady t'). lia. Qed.

Lemma pinv_elapse M s d s' :
  pinv M s → cexec (Elapse d) s = Some s' → (halted s = false → mono s + d ≤ limit s) → pinv M s'.
Proof using D1_pos D2_pos D_small.
  intros [Hf Ht Hk] Hs Hlim. cbn [cexec] in Hs. case_decide as Hd; [|done]. injection Hs as <-.
  split; [exact Hf|exact Ht|]. unfold halted, reading in *. cbn [go sch mono first ticker pos ticks].
  intros Hh. specialize (Hk Hh). specialize (Hlim Hh). unfold limit, reading in Hlim.
  destruct (ticker s) as [[next p]|]; cbn [option_map fmap option_fmap] in *.
  2:{ destruct Hk as [Hm Hp]. split; [lia|]. destruct (pos s); try done;
      (split; [apply Hp|destruct Hp; lia]). }
  destruct Hk as (c & n & Hc & Hn & Hnext & Hmono & Hpos & Hpr & Hcase).
  destruct (p || match pos s with Reading => true | _ => false end) eqn:Hb.
  - rewrite advance_before by lia. exists c, n. rewrite Hb. destruct Hcase. by split_and?; lia || done.
  - destruct (decide (mono s + d < next)) as [Hlt|Hge].
    + rewrite advance_before by lia. exists c, n. rewrite Hb. by split_and?; lia || done.
    + rewrite advance_after by lia. exists c, (n + 1). apply orb_false_elim in Hb as [-> Hr].
      cbn [orb andb]. rewrite Hr. split_and?; try lia; try done.
      by replace (n + 1 - 1) with n by lia.
Qed.

(** A step that reads no clock: the minutes read stay, and so does the place
    but for moves that the account allows. *)
Lemma pinv_go M s x' tk' pos' :
  pinv M s → tk' = ticker s →
  (pos' = pos s ∨ pos' = Over ∨ pos' = Down ∨ (∃ m, pos s = Locking m ∧ pos' = InDue)
   ∨ (pos s = Aligning ∧ pos' = Reading ∧ first s ≤ mono s)
   ∨ (pos s = InDue ∧ pos' = Looping ∧ is_Some (ticker s))) →
  pinv M (go s x' (mono s) tk' pos' (ticks s)).
Proof using Type.
  intros [Hf Ht Hk] -> Hp. split; [exact Hf|exact Ht|]. unfold halted, reading in *.
  cbn [go sch mono first ticker pos ticks].
  destruct Hp as [->|[->|[->|Hp]]]; [exact Hk|done..|].
  destruct Hp as [(m & Hp & ->)|[(Hp & -> & Hm)|(Hp & -> & [tk Htk])]]; rewrite Hp in Hk;
    intros _; specialize (Hk eq_refl).
  - destruct (ticker s) as [[next p]|]; [|exact Hk].
    destruct Hk as (c & n & ? & ? & ? & ? & ? & ? & ?). exists c, n. by split_and?; done || tauto || lia.
  - destruct (ticker s) as [[next p]|]; [|by destruct Hk].
    by destruct Hk as (c & n & _ & _ & _ & _ & ? & _).
  - rewrite Htk in *. destruct tk as [next p].
    destruct Hk as (c & n & ? & ? & ? & ? & ? & ? & ?). exists c, n. by split_and?; done || tauto || lia.
Qed.

Lemma pinv_read M s :
  pinv M s → pos s = Reading →
  pinv M (go s (sch s) (mono s) (ticker s) (Locking (wall (mono s) / minute_ns))
            (ticks s ++ [wall (mono s) / minute_ns])).
Proof using D1_pos D2_pos D_small steady.
  intros [Hf Ht Hk] Hp. unfold halted, reading in Hk. rewrite Hp in Hk. specialize (Hk eq_refl).
  pose proof (wall_at (mono s) (first s)) as Hw. rewrite Hf in Hw.
  assert (∀ n, n * minute_ns ≤ mono s - first s < (n + 1) * minute_ns →
               wall (mono s) / minute_ns = M + n) as Hdiv.
  { intros n Hn. rewrite Hw. symmetry. apply (Z.div_unique _ _ _ (mono s - first s - n * minute_ns)); lia. }
  destruct (ticker s) as [[next p]|] eqn:Htk.
  - destruct Hk as (c & n & Hc & Hn & Hnext & Hmono & Hpos & Hpr & Hcase).
    rewrite orb_true_r in Hcase. destruct Hcase as [Hticks Hm]. rewrite andb_true_r in Hpr. subst p.
    rewrite (Hdiv (n - 1)) by lia.
    assert (seqZ M (n - 1) ++ [M + (n - 1)] = seqZ M n) as Hseq
      by (rewrite seqZ_snoc by lia; f_equal; lia).
    split; cbn [go sch mono first ticker pos ticks]; [done|exists n; rewrite Hticks; by split; [lia|]|].
    intros _. exists c, n. cbn [orb andb]. rewrite Hticks. unfold reading. by split_and?; try lia.
  - destruct Hk as [Hm [Hticks Hle]]. rewrite (Hdiv 0) by lia. rewrite Z.add_0_r, Hticks.
    split; cbn [go sch mono first ticker pos ticks]; [done|by exists 1|].
    intros _. split; [lia|]. by split.
Qed.

Lemma pinv_step M s s' : pinv M s → prompt_step s s' → pinv M s'.
Proof using D1_pos D2_pos D_small steady.
  intros Hi (a & Hs & Hlim). destruct a as [d| | | | | | |a].
  1:{ eapply pinv_elapse; [exact Hi|exact Hs|by apply Hlim]. }
  all: cbn [cexec] in Hs.
  - destruct (pos s) eqn:Hp; try done. case_decide; [|done]. injection Hs as <-.
    apply pinv_go; auto 10.
  - destruct (pos s) eqn:Hp; try done. destruct (ticker s) as [[next []]|] eqn:Htk; try done.
    injection Hs as <-. destruct Hi as [Hf Ht Hk]. unfold halted, reading in Hk.
    rewrite Hp, Htk in Hk. specialize (Hk eq_refl).
    destruct Hk as (c & n & Hc & Hn & Hnext & Hmono & _ & _ & Hcase).
    split; [exact Hf|exact Ht|]. intros _. exists c, n. by split_and?; done || tauto || lia.
  - destruct (pos s) eqn:Hp; try done. destruct (loc cfg); injection Hs as <-.
    + by apply pinv_read.
    + apply pinv_go; auto.
  - destruct (pos s) eqn:Hp; try done. apply bind_Some in Hs as (x' & Hx & [= <-]).
    apply pinv_go; auto. right; right; right; left. eauto.
  - destruct (pos s) eqn:Hp; try done. destruct (run (sch s)); try done. injection Hs as <-.
    destruct (ticker s) as [tk|] eqn:Htk.
    + apply pinv_go; [exact Hi|by rewrite Htk|]. do 5 right. rewrite Htk. eauto.
    + destruct Hi as [Hf Ht Hk]. unfold halted in Hk. rewrite Hp, Htk in Hk.
      destruct (Hk eq_refl) as (Hm & Hticks & Hle).
      split; [exact Hf|exact Ht|]. intros _. exists (mono s), 1. rewrite Hticks.
      cbn [go mono first ticks]. by split_and?; try (unfold minute_ns; lia).
  - destruct (pos s) eqn:Hp; try done; apply bind_Some in Hs as (x' & Hx & [= <-]); apply pinv_go; auto.
  - destruct (is_other a); [|done]. apply bind_Some in Hs as (x' & Hx & [= <-]).
    destruct Hi as [Hf Ht Hk]. by split.
Qed.

(** The first boundary after [start], in minutes. *)
Definition first_minute (start : Z) : Z := wall start / minute_ns + 1.

Lemma pinv_init start : pinv (first_minute start) (cinit start).
Proof using D1_pos steady.
  assert (0 ≤ wall start - truncate (wall start) < minute_ns) as Hb.
  { unfold truncate. pose proof (Z.mod_pos_bound (wall start) minute_ns ltac:(done)).
    rewrite (Z.mod_eq (wall start) minute_ns) in * by done. lia. }
  split; cbn [cinit first ticks ticker mono pos].
  - rewrite (wall_at _ start). unfold first_minute, truncate in *. lia.
  - by exists 0.
  - intros _. split; [lia|done].
Qed.

Lemma pinv_reachable start s : rtc prompt_step (cinit start) s → pinv (first_minute start) s.
Proof using D1_pos D2_pos D_small steady.
  intros Hr. assert (∀ M s0, pinv M s0 → rtc prompt_step s0 s → pinv M s) as Hgen.
  { intros M s0 Hd. induction 1 as [|x y z Ha _ IH]; [done|]. by eapply IH, pinv_step. }
  eapply Hgen, Hr. apply pinv_init.
Qed.

Lemma prompt_steps s s' : rtc prompt_step s s' → rtc cstep s s'.
Proof using Type. induction 1 as [|x y z (a & Ha & _) _ IH]; [done|]. eapply rtc_l; [by exists a|done]. Qed.
End prompt.

(** ** What is kept along a run *)

Lemma cjobs_step a s s' : cexec a s = Some s' → jobs_kept (sch s) (sch s').
Proof using Type.
  intros Hs. destruct (cexec_sch _ _ _ Hs) as [->|[b Hb]]; [by apply jobs_kept_refl|].
  by eapply jobs_step.
Qed.

(** Seen from a state with [n0] jobs in which the minutes [ts] had been read:
    the clock goes on, jobs stay, and minutes read later are looked through
    with those jobs. *)
Record later (s0 s : clocked) : Prop := {
  l_mono : mono s0 ≤ mono s;
  l_first : first s = first s0;
  l_jobs k j : jobs (sch s0) !! k = Some j → ∃ j', jobs (sch s) !! k = Some j' ∧ sched j' = sched j;
  l_seen m n : (m, n) ∈ seen s → m ∉ ticks s0 → (length (jobs (sch s0)) ≤ n)%nat;
}.

Lemma seen_step a s s' m n :
  cexec a s = Some s' → (m, n) ∈ seen s' → (m, n) ∈ seen s ∨ jobs (sch s) !! n = None.
Proof using Type.
  intros Hs Hin. destruct a as [d| | | | | | |a]; cexec_inv Hs; cbn [seen] in *; auto.
  unfold note in Hin. destruct a; auto. destruct (run (sch s)); auto.
  destruct (jobs (sch s) !! k) as [j|] eqn:Hj.
  - destruct (_ && _); auto.
  - apply elem_of_app in Hin as [?|[= -> ->]%list_elem_of_singleton]; auto.
Qed.

Lemma mono_step a s s' : cexec a s = Some s' → mono s ≤ mono s' ∧ first s' = first s.
Proof using Type. intros Hs. destruct a; cexec_inv Hs; split; lia || done. Qed.

Lemma later_reachable s0 s : dinv s0 → rtc cstep s0 s → later s0 s.
Proof using Type.
  intros Hd Hr. assert (later s0 s0) as H0.
  { split; [done|done|by eauto|]. intros m n Hin Hm. destruct Hd as [_ Hs _ _].
    by destruct (Hs m n Hin) as (_ & ? & _). }
  assert (∀ x, later s0 x → rtc cstep x s → later s0 s) as Hgen; [|by apply (Hgen s0)].
  clear H0 Hr. intros x Hx. induction 1 as [|x y z [a Ha] _ IH]; [done|]. apply IH.
  destruct Hx as [Hm Hf Hj Hs]. pose proof (cjobs_step _ _ _ Ha) as [Hlen Hk].
  destruct (mono_step _ _ _ Ha). split; [lia|congruence| |].
  - intros k j Hkj. destruct (Hj k j Hkj) as (j1 & Hj1 & Hsc).
    assert (is_Some (jobs (sch y) !! k)) as [j2 Hj2].
    { apply lookup_lt_is_Some. apply lookup_lt_Some in Hj1. lia. }
    specialize (Hk k j2 Hj2). rewrite Hj1 in Hk. exists j2. split; [done|]. by rewrite (proj1 Hk).
  - intros m n Hin Hm'. destruct (seen_step _ _ _ _ _ Ha Hin) as [?|Hn]; [by eapply Hs|].
    apply lookup_ge_None in Hn. destruct (decide (length (jobs (sch s0)) ≤ n)%nat) as [|Hlt]; [done|].
    destruct (lookup_lt_is_Some_2 (jobs (sch s0)) n) as [j Hjn]; [lia|].
    destruct (Hj _ _ Hjn) as (j' & Hj' & _). apply lookup_lt_Some in Hj'. lia.
Qed.

Lemma skipped_overlap start s : overlap cfg = true → rtc cstep (cinit start) s → skipped s = [].
Proof using Type.
  intros Ho Hr. assert (∀ x, skipped x = [] → rtc cstep x s → skipped s = []) as Hgen; [|exact (Hgen (cinit start) eq_refl Hr)].
  clear Hr. intros x Hx Hr. revert Hx.
  induction Hr as [|x y z [a Ha] _ IH]; [done|]. intros Hx. apply IH.
  destruct a as [d| | | | | | |a]; cexec_inv Ha; try exact Hx.
  unfold note. destruct a; try done. destruct (run (sch x)) as [|m k| |]; try done.
  destruct (jobs (sch x) !! k); [|done]. by rewrite Ho, andb_false_r.
Qed.
End clock.

(** ** Theorems *)

(** C26: The clocked scheduler is the scheduler of CronScheduler.v: every run of the
    goroutine with its timer, ticker and clocks is a run of it.  And as long as
    the wall clock does not go back, no job is dispatched twice for the same
    minute, however late, early or often the ticks come. *)
Theorem wall_at_most_once cfg wall start s :
  (∀ t t', t ≤ t' → wall t ≤ wall t') → rtc (cstep cfg wall) (cinit wall start) s →
  rtc (step (overlap cfg) (civil_of cfg)) init (sch s) ∧ NoDup (fired (sch s)).
Proof.
  intros Hw Hr. split; [by apply (crun_refines cfg wall (cinit wall start))|].
  destruct (tinv_reachable cfg wall Hw start s Hr) as [(m & Ht & _) _].
  by destruct (last_inv_ticking _ _ _ _ Ht).
Qed.

(** The minutes that have been read, by a goroutine back in its [select]. *)
Lemma looping_ticks wall D1 D2 M s m :
  (∀ t, wall t = wall 0 + t) → pinv wall D1 D2 M s → pos s = Looping →
  M ≤ m → m * minute_ns + D1 + D2 < wall (mono s) → 0 ≤ D2 → m ∈ ticks s.
Proof.
  intros Hst [Hf _ Hk] Hpos HM Hafter HD2. unfold halted, reading in Hk. rewrite Hpos in Hk.
  specialize (Hk eq_refl). pose proof (wall_at wall Hst (mono s) (first s)) as Hw. rewrite Hf in Hw.
  destruct (ticker s) as [[next p]|]; [|by destruct Hk].
  destruct Hk as (c & n & Hc & Hn & Hnext & Hmono & _ & _ & Hcase). rewrite orb_false_r in Hcase.
  assert (0 < minute_ns) by done.
  destruct p; [destruct Hcase as [-> Hm]|rewrite Hcase]; apply elem_of_seqZ; split; [lia|nia|lia|nia].
Qed.

(** C17: No due minute is missed while the scheduler is not stopped.  If the wall
    clock is steady and the goroutine is prompt ([D1] from the first boundary to its ticker, [D2] from each tick to
    reading the clock, together less than a minute), then a job registered
    before a minute that its schedule text denotes has, once that minute is
    [D1 + D2] past and the goroutine is back in its [select], been dispatched
    for it, or been skipped because its last run was still going on (never
    with [WithOverlap]). *)
Theorem no_due_minute_missed cfg wall D1 D2 start s0 s k j f0 f1 f2 f3 f4 m :
  (∀ t, wall t = wall 0 + t) → 0 ≤ D1 → 0 ≤ D2 → D1 + D2 < minute_ns →
  (∀ m, civil_ok (civil_of cfg m)) →
  rtc (prompt_step cfg wall D1 D2) (cinit wall start) s0 → rtc (prompt_step cfg wall D1 D2) s0 s →
  jobs (sch s0) !! k = Some j → Fields (spec j) = [f0; f1; f2; f3; f4] →
  fires f0 f1 f2 f3 f4 (civil_of cfg m) = true →
  wall (mono s0) < m * minute_ns → m * minute_ns + D1 + D2 < wall (mono s) →
  pos s = Looping → stopped (sch s) = false →
  (k, m) ∈ fired (sch s) ∨ overlap cfg = false ∧ (k, m) ∈ skipped s.
Proof.
  intros Hst H1 H2 H12 Hc Hr0 Hr Hj Hfields Hfires Hbefore Hafter Hpos Hstop.
  assert (∀ t t', t ≤ t' → wall t ≤ wall t') as Hfwd by (intros; rewrite (Hst t), (Hst t'); lia).
  pose proof (prompt_steps cfg wall D1 D2 _ _ Hr0) as Hc0.
  pose proof (prompt_steps cfg wall D1 D2 _ _ Hr) as Hcs.
  pose proof (transitivity Hr0 Hr) as Hpr.
  pose proof (prompt_steps cfg wall D1 D2 _ _ Hpr) as Hall.
  pose proof (later_reachable cfg wall s0 s (dinv_reachable cfg wall start s0 Hc0) Hcs) as Hlater.
  pose proof (dinv_reachable cfg wall start s Hall) as Hd.
  assert (m ∉ ticks s0) as Hnew.
  { intros Hin. pose proof (t_ticks _ _ _ (tinv_reachable cfg wall Hfwd start s0 Hc0) m Hin) as Hle.
    pose proof (Z.mul_div_le (wall (mono s0)) minute_ns ltac:(done)). nia. }
  assert (m ∈ ticks s) as Hin.
  { eapply looping_ticks; [exact Hst|exact (pinv_reachable cfg wall D1 D2 H1 H2 H12 Hst start s Hpr)|done| |done|done].
    pose proof (l_mono _ _ (later_reachable cfg wall _ s0 (dinv_init cfg wall start) Hc0)) as Hle.
    cbn [cinit mono] in Hle. apply Hfwd in Hle. unfold first_minute.
    assert (wall start / minute_ns < m); [|lia]. apply Z.div_lt_upper_bound; [done|lia]. }
  destruct (d_done _ _ Hd m Hstop Hin) as [[n Hseen]|[_ Ho]]; [|by rewrite Hpos in Ho].
  assert (k < n)%nat as Hkn.
  { apply lookup_lt_Some in Hj. pose proof (l_seen _ _ Hlater m n Hseen Hnew). lia. }
  destruct (d_seen _ _ Hd m n Hseen) as (_ & _ & Hh). specialize (Hh k Hkn).
  destruct (l_jobs _ _ Hlater k j Hj) as (j' & Hj' & Hsched).
  destruct (Hh j' Hj') as [?|Hsk]; [|by left|right].
  - unfold matching. rewrite Hsched. pose proof (crun_refines cfg wall _ _ Hc0) as Hrun.
    pose proof (inv_parsed _ _ _ (inv_reachable _ _ Hc _ Hrun) k j Hj) as Hp.
    destruct (match_fires _ _ _ Hp (Hc m)) as (g0 & g1 & g2 & g3 & g4 & Hg & ->).
    rewrite Hfields in Hg. by injection Hg as <- <- <- <- <-.
  - split; [|done]. destruct (overlap cfg) eqn:Ho; [|done].
    rewrite (skipped_overlap cfg wall start s Ho Hall) in Hsk. by apply elem_of_nil in Hsk.
Qed.

(** ** A run: minute 7 is read two seconds late, and its job dispatched *)

Fixpoint creplay (cfg : config) (wall : Z → Z) (acts : list caction) (s : clocked) : option clocked :=
  match acts with
  | [] => Some s
  | a :: acts => s' ← cexec cfg wall a s; creplay cfg wall acts s'
  end.
Lemma creplay_steps cfg wall acts s s' : creplay cfg wall acts s = Some s' → rtc (cstep cfg wall) s s'.
Proof.
  revert s. induction acts as [|a acts IH]; simpl; intros s; [intros [= ->]; apply rtc_refl|].
  intros (s1 & Hs & Hr)%bind_Some. eapply rtc_l; [by exists a|by apply IH].
Qed.

(** As [creplay], of a goroutine that keeps to its limits. *)
Fixpoint preplay (cfg : config) (wall : Z → Z) (D1 D2 : Z) (acts : list caction) (s : clocked) : option clocked :=
  match acts with
  | [] => Some s
  | a :: acts =>
      if match a with Elapse d => halted s || (mono s + d <=? limit D1 D2 s) | _ => true end
      then s' ← cexec cfg wall a s; preplay cfg wall D1 D2 acts s' else None
  end.
Lemma preplay_steps cfg wall D1 D2 acts s s' :
  preplay cfg wall D1 D2 acts s = Some s' → rtc (prompt_step cfg wall D1 D2) s s'.
Proof.
  revert s. induction acts as [|a acts IH]; simpl; intros s; [intros [= ->]; apply rtc_refl|].
  destruct (match a with Elapse d => _ | _ => _ end) eqn:Hg; [|done].
  intros (s1 & Hs & Hr)%bind_Some. eapply rtc_l; [|by apply IH].
  exists a. split; [done|]. intros d -> Hh. rewrite Hh in Hg. by apply Z.leb_le in Hg.
Qed.

Definition demo_cfg : config := {| loc := Some demo_civil; overlap := false; onPanic := nilPanicHandler |}.
Definition demo_wall (t : Z) : Z := 0 + t.
Definition sec : Z := 1000000000.
(** [New] at 5:30; a job is added, the timer fires at minute 6. *)
Definition demo_first : list caction :=
  [Elapse (20 * sec); Other (AddJob (str "7 * * * *")); Elapse (10 * sec); TimerC; ReadNow; Lock;
   Other Look; Other Look; Return_].
Definition demo_second : list caction :=
  [Elapse (62 * sec); TickerC; ReadNow; Lock; Other Look; Other Look; Return_; Elapse (15 * sec)].
Definition demo_start : clocked := cinit demo_wall (330 * sec).
Definition demo_mid : clocked := default demo_start (preplay demo_cfg demo_wall (5 * sec) (5 * sec) demo_first demo_start).
Definition demo_late : clocked := default demo_mid (preplay demo_cfg demo_wall (5 * sec) (5 * sec) demo_second demo_mid).

Lemma wall_at_most_once_witness :
  ticks demo_late = [6; 7] ∧ fired (sch demo_late) = [(0%nat, 7)] ∧ NoDup (fired (sch demo_late)).
Proof.
  split_and!; [vm_compute; reflexivity..|].
  apply (wall_at_most_once demo_cfg demo_wall (330 * sec) demo_late).
  - intros t t'. unfold demo_wall. lia.
  - apply (creplay_steps demo_cfg demo_wall (demo_first ++ demo_second)). vm_compute. reflexivity.
Defined.

Lemma no_due_minute_missed_witness :
  (0%nat, 7) ∈ fired (sch demo_late) ∨ overlap demo_cfg = false ∧ (0%nat, 7) ∈ skipped demo_late.
Proof.
  destruct (jobs (sch demo_mid) !! 0%nat) as [j|] eqn:Hj; [|vm_compute in Hj; discriminate Hj].
  assert (Fields (spec j) = [str "7"; str "*"; str "*"; str "*"; str "*"]) as Hf
    by (vm_compute in Hj; injection Hj as <-; vm_compute; reflexivity).
  apply (no_due_minute_missed demo_cfg demo_wall (5 * sec) (5 * sec) (330 * sec) demo_mid demo_late 0%nat j
    (str "7") (str "*") (str "*") (str "*") (str "*") 7).
  1: { intros t. unfold demo_wall. lia. }
  4: exact demo_civil_ok.
  4: { apply (preplay_steps _ _ _ _ demo_first). vm_compute. reflexivity. }
  4: { apply (preplay_steps _ _ _ _ demo_second). vm_compute. reflexivity. }
  4: exact Hj.
  4: exact Hf.
  all: vm_compute; congruence.
Defined.
