(* ===== verification/CronDrain.v ===== *)
(** * crontab: a shutdown comes to its end (crontab/crontab.go)

    The steps of the scheduler that nobody outside asks for: the dispatcher
    finishing its minute or leaving, the goroutines of the jobs and the calls of
    [Shutdown].  They run out, and they are not stuck before every call has
    returned. *)
From S2P Require Export Prelude CronSchedule CronScheduler.
Local Open Scope Z_scope.

(** No new minute, no call, and no deadline of a caller's. *)
Definition internal (a : action) : Prop :=
  match a with Tick _ | AddJob _ | CallShutdown | ShutdownTimeout _ => False | _ => True end.

#[export] Instance shutdown_pc_eq_dec : EqDecision shutdown_pc.
Proof. solve_decision. Defined.

(** How many steps are left, at most. *)
Definition phase_left (f : flight) : nat :=
  match f_phase f with InFn => 4 | InHandler => 3 | Clearing => 2 | Finishing => 1 | Finished => 0 end.
Definition pc_left (pc : shutdown_pc) : nat :=
  match pc with SdCalled => 3 | SdStopped => 2 | SdDraining => 1 | SdReturned _ => 0 end.
Definition run_left (s : state) : nat :=
  match run s with
  | Waiting => 1
  | Dispatching _ k => 2 + 5 * (length (jobs s) - k)
  | Exited | Crashed => 0
  end.
Definition drain_left (s : state) : nat :=
  run_left s + sum_list_with phase_left (flights s) + sum_list_with pc_left (shutdowns s).

(** Every call of [Shutdown] has returned; the dispatcher is gone if there was
    one, and in its [select] otherwise; no job is running. *)
Definition at_rest (s : state) : Prop :=
  (∀ i pc, shutdowns s !! i = Some pc → ∃ b, pc = SdReturned b)
  ∧ run s = (if stop s then Exited else Waiting)
  ∧ ∀ i f, flights s !! i = Some f → f_phase f = Finished.

Section drain.
Variable overlap : bool.
Variable civil_of : Z → civil.
Hypothesis civil_of_ok : ∀ m, civil_ok (civil_of m).
#[local] Abbreviation exec := (exec overlap civil_of).
#[local] Abbreviation inv := (inv overlap civil_of).

(** ** The steps run out *)

Lemma move_left i from to s s' :
  move i from to s = Some s' →
  (phase_left {| f_job := 0; f_phase := to |} < phase_left {| f_job := 0; f_phase := from |})%nat →
  (drain_left s' < drain_left s)%nat.
Proof using Type.
  intros (f & Hi & Hf & ->)%move_spec Hlt. unfold drain_left, run_left. cbn [run jobs flights shutdowns set_flights].
  pose proof (sum_list_with_insert phase_left _ _ _ {| f_job := f_job f; f_phase := to |} Hi) as Hsum.
  unfold phase_left in Hsum at 2 4, Hlt. cbn [f_phase] in *. rewrite Hf in Hsum. lia.
Qed.

Lemma shutdown_left st cl o i pc pc' s :
  shutdowns s !! i = Some pc → (pc_left pc' < pc_left pc)%nat →
  (drain_left (set_shutdown st cl o (<[i := pc']> (shutdowns s)) s) < drain_left s)%nat.
Proof using Type.
  intros Hi Hlt. unfold drain_left, run_left. cbn [run jobs flights shutdowns set_shutdown].
  pose proof (sum_list_with_insert pc_left _ _ _ pc' Hi). lia.
Qed.

Lemma look_left minute k j s :
  run s = Dispatching minute k → jobs s !! k = Some j →
  (drain_left (look overlap civil_of minute k j s) < drain_left s)%nat.
Proof using Type.
  intros Hr Hj. apply lookup_lt_Some in Hj. unfold look, drain_left, run_left. rewrite Hr.
  destruct (match_ _ _) as [[]|e|p]; cbn [run jobs flights shutdowns set_run]; [|lia..].
  case_decide; [cbn [run jobs flights shutdowns set_run]; lia|].
  destruct (_ && _); cbn [run jobs flights shutdowns set_run]; [lia|].
  rewrite length_insert, sum_list_with_app. simpl. lia.
Qed.

Lemma internal_decreases a s s' :
  internal a → exec a s = Some s' → (drain_left s' < drain_left s)%nat.
Proof using Type.
  intros Ha Hs. destruct a as [| | | |i|i|i|i|i| |i|]; try done; cbn [CronScheduler.exec] in Hs.
  - destruct (run s) as [|m k| |] eqn:Hr; try done.
    destruct (jobs s !! k) as [j|] eqn:Hj; injection Hs as <-; [by apply look_left|].
    unfold drain_left, run_left. rewrite Hr. cbn [run jobs flights shutdowns set_run]. lia.
  - destruct (run s) eqn:Hr; try done. destruct (stop s); [|done]. injection Hs as <-.
    unfold drain_left, run_left. rewrite Hr. cbn [run jobs flights shutdowns set_run]. lia.
  - eapply move_left; [exact Hs|]. unfold phase_left. simpl. lia.
  - eapply move_left; [exact Hs|]. unfold phase_left. simpl. lia.
  - eapply move_left; [exact Hs|]. unfold phase_left. simpl. lia.
  - apply bind_Some in Hs as (f & Hi & (s1 & Hm & [= <-])%bind_Some).
    assert (drain_left s1 < drain_left s)%nat as Hlt by (eapply move_left; [exact Hm|unfold phase_left; simpl; lia]).
    destruct overlap; [done|]. unfold drain_left, run_left in *.
    cbn [run jobs flights shutdowns set_jobs]. by rewrite length_alter.
  - apply bind_Some in Hs as (s1 & Hm & [= <-]). eapply move_left in Hm; [exact Hm|unfold phase_left; simpl; lia].
  - destruct (shutdowns s !! i) as [[]|] eqn:Hi; try done.
    + destruct (once s) as [[]|]; [|done|destruct (dispatching s); [done|]];
        injection Hs as <-; eapply shutdown_left; [exact Hi|simpl; lia|exact Hi|simpl; lia].
    + injection Hs as <-. eapply shutdown_left; [exact Hi|simpl; lia].
    + case_decide; [|done]. injection Hs as <-. eapply shutdown_left; [exact Hi|simpl; lia].
Qed.

(** ** There is one until everything is at rest *)

(** Whoever is inside [once.Do] is a call that has yet to close the channel,
    and until it has, every other call waits; the dispatcher leaves when the
    channel is closed. *)
Record once_ok (s : state) : Prop := {
  oo_once : match once s with
    | None => stop s = false ∧ ∀ i pc, shutdowns s !! i = Some pc → pc = SdCalled
    | Some false => stop s = false ∧ ∃ i, shutdowns s !! i = Some SdStopped
                    ∧ ∀ i' pc, shutdowns s !! i' = Some pc → i' = i ∨ pc = SdCalled
    | Some true => stop s = true ∧ ∀ i, shutdowns s !! i ≠ Some SdStopped
    end;
  oo_exited : run s = Exited → stop s = true;
}.

Lemma once_ok_same s s' :
  once s' = once s → stop s' = stop s → shutdowns s' = shutdowns s →
  (run s' = Exited → run s = Exited) → once_ok s → once_ok s'.
Proof using Type. intros Ho Hst Hsh Hr [H1 H2]. split; rewrite ?Ho, ?Hst, ?Hsh; auto. Qed.

Lemma look_shutdowns m k j s : shutdowns (look overlap civil_of m k j s) = shutdowns s.
Proof using Type. unfold look. by repeat case_match. Qed.

Lemma once_ok_look m k j s : once_ok s → once_ok (look overlap civil_of m k j s).
Proof using Type. unfold look. intros Hs. repeat case_match; by apply once_ok_same with s. Qed.

Lemma once_ok_moved i from to s s' : move i from to s = Some s' → once_ok s → once_ok s'.
Proof using Type. intros (f & _ & _ & ->)%move_spec. by apply once_ok_same. Qed.

Lemma once_ok_called s : once_ok s → once_ok (set_shutdown (stopped s) (stop s) (once s) (shutdowns s ++ [SdCalled]) s).
Proof using Type.
  intros [H1 H2]. split; cbn [once stop shutdowns run set_shutdown]; [|exact H2].
  destruct (once s) as [[]|].
  - destruct H1 as [Hst Hno]. split; [done|]. by intros i [[_ ?%Hno]|[_ ?]]%lookup_snoc_Some.
  - destruct H1 as (Hst & i & Hi & Ho). split; [done|]. exists i. split; [by apply lookup_app_l_Some|].
    intros i' pc [[_ ?]|[_ <-]]%lookup_snoc_Some; [by eapply Ho|by right].
  - destruct H1 as [Hst Ho]. split; [done|]. intros i pc [[_ ?]|[_ <-]]%lookup_snoc_Some; [by eapply Ho|done].
Qed.

(** A call past [once.Do] moves on: the once body is over. *)
Lemma once_ok_past s i pc pc' :
  once_ok s → shutdowns s !! i = Some pc → (pc = SdCalled → once s = Some true) → pc ≠ SdStopped →
  pc' ≠ SdStopped →
  once_ok (set_shutdown (stopped s) (stop s) (once s) (<[i := pc']> (shutdowns s)) s).
Proof using Type.
  intros [H1 H2] Hi Hc Hs Hs'. assert (once s = Some true) as Ho.
  { destruct (decide (pc = SdCalled)) as [|Hne]; [by auto|]. destruct (once s) as [[]|]; [done|..].
    - destruct H1 as (_ & i0 & Hi0 & Hoth). by destruct (Hoth _ _ Hi) as [->|?]; [congruence|].
    - destruct H1 as [_ Hall]. by apply Hall in Hi. }
  split; cbn [once stop shutdowns run set_shutdown]; [|exact H2]. rewrite Ho in *.
  destruct H1 as [Hst Hno]. split; [done|].
  intros i'. rewrite list_lookup_insert. case_decide; [congruence|apply Hno].
Qed.

Lemma once_ok_step a s s' : once_ok s → exec a s = Some s' → once_ok s'.
Proof using Type.
  intros Hok Hs. destruct a as [m| | |text|i|i|i|i|i| |i|i]; cbn [CronScheduler.exec] in Hs.
  - destruct (run s); try done. injection Hs as <-. destruct (stopped s); [done|]. by apply once_ok_same with s.
  - destruct (run s) as [|m k| |]; try done. destruct (jobs s !! k); injection Hs as <-;
      [by apply once_ok_look|by apply once_ok_same with s].
  - destruct (run s); try done. destruct (stop s) eqn:Hst; [|done]. injection Hs as <-.
    destruct Hok as [H1 _]. split; [exact H1|by intros _].
  - destruct (dispatching s); [done|]. unfold add_job in Hs.
    destruct (parse text); simpl in Hs; [|by injection Hs as <-..].
    destruct (stopped s); injection Hs as <-; [done|]. by apply once_ok_same with s.
  - by eapply once_ok_moved.
  - by eapply once_ok_moved.
  - by eapply once_ok_moved.
  - apply bind_Some in Hs as (f & _ & (s1 & Hm & [= <-])%bind_Some).
    pose proof (once_ok_moved _ _ _ _ _ Hm Hok). destruct overlap; [done|]. by apply once_ok_same with s1.
  - apply bind_Some in Hs as (s1 & Hm & [= <-]). pose proof (once_ok_moved _ _ _ _ _ Hm Hok).
    by apply once_ok_same with s1.
  - injection Hs as <-. by apply once_ok_called.
  - destruct (shutdowns s !! i) as [[]|] eqn:Hi; try done.
    + destruct (once s) as [[]|] eqn:Ho; [|done|destruct (dispatching s); [done|]]; injection Hs as <-.
      * rewrite <-Ho. by eapply once_ok_past.
      * destruct Hok as [H1 H2]. rewrite Ho in H1. destruct H1 as [Hst Hall].
        split; cbn [once stop shutdowns run set_shutdown]; [|exact H2]. split; [done|]. exists i.
        split; [apply list_lookup_insert_eq; by eapply lookup_lt_Some|].
        intros i' pc. rewrite list_lookup_insert. case_decide as Hd; [left; symmetry; apply Hd|right; by eapply Hall].
    + injection Hs as <-. destruct Hok as [H1 H2]. split; cbn [once stop shutdowns run set_shutdown]; [|done].
      split; [done|]. intros i'. rewrite list_lookup_insert. case_decide as Hd; [done|]. intros Hi'.
      apply lookup_lt_Some in Hi as Hlen. destruct (once s) as [[]|].
      * by destruct H1 as [_ Hno%(λ H, H i)].
      * destruct H1 as (_ & i0 & Hi0 & Ho). destruct (Ho _ _ Hi) as [->|?]; [|done].
        destruct (Ho _ _ Hi') as [->|?]; [by apply Hd|done].
      * destruct H1 as [_ Hall]. by apply Hall in Hi.
    + case_decide; [|done]. injection Hs as <-. by eapply once_ok_past.
  - destruct (shutdowns s !! i) as [[]|] eqn:Hi; try done. injection Hs as <-. by eapply once_ok_past.
Qed.

Lemma once_ok_reachable s : rtc (step overlap civil_of) init s → once_ok s.
Proof using Type.
  intros Hr. assert (∀ x, once_ok x → rtc (step overlap civil_of) x s → once_ok s) as Hgen.
  { clear Hr. intros x Hx Hr. revert Hx. induction Hr as [|x y z [a Ha] _ IH]; [done|].
    intros Hx. by eapply IH, once_ok_step. }
  apply (Hgen init); [|done]. split; [|done]. split; [done|]. intros i pc Hi. cbn [shutdowns init] in Hi. by rewrite lookup_nil in Hi.
Qed.

(** A live goroutine of a job can always take its next step. *)
Lemma flight_progress s i f :
  flights s !! i = Some f → live f = true → ∃ a s', internal a ∧ exec a s = Some s'.
Proof using Type.
  intros Hi Hl. unfold live in Hl. apply negb_true_iff, bool_decide_eq_false in Hl.
  assert (∀ to, is_Some (move i (f_phase f) to s)) as Hm.
  { intros to. unfold move. rewrite Hi. simpl. rewrite decide_True by done. by eexists. }
  destruct (f_phase f); [| | | |done].
  - destruct (Hm Clearing) as [s' Hs']. by exists (FnReturns i), s'.
  - destruct (Hm Clearing) as [s' Hs']. by exists (HandlerEnds i), s'.
  - destruct (Hm Finishing) as [s' Hs']. exists (Clear i). simpl. rewrite Hi. simpl. rewrite Hs'. simpl. eauto.
  - destruct (Hm Finished) as [s' Hs']. exists (Done i). simpl. rewrite Hs'. simpl. eauto.
Qed.

(** With no job running and nobody dispatching, some call can take a step. *)
Lemma shutdown_progress s i pc :
  once_ok s → wg s = 0 → dispatching s = false → shutdowns s !! i = Some pc →
  (∀ b, pc ≠ SdReturned b) → ∃ a s', internal a ∧ exec a s = Some s'.
Proof using Type.
  intros [H1 _] Hw Hd Hi Hpc. destruct pc as [| | |b]; [| | |by destruct (Hpc b)].
  - destruct (once s) as [[]|] eqn:Ho.
    + exists (ShutdownStep i). simpl. rewrite Hi, Ho. eauto.
    + destruct H1 as (_ & i0 & Hi0 & _). exists (ShutdownStep i0). simpl. rewrite Hi0. eauto.
    + exists (ShutdownStep i). simpl. rewrite Hi, Ho, Hd. eauto.
  - exists (ShutdownStep i). simpl. rewrite Hi. eauto.
  - exists (ShutdownStep i). simpl. rewrite Hi, decide_True by done. eauto.
Qed.

Lemma drain_progress s :
  inv s → once_ok s → at_rest s ∨ ∃ a s', internal a ∧ exec a s = Some s'.
Proof using Type.
  intros Hinv Hok. pose proof Hinv as [].
  destruct (decide (cnt live (flights s) = 0)) as [Hz|Hnz].
  2:{ right. pose proof (cnt_nonneg live (flights s)).
      destruct (cnt_pos_inv live (flights s)) as (i & f & Hi & Hl); [lia|]. by eapply flight_progress. }
  destruct (run s) as [|m k| |] eqn:Hr; [| | |done].
  2:{ right. exists Look. simpl. rewrite Hr. destruct (jobs s !! k); eauto. }
  1: destruct (stop s) eqn:Hst; [right; exists Stop; simpl; rewrite Hr, Hst; eauto|].
  all: set (waits := λ pc, match pc with SdReturned _ => false | _ => true end).
  all: destruct (decide (cnt waits (shutdowns s) = 0)) as [Hw|Hnw];
    [|right; pose proof (cnt_nonneg waits (shutdowns s));
      destruct (cnt_pos_inv waits (shutdowns s)) as (i & pc & Hi & Hpc); [lia|];
      apply (shutdown_progress s i pc Hok); [congruence|unfold dispatching; by rewrite Hr|done|by intros b ->]].
  all: left; split; [intros i pc Hi; pose proof (cnt_zero_inv _ _ _ _ Hw Hi) as H; destruct pc; by eauto|].
  all: split; [|intros i f Hi; pose proof (cnt_zero_inv _ _ _ _ Hz Hi) as Hl; unfold live in Hl;
                by apply negb_false_iff, bool_decide_eq_true in Hl].
  - by rewrite Hr, Hst.
  - by rewrite Hr, (oo_exited _ Hok Hr).
Qed.

(** Without a deadline a call does not fail. *)
Lemma internal_call a s s' i pc :
  internal a → exec a s = Some s' → shutdowns s !! i = Some pc → pc ≠ SdReturned false →
  ∃ pc', shutdowns s' !! i = Some pc' ∧ pc' ≠ SdReturned false.
Proof using Type.
  intros Ha Hs Hi Hpc. assert (∀ i' pc', pc' ≠ SdReturned false →
    ∃ pc0, <[i' := pc']> (shutdowns s) !! i = Some pc0 ∧ pc0 ≠ SdReturned false) as Hins.
  { intros i' pc' Hne. rewrite list_lookup_insert. case_decide; [|eauto]. eauto. }
  destruct a as [| | | |i'|i'|i'|i'|i'| |i'|]; try done; cbn [CronScheduler.exec] in Hs.
  - destruct (run s) as [|m k| |]; try done.
    destruct (jobs s !! k); injection Hs as <-; [rewrite look_shutdowns|]; eauto.
  - destruct (run s); try done. destruct (stop s); [|done]. injection Hs as <-. eauto.
  - apply move_spec in Hs as (f & _ & _ & ->). eauto.
  - apply move_spec in Hs as (f & _ & _ & ->). eauto.
  - apply move_spec in Hs as (f & _ & _ & ->). eauto.
  - apply bind_Some in Hs as (f & _ & (s1 & (f' & _ & _ & ->)%move_spec & [= <-])%bind_Some).
    destruct overlap; eauto.
  - apply bind_Some in Hs as (s1 & (f & _ & _ & ->)%move_spec & [= <-]). eauto.
  - destruct (shutdowns s !! i') as [[]|]; try done.
    + destruct (once s) as [[]|]; [|done|destruct (dispatching s); [done|]]; injection Hs as <-; by apply Hins.
    + injection Hs as <-. by apply Hins.
    + case_decide; [|done]. injection Hs as <-. by apply Hins.
Qed.

(** ** Theorem *)

(** C19: A shutdown comes to its end if the job functions return (so none calls
    [Shutdown] of its own scheduler).  From every reachable state, in every order, the scheduler, its jobs and the calls of [Shutdown] can take at most
    [drain_left] steps without a new tick, a new call or a deadline; one of them
    can take one until everything is at rest: every call has returned, no job is
    running, and the dispatcher is gone once the channel is closed.  A call whose
    deadline has not passed before then returns nil. *)
Theorem shutdown_completes s :
  rtc (step overlap civil_of) init s →
  (∀ a s', internal a → exec a s = Some s' → (drain_left s' < drain_left s)%nat)
  ∧ (at_rest s ∨ ∃ a s', internal a ∧ exec a s = Some s')
  ∧ ∀ s' i pc, shutdowns s !! i = Some pc → pc ≠ SdReturned false →
      rtc (λ x y, ∃ a, internal a ∧ exec a x = Some y) s s' → at_rest s' →
      shutdowns s' !! i = Some (SdReturned true).
Proof using civil_of_ok.
  intros Hr. split_and!.
  - intros a s' Ha Hs. by eapply internal_decreases.
  - apply drain_progress; [by apply inv_reachable|by apply once_ok_reachable].
  - intros s' i pc Hi Hpc Hsteps (Hret & _). revert pc Hi Hpc.
    induction Hsteps as [x|x y z (a & Ha & Hxy) _ IH]; intros pc Hi Hpc.
    + destruct (Hret i pc Hi) as [[] ->]; done.
    + destruct (internal_call _ _ _ _ _ Ha Hxy Hi Hpc) as (pc' & Hi' & Hpc').
      assert (rtc (step overlap civil_of) init y) as Hy by (eapply rtc_r; [exact Hr|by exists a]).
      by eapply IH.
Qed.
End drain.

(** Two jobs in flight when [Shutdown] is called. *)
Definition demo_called : state := after_acts (demo_acts ++ [CallShutdown]).

Lemma shutdown_completes_witness :
  drain_left demo_called = 12%nat ∧ ∃ a s', internal a ∧ exec false demo_civil a demo_called = Some s'.
Proof.
  destruct (shutdown_completes false demo_civil demo_civil_ok demo_called) as (_ & [Hrest|Hgo] & _).
  - apply (replay_steps false demo_civil (demo_acts ++ [CallShutdown])). vm_compute. reflexivity.
  - destruct Hrest as (Hret & _). destruct (Hret 0%nat SdCalled) as [b Hb]; [vm_compute; reflexivity|discriminate Hb].
  - split; [vm_compute; reflexivity|exact Hgo].
Defined.
